(* ===== verification/_CoqProject ===== *)
-Q . S2P
Prelude.v
Resp.v
Slots.v
Backlog.v
HashTable.v
Store.v
Snapshot.v
Dispatcher.v
Replay.v
ClusterMsg.v
Sys.v
FsyncWorker.v
Aof.v
Persistence.v
Replication.v
ReplicationStream.v
ReplicationLink.v
Server.v
EventLoop.v
Cluster.v
ClusterStore.v
ClusterInv.v
ClusterOps.v
ClusterEvents.v
ClusterRules.v
ClusterConfig.v
ClusterSafety.v
ClusterClaims.v
