(* ===== verification/Prelude.v ===== *)
(** * EpochKV: a verification development

    EpochKV is a Redis-compatible key-value server in C++.  A single thread runs
    an event loop: bytes that arrive on a connection go through the RESP parser,
    complete commands through the command dispatcher, which works on the store;
    what a write command changed is logged as a command, to the append-only file
    and to the replicas' stream.  Snapshots and rewrites of the append-only file
    are written by a forked child; cluster nodes exchange messages on a bus of
    their own.  This library models these parts as Rocq definitions, one file per
    component, and proves what makes each of them correct.

    ** The files

    - [Prelude]: byte strings, machine integers with their wrap-around, decimal
      text ([std::to_string], [std::from_chars]), updates of record fields, lemmas
      on lists, tactics.
    - [Resp]: src/src/reply.cpp ([Reply]) and src/src/resp_parser.cpp
      ([Parser]).  The parser is [try_parse_command] on the buffered bytes;
      [drain] and [read_chunks] are the loops that drive it.
    - [Slots]: src/src/cluster_slot.cpp, CRC16 and hash tags.
    - [Backlog]: src/src/repl_backlog.cpp, the ring of the replication stream.
    - [HashTable]: src/include/hash_table.hpp, with its two arrays, the chains
      and the incremental rehashing.  [KeyTable] and [KeyTableLaws] are the
      interface through which the store uses it.
    - [Store]: src/src/store.cpp, over any [KeyTable]: values, deadlines, the LRU
      list and the slot index with their iterators, the memory estimate, lazy
      and active expiry, eviction.
    - [Snapshot]: src/src/snapshot.cpp, the writer and the reader of the file
      format over partial and interrupted system calls, and DUMP payloads.
    - [Dispatcher]: src/src/command_dispatcher.cpp, the command table, the checks
      and every handler.  Persistence, replication, the cluster and the
      connection of MIGRATE are the class [Services].
    - [Replay]: what executing the propagated commands rebuilds; the propagator
      and the replay of src/src/kv_server.cpp.
    - [ClusterMsg]: src/src/cluster_msg.cpp, the messages of the cluster bus.
    - [Sys]: system calls, a file system that can crash, src/src/file_util.cpp and
      [snapshot::save].  Programs are trees of calls ([prog]), so that they can
      be stopped between any two; [wp] is the logic to reason about all the
      points of a run.
    - [FsyncWorker]: the background thread of src/src/aof.cpp and the event loop,
      as interleaved steps.
    - [Aof]: src/src/aof.cpp, the append-only file.
    - [Persistence]: src/src/persistence.cpp, which ties snapshots, the
      append-only file and the child processes to the server.
    - [Replication]: src/src/replication.cpp, both ends of it, and what
      src/src/server.cpp does with the connections they share: a [Node] is the
      object, its connections and what it sees of the store and the child.
      [step] is one thing that can happen to a node; [ClientHost] is what the
      event loop promises to replication.
    - [ReplicationStream]: the master's invariant, over every step.
    - [ReplicationLink]: the replica's handshake and transfer, and both ends put
      together.
    - [Server]: src/src/server.cpp, from the bytes of a connection to an iteration
      of the loop with the hooks of src/src/kv_server.cpp; the dispatcher is the
      class [Commands].
    - [EventLoop]: what holds after every iteration.
    - [Cluster]: src/src/cluster.cpp.  Nodes and links are objects on heaps
      ([Peer], [Link]) and pointers are their addresses, so that a pointer can
      dangle; [handle] is one thing that can happen to a node (an [Event]), [boot]
      its start from a configuration file.  The class [SlotStore] is what it asks
      of the dataset.
    - [ClusterStore]: [Store] as a [SlotStore]; what losing slots deletes and logs.
    - [ClusterInv]: the invariant [good] and the operations the handlers are made
      of; [ClusterOps]: the handlers; [ClusterEvents]: the events.
    - [ClusterRules]: what the rules for slots, votes, promotion and routing
      decide; [ClusterConfig]: the configuration file and the start from it.
    - [ClusterSafety]: [life], the states a node can come to over events and
      restarts; [ClusterClaims]: the theorems about the cluster.

    In each file the definitions follow the source: a record per class, one
    definition per function, with the names of the source.  The theorems that
    state what the component promises are in the module whose name ends in
    [Claims], each with a number, and with a concrete instance where it has
    hypotheses.

    ** What is shown

    - Protocol: commands are read back as they were written, however the stream
      is split, and a log torn anywhere yields exactly its complete commands
      (C10, C28, [parse_encoded_command]).
    - Storage: the hash table is a finite map at every stage of a resize,
      resizes finish, the load stays bounded and sampling is exact (C7,
      [resize_finishes], [load_factor_bounded], [random_entry_exact]); the store
      refines an abstract keyspace, its iterators never dangle, eviction is LRU,
      active expiry and the slot index are exact (C6, C30-C33).
    - Snapshots: files and payloads round-trip, torn and damaged ones are
      refused (C9, C34, [dump_restore_round_trip], [damaged_payload_refused]).
    - Log: replaying what was propagated rebuilds every key whose logged
      deadlines have not passed, and loses keys otherwise (C1, C39).
    - Append-only file: it survives crashes between any two system calls of any
      operation, resets included, with everything acknowledged as durable, from
      its creation on and after every recovery again (C2, C13,
      [create_starts_session]); syncs of the directory must not fail, since the
      log is lost where one does (C37).
    - Persistence: never two children, an exact change counter, and atomic
      snapshots (C14, C17, C18, [snapshot_reports_true]). The background sync
      syncs exactly what it accepted and no wake-up is lost (C19, C22), but a
      failed one is not retried (C38).
    - Replication: what a replica is sent is its answer and then the exact
      stream, over any sequence of steps of the master; a replica that reads it
      ends up with a dataset the master had, and the rest of the stream to
      execute; no pointer to a connection dangles (C4, C5, C20). A failed load
      and an empty host name leave a node in a bad state (C36,
      [empty_host_stops_expiry]).
    - Event loop: a connection's input is run as far as it can be and no queued
      byte is forgotten (C21, C29), but for every dispatcher a reply can leave
      before the log is written (C35).
    - Bus: the table-driven CRC16 is XMODEM, bus messages round-trip and only
      valid ones are decoded (C24, [crc16_is_xmodem], [decode_only_valid]).
    - Cluster, over every life of a node: it never votes twice in an epoch,
      whatever it forgets when it stops; its invariant holds; its epochs do not
      go back; it starts again from its file, which is read back as it was
      written (C3, C8, C11, C23, C25).
    - Cluster, rule by rule: who gets a contested slot and what happens to its
      keys, when a vote is cast, what a promoted replica owns, which commands a
      node runs (C12, C15, C16, C26, C27), and which reports flag a node as
      failed: those of all masters, against a quorum of the slot-serving ones
      (C40).

    ** Conventions, bounds and fuel

    Strings are lists of bytes.  Machine integers are [Z] with the wrap-around
    ([u64], ...) written out where the code can reach it.  Clocks, random draws,
    the outcomes of system calls and the split of reads and writes are arguments:
    the theorems hold for all of them.  Loops that are not structural have fuel
    computed from their input ([drain]: the buffered bytes; [read_file]: the
    bytes and the outcomes of reads; [dec_nonneg]: the binary logarithm;
    the chains of [random_entry]: the draws), and the theorems are about the
    results with that fuel, so none of them holds for want of it.

    A crash ([Sys.crash]) keeps of each file the synced part and any prefix of
    the rest, and of the operations on the directory those before the last sync
    and any prefix of the later ones.  Opening with [O_TRUNC] links the name to
    an empty file.

    The theorems about replication are for offsets that fit 64 bits: [wrapped] is
    a ghost that records when the code would have wrapped one around.  A WAIT that
    is parked on a connection that carries a stream is answered into the stream;
    the ghost [disturbed] records that, and the theorems about what a replica is
    sent are for connections without it.

    The theorems about a life of a cluster node have a bound [B] on the epochs
    seen and the ids drawn, which every event raises by its [cost] and which must
    fit 64 bits.  The ids a node draws are distinct from each other and from those in its file.  The other
    nodes may send anything well-formed whose epochs are within the bound
    ([admissible]), and no client sends a NUL in the address of MEET.  What the
    sockets take, the order of gossip, the clock and whether the file can be saved
    are free ([World]).  [disk], [unsynced] and [posted] are ghosts: the file on
    disk, the older ones a crash may bring back because the rename over them was
    not synced, and the messages handed to links over all restarts.

    Where the code is undefined (a WAIT whose deadline exceeds the clock's range,
    MEET with an unreadable port, a key that expires while MIGRATE reads it) the
    definitions say what they take instead.

    ** Not modelled

    Creating the listening socket (src/src/server.cpp) and
    the exchange of MIGRATE (src/src/migrate.cpp): sockets.  Option parsing
    (src/src/kv_server.cpp).  What is printed to the log.  The dispatcher calls
    the cluster through [Services]; the two are not put together.  The Python client, the tools and the benchmarks talk to the server from
    outside. *)

From stdpp Require Export base gmap list strings numbers option.
From Stdlib Require Export Strings.Byte.
From Stdlib Require Import Lia.

#[global] Open Scope Z_scope.

(** ** Automation *)

(** Boolean comparisons of the code as propositions, then [lia]. *)
Ltac zbool :=
  repeat match goal with
  | H : (_ && _) = true |- _ => apply andb_true_iff in H as [? ?]
  | H : (_ || _) = false |- _ => apply orb_false_iff in H as [? ?]
  | H : negb _ = true |- _ => apply negb_true_iff in H
  | H : negb _ = false |- _ => apply negb_false_iff in H
  | H : (_ <? _)%Z = true |- _ => apply Z.ltb_lt in H
  | H : (_ <? _)%Z = false |- _ => apply Z.ltb_ge in H
  | H : (_ <=? _)%Z = true |- _ => apply Z.leb_le in H
  | H : (_ <=? _)%Z = false |- _ => apply Z.leb_gt in H
  | H : (_ =? _)%Z = true |- _ => apply Z.eqb_eq in H
  | H : (_ =? _)%Z = false |- _ => apply Z.eqb_neq in H
  | H : (_ <? _)%nat = true |- _ => apply Nat.ltb_lt in H
  | H : (_ <? _)%nat = false |- _ => apply Nat.ltb_ge in H
  | H : (_ <=? _)%nat = true |- _ => apply Nat.leb_le in H
  | H : (_ <=? _)%nat = false |- _ => apply Nat.leb_gt in H
  | H : (_ =? _)%nat = true |- _ => apply Nat.eqb_eq in H
  | H : (_ =? _)%nat = false |- _ => apply Nat.eqb_neq in H
  end.
Ltac zlia := zbool; lia.

(** ** Byte strings

    A C++ [std::string] is binary safe: it is a list of bytes. *)

Abbreviation bytes := (list byte).

#[global] Instance byte_eq_decision : EqDecision byte := Byte.byte_eq_dec.

#[global] Program Instance byte_countable : Countable byte :=
  inj_countable Byte.to_N Byte.of_N _.
Next Obligation. intros b. apply Byte.of_to_N. Qed.

Declare Scope kv_scope.
Delimit Scope kv_scope with kv.

(** [&"SET"] is the byte string of the literal. *)
Notation "& s" := (String.list_byte_of_string s%string)
  (at level 1, s at level 0, format "& s") : kv_scope.
#[global] Open Scope kv_scope.

(** The unsigned value of a byte, and the byte of the low 8 bits of an
    integer ([static_cast<uint8_t>]). *)
Definition bz (b : byte) : Z := Z.of_N (Byte.to_N b).

Definition zb (z : Z) : byte := default x00 (Byte.of_N (Z.to_N (z mod 256))).

Lemma bz_range b : 0 <= bz b < 256.
Proof. unfold bz. pose proof (Byte.to_N_bounded b). lia. Qed.

Lemma bz_zb z : bz (zb z) = z mod 256.
Proof.
  unfold bz, zb.
  assert (0 <= z mod 256 < 256) by (apply Z.mod_pos_bound; lia).
  destruct (Byte.of_N (Z.to_N (z mod 256))) as [b|] eqn:E; simpl.
  - apply Byte.to_of_N in E. lia.
  - apply Byte.of_N_None_iff in E. lia.
Qed.

Lemma bz_zb_small z : 0 <= z < 256 -> bz (zb z) = z.
Proof. intros. rewrite bz_zb. by apply Z.mod_small. Qed.

#[global] Instance bz_inj : Inj (=) (=) bz.
Proof.
  unfold bz. intros a b H. apply N2Z.inj in H.
  pose proof (Byte.of_to_N a). pose proof (Byte.of_to_N b). congruence.
Qed.

Lemma zb_bz b : zb (bz b) = b.
Proof. apply (inj bz). rewrite bz_zb, Z.mod_small; [done | apply bz_range]. Qed.

(** Boolean equality of strings, as [operator==] computes it. *)
Definition beq (a b : bytes) : bool := bool_decide (a = b).

Lemma beq_eq a b : beq a b = true <-> a = b.
Proof. apply bool_decide_eq_true. Qed.

Lemma beq_neq a b : beq a b = false <-> a <> b.
Proof. apply bool_decide_eq_false. Qed.

Lemma beq_refl a : beq a a = true.
Proof. by apply beq_eq. Qed.

(** The size of a string as [size_t]. *)
Definition zlen {A} (l : list A) : Z := Z.of_nat (length l).

Lemma zlen_nonneg {A} (l : list A) : 0 <= zlen l.
Proof. unfold zlen. lia. Qed.

Lemma zlen_app {A} (l k : list A) : zlen (l ++ k) = zlen l + zlen k.
Proof. unfold zlen. rewrite length_app. lia. Qed.

Lemma zlen_cons {A} (x : A) l : zlen (x :: l) = 1 + zlen l.
Proof. unfold zlen. simpl. lia. Qed.

Lemma zlen_nil {A} : zlen (@nil A) = 0.
Proof. done. Qed.

(** ** Record update

    [r <| f := v |>] is the record [r] with field [f] set to [v].  A record
    type takes part by declaring its eta expansion: the constructor applied to
    every field of the argument.  The setter of a field is that expansion with
    the projection abstracted out. *)

Class Eta (R : Type) := eta_expand : R -> R.
Class Setter {R T : Type} (proj : R -> T) := update : (T -> T) -> R -> R.
Arguments update {R T} proj {_} _ _ /.

Ltac derive_setter :=
  match goal with
  | |- @Setter ?R ?T ?proj =>
      let inst := constr:(_ : Eta R) in
      let body := eval hnf in inst in
      match eval pattern proj in body with
      | ?f _ =>
          let setter := eval cbv beta in (fun g : T -> T => f (fun r => g (proj r))) in
          exact setter
      end
  end.
#[global] Hint Extern 0 (Setter _) => derive_setter : typeclass_instances.

Notation "r <| f := v |>" := (update f (fun _ => v) r)
  (at level 12, left associativity, format "r  <| f  :=  v |>") : kv_scope.

(** ** Lists of lists and permutations *)

Lemma concat_delete_perm {A} (t : list (list A)) i c :
  t !! i = Some c -> concat t ≡ₚ c ++ concat (delete i t).
Proof.
  revert i. induction t as [|d t IH]; intros [|i] H; simplify_eq/=; [done|].
  rewrite (IH _ H), !app_assoc. apply Permutation_app_tail, Permutation_app_comm.
Qed.

Lemma delete_insert_list {A} (t : list A) i c : delete i (<[i := c]> t) = delete i t.
Proof. revert i. induction t as [|d t IH]; intros [|i]; simpl; f_equal; auto. Qed.

(** Replacing one bucket replaces its entries and no others. *)
Lemma concat_insert_perm {A} (t : list (list A)) i c :
  (i < length t)%nat -> concat (<[i := c]> t) ≡ₚ c ++ concat (delete i t).
Proof.
  intros H. rewrite (concat_delete_perm (<[i := c]> t) i c), delete_insert_list; [done|].
  by rewrite list_lookup_insert_eq.
Qed.

Lemma elem_of_concat {A} (x : A) (t : list (list A)) :
  x ∈ concat t <-> exists i c, t !! i = Some c /\ x ∈ c.
Proof.
  rewrite list_elem_of_In, in_concat. setoid_rewrite <-list_elem_of_In.
  split.
  - intros (c & Hc & Hx). apply list_elem_of_lookup in Hc as [i Hi]. eauto.
  - intros (i & c & Hi & Hx). exists c. split; [|done]. by eapply list_elem_of_lookup_2.
Qed.

Lemma concat_replicate_nil {A} n : concat (replicate n (@nil A)) = [].
Proof. by induction n. Qed.

(** [l] with every occurrence of [x] taken out. *)
Definition without {A} `{EqDecision A} (x : A) (l : list A) : list A :=
  filter (fun y => y <> x) l.

Lemma without_absent {A} `{EqDecision A} (x : A) l : x ∉ l -> without x l = l.
Proof.
  intros H. unfold without. induction l as [|y l IH]; [done|].
  rewrite filter_cons_True by set_solver. f_equal. set_solver.
Qed.

Lemma elem_of_without {A} `{EqDecision A} (x y : A) l : y ∈ without x l <-> y <> x /\ y ∈ l.
Proof. unfold without. by rewrite list_elem_of_filter. Qed.

(** ** Machine integers *)

Definition u16 (z : Z) : Z := z mod 2 ^ 16.
Definition u32 (z : Z) : Z := z mod 2 ^ 32.
Definition u64 (z : Z) : Z := z mod 2 ^ 64.
Definition size_max : Z := 2 ^ 64 - 1.
Definition int64_min : Z := - 2 ^ 63.
Definition int64_max : Z := 2 ^ 63 - 1.
Definition in_int64 (z : Z) : bool := (int64_min <=? z) && (z <=? int64_max).

(** [__builtin_add_overflow] / [__builtin_mul_overflow] on [int64_t]: [None]
    is the overflow flag. *)
Definition add_overflow (a b : Z) : option Z :=
  if in_int64 (a + b) then Some (a + b) else None.
Definition mul_overflow (a b : Z) : option Z :=
  if in_int64 (a * b) then Some (a * b) else None.

Lemma u64_small z : 0 <= z < 2 ^ 64 -> u64 z = z.
Proof. intros. unfold u64. by apply Z.mod_small. Qed.

Lemma u64_add_l a b : u64 (u64 a + b) = u64 (a + b).
Proof. apply Zplus_mod_idemp_l. Qed.

Lemma u64_sub_l a b : u64 (u64 a - b) = u64 (a - b).
Proof. apply Zminus_mod_idemp_l. Qed.

(** Bits that do not overlap add up. *)
Lemma lor_shiftl a b n :
  0 <= n -> 0 <= a < 2 ^ n -> Z.lor a (Z.shiftl b n) = a + b * 2 ^ n.
Proof.
  intros Hn Ha. rewrite <-(Z.shiftl_mul_pow2 b n) by done.
  assert (Z.land a (Z.shiftl b n) = 0) as Hd.
  { apply Z.bits_inj'. intros i Hi. rewrite Z.land_spec, Z.bits_0.
    destruct (Z.ltb_spec i n).
    - by rewrite (Z.shiftl_spec_low _ _ _), andb_false_r by lia.
    - rewrite <-(Z.mod_small a (2 ^ n)) by done.
      by rewrite Z.mod_pow2_bits_high by lia. }
  rewrite <-(Z.lxor_lor _ _ Hd). symmetry. by apply Z.add_nocarry_lxor.
Qed.

(** ** Decimal text: [std::to_string] and [std::from_chars] *)

Definition digit_byte (d : Z) : byte := zb (48 + d).
Definition is_digit (b : byte) : bool := (48 <=? bz b) && (bz b <=? 57).

Fixpoint dec_digits (fuel : nat) (n : Z) : bytes :=
  match fuel with
  | O => []
  | S f => if n <? 10 then [digit_byte n]
           else dec_digits f (n / 10) ++ [digit_byte (n mod 10)]
  end.

(** A number [n] has at most [log2 n + 1] decimal digits, so this fuel is
    always enough. *)
Definition dec_nonneg (n : Z) : bytes := dec_digits (S (Z.to_nat (Z.log2 n))) n.

(** [std::to_string]. *)
Definition to_string (n : Z) : bytes :=
  if n <? 0 then "-"%byte :: dec_nonneg (- n) else dec_nonneg n.

Fixpoint scan_digits (s : bytes) : bytes * bytes :=
  match s with
  | b :: t => if is_digit b then let '(ds, rest) := scan_digits t in (b :: ds, rest)
              else ([], s)
  | [] => ([], [])
  end.

Definition digits_value (ds : bytes) : Z :=
  foldl (fun acc d => acc * 10 + (bz d - 48)) 0 ds.

(** [std::from_chars] on an integer type with the given signedness and range:
    the parsed value and the unconsumed rest, or [None] when [ec] reports an
    error (no digits, or out of range). *)
Definition from_chars (signed : bool) (lo hi : Z) (s : bytes) : option (Z * bytes) :=
  let '(neg, body) :=
    match s with
    | b :: t => if signed && (bz b =? 45) then (true, t) else (false, s)
    | [] => (false, [])
    end in
  let '(ds, rest) := scan_digits body in
  match ds with
  | [] => None
  | _ => let v := if (neg : bool) then - digits_value ds else digits_value ds in
         if (lo <=? v) && (v <=? hi) then Some (v, rest) else None
  end.

(** The idiom of every parser of the program: the whole text must be consumed. *)
Definition from_chars_all (signed : bool) (lo hi : Z) (s : bytes) : option Z :=
  match from_chars signed lo hi s with
  | Some (v, []) => Some v
  | _ => None
  end.

Lemma is_digit_digit_byte d : 0 <= d < 10 -> is_digit (digit_byte d) = true.
Proof. intros. unfold is_digit, digit_byte. rewrite bz_zb_small by lia. lia. Qed.

Lemma digits_value_snoc ds d :
  digits_value (ds ++ [d]) = digits_value ds * 10 + (bz d - 48).
Proof. unfold digits_value. by rewrite foldl_app. Qed.

Lemma dec_digits_S f n :
  dec_digits (S f) n =
  if n <? 10 then [digit_byte n] else dec_digits f (n / 10) ++ [digit_byte (n mod 10)].
Proof. done. Qed.

Lemma dec_digits_spec fuel n :
  0 <= n -> n < 2 * 2 ^ Z.of_nat fuel ->
  dec_digits (S fuel) n <> [] /\
  Forall (fun b => is_digit b = true) (dec_digits (S fuel) n) /\
  digits_value (dec_digits (S fuel) n) = n.
Proof.
  revert n. induction fuel as [|f IH]; intros n Hn Hlt;
    rewrite dec_digits_S; destruct (Z.ltb_spec n 10) as [Hd|Hd].
  1, 3: split_and!;
    [done | constructor; [apply is_digit_digit_byte; lia | done]
    | unfold digits_value, digit_byte; simpl; rewrite bz_zb_small by lia; lia].
  - change (2 ^ Z.of_nat 0) with 1 in Hlt. lia.
  - rewrite Nat2Z.inj_succ, Z.pow_succ_r in Hlt by lia.
    destruct (IH (n / 10)) as (_ & Hall & Hval);
      [apply Z.div_pos; lia | apply Z.div_lt_upper_bound; lia |].
    assert (0 <= n mod 10 < 10) by (apply Z.mod_pos_bound; lia).
    split_and!.
    + intros E. by apply app_eq_nil in E as [_ [=]].
    + apply Forall_app; split; [done|]. constructor; [|done].
      by apply is_digit_digit_byte.
    + rewrite digits_value_snoc, Hval. unfold digit_byte.
      rewrite bz_zb_small by lia. pose proof (Z.div_mod n 10). lia.
Qed.

Lemma dec_nonneg_spec n :
  0 <= n ->
  dec_nonneg n <> [] /\ Forall (fun b => is_digit b = true) (dec_nonneg n) /\
  digits_value (dec_nonneg n) = n.
Proof.
  intros Hn. apply dec_digits_spec; [done|].
  destruct (decide (n = 0)) as [->|]; [done|].
  rewrite Z2Nat.id by apply Z.log2_nonneg.
  rewrite <-Z.pow_succ_r by apply Z.log2_nonneg. apply Z.log2_spec. lia.
Qed.

Lemma scan_digits_app ds rest :
  Forall (fun b => is_digit b = true) ds ->
  (forall b t, rest = b :: t -> is_digit b = false) ->
  scan_digits (ds ++ rest) = (ds, rest).
Proof.
  intros Hds Hrest. induction Hds as [|b ds Hb _ IH]; simpl.
  - destruct rest as [|b t]; [done|]. simpl. by rewrite (Hrest b t eq_refl).
  - by rewrite Hb, IH.
Qed.

Lemma to_string_last n : exists ds d, to_string n = ds ++ [d] /\ is_digit d = true.
Proof.
  assert (H : forall m, 0 <= m -> exists ds d, dec_nonneg m = ds ++ [d] /\ is_digit d = true).
  { intros m Hm. destruct (dec_nonneg_spec m Hm) as (Hne & Hd & _).
    destruct (exists_last Hne) as (ds & d & E). exists ds, d. rewrite E in *. split; [done|].
    by apply Forall_app in Hd as [_ [Hd _]%Forall_cons_1]. }
  unfold to_string. destruct (Z.ltb_spec n 0) as [Hn|Hn]; [|by apply H].
  destruct (H (- n) ltac:(lia)) as (ds & d & -> & Hd). by exists ("-"%byte :: ds), d.
Qed.

Lemma scan_digits_all ds :
  Forall (fun b => is_digit b = true) ds -> scan_digits ds = (ds, []).
Proof. intros H. rewrite <-(app_nil_r ds) at 1. by apply scan_digits_app. Qed.

(** Printing then parsing gives the number back, for every integer type. *)
Lemma from_chars_all_range signed lo hi s v :
  from_chars_all signed lo hi s = Some v -> lo <= v <= hi.
Proof.
  unfold from_chars_all, from_chars. destruct (match s with [] => _ | _ => _ end) as [neg body].
  destruct (scan_digits body) as [[|d ds] rest]; [done|].
  destruct (_ && _) eqn:E; [|done]. destruct rest; [|done]. intros [= <-]. zlia.
Qed.

Lemma from_chars_to_string signed lo hi n :
  lo <= n <= hi -> (signed = false -> 0 <= n) ->
  from_chars_all signed lo hi (to_string n) = Some n.
Proof.
  intros Hr Hs. unfold from_chars_all, from_chars, to_string.
  destruct (Z.ltb_spec n 0).
  - destruct signed; [|lia].
    destruct (dec_nonneg_spec (- n)) as (Hne & Hall & Hval); [lia|].
    change ((bz "-"%byte =? 45)) with true. simpl.
    rewrite scan_digits_all by done.
    destruct (dec_nonneg (- n)) eqn:E; [done|]. rewrite Hval, Z.opp_involutive.
    by replace ((lo <=? n) && (n <=? hi)) with true by lia.
  - destruct (dec_nonneg_spec n) as (Hne & Hall & Hval); [lia|].
    destruct (dec_nonneg n) as [|d ds] eqn:E; [done|].
    assert (Hd : is_digit d = true) by by inversion Hall.
    replace (signed && (bz d =? 45)) with false
      by (unfold is_digit in Hd; destruct signed; simpl; lia).
    rewrite scan_digits_all by done. rewrite Hval.
    by replace ((lo <=? n) && (n <=? hi)) with true by lia.
Qed.

(** ** Case folding ([std::toupper] in the C locale) *)

Definition byte_upper (b : byte) : byte :=
  if (97 <=? bz b) && (bz b <=? 122) then zb (bz b - 32) else b.
Definition to_upper (s : bytes) : bytes := map byte_upper s.

