(* ===== verification/Resp.v ===== *)
(** * The RESP wire format

    [Module Reply] is src/src/reply.cpp (the encoders appending to an output
    buffer) and [Module Parser] is src/src/resp_parser.cpp (the incremental
    parser of arrays of bulk strings).  The framing is shared by client
    commands, the append-only file, the replication stream and the cluster
    bus, so the round-trip and chunking theorems below are what all four rest
    on. *)

From S2P Require Import Prelude.
From Stdlib Require Import Lia.

Definition crlf : bytes := [x0d; x0a].

Module Reply.

Definition simple_string (out s : bytes) : bytes := out ++ &"+" ++ s ++ crlf.

Definition error (out msg : bytes) : bytes := out ++ &"-" ++ msg ++ crlf.

Definition integer (out : bytes) (n : Z) : bytes := out ++ &":" ++ to_string n ++ crlf.

Definition bulk_string (out s : bytes) : bytes :=
  out ++ &"$" ++ to_string (zlen s) ++ crlf ++ s ++ crlf.

Definition null_bulk (out : bytes) : bytes := out ++ &"$-1" ++ crlf.

Definition array_header (out : bytes) (n : Z) : bytes := out ++ &"*" ++ to_string n ++ crlf.

Definition command (out : bytes) (argv : list bytes) : bytes :=
  foldl bulk_string (out ++ &"*" ++ to_string (zlen argv) ++ crlf) argv.

End Reply.

Module Parser.

Inductive Status := kComplete | kIncomplete | kProtocolError.

Record ParseResult := { status : Status; cmd : list bytes }.

(** The parser's whole state: [buffer_]. *)
Record RespParser := { buffer_ : bytes }.

Definition feed (p : RespParser) (data : bytes) : RespParser :=
  {| buffer_ := buffer_ p ++ data |}.

Definition buffered_bytes (p : RespParser) : Z := zlen (buffer_ p).

(** [std::string::find] of CRLF from the front of [s]. *)
Fixpoint find_crlf_front (s : bytes) : option nat :=
  match s with
  | a :: (b :: _) as t =>
      if (bz a =? 13) && (bz b =? 10) then Some 0%nat else S <$> find_crlf_front t
  | _ => None
  end.

(** [buffer_.find(CRLF, pos)]; [None] is [npos]. *)
Definition find_crlf (buf : bytes) (pos : nat) : option nat :=
  (fun k => (pos + k)%nat) <$> find_crlf_front (drop pos buf).

(** [buf.substr(pos, len)]. *)
Definition substr (buf : bytes) (pos len : nat) : bytes := take len (drop pos buf).

Fixpoint parse_length_loop (digits : bytes) (value : Z) : option Z :=
  match digits with
  | [] => Some value
  | c :: rest =>
      if negb (is_digit c) then None
      else let digit := bz c - 48 in
           if (size_max - digit) / 10 <? value then None
           else parse_length_loop rest (value * 10 + digit)
  end.

Definition parse_length (buf : bytes) (begin end_ : nat) : option Z :=
  if (end_ <=? begin)%nat then None
  else parse_length_loop (substr buf begin (end_ - begin)) 0.

(** One bulk string at [pos]: the outcome of the body of the parser's [for]
    loop, either an early return or the parsed string and the next position. *)
Inductive item := Ret (s : Status) | Item (arg : bytes) (pos : nat).

Definition parse_item (buf : bytes) (pos : nat) : item :=
  match buf !! pos with
  | None => Ret kIncomplete
  | Some c =>
      if negb (bz c =? 36) then Ret kProtocolError
      else match find_crlf buf (S pos) with
      | None => Ret kIncomplete
      | Some len_end =>
          match parse_length buf (S pos) len_end with
          | None => Ret kProtocolError
          | Some str_len =>
              let pos := (len_end + 2)%nat in
              let remaining := zlen buf - Z.of_nat pos in
              if (remaining <? str_len) || (remaining - str_len <? 2) then Ret kIncomplete
              else let n := Z.to_nat str_len in
                   if bool_decide (substr buf (pos + n) 2 = crlf)
                   then Item (substr buf pos n) (pos + n + 2)
                   else Ret kProtocolError
          end
      end
  end.

(** The [for] loop over [count] items.  Every item consumes at least one byte,
    so [S (length buf)] rounds always suffice ([parse_items_fuel]). *)
Fixpoint parse_items (fuel : nat) (buf : bytes) (count : Z) (pos : nat)
    (command : list bytes) : Status * list bytes * nat :=
  match fuel with
  | O => (kIncomplete, [], pos)
  | S f =>
      if count <=? 0 then (kComplete, command, pos)
      else match parse_item buf pos with
           | Ret s => (s, [], pos)
           | Item arg pos' => parse_items f buf (count - 1) pos' (command ++ [arg])
           end
  end.

(** [try_parse_command(&raw)]: the result, the raw bytes of a complete
    command, and the parser afterwards. *)
Definition try_parse_command (p : RespParser) : ParseResult * bytes * RespParser :=
  let buf := buffer_ p in
  let fail s := ({| status := s; cmd := [] |}, [], p) in
  match buf with
  | [] => fail kIncomplete
  | c :: _ =>
      if negb (bz c =? 42) then fail kProtocolError
      else match find_crlf buf 1 with
      | None => fail kIncomplete
      | Some header_end =>
          match parse_length buf 1 header_end with
          | None => fail kProtocolError
          | Some count =>
              match parse_items (S (length buf)) buf count (header_end + 2) [] with
              | (kComplete, command, pos) =>
                  ({| status := kComplete; cmd := command |}, take pos buf,
                   {| buffer_ := drop pos buf |})
              | (s, _, _) => fail s
              end
          end
      end
  end.

(** The loop every reader of the format runs after feeding it a chunk: parse
    commands until the buffer is incomplete or broken.  The flag is the
    protocol error.  A complete command consumes at least one byte, so
    [S (length buffer)] rounds suffice. *)
Fixpoint drain_loop (fuel : nat) (p : RespParser) : list (list bytes) * bool * RespParser :=
  match fuel with
  | O => ([], false, p)
  | S f =>
      let '(r, _, p') := try_parse_command p in
      match status r with
      | kIncomplete => ([], false, p)
      | kProtocolError => ([], true, p)
      | kComplete => let '(cs, e, q) := drain_loop f p' in (cmd r :: cs, e, q)
      end
  end.

Definition drain (p : RespParser) : list (list bytes) * bool * RespParser :=
  drain_loop (S (length (buffer_ p))) p.

(** Reading a stream chunk by chunk: feed, drain, stop at the first error. *)
Fixpoint read_chunks (p : RespParser) (chunks : list bytes)
    : list (list bytes) * bool * RespParser :=
  match chunks with
  | [] => ([], false, p)
  | c :: rest =>
      match drain (feed p c) with
      | (cs, true, q) => (cs, true, q)
      | (cs, false, q) => let '(cs', e, q') := read_chunks q rest in (cs ++ cs', e, q')
      end
  end.

(** ** Positions are relative: parsing at an offset is parsing the suffix *)

Lemma find_crlf_front_cons2 a b s :
  find_crlf_front (a :: b :: s) =
  if (bz a =? 13) && (bz b =? 10) then Some 0%nat else S <$> find_crlf_front (b :: s).
Proof. done. Qed.

Lemma find_crlf_front_app s t k :
  find_crlf_front s = Some k -> find_crlf_front (s ++ t) = Some k.
Proof.
  revert k. induction s as [|a s IH]; intros k H; [done|].
  destruct s as [|b s]; [done|].
  change ((a :: b :: s) ++ t) with (a :: b :: (s ++ t)).
  rewrite find_crlf_front_cons2 in *. case_match; [done|].
  apply fmap_Some_1 in H as (j & Hj & ->). apply IH in Hj. simpl app in Hj. by rewrite Hj.
Qed.

Lemma find_crlf_front_bound s k :
  find_crlf_front s = Some k -> (k + 2 <= length s)%nat.
Proof.
  revert k. induction s as [|a s IH]; intros k H; [done|].
  destruct s as [|b s]; [done|]. rewrite find_crlf_front_cons2 in H.
  case_match; simplify_eq/=; [lia|].
  apply fmap_Some_1 in H as (j & Hj & ->). specialize (IH j Hj). simpl in IH. lia.
Qed.

Lemma find_crlf_front_clean s t :
  Forall (fun b => bz b <> 13) s -> find_crlf_front (s ++ crlf ++ t) = Some (length s).
Proof.
  intros H. induction H as [|a s Ha _ IH]; [done|].
  destruct s as [|b s]; simpl app in *; rewrite find_crlf_front_cons2;
    rewrite (proj2 (Z.eqb_neq _ _) Ha); cbn [andb]; by rewrite IH.
Qed.

Lemma find_crlf_shift pre s k :
  find_crlf (pre ++ s) (length pre + k) = (fun j => (length pre + j)%nat) <$> find_crlf s k.
Proof.
  unfold find_crlf. rewrite drop_app_add.
  destruct (find_crlf_front (drop k s)); simpl; [f_equal; lia | done].
Qed.

Lemma find_crlf_ge buf pos k : find_crlf buf pos = Some k -> (pos <= k /\ k + 2 <= length buf)%nat.
Proof.
  unfold find_crlf. intros (j & H & ->)%fmap_Some_1.
  apply find_crlf_front_bound in H. rewrite length_drop in H. lia.
Qed.

Lemma find_crlf_app s t pos k : find_crlf s pos = Some k -> find_crlf (s ++ t) pos = Some k.
Proof.
  intros H. pose proof (find_crlf_ge _ _ _ H) as [??]. revert H. unfold find_crlf.
  intros (j & H & ->)%fmap_Some_1. rewrite drop_app_le by lia.
  by rewrite (find_crlf_front_app _ _ j).
Qed.

Lemma substr_shift pre s k n : substr (pre ++ s) (length pre + k) n = substr s k n.
Proof. unfold substr. by rewrite drop_app_add. Qed.

Lemma substr_app s t k n : (k + n <= length s)%nat -> substr (s ++ t) k n = substr s k n.
Proof.
  intros H. unfold substr. rewrite drop_app_le by lia.
  apply take_app_le. rewrite length_drop. lia.
Qed.

Lemma parse_length_shift pre s b e :
  parse_length (pre ++ s) (length pre + b) (length pre + e) = parse_length s b e.
Proof.
  unfold parse_length. rewrite substr_shift.
  replace (length pre + e - (length pre + b))%nat with (e - b)%nat by lia.
  by destruct (Nat.leb_spec e b), (Nat.leb_spec (length pre + e) (length pre + b)); try lia.
Qed.

Lemma parse_length_app s t b e :
  (e <= length s)%nat -> parse_length (s ++ t) b e = parse_length s b e.
Proof.
  intros H. unfold parse_length. destruct (Nat.leb_spec e b); [done|].
  by rewrite substr_app by lia.
Qed.

(** [parse_length] accepts exactly the digit strings whose value fits in
    [size_t]. *)
Lemma parse_length_loop_range ds v r :
  0 <= v <= size_max -> parse_length_loop ds v = Some r -> 0 <= r <= size_max.
Proof.
  revert v. induction ds as [|c ds IH]; intros v Hv H; [by simplify_eq/=|].
  cbn [parse_length_loop] in H. destruct (is_digit c) eqn:Hd; [|done]. cbn [negb] in H.
  unfold is_digit in Hd. destruct (Z.ltb_spec ((size_max - (bz c - 48)) / 10) v) as [|Hle]; [done|].
  apply IH in H; [done|]. pose proof (Z.mul_div_le (size_max - (bz c - 48)) 10). lia.
Qed.

Lemma parse_length_nonneg buf b e n : parse_length buf b e = Some n -> 0 <= n <= size_max.
Proof.
  unfold parse_length. destruct (Nat.leb _ _); [done|].
  apply parse_length_loop_range. unfold size_max. lia.
Qed.

Lemma digits_fold_ge ds v :
  Forall (fun b => is_digit b = true) ds -> 0 <= v ->
  v <= foldl (fun acc d => acc * 10 + (bz d - 48)) v ds.
Proof.
  intros H. revert v. induction H as [|d ds Hd _ IH]; intros v Hv; simpl; [lia|].
  unfold is_digit in Hd. specialize (IH (v * 10 + (bz d - 48))). lia.
Qed.

Lemma parse_length_loop_value ds v :
  Forall (fun b => is_digit b = true) ds -> 0 <= v ->
  foldl (fun acc d => acc * 10 + (bz d - 48)) v ds <= size_max ->
  parse_length_loop ds v = Some (foldl (fun acc d => acc * 10 + (bz d - 48)) v ds).
Proof.
  intros H. revert v. induction H as [|d ds Hd Hds IH]; intros v Hv Hmax; [done|].
  cbn [parse_length_loop foldl] in *. rewrite Hd. cbn [negb]. unfold is_digit in Hd.
  pose proof (digits_fold_ge ds (v * 10 + (bz d - 48)) Hds ltac:(lia)).
  assert (v <= (size_max - (bz d - 48)) / 10) by (apply Z.div_le_lower_bound; lia).
  destruct (Z.ltb_spec ((size_max - (bz d - 48)) / 10) v); [lia|].
  apply IH; lia.
Qed.

Lemma parse_length_dec pre n t :
  0 <= n <= size_max ->
  parse_length (pre ++ to_string n ++ t) (length pre) (length pre + length (to_string n)) = Some n.
Proof.
  intros Hn. destruct (dec_nonneg_spec n) as (Hne & Hall & Hval); [lia|].
  unfold to_string. destruct (Z.ltb_spec n 0); [lia|].
  unfold parse_length, substr. rewrite drop_app_length.
  replace (length pre + length (dec_nonneg n) - length pre)%nat with (length (dec_nonneg n)) by lia.
  rewrite take_app_length. destruct (Nat.leb_spec (length pre + length (dec_nonneg n)) (length pre)).
  { destruct (dec_nonneg n); [done|simpl in *; lia]. }
  unfold digits_value in Hval. by rewrite parse_length_loop_value, Hval by (rewrite ?Hval; lia || done).
Qed.

Definition shift_item (n : nat) (i : item) : item :=
  match i with Ret s => Ret s | Item a p => Item a (n + p) end.

Lemma parse_item_shift pre s k :
  parse_item (pre ++ s) (length pre + k) = shift_item (length pre) (parse_item s k).
Proof.
  unfold parse_item. rewrite lookup_app_r by lia.
  replace (length pre + k - length pre)%nat with k by lia.
  destruct (s !! k) as [c|]; [|done]. destruct (bz c =? 36); [|done]. cbn [negb].
  rewrite <-Nat.add_succ_r, find_crlf_shift.
  destruct (find_crlf s (S k)) as [le|]; [|done]. cbn [fmap option_fmap option_map].
  rewrite parse_length_shift. destruct (parse_length s (S k) le) as [n|]; [|done].
  cbv zeta. rewrite zlen_app.
  replace (zlen pre + zlen s - Z.of_nat (length pre + le + 2))
    with (zlen s - Z.of_nat (le + 2)) by (unfold zlen; lia).
  case_match; [done|].
  replace (length pre + le + 2 + Z.to_nat n)%nat
    with (length pre + (le + 2 + Z.to_nat n))%nat by lia.
  replace (length pre + le + 2)%nat with (length pre + (le + 2))%nat by lia.
  rewrite !substr_shift. case_match; [|done]. simpl. f_equal. lia.
Qed.

(** ** Progress, and independence of the fuel *)

Lemma parse_item_progress buf pos a p :
  parse_item buf pos = Item a p -> (pos < p /\ p <= length buf)%nat.
Proof.
  unfold parse_item. destruct (buf !! pos); [|done]. destruct (negb _); [done|].
  destruct (find_crlf buf (S pos)) as [le|] eqn:E; [|done].
  apply find_crlf_ge in E as [??].
  destruct (parse_length _ _ _) as [n|] eqn:Hn; [|done]. apply parse_length_nonneg in Hn.
  cbv zeta. destruct (_ || _) eqn:Hr; [done|]. apply orb_false_iff in Hr as [Hr1 Hr2].
  case_bool_decide; [|done]. intros [= <- <-]. unfold zlen in *. zlia.
Qed.

Lemma parse_items_more f g buf n pos acc st c p :
  parse_items f buf n pos acc = (st, c, p) -> st <> kIncomplete -> (f <= g)%nat ->
  parse_items g buf n pos acc = (st, c, p).
Proof.
  revert g n pos acc. induction f as [|f IH]; intros g n pos acc H Hne Hle; [by simplify_eq/=|].
  destruct g as [|g]; [lia|]. cbn [parse_items] in *. case_match; [done|].
  case_match; [done|]. apply IH; [done | done | lia].
Qed.

Lemma parse_items_incomplete f g buf n pos acc c p :
  parse_items f buf n pos acc = (kIncomplete, c, p) ->
  (length buf - pos < f)%nat -> (f <= g)%nat ->
  exists c' p', parse_items g buf n pos acc = (kIncomplete, c', p').
Proof.
  revert g n pos acc. induction f as [|f IH]; intros g n pos acc H Hf Hle; [lia|].
  destruct g as [|g]; [lia|]. cbn [parse_items] in *.
  destruct (n <=? 0); [done|].
  destruct (parse_item buf pos) as [s|a q] eqn:E; [clear IH; naive_solver|].
  apply parse_item_progress in E. apply IH; [done | lia | lia].
Qed.

Lemma parse_items_shift f pre s n k acc :
  parse_items f (pre ++ s) n (length pre + k) acc =
  let '(st, c, p) := parse_items f s n k acc in (st, c, (length pre + p)%nat).
Proof.
  revert n k acc. induction f as [|f IH]; intros n k acc; [done|].
  cbn [parse_items]. destruct (n <=? 0); [done|]. rewrite parse_item_shift.
  destruct (parse_item s k) as [st|a p]; simpl; [done | apply IH].
Qed.

(** ** More bytes never change a decided outcome *)

Lemma parse_item_app s t pos :
  parse_item s pos <> Ret kIncomplete -> parse_item (s ++ t) pos = parse_item s pos.
Proof.
  unfold parse_item. destruct (s !! pos) as [c|] eqn:Hc; [|done].
  rewrite (lookup_app_l_Some _ _ _ _ Hc). destruct (negb _); [done|].
  destruct (find_crlf s (S pos)) as [le|] eqn:E; [|done].
  rewrite (find_crlf_app _ _ _ _ E). apply find_crlf_ge in E as [??].
  rewrite parse_length_app by lia.
  destruct (parse_length _ _ _) as [n|] eqn:Hn; [|done]. apply parse_length_nonneg in Hn.
  cbv zeta. destruct (_ || _) eqn:Hr; [done|]. intros _. apply orb_false_iff in Hr as [Hr1 Hr2].
  zbool. rewrite zlen_app. unfold zlen in *.
  rewrite (proj2 (orb_false_iff _ _)) by (split; apply Z.ltb_ge; lia). rewrite !substr_app by lia. done.
Qed.

Lemma parse_items_app f s t n pos acc st c p :
  parse_items f s n pos acc = (st, c, p) -> st <> kIncomplete ->
  parse_items f (s ++ t) n pos acc = (st, c, p).
Proof.
  revert n pos acc. induction f as [|f IH]; intros n pos acc H Hne; [by simplify_eq/=|].
  cbn [parse_items] in *. case_match; [done|].
  destruct (parse_item s pos) as [s0|a q] eqn:E.
  - simplify_eq. rewrite parse_item_app; rewrite E; congruence.
  - rewrite parse_item_app; rewrite E; [by apply IH | done].
Qed.

Lemma parse_items_bound f s n pos acc c p :
  parse_items f s n pos acc = (kComplete, c, p) -> (pos <= length s)%nat -> (pos <= p /\ p <= length s)%nat.
Proof.
  revert n pos acc. induction f as [|f IH]; intros n pos acc H Hle; [done|].
  cbn [parse_items] in H. case_match; [by simplify_eq|].
  destruct (parse_item s pos) as [s0|a q] eqn:E; [by simplify_eq|].
  apply parse_item_progress in E. apply IH in H; lia.
Qed.

(** What one call of [try_parse_command] on [buf] found. *)
Inductive outcome := OIncomplete | OError | OComplete (c : list bytes) (n : nat).

Definition outcome_of (buf : bytes) : outcome :=
  let '(r, raw, _) := try_parse_command {| buffer_ := buf |} in
  match status r with
  | kIncomplete => OIncomplete
  | kProtocolError => OError
  | kComplete => OComplete (cmd r) (length raw)
  end.

Lemma try_parse_outcome buf :
  try_parse_command {| buffer_ := buf |} =
  match outcome_of buf with
  | OIncomplete => ({| status := kIncomplete; cmd := [] |}, [], {| buffer_ := buf |})
  | OError => ({| status := kProtocolError; cmd := [] |}, [], {| buffer_ := buf |})
  | OComplete c n =>
      ({| status := kComplete; cmd := c |}, take n buf, {| buffer_ := drop n buf |})
  end.
Proof.
  unfold outcome_of, try_parse_command. cbn [buffer_].
  destruct buf as [|c buf]; [done|]. case_match; [done|].
  destruct (find_crlf (c :: buf) 1) as [he|] eqn:E; [|done]. apply find_crlf_ge in E as [??].
  destruct (parse_length _ _ _) as [n|]; [|done].
  destruct (parse_items _ _ _ _ _) as [[[] cs] p] eqn:Ep; try done. cbn [status cmd].
  apply parse_items_bound in Ep; [|lia].
  by rewrite length_take_le by lia.
Qed.

Lemma outcome_of_header buf he n st cs p :
  head buf = Some "*"%byte -> find_crlf buf 1 = Some he -> parse_length buf 1 he = Some n ->
  parse_items (S (length buf)) buf n (he + 2) [] = (st, cs, p) ->
  outcome_of buf = match st with
                   | kIncomplete => OIncomplete | kProtocolError => OError
                   | kComplete => OComplete cs p end.
Proof.
  intros Hh Hf Hl Hp. unfold outcome_of, try_parse_command. cbn [buffer_].
  destruct buf as [|c buf]; [done|]. injection Hh as ->.
  change (negb (bz "*" =? 42)) with false. cbv iota. rewrite Hf, Hl, Hp.
  destruct st; [|done..]. cbn [status cmd].
  apply find_crlf_ge in Hf as [??]. apply parse_items_bound in Hp; [|lia].
  by rewrite length_take_le by lia.
Qed.

Lemma outcome_complete_bound buf c n :
  outcome_of buf = OComplete c n -> (0 < n <= length buf)%nat.
Proof.
  unfold outcome_of, try_parse_command. cbn [buffer_].
  destruct buf as [|x buf]; [done|]. destruct (negb _); [done|].
  destruct (find_crlf (x :: buf) 1) as [he|] eqn:E; [|done]. apply find_crlf_ge in E as [??].
  destruct (parse_length _ _ _) as [k|]; [|done].
  destruct (parse_items _ _ _ _ _) as [[[] cs] p] eqn:Ep; try done. cbn [status cmd].
  apply parse_items_bound in Ep; [|lia]. intros [= <- <-].
  rewrite length_take_le by lia. lia.
Qed.

Lemma outcome_of_app s t :
  outcome_of s <> OIncomplete -> outcome_of (s ++ t) = outcome_of s.
Proof.
  destruct s as [|c s]; [done|].
  destruct (decide (c = "*"%byte)) as [->|Hc]; cycle 1.
  { intros _. unfold outcome_of, try_parse_command. cbn [buffer_ app].
    replace (bz c =? 42) with false; [done|]. symmetry. apply Z.eqb_neq.
    intros E. apply Hc. by apply (inj bz). }
  destruct (find_crlf ("*"%byte :: s) 1) as [he|] eqn:Hf; cycle 1.
  { unfold outcome_of, try_parse_command. cbn [buffer_]. by rewrite Hf. }
  pose proof (find_crlf_app _ t _ _ Hf) as Hf'. pose proof (find_crlf_ge _ _ _ Hf) as [_ Hhe].
  pose proof (parse_length_app ("*"%byte :: s) t 1 he ltac:(lia)) as Hl.
  destruct (parse_length ("*"%byte :: s) 1 he) as [n|] eqn:Hn; cycle 1.
  { intros _. unfold outcome_of, try_parse_command. cbn [buffer_ app] in *.
    rewrite Hf', Hf, Hl, Hn. done. }
  destruct (parse_items (S (length ("*"%byte :: s))) ("*"%byte :: s) n (he + 2) [])
    as [[st cs] p] eqn:Hp.
  rewrite (outcome_of_header ("*"%byte :: s) _ _ _ _ _ eq_refl Hf Hn Hp). intros Hne.
  assert (st <> kIncomplete) by (by intros ->).
  apply (outcome_of_header _ he n); [done..|].
  eapply parse_items_more; [by eapply parse_items_app | done | rewrite length_app; lia].
Qed.

(** ** Encoding then parsing *)

(** A C++ string or vector is addressed by [size_t]. *)
Definition fits {A} (l : list A) : Prop := zlen l <= size_max.

Lemma bulk_string_app out s : Reply.bulk_string out s = out ++ Reply.bulk_string [] s.
Proof. done. Qed.

Lemma command_app out argv :
  Reply.command out argv =
  out ++ &"*" ++ to_string (zlen argv) ++ crlf ++ concat (Reply.bulk_string [] <$> argv).
Proof.
  unfold Reply.command.
  assert (forall o, foldl Reply.bulk_string o argv = o ++ concat (Reply.bulk_string [] <$> argv)) as H.
  { induction argv as [|a argv IH]; intros o; cbn [foldl fmap list_fmap concat];
      [by rewrite app_nil_r|].
    by rewrite IH, (bulk_string_app o a), app_assoc. }
  rewrite H, <-!app_assoc. done.
Qed.

Lemma to_string_clean n : 0 <= n -> Forall (fun b => bz b <> 13) (to_string n).
Proof.
  intros Hn. destruct (dec_nonneg_spec n Hn) as (_ & Hall & _).
  unfold to_string. destruct (Z.ltb_spec n 0); [lia|].
  eapply Forall_impl; [|exact Hall]. unfold is_digit. intros b Hb. cbv beta in Hb. zlia.
Qed.

(** A line header: one marker byte, a decimal number, CRLF. *)
Lemma header_parse (m : byte) n t :
  0 <= n <= size_max ->
  let buf := m :: to_string n ++ crlf ++ t in
  find_crlf buf 1 = Some (1 + length (to_string n))%nat /\
  parse_length buf 1 (1 + length (to_string n)) = Some n.
Proof.
  intros Hn buf. split.
  - unfold find_crlf, buf.
    change (drop 1 (m :: to_string n ++ crlf ++ t)) with (to_string n ++ crlf ++ t).
    by rewrite find_crlf_front_clean by (apply to_string_clean; lia).
  - apply (parse_length_dec [m] n (crlf ++ t) Hn).
Qed.

Lemma parse_item_bulk a t :
  fits a -> parse_item (Reply.bulk_string [] a ++ t) 0 = Item a (length (Reply.bulk_string [] a)).
Proof.
  intros Ha. unfold Reply.bulk_string. rewrite <-!app_assoc. simpl app.
  destruct (header_parse "$" (zlen a) (a ++ x0d :: x0a :: t)) as [Hf Hl];
    [split; [apply zlen_nonneg | done]|].
  unfold parse_item. simpl lookup. change (negb (bz "$" =? 36)) with false. cbv iota.
  change (x0d :: x0a :: a ++ x0d :: x0a :: t) with (crlf ++ a ++ x0d :: x0a :: t).
  rewrite Hf, Hl. cbv zeta.
  set (h := "$"%byte :: to_string (zlen a) ++ crlf).
  replace ("$"%byte :: to_string (zlen a) ++ crlf ++ a ++ x0d :: x0a :: t)
    with (h ++ a ++ crlf ++ t) by (unfold h; simpl; by rewrite <-app_assoc).
  assert (Hh : length h = (1 + length (to_string (zlen a)) + 2)%nat)
    by (unfold h; simpl; rewrite length_app; simpl; lia).
  rewrite <-Hh. rewrite !zlen_app. unfold zlen at 1 5. unfold zlen at 2.
  replace (_ || _) with false.
  2: { symmetry. apply orb_false_iff; split; apply Z.ltb_ge; unfold zlen; simpl length; lia. }
  replace (Z.to_nat (zlen a)) with (length a) by (unfold zlen; lia).
  unfold substr. rewrite drop_app_length. rewrite drop_app_add, drop_app_length, !take_app_length.
  rewrite bool_decide_eq_true_2 by done. f_equal.
  rewrite Hh. repeat (simpl; rewrite length_app). simpl. lia.
Qed.

Lemma parse_items_bulks argv : forall f pre acc t,
  Forall fits argv -> (length argv < f)%nat ->
  parse_items f (pre ++ concat (Reply.bulk_string [] <$> argv) ++ t) (zlen argv) (length pre) acc =
  (kComplete, acc ++ argv, (length pre + length (concat (Reply.bulk_string [] <$> argv)))%nat).
Proof.
  induction argv as [|a argv IH]; intros f pre acc t Hf Hlt.
  - destruct f; [simpl in Hlt; lia|]. simpl. f_equal; [by rewrite app_nil_r | lia].
  - destruct f as [|f]; [simpl in Hlt; lia|]. inversion Hf as [|?? Ha Hargv]; subst.
    cbn [fmap list_fmap concat]. cbn [parse_items]. rewrite zlen_cons.
    pose proof (zlen_nonneg argv). destruct (Z.leb_spec (1 + zlen argv) 0); [lia|].
    rewrite <-app_assoc. rewrite <-(Nat.add_0_r (length pre)) at 1.
    rewrite parse_item_shift, parse_item_bulk by done. cbn [shift_item].
    replace (1 + zlen argv - 1) with (zlen argv) by lia.
    rewrite app_assoc, <-length_app. rewrite IH by (done || simpl in Hlt; lia).
    rewrite <-(app_assoc acc), !length_app. f_equal. lia.
Qed.

Lemma bulks_length argv :
  (length argv <= length (concat (Reply.bulk_string [] <$> argv)))%nat.
Proof.
  induction argv as [|a argv IH]; [simpl; lia|]. cbn [fmap list_fmap concat]. rewrite length_app.
  unfold Reply.bulk_string at 1. simpl in *. lia.
Qed.

Lemma command_split argv :
  Reply.command [] argv =
  ("*"%byte :: to_string (zlen argv) ++ crlf) ++ concat (Reply.bulk_string [] <$> argv).
Proof. rewrite command_app. cbn [app]. by rewrite <-app_assoc. Qed.

Lemma outcome_of_command argv t :
  fits argv -> Forall fits argv ->
  outcome_of (Reply.command [] argv ++ t) = OComplete argv (length (Reply.command [] argv)).
Proof.
  intros Hn Hargs. rewrite command_split.
  set (body := concat (Reply.bulk_string [] <$> argv)).
  set (h := "*"%byte :: to_string (zlen argv) ++ crlf).
  assert (Hh : length h = (1 + length (to_string (zlen argv)) + 2)%nat)
    by (unfold h; simpl; rewrite length_app; simpl; lia).
  destruct (header_parse "*" (zlen argv) (body ++ t)) as [Hf Hl];
    [split; [apply zlen_nonneg | done]|].
  assert (E : "*"%byte :: to_string (zlen argv) ++ crlf ++ body ++ t = (h ++ body) ++ t)
    by (unfold h; cbn [app]; by rewrite <-!app_assoc).
  cbv zeta in Hf, Hl. rewrite E in Hf, Hl.
  erewrite outcome_of_header; [| | exact Hf | exact Hl | ]; [| done |].
  2: { rewrite <-Hh, <-app_assoc.
       apply parse_items_bulks; [done|]. rewrite !length_app.
       pose proof (bulks_length argv). fold body in H. lia. }
  cbv iota. by rewrite length_app.
Qed.

(** ** Draining *)

Lemma drain_loop_fuel f g buf :
  (length buf < f)%nat -> (length buf < g)%nat ->
  drain_loop f {| buffer_ := buf |} = drain_loop g {| buffer_ := buf |}.
Proof.
  revert g buf. induction f as [|f IH]; intros g buf Hf Hg; [lia|].
  destruct g as [|g]; [lia|]. cbn [drain_loop]. rewrite try_parse_outcome.
  destruct (outcome_of buf) as [| |c n] eqn:E; [done..|]. cbn [status cmd].
  apply outcome_complete_bound in E.
  rewrite (IH g); [done | rewrite length_drop; lia..].
Qed.

Lemma drain_unfold buf :
  drain {| buffer_ := buf |} =
  match outcome_of buf with
  | OIncomplete => ([], false, {| buffer_ := buf |})
  | OError => ([], true, {| buffer_ := buf |})
  | OComplete c n =>
      let '(cs, e, q) := drain {| buffer_ := drop n buf |} in (c :: cs, e, q)
  end.
Proof.
  unfold drain at 1. cbn [buffer_ drain_loop]. rewrite try_parse_outcome.
  destruct (outcome_of buf) as [| |c n] eqn:E; [done..|]. cbn [status cmd].
  apply outcome_complete_bound in E. unfold drain. cbn [buffer_].
  by rewrite (drain_loop_fuel (length buf) (S (length (drop n buf)))) by (rewrite length_drop; lia).
Qed.

(** Draining early commutes with more input arriving. *)
Lemma drain_app a b :
  drain {| buffer_ := a ++ b |} =
  match drain {| buffer_ := a |} with
  | (cs, true, q) => (cs, true, feed q b)
  | (cs, false, q) => let '(cs', e, q') := drain (feed q b) in (cs ++ cs', e, q')
  end.
Proof.
  remember (length a) as n eqn:En. revert a En.
  induction n as [n IH] using lt_wf_ind; intros a ->.
  rewrite (drain_unfold a).
  destruct (outcome_of a) as [| |c k] eqn:E.
  - cbn [feed buffer_]. destruct (drain _) as [[cs e] q]. done.
  - rewrite drain_unfold, outcome_of_app by congruence. by rewrite E.
  - rewrite drain_unfold, outcome_of_app by congruence. rewrite E.
    apply outcome_complete_bound in E. rewrite drop_app_le by lia.
    rewrite (IH (length (drop k a))); [|rewrite length_drop; lia|done].
    destruct (drain {| buffer_ := drop k a |}) as [[cs e] q]. destruct e; [done|].
    by destruct (drain (feed q b)) as [[cs' e'] q'].
Qed.

Lemma drain_leaves_incomplete buf cs q :
  drain {| buffer_ := buf |} = (cs, false, q) -> outcome_of (buffer_ q) = OIncomplete.
Proof.
  remember (length buf) as n eqn:En. revert buf En cs.
  induction n as [n IH] using lt_wf_ind; intros buf -> cs. rewrite drain_unfold.
  destruct (outcome_of buf) as [| |c k] eqn:E; [by intros [= <- <-] | done |].
  apply outcome_complete_bound in E.
  destruct (drain {| buffer_ := drop k buf |}) as [[cs' e] q'] eqn:Ed.
  intros [= <- -> ->]. eapply (IH (length (drop k buf))); [rewrite length_drop; lia | done | done].
Qed.

Lemma read_chunks_drain chunks : forall p,
  outcome_of (buffer_ p) = OIncomplete ->
  let '(cs, e, q) := read_chunks p chunks in
  let '(cs', e', q') := drain (feed p (concat chunks)) in
  cs = cs' /\ e = e' /\ (e = true \/ q = q').
Proof.
  induction chunks as [|c chunks IH]; intros [buf] Hp.
  - cbn [read_chunks concat]. unfold feed. cbn [buffer_]. rewrite app_nil_r, drain_unfold.
    cbn [buffer_] in Hp. rewrite Hp. auto.
  - cbn [read_chunks concat]. unfold feed at 1 2. cbn [buffer_].
    rewrite app_assoc, (drain_app (buf ++ c)).
    destruct (drain {| buffer_ := buf ++ c |}) as [[cs e] q] eqn:Ed.
    destruct e; [by split_and!; [..|left]|]. specialize (IH q (drain_leaves_incomplete _ _ _ Ed)).
    destruct (read_chunks q chunks) as [[cs1 e1] q1].
    destruct (drain (feed q (concat chunks))) as [[cs2 e2] q2].
    destruct IH as (-> & -> & ?). by split_and!.
Qed.

(** A strict prefix of an encoded command is never taken for a command or for
    an error. *)
Lemma outcome_of_torn argv k :
  fits argv -> Forall fits argv -> (k < length (Reply.command [] argv))%nat ->
  outcome_of (take k (Reply.command [] argv)) = OIncomplete.
Proof.
  intros Hn Ha Hk. set (s := Reply.command [] argv) in *.
  pose proof (outcome_of_command argv [] Hn Ha) as Hs. fold s in Hs. rewrite app_nil_r in Hs.
  destruct (outcome_of (take k s)) as [| |c n] eqn:E; [done|..]; exfalso.
  - pose proof (outcome_of_app (take k s) (drop k s)) as H.
    rewrite take_drop in H. rewrite H in Hs; congruence.
  - pose proof (outcome_of_app (take k s) (drop k s)) as H.
    rewrite take_drop, Hs, E in H. specialize (H ltac:(done)).
    apply outcome_complete_bound in E as [_ Hle]. rewrite length_take in Hle.
    simplify_eq. lia.
Qed.

Lemma drain_commands cmds : forall t,
  Forall (fun argv => fits argv /\ Forall fits argv) cmds ->
  outcome_of t = OIncomplete ->
  drain {| buffer_ := concat (Reply.command [] <$> cmds) ++ t |} = (cmds, false, {| buffer_ := t |}).
Proof.
  induction cmds as [|argv cmds IH]; intros t Hf Ht; cbn [fmap list_fmap concat].
  - rewrite drain_unfold. cbn [app]. by rewrite Ht.
  - inversion Hf as [|?? [Hn Ha] Hc]; subst. rewrite <-app_assoc, drain_unfold.
    rewrite outcome_of_command by done. rewrite drop_app_length.
    by rewrite IH.
Qed.

End Parser.

(** ** Claims *)

Module RespClaims.
Import Parser.

(** C10: the network (or a file) may split the byte stream at any point.
    Feeding the chunks one by one and running the parser after each gives the
    same commands, in the same order, and the same protocol error, as
    receiving all the bytes at once; without an error the unconsumed bytes are
    the same too. *)
Theorem chunking_is_invisible chunks :
  let '(cs, e, q) := read_chunks {| buffer_ := [] |} chunks in
  let '(cs', e', q') := drain {| buffer_ := concat chunks |} in
  cs = cs' /\ e = e' /\ (e = true \/ q = q').
Proof. apply (read_chunks_drain chunks {| buffer_ := [] |}). done. Qed.

(** The parser inverts the encoder.  A command encoded by
    [reply::command], followed by anything, parses to exactly that command;
    the raw bytes handed to a replica are exactly the encoded ones and exactly
    the rest stays buffered. *)
Theorem parse_encoded_command argv rest
    (Hn : fits argv) (Hargs : Forall fits argv) :
  try_parse_command {| buffer_ := Reply.command [] argv ++ rest |} =
  ({| status := kComplete; cmd := argv |}, Reply.command [] argv, {| buffer_ := rest |}).
Proof.
  rewrite try_parse_outcome, outcome_of_command by done.
  by rewrite take_app_length, drop_app_length.
Qed.

Lemma parse_encoded_command_witness :
  try_parse_command {| buffer_ := Reply.command [] [&"GET"; &"k"] ++ &"*1" |} =
  ({| status := kComplete; cmd := [&"GET"; &"k"] |},
   Reply.command [] [&"GET"; &"k"], {| buffer_ := &"*1" |}).
Proof.
  apply (parse_encoded_command [&"GET"; &"k"] &"*1").
  - vm_compute. discriminate.
  - repeat constructor; vm_compute; discriminate.
Defined.

(** C28: replaying a log whose last command was torn by a crash.  A file made
    of encoded commands, the last one cut anywhere, drains to exactly the
    complete commands, without an error, and leaves exactly the torn bytes (the
    ones [AppendOnlyFile::replay_incr] truncates). *)
Theorem torn_log_replays_prefix cmds last k
    (Hc : Forall (fun argv => fits argv /\ Forall fits argv) cmds)
    (Hl : fits last /\ Forall fits last)
    (Hk : (k < length (Reply.command [] last))%nat) :
  drain {| buffer_ := concat (Reply.command [] <$> cmds) ++ take k (Reply.command [] last) |} =
  (cmds, false, {| buffer_ := take k (Reply.command [] last) |}).
Proof. apply drain_commands; [done | by apply outcome_of_torn; destruct Hl]. Qed.

Lemma torn_log_replays_prefix_witness :
  drain {| buffer_ := concat (Reply.command [] <$> [[&"SET"; &"k"; &"v"]])
                      ++ take 9 (Reply.command [] [&"DEL"; &"k"]) |} =
  ([[&"SET"; &"k"; &"v"]], false, {| buffer_ := take 9 (Reply.command [] [&"DEL"; &"k"]) |}).
Proof.
  apply (torn_log_replays_prefix [[&"SET"; &"k"; &"v"]] [&"DEL"; &"k"] 9).
  - repeat constructor; vm_compute; discriminate.
  - repeat constructor; vm_compute; discriminate.
  - vm_compute. lia.
Defined.

End RespClaims.
