(* ===== verification/Slots.v ===== *)
(** * Key to hash slot (src/src/cluster_slot.cpp, src/include/cluster_slot.hpp)

    CRC-16/XMODEM with a 256-entry table, and the [{tag}] rule.  The
    table-driven checksum is proved equal to the bit-by-bit definition of the
    polynomial division, and the tag rule is proved for every key. *)

From S2P Require Import Prelude.
From Stdlib Require Import Lia.

Definition kSlots : Z := 16384.

Module Crc16.

(** One shift of the table builder: [crc] is a [uint16_t]. *)
Definition round (crc : Z) : Z :=
  u16 (if negb (Z.land crc 0x8000 =? 0) then Z.lxor (Z.shiftl crc 1) 0x1021
       else Z.shiftl crc 1).

Fixpoint rounds (n : nat) (crc : Z) : Z :=
  match n with O => crc | S m => rounds m (round crc) end.

Definition table_entry (i : Z) : Z := rounds 8 (u16 (Z.shiftl i 8)).

(** The static table [t]. *)
Definition table : list Z := table_entry <$> seqZ 0 256.

Definition table_at (i : Z) : Z := default 0 (table !! Z.to_nat i).

Definition step (crc : Z) (b : byte) : Z :=
  u16 (Z.lxor (Z.shiftl crc 8) (table_at (Z.land (Z.lxor (Z.shiftr crc 8) (bz b)) 0xFF))).

Definition crc16 (data : bytes) : Z := foldl step 0 data.

(** The reference: xor the byte into the top and divide bit by bit. *)
Definition bitwise_step (crc : Z) (b : byte) : Z := rounds 8 (Z.lxor crc (Z.shiftl (bz b) 8)).

Definition bitwise_crc16 (data : bytes) : Z := foldl bitwise_step 0 data.

End Crc16.

(** [key.find(c, pos)]. *)
Fixpoint find_byte_front (c : byte) (s : bytes) : option nat :=
  match s with
  | [] => None
  | x :: t => if bool_decide (x = c) then Some 0%nat else S <$> find_byte_front c t
  end.

Definition find_byte (c : byte) (s : bytes) (pos : nat) : option nat :=
  (fun k => (pos + k)%nat) <$> find_byte_front c (drop pos s).

(** The part of the key that is hashed. *)
Definition hash_part (key : bytes) : bytes :=
  match find_byte "{" key 0 with
  | None => key
  | Some open =>
      match find_byte "}" key (open + 1) with
      | None => key
      | Some close =>
          if (close =? open + 1)%nat then key
          else take (close - open - 1) (drop (open + 1) key)
      end
  end.

Definition key_hash_slot (key : bytes) : Z := Z.land (Crc16.crc16 (hash_part key)) (kSlots - 1).

(** ** The checksum *)

Module Crc16Facts.
Import Crc16.

Lemma land_u16 a : u16 a = Z.land a (Z.ones 16).
Proof. unfold u16. by rewrite Z.land_ones by lia. Qed.

Lemma u16_range a : 0 <= u16 a < 2 ^ 16.
Proof. apply Z.mod_pos_bound. lia. Qed.

Lemma u16_small a : 0 <= a < 2 ^ 16 -> u16 a = a.
Proof. apply Z.mod_small. Qed.

Lemma land_lxor_distr_l a b c : Z.land (Z.lxor a b) c = Z.lxor (Z.land a c) (Z.land b c).
Proof. apply Z.bits_inj'. intros n Hn. rewrite !Z.land_spec, !Z.lxor_spec, !Z.land_spec.
  destruct (Z.testbit a n), (Z.testbit b n), (Z.testbit c n); done. Qed.

Lemma u16_lxor a b : u16 (Z.lxor a b) = Z.lxor (u16 a) (u16 b).
Proof. rewrite !land_u16. apply land_lxor_distr_l. Qed.

(** The polynomial if the bit shifted out is set: [round] in linear form. *)
Definition poly (b : bool) : Z := if b then 0x1021 else 0.

Lemma round_linear_form a :
  round a = Z.lxor (u16 (Z.shiftl a 1)) (poly (Z.testbit a 15)).
Proof.
  unfold round. change 0x8000 with (2 ^ 15).
  assert (E : Z.land a (2 ^ 15) = if Z.testbit a 15 then 2 ^ 15 else 0).
  { apply Z.bits_inj'. intros n Hn. rewrite Z.land_spec.
    destruct (decide (n = 15)) as [->|Hne].
    - rewrite Z.pow2_bits_true by lia. destruct (Z.testbit a 15); [done|]. by rewrite Z.bits_0.
    - rewrite Z.pow2_bits_false by lia. rewrite andb_false_r.
      destruct (Z.testbit a 15); [by rewrite Z.pow2_bits_false by lia | by rewrite Z.bits_0]. }
  rewrite E. destruct (Z.testbit a 15); cbn [poly].
  - change (negb (2 ^ 15 =? 0)) with true. cbv iota. by rewrite u16_lxor.
  - change (negb (0 =? 0)) with false. cbv iota. by rewrite Z.lxor_0_r.
Qed.

Lemma poly_xorb a b : poly (xorb a b) = Z.lxor (poly a) (poly b).
Proof. by destruct a, b. Qed.

Lemma round_lxor a b : round (Z.lxor a b) = Z.lxor (round a) (round b).
Proof.
  rewrite !round_linear_form, Z.lxor_spec, poly_xorb, Z.shiftl_lxor, u16_lxor.
  rewrite !Z.lxor_assoc. f_equal. rewrite <-!Z.lxor_assoc. f_equal. apply Z.lxor_comm.
Qed.

Lemma rounds_lxor n a b : rounds n (Z.lxor a b) = Z.lxor (rounds n a) (rounds n b).
Proof. revert a b. induction n as [|n IH]; intros a b; [done|]. cbn. by rewrite round_lxor, IH. Qed.

(** Eight shifts of a byte in the low half never reach the top bit. *)
Lemma rounds_low lo : 0 <= lo < 256 -> rounds 8 lo = Z.shiftl lo 8.
Proof.
  intros Hlo. rewrite <-(Z2Nat.id lo) by lia.
  assert (Hn : (Z.to_nat lo < 256)%nat) by lia. revert Hn. generalize (Z.to_nat lo) as n. clear.
  intros n Hn.
  assert (H : forallb (fun n => rounds 8 (Z.of_nat n) =? Z.shiftl (Z.of_nat n) 8) (seq 0 256) = true)
    by by vm_compute.
  rewrite forallb_forall in H. apply Z.eqb_eq, H, in_seq. lia.
Qed.

Lemma table_at_spec i : 0 <= i < 256 -> table_at i = rounds 8 (Z.shiftl i 8).
Proof.
  intros Hi. unfold table_at, table. rewrite list_lookup_fmap, lookup_seqZ_lt by lia.
  cbn [fmap option_fmap option_map default from_option id]. unfold table_entry.
  rewrite Z2Nat.id, Z.add_0_l, u16_small by (lia || (rewrite Z.shiftl_mul_pow2 by lia; lia)). done.
Qed.

Lemma round_range a : 0 <= round a < 2 ^ 16.
Proof. apply u16_range. Qed.

Lemma rounds_range n a : 0 <= a < 2 ^ 16 -> 0 <= rounds n a < 2 ^ 16.
Proof. revert a. induction n as [|n IH]; intros a Ha; [done|]. cbn. apply IH, round_range. Qed.

Lemma split_hi_lo a : 0 <= a < 2 ^ 16 -> a = Z.lxor (Z.shiftl (Z.shiftr a 8) 8) (Z.land a 0xFF).
Proof.
  intros Ha. change 0xFF with (Z.ones 8). apply Z.bits_inj'. intros n Hn.
  rewrite Z.lxor_spec, Z.land_spec, Z.testbit_ones by lia.
  destruct (decide (n < 8)) as [Hlt|Hge].
  - rewrite Z.shiftl_spec_low by lia.
    replace (0 <=? n) with true by (symmetry; apply Z.leb_le; lia).
    replace (n <? 8) with true by (symmetry; apply Z.ltb_lt; lia).
    by destruct (Z.testbit a n).
  - rewrite Z.shiftl_spec, Z.shiftr_spec by lia. replace (n - 8 + 8) with n by lia.
    replace (n <? 8) with false by (symmetry; apply Z.ltb_ge; lia).
    rewrite andb_false_r, andb_false_r. by destruct (Z.testbit a n).
Qed.

Lemma lxor_range a b n : 0 <= n -> 0 <= a < 2 ^ n -> 0 <= b < 2 ^ n -> 0 <= Z.lxor a b < 2 ^ n.
Proof.
  intros Hn Ha Hb.
  assert (E : Z.lxor a b = Z.land (Z.lxor a b) (Z.ones n)).
  { rewrite land_lxor_distr_l, !Z.land_ones, !Z.mod_small by lia. done. }
  rewrite E, Z.land_ones by lia. apply Z.mod_pos_bound. lia.
Qed.

Lemma u16_shiftl8 a : u16 (Z.shiftl a 8) = Z.shiftl (Z.land a 0xFF) 8.
Proof.
  change 0xFF with (Z.ones 8). rewrite land_u16. apply Z.bits_inj'. intros n Hn.
  rewrite Z.land_spec, Z.testbit_ones by lia. destruct (decide (n < 8)).
  - by rewrite !Z.shiftl_spec_low by lia.
  - rewrite !Z.shiftl_spec, Z.land_spec, Z.testbit_ones by lia.
    replace (0 <=? n) with true by (symmetry; apply Z.leb_le; lia).
    replace (0 <=? n - 8) with true by (symmetry; apply Z.leb_le; lia).
    replace (n - 8 <? 8) with (n <? 16); [done|].
    destruct (Z.ltb_spec n 16), (Z.ltb_spec (n - 8) 8); lia.
Qed.

(** The table step is eight steps of the division. *)
Lemma step_bitwise crc b : 0 <= crc < 2 ^ 16 -> step crc b = bitwise_step crc b.
Proof.
  intros Hc. pose proof (bz_range b) as Hb.
  assert (Hsh : 0 <= Z.shiftl (bz b) 8 < 2 ^ 16) by (rewrite Z.shiftl_mul_pow2 by lia; lia).
  set (x := Z.lxor crc (Z.shiftl (bz b) 8)).
  assert (Hx : 0 <= x < 2 ^ 16) by (apply lxor_range; lia).
  assert (Hhi : Z.shiftr x 8 = Z.lxor (Z.shiftr crc 8) (bz b)).
  { unfold x. by rewrite Z.shiftr_lxor, Z.shiftr_shiftl_l, Z.shiftl_0_r by lia. }
  assert (Hhr : 0 <= Z.shiftr x 8 < 256).
  { rewrite Z.shiftr_div_pow2 by lia. split; [apply Z.div_pos; lia|].
    apply Z.div_lt_upper_bound; lia. }
  assert (Hlo : Z.land x 0xFF = Z.land crc 0xFF).
  { unfold x. rewrite land_lxor_distr_l. replace (Z.land (Z.shiftl (bz b) 8) 0xFF) with 0.
    - apply Z.lxor_0_r.
    - change 0xFF with (Z.ones 8). rewrite Z.land_ones, Z.shiftl_mul_pow2 by lia.
      symmetry. apply Z.mod_mul. lia. }
  unfold bitwise_step. fold x. rewrite (split_hi_lo x Hx), rounds_lxor, <-table_at_spec by done.
  rewrite rounds_low.
  2: { change 0xFF with (Z.ones 8). rewrite Z.land_ones by lia. apply Z.mod_pos_bound. lia. }
  unfold step. rewrite <-Hhi, Hlo.
  replace (Z.land (Z.shiftr x 8) 0xFF) with (Z.shiftr x 8).
  2: { change 0xFF with (Z.ones 8). by rewrite Z.land_ones, Z.mod_small by lia. }
  rewrite u16_lxor, u16_shiftl8, Z.lxor_comm. f_equal.
  apply u16_small. rewrite table_at_spec by done. apply rounds_range.
  rewrite Z.shiftl_mul_pow2 by lia. lia.
Qed.

Lemma step_range crc b : 0 <= step crc b < 2 ^ 16.
Proof. apply u16_range. Qed.

Lemma crc16_fold data : forall crc,
  0 <= crc < 2 ^ 16 -> foldl step crc data = foldl bitwise_step crc data.
Proof.
  induction data as [|b data IH]; intros crc Hc; [done|]. cbn [foldl].
  rewrite <-step_bitwise by done. apply IH, step_range.
Qed.

End Crc16Facts.

(** ** The tag rule *)

Lemma find_byte_front_spec c s k :
  find_byte_front c s = Some k <-> exists pre post, s = pre ++ c :: post /\ c ∉ pre /\ length pre = k.
Proof.
  split.
  - revert k. induction s as [|x s IH]; intros k H; [done|]. cbn [find_byte_front] in H.
    case_bool_decide as E.
    + exists [], s. simplify_eq. split_and!; [done | apply not_elem_of_nil | done].
    + apply fmap_Some_1 in H as (j & Hj & ->).
      destruct (IH _ Hj) as (pre & post & -> & Hni & <-).
      exists (x :: pre), post. split_and!; [done | set_solver | done].
  - intros (pre & post & -> & Hni & <-). induction pre as [|x pre IH]; cbn [app find_byte_front].
    + by rewrite bool_decide_eq_true_2.
    + apply not_elem_of_cons in Hni as [Hne Hni].
      by rewrite bool_decide_eq_false_2, IH by congruence.
Qed.

Lemma find_byte_app c pre s k :
  find_byte_front c s = Some k -> find_byte c (pre ++ s) (length pre) = Some (length pre + k)%nat.
Proof. intros H. unfold find_byte. by rewrite drop_app_length, H. Qed.

Lemma hash_part_tag pre tag post :
  "{"%byte ∉ pre -> "}"%byte ∉ tag -> tag <> [] ->
  hash_part (pre ++ "{"%byte :: tag ++ "}"%byte :: post) = tag.
Proof.
  intros Hpre Htag Hne. unfold hash_part.
  assert (H1 : find_byte "{" (pre ++ "{"%byte :: tag ++ "}"%byte :: post) 0 = Some (length pre)).
  { unfold find_byte. rewrite drop_0, (proj2 (find_byte_front_spec _ _ (length pre))); [done|].
    by exists pre, (tag ++ "}"%byte :: post). }
  rewrite H1.
  replace (pre ++ "{"%byte :: tag ++ "}"%byte :: post)
    with ((pre ++ ["{"%byte]) ++ tag ++ "}"%byte :: post) by by rewrite <-app_assoc.
  replace (length pre + 1)%nat with (length (pre ++ ["{"%byte])) by (rewrite length_app; simpl; lia).
  rewrite (find_byte_app _ _ _ (length tag)).
  2: { apply find_byte_front_spec. by exists tag, post. }
  assert (length tag <> 0%nat) by (by destruct tag).
  destruct (Nat.eqb_spec (length (pre ++ ["{"%byte]) + length tag) (length (pre ++ ["{"%byte]))); [lia|].
  rewrite drop_app_length.
  replace (_ - length pre - 1)%nat with (length tag) by (rewrite length_app; simpl; lia).
  apply take_app_length.
Qed.

Lemma hash_part_no_brace key : "{"%byte ∉ key -> hash_part key = key.
Proof.
  intros H. unfold hash_part, find_byte. rewrite drop_0.
  destruct (find_byte_front "{" key) as [k|] eqn:E; [|done].
  apply find_byte_front_spec in E as (pre & post & -> & _ & _). set_solver.
Qed.

Lemma key_hash_slot_range key : 0 <= key_hash_slot key < kSlots.
Proof.
  unfold key_hash_slot, kSlots. change (16384 - 1) with (Z.ones 14).
  rewrite Z.land_ones by lia. apply Z.mod_pos_bound. lia.
Qed.

Module SlotClaims.
Import Crc16 Crc16Facts.

(** The table-driven checksum is the CRC-16/XMODEM of every byte string:
    it equals the bit-by-bit division by 0x1021 with initial value 0. *)
Theorem crc16_is_xmodem data : crc16 data = bitwise_crc16 data.
Proof. apply crc16_fold. lia. Qed.

(** Every key has a slot in range, and keys sharing a non-empty [{tag}]
    share their slot: only the bytes between the first opening brace and the
    first closing brace after it are hashed. *)
Theorem tagged_keys_share_slot pre tag post
    (Hpre : "{"%byte ∉ pre) (Htag : "}"%byte ∉ tag) (Hne : tag <> []) :
  key_hash_slot (pre ++ "{"%byte :: tag ++ "}"%byte :: post) = Z.land (crc16 tag) (kSlots - 1) /\
  0 <= key_hash_slot (pre ++ "{"%byte :: tag ++ "}"%byte :: post) < kSlots.
Proof.
  split; [|apply key_hash_slot_range]. unfold key_hash_slot. by rewrite hash_part_tag.
Qed.

Lemma tagged_keys_share_slot_witness :
  key_hash_slot (&"a" ++ "{"%byte :: &"u1" ++ "}"%byte :: &":x")
    = Z.land (crc16 &"u1") (kSlots - 1) /\
  0 <= key_hash_slot (&"a" ++ "{"%byte :: &"u1" ++ "}"%byte :: &":x") < kSlots.
Proof.
  apply (tagged_keys_share_slot &"a" &"u1" &":x").
  - apply (bool_decide_unpack _). vm_compute. exact I.
  - apply (bool_decide_unpack _). vm_compute. exact I.
  - discriminate.
Defined.

(** The check value of the CRC-16/XMODEM catalogue entry, and the example of
    the header: an empty first tag hashes the whole key. *)
Example crc16_check_value : crc16 &"123456789" = 0x31C3.
Proof. by vm_compute. Qed.

Example empty_tag_hashes_all : hash_part &"a{}{b}" = &"a{}{b}".
Proof. by vm_compute. Qed.

End SlotClaims.
