(* ===== verification/Backlog.v ===== *)
(** * The replication backlog (src/src/repl_backlog.cpp)

    A fixed-size circular buffer over the replication stream.  [repr b start
    hist] is the abstraction: the stream bytes [hist] fed since offset
    [start].  Every operation is proved against it, and a partial resync is
    proved to send exactly the missing bytes. *)

From S2P Require Import Prelude.
From Stdlib Require Import Lia.

Module Backlog.

Record ReplBacklog := {
  buf_ : bytes;
  write_pos_ : nat;  (* where the next byte goes *)
  histlen_ : nat;    (* valid bytes *)
  offset_ : Z;       (* uint64_t *)
}.

Definition make (cap : nat) : ReplBacklog :=
  {| buf_ := replicate (Nat.max cap 1) x00; write_pos_ := 0; histlen_ := 0; offset_ := 0 |}.

Definition capacity (b : ReplBacklog) : nat := length (buf_ b).
Definition offset (b : ReplBacklog) : Z := offset_ b.
Definition start_offset (b : ReplBacklog) : Z := u64 (offset_ b - Z.of_nat (histlen_ b)).
Definition histlen (b : ReplBacklog) : nat := histlen_ b.

Definition contains (b : ReplBacklog) (from : Z) : bool :=
  (start_offset b <=? from) && (from <=? offset_ b).

(** [buf_.replace(pos, n, data, n)]. *)
Definition replace (buf : bytes) (pos : nat) (chunk : bytes) : bytes :=
  take pos buf ++ chunk ++ drop (pos + length chunk) buf.

(** The [while (!data.empty())] loop of [append].  A round writes at least one
    byte, so [S (length data)] rounds suffice. *)
Fixpoint append_loop (fuel : nat) (b : ReplBacklog) (data : bytes) : ReplBacklog :=
  match fuel with
  | O => b
  | S f =>
      match data with
      | [] => b
      | _ =>
          let cap := length (buf_ b) in
          let n := Nat.min (length data) (cap - write_pos_ b) in
          append_loop f
            {| buf_ := replace (buf_ b) (write_pos_ b) (take n data);
               write_pos_ := (write_pos_ b + n) mod cap;
               histlen_ := Nat.min (histlen_ b + n) cap;
               offset_ := offset_ b |}
            (drop n data)
      end
  end.

Definition append (b : ReplBacklog) (data : bytes) : ReplBacklog :=
  let b1 := {| buf_ := buf_ b; write_pos_ := write_pos_ b; histlen_ := histlen_ b;
               offset_ := u64 (offset_ b + zlen data) |} in
  let data := if (length (buf_ b) <? length data)%nat
              then drop (length data - length (buf_ b)) data else data in
  append_loop (S (length data)) b1 data.

Definition reset (b : ReplBacklog) (off : Z) : ReplBacklog :=
  {| buf_ := buf_ b; write_pos_ := 0; histlen_ := 0; offset_ := off |}.

Fixpoint copy_loop (fuel : nat) (buf : bytes) (pos len : nat) (out : bytes) : bytes :=
  match fuel with
  | O => out
  | S f =>
      if (len =? 0)%nat then out
      else let n := Nat.min len (length buf - pos) in
           copy_loop f buf ((pos + n) mod length buf) (len - n) (out ++ take n (drop pos buf))
  end.

Definition copy_from (b : ReplBacklog) (from : Z) (out : bytes) : bytes :=
  let len := Z.to_nat (u64 (offset_ b - from)) in
  let cap := length (buf_ b) in
  copy_loop (S len) (buf_ b) ((write_pos_ b + cap - len) mod cap) len out.

(** ** The invariant: the ring holds the tail of the stream *)

(** [i] counts back from the newest byte. *)
Record ring_ok (b : ReplBacklog) (hist : bytes) : Prop := {
  ring_pos : (write_pos_ b < length (buf_ b))%nat;
  ring_len : histlen_ b = Nat.min (length hist) (length (buf_ b));
  ring_bytes : forall i, (i < histlen_ b)%nat ->
    buf_ b !! ((write_pos_ b + length (buf_ b) - 1 - i) mod length (buf_ b))%nat
    = hist !! (length hist - 1 - i)%nat;
}.

Record repr (b : ReplBacklog) (start : Z) (hist : bytes) : Prop := {
  repr_ring : ring_ok b hist;
  repr_offset : offset_ b = start + zlen hist;
  repr_range : 0 <= start /\ start + zlen hist < 2 ^ 64;
}.

Lemma length_replace buf pos chunk :
  (pos + length chunk <= length buf)%nat -> length (replace buf pos chunk) = length buf.
Proof. intros H. unfold replace. rewrite !length_app, length_take, length_drop. lia. Qed.

Lemma lookup_replace buf pos chunk k :
  (pos + length chunk <= length buf)%nat ->
  replace buf pos chunk !! k =
  if decide (pos <= k < pos + length chunk)%nat then chunk !! (k - pos)%nat else buf !! k.
Proof.
  intros H. unfold replace. case_decide.
  - rewrite lookup_app_r by (rewrite length_take; lia). rewrite length_take, Nat.min_l by lia.
    by rewrite lookup_app_l by lia.
  - destruct (decide (k < pos)%nat).
    + rewrite lookup_app_l by (rewrite length_take; lia). by rewrite lookup_take_lt by lia.
    + rewrite lookup_app_r by (rewrite length_take; lia). rewrite length_take, Nat.min_l by lia.
      rewrite lookup_app_r by lia. rewrite lookup_drop. f_equal. lia.
Qed.

(** Distances on the ring. *)
Lemma mod_sub_wrap a c : (a < 2 * c)%nat -> (a mod c = if decide (a < c) then a else a - c)%nat.
Proof.
  intros H. case_decide; [by apply Nat.mod_small|].
  replace a with (a - c + 1 * c)%nat at 1 by lia. rewrite Nat.Div0.mod_add.
  apply Nat.mod_small. lia.
Qed.

Lemma ring_write b hist chunk :
  ring_ok b hist -> (length chunk <= length (buf_ b) - write_pos_ b)%nat ->
  ring_ok {| buf_ := replace (buf_ b) (write_pos_ b) chunk;
             write_pos_ := (write_pos_ b + length chunk) mod length (buf_ b);
             histlen_ := Nat.min (histlen_ b + length chunk) (length (buf_ b));
             offset_ := offset_ b |} (hist ++ chunk).
Proof.
  intros [Hpos Hlen Hbytes] Hfit. set (cap := length (buf_ b)) in *.
  set (wp := write_pos_ b) in *. set (n := length chunk) in *.
  assert (Hrl : length (replace (buf_ b) wp chunk) = cap) by (apply length_replace; fold n cap; lia).
  constructor; cbn [buf_ write_pos_ histlen_]; rewrite ?Hrl.
  - apply Nat.mod_upper_bound. lia.
  - rewrite Hlen, length_app. fold n. lia.
  - intros i Hi. rewrite lookup_replace by (fold n cap; lia). fold n.
    rewrite length_app. fold n.
    assert (Hp : (((wp + n) mod cap + cap - 1 - i) mod cap
                  = if decide (i < wp + n) then wp + n - 1 - i else wp + n + cap - 1 - i)%nat).
    { rewrite (mod_sub_wrap (wp + n)) by lia. rewrite mod_sub_wrap by (repeat case_decide; lia).
      repeat case_decide; lia. }
    rewrite Hp. destruct (decide (i < n)%nat) as [Hin|Hout].
    + rewrite (decide_True (P := (i < wp + n)%nat)) by lia. rewrite decide_True by lia.
      rewrite lookup_app_r by lia. f_equal. lia.
    + rewrite (lookup_app_l hist) by lia.
      replace (length hist + n - 1 - i)%nat with (length hist - 1 - (i - n))%nat by lia.
      rewrite <-Hbytes by lia. rewrite mod_sub_wrap by lia.
      rewrite decide_False by (repeat case_decide; lia).
      f_equal. repeat case_decide; lia.
Qed.

Lemma append_loop_ok f : forall b hist data,
  ring_ok b hist -> (length data < f)%nat ->
  ring_ok (append_loop f b data) (hist ++ data) /\
  offset_ (append_loop f b data) = offset_ b /\
  length (buf_ (append_loop f b data)) = length (buf_ b).
Proof.
  induction f as [|f IH]; intros b hist data Hok Hf; [lia|]. cbn [append_loop].
  destruct data as [|x data]; [by rewrite app_nil_r|].
  set (d := x :: data) in *. set (n := Nat.min (length d) (length (buf_ b) - write_pos_ b)).
  pose proof (ring_pos _ _ Hok).
  assert (Hd : length d = S (length data)) by done.
  assert (Hn : (0 < n <= length d)%nat) by (unfold n; lia).
  assert (Htn : length (take n d) = n) by (rewrite length_take; lia).
  pose proof (ring_write b hist (take n d) Hok ltac:(rewrite Htn; unfold n; lia)) as Hw.
  rewrite Htn in Hw.
  destruct (IH _ _ (drop n d) Hw) as (H1 & H2 & H3); [rewrite length_drop; lia|].
  rewrite <-app_assoc, take_drop in H1. cbn [buf_] in H3.
  rewrite length_replace in H3 by (rewrite Htn; unfold n; lia). done.
Qed.

(** Only the last [capacity] bytes of the stream matter to the ring. *)
Lemma ring_ok_tail b h1 h2 tail :
  ring_ok b (h1 ++ tail) -> length tail = length (buf_ b) -> ring_ok b (h2 ++ tail).
Proof.
  intros [Hp Hl Hb] Ht. rewrite length_app in *. constructor; [done | rewrite length_app; lia |].
  intros i Hi. rewrite Hb by done. rewrite length_app, !lookup_app_r by lia. f_equal. lia.
Qed.

Lemma append_repr b start hist data :
  repr b start hist -> start + zlen hist + zlen data < 2 ^ 64 ->
  repr (append b data) start (hist ++ data) /\ capacity (append b data) = capacity b.
Proof.
  intros [Hring Hoff [Hs Hr]] Hlt. unfold append.
  set (b1 := {| buf_ := buf_ b; write_pos_ := write_pos_ b; histlen_ := histlen_ b;
                offset_ := u64 (offset_ b + zlen data) |}).
  pose proof (zlen_nonneg data). pose proof (zlen_nonneg hist).
  assert (H1 : ring_ok b1 hist) by (destruct Hring; by constructor).
  assert (Ho : offset_ b1 = start + zlen (hist ++ data)).
  { cbn. rewrite Hoff, zlen_app, u64_small by lia. lia. }
  assert (Hfin : forall b2, ring_ok b2 (hist ++ data) -> offset_ b2 = offset_ b1 ->
            length (buf_ b2) = length (buf_ b1) ->
            repr b2 start (hist ++ data) /\ capacity b2 = capacity b).
  { intros b2 R O L. split; [constructor; [done | congruence | rewrite zlen_app; lia]|done]. }
  destruct (Nat.ltb_spec (length (buf_ b)) (length data)) as [Hbig|Hsmall].
  - set (k := (length data - length (buf_ b))%nat).
    destruct (append_loop_ok (S (length (drop k data))) b1 hist (drop k data) H1) as (R & O & L);
      [lia|].
    apply Hfin; [|done..].
    replace (hist ++ data) with ((hist ++ take k data) ++ drop k data)
      by (by rewrite <-app_assoc, take_drop).
    eapply ring_ok_tail; [exact R|].
    rewrite L, length_drop. unfold b1. cbn [buf_]. lia.
  - destruct (append_loop_ok (S (length data)) b1 hist data H1) as (R & O & L); [lia|].
    by apply Hfin.
Qed.

Lemma make_repr cap : repr (make cap) 0 [].
Proof.
  unfold make. constructor; [constructor|..]; cbn [buf_ write_pos_ histlen_ offset_].
  - rewrite length_replicate. lia.
  - done.
  - intros i Hi. lia.
  - done.
  - unfold zlen. simpl. lia.
Qed.

Lemma reset_repr b start hist off :
  repr b start hist -> 0 <= off < 2 ^ 64 -> repr (reset b off) off [].
Proof.
  intros [[Hp _ _] _ _] Ho. unfold reset.
  constructor; [constructor|..]; cbn [buf_ write_pos_ histlen_ offset_].
  - lia.
  - done.
  - intros i Hi. lia.
  - unfold zlen. simpl. lia.
  - unfold zlen. simpl. lia.
Qed.

(** What [copy_from] copies, position by position. *)
Lemma copy_loop_spec f : forall buf pos len out,
  (pos < length buf)%nat -> (len <= length buf)%nat -> (len < f)%nat ->
  exists tail, copy_loop f buf pos len out = out ++ tail /\ length tail = len /\
    forall j, (j < len)%nat -> tail !! j = buf !! ((pos + j) mod length buf)%nat.
Proof.
  induction f as [|f IH]; intros buf pos len out Hpos Hlen Hf; [lia|]. cbn [copy_loop].
  destruct (Nat.eqb_spec len 0) as [->|Hne].
  { exists []. split_and!; [by rewrite app_nil_r | done | intros; lia]. }
  set (n := Nat.min len (length buf - pos)).
  destruct (IH buf ((pos + n) mod length buf)%nat (len - n)%nat (out ++ take n (drop pos buf)))
    as (tail & -> & Ht & Hj); [apply Nat.mod_upper_bound; lia | lia | lia |].
  assert (Hln : length (take n (drop pos buf)) = n) by (rewrite length_take, length_drop; lia).
  exists (take n (drop pos buf) ++ tail). split_and!.
  - by rewrite app_assoc.
  - rewrite length_app. lia.
  - intros j Hlt. destruct (decide (j < n)%nat).
    + rewrite lookup_app_l by lia. rewrite lookup_take_lt, lookup_drop by lia.
      by rewrite Nat.mod_small by lia.
    + rewrite lookup_app_r by lia. rewrite Hj by lia. f_equal.
      rewrite Nat.Div0.add_mod_idemp_l. f_equal. lia.
Qed.

Lemma contains_repr b start hist from :
  repr b start hist ->
  contains b from = true <-> start + zlen hist - Z.of_nat (histlen_ b) <= from <= start + zlen hist.
Proof.
  intros [[_ Hl _] Ho [Hs Hr]]. unfold contains, start_offset. rewrite Ho.
  rewrite u64_small by (rewrite Hl; unfold zlen in *; lia).
  rewrite andb_true_iff, !Z.leb_le. done.
Qed.

Lemma copy_from_repr b start hist from out :
  repr b start hist -> contains b from = true ->
  copy_from b from out = out ++ drop (Z.to_nat (from - start)) hist.
Proof.
  intros Hr Hc. apply (contains_repr _ _ _ _ Hr) in Hc.
  destruct Hr as [[Hp Hl Hb] Ho [Hs Hmax]].
  unfold copy_from. rewrite Ho.
  assert (Hu : u64 (start + zlen hist - from) = start + zlen hist - from).
  { apply u64_small. unfold zlen in *. lia. }
  rewrite Hu. set (len := Z.to_nat (start + zlen hist - from)).
  assert (Hlen : (len <= histlen_ b)%nat) by lia.
  destruct (copy_loop_spec (S len) (buf_ b)
    ((write_pos_ b + length (buf_ b) - len) mod length (buf_ b)) len out) as (tail & -> & Ht & Hj);
    [apply Nat.mod_upper_bound; lia | lia | lia |].
  f_equal. apply list_eq_same_length with len;
    [rewrite length_drop; unfold zlen in *; lia | done |].
  intros j x y Hlt Hx Hy. rewrite Hj in Hx by done. rewrite lookup_drop in Hy.
  rewrite Nat.Div0.add_mod_idemp_l in Hx.
  assert (E := Hb (len - 1 - j)%nat ltac:(lia)).
  replace (write_pos_ b + length (buf_ b) - 1 - (len - 1 - j))%nat
    with (write_pos_ b + length (buf_ b) - len + j)%nat in E by lia.
  rewrite E in Hx.
  replace (length hist - 1 - (len - 1 - j))%nat with (Z.to_nat (from - start) + j)%nat in Hx
    by (unfold zlen in *; lia).
  congruence.
Qed.

End Backlog.

Module BacklogClaims.
Import Backlog.

(** The circular buffer is the tail of the stream.  Whatever was fed
    since the last reset, appending extends the abstract stream by exactly the
    new bytes, the capacity never changes, and the bytes still held are the
    last [min(stream, capacity)] ones. *)
Theorem append_extends_stream b start hist data
    (Hr : repr b start hist) (Hlt : start + zlen hist + zlen data < 2 ^ 64) :
  repr (append b data) start (hist ++ data) /\
  capacity (append b data) = capacity b /\
  offset (append b data) = start + zlen (hist ++ data) /\
  histlen (append b data) = Nat.min (length (hist ++ data)) (capacity b).
Proof.
  destruct (append_repr b start hist data Hr Hlt) as [H Hc]. split_and!; [done | done | |].
  - by destruct H.
  - destruct H as [[_ Hl _] _ _]. unfold histlen. by rewrite Hl, <-Hc.
Qed.

Lemma append_extends_stream_witness :
  repr (append (make 4) &"abcdef") 0 ([] ++ &"abcdef") /\
  capacity (append (make 4) &"abcdef") = capacity (make 4) /\
  offset (append (make 4) &"abcdef") = 0 + zlen ([] ++ &"abcdef") /\
  histlen (append (make 4) &"abcdef") = Nat.min (length ([] ++ &"abcdef")) (capacity (make 4)).
Proof.
  apply (append_extends_stream (make 4) 0 [] &"abcdef"); [apply make_repr | vm_compute; done].
Defined.

(** A partial resync sends exactly the missing bytes.  When the backlog
    says it still contains offset [from], [copy_from] appends the stream's
    bytes from [from] to the current offset, no more and no fewer; and it
    says so exactly for the offsets whose bytes it still holds. *)
Theorem partial_resync_exact b start hist from out
    (Hr : repr b start hist) (Hc : contains b from = true) :
  copy_from b from out = out ++ drop (Z.to_nat (from - start)) hist /\
  start + zlen hist - Z.of_nat (histlen b) <= from <= start + zlen hist.
Proof.
  split; [by apply copy_from_repr|]. by apply (contains_repr _ _ _ _ Hr).
Qed.

Lemma partial_resync_exact_witness :
  copy_from (append (make 4) &"abcdef") 3 &"+" = &"+" ++ drop (Z.to_nat (3 - 0)) &"abcdef" /\
  0 + zlen &"abcdef" - Z.of_nat (histlen (append (make 4) &"abcdef")) <= 3 <= 0 + zlen &"abcdef".
Proof.
  apply (partial_resync_exact (append (make 4) &"abcdef") 0 &"abcdef" 3 &"+").
  - apply (append_repr (make 4) 0 [] &"abcdef"); [apply make_repr | vm_compute; done].
  - by vm_compute.
Defined.

End BacklogClaims.
