(* ===== verification/HashTable.v ===== *)
(** * The incremental hash table (include/hash_table.hpp)

    Separate chaining over two bucket arrays with FNV-1a hashing.  A resize
    allocates a second array and moves the old buckets over a few at a time;
    the model keeps both arrays, the index of the next bucket to move and the
    entry count exactly as the class does.  Chains are lists in link order,
    so relinking a node onto the head of its new bucket is a [cons].

    [Module HashTable] holds the data, the operations and the well-formedness
    invariant with its preservation lemmas; [Class KeyTable] is what the
    keyspace relies on, discharged by the hash table at the end of the file.

    Allocation is assumed to succeed: [std::bad_alloc] is not modelled. *)

From S2P Require Import Prelude.

Module HashTable.

(** ** Data and operations *)

Definition kInitialBucketCount : nat := 16.

(** The [double] constants as the exact rationals they denote: 0.75 and the
    double nearest to 0.1, [3602879701896397 / 2^55].  A bucket count is a
    power of two, so dividing an entry count below [2^53] by it is exact and
    the comparisons of doubles are comparisons of these rationals. *)
Definition over_max_load (n buckets : nat) : bool :=
  3 * Z.of_nat buckets <? 4 * Z.of_nat n.
Definition under_min_load (n buckets : nat) : bool :=
  Z.of_nat n * 2 ^ 55 <? 3602879701896397 * Z.of_nat buckets.

Definition hash_key (key : bytes) : Z :=
  foldl (fun hash c => u64 (Z.lxor hash (bz c) * 1099511628211))
        14695981039346656037 key.

Definition bucket_index (hash : Z) (size : nat) : nat :=
  Z.to_nat (Z.land hash (Z.of_nat size - 1)).

Section table.
Context {V : Type}.

Abbreviation chain := (list (bytes * V)).
Abbreviation Table := (list chain).

Record HashTable := mkHashTable {
  tables_0 : Table;
  tables_1 : Table;
  rehash_idx_ : nat;
  num_entries_ : nat
}.

Definition make_table (size : nat) : Table := replicate size [].

Definition empty : HashTable := mkHashTable (make_table kInitialBucketCount) [] 0 0.

Definition rehashing (ht : HashTable) : bool := negb (length (tables_1 ht) =? 0)%nat.
Definition size (ht : HashTable) : nat := num_entries_ ht.
Definition bucket_count (ht : HashTable) : nat :=
  if rehashing ht then length (tables_1 ht) else length (tables_0 ht).

(** Which array, and which bucket of it, holds [key]. *)
Definition bucket_for (ht : HashTable) (key : bytes) : bool * nat :=
  let hash := hash_key key in
  let i := bucket_index hash (length (tables_0 ht)) in
  if rehashing ht && (i <? rehash_idx_ ht)%nat
  then (true, bucket_index hash (length (tables_1 ht)))
  else (false, i).

Definition read_bucket (ht : HashTable) (r : bool * nat) : chain :=
  if r.1 then tables_1 ht !!! r.2 else tables_0 ht !!! r.2.

Definition write_bucket (ht : HashTable) (r : bool * nat) (c : chain) : HashTable :=
  if r.1
  then mkHashTable (tables_0 ht) (<[r.2 := c]> (tables_1 ht)) (rehash_idx_ ht) (num_entries_ ht)
  else mkHashTable (<[r.2 := c]> (tables_0 ht)) (tables_1 ht) (rehash_idx_ ht) (num_entries_ ht).

Definition with_num (ht : HashTable) (n : nat) : HashTable :=
  mkHashTable (tables_0 ht) (tables_1 ht) (rehash_idx_ ht) n.

Definition maybe_resize (ht : HashTable) : HashTable :=
  if rehashing ht then ht
  else
    let buckets := length (tables_0 ht) in
    if over_max_load (num_entries_ ht) buckets
    then mkHashTable (tables_0 ht) (make_table (buckets * 2)) (rehash_idx_ ht) (num_entries_ ht)
    else if (kInitialBucketCount <? buckets)%nat && under_min_load (num_entries_ ht) buckets
    then mkHashTable (tables_0 ht) (make_table (buckets / 2)) (rehash_idx_ ht) (num_entries_ ht)
    else ht.

(** Relinks one node onto the head of its new bucket. *)
Definition relink (to : Table) (node : bytes * V) : Table :=
  let j := bucket_index (hash_key node.1) (length to) in
  <[j := node :: to !!! j]> to.

(** The loop of [rehash_step]; every iteration advances [rehash_idx_], so the
    number of old buckets left to visit is fuel enough. *)
Fixpoint rehash_loop (fuel n empty_visits : nat) (ht : HashTable) : HashTable :=
  match fuel with
  | O => ht
  | S fuel =>
      if (0 <? n)%nat && (rehash_idx_ ht <? length (tables_0 ht))%nat then
        match tables_0 ht !!! rehash_idx_ ht with
        | [] =>
            let ht := mkHashTable (tables_0 ht) (tables_1 ht) (S (rehash_idx_ ht)) (num_entries_ ht) in
            let empty_visits := (empty_visits - 1)%nat in
            if (empty_visits =? 0)%nat then ht else rehash_loop fuel n empty_visits ht
        | head =>
            let ht := mkHashTable (<[rehash_idx_ ht := []]> (tables_0 ht))
                        (foldl relink (tables_1 ht) head)
                        (S (rehash_idx_ ht)) (num_entries_ ht) in
            rehash_loop fuel (n - 1) empty_visits ht
        end
      else ht
  end.

(** The promotion of the new array once every old bucket has been moved. *)
Definition finish_rehash (ht : HashTable) : HashTable :=
  if (rehash_idx_ ht =? length (tables_0 ht))%nat
  then maybe_resize (mkHashTable (tables_1 ht) [] 0 (num_entries_ ht))
  else ht.

(** The returned boolean of the code is [rehashing] of the result. *)
Definition rehash_step (n : nat) (ht : HashTable) : HashTable :=
  if negb (rehashing ht) then ht
  else finish_rehash
         (rehash_loop (length (tables_0 ht) - rehash_idx_ ht) n (n * 10) ht).

Fixpoint chain_find (key : bytes) (c : chain) : option V :=
  match c with
  | [] => None
  | (k, v) :: c => if beq k key then Some v else chain_find key c
  end.

(** Overwrites the value of the node holding [key]; [None] when there is none. *)
Fixpoint chain_assign (key : bytes) (value : V) (c : chain) : option chain :=
  match c with
  | [] => None
  | (k, v) :: c =>
      if beq k key then Some ((k, value) :: c)
      else (fun c' => (k, v) :: c') <$> chain_assign key value c
  end.

(** Unlinks the node holding [key]; [None] when there is none. *)
Fixpoint chain_unlink (key : bytes) (c : chain) : option chain :=
  match c with
  | [] => None
  | (k, v) :: c =>
      if beq k key then Some c
      else (fun c' => (k, v) :: c') <$> chain_unlink key c
  end.

Definition set (key : bytes) (value : V) (ht : HashTable) : bool * HashTable :=
  let ht := rehash_step 1 ht in
  let r := bucket_for ht key in
  let head := read_bucket ht r in
  match chain_assign key value head with
  | Some head' => (false, write_bucket ht r head')
  | None =>
      let ht := write_bucket ht r ((key, value) :: head) in
      (true, maybe_resize (with_num ht (S (num_entries_ ht))))
  end.

Definition find (key : bytes) (ht : HashTable) : option V :=
  chain_find key (read_bucket ht (bucket_for ht key)).

Definition contains (key : bytes) (ht : HashTable) : bool :=
  match find key ht with Some _ => true | None => false end.

(** A write through the pointer [find] returned: the node stays where it is. *)
Definition assign (key : bytes) (value : V) (ht : HashTable) : HashTable :=
  let r := bucket_for ht key in
  match chain_assign key value (read_bucket ht r) with
  | Some c => write_bucket ht r c
  | None => ht
  end.

Definition del (key : bytes) (ht : HashTable) : bool * HashTable :=
  let ht := rehash_step 1 ht in
  let r := bucket_for ht key in
  match chain_unlink key (read_bucket ht r) with
  | Some c =>
      let ht := write_bucket ht r c in
      (true, maybe_resize (with_num ht (num_entries_ ht - 1)))
  | None => (false, ht)
  end.

(** The entries in the order [for_each] calls its function on them. *)
Definition for_each (ht : HashTable) : list (bytes * V) :=
  concat (tables_0 ht) ++ concat (tables_1 ht).

(** [random_entry] with the values its distributions draw as an explicit
    list: a bucket draw until one lands on a non-empty bucket, then one draw
    within the chain.  A draw [d] from the distribution over [0, hi] is the
    list's next number modulo [hi + 1].  [None] when the draws run out. *)
Fixpoint random_entry_loop (draws : list nat) (ht : HashTable)
  : option ((bytes * V) * list nat) :=
  let first := if rehashing ht then rehash_idx_ ht else 0%nat in
  let live_old := (length (tables_0 ht) - first)%nat in
  match draws with
  | [] => None
  | d :: draws =>
      let i := (d mod (live_old + length (tables_1 ht)))%nat in
      let head := if (i <? live_old)%nat then tables_0 ht !!! (first + i)%nat
                  else tables_1 ht !!! (i - live_old)%nat in
      match head with
      | [] => random_entry_loop draws ht
      | _ => match draws with
             | [] => None
             | k :: draws =>
                 (fun e => (e, draws)) <$> head !! (k mod length head)%nat
             end
      end
  end.

(** [Some None] is the pair of null pointers returned on an empty table. *)
Definition random_entry (draws : list nat) (ht : HashTable)
  : option (option (bytes * V) * list nat) :=
  if (num_entries_ ht =? 0)%nat then Some (None, draws)
  else (fun '(e, draws) => (Some e, draws)) <$> random_entry_loop draws ht.

(** ** The invariant *)

Definition pow2 (n : nat) : Prop := exists k, n = (2 ^ k)%nat.

(** What holds between the iterations of [rehash_step]: entries of the old
    array sit at their index and not below [rehash_idx_]; entries of the new
    array sit at their index and come from a bucket already moved. *)
Record inv (ht : HashTable) : Prop := {
  inv_pow0 : pow2 (length (tables_0 ht));
  inv_min0 : (kInitialBucketCount <= length (tables_0 ht))%nat;
  inv_size1 : tables_1 ht = [] \/ (kInitialBucketCount <= length (tables_1 ht))%nat /\
              (length (tables_1 ht) = 2 * length (tables_0 ht) \/
               2 * length (tables_1 ht) = length (tables_0 ht))%nat;
  inv_idle : tables_1 ht = [] -> rehash_idx_ ht = 0%nat;
  inv_old i c k v : tables_0 ht !! i = Some c -> (k, v) ∈ c ->
    (rehash_idx_ ht <= i)%nat /\ bucket_index (hash_key k) (length (tables_0 ht)) = i;
  inv_new j c k v : tables_1 ht !! j = Some c -> (k, v) ∈ c ->
    (bucket_index (hash_key k) (length (tables_0 ht)) < rehash_idx_ ht)%nat /\
    bucket_index (hash_key k) (length (tables_1 ht)) = j;
  inv_nodup : NoDup (for_each ht).*1;
  inv_num : num_entries_ ht = length (for_each ht)
}.

(** Between operations an unfinished resize has a bucket left to move. *)
Definition wf (ht : HashTable) : Prop :=
  inv ht /\ (rehash_idx_ ht < length (tables_0 ht))%nat.

(** The finite map a table stands for. *)
Definition to_map (ht : HashTable) : gmap bytes V := list_to_map (for_each ht).

(** ** Hashing and chains *)

Lemma pow2_pos n : pow2 n -> (0 < n)%nat.
Proof. intros [k ->]. apply Nat.neq_0_lt_0, Nat.pow_nonzero. lia. Qed.

(** The mask picks the bucket [hash % size] would. *)
Lemma bucket_index_mod hash n :
  pow2 n -> bucket_index hash n = Z.to_nat (hash mod Z.of_nat n).
Proof.
  intros [k ->]. unfold bucket_index. f_equal.
  rewrite Nat2Z.inj_pow. change (Z.of_nat 2) with 2.
  rewrite <-Z.land_ones by lia. by rewrite Z.ones_equiv, <-Z.sub_1_r.
Qed.

Lemma bucket_index_lt hash n : pow2 n -> (bucket_index hash n < n)%nat.
Proof.
  intros Hp. rewrite bucket_index_mod by done. apply pow2_pos in Hp.
  pose proof (Z.mod_pos_bound hash (Z.of_nat n)). lia.
Qed.

Lemma chain_find_map k c : chain_find k c = (list_to_map c : gmap bytes V) !! k.
Proof.
  induction c as [|[k' v] c IH]; simpl; [done|]. rewrite IH.
  destruct (beq k' k) eqn:E.
  - apply beq_eq in E as ->. by rewrite lookup_insert_eq.
  - apply beq_neq in E. by rewrite lookup_insert_ne.
Qed.

Lemma chain_assign_None k v c : chain_assign k v c = None -> k ∉ c.*1.
Proof.
  induction c as [|[k' v'] c IH]; simpl; [set_solver|].
  destruct (beq k' k) eqn:E; [done|]. apply beq_neq in E.
  intros H%fmap_None%IH. set_solver.
Qed.

Lemma chain_assign_Some k v c c' :
  chain_assign k v c = Some c' ->
  exists l1 v0 l2, c = l1 ++ (k, v0) :: l2 /\ c' = l1 ++ (k, v) :: l2.
Proof.
  revert c'. induction c as [|[k' v'] c IH]; simpl; intros c'; [done|].
  destruct (beq k' k) eqn:E.
  - apply beq_eq in E as ->. intros [= <-]. by exists [], v', c.
  - intros (d & (l1 & v0 & l2 & -> & ->)%IH & ->)%fmap_Some_1.
    by exists ((k', v') :: l1), v0, l2.
Qed.

Lemma chain_unlink_None k c : chain_unlink k c = None -> k ∉ c.*1.
Proof.
  induction c as [|[k' v'] c IH]; simpl; [set_solver|].
  destruct (beq k' k) eqn:E; [done|]. apply beq_neq in E.
  intros H%fmap_None%IH. set_solver.
Qed.

Lemma chain_unlink_Some k c c' :
  chain_unlink k c = Some c' ->
  exists l1 v0 l2, c = l1 ++ (k, v0) :: l2 /\ c' = l1 ++ l2.
Proof.
  revert c'. induction c as [|[k' v'] c IH]; simpl; intros c'; [done|].
  destruct (beq k' k) eqn:E.
  - apply beq_eq in E as ->. intros [= <-]. by exists [], v', c.
  - intros (d & (l1 & v0 & l2 & -> & ->)%IH & ->)%fmap_Some_1.
    by exists ((k', v') :: l1), v0, l2.
Qed.

(** ** Buckets *)

Lemma rehashing_true ht : rehashing ht = true <-> tables_1 ht <> [].
Proof. unfold rehashing. by destruct (tables_1 ht). Qed.

Lemma rehashing_false ht : rehashing ht = false <-> tables_1 ht = [].
Proof. unfold rehashing. by destruct (tables_1 ht). Qed.

Lemma pow2_half n m : pow2 n -> (2 * m = n)%nat -> (0 < m)%nat -> pow2 m.
Proof.
  intros [[|k] ->] H Hm; [simpl in H; lia|]. exists k. simpl in H. lia.
Qed.

Lemma pow2_double n : pow2 n -> pow2 (2 * n).
Proof. intros [k ->]. by exists (S k). Qed.

Lemma inv_pow1 ht : inv ht -> tables_1 ht <> [] -> pow2 (length (tables_1 ht)).
Proof.
  intros I H. destruct (inv_size1 _ I) as [|(Hmin & [E|E])]; [done| |].
  - rewrite E. apply pow2_double, I.
  - eapply pow2_half; [apply I|done|]. unfold kInitialBucketCount in Hmin. lia.
Qed.

Definition valid_ref (ht : HashTable) (r : bool * nat) : Prop :=
  (r.2 < length (if r.1 then tables_1 ht else tables_0 ht))%nat.

Lemma bucket_for_valid ht k : inv ht -> valid_ref ht (bucket_for ht k).
Proof.
  intros I. unfold bucket_for, valid_ref. destruct (rehashing ht && _) eqn:E; simpl.
  - zbool. apply bucket_index_lt, inv_pow1; [done|]. by apply rehashing_true.
  - apply bucket_index_lt, I.
Qed.

(** The entries outside one bucket. *)
Definition others (ht : HashTable) (r : bool * nat) : list (bytes * V) :=
  if r.1 then concat (tables_0 ht) ++ concat (delete r.2 (tables_1 ht))
  else concat (delete r.2 (tables_0 ht)) ++ concat (tables_1 ht).

Lemma read_bucket_lookup ht r :
  valid_ref ht r ->
  (if r.1 then tables_1 ht else tables_0 ht) !! r.2 = Some (read_bucket ht r).
Proof.
  unfold valid_ref, read_bucket. destruct r as [[] i]; simpl; intros H;
    by apply list_lookup_lookup_total_lt.
Qed.

Lemma for_each_read ht r :
  valid_ref ht r -> for_each ht ≡ₚ read_bucket ht r ++ others ht r.
Proof.
  intros H%read_bucket_lookup. unfold for_each, others.
  destruct r as [[] i]; simpl in *; rewrite (concat_delete_perm _ _ _ H);
    solve_Permutation.
Qed.

Lemma for_each_write ht r c :
  valid_ref ht r -> for_each (write_bucket ht r c) ≡ₚ c ++ others ht r.
Proof.
  unfold valid_ref, for_each, others, write_bucket.
  destruct r as [[] i]; simpl; intros H; rewrite (concat_insert_perm _ _ _ H);
    solve_Permutation.
Qed.

Lemma entry_in_bucket ht k v :
  inv ht -> (k, v) ∈ for_each ht -> (k, v) ∈ read_bucket ht (bucket_for ht k).
Proof.
  intros I. unfold for_each. rewrite elem_of_app, !elem_of_concat.
  unfold bucket_for, read_bucket. intros [(i & c & Hi & Hin)|(j & c & Hj & Hin)].
  - destruct (inv_old _ I _ _ _ _ Hi Hin) as [Hle ->].
    rewrite (proj2 (Nat.ltb_ge _ _) Hle).
    rewrite andb_false_r. simpl. by rewrite (list_lookup_total_correct _ _ _ Hi).
  - destruct (inv_new _ I _ _ _ _ Hj Hin) as [Hlt Hix].
    replace (rehashing ht) with true
      by (symmetry; apply rehashing_true; by intros E; rewrite E in Hj).
    rewrite (proj2 (Nat.ltb_lt _ _) Hlt). simpl. rewrite Hix.
    by rewrite (list_lookup_total_correct _ _ _ Hj).
Qed.

Lemma bucket_entry ht r k v :
  valid_ref ht r -> (k, v) ∈ read_bucket ht r -> (k, v) ∈ for_each ht.
Proof. intros Hr H. rewrite (for_each_read _ _ Hr). set_solver. Qed.

(** A lookup probes one bucket and still sees the whole map. *)
Lemma find_spec ht k : inv ht -> find k ht = to_map ht !! k.
Proof.
  intros I. unfold find. rewrite chain_find_map. pose proof (bucket_for_valid ht k I) as Hr.
  pose proof (inv_nodup _ I) as Hnd. unfold to_map. apply option_eq. intros v.
  rewrite <-(elem_of_list_to_map (for_each ht)) by done.
  pose proof (for_each_read _ _ Hr) as Hp.
  assert (NoDup (read_bucket ht (bucket_for ht k)).*1).
  { rewrite Hp, fmap_app in Hnd. by apply list.NoDup_app in Hnd as [? _]. }
  rewrite <-elem_of_list_to_map by done.
  split; [by apply bucket_entry | by apply entry_in_bucket].
Qed.

(** ** Preservation *)

Lemma inv_perm_nodup {l l' : list (bytes * V)} : l ≡ₚ l' -> NoDup l.*1 -> NoDup l'.*1.
Proof. intros H. by rewrite H. Qed.

(** Writing a chain of keys that belong in the bucket keeps the invariant. *)
Lemma inv_write ht key c n :
  inv ht ->
  (forall k v, (k, v) ∈ c -> k = key \/ exists v', (k, v') ∈ read_bucket ht (bucket_for ht key)) ->
  NoDup (c ++ others ht (bucket_for ht key)).*1 ->
  n = length (c ++ others ht (bucket_for ht key)) ->
  inv (with_num (write_bucket ht (bucket_for ht key) c) n).
Proof.
  intros I Hc Hnd Hn. pose proof (bucket_for_valid ht key I) as Hr.
  pose proof (for_each_write _ _ c Hr) as Hp. pose proof (read_bucket_lookup _ _ Hr) as Hl.
  assert (NoDup (for_each (write_bucket ht (bucket_for ht key) c)).*1) by by rewrite Hp.
  assert (n = length (for_each (write_bucket ht (bucket_for ht key) c)))
    by by rewrite Hp.
  unfold bucket_for, write_bucket, with_num, valid_ref in *.
  destruct (rehashing ht && _) eqn:E; destruct I as [I1 I2 I3 I4 I5 I6 I7 I8];
    cbn [fst snd tables_0 tables_1 rehash_idx_ num_entries_] in *;
    split; simpl; rewrite ?length_insert; try done.
  - destruct I3 as [E0|]; [rewrite E0 in Hr; simpl in Hr; lia | by right].
  - intros H1%(f_equal length). rewrite length_insert in H1. simpl in H1. lia.
  - intros j d k v [(<- & <- & Hj)|[Hne Hj]]%list_lookup_insert_Some Hin; [|by eauto].
    zbool. destruct (Hc _ _ Hin) as [->|[v' Hv']]; [done|]. by eapply I6.
  - intros j d k v [(<- & <- & Hj)|[Hne Hj]]%list_lookup_insert_Some Hin; [|by eauto].
    destruct (Hc _ _ Hin) as [->|[v' Hv']]; [|by eapply I5].
    split; [|done]. apply andb_false_iff in E as [E|E]; [|zlia].
    apply rehashing_false in E. rewrite (I4 E). lia.
Qed.

Lemma for_each_resize ht n :
  tables_1 ht = [] ->
  for_each (mkHashTable (tables_0 ht) (make_table n) (rehash_idx_ ht) (num_entries_ ht))
  = for_each ht.
Proof. intros E. unfold for_each, make_table. simpl. by rewrite concat_replicate_nil, E. Qed.

(** [maybe_resize] only ever adds an empty array of twice or half the size. *)
Lemma maybe_resize_cases ht :
  inv ht ->
  maybe_resize ht = ht \/
  tables_1 ht = [] /\ exists n,
    maybe_resize ht = mkHashTable (tables_0 ht) (make_table n) (rehash_idx_ ht) (num_entries_ ht)
    /\ (kInitialBucketCount <= n)%nat /\
    (n = 2 * length (tables_0 ht) \/ 2 * n = length (tables_0 ht))%nat.
Proof.
  intros I. unfold maybe_resize. destruct (rehashing ht) eqn:E; [by left|].
  apply rehashing_false in E. pose proof (inv_min0 _ I) as Hmin.
  destruct (over_max_load _ _); [right; split; [done|]; eexists; split; [done|]; lia|].
  destruct (_ && _) eqn:Eb; [|by left]. zbool.
  right; split; [done|]; eexists; split; [done|].
  destruct (inv_pow0 _ I) as [[|k] Hk]; rewrite Hk in *; unfold kInitialBucketCount in *;
    [simpl in *; lia|].
  assert (Hev : (2 ^ S k / 2 = 2 ^ k)%nat)
    by (rewrite Nat.pow_succ_r', Nat.mul_comm; apply Nat.div_mul; lia).
  rewrite Hev. rewrite Nat.pow_succ_r' in *. split; [|lia].
  destruct (decide (k <= 3)%nat) as [Hle|]; [|].
  - pose proof (Nat.pow_le_mono_r 2 k 3 ltac:(lia) Hle) as H3. simpl in H3. lia.
  - pose proof (Nat.pow_le_mono_r 2 4 k ltac:(lia) ltac:(lia)) as H4. simpl in H4. lia.
Qed.

Lemma maybe_resize_for_each ht : inv ht -> for_each (maybe_resize ht) = for_each ht.
Proof.
  intros I. destruct (maybe_resize_cases ht I) as [->|(E & n & -> & _)]; [done|].
  by apply for_each_resize.
Qed.

Lemma maybe_resize_inv ht : inv ht -> inv (maybe_resize ht).
Proof.
  intros I. destruct (maybe_resize_cases ht I) as [->|(E & n & -> & Hmin & Hn)]; [done|].
  pose proof (for_each_resize ht n E) as Hf.
  destruct I as [I1 I2 I3 I4 I5 I6 I7 I8].
  split; rewrite ?Hf; cbn [tables_0 tables_1 rehash_idx_ num_entries_]; try done.
  - right. unfold make_table. by rewrite length_replicate.
  - by intros _; apply I4.
  - intros j c k v Hj Hin. unfold make_table in Hj.
    apply lookup_replicate in Hj as [-> _]. by apply not_elem_of_nil in Hin.
Qed.

Lemma maybe_resize_wf ht : wf ht -> wf (maybe_resize ht).
Proof.
  intros [I H]. split; [by apply maybe_resize_inv|].
  by destruct (maybe_resize_cases ht I) as [->|(_ & n & -> & _)].
Qed.

(** ** Moving buckets *)

Lemma length_relink to node : length (relink to node) = length to.
Proof. unfold relink. by rewrite length_insert. Qed.

Lemma length_relinks to c : length (foldl relink to c) = length to.
Proof.
  revert to. induction c as [|x c IH]; intros to; simpl; [done|].
  by rewrite IH, length_relink.
Qed.

Lemma relink_perm to x : pow2 (length to) -> concat (relink to x) ≡ₚ x :: concat to.
Proof.
  intros Hp. unfold relink.
  pose proof (bucket_index_lt (hash_key x.1) _ Hp) as Hlt.
  rewrite (concat_insert_perm _ _ _ Hlt). simpl. f_equiv. symmetry.
  by apply concat_delete_perm, list_lookup_lookup_total_lt.
Qed.

Lemma relinks_perm to c :
  pow2 (length to) -> concat (foldl relink to c) ≡ₚ c ++ concat to.
Proof.
  revert to. induction c as [|x c IH]; intros to Hp; simpl; [done|].
  rewrite IH by by rewrite length_relink. rewrite relink_perm by done.
  by rewrite Permutation_middle.
Qed.

Lemma relinks_lookup to c j d k v :
  foldl relink to c !! j = Some d -> (k, v) ∈ d ->
  (exists d', to !! j = Some d' /\ (k, v) ∈ d') \/
  (k, v) ∈ c /\ bucket_index (hash_key k) (length to) = j.
Proof.
  revert to. induction c as [|x c IH]; intros to Hj Hin; simpl in Hj; [by eauto|].
  destruct (IH _ Hj Hin) as [(d' & Hd' & Hin')|[? Hi]].
  - unfold relink in Hd'.
    apply list_lookup_insert_Some in Hd' as [(<- & <- & Hlt)|[Hne Hd']]; [|by eauto].
    apply elem_of_cons in Hin' as [<-|Hin']; [by right; set_solver|].
    left. eexists. split; [by apply list_lookup_lookup_total_lt|done].
  - right. rewrite length_relink in Hi. set_solver.
Qed.

(** One iteration of the loop: empty the next old bucket into the new array. *)
Definition move (ht : HashTable) : HashTable :=
  mkHashTable (<[rehash_idx_ ht := []]> (tables_0 ht))
    (foldl relink (tables_1 ht) (tables_0 ht !!! rehash_idx_ ht))
    (S (rehash_idx_ ht)) (num_entries_ ht).

Lemma move_perm ht :
  inv ht -> tables_1 ht <> [] -> (rehash_idx_ ht < length (tables_0 ht))%nat ->
  for_each (move ht) ≡ₚ for_each ht.
Proof.
  intros I H1 Hlt. unfold for_each, move. simpl.
  rewrite relinks_perm by by apply inv_pow1.
  rewrite (concat_insert_perm _ _ _ Hlt). simpl.
  rewrite (concat_delete_perm (tables_0 ht) (rehash_idx_ ht) (tables_0 ht !!! rehash_idx_ ht))
    by by apply list_lookup_lookup_total_lt.
  solve_Permutation.
Qed.

Lemma move_inv ht :
  inv ht -> tables_1 ht <> [] -> (rehash_idx_ ht < length (tables_0 ht))%nat ->
  inv (move ht).
Proof.
  intros I H1 Hlt. pose proof (move_perm ht I H1 Hlt) as Hp.
  assert (Hb : tables_0 ht !! rehash_idx_ ht = Some (tables_0 ht !!! rehash_idx_ ht))
    by by apply list_lookup_lookup_total_lt.
  destruct I as [I1 I2 I3 I4 I5 I6 I7 I8].
  split; rewrite ?Hp; unfold move;
    cbn [tables_0 tables_1 rehash_idx_ num_entries_]; rewrite ?length_insert, ?length_relinks;
    try done.
  - destruct I3; [done|]. by right.
  - intros E%(f_equal length). rewrite length_relinks in E. by destruct (tables_1 ht).
  - intros i c k v [(<- & <- & _)|[Hne Hi]]%list_lookup_insert_Some Hin;
      [by apply not_elem_of_nil in Hin|].
    destruct (I5 _ _ _ _ Hi Hin). lia.
  - intros j c k v Hj Hin.
    destruct (relinks_lookup _ _ _ _ _ _ Hj Hin) as [(d & Hd & Hd')|[Hc <-]].
    + destruct (I6 _ _ _ _ Hd Hd'). lia.
    + destruct (I5 _ _ _ _ Hb Hc). lia.
Qed.

(** What every run of the loop guarantees. *)
Record moved (ht ht' : HashTable) : Prop := {
  moved_inv : inv ht';
  moved_perm : for_each ht' ≡ₚ for_each ht;
  moved_size0 : length (tables_0 ht') = length (tables_0 ht);
  moved_size1 : length (tables_1 ht') = length (tables_1 ht);
  moved_idx : (rehash_idx_ ht <= rehash_idx_ ht' <= length (tables_0 ht))%nat
}.

Lemma moved_refl ht : inv ht -> (rehash_idx_ ht <= length (tables_0 ht))%nat -> moved ht ht.
Proof. by split. Qed.

Lemma moved_trans a b c : moved a b -> moved b c -> moved a c.
Proof.
  intros [A1 A2 A3 A4 A5] [B1 B2 B3 B4 B5].
  split; [done| by rewrite B2 | congruence | congruence | lia].
Qed.

Lemma move_moved ht :
  inv ht -> tables_1 ht <> [] -> (rehash_idx_ ht < length (tables_0 ht))%nat ->
  moved ht (move ht).
Proof.
  intros I H1 Hlt. split; [by apply move_inv | by apply move_perm | | | simpl; lia];
    unfold move; simpl; by rewrite ?length_insert, ?length_relinks.
Qed.

Lemma move_empty ht :
  tables_0 ht !!! rehash_idx_ ht = [] -> (rehash_idx_ ht < length (tables_0 ht))%nat ->
  mkHashTable (tables_0 ht) (tables_1 ht) (S (rehash_idx_ ht)) (num_entries_ ht) = move ht.
Proof.
  intros E Hlt. unfold move. rewrite E. simpl. f_equal. symmetry.
  apply list_insert_id. rewrite <-E. by apply list_lookup_lookup_total_lt.
Qed.

Lemma size1_nil (ht ht' : HashTable) :
  length (tables_1 ht') = length (tables_1 ht) -> tables_1 ht <> [] -> tables_1 ht' <> [].
Proof. intros E H E'. rewrite E' in E. by destruct (tables_1 ht). Qed.

(** The loop is a sequence of moves; it moves at least once when asked to. *)
Lemma rehash_loop_moved fuel n ev ht :
  inv ht -> tables_1 ht <> [] -> (rehash_idx_ ht <= length (tables_0 ht))%nat ->
  moved ht (rehash_loop fuel n ev ht) /\
  ((0 < fuel)%nat -> (0 < n)%nat -> (rehash_idx_ ht < length (tables_0 ht))%nat ->
   (rehash_idx_ ht < rehash_idx_ (rehash_loop fuel n ev ht))%nat).
Proof.
  revert n ev ht. induction fuel as [|fuel IH]; intros n ev ht I H1 Hle; simpl.
  { split; [by apply moved_refl | lia]. }
  destruct (_ && _) eqn:Ec; [|split; [by apply moved_refl | intros _ ??; apply andb_false_iff in Ec as [?|?]; zlia]].
  apply andb_true_iff in Ec as [Hn Hlt%Nat.ltb_lt]. clear Hn.
  pose proof (move_moved ht I H1 Hlt) as Hm.
  assert (Hrec : forall n ev, moved ht (rehash_loop fuel n ev (move ht)) /\
    (rehash_idx_ ht < rehash_idx_ (rehash_loop fuel n ev (move ht)))%nat).
  { intros n' ev'. destruct (IH n' ev' (move ht)) as [H _].
    - apply Hm.
    - eapply size1_nil; [apply Hm|done].
    - simpl. rewrite length_insert. lia.
    - split; [by eapply moved_trans|]. pose proof (moved_idx _ _ H). simpl in *. lia. }
  destruct (tables_0 ht !!! rehash_idx_ ht) as [|x c] eqn:Eb.
  - rewrite (move_empty _ Eb Hlt). destruct (_ =? 0)%nat; [split; [done|simpl; lia]|].
    destruct (Hrec n (ev - 1)%nat); auto.
  - assert (Em : mkHashTable (<[rehash_idx_ ht := []]> (tables_0 ht))
        (foldl relink (tables_1 ht) (x :: c)) (S (rehash_idx_ ht)) (num_entries_ ht) = move ht)
      by (unfold move; by rewrite Eb).
    simpl in Em. rewrite Em. destruct (Hrec (n - 1)%nat ev); auto.
Qed.

(** Promoting the new array: by then no old bucket holds an entry. *)
Lemma old_drained ht :
  inv ht -> rehash_idx_ ht = length (tables_0 ht) -> concat (tables_0 ht) = [].
Proof.
  intros I E. destruct (concat (tables_0 ht)) as [|[k v] l] eqn:El; [done|].
  assert ((k, v) ∈ concat (tables_0 ht)) as (i & c & Hi & Hin)%elem_of_concat
    by (rewrite El; set_solver).
  destruct (inv_old _ I _ _ _ _ Hi Hin) as [? _].
  apply lookup_lt_Some in Hi. lia.
Qed.

Lemma promote_inv ht :
  inv ht -> tables_1 ht <> [] -> rehash_idx_ ht = length (tables_0 ht) ->
  inv (mkHashTable (tables_1 ht) [] 0 (num_entries_ ht)) /\
  for_each (mkHashTable (tables_1 ht) [] 0 (num_entries_ ht)) = for_each ht.
Proof.
  intros I H1 E. pose proof (old_drained _ I E) as E0. pose proof (inv_pow1 _ I H1).
  assert (Hf : for_each (mkHashTable (tables_1 ht) [] 0 (num_entries_ ht)) = for_each ht)
    by (unfold for_each; simpl; by rewrite E0, app_nil_r).
  split; [|done]. destruct I as [I1 I2 I3 I4 I5 I6 I7 I8].
  destruct I3 as [|[I3 _]]; [done|].
  split; rewrite ?Hf; cbn [tables_0 tables_1 rehash_idx_ num_entries_]; try done.
  - by left.
  - intros j c k v Hj Hin. destruct (I6 _ _ _ _ Hj Hin). split; [lia|done].
Qed.

Lemma finish_rehash_wf ht :
  inv ht -> tables_1 ht <> [] -> (rehash_idx_ ht <= length (tables_0 ht))%nat ->
  wf (finish_rehash ht) /\ for_each (finish_rehash ht) = for_each ht.
Proof.
  intros I H1 Hle. unfold finish_rehash. destruct (_ =? _)%nat eqn:E; zbool.
  - destruct (promote_inv _ I H1 E) as [I' Hf]. split.
    + apply maybe_resize_wf. split; [done|]. simpl. by destruct (tables_1 ht); simpl; [|lia].
    + by rewrite maybe_resize_for_each.
  - split; [split; [done|lia]|done].
Qed.

(** A rehash step loses and invents nothing. *)
Lemma rehash_step_wf n ht :
  wf ht -> wf (rehash_step n ht) /\ for_each (rehash_step n ht) ≡ₚ for_each ht.
Proof.
  intros [I Hlt]. unfold rehash_step. destruct (rehashing ht) eqn:E; simpl; [|done].
  apply rehashing_true in E.
  destruct (rehash_loop_moved (length (tables_0 ht) - rehash_idx_ ht) n (n * 10) ht)
    as [M _]; [done..|lia|].
  pose proof (size1_nil _ _ (moved_size1 _ _ M) E) as H1.
  destruct (finish_rehash_wf _ (moved_inv _ _ M) H1) as [Hw Hf].
  { rewrite (moved_size0 _ _ M). apply M. }
  split; [done|]. rewrite Hf. apply M.
Qed.

Lemma to_map_perm (ht : HashTable) l :
  NoDup (for_each ht).*1 -> for_each ht ≡ₚ l -> to_map ht = list_to_map l.
Proof. intros Hnd Hp. by apply list_to_map_proper. Qed.

Lemma rehash_step_map n ht : wf ht -> to_map (rehash_step n ht) = to_map ht.
Proof.
  intros H. destruct (rehash_step_wf n ht H) as [Hw Hp].
  apply to_map_perm; [apply Hw|done].
Qed.

Lemma empty_wf : wf empty.
Proof.
  split; [split|]; try done; try (simpl; lia).
  - by exists 4%nat.
  - by left.
  - intros i c k v Hi Hin. change (replicate 16 [] !! i = Some c) in Hi.
    apply lookup_replicate in Hi as [-> _]. by apply not_elem_of_nil in Hin.
  - constructor.
Qed.

Lemma empty_map : to_map empty = ∅.
Proof. done. Qed.

Lemma size_spec ht : wf ht -> size ht = base.size (to_map ht).
Proof.
  intros [I _]. unfold size, to_map. rewrite (inv_num _ I).
  rewrite <-(Permutation_length (map_to_list_to_map _ (inv_nodup _ I))).
  by rewrite length_map_to_list.
Qed.

(** ** The operations against the finite map *)

Lemma insert_split_map (l : list (bytes * V)) k v0 v l1 l2 rest :
  l ≡ₚ (l1 ++ (k, v0) :: l2) ++ rest -> NoDup l.*1 ->
  NoDup ((l1 ++ (k, v) :: l2) ++ rest).*1 /\
  (list_to_map ((l1 ++ (k, v) :: l2) ++ rest) : gmap bytes V) = <[k := v]> (list_to_map l).
Proof.
  intros Hp Hnd.
  assert (H1 : l ≡ₚ (k, v0) :: l1 ++ l2 ++ rest) by (rewrite Hp; solve_Permutation).
  assert (H2 : (l1 ++ (k, v) :: l2) ++ rest ≡ₚ (k, v) :: l1 ++ l2 ++ rest)
    by solve_Permutation.
  assert (Hnd2 : NoDup ((l1 ++ (k, v) :: l2) ++ rest).*1)
    by (rewrite H2; by rewrite H1 in Hnd).
  split; [done|]. rewrite (list_to_map_proper _ _ Hnd2 H2), (list_to_map_proper _ _ Hnd H1).
  simpl. by rewrite insert_insert_eq.
Qed.

Lemma with_num_self ht r c :
  with_num (write_bucket ht r c) (num_entries_ ht) = write_bucket ht r c.
Proof. unfold with_num, write_bucket. by destruct r as [[] ?]. Qed.

(** Overwriting the node of [k] in its bucket. *)
Lemma overwrite_spec ht k v c :
  inv ht -> chain_assign k v (read_bucket ht (bucket_for ht k)) = Some c ->
  inv (write_bucket ht (bucket_for ht k) c) /\
  to_map (write_bucket ht (bucket_for ht k) c) = <[k := v]> (to_map ht) /\
  is_Some (to_map ht !! k).
Proof.
  intros I (l1 & v0 & l2 & Hb & ->)%chain_assign_Some.
  pose proof (bucket_for_valid ht k I) as Hr.
  pose proof (for_each_read _ _ Hr) as Hp. rewrite Hb in Hp.
  destruct (insert_split_map _ _ _ v _ _ _ Hp (inv_nodup _ I)) as [Hnd Hm].
  pose proof (for_each_write _ _ (l1 ++ (k, v) :: l2) Hr) as Hw.
  assert (Hin : to_map ht !! k = Some v0).
  { unfold to_map. apply elem_of_list_to_map; [apply I|]. rewrite Hp. set_solver. }
  assert (Hmap : to_map (write_bucket ht (bucket_for ht k) (l1 ++ (k, v) :: l2))
                 = <[k := v]> (to_map ht)).
  { rewrite (to_map_perm _ _ (inv_perm_nodup (symmetry Hw) Hnd) Hw). done. }
  split_and!; [|done|by eexists].
  rewrite <-with_num_self. apply inv_write; [done| |done|].
  - intros k' v'. rewrite Hb. set_unfold. intros [?|[?|?]]; naive_solver.
  - rewrite (inv_num _ I), (Permutation_length Hp), !length_app. done.
Qed.

Lemma write_bucket_idx ht r c :
  rehash_idx_ (write_bucket ht r c) = rehash_idx_ ht /\
  length (tables_0 (write_bucket ht r c)) = length (tables_0 ht).
Proof.
  unfold write_bucket. destruct r as [[] i]; simpl; by rewrite ?length_insert.
Qed.

Lemma write_bucket_wf ht r c n :
  wf ht -> inv (with_num (write_bucket ht r c) n) -> wf (with_num (write_bucket ht r c) n).
Proof.
  intros [_ H] I. split; [done|]. destruct (write_bucket_idx ht r c) as [E1 E2].
  unfold with_num. simpl. by rewrite E1, E2.
Qed.

Lemma assign_spec k v ht :
  wf ht -> is_Some (to_map ht !! k) ->
  wf (assign k v ht) /\ to_map (assign k v ht) = <[k := v]> (to_map ht).
Proof.
  intros Hw [v0 Hv]. pose proof Hw as [I _]. unfold assign.
  destruct (chain_assign k v _) as [c|] eqn:E.
  - destruct (overwrite_spec _ _ _ _ I E) as (I' & Hm & _). split; [|done].
    rewrite <-with_num_self in *. by apply write_bucket_wf.
  - apply chain_assign_None in E. rewrite <-find_spec in Hv by done.
    unfold find in Hv. rewrite chain_find_map in Hv.
    apply elem_of_list_to_map_2, (list_elem_of_fmap_2 fst) in Hv. done.
Qed.

(** Linking a new key at the head of its bucket. *)
Lemma link_spec ht k v :
  inv ht -> k ∉ (read_bucket ht (bucket_for ht k)).*1 ->
  let ht' := with_num (write_bucket ht (bucket_for ht k)
                        ((k, v) :: read_bucket ht (bucket_for ht k))) (S (num_entries_ ht)) in
  inv ht' /\ to_map ht' = <[k := v]> (to_map ht) /\ to_map ht !! k = None.
Proof.
  intros I Hk ht'. pose proof (bucket_for_valid ht k I) as Hr.
  pose proof (for_each_read _ _ Hr) as Hp.
  pose proof (for_each_write _ _ ((k, v) :: read_bucket ht (bucket_for ht k)) Hr) as Hw.
  simpl in Hw. rewrite <-Hp in Hw.
  assert (Hnk : k ∉ (for_each ht).*1).
  { intros ([k' v'] & -> & H)%list_elem_of_fmap. simpl in Hk.
    apply Hk, (list_elem_of_fmap_2 fst (read_bucket _ _) (k', v')). by apply entry_in_bucket. }
  assert (Hnd : NoDup ((k, v) :: for_each ht).*1)
    by (simpl; constructor; [done|apply I]).
  assert (Hn : to_map ht !! k = None) by by apply not_elem_of_list_to_map_1.
  split_and!; [| |done].
  - apply inv_write; [done| | |].
    + intros k' v' [[= -> ->]|?]%elem_of_cons; eauto.
    + simpl app. apply (inv_perm_nodup (l := (k, v) :: for_each ht)); [|done]. by rewrite Hp.
    + simpl. by rewrite (inv_num _ I), (Permutation_length Hp).
  - unfold ht'. change (to_map (with_num ?a _)) with (to_map a).
    by rewrite (to_map_perm _ _ (inv_perm_nodup (symmetry Hw) Hnd) Hw).
Qed.

Lemma set_spec k v ht :
  wf ht ->
  wf (set k v ht).2 /\ to_map (set k v ht).2 = <[k := v]> (to_map ht) /\
  (set k v ht).1 = bool_decide (to_map ht !! k = None).
Proof.
  intros Hw. rewrite <-(rehash_step_map 1 ht Hw).
  destruct (rehash_step_wf 1 ht Hw) as [Hw1 _]. unfold set.
  generalize dependent (rehash_step 1 ht). clear Hw ht. intros ht Hw. pose proof Hw as [I _].
  destruct (chain_assign k v _) as [c|] eqn:E; simpl.
  - destruct (overwrite_spec _ _ _ _ I E) as (I' & Hm & [v0 Hv]).
    split_and!; [|done|by rewrite Hv].
    rewrite <-with_num_self in *. by apply write_bucket_wf.
  - apply chain_assign_None in E. destruct (link_spec ht k v I E) as (I' & Hm & Hn).
    replace (num_entries_ (write_bucket _ _ _)) with (num_entries_ ht)
      by (unfold write_bucket; by destruct (bucket_for ht k) as [[] ?]).
    split_and!.
    + by apply maybe_resize_wf, write_bucket_wf.
    + rewrite <-Hm. unfold to_map at 1. by rewrite maybe_resize_for_each.
    + by rewrite Hn.
Qed.

(** Unlinking the node of [k]. *)
Lemma unlink_spec ht k c :
  inv ht -> chain_unlink k (read_bucket ht (bucket_for ht k)) = Some c ->
  let ht' := with_num (write_bucket ht (bucket_for ht k) c) (num_entries_ ht - 1) in
  inv ht' /\ to_map ht' = delete k (to_map ht) /\ is_Some (to_map ht !! k).
Proof.
  intros I (l1 & v0 & l2 & Hb & ->)%chain_unlink_Some ht'.
  pose proof (bucket_for_valid ht k I) as Hr.
  pose proof (for_each_read _ _ Hr) as Hp. rewrite Hb in Hp.
  pose proof (for_each_write _ _ (l1 ++ l2) Hr) as Hw.
  assert (H1 : for_each ht ≡ₚ (k, v0) :: (l1 ++ l2) ++ others ht (bucket_for ht k))
    by (rewrite Hp; solve_Permutation).
  pose proof (inv_perm_nodup H1 (inv_nodup _ I)) as Hnd. simpl in Hnd.
  apply list.NoDup_cons in Hnd as [Hk Hnd].
  pose proof (to_map_perm ht _ (inv_nodup _ I) H1) as Hm. simpl in Hm.
  split_and!.
  - apply inv_write; [done| |done|].
    + intros k' v'. rewrite Hb. set_unfold. naive_solver.
    + rewrite (inv_num _ I), (Permutation_length H1). simpl. lia.
  - rewrite Hm, delete_insert_id by by apply not_elem_of_list_to_map_1.
    unfold ht'. change (to_map (with_num ?a _)) with (to_map a).
    by rewrite (to_map_perm _ _ (inv_perm_nodup (symmetry Hw) Hnd) Hw).
  - rewrite Hm, lookup_insert_eq. by eexists.
Qed.

Lemma del_spec k ht :
  wf ht ->
  wf (del k ht).2 /\ to_map (del k ht).2 = delete k (to_map ht) /\
  (del k ht).1 = bool_decide (is_Some (to_map ht !! k)).
Proof.
  intros Hw. rewrite <-(rehash_step_map 1 ht Hw).
  destruct (rehash_step_wf 1 ht Hw) as [Hw1 _]. unfold del.
  generalize dependent (rehash_step 1 ht). clear Hw ht. intros ht Hw. pose proof Hw as [I _].
  destruct (chain_unlink k _) as [c|] eqn:E; simpl.
  - destruct (unlink_spec _ _ _ I E) as (I' & Hm & Hv).
    replace (num_entries_ (write_bucket _ _ _)) with (num_entries_ ht)
      by (unfold write_bucket; by destruct (bucket_for ht k) as [[] ?]).
    split_and!.
    + by apply maybe_resize_wf, write_bucket_wf.
    + rewrite <-Hm. unfold to_map at 1. by rewrite maybe_resize_for_each.
    + by rewrite bool_decide_true.
  - apply chain_unlink_None in E. assert (Hn : to_map ht !! k = None).
    { rewrite <-find_spec by done. unfold find. rewrite chain_find_map.
      by apply not_elem_of_list_to_map_1. }
    split_and!; [done| by rewrite delete_id | by rewrite Hn].
Qed.

Lemma for_each_spec ht : wf ht -> for_each ht ≡ₚ map_to_list (to_map ht).
Proof. intros [I _]. symmetry. apply map_to_list_to_map, I. Qed.

(** ** Random sampling *)

Lemma random_entry_loop_sound draws ht e rest :
  random_entry_loop draws ht = Some (e, rest) -> e ∈ for_each ht.
Proof.
  revert rest. induction draws as [|d draws IH]; intros rest; simpl; [done|].
  set (first := if rehashing ht then rehash_idx_ ht else 0%nat).
  set (head := if (_ <? _)%nat then _ else _).
  assert (Hh : forall x, x ∈ head -> x ∈ for_each ht).
  { intros x. unfold head, for_each. rewrite elem_of_app, !elem_of_concat.
    assert (H : forall (t : Table) i, x ∈ t !!! i -> exists j c, t !! j = Some c /\ x ∈ c).
    { intros t i Hx. exists i. rewrite list_lookup_total_alt in Hx.
      destruct (t !! i) as [c|]; [by exists c|]. by apply not_elem_of_nil in Hx. }
    destruct (_ <? _)%nat; intros Hx%H; [by left | by right]. }
  destruct head as [|x c] eqn:Eh; [by eauto|].
  destruct draws as [|k draws]; [done|].
  intros (y & Hy & [= -> ->])%fmap_Some_1. apply Hh. by eapply list_elem_of_lookup_2.
Qed.

(** Every entry is the answer to some two draws. *)
Lemma random_entry_loop_complete ht e :
  wf ht -> e ∈ for_each ht -> exists d k, forall rest, random_entry_loop (d :: k :: rest) ht = Some (e, rest).
Proof.
  intros [I Hlt] He. unfold for_each in He. rewrite elem_of_app, !elem_of_concat in He.
  set (first := if rehashing ht then rehash_idx_ ht else 0%nat).
  assert (Hf : first = rehash_idx_ ht).
  { unfold first. destruct (rehashing ht) eqn:E; [done|].
    symmetry. by apply (inv_idle _ I), rehashing_false. }
  assert (Hgoal : forall i c j, (i < length (tables_0 ht) - first + length (tables_1 ht))%nat ->
    (if (i <? length (tables_0 ht) - first)%nat then tables_0 ht !!! (first + i)%nat
     else tables_1 ht !!! (i - (length (tables_0 ht) - first))%nat) = c ->
    c !! j = Some e -> forall rest, random_entry_loop (i :: j :: rest) ht = Some (e, rest)).
  { intros i c j Hi Hc Hj rest. simpl. fold first. rewrite Nat.mod_small by done.
    rewrite Hc. destruct c as [|x c]; [done|].
    rewrite (Nat.mod_small j) by by apply lookup_lt_Some in Hj.
    by rewrite Hj. }
  destruct e as [k v]. destruct He as [(i & c & Hi & Hin)|(i & c & Hi & Hin)];
    apply list_elem_of_lookup in Hin as [j Hj]; pose proof (lookup_lt_Some _ _ _ Hi) as Hil.
  - destruct (inv_old _ I i c k v Hi) as [Hle _]; [by eapply list_elem_of_lookup_2|].
    exists (i - first)%nat, j. eapply Hgoal; [lia| |exact Hj].
    rewrite (proj2 (Nat.ltb_lt _ _)) by lia.
    replace (first + (i - first))%nat with i by lia. by apply list_lookup_total_correct.
  - exists (length (tables_0 ht) - first + i)%nat, j. eapply Hgoal; [lia| |exact Hj].
    rewrite (proj2 (Nat.ltb_ge _ _)) by lia.
    replace (_ - _)%nat with i by lia. by apply list_lookup_total_correct.
Qed.

Lemma random_entry_sound draws ht r rest :
  wf ht -> random_entry draws ht = Some (r, rest) ->
  match r with
  | Some (k, v) => to_map ht !! k = Some v
  | None => to_map ht = ∅
  end.
Proof.
  intros [I _]. unfold random_entry. destruct (_ =? 0)%nat eqn:E.
  - intros [= <- _]. zbool. rewrite (inv_num _ I) in E.
    apply nil_length_inv in E. unfold to_map. by rewrite E.
  - intros ([[k v] d] & H%random_entry_loop_sound & [= -> ->])%fmap_Some_1.
    by apply elem_of_list_to_map; [apply I|].
Qed.

Lemma random_entry_complete ht k v :
  wf ht -> to_map ht !! k = Some v ->
  exists draws, forall rest, random_entry (draws ++ rest) ht = Some (Some (k, v), rest).
Proof.
  intros Hw Hk. apply elem_of_list_to_map_2 in Hk.
  destruct (random_entry_loop_complete ht (k, v) Hw Hk) as (d & j & E).
  exists [d; j]. intros rest. unfold random_entry. simpl app. rewrite E. destruct Hw as [I _].
  rewrite (inv_num _ I). destruct (for_each ht); [by apply not_elem_of_nil in Hk|done].
Qed.

(** ** Progress of a resize and the load factor *)

(** The part of a table the load analysis looks at. *)
Definition shape (ht : HashTable) : nat * nat * nat * nat :=
  (length (tables_0 ht), length (tables_1 ht), rehash_idx_ ht, num_entries_ ht).

Lemma moved_num a b : inv a -> moved a b -> num_entries_ b = num_entries_ a.
Proof.
  intros I M. rewrite (inv_num _ I), (inv_num _ (moved_inv _ _ M)).
  apply Permutation_length, M.
Qed.

(** A step of at least one bucket either advances the index or promotes the
    new array. *)
Lemma rehash_step_progress n ht :
  wf ht -> tables_1 ht <> [] -> (0 < n)%nat ->
  (exists i, shape (rehash_step n ht) =
     (length (tables_0 ht), length (tables_1 ht), i, num_entries_ ht) /\
     (rehash_idx_ ht < i)%nat) \/
  rehash_step n ht = maybe_resize (mkHashTable (tables_0 (rehash_step n ht)) [] 0 (num_entries_ ht)) /\
  inv (mkHashTable (tables_0 (rehash_step n ht)) [] 0 (num_entries_ ht)) /\
  length (tables_0 (rehash_step n ht)) = length (tables_1 ht).
Proof.
  intros [I Hlt] H1 Hn. unfold rehash_step.
  rewrite (proj2 (rehashing_true ht) H1). simpl negb. cbv iota.
  destruct (rehash_loop_moved (length (tables_0 ht) - rehash_idx_ ht) n (n * 10) ht)
    as [M Hadv]; [done..|lia|].
  specialize (Hadv ltac:(lia) Hn Hlt). revert M Hadv.
  generalize (rehash_loop (length (tables_0 ht) - rehash_idx_ ht) n (n * 10) ht) as r.
  intros r M Hadv. pose proof (moved_num _ _ I M) as Hnum. unfold finish_rehash.
  destruct (_ =? _)%nat eqn:E; zbool.
  - right. rewrite Hnum.
    destruct (promote_inv r (moved_inv _ _ M) (size1_nil _ _ (moved_size1 _ _ M) H1) E)
      as [Ip _]. rewrite Hnum in Ip.
    assert (E0 : tables_0 (maybe_resize (mkHashTable (tables_1 r) [] 0 (num_entries_ ht)))
                 = tables_1 r).
    { destruct (maybe_resize_cases _ Ip) as [->|(_ & m & -> & _)]; done. }
    rewrite E0. split_and!; [done|done|apply M].
  - left. exists (rehash_idx_ r). unfold shape.
    by rewrite (moved_size0 _ _ M), (moved_size1 _ _ M), Hnum.
Qed.

(** Idle tables are at most three quarters full.  While growing, the entries
    are at most 20/9 of the old array plus one per bucket moved; while
    shrinking, at most a ninth of it plus one per bucket moved. *)
Definition load_ok (ht : HashTable) (slack : nat) : Prop :=
  if rehashing ht then
    (length (tables_1 ht) = 2 * length (tables_0 ht) /\
     9 * num_entries_ ht <= 20 * length (tables_0 ht) + 9 * (rehash_idx_ ht + slack) \/
     2 * length (tables_1 ht) = length (tables_0 ht) /\
     9 * num_entries_ ht <= length (tables_0 ht) + 9 * (rehash_idx_ ht + slack))%nat
  else (4 * num_entries_ ht <= 3 * length (tables_0 ht))%nat.

Lemma load_ok_weaken ht a b : (a <= b)%nat -> load_ok ht a -> load_ok ht b.
Proof. unfold load_ok. destruct (rehashing ht); lia. Qed.

Lemma rehashing_length ht : rehashing ht = negb (length (tables_1 ht) =? 0)%nat.
Proof. done. Qed.

(** Whatever the load so far, [maybe_resize] starts the resize it calls for. *)
Lemma maybe_resize_load ht :
  inv ht -> tables_1 ht = [] ->
  (9 * num_entries_ ht <= 20 * length (tables_0 ht))%nat ->
  load_ok (maybe_resize ht) 0.
Proof.
  intros I E1 Hload. pose proof (inv_min0 _ I) as Hmin. unfold kInitialBucketCount in Hmin.
  pose proof (inv_idle _ I E1) as Hidx.
  unfold maybe_resize. rewrite (proj2 (rehashing_false ht) E1).
  destruct (over_max_load _ _) eqn:Eo.
  { unfold load_ok, make_table. rewrite rehashing_length.
    cbn [tables_0 tables_1 rehash_idx_ num_entries_].
    rewrite length_replicate. destruct (_ =? 0)%nat eqn:E0; zbool; cbn [negb]; lia. }
  unfold over_max_load in Eo.
  destruct (_ && _) eqn:Eu.
  - apply andb_true_iff in Eu as [H16 Eu]. unfold under_min_load, kInitialBucketCount in *.
    assert (Hev : (2 * (length (tables_0 ht) / 2) = length (tables_0 ht))%nat).
    { destruct (inv_pow0 _ I) as [[|k] Hk]; rewrite Hk in *; [simpl in *; lia|].
      rewrite Nat.pow_succ_r', (Nat.mul_comm 2 (2 ^ k)), Nat.div_mul; lia. }
    unfold load_ok, make_table. rewrite rehashing_length.
    cbn [tables_0 tables_1 rehash_idx_ num_entries_].
    rewrite length_replicate. destruct (_ =? 0)%nat eqn:E0; zbool; cbn [negb]; lia.
  - unfold load_ok. rewrite (proj2 (rehashing_false ht) E1). zlia.
Qed.

Lemma load_ok_shape a b s : shape a = shape b -> load_ok a s -> load_ok b s.
Proof.
  unfold shape, load_ok. rewrite !rehashing_length. intros [= -> -> -> ->]. done.
Qed.

Lemma load_ok_idle ht s : tables_1 ht = [] -> load_ok ht s -> load_ok ht 0.
Proof. intros E. unfold load_ok. by rewrite (proj2 (rehashing_false ht) E). Qed.

Lemma rehash_step_load n ht :
  wf ht -> load_ok ht 1 -> (0 < n)%nat -> load_ok (rehash_step n ht) 0.
Proof.
  intros Hw Hl Hn. destruct (rehashing ht) eqn:E.
  2: { apply rehashing_false in E. unfold rehash_step.
       rewrite (proj2 (rehashing_false ht) E). by eapply load_ok_idle. }
  apply rehashing_true in E.
  destruct (rehash_step_progress n ht Hw E Hn) as [(i & Hs & Hi)|(Heq & Ip & Hlen)].
  - eapply (load_ok_shape (mkHashTable (tables_0 ht) (tables_1 ht) i (num_entries_ ht)));
      [by rewrite Hs|].
    unfold load_ok in *. rewrite !rehashing_length in *. cbn [tables_0 tables_1 rehash_idx_ num_entries_].
    destruct (negb _); lia.
  - rewrite Heq. apply maybe_resize_load; [done|done|]. cbn [tables_0 num_entries_].
    rewrite Hlen. destruct Hw as [I Hidx].
    unfold load_ok in Hl. rewrite (proj2 (rehashing_true ht) E) in Hl. lia.
Qed.

Lemma write_bucket_shape ht r c n :
  shape (with_num (write_bucket ht r c) n) =
  (length (tables_0 ht), length (tables_1 ht), rehash_idx_ ht, n).
Proof.
  unfold shape, with_num, write_bucket. destruct r as [[] i]; simpl; by rewrite ?length_insert.
Qed.

(** After a step, one entry more or fewer, then the check for a resize. *)
Lemma write_load ht r c n :
  load_ok ht 0 -> inv (with_num (write_bucket ht r c) n) -> (n <= S (num_entries_ ht))%nat ->
  load_ok (maybe_resize (with_num (write_bucket ht r c) n)) 1.
Proof.
  intros Hl I Hn. pose proof (write_bucket_shape ht r c n) as Hs.
  revert I Hs. generalize (with_num (write_bucket ht r c) n) as w. intros w I [= H0 H1 Hi Hnum].
  pose proof (inv_min0 _ I) as Hmin. unfold kInitialBucketCount in Hmin.
  destruct (rehashing w) eqn:E.
  - unfold maybe_resize. rewrite E. unfold load_ok in *. rewrite E.
    rewrite rehashing_length in *. rewrite H1 in E. rewrite E in Hl.
    rewrite H0, H1, Hi, Hnum. lia.
  - apply (load_ok_weaken _ 0); [lia|].
    apply maybe_resize_load; [done|by apply rehashing_false|].
    unfold load_ok in Hl. rewrite rehashing_length in *. rewrite H1 in E. rewrite E in Hl. lia.
Qed.

Lemma set_load k v ht : wf ht -> load_ok ht 1 -> load_ok (set k v ht).2 1.
Proof.
  intros Hw Hl. apply (rehash_step_load 1) in Hl; [|done|lia].
  destruct (rehash_step_wf 1 ht Hw) as [[I _] _]. unfold set.
  revert I Hl. generalize (rehash_step 1 ht). clear Hw ht. intros ht I Hl.
  destruct (chain_assign k v _) as [c|] eqn:E; simpl.
  - apply (load_ok_weaken _ 0); [lia|]. eapply load_ok_shape; [|exact Hl].
    rewrite <-with_num_self. by rewrite write_bucket_shape.
  - apply chain_assign_None in E. destruct (link_spec ht k v I E) as (I' & _).
    replace (num_entries_ (write_bucket _ _ _)) with (num_entries_ ht)
      by (unfold write_bucket; by destruct (bucket_for ht k) as [[] ?]).
    by apply write_load.
Qed.

Lemma del_load k ht : wf ht -> load_ok ht 1 -> load_ok (del k ht).2 1.
Proof.
  intros Hw Hl. apply (rehash_step_load 1) in Hl; [|done|lia].
  destruct (rehash_step_wf 1 ht Hw) as [[I _] _]. unfold del.
  revert I Hl. generalize (rehash_step 1 ht). clear Hw ht. intros ht I Hl.
  destruct (chain_unlink k _) as [c|] eqn:E; simpl.
  - destruct (unlink_spec ht k c I E) as (I' & _).
    replace (num_entries_ (write_bucket _ _ _)) with (num_entries_ ht)
      by (unfold write_bucket; by destruct (bucket_for ht k) as [[] ?]).
    apply write_load; [done|done|lia].
  - by apply (load_ok_weaken _ 0); [lia|].
Qed.

(** The load an invariant state shows on the array it is settling on. *)
Lemma load_ok_bound ht :
  wf ht -> load_ok ht 1 -> (9 * size ht <= 20 * bucket_count ht)%nat.
Proof.
  intros [I Hlt] Hl. unfold load_ok, size, bucket_count in *.
  destruct (rehashing ht); lia.
Qed.

Lemma rehash_step_0 ht : wf ht -> rehash_step 0 ht = ht.
Proof.
  intros [I Hlt]. unfold rehash_step. destruct (negb _); [done|].
  replace (rehash_loop _ 0 (0 * 10) ht) with ht
    by by destruct (length (tables_0 ht) - rehash_idx_ ht)%nat.
  unfold finish_rehash. by rewrite (proj2 (Nat.eqb_neq _ _)) by lia.
Qed.

(** ** Histories of a table *)

Inductive op :=
  | OpSet (key : bytes) (value : V)
  | OpDel (key : bytes)
  | OpRehash (n : nat).

(** The booleans [set] and [del] return, and the table after the history. *)
Definition apply_op (st : list bool * HashTable) (o : op) : list bool * HashTable :=
  match o with
  | OpSet k v => let '(b, ht) := set k v st.2 in (st.1 ++ [b], ht)
  | OpDel k => let '(b, ht) := del k st.2 in (st.1 ++ [b], ht)
  | OpRehash n => (st.1, rehash_step n st.2)
  end.

Definition run (ops : list op) : list bool * HashTable := foldl apply_op ([], empty) ops.

(** The same history on a finite map. *)
Definition spec_op (st : list bool * gmap bytes V) (o : op) : list bool * gmap bytes V :=
  match o with
  | OpSet k v => (st.1 ++ [bool_decide (st.2 !! k = None)], <[k := v]> st.2)
  | OpDel k => (st.1 ++ [bool_decide (is_Some (st.2 !! k))], delete k st.2)
  | OpRehash _ => st
  end.

Definition spec_run (ops : list op) : list bool * gmap bytes V := foldl spec_op ([], ∅) ops.

Lemma table_run_invariant ops :
  wf (run ops).2 /\ load_ok (run ops).2 1 /\
  (run ops).1 = (spec_run ops).1 /\ to_map (run ops).2 = (spec_run ops).2.
Proof.
  induction ops as [|o ops IH] using rev_ind.
  { split_and!; [apply empty_wf| |done|done]. unfold load_ok. simpl. lia. }
  unfold run, spec_run in *. rewrite !foldl_app. simpl.
  revert IH. generalize (foldl apply_op ([], empty) ops), (foldl spec_op ([], ∅) ops).
  intros [bs ht] [bs' m]; simpl; intros (Hw & Hl & <- & <-). destruct o as [k v|k|n]; simpl.
  - destruct (set_spec k v ht Hw) as (? & ? & <-). pose proof (set_load k v ht Hw Hl).
    by destruct (set k v ht).
  - destruct (del_spec k ht Hw) as (? & ? & <-). pose proof (del_load k ht Hw Hl).
    by destruct (del k ht).
  - destruct (rehash_step_wf n ht Hw) as [? _]. rewrite rehash_step_map by done.
    split_and!; try done. destruct n as [|n].
    + by rewrite rehash_step_0.
    + apply (load_ok_weaken _ 0); [lia|]. by apply rehash_step_load; [..|lia].
Qed.

(** ** A resize finishes *)

(** The rest of a write leaves the arrays as the rehash step left them, except
    that it may start the next resize. *)
Record same_arrays (a b : HashTable) : Prop := {
  same_size0 : length (tables_0 b) = length (tables_0 a);
  same_idx : rehash_idx_ b = rehash_idx_ a;
  same_size1 : tables_1 a <> [] -> length (tables_1 b) = length (tables_1 a)
}.

Lemma maybe_resize_arrays a : same_arrays a (maybe_resize a).
Proof.
  unfold maybe_resize. destruct (rehashing a) eqn:E; [done|].
  apply rehashing_false in E. repeat case_match; by split.
Qed.

Lemma write_bucket_arrays ht r c n : same_arrays ht (with_num (write_bucket ht r c) n).
Proof. pose proof (write_bucket_shape ht r c n) as [= ???]. by split. Qed.

Lemma same_arrays_trans a b c : same_arrays a b -> same_arrays b c -> same_arrays a c.
Proof.
  intros [A1 A2 A3] [B1 B2 B3]. split; [congruence..|]. intros H.
  rewrite B3, A3; [done|done|]. by apply (size1_nil a); auto.
Qed.

Lemma set_arrays k v ht : same_arrays (rehash_step 1 ht) (set k v ht).2.
Proof.
  unfold set. destruct (chain_assign k v _) as [c|]; simpl.
  - rewrite <-with_num_self. apply write_bucket_arrays.
  - eapply same_arrays_trans; [apply write_bucket_arrays|apply maybe_resize_arrays].
Qed.

Lemma del_arrays k ht : same_arrays (rehash_step 1 ht) (del k ht).2.
Proof.
  unfold del. destruct (chain_unlink k _) as [c|]; simpl; [|done].
  eapply same_arrays_trans; [apply write_bucket_arrays|apply maybe_resize_arrays].
Qed.

Definition is_write (o : op) : bool := match o with OpRehash _ => false | _ => true end.

Lemma write_progress ht ht' :
  wf ht -> tables_1 ht <> [] -> same_arrays (rehash_step 1 ht) ht' ->
  (length (tables_0 ht') = length (tables_0 ht) /\ length (tables_1 ht') = length (tables_1 ht)
   /\ rehash_idx_ ht < rehash_idx_ ht')%nat \/
  length (tables_0 ht') = length (tables_1 ht).
Proof.
  intros Hw H1 [S1 S2 S3].
  destruct (rehash_step_progress 1 ht Hw H1) as [(i & [= E0 E1 Ei _] & Hi)|(_ & _ & E)]; [lia| |].
  - left. rewrite S1, S2, S3, E0, E1, Ei; [done|]. by apply (size1_nil ht).
  - right. by rewrite S1.
Qed.

Lemma write_op_progress st o :
  wf st.2 -> tables_1 st.2 <> [] -> is_write o = true ->
  let ht := st.2 in let ht' := (apply_op st o).2 in
  wf ht' /\
  ((length (tables_0 ht') = length (tables_0 ht) /\ length (tables_1 ht') = length (tables_1 ht)
    /\ rehash_idx_ ht < rehash_idx_ ht')%nat \/
   length (tables_0 ht') = length (tables_1 ht)).
Proof.
  destruct st as [bs ht], o as [k v|k|]; simpl; intros Hw H1 Ho; [| |done].
  - pose proof (write_progress ht _ Hw H1 (set_arrays k v ht)).
    destruct (set_spec k v ht Hw) as [? _]. by destruct (set k v ht).
  - pose proof (write_progress ht _ Hw H1 (del_arrays k ht)).
    destruct (del_spec k ht Hw) as [? _]. by destruct (del k ht).
Qed.

Lemma resize_finishes_from st ops :
  wf st.2 -> tables_1 st.2 <> [] -> Forall (fun o => is_write o = true) ops ->
  (length (tables_0 st.2) - rehash_idx_ st.2 <= length ops)%nat ->
  exists m, (m <= length (tables_0 st.2) - rehash_idx_ st.2)%nat /\
    length (tables_0 (foldl apply_op st (take m ops)).2) = length (tables_1 st.2).
Proof.
  intros Hw H1 Hops. revert st Hw H1.
  induction Hops as [|o ops Ho _ IH]; intros st Hw H1 Hlen.
  { destruct Hw as [_ Hlt]. simpl in Hlen. lia. }
  destruct (write_op_progress st o Hw H1 Ho) as [Hw' [(E0 & E1 & Hi)|E]].
  - simpl in Hlen. destruct (IH (apply_op st o)) as (m & Hm & E).
    + done.
    + by eapply size1_nil.
    + rewrite E0. destruct Hw'. lia.
    + exists (S m). split; [rewrite E0 in Hm; destruct Hw' as [_ Hw']; rewrite E0 in Hw'; lia|].
      simpl. by rewrite E, E1.
  - exists 1%nat. split; [destruct Hw; lia|]. done.
Qed.

End table.
Arguments HashTable : clear implicits.
End HashTable.

(** ** What the keyspace relies on

    [Store] is written against this interface: the operations of the class
    template, and their laws in terms of the finite map a table stands for. *)

Class KeyTable (T : Type -> Type) := {
  kt_empty : forall {V}, T V;
  kt_find : forall {V}, bytes -> T V -> option V;
  kt_set : forall {V}, bytes -> V -> T V -> bool * T V;
  kt_assign : forall {V}, bytes -> V -> T V -> T V;
  kt_del : forall {V}, bytes -> T V -> bool * T V;
  kt_size : forall {V}, T V -> nat;
  kt_for_each : forall {V}, T V -> list (bytes * V);
  kt_random_entry : forall {V}, list nat -> T V -> option (option (bytes * V) * list nat);
  kt_rehash_step : forall {V}, nat -> T V -> T V;
  kt_rehashing : forall {V}, T V -> bool
}.

Class KeyTableLaws (T : Type -> Type) `{KeyTable T} := {
  kt_wf : forall {V}, T V -> Prop;
  kt_map : forall {V}, T V -> gmap bytes V;
  kt_empty_wf {V} : kt_wf (kt_empty : T V);
  kt_empty_map {V} : kt_map (kt_empty : T V) = ∅;
  kt_find_law {V} k (t : T V) : kt_wf t -> kt_find k t = kt_map t !! k;
  kt_set_law {V} k v (t : T V) : kt_wf t ->
    kt_wf (kt_set k v t).2 /\ kt_map (kt_set k v t).2 = <[k := v]> (kt_map t) /\
    (kt_set k v t).1 = bool_decide (kt_map t !! k = None);
  kt_assign_law {V} k v (t : T V) : kt_wf t -> is_Some (kt_map t !! k) ->
    kt_wf (kt_assign k v t) /\ kt_map (kt_assign k v t) = <[k := v]> (kt_map t);
  kt_del_law {V} k (t : T V) : kt_wf t ->
    kt_wf (kt_del k t).2 /\ kt_map (kt_del k t).2 = delete k (kt_map t) /\
    (kt_del k t).1 = bool_decide (is_Some (kt_map t !! k));
  kt_size_law {V} (t : T V) : kt_wf t -> kt_size t = size (kt_map t);
  kt_for_each_law {V} (t : T V) : kt_wf t -> kt_for_each t ≡ₚ map_to_list (kt_map t);
  kt_random_entry_law {V} draws (t : T V) r rest : kt_wf t ->
    kt_random_entry draws t = Some (r, rest) ->
    match r with Some (k, v) => kt_map t !! k = Some v | None => kt_map t = ∅ end;
  kt_random_entry_total {V} (t : T V) k v : kt_wf t -> kt_map t !! k = Some v ->
    exists draws, forall rest, kt_random_entry (draws ++ rest) t = Some (Some (k, v), rest);
  kt_rehash_step_law {V} n (t : T V) : kt_wf t ->
    kt_wf (kt_rehash_step n t) /\ kt_map (kt_rehash_step n t) = kt_map t
}.

#[global] Instance hash_table_ops : KeyTable HashTable.HashTable := {
  kt_empty _ := HashTable.empty;
  kt_find _ := HashTable.find;
  kt_set _ := HashTable.set;
  kt_assign _ := HashTable.assign;
  kt_del _ := HashTable.del;
  kt_size _ := HashTable.size;
  kt_for_each _ := HashTable.for_each;
  kt_random_entry _ := HashTable.random_entry;
  kt_rehash_step _ := HashTable.rehash_step;
  kt_rehashing _ := HashTable.rehashing
}.

#[global] Program Instance hash_table_laws : KeyTableLaws HashTable.HashTable := {
  kt_wf _ := HashTable.wf;
  kt_map _ := HashTable.to_map
}.
Next Obligation. intros V. apply HashTable.empty_wf. Qed.
Next Obligation. intros V. apply HashTable.empty_map. Qed.
Next Obligation. intros V k t [I _]. by apply HashTable.find_spec. Qed.
Next Obligation. intros V k v t. apply HashTable.set_spec. Qed.
Next Obligation. intros V k v t. apply HashTable.assign_spec. Qed.
Next Obligation. intros V k t. apply HashTable.del_spec. Qed.
Next Obligation. intros V t. apply HashTable.size_spec. Qed.
Next Obligation. intros V t. apply HashTable.for_each_spec. Qed.
Next Obligation. intros V draws t r rest. apply HashTable.random_entry_sound. Qed.
Next Obligation. intros V t k v. apply HashTable.random_entry_complete. Qed.
Next Obligation.
  intros V n t Hw. split; [by apply HashTable.rehash_step_wf | by apply HashTable.rehash_step_map].
Qed.

Module HashTableClaims.
Import HashTable.

(** C7: after any history of [set], [del] and [rehash_step] calls on a fresh
    table, every lookup, every returned boolean, the size and the set of
    visited entries are those of a finite map with the same history; no
    resize, finished or not, is observable. *)
Theorem table_is_a_map {V} (ops : list (@op V)) :
  let '(bs, ht) := run ops in
  let '(bs', m) := spec_run ops in
  bs = bs' /\ (forall k, find k ht = m !! k) /\ size ht = base.size m /\
  for_each ht ≡ₚ map_to_list m.
Proof.
  pose proof (table_run_invariant ops) as (Hw & _ & Hb & Hm).
  destruct (run ops) as [bs ht], (spec_run ops) as [bs' m]. simpl in *. subst.
  split_and!; [done| |by apply size_spec|by apply for_each_spec].
  intros k. by apply find_spec, Hw.
Qed.

(** While a resize is in progress, as many writes as there are old
    buckets left are enough to move them all and promote the new array. *)
Theorem resize_finishes {V} (ops writes : list (@op V)) :
  rehashing (run ops).2 = true ->
  Forall (fun o => is_write o = true) writes ->
  (length (tables_0 (run ops).2) <= length writes)%nat ->
  exists m, (m <= length (tables_0 (run ops).2))%nat /\
    length (tables_0 (run (ops ++ take m writes)).2) = bucket_count (run ops).2.
Proof.
  intros Hr Hwr Hlen. destruct (table_run_invariant ops) as (Hw & _).
  unfold bucket_count. rewrite Hr. apply rehashing_true in Hr.
  destruct (resize_finishes_from (run ops) writes Hw Hr Hwr) as (m & Hm & E); [lia|].
  exists m. split; [lia|]. unfold run at 1. by rewrite foldl_app.
Qed.

Definition grown : list (@op nat) :=
  (fun i => OpSet (to_string (Z.of_nat i)) i) <$> seq 0 13.

Lemma resize_finishes_witness :
  rehashing (run grown).2 = true /\
  exists m, (m <= 16)%nat /\
    length (tables_0 (run (grown ++ take m (replicate 16 (OpDel [])))).2) = 32%nat.
Proof.
  split; [by vm_compute|].
  apply (resize_finishes grown (replicate 16 (OpDel []))).
  - by vm_compute.
  - repeat constructor.
  - vm_compute. lia.
Defined.

(** No history makes the table fuller than 20/9 entries per bucket of
    the array it is settling on, even one that inserts throughout a shrink. *)
Theorem load_factor_bounded {V} (ops : list (@op V)) :
  (9 * size (run ops).2 <= 20 * bucket_count (run ops).2)%nat.
Proof. destruct (table_run_invariant ops) as (Hw & Hl & _). by apply load_ok_bound. Qed.

(** Sampling a table draws only entries it holds, and every entry can be
    drawn; the null answer is given for the empty table only. *)
Theorem random_entry_exact {V} (ops : list (@op V)) :
  let ht := (run ops).2 in let m := (spec_run ops).2 in
  (forall draws k v rest, random_entry draws ht = Some (Some (k, v), rest) -> m !! k = Some v) /\
  (forall draws rest, random_entry draws ht = Some (None, rest) -> m = ∅) /\
  (forall k v, m !! k = Some v -> exists draws, forall rest,
     random_entry (draws ++ rest) ht = Some (Some (k, v), rest)).
Proof.
  destruct (table_run_invariant ops) as (Hw & _ & _ & <-). split_and!.
  - intros draws k v rest H. exact (random_entry_sound _ _ _ _ Hw H).
  - intros draws rest H. exact (random_entry_sound _ _ _ _ Hw H).
  - intros k v. by apply random_entry_complete.
Qed.

End HashTableClaims.
