(* ===== verification/Store.v ===== *)
(** * The keyspace (include/store.hpp, src/store.cpp)

    Values, per-key expiry, LRU order, the per-slot key index and the memory
    estimate.  [Store] is written against [KeyTable], so its theorems use only
    what the hash table promises.

    Pointers are explicit.  A node of a [std::list] has an identity, a number
    never reused; an iterator or a pointer to the string in a node is that
    number, and [dict_] entries hold such numbers as the code holds iterators.
    The invariant says that no iterator ever dangles.

    The clock of [Options] is a sequence of readings, one per call of
    [now_ms]; nothing relates two readings unless a theorem says so.  Keys
    passed to the deletion listener are recorded in order in [notified_]. *)

From S2P Require Import Prelude Slots HashTable.

Module Store.

Inductive EvictionPolicy := kNoEviction | kAllKeysLru.

#[global] Instance policy_eq_decision : EqDecision EvictionPolicy.
Proof. solve_decision. Defined.

Definition kEntryOverhead : Z := 128.
Definition kExpireOverhead : Z := 64.
Definition kExpireSamplesPerLoop : nat := 20.

Definition entry_cost (key : bytes) (value_size : Z) : Z :=
  kEntryOverhead + 2 * zlen key + value_size.
Definition expire_cost (key : bytes) : Z := kExpireOverhead + zlen key.

Record Entry := mkEntry {
  value : bytes;
  lru_pos : nat;
  slot_pos : nat
}.

(** ** [std::list]: nodes with identities *)

Section nodes.
Context {A : Type}.

(** [list::erase(it)] *)
Fixpoint list_erase (pos : nat) (l : list (nat * A)) : list (nat * A) :=
  match l with
  | [] => []
  | (i, x) :: l => if (i =? pos)%nat then l else (i, x) :: list_erase pos l
  end.

(** [*it] *)
Fixpoint list_deref (pos : nat) (l : list (nat * A)) : option A :=
  match l with
  | [] => None
  | (i, x) :: l => if (i =? pos)%nat then Some x else list_deref pos l
  end.

(** [l.splice(l.begin(), l, it)] *)
Definition splice_front (pos : nat) (l : list (nat * A)) : list (nat * A) :=
  match list_deref pos l with
  | Some x => (pos, x) :: list_erase pos l
  | None => l
  end.

Lemma list_erase_perm pos x l r :
  l ≡ₚ (pos, x) :: r -> NoDup l.*1 -> list_erase pos l ≡ₚ r.
Proof.
  revert r. induction l as [|[i y] l IH]; intros r Hp Hnd; simpl.
  { by apply Permutation_nil_cons in Hp. }
  simpl in Hnd. apply list.NoDup_cons in Hnd as [Hi Hnd].
  destruct (i =? pos)%nat eqn:E; zbool; subst.
  - assert (H : (pos, x) ∈ (pos, y) :: l) by (rewrite Hp; set_solver).
    apply elem_of_cons in H as [[= ->]|H].
    + by apply Permutation_cons_inv in Hp.
    + exfalso. apply Hi. by apply (list_elem_of_fmap_2 fst) in H.
  - assert (H : (pos, x) ∈ (i, y) :: l) by (rewrite Hp; set_solver).
    apply elem_of_cons in H as [[= ->]|H]; [done|].
    apply elem_of_Permutation in H as [l' Hl'].
    rewrite (IH l' Hl' Hnd). rewrite Hl' in Hp.
    rewrite perm_swap in Hp. by apply Permutation_cons_inv in Hp.
Qed.

Lemma list_deref_elem pos x l :
  NoDup l.*1 -> (pos, x) ∈ l -> list_deref pos l = Some x.
Proof.
  induction l as [|[i y] l IH]; simpl; [by intros _ ?%not_elem_of_nil|].
  intros [Hi Hnd]%list.NoDup_cons [[= -> ->]|H]%elem_of_cons; [by rewrite Nat.eqb_refl|].
  destruct (i =? pos)%nat eqn:E; zbool; [|by auto]. subst.
  exfalso. apply Hi. by apply (list_elem_of_fmap_2 fst) in H.
Qed.

Lemma splice_front_perm pos x l :
  NoDup l.*1 -> (pos, x) ∈ l -> splice_front pos l ≡ₚ l.
Proof.
  intros Hnd Hin. unfold splice_front. rewrite (list_deref_elem pos x) by done.
  apply elem_of_Permutation in Hin as [r Hr]. by rewrite (list_erase_perm pos x l r).
Qed.

Lemma list_erase_keys `{EqDecision A} pos (x : A) l :
  NoDup l.*1 -> NoDup l.*2 -> (pos, x) ∈ l ->
  (list_erase pos l).*2 = without x l.*2.
Proof.
  induction l as [|[i y] l IH]; simpl; [by intros _ _ ?%not_elem_of_nil|].
  intros [Hi Hnd1]%list.NoDup_cons [Hy Hnd2]%list.NoDup_cons Hin.
  unfold without. rewrite filter_cons. apply elem_of_cons in Hin as [[= -> ->]|Hin].
  - rewrite Nat.eqb_refl, decide_False by naive_solver.
    symmetry. by apply without_absent.
  - assert (i <> pos) by (intros ->; apply Hi; by apply (list_elem_of_fmap_2 fst) in Hin).
    assert (y <> x) by (intros ->; apply Hy; by apply (list_elem_of_fmap_2 snd) in Hin).
    rewrite (proj2 (Nat.eqb_neq _ _)), decide_True by done. simpl. f_equal. by apply IH.
Qed.

Lemma splice_front_keys `{EqDecision A} pos (x : A) l :
  NoDup l.*1 -> NoDup l.*2 -> (pos, x) ∈ l ->
  (splice_front pos l).*2 = x :: without x l.*2.
Proof.
  intros H1 H2 Hin. unfold splice_front. rewrite (list_deref_elem pos x) by done.
  simpl. f_equal. by apply list_erase_keys.
Qed.

End nodes.

Section store.
Context {T : Type -> Type} `{KT : KeyTable T}.

Record Store := mkStore {
  maxmemory : Z;
  policy : EvictionPolicy;
  clock : nat -> Z;
  dict_ : T Entry;
  expires_ : T Z;
  lru_ : list (nat * bytes);
  slots_ : gmap Z (list (nat * nat));
  rng_ : list nat;
  passive_expiry_ : bool;
  used_memory_ : Z;
  expired_keys_ : Z;
  evicted_keys_ : Z;
  reads_ : nat;
  next_node_ : nat;
  notified_ : list bytes
}.

Definition make (maxmemory : Z) (policy : EvictionPolicy) (clock : nat -> Z) (rng : list nat)
  : Store :=
  mkStore maxmemory policy clock kt_empty kt_empty [] ∅ rng false 0 0 0 0 0 [].

(** Assignments to single fields. *)
Definition with_clock (s : Store) (c : nat -> Z) : Store :=
  mkStore (maxmemory s) (policy s) c (dict_ s) (expires_ s) (lru_ s) (slots_ s) (rng_ s)
    (passive_expiry_ s) (used_memory_ s) (expired_keys_ s) (evicted_keys_ s) (reads_ s)
    (next_node_ s) (notified_ s).
Definition with_tables (s : Store) (d : T Entry) (x : T Z) (l : list (nat * bytes))
  (sl : gmap Z (list (nat * nat))) (used : Z) (next : nat) : Store :=
  mkStore (maxmemory s) (policy s) (clock s) d x l sl (rng_ s)
    (passive_expiry_ s) used (expired_keys_ s) (evicted_keys_ s) (reads_ s)
    next (notified_ s).
Definition with_dict (s : Store) (d : T Entry) : Store :=
  with_tables s d (expires_ s) (lru_ s) (slots_ s) (used_memory_ s) (next_node_ s).
Definition with_expires (s : Store) (x : T Z) : Store :=
  with_tables s (dict_ s) x (lru_ s) (slots_ s) (used_memory_ s) (next_node_ s).
Definition with_lru (s : Store) (l : list (nat * bytes)) : Store :=
  with_tables s (dict_ s) (expires_ s) l (slots_ s) (used_memory_ s) (next_node_ s).
Definition with_slots (s : Store) (sl : gmap Z (list (nat * nat))) : Store :=
  with_tables s (dict_ s) (expires_ s) (lru_ s) sl (used_memory_ s) (next_node_ s).
Definition with_used (s : Store) (u : Z) : Store :=
  with_tables s (dict_ s) (expires_ s) (lru_ s) (slots_ s) u (next_node_ s).
Definition with_next (s : Store) (n : nat) : Store :=
  with_tables s (dict_ s) (expires_ s) (lru_ s) (slots_ s) (used_memory_ s) n.
Definition with_stats (s : Store) (rng : list nat) (passive : bool) (expired evicted : Z)
  (reads : nat) (notified : list bytes) : Store :=
  mkStore (maxmemory s) (policy s) (clock s) (dict_ s) (expires_ s) (lru_ s) (slots_ s) rng
    passive (used_memory_ s) expired evicted reads (next_node_ s) notified.
Definition with_rng (s : Store) (r : list nat) : Store :=
  with_stats s r (passive_expiry_ s) (expired_keys_ s) (evicted_keys_ s) (reads_ s) (notified_ s).
Definition set_passive_expiry (on : bool) (s : Store) : Store :=
  with_stats s (rng_ s) on (expired_keys_ s) (evicted_keys_ s) (reads_ s) (notified_ s).
Definition with_expired (s : Store) (n : Z) : Store :=
  with_stats s (rng_ s) (passive_expiry_ s) n (evicted_keys_ s) (reads_ s) (notified_ s).
Definition with_evicted (s : Store) (n : Z) : Store :=
  with_stats s (rng_ s) (passive_expiry_ s) (expired_keys_ s) n (reads_ s) (notified_ s).

Definition now_ms (s : Store) : Z * Store :=
  (clock s (reads_ s),
   with_stats s (rng_ s) (passive_expiry_ s) (expired_keys_ s) (evicted_keys_ s)
     (S (reads_ s)) (notified_ s)).

Definition notify_deleted (key : bytes) (s : Store) : Store :=
  with_stats s (rng_ s) (passive_expiry_ s) (expired_keys_ s) (evicted_keys_ s)
    (reads_ s) (notified_ s ++ [key]).

Definition slot (s : Store) (i : Z) : list (nat * nat) := default [] (slots_ s !! i).

(** ** Operations *)

Definition clear_expire (key : bytes) (s : Store) : bool * Store :=
  let '(deleted, x) := kt_del key (expires_ s) in
  let s := with_expires s x in
  if negb deleted then (false, s)
  else (true, with_used s (u64 (used_memory_ s - expire_cost key))).

Definition remove (key : bytes) (s : Store) : bool * Store :=
  match kt_find key (dict_ s) with
  | None => (false, s)
  | Some entry =>
      let s := with_used s (u64 (used_memory_ s - entry_cost key (zlen (value entry)))) in
      let h := key_hash_slot key in
      let s := with_slots s (<[h := list_erase (slot_pos entry) (slot s h)]> (slots_ s)) in
      let s := with_lru s (list_erase (lru_pos entry) (lru_ s)) in
      let s := with_dict s (kt_del key (dict_ s)).2 in
      let '(_, s) := clear_expire key s in
      (true, s)
  end.

Definition expire_if_needed (key : bytes) (s : Store) : bool * Store :=
  if (kt_size (expires_ s) =? 0)%nat then (false, s)
  else
    match kt_find key (expires_ s) with
    | None => (false, s)
    | Some when_ =>
        let '(now, s) := now_ms s in
        if now <? when_ then (false, s)
        else if passive_expiry_ s then (true, s)
        else
          let '(_, s) := remove key s in
          let s := with_expired s (expired_keys_ s + 1) in
          (true, notify_deleted key s)
    end.

Definition lookup (key : bytes) (touch : bool) (s : Store) : option Entry * Store :=
  let '(expired, s) := expire_if_needed key s in
  if expired then (None, s)
  else
    let entry := kt_find key (dict_ s) in
    match entry with
    | Some e => if touch then (entry, with_lru s (splice_front (lru_pos e) (lru_ s)))
                else (entry, s)
    | None => (None, s)
    end.

Definition get (key : bytes) (s : Store) : option bytes * Store :=
  let '(entry, s) := lookup key true s in (value <$> entry, s).

Definition exists_ (key : bytes) (s : Store) : bool * Store :=
  let '(entry, s) := lookup key true s in (bool_decide (is_Some entry), s).

Definition contains (key : bytes) (s : Store) : bool * Store :=
  let '(entry, s) := lookup key false s in (bool_decide (is_Some entry), s).

Definition set (key v : bytes) (keep_ttl : bool) (s : Store) : Store :=
  let '(entry, s) := lookup key true s in
  match entry with
  | Some e =>
      let s := with_used s (u64 (used_memory_ s - zlen (value e) + zlen v)) in
      let s := with_dict s (kt_assign key (mkEntry v (lru_pos e) (slot_pos e)) (dict_ s)) in
      if negb keep_ttl then (clear_expire key s).2 else s
  | None =>
      let s := if passive_expiry_ s then (remove key s).2 else s in
      let s := with_used s (u64 (used_memory_ s + entry_cost key (zlen v))) in
      let lru_node := next_node_ s in
      let slot_node := S lru_node in
      let s := with_next s (S slot_node) in
      let s := with_lru s ((lru_node, key) :: lru_ s) in
      let h := key_hash_slot key in
      let s := with_slots s (<[h := (slot_node, lru_node) :: slot s h]> (slots_ s)) in
      with_dict s (kt_set key (mkEntry v lru_node slot_node) (dict_ s)).2
  end.

Definition del (key : bytes) (s : Store) : bool * Store :=
  let '(entry, s) := lookup key false s in
  let live := bool_decide (is_Some entry) in
  let '(_, s) := remove key s in
  (live, s).

Definition set_expire (key : bytes) (when_ms : Z) (s : Store) : bool * Store :=
  let '(entry, s) := lookup key true s in
  match entry with
  | None => (false, s)
  | Some _ =>
      let '(now, s) := now_ms s in
      if (when_ms <=? now) && negb (passive_expiry_ s) then
        (true, (remove key s).2)
      else
        match kt_find key (expires_ s) with
        | Some _ => (true, with_expires s (kt_assign key when_ms (expires_ s)))
        | None =>
            let s := with_expires s (kt_set key when_ms (expires_ s)).2 in
            (true, with_used s (u64 (used_memory_ s + expire_cost key)))
        end
  end.

Definition persist (key : bytes) (s : Store) : bool * Store :=
  let '(entry, s) := lookup key true s in
  match entry with
  | None => (false, s)
  | Some _ => clear_expire key s
  end.

Definition pttl (key : bytes) (s : Store) : Z * Store :=
  let '(entry, s) := lookup key false s in
  match entry with
  | None => (-2, s)
  | Some _ =>
      match kt_find key (expires_ s) with
      | None => (-1, s)
      | Some when_ => let '(now, s) := now_ms s in (when_ - now, s)
      end
  end.

(** Each iteration removes a node of [lru_], whose length is the fuel. *)
Fixpoint evict_loop (fuel : nat) (s : Store) : bool * Store :=
  if used_memory_ s <=? maxmemory s then (true, s)
  else if bool_decide (policy s = kNoEviction) then (false, s)
  else
    match list.last (lru_ s), fuel with
    | Some (_, victim), S fuel =>
        let '(_, s) := remove victim s in
        let s := with_evicted s (evicted_keys_ s + 1) in
        evict_loop fuel (notify_deleted victim s)
    | _, _ => (false, s)
    end.

Definition evict_if_needed (s : Store) : bool * Store :=
  if maxmemory s =? 0 then (true, s) else evict_loop (length (lru_ s)) s.

(** The samples of one round of active expiry, at the round's reading of the
    clock; [None] when the random draws run out. *)
Fixpoint expire_samples (i : nat) (now : Z) (expired : nat) (s : Store) : option (nat * Store) :=
  match i with
  | O => Some (expired, s)
  | S i =>
      if (0 <? kt_size (expires_ s))%nat then
        match kt_random_entry (rng_ s) (expires_ s) with
        | Some (Some (victim, when_), rng) =>
            let s := with_rng s rng in
            if when_ <=? now then
              let '(_, s) := remove victim s in
              expire_samples i now (S expired) (notify_deleted victim s)
            else expire_samples i now expired s
        | _ => None
        end
      else Some (expired, s)
  end.

(** [rounds] is how many rounds the time budget allows; the deadline is
    checked after each, so it is at least one. *)
Fixpoint expire_rounds (rounds : nat) (total : nat) (s : Store) : option (nat * Store) :=
  if (0 <? kt_size (expires_ s))%nat then
    let sampled := Nat.min kExpireSamplesPerLoop (kt_size (expires_ s)) in
    let '(now, s) := now_ms s in
    match expire_samples sampled now 0 s with
    | None => None
    | Some (expired, s) =>
        let total := (total + expired)%nat in
        match rounds with
        | S (S _ as rounds) =>
            if (expired * 4 <=? sampled)%nat then Some (total, s)
            else expire_rounds rounds total s
        | _ => Some (total, s)
        end
    end
  else Some (total, s).

Definition active_expire_cycle (rounds : nat) (s : Store) : option (nat * Store) :=
  if passive_expiry_ s then Some (O, s)
  else
    (fun '(total, s) => (total, with_expired s (expired_keys_ s + Z.of_nat total)))
      <$> expire_rounds rounds O s.

Fixpoint active_rehash (rounds : nat) (s : Store) : bool * Store :=
  if kt_rehashing (dict_ s) || kt_rehashing (expires_ s) then
    let s := with_dict s (kt_rehash_step 100 (dict_ s)) in
    let s := with_expires s (kt_rehash_step 100 (expires_ s)) in
    match rounds with
    | S (S _ as rounds) => active_rehash rounds s
    | _ => (kt_rehashing (dict_ s) || kt_rehashing (expires_ s), s)
    end
  else (false, s).

Definition clear (s : Store) : Store :=
  with_tables s kt_empty kt_empty [] ∅ 0 (next_node_ s).

(** The pointers in a slot's list lead into nodes of [lru_]. *)
Definition keys_in_slot (s : Store) (i : Z) (max : nat) : list bytes :=
  omap (fun p => list_deref p.2 (lru_ s)) (take max (slot s i)).

Definition count_keys_in_slot (s : Store) (i : Z) : nat := length (slot s i).

Fixpoint delete_slot_loop (fuel : nat) (i : Z) (deleted : nat) (s : Store) : nat * Store :=
  match slot s i, fuel with
  | p :: _, S fuel =>
      match list_deref p.2 (lru_ s) with
      | Some victim =>
          let '(_, s) := remove victim s in
          delete_slot_loop fuel i (S deleted) (notify_deleted victim s)
      | None => (deleted, s)
      end
  | _, _ => (deleted, s)
  end.

Definition delete_slot (i : Z) (s : Store) : nat * Store :=
  delete_slot_loop (length (slot s i)) i 0 s.

(** The calls [for_each] makes: key, value and deadline (-1 for none). *)
Definition for_each (s : Store) : list (bytes * bytes * Z) :=
  (fun '(key, entry) => (key, value entry, default (-1) (kt_find key (expires_ s))))
    <$> kt_for_each (dict_ s).

Definition size (s : Store) : nat := kt_size (dict_ s).

End store.
Arguments Store : clear implicits.

(** ** The invariant *)

Section invariant.
Context {T : Type -> Type} `{KT : KeyTable T} `{KL : !KeyTableLaws T}.
Implicit Types s : Store T.

Definition entries (s : Store T) : gmap bytes Entry := kt_map (dict_ s).
Definition deadlines (s : Store T) : gmap bytes Z := kt_map (expires_ s).

(** The memory estimate of a keyspace. *)
Definition total_cost (d : gmap bytes Entry) (x : gmap bytes Z) : Z :=
  map_fold (fun k e acc => entry_cost k (zlen (value e)) + acc) 0 d +
  map_fold (fun k _ acc => expire_cost k + acc) 0 x.

Definition lru_node (ke : bytes * Entry) : nat * bytes := (lru_pos ke.2, ke.1).
Definition slot_node (ke : bytes * Entry) : nat * nat := (slot_pos ke.2, lru_pos ke.2).

(** The nodes the lists must have for a dictionary: one LRU node per key,
    holding the key, and one node per key in the list of its slot, pointing
    at the key's LRU node. *)
Definition lru_nodes (d : gmap bytes Entry) : list (nat * bytes) :=
  lru_node <$> map_to_list d.
Definition slot_nodes (i : Z) (d : gmap bytes Entry) : list (nat * nat) :=
  slot_node <$> filter (fun ke => key_hash_slot ke.1 = i) (map_to_list d).

Record wf (s : Store T) : Prop := {
  wf_dict : kt_wf (dict_ s);
  wf_expires : kt_wf (expires_ s);
  wf_dom k : is_Some (deadlines s !! k) -> is_Some (entries s !! k);
  wf_lru : lru_ s ≡ₚ lru_nodes (entries s);
  wf_lru_nodup : NoDup (lru_ s).*1;
  wf_slot i : slot s i ≡ₚ slot_nodes i (entries s);
  wf_slot_nodup i : NoDup (slot s i).*1;
  wf_fresh k e : entries s !! k = Some e ->
    (lru_pos e < next_node_ s)%nat /\ (slot_pos e < next_node_ s)%nat;
  wf_used : used_memory_ s = u64 (total_cost (entries s) (deadlines s))
}.

Lemma make_wf mm p c r : wf (make mm p c r).
Proof.
  split; unfold make, entries, deadlines, slot; simpl;
    try setoid_rewrite kt_empty_map; try apply kt_empty_wf; try done.
  - intros k [z Hz]. by rewrite lookup_empty in Hz.
  - constructor.
  - constructor.
Qed.

(** *** The memory estimate *)

Lemma total_cost_del_entry d x k e :
  d !! k = Some e ->
  total_cost (delete k d) x = total_cost d x - entry_cost k (zlen (value e)).
Proof.
  intros H. unfold total_cost.
  rewrite (map_fold_delete_L _ 0 k e d); [lia|intros; lia|done].
Qed.

Lemma total_cost_add_entry d x k e :
  d !! k = None ->
  total_cost (<[k := e]> d) x = total_cost d x + entry_cost k (zlen (value e)).
Proof.
  intros H. unfold total_cost.
  rewrite (map_fold_insert_L _ 0 k e d); [lia|intros; lia|done].
Qed.

Lemma total_cost_upd_entry d x k e e' :
  d !! k = Some e ->
  total_cost (<[k := e']> d) x = total_cost d x - zlen (value e) + zlen (value e').
Proof.
  intros H. rewrite <-insert_delete_eq, total_cost_add_entry by apply lookup_delete_eq.
  rewrite (total_cost_del_entry _ _ _ e) by done. unfold entry_cost. lia.
Qed.

Lemma total_cost_del_deadline d x k w :
  x !! k = Some w -> total_cost d (delete k x) = total_cost d x - expire_cost k.
Proof.
  intros H. unfold total_cost.
  rewrite (map_fold_delete_L _ 0 k w x); [lia|intros; lia|done].
Qed.

Lemma total_cost_add_deadline d x k w :
  x !! k = None -> total_cost d (<[k := w]> x) = total_cost d x + expire_cost k.
Proof.
  intros H. unfold total_cost.
  rewrite (map_fold_insert_L _ 0 k w x); [lia|intros; lia|done].
Qed.

Lemma total_cost_upd_deadline d x k w w' :
  x !! k = Some w -> total_cost d (<[k := w']> x) = total_cost d x.
Proof.
  intros H. rewrite <-insert_delete_eq, total_cost_add_deadline by apply lookup_delete_eq.
  rewrite (total_cost_del_deadline _ _ _ w) by done. lia.
Qed.

(** *** The nodes *)

Lemma lru_nodes_delete d k e :
  d !! k = Some e -> lru_nodes d ≡ₚ (lru_pos e, k) :: lru_nodes (delete k d).
Proof. intros H. unfold lru_nodes. by rewrite <-(map_to_list_delete d k e) by done. Qed.

Lemma lru_nodes_insert d k e :
  d !! k = None -> lru_nodes (<[k := e]> d) ≡ₚ (lru_pos e, k) :: lru_nodes d.
Proof. intros H. unfold lru_nodes. by rewrite map_to_list_insert. Qed.

Lemma slot_nodes_delete i d k e :
  d !! k = Some e ->
  slot_nodes i d ≡ₚ
  (if decide (key_hash_slot k = i) then [(slot_pos e, lru_pos e)] else []) ++
  slot_nodes i (delete k d).
Proof.
  intros H. unfold slot_nodes. rewrite <-(map_to_list_delete d k e) by done.
  rewrite filter_cons. simpl. by destruct (decide _).
Qed.

Lemma slot_nodes_insert i d k e :
  d !! k = None ->
  slot_nodes i (<[k := e]> d) ≡ₚ
  (if decide (key_hash_slot k = i) then [(slot_pos e, lru_pos e)] else []) ++ slot_nodes i d.
Proof.
  intros H. unfold slot_nodes. rewrite map_to_list_insert by done.
  rewrite filter_cons. simpl. by destruct (decide _).
Qed.

(** Replacing a value keeps both nodes. *)
Lemma nodes_assign d k e v :
  d !! k = Some e ->
  let d' := <[k := mkEntry v (lru_pos e) (slot_pos e)]> d in
  lru_nodes d' ≡ₚ lru_nodes d /\ forall i, slot_nodes i d' ≡ₚ slot_nodes i d.
Proof.
  intros H d'. assert (H' : d' !! k = Some (mkEntry v (lru_pos e) (slot_pos e)))
    by apply lookup_insert_eq.
  assert (Hd : delete k d' = delete k d) by apply delete_insert_eq.
  split; [|intros i].
  - by rewrite (lru_nodes_delete _ _ _ H), (lru_nodes_delete _ _ _ H'), Hd.
  - by rewrite (slot_nodes_delete i _ _ _ H), (slot_nodes_delete i _ _ _ H'), Hd.
Qed.

(** *** Facts about well-formed stores *)

Definition lru_keys (s : Store T) : list bytes := (lru_ s).*2.

(** What no operation on keys changes. *)
Definition config (s : Store T) : Z * EvictionPolicy * (nat -> Z) * bool :=
  (maxmemory s, policy s, clock s, passive_expiry_ s).

Lemma lru_nodes_keys d : (lru_nodes d).*2 ≡ₚ (map_to_list d).*1.
Proof. unfold lru_nodes. by rewrite <-list_fmap_compose. Qed.

Lemma lru_keys_nodup s : wf s -> NoDup (lru_keys s).
Proof.
  intros W. unfold lru_keys. rewrite (wf_lru _ W), lru_nodes_keys.
  apply NoDup_fst_map_to_list.
Qed.

Lemma elem_of_lru_keys s k : wf s -> k ∈ lru_keys s <-> is_Some (entries s !! k).
Proof.
  intros W. unfold lru_keys. rewrite (wf_lru _ W), lru_nodes_keys, list_elem_of_fmap.
  split.
  - intros ([k' e] & -> & H%elem_of_map_to_list). by eexists.
  - intros [e He]. exists (k, e). split; [done|]. by apply elem_of_map_to_list.
Qed.

Lemma lru_node_elem s k e : wf s -> entries s !! k = Some e -> (lru_pos e, k) ∈ lru_ s.
Proof.
  intros W H. rewrite (wf_lru _ W), (lru_nodes_delete _ _ _ H). set_solver.
Qed.

Lemma find_dict s k : wf s -> kt_find k (dict_ s) = entries s !! k.
Proof. intros W. apply kt_find_law, W. Qed.

Lemma find_expires s k : wf s -> kt_find k (expires_ s) = deadlines s !! k.
Proof. intros W. apply kt_find_law, W. Qed.

Lemma no_entry_no_deadline s k : wf s -> entries s !! k = None -> deadlines s !! k = None.
Proof.
  intros W H. destruct (deadlines s !! k) eqn:E; [|done].
  destruct (wf_dom _ W k) as [? Hs]; [by eexists|congruence].
Qed.

(** *** [clear_expire] and [remove] *)

Lemma clear_expire_spec k s :
  wf s ->
  wf (clear_expire k s).2 /\ entries (clear_expire k s).2 = entries s /\
  deadlines (clear_expire k s).2 = delete k (deadlines s) /\
  (clear_expire k s).1 = bool_decide (is_Some (deadlines s !! k)) /\
  lru_ (clear_expire k s).2 = lru_ s /\ config (clear_expire k s).2 = config s /\
  notified_ (clear_expire k s).2 = notified_ s /\ reads_ (clear_expire k s).2 = reads_ s.
Proof.
  intros W. unfold clear_expire. destruct (kt_del_law k _ (wf_expires _ W)) as (Hw & Hm & Hb).
  destruct (kt_del k (expires_ s)) as [b x]. simpl in Hw, Hm, Hb.
  destruct W as [W1 W2 W3 W4 W5 W6 W7 W8 W9].
  assert (Hdom : forall k', is_Some (kt_map x !! k') -> is_Some (entries s !! k')).
  { intros k' H. apply W3. unfold deadlines. rewrite Hm in H.
    by apply lookup_delete_is_Some in H as [_ ?]. }
  destruct b; simpl; unfold deadlines, entries in *; simpl; split_and!; try done;
    split; simpl; try done; unfold entries, deadlines; simpl; rewrite ?Hm.
  - symmetry in Hb. apply bool_decide_eq_true in Hb as [w Hw'].
    rewrite (total_cost_del_deadline _ _ _ w) by done. rewrite W9. apply u64_sub_l.
  - symmetry in Hb. apply bool_decide_eq_false in Hb. rewrite delete_id; [done|].
    by apply eq_None_not_Some.
Qed.

Definition removed (s : Store T) (key : bytes) (e : Entry) : Store T :=
  with_tables s (kt_del key (dict_ s)).2 (expires_ s) (list_erase (lru_pos e) (lru_ s))
    (<[key_hash_slot key := list_erase (slot_pos e) (slot s (key_hash_slot key))]> (slots_ s))
    (u64 (used_memory_ s - entry_cost key (zlen (value e)))) (next_node_ s).

Lemma remove_eq k s :
  remove k s = match kt_find k (dict_ s) with
               | None => (false, s)
               | Some e => (true, (clear_expire k (removed s k e)).2)
               end.
Proof. unfold remove. destruct (kt_find k (dict_ s)); [|done]. by destruct (clear_expire _ _). Qed.

Lemma slot_insert s sl i j c :
  slots_ s = sl -> default [] (<[i := c]> sl !! j) = if decide (i = j) then c else slot s j.
Proof.
  intros <-. unfold slot. destruct (decide (i = j)) as [->|Hne].
  - by rewrite lookup_insert_eq.
  - by rewrite lookup_insert_ne.
Qed.

(** Removing an entry and its deadline at once keeps the invariant. *)
Lemma removed_wf s k e x used :
  wf s -> entries s !! k = Some e -> kt_wf x -> kt_map x = delete k (deadlines s) ->
  used = u64 (total_cost (delete k (entries s)) (delete k (deadlines s))) ->
  wf (with_tables s (kt_del k (dict_ s)).2 x (list_erase (lru_pos e) (lru_ s))
        (<[key_hash_slot k := list_erase (slot_pos e) (slot s (key_hash_slot k))]> (slots_ s))
        used (next_node_ s)).
Proof.
  intros W He Hx Hxm Hu. destruct (kt_del_law k _ (wf_dict _ W)) as (Hw & Hm & _).
  destruct W as [W1 W2 W3 W4 W5 W6 W7 W8 W9].
  assert (Hlru : list_erase (lru_pos e) (lru_ s) ≡ₚ lru_nodes (delete k (entries s))).
  { apply (list_erase_perm _ k); [|done]. by rewrite W4, (lru_nodes_delete _ _ _ He). }
  assert (Hslot : forall i, key_hash_slot k = i ->
            list_erase (slot_pos e) (slot s i) ≡ₚ slot_nodes i (delete k (entries s))).
  { intros i Hi. apply (list_erase_perm _ (lru_pos e)); [|done].
    rewrite W6, (slot_nodes_delete _ _ _ _ He). by rewrite decide_True. }
  split; unfold entries, deadlines; simpl; rewrite ?Hm, ?Hxm; try done.
  - intros k' [Hne H]%lookup_delete_is_Some. rewrite lookup_delete_ne by done. by apply W3.
  - rewrite W4, (lru_nodes_delete _ _ _ He) in W5. simpl in W5.
    apply list.NoDup_cons in W5 as [_ W5]. by rewrite Hlru.
  - intros i. unfold slot at 1. simpl. rewrite (slot_insert s) by done.
    destruct (decide _) as [<-|Hne]; [by apply Hslot|].
    by rewrite W6, (slot_nodes_delete _ _ _ _ He), decide_False.
  - intros i. specialize (W7 i). unfold slot at 1. simpl. rewrite (slot_insert s) by done.
    destruct (decide _) as [<-|Hne]; [|done].
    rewrite W6, (slot_nodes_delete _ _ _ _ He), decide_True in W7 by done. simpl in W7.
    apply list.NoDup_cons in W7 as [_ W7]. by rewrite Hslot.
  - intros k' e' [_ H]%lookup_delete_Some. by eapply W8.
Qed.

(** A state that differs only in counters, readings, draws and notifications. *)
Definition tables (s : Store T) :=
  (dict_ s, expires_ s, lru_ s, slots_ s, used_memory_ s, next_node_ s).

Lemma wf_tables s s' : tables s' = tables s -> wf s -> wf s'.
Proof.
  unfold tables. intros [= E1 E2 E3 E4 E5 E6] [W1 W2 W3 W4 W5 W6 W7 W8 W9].
  unfold entries, deadlines, slot in *.
  split; unfold entries, deadlines, slot; rewrite ?E1, ?E2, ?E3, ?E4, ?E5, ?E6; done.
Qed.

(** The effect of deleting [k] from every structure. *)
Record deleted (k : bytes) (s s' : Store T) : Prop := {
  deleted_wf : wf s';
  deleted_entries : entries s' = delete k (entries s);
  deleted_deadlines : deadlines s' = delete k (deadlines s);
  deleted_lru : lru_keys s' = without k (lru_keys s);
  deleted_config : config s' = config s;
  deleted_notified : notified_ s' = notified_ s;
  deleted_reads : reads_ s' = reads_ s
}.

Lemma deleted_absent k s : wf s -> entries s !! k = None -> deleted k s s.
Proof.
  intros W H. split; try done.
  - by rewrite delete_id.
  - rewrite delete_id; [done|]. by apply no_entry_no_deadline.
  - rewrite without_absent; [done|]. rewrite elem_of_lru_keys by done. by intros [? ?]; congruence.
Qed.

Lemma remove_spec k s :
  wf s ->
  deleted k s (remove k s).2 /\
  (remove k s).1 = bool_decide (is_Some (entries s !! k)).
Proof.
  intros W. rewrite remove_eq, find_dict by done.
  destruct (entries s !! k) as [e|] eqn:He; simpl.
  2: { split; [by apply deleted_absent|done]. }
  split; [|done]. unfold clear_expire, removed. simpl.
  destruct (kt_del_law k _ (wf_expires _ W)) as (Hw & Hm & Hb).
  destruct (kt_del_law k _ (wf_dict _ W)) as (_ & Hmd & _).
  destruct (kt_del k (expires_ s)) as [b x]. simpl in Hw, Hm, Hb.
  assert (Hlru : (list_erase (lru_pos e) (lru_ s)).*2 = without k (lru_keys s)).
  { apply list_erase_keys; [apply W|by apply lru_keys_nodup|by apply lru_node_elem]. }
  set (d := total_cost (entries s) (deadlines s)).
  assert (Hu : forall u, u = u64 (d - entry_cost k (zlen (value e)) -
            (if b then expire_cost k else 0)) ->
    u = u64 (total_cost (delete k (entries s)) (delete k (deadlines s)))).
  { intros u ->. f_equal. destruct b.
    - symmetry in Hb. apply bool_decide_eq_true in Hb as [w Hw'].
      rewrite (total_cost_del_deadline _ _ _ w), (total_cost_del_entry _ _ _ e) by done. done.
    - symmetry in Hb. apply bool_decide_eq_false, eq_None_not_Some in Hb.
      rewrite (delete_id (deadlines s)), (total_cost_del_entry _ _ _ e) by done. unfold d. lia. }
  destruct b; simpl; (split; [|exact Hmd|exact Hm|exact Hlru|done..]);
    (eapply (wf_tables (with_tables s _ x _ _ _ _));
       [reflexivity|simpl; eapply removed_wf; [done|done|done|done|]]);
    apply Hu; rewrite (wf_used _ W).
  - by rewrite (u64_sub_l (total_cost _ _)), u64_sub_l.
  - by rewrite Z.sub_0_r, u64_sub_l.
Qed.

Lemma expires_size s : wf s -> kt_size (expires_ s) = 0%nat -> deadlines s = ∅.
Proof.
  intros W H. rewrite kt_size_law in H by apply W. by apply map_size_empty_inv.
Qed.

(** ** The abstract keyspace

    Values, deadlines and the recency order of the keys, with the operations
    as the documentation of the class states them, at a time [t] and under an
    expiry mode.  An operation also says which keys it reports as deleted. *)

Record KeySpace := mkKeySpace {
  vals : gmap bytes bytes;
  ttls : gmap bytes Z;
  recency : list bytes
}.

Definition abstract (s : Store T) : KeySpace :=
  mkKeySpace (value <$> entries s) (deadlines s) (lru_keys s).

Definition drop_key (k : bytes) (ks : KeySpace) : KeySpace :=
  mkKeySpace (delete k (vals ks)) (delete k (ttls ks)) (without k (recency ks)).

Definition touch_key (k : bytes) (ks : KeySpace) : KeySpace :=
  mkKeySpace (vals ks) (ttls ks) (k :: without k (recency ks)).

Definition expired (t : Z) (k : bytes) (ks : KeySpace) : bool :=
  match ttls ks !! k with Some w => w <=? t | None => false end.

(** The value a client sees. *)
Definition live (t : Z) (k : bytes) (ks : KeySpace) : option bytes :=
  if expired t k ks then None else vals ks !! k.

(** Any access first reclaims an expired key, unless expiry is passive. *)
Definition spec_access (passive : bool) (t : Z) (k : bytes) (touch : bool) (ks : KeySpace)
  : list bytes * KeySpace :=
  if expired t k ks then (if passive then ([], ks) else ([k], drop_key k ks))
  else if touch && bool_decide (is_Some (vals ks !! k)) then ([], touch_key k ks)
  else ([], ks).

Definition spec_set (passive : bool) (t : Z) (k v : bytes) (keep_ttl : bool) (ks : KeySpace)
  : list bytes * KeySpace :=
  let '(dels, ks') := spec_access passive t k true ks in
  (dels,
   mkKeySpace (<[k := v]> (vals ks'))
     (if keep_ttl && bool_decide (is_Some (live t k ks)) then ttls ks' else delete k (ttls ks'))
     (k :: without k (recency ks'))).

Definition spec_del (passive : bool) (t : Z) (k : bytes) (ks : KeySpace) : list bytes * KeySpace :=
  let '(dels, ks') := spec_access passive t k false ks in (dels, drop_key k ks').

(** [t] is the time of the lookup, [t'] that of the comparison. *)
Definition spec_set_expire (passive : bool) (t t' : Z) (k : bytes) (w : Z) (ks : KeySpace)
  : list bytes * KeySpace :=
  let '(dels, ks') := spec_access passive t k true ks in
  (dels,
   if bool_decide (is_Some (live t k ks)) then
     if (w <=? t') && negb passive then drop_key k ks'
     else mkKeySpace (vals ks') (<[k := w]> (ttls ks')) (recency ks')
   else ks').

Definition spec_persist (passive : bool) (t : Z) (k : bytes) (ks : KeySpace)
  : list bytes * KeySpace :=
  let '(dels, ks') := spec_access passive t k true ks in
  (dels, if bool_decide (is_Some (live t k ks))
         then mkKeySpace (vals ks') (delete k (ttls ks')) (recency ks') else ks').

(** ** Refinement *)

(** [s'] is [s] after an operation that reported [out.1] and left [out.2]. *)
Record refines (s s' : Store T) (out : list bytes * KeySpace) : Prop := {
  ref_wf : wf s';
  ref_abstract : abstract s' = out.2;
  ref_config : config s' = config s;
  ref_notified : notified_ s' = notified_ s ++ out.1
}.

Lemma config_clock s s' : config s' = config s -> clock s' = clock s.
Proof. by intros [=]. Qed.

Lemma config_passive s s' : config s' = config s -> passive_expiry_ s' = passive_expiry_ s.
Proof. by intros [=]. Qed.

Lemma abstract_deleted k s s' : deleted k s s' -> abstract s' = drop_key k (abstract s).
Proof.
  intros [_ He Hd Hl _ _]. unfold abstract, drop_key. simpl.
  by rewrite He, Hd, Hl, fmap_delete.
Qed.

Lemma abstract_tables s s' : tables s' = tables s -> abstract s' = abstract s.
Proof.
  unfold tables, abstract, entries, deadlines, lru_keys. by intros [= -> -> -> _ _ _].
Qed.

Lemma refines_refl s : wf s -> refines s s ([], abstract s).
Proof. intros W. split; try done. by rewrite app_nil_r. Qed.

Lemma vals_lookup s k : vals (abstract s) !! k = value <$> entries s !! k.
Proof. unfold abstract. simpl. by rewrite lookup_fmap. Qed.

Lemma vals_is_Some s k : is_Some (vals (abstract s) !! k) <-> is_Some (entries s !! k).
Proof. by rewrite vals_lookup, fmap_is_Some. Qed.

(** The reading an operation started in [s] makes first. *)
Definition reading (s : Store T) : Z := clock s (reads_ s).

Lemma expire_if_needed_refines k s :
  wf s ->
  (expire_if_needed k s).1 = expired (reading s) k (abstract s) /\
  refines s (expire_if_needed k s).2
    (spec_access (passive_expiry_ s) (reading s) k false (abstract s)) /\
  ((expire_if_needed k s).1 = false -> tables (expire_if_needed k s).2 = tables s).
Proof.
  intros W. unfold expire_if_needed, spec_access, expired. simpl.
  destruct (kt_size (expires_ s) =? 0)%nat eqn:E0; zbool.
  { rewrite (expires_size s W E0), lookup_empty. split_and!; [done|by apply refines_refl|done]. }
  rewrite find_expires by done.
  destruct (deadlines s !! k) as [w|] eqn:Ew; [|split_and!; [done|by apply refines_refl|done]].
  change (clock s (reads_ s)) with (reading s).
  destruct (Z.ltb_spec (reading s) w).
  { rewrite (proj2 (Z.leb_gt _ _)) by done. split_and!; [done| |done].
    split; [by apply (wf_tables s)|done|done|by rewrite app_nil_r]. }
  rewrite (proj2 (Z.leb_le _ _)) by done. simpl. destruct (passive_expiry_ s) eqn:Ep.
  { split_and!; [done| |done].
    split; [by apply (wf_tables s)|done|unfold config; simpl; by rewrite Ep|by rewrite app_nil_r]. }
  set (s1 := with_stats s _ _ _ _ _ _).
  assert (W1 : wf s1) by by apply (wf_tables s).
  destruct (remove_spec k s1 W1) as [Hd _]. destruct (remove k s1) as [b s2].
  cbn [snd] in Hd. pose proof (abstract_deleted _ _ _ Hd) as Ha.
  split_and!; [done| |done]. split.
  - by apply (wf_tables s2), (deleted_wf _ _ _ Hd).
  - simpl. rewrite (abstract_tables s2) by done. by rewrite Ha.
  - trans (config s1); [exact (deleted_config _ _ _ Hd)|]. unfold config. simpl. by rewrite Ep.
  - simpl. by rewrite (deleted_notified _ _ _ Hd).
Qed.

(** Moving an entry's node to the front of the LRU list. *)
Lemma touch_refines s k e :
  wf s -> entries s !! k = Some e ->
  refines s (with_lru s (splice_front (lru_pos e) (lru_ s))) ([], touch_key k (abstract s)).
Proof.
  intros W He. pose proof (lru_node_elem s k e W He) as Hin.
  pose proof (splice_front_perm _ _ _ (wf_lru_nodup _ W) Hin) as Hp.
  split; [|..|done|by rewrite app_nil_r].
  - destruct W as [W1 W2 W3 W4 W5 W6 W7 W8 W9].
    split; unfold entries, deadlines in *; simpl; try done; by rewrite Hp.
  - unfold abstract, touch_key, lru_keys, entries, deadlines. simpl. f_equal.
    apply splice_front_keys; [apply W|by apply lru_keys_nodup|done].
Qed.

Lemma refines_trans s1 s2 s3 d1 ks1 d2 ks2 :
  refines s1 s2 (d1, ks1) -> refines s2 s3 (d2, ks2) -> refines s1 s3 (d1 ++ d2, ks2).
Proof.
  intros [A1 A2 A3 A4] [B1 B2 B3 B4]. split; [done|done|congruence|].
  simpl in *. by rewrite B4, A4, app_assoc.
Qed.

(** [lookup] is an access at its one reading of the clock; it hands out the
    entry exactly when the key is live. *)
Lemma lookup_refines k touch s :
  wf s ->
  refines s (lookup k touch s).2
    (spec_access (passive_expiry_ s) (reading s) k touch (abstract s)) /\
  (lookup k touch s).1 = (if expired (reading s) k (abstract s) then None else entries s !! k) /\
  (expired (reading s) k (abstract s) = false -> entries (lookup k touch s).2 = entries s /\
     deadlines (lookup k touch s).2 = deadlines s).
Proof.
  intros W. destruct (expire_if_needed_refines k s W) as (Hb & Hr & Ht).
  unfold lookup. destruct (expire_if_needed k s) as [b s1]. simpl in Hb, Hr, Ht. subst b.
  unfold spec_access in *. destruct (expired (reading s) k (abstract s)) eqn:Ex; simpl; [done|].
  specialize (Ht eq_refl). simpl in Hr.
  assert (Hent : entries s1 = entries s) by (unfold entries; by injection Ht as -> _).
  assert (Hdl : deadlines s1 = deadlines s) by (unfold deadlines; by injection Ht as _ -> _).
  rewrite (find_dict s1), Hent by apply Hr.
  pose proof (vals_is_Some s k) as Hv. simpl in Hv.
  destruct (entries s !! k) as [e|] eqn:Ee.
  - rewrite bool_decide_true by (apply Hv; by eexists).
    destruct touch; simpl; [|done].
    split_and!; [|done|done]. apply (refines_trans _ s1 _ [] (abstract s) [] _); [done|].
    rewrite <-(abstract_tables s s1) by done. apply touch_refines; [apply Hr|].
    by rewrite Hent.
  - rewrite bool_decide_false by (rewrite Hv; by intros []). rewrite andb_false_r. done.
Qed.

Lemma live_entries s k :
  live (reading s) k (abstract s) =
  value <$> (if expired (reading s) k (abstract s) then None else entries s !! k).
Proof. unfold live. destruct (expired _ _ _); [done|]. apply vals_lookup. Qed.

Lemma get_refines k s :
  wf s ->
  (get k s).1 = live (reading s) k (abstract s) /\
  refines s (get k s).2 (spec_access (passive_expiry_ s) (reading s) k true (abstract s)).
Proof.
  intros W. rewrite live_entries. unfold get.
  destruct (lookup_refines k true s W) as (Hr & <- & _).
  by destruct (lookup k true s).
Qed.

Lemma exists_refines k s :
  wf s ->
  (exists_ k s).1 = bool_decide (is_Some (live (reading s) k (abstract s))) /\
  refines s (exists_ k s).2 (spec_access (passive_expiry_ s) (reading s) k true (abstract s)).
Proof.
  intros W. rewrite live_entries. unfold exists_.
  destruct (lookup_refines k true s W) as (Hr & <- & _).
  destruct (lookup k true s) as [e s']. split; [|done]. simpl.
  apply bool_decide_ext. by rewrite fmap_is_Some.
Qed.

Lemma contains_refines k s :
  wf s ->
  (contains k s).1 = bool_decide (is_Some (live (reading s) k (abstract s))) /\
  refines s (contains k s).2 (spec_access (passive_expiry_ s) (reading s) k false (abstract s)).
Proof.
  intros W. rewrite live_entries. unfold contains.
  destruct (lookup_refines k false s W) as (Hr & <- & _).
  destruct (lookup k false s) as [e s']. split; [|done]. simpl.
  apply bool_decide_ext. by rewrite fmap_is_Some.
Qed.

Lemma del_refines k s :
  wf s ->
  (del k s).1 = bool_decide (is_Some (live (reading s) k (abstract s))) /\
  refines s (del k s).2 (spec_del (passive_expiry_ s) (reading s) k (abstract s)).
Proof.
  intros W. rewrite live_entries. unfold del, spec_del.
  destruct (lookup_refines k false s W) as (Hr & <- & _).
  destruct (lookup k false s) as [e s1]. simpl in Hr.
  destruct (spec_access _ _ _ _ _) as [dels ks]. simpl.
  destruct (remove_spec k s1 (ref_wf _ _ _ Hr)) as [Hd _].
  destruct (remove k s1) as [b s2]. simpl in *.
  split; [apply bool_decide_ext; by rewrite fmap_is_Some|].
  destruct Hr as [R1 R2 R3 R4]. simpl in *. split; simpl.
  - apply Hd.
  - by rewrite (abstract_deleted _ _ _ Hd), R2.
  - by rewrite (deleted_config _ _ _ Hd).
  - by rewrite (deleted_notified _ _ _ Hd).
Qed.

Lemma clear_expire_refines k s :
  wf s ->
  refines s (clear_expire k s).2
    ([], mkKeySpace (vals (abstract s)) (delete k (ttls (abstract s))) (recency (abstract s))).
Proof.
  intros W. destruct (clear_expire_spec k s W) as (C1 & C2 & C3 & _ & C5 & C6 & C7 & _).
  split; [done| |done|by rewrite C7, app_nil_r].
  unfold abstract, lru_keys. by rewrite C2, C3, C5.
Qed.

(** *** Writing values *)

Lemma without_idem (k : bytes) l : without k (without k l) = without k l.
Proof. apply without_absent. rewrite elem_of_without. naive_solver. Qed.

Lemma without_cons_eq (k : bytes) l : without k (k :: l) = without k l.
Proof. unfold without. by rewrite filter_cons_False by naive_solver. Qed.

(** Overwriting the value through the entry. *)
Lemma assign_refines k v e s :
  wf s -> entries s !! k = Some e ->
  let s' := with_dict (with_used s (u64 (used_memory_ s - zlen (value e) + zlen v)))
              (kt_assign k (mkEntry v (lru_pos e) (slot_pos e)) (dict_ s)) in
  refines s s' ([], mkKeySpace (<[k := v]> (vals (abstract s))) (ttls (abstract s))
                      (recency (abstract s))).
Proof.
  intros W He s'.
  destruct (kt_assign_law k (mkEntry v (lru_pos e) (slot_pos e)) _ (wf_dict _ W)) as [Hw Hm];
    [by eexists|].
  destruct (nodes_assign _ _ _ v He) as [Hlru Hslot].
  split; [|..|done|by rewrite app_nil_r].
  - destruct W as [W1 W2 W3 W4 W5 W6 W7 W8 W9].
    split; unfold entries, deadlines, slot; simpl; rewrite ?Hm; try done.
    + intros k' H. apply lookup_insert_is_Some'. right. by apply W3.
    + by rewrite W4, Hlru.
    + intros i. by rewrite Hslot, <-W6.
    + intros k' e' [(<- & <-)|[_ H]]%lookup_insert_Some; [exact (W8 k e He)|by eapply W8].
    + rewrite W9, (total_cost_upd_entry _ _ _ e) by done. simpl.
      set (c := total_cost _ _). replace (u64 c - _ + _) with (u64 c + (zlen v - zlen (value e)))
        by lia.
      rewrite u64_add_l. unfold c, entries, deadlines. f_equal. lia.
  - unfold abstract, entries, deadlines, lru_keys. simpl. by rewrite Hm, fmap_insert.
Qed.

(** Linking a key the store does not have. *)
Definition linked (s : Store T) (k v : bytes) : Store T :=
  let s := with_used s (u64 (used_memory_ s + entry_cost k (zlen v))) in
  let lru_node := next_node_ s in
  let slot_node := S lru_node in
  let s := with_next s (S slot_node) in
  let s := with_lru s ((lru_node, k) :: lru_ s) in
  let h := key_hash_slot k in
  let s := with_slots s (<[h := (slot_node, lru_node) :: slot s h]> (slots_ s)) in
  with_dict s (kt_set k (mkEntry v lru_node slot_node) (dict_ s)).2.

Lemma fresh_lru s : wf s -> next_node_ s ∉ (lru_ s).*1.
Proof.
  intros W ([i k] & Heq & Hin)%list_elem_of_fmap. simpl in Heq. subst i.
  rewrite (wf_lru _ W) in Hin. apply list_elem_of_fmap in Hin as ([k' e] & [= Hi ->] & He).
  apply elem_of_map_to_list in He. apply (wf_fresh _ W) in He. simpl in Hi. lia.
Qed.

Lemma fresh_slot s i : wf s -> S (next_node_ s) ∉ (slot s i).*1.
Proof.
  intros W ([j p] & Heq & Hin)%list_elem_of_fmap. simpl in Heq. subst j.
  rewrite (wf_slot _ W) in Hin. apply list_elem_of_fmap in Hin as ([k' e] & [= Hi ->] & He).
  apply list_elem_of_filter in He as [_ He].
  apply elem_of_map_to_list in He. apply (wf_fresh _ W) in He. simpl in Hi. lia.
Qed.

Lemma linked_refines k v s :
  wf s -> entries s !! k = None ->
  refines s (linked s k v) ([], mkKeySpace (<[k := v]> (vals (abstract s)))
                                  (ttls (abstract s)) (k :: recency (abstract s))).
Proof.
  intros W He. set (e := mkEntry v (next_node_ s) (S (next_node_ s))).
  destruct (kt_set_law k e _ (wf_dict _ W)) as (Hw & Hm & _).
  pose proof (fresh_lru s W) as Hfl. pose proof (fresh_slot s (key_hash_slot k) W) as Hfs.
  split; [|..|done|by rewrite app_nil_r].
  - destruct W as [W1 W2 W3 W4 W5 W6 W7 W8 W9].
    split; unfold linked, entries, deadlines; simpl; fold e; rewrite ?Hm; try done.
    + intros k' H. apply lookup_insert_is_Some'. right. by apply W3.
    + by rewrite W4, lru_nodes_insert.
    + by constructor.
    + intros i. unfold slot at 1. simpl. rewrite (slot_insert s) by done.
      rewrite slot_nodes_insert by done. destruct (decide _) as [<-|Hne]; simpl; by rewrite <-W6.
    + intros i. unfold slot at 1. simpl. rewrite (slot_insert s) by done.
      destruct (decide _) as [<-|Hne]; [|done]. simpl. constructor; [exact Hfs|exact (W7 _)].
    + intros k' e' [(<- & <-)|[_ H]]%lookup_insert_Some; [simpl; lia|].
      apply W8 in H. lia.
    + by rewrite W9, u64_add_l, total_cost_add_entry.
  - unfold linked, abstract, entries, deadlines, lru_keys. simpl. fold e.
    by rewrite Hm, fmap_insert.
Qed.

Lemma expired_dropped passive t k touch ks :
  expired t k ks = true -> passive = false ->
  spec_access passive t k touch ks = ([k], drop_key k ks).
Proof. intros E ->. unfold spec_access. by rewrite E. Qed.

(** After a lookup that found nothing, the key is physically gone or, under
    passive expiry, [remove] makes it so. *)
Lemma lookup_None_cleared k s s1 :
  wf s -> lookup k true s = (None, s1) ->
  deleted k s1 (if passive_expiry_ s1 then (remove k s1).2 else s1).
Proof.
  intros W E. destruct (lookup_refines k true s W) as (Hr & Hn & Hsame).
  rewrite E in *. simpl in *. rewrite (config_passive _ _ (ref_config _ _ _ Hr)).
  destruct (passive_expiry_ s) eqn:Ep; [apply remove_spec, Hr|].
  apply deleted_absent; [apply Hr|]. destruct (expired _ _ _) eqn:Ex.
  - rewrite (expired_dropped _ _ _ _ _ Ex) in Hr by done.
    apply eq_None_not_Some. rewrite <-vals_is_Some, (ref_abstract _ _ _ Hr). simpl.
    rewrite lookup_delete_eq. by intros [].
  - destruct (Hsame eq_refl) as [-> _]. done.
Qed.

Lemma set_refines k v keep s :
  wf s ->
  refines s (set k v keep s)
    (spec_set (passive_expiry_ s) (reading s) k v keep (abstract s)).
Proof.
  intros W. unfold set, spec_set. rewrite live_entries.
  pose proof (lookup_None_cleared k s) as Hcl.
  destruct (lookup_refines k true s W) as (Hr & Hn & Hsame).
  destruct (lookup k true s) as [[e|] s1]; simpl in Hr, Hn, Hsame; rewrite <-Hn.
  - destruct (expired _ _ _) eqn:Ex; [done|]. destruct (Hsame eq_refl) as [He1 Hd1].
    rewrite bool_decide_true by by eexists. rewrite andb_true_r.
    pose proof (vals_is_Some s k) as Hv. unfold spec_access in *. rewrite Ex in *.
    rewrite (bool_decide_true (is_Some (vals _ !! k))) in * by (apply Hv; rewrite <-Hn; by eexists).
    simpl andb in *. cbv iota in *. simpl in *.
    rewrite without_cons_eq, without_idem.
    pose proof (assign_refines k v e s1 (ref_wf _ _ _ Hr)) as Ha. cbv zeta in Ha.
    rewrite He1 in Ha. specialize (Ha (eq_sym Hn)).
    pose proof (refines_trans _ _ _ _ _ _ _ Hr Ha) as Hf. rewrite (ref_abstract _ _ _ Hr) in Hf.
    destruct keep; [exact Hf|].
    pose proof (clear_expire_refines k _ (ref_wf _ _ _ Hf)) as Hc.
    rewrite (ref_abstract _ _ _ Hf) in Hc. exact (refines_trans _ _ _ _ _ _ _ Hf Hc).
  - specialize (Hcl s1 W eq_refl).
    set (s2 := if passive_expiry_ s1 then _ else s1) in *. fold (linked s2 k v).
    assert (Hn2 : entries s2 !! k = None)
      by (rewrite (deleted_entries _ _ _ Hcl); apply lookup_delete_eq).
    pose proof (linked_refines k v s2 (deleted_wf _ _ _ Hcl) Hn2) as [L1 L2 L3 L4].
    destruct (spec_access _ _ _ _ _) as [dels ks'] eqn:Eks. destruct Hr as [R1 R2 R3 R4].
    cbn [fst snd] in *. rewrite (abstract_deleted _ _ _ Hcl), R2 in L2.
    rewrite (bool_decide_false (is_Some (_ <$> None))), andb_false_r by by intros [].
    split; cbn [fst snd]; [done| | |].
    + rewrite L2. simpl. by rewrite insert_delete_eq.
    + by rewrite L3, (deleted_config _ _ _ Hcl).
    + by rewrite L4, (deleted_notified _ _ _ Hcl), app_nil_r.
Qed.

(** *** Deadlines *)

Definition put_deadline (k : bytes) (w : Z) (s : Store T) : Store T :=
  match kt_find k (expires_ s) with
  | Some _ => with_expires s (kt_assign k w (expires_ s))
  | None =>
      let s := with_expires s (kt_set k w (expires_ s)).2 in
      with_used s (u64 (used_memory_ s + expire_cost k))
  end.

Lemma put_deadline_refines k w s :
  wf s -> is_Some (entries s !! k) ->
  refines s (put_deadline k w s)
    ([], mkKeySpace (vals (abstract s)) (<[k := w]> (ttls (abstract s))) (recency (abstract s))).
Proof.
  intros W Hk. unfold put_deadline. rewrite find_expires by done.
  assert (Hdom : forall k', is_Some (<[k := w]> (deadlines s) !! k') -> is_Some (entries s !! k')).
  { intros k' [->|[_ H]]%lookup_insert_is_Some; [done|by apply (wf_dom _ W)]. }
  destruct (deadlines s !! k) as [w0|] eqn:Ew.
  - destruct (kt_assign_law k w _ (wf_expires _ W)) as [Hw Hm]; [by eexists|].
    split; [|..|done|by rewrite app_nil_r].
    + destruct W as [W1 W2 W3 W4 W5 W6 W7 W8 W9].
      split; unfold entries, deadlines, slot in *; simpl; rewrite ?Hm; try done.
      by rewrite W9, (total_cost_upd_deadline _ _ _ w0).
    + unfold abstract, entries, deadlines, lru_keys. simpl. by rewrite Hm.
  - destruct (kt_set_law k w _ (wf_expires _ W)) as (Hw & Hm & _).
    split; [|..|done|by rewrite app_nil_r].
    + destruct W as [W1 W2 W3 W4 W5 W6 W7 W8 W9].
      split; unfold entries, deadlines, slot in *; simpl; rewrite ?Hm; try done.
      by rewrite W9, u64_add_l, total_cost_add_deadline.
    + unfold abstract, entries, deadlines, lru_keys. simpl. by rewrite Hm.
Qed.

Definition ticked (s : Store T) : Store T := (now_ms s).2.

Lemma ticked_refines s : wf s -> refines s (ticked s) ([], abstract s).
Proof.
  intros W. split; [by apply (wf_tables s)|done|done|by rewrite app_nil_r].
Qed.

Lemma deleted_refines k s s' : deleted k s s' -> refines s s' ([], drop_key k (abstract s)).
Proof.
  intros Hd. pose proof Hd as [D1 D2 D3 D4 D5 D6 _]. split; [done| |done|by rewrite app_nil_r].
  by apply abstract_deleted.
Qed.

Lemma set_expire_eq k w s :
  set_expire k w s =
  let '(entry, s1) := lookup k true s in
  match entry with
  | None => (false, s1)
  | Some _ =>
      (true, if (w <=? reading s1) && negb (passive_expiry_ s1)
             then (remove k (ticked s1)).2 else put_deadline k w (ticked s1))
  end.
Proof.
  unfold set_expire, put_deadline. destruct (lookup k true s) as [[e|] s1]; [|done].
  unfold ticked, reading. simpl. destruct (_ && _); [done|].
  by destruct (kt_find k _).
Qed.

(** [set_expire] answers whether the key was live at its first reading; a
    deadline not after its second reading deletes the key, silently. *)
Lemma set_expire_refines k w s :
  wf s ->
  let s1 := (lookup k true s).2 in
  (set_expire k w s).1 = bool_decide (is_Some (live (reading s) k (abstract s))) /\
  refines s (set_expire k w s).2
    (spec_set_expire (passive_expiry_ s) (reading s) (reading s1) k w (abstract s)).
Proof.
  intros W s1. unfold s1. rewrite set_expire_eq. unfold spec_set_expire. rewrite live_entries.
  destruct (lookup_refines k true s W) as (Hr & Hn & Hsame).
  destruct (lookup k true s) as [[e|] s2]; simpl in Hr, Hn, Hsame; rewrite <-Hn; cbn [fst snd].
  2: { split; [done|]. by destruct (spec_access _ _ _ _ _). }
  rewrite !bool_decide_true by by eexists. split; [done|].
  destruct (expired _ _ _) eqn:Ex; [done|]. destruct (Hsame eq_refl) as [He _].
  rewrite (config_passive _ _ (ref_config _ _ _ Hr)).
  destruct (spec_access _ _ _ _ _) as [dels ks'].
  pose proof (refines_trans _ _ _ _ _ _ _ Hr (ticked_refines _ (ref_wf _ _ _ Hr))) as Ht.
  rewrite app_nil_r, (ref_abstract _ _ _ Hr) in Ht. cbn [fst snd] in Ht.
  assert (Hk : is_Some (entries (ticked s2) !! k)).
  { change (entries (ticked s2)) with (entries s2). rewrite He, <-Hn. by eexists. }
  revert Ht Hk. generalize (ticked s2). intros s3 Ht Hk. rewrite <-(app_nil_r dels).
  destruct (_ && _); apply (refines_trans _ s3 _ _ _ _ _ Ht).
  - pose proof (deleted_refines _ _ _ (proj1 (remove_spec k s3 (ref_wf _ _ _ Ht)))) as Hd.
    by rewrite (ref_abstract _ _ _ Ht) in Hd.
  - pose proof (put_deadline_refines k w s3 (ref_wf _ _ _ Ht) Hk) as Hp.
    by rewrite (ref_abstract _ _ _ Ht) in Hp.
Qed.

Lemma persist_refines k s :
  wf s ->
  (persist k s).1 =
    bool_decide (is_Some (live (reading s) k (abstract s)) /\ is_Some (ttls (abstract s) !! k)) /\
  refines s (persist k s).2 (spec_persist (passive_expiry_ s) (reading s) k (abstract s)).
Proof.
  intros W. unfold persist, spec_persist. rewrite live_entries.
  destruct (lookup_refines k true s W) as (Hr & Hn & Hsame).
  destruct (lookup k true s) as [[e|] s2]; simpl in Hr, Hn, Hsame; rewrite <-Hn; cbn [fst snd].
  2: { split; [symmetry; apply bool_decide_false; by intros [[] _]|].
       by destruct (spec_access _ _ _ _ _). }
  destruct (expired _ _ _) eqn:Ex; [done|]. destruct (Hsame eq_refl) as [_ Hd].
  pose proof (clear_expire_spec k s2 (ref_wf _ _ _ Hr)) as (_ & _ & _ & C4 & _).
  pose proof (clear_expire_refines k s2 (ref_wf _ _ _ Hr)) as Hc.
  rewrite (ref_abstract _ _ _ Hr) in Hc. destruct (spec_access _ _ _ _ _) as [dels ks'].
  rewrite (bool_decide_true (is_Some (_ <$> Some e))) by by eexists.
  rewrite C4, Hd. split.
  - apply bool_decide_ext. simpl. split; [intros H; split; [by eexists|done]|tauto].
  - rewrite <-(app_nil_r dels). by apply (refines_trans _ s2 _ _ ks').
Qed.

(** The remaining time of a live key; [-1] without a deadline, [-2] when the
    key is missing or expired. *)
Definition spec_pttl (t t' : Z) (k : bytes) (ks : KeySpace) : Z :=
  match live t k ks, ttls ks !! k with
  | None, _ => -2
  | Some _, None => -1
  | Some _, Some w => w - t'
  end.

Lemma pttl_refines k s :
  wf s ->
  let s1 := (lookup k false s).2 in
  (pttl k s).1 = spec_pttl (reading s) (reading s1) k (abstract s) /\
  refines s (pttl k s).2 (spec_access (passive_expiry_ s) (reading s) k false (abstract s)).
Proof.
  intros W s1. unfold s1, pttl, spec_pttl. rewrite live_entries.
  destruct (lookup_refines k false s W) as (Hr & Hn & Hsame).
  destruct (lookup k false s) as [[e|] s2]; simpl in Hr, Hn, Hsame; rewrite <-Hn; cbn [fst snd];
    [|done].
  destruct (expired _ _ _) eqn:Ex; [done|]. destruct (Hsame eq_refl) as [_ Hd].
  rewrite (find_expires s2), Hd by apply Hr. simpl.
  destruct (deadlines s !! k) as [w|]; [|done]. split; [done|].
  destruct (spec_access _ _ _ _ _) as [dels ks'].
  pose proof (refines_trans _ _ _ _ _ _ _ Hr (ticked_refines _ (ref_wf _ _ _ Hr))) as Ht.
  by rewrite app_nil_r, (ref_abstract _ _ _ Hr) in Ht.
Qed.

(** *** The memory estimate is a function of the keyspace *)

Definition cost (ks : KeySpace) : Z :=
  map_fold (fun k v acc => entry_cost k (zlen v) + acc) 0 (vals ks) +
  map_fold (fun k _ acc => expire_cost k + acc) 0 (ttls ks).

Lemma used_cost s : wf s -> used_memory_ s = u64 (cost (abstract s)).
Proof.
  intros W. rewrite (wf_used _ W). f_equal. unfold cost, total_cost, abstract. simpl.
  by rewrite map_fold_fmap.
Qed.

(** *** Reports of the store's own deletions *)

Definition drop_keys (ks : KeySpace) (victims : list bytes) : KeySpace :=
  foldl (fun ks k => drop_key k ks) ks victims.

Lemma notify_refines k s s' ks :
  refines s s' ([], ks) -> refines s (notify_deleted k s') ([k], ks).
Proof.
  intros [R1 R2 R3 R4]. split; [by apply (wf_tables s')|done|done|].
  simpl in *. by rewrite R4, app_nil_r.
Qed.

Lemma stats_refines s s' out rng n m :
  refines s s' out ->
  refines s (with_stats s' rng (passive_expiry_ s') n m (reads_ s') (notified_ s')) out.
Proof. intros [R1 R2 R3 R4]. split; [by apply (wf_tables s')|done|done|done]. Qed.

(** Removing a key and telling the listener. *)
Lemma remove_notify_refines k s :
  wf s -> refines s (notify_deleted k (remove k s).2) ([k], drop_key k (abstract s)).
Proof. intros W. apply notify_refines, deleted_refines, remove_spec, W. Qed.

(** *** Eviction *)

(** Evicts from the given candidates, least recently used first, until the
    estimate is within [max]. *)
Fixpoint spec_evict (max : Z) (candidates : list bytes) (ks : KeySpace) : list bytes * KeySpace :=
  if u64 (cost ks) <=? max then ([], ks)
  else match candidates with
       | [] => ([], ks)
       | v :: candidates =>
           let '(dels, ks) := spec_evict max candidates (drop_key v ks) in (v :: dels, ks)
       end.

Lemma config_max s s' : config s' = config s -> maxmemory s' = maxmemory s /\ policy s' = policy s.
Proof. by intros [=]. Qed.

Lemma without_snoc (k : bytes) l : NoDup (l ++ [k]) -> without k (l ++ [k]) = l.
Proof.
  intros H. unfold without. rewrite list.filter_app.
  rewrite (filter_cons_False _ k []) by naive_solver. rewrite app_nil_r.
  apply without_absent. apply list.NoDup_app in H as (_ & H & _). set_solver.
Qed.

Lemma evict_loop_refines fuel s :
  wf s -> policy s = kAllKeysLru -> (length (lru_ s) <= fuel)%nat ->
  let out := spec_evict (maxmemory s) (reverse (lru_keys s)) (abstract s) in
  refines s (evict_loop fuel s).2 out /\
  (evict_loop fuel s).1 = (u64 (cost out.2) <=? maxmemory s).
Proof.
  revert s. induction fuel as [|fuel IH]; intros s W Hpol Hlen; cbv zeta.
  - assert (El : lru_ s = []) by (destruct (lru_ s); simpl in *; [done|lia]).
    unfold lru_keys. rewrite El. simpl. rewrite (used_cost s W), Hpol, El.
    destruct (_ <=? _) eqn:E; simpl; rewrite ?E; split; try done; by apply refines_refl.
  - simpl evict_loop. rewrite (used_cost s W), Hpol.
    destruct (list.last (lru_ s)) as [[id v]|] eqn:El; simpl bool_decide; cbv iota.
    + apply last_Some in El as [l El].
      assert (Hk : lru_keys s = l.*2 ++ [v])
        by (unfold lru_keys; by rewrite El, fmap_app).
      rewrite Hk, reverse_app. simpl.
      destruct (_ <=? _) eqn:E; simpl; [rewrite E; split; [by apply refines_refl|done]|].
      pose proof (remove_notify_refines v s W) as Hr.
      pose proof (proj1 (remove_spec v s W)) as Hd.
      destruct (remove v s) as [b s1]. simpl in Hr, Hd.
      set (s2 := notify_deleted v _).
      assert (Hr2 : refines s s2 ([v], drop_key v (abstract s))).
      { destruct Hr as [R1 R2 R3 R4]. split; [by apply (wf_tables s1), Hd|done|done|done]. }
      destruct (config_max _ _ (ref_config _ _ _ Hr2)) as [Hmax Hp2].
      assert (Hk2 : lru_keys s2 = l.*2).
      { change (lru_keys s2) with (recency (abstract s2)). rewrite (ref_abstract _ _ _ Hr2).
        simpl. rewrite Hk. apply without_snoc. rewrite <-Hk. by apply lru_keys_nodup. }
      destruct (IH s2) as [Hr3 Hb].
      * apply Hr2.
      * by rewrite Hp2.
      * assert (Hl : length (lru_ s2) = length (lru_keys s2)) by (unfold lru_keys; by rewrite length_fmap).
        rewrite Hl, Hk2, length_fmap. rewrite El, length_app in Hlen. simpl in Hlen. lia.
      * rewrite Hk2, (ref_abstract _ _ _ Hr2), Hmax in Hr3, Hb. cbn [snd] in Hr3, Hb.
        destruct (spec_evict _ _ _) as [dels ks]. split; [|done].
        by apply (refines_trans _ s2 _ [v] (drop_key v (abstract s))).
    + apply last_None in El. unfold lru_keys. rewrite El. simpl.
      destruct (_ <=? _) eqn:E; simpl; rewrite E; split; try done; by apply refines_refl.
Qed.

(** With no limit, or the policy that refuses to evict, nothing is deleted. *)
Lemma evict_refines s :
  wf s ->
  let out := if (maxmemory s =? 0) || bool_decide (policy s = kNoEviction) then ([], abstract s)
             else spec_evict (maxmemory s) (reverse (recency (abstract s))) (abstract s) in
  refines s (evict_if_needed s).2 out /\
  (evict_if_needed s).1 = (maxmemory s =? 0) || (u64 (cost out.2) <=? maxmemory s).
Proof.
  intros W. cbv zeta. unfold evict_if_needed.
  destruct (maxmemory s =? 0); simpl; [split; [by apply refines_refl|done]|].
  destruct (policy s) eqn:Ep; simpl bool_decide; cbv iota.
  - cbn [orb snd]. rewrite <-(used_cost s W).
    destruct (length (lru_ s)) as [|n]; cbn [evict_loop]; rewrite Ep; simpl bool_decide;
      (destruct (_ <=? _); split; [by apply refines_refl|done|by apply refines_refl|done]).
  - by apply evict_loop_refines.
Qed.

(** The victims are the end of the recency order, and no more are taken than
    needed: before each the estimate was over the limit. *)
Lemma spec_evict_victims max cands ks :
  exists dels left, cands = dels ++ left /\
    spec_evict max cands ks = (dels, drop_keys ks dels) /\
    (max < u64 (cost (drop_keys ks dels)) -> left = []) /\
    (forall n, (n < length dels)%nat -> max < u64 (cost (drop_keys ks (take n dels)))).
Proof.
  revert ks. induction cands as [|v cands IH]; intros ks; simpl.
  { exists [], []. split_and!; [done|by destruct (_ <=? _)|done|simpl; lia]. }
  destruct (_ <=? _) eqn:E; zbool.
  { exists [], (v :: cands). split_and!; [done|done|simpl; lia|simpl; lia]. }
  destruct (IH (drop_key v ks)) as (dels & left & -> & -> & Hl & Hn).
  exists (v :: dels), left. split_and!; [done|done|done|].
  intros [|n] H; [done|]. apply Hn. simpl in H. lia.
Qed.

(** *** Active expiry *)

(** A run of samples deletes only keys whose deadline has passed. *)
Lemma expire_samples_refines i now n s n' s' :
  wf s -> expire_samples i now n s = Some (n', s') ->
  exists victims, refines s s' (victims, drop_keys (abstract s) victims) /\
    n' = (n + length victims)%nat /\
    Forall (fun v => exists w, ttls (abstract s) !! v = Some w /\ w <= now) victims.
Proof.
  revert n s. induction i as [|i IH]; intros n s W; simpl.
  { intros [= <- <-]. exists []. split_and!; [by apply refines_refl|simpl; lia|done]. }
  destruct (_ <? _)%nat; [|intros [= <- <-]; exists []; split_and!;
    [by apply refines_refl|simpl; lia|done]].
  destruct (kt_random_entry _ _) as [[[[v w]|] rng]|] eqn:Er; try done.
  apply kt_random_entry_law in Er; [|apply W].
  assert (Hr0 : refines s (with_rng s rng) ([], abstract s))
    by (apply stats_refines; by apply refines_refl).
  destruct (w <=? now) eqn:Ew; zbool.
  - pose proof (remove_notify_refines v _ (ref_wf _ _ _ Hr0)) as Hr1.
    destruct (remove v _) as [b s1]. cbn [snd] in Hr1.
    intros (vs & Hr2 & -> & Hf)%IH; [|apply Hr1]. exists (v :: vs).
    rewrite (ref_abstract _ _ _ Hr1) in *. cbn [snd] in *.
    split_and!; [|simpl; lia|].
    + pose proof (refines_trans _ _ _ _ _ _ _ Hr0 Hr1) as H1.
      exact (refines_trans _ _ _ _ _ _ _ H1 Hr2).
    + constructor; [by exists w|]. eapply Forall_impl; [|exact Hf].
      intros u (w' & Hw' & ?). simpl in Hw'. apply lookup_delete_Some in Hw' as [_ ?]. eauto.
  - intros (vs & Hr2 & -> & Hf)%IH; [|apply Hr0]. exists vs.
    rewrite (ref_abstract _ _ _ Hr0) in *. cbn [snd] in *.
    split_and!; [|done|done]. exact (refines_trans _ _ _ _ _ _ _ Hr0 Hr2).
Qed.

Lemma drop_keys_app ks a b : drop_keys ks (a ++ b) = drop_keys (drop_keys ks a) b.
Proof. apply foldl_app. Qed.

Lemma drop_keys_is_Some ks vs k :
  is_Some (vals (drop_keys ks vs) !! k) -> k ∉ vs /\ is_Some (vals ks !! k).
Proof.
  revert ks. induction vs as [|v vs IH]; intros ks; simpl; [set_solver|].
  intros [Hk H]%IH. simpl in H. apply lookup_delete_is_Some in H as [Hne H]. set_solver.
Qed.

Lemma drop_keys_ttl ks vs k w :
  ttls (drop_keys ks vs) !! k = Some w -> ttls ks !! k = Some w.
Proof.
  revert ks. induction vs as [|v vs IH]; intros ks; simpl; [done|].
  intros H%IH. simpl in H. by apply lookup_delete_Some in H as [_ ?].
Qed.

Lemma expire_rounds_eq rounds n s :
  expire_rounds rounds n s =
  if (0 <? kt_size (expires_ s))%nat then
    let sampled := Nat.min kExpireSamplesPerLoop (kt_size (expires_ s)) in
    match expire_samples sampled (reading s) 0 (ticked s) with
    | None => None
    | Some (m, s1) =>
        if (rounds <=? 1)%nat || (m * 4 <=? sampled)%nat then Some ((n + m)%nat, s1)
        else expire_rounds (rounds - 1) (n + m) s1
    end
  else Some (n, s).
Proof.
  destruct rounds as [|[|r]]; simpl; (destruct (_ <? _)%nat; [|done]);
    (destruct (expire_samples _ _ _ _) as [[m s1]|]; done).
Qed.

(** The victims of active expiry: one report each, and each past its deadline
    at some reading of the clock. *)
Definition expired_victims (s : Store T) (victims : list bytes) (s' : Store T) : Prop :=
  refines s s' (victims, drop_keys (abstract s) victims) /\
  Forall (fun v => exists w i, ttls (abstract s) !! v = Some w /\ w <= clock s i) victims.

Lemma expire_rounds_refines rounds n s n' s' :
  wf s -> expire_rounds rounds n s = Some (n', s') ->
  exists victims, expired_victims s victims s' /\ n' = (n + length victims)%nat.
Proof.
  revert n s. induction rounds as [rounds IH] using lt_wf_ind. intros n s W.
  rewrite expire_rounds_eq. destruct (_ <? _)%nat.
  2: { intros [= <- <-]. exists []. split; [split; [by apply refines_refl|done]|simpl; lia]. }
  cbv zeta. pose proof (ticked_refines s W) as Ht.
  destruct (expire_samples _ _ _ _) as [[m s1]|] eqn:Es; [|done].
  apply expire_samples_refines in Es as (vs & Hr & -> & Hf); [|apply Ht].
  rewrite (ref_abstract _ _ _ Ht) in Hr, Hf. cbn [snd] in Hr, Hf.
  pose proof (refines_trans _ _ _ _ _ _ _ Ht Hr) as Hr1. simpl app in Hr1.
  assert (Hv : expired_victims s vs s1).
  { split; [done|]. eapply Forall_impl; [|exact Hf]. intros v (w & ? & ?). by exists w, (reads_ s). }
  destruct (_ || _) eqn:Ec.
  { intros [= <- <-]. exists vs. split; [done|lia]. }
  apply orb_false_iff in Ec as [Ec _]. zbool.
  intros (vs' & [Hr2 Hf2] & ->)%IH; [|lia|apply Hr]. exists (vs ++ vs').
  split; [|rewrite length_app; lia].
  rewrite (ref_abstract _ _ _ Hr1) in Hr2, Hf2. cbn [snd] in Hr2, Hf2. split.
  - rewrite drop_keys_app. exact (refines_trans _ _ _ _ _ _ _ Hr1 Hr2).
  - apply Forall_app. split; [apply Hv|]. eapply Forall_impl; [|exact Hf2].
    intros v (w & j & Hw & Hj). exists w, j. rewrite (config_clock _ _ (ref_config _ _ _ Hr1)) in Hj.
    split; [by eapply drop_keys_ttl|done].
Qed.

Lemma active_expire_refines rounds s n s' :
  wf s -> active_expire_cycle rounds s = Some (n, s') ->
  exists victims, expired_victims s victims s' /\ n = length victims /\
    (passive_expiry_ s = true -> victims = []).
Proof.
  intros W. unfold active_expire_cycle. destruct (passive_expiry_ s) eqn:Ep.
  - intros [= <- <-]. exists []. split_and!; [split; [by apply refines_refl|done]|done|done].
  - intros ([m s1] & (vs & [Hr Hf] & ->)%expire_rounds_refines & [= -> ->])%fmap_Some_1; [|done].
    exists vs. split_and!; [split; [by apply stats_refines|done]|simpl; lia|done].
Qed.

(** Sampling never gets stuck: some draws let a whole cycle run. *)
Lemma remove_with_rng v s r :
  remove v (with_rng s r) = ((remove v s).1, with_rng (remove v s).2 r).
Proof.
  unfold remove. simpl. destruct (kt_find v (dict_ s)); [|done].
  unfold clear_expire. simpl. by destruct (kt_del v (expires_ s)) as [[] x].
Qed.

Lemma expire_samples_total i now n s :
  wf s -> exists d n' s', wf s' /\
    forall rest, expire_samples i now n (with_rng s (d ++ rest)) = Some (n', with_rng s' rest).
Proof.
  revert n s. induction i as [|i IH]; intros n s W; [by exists [], n, s|].
  cbn [expire_samples].
  destruct (0 <? kt_size (expires_ s))%nat eqn:E.
  2: { exists [], n, s. split; [done|]. intros rest. simpl. by rewrite E. }
  zbool. assert (Hne : exists v w, deadlines s !! v = Some w).
  { rewrite kt_size_law in E by apply W.
    destruct (map_choose (deadlines s)) as (v & w & ?); [|by eauto].
    intros Hm. unfold deadlines in Hm. rewrite Hm, map_size_empty in E. lia. }
  destruct Hne as (v & w & Hv).
  destruct (kt_random_entry_total _ _ _ (wf_expires _ W) Hv) as (d & Hd).
  set (s1 := if w <=? now then notify_deleted v (remove v s).2 else s).
  set (n1 := if w <=? now then S n else n).
  assert (W1 : wf s1).
  { unfold s1. destruct (_ <=? _); [|done]. eapply ref_wf, remove_notify_refines, W. }
  destruct (IH n1 s1 W1) as (d' & n' & s' & W' & Hrun).
  exists (d ++ d'), n', s'. split; [done|]. intros rest. rewrite <-Hrun. simpl.
  rewrite (proj2 (Nat.ltb_lt _ _)) by done. rewrite <-app_assoc, Hd.
  change (with_rng (with_rng s _) ?r) with (with_rng s r). rewrite remove_with_rng.
  unfold s1, n1. by destruct (w <=? now).
Qed.

Lemma expire_rounds_total rounds n s :
  wf s -> exists d n' s', forall rest,
    expire_rounds rounds n (with_rng s (d ++ rest)) = Some (n', with_rng s' rest).
Proof.
  revert n s. induction rounds as [rounds IH] using lt_wf_ind. intros n s W.
  destruct (0 <? kt_size (expires_ s))%nat eqn:E.
  2: { exists [], n, s. intros rest. rewrite expire_rounds_eq. simpl. by rewrite E. }
  set (sampled := Nat.min kExpireSamplesPerLoop (kt_size (expires_ s))).
  destruct (expire_samples_total sampled (reading s) 0 (ticked s)) as (d & m & s1 & W1 & Hrun).
  { eapply ref_wf, ticked_refines, W. }
  destruct ((rounds <=? 1)%nat || (m * 4 <=? sampled)%nat) eqn:Ec.
  - exists d, (n + m)%nat, s1. intros rest. rewrite expire_rounds_eq.
    change (expires_ (with_rng s _)) with (expires_ s). rewrite E. cbv zeta. fold sampled.
    change (ticked (with_rng s ?r)) with (with_rng (ticked s) r).
    change (reading (with_rng s _)) with (reading s). by rewrite Hrun, Ec.
  - assert (1 < rounds)%nat by (apply orb_false_iff in Ec as [Ec _]; by apply Nat.leb_gt in Ec).
    destruct (IH (rounds - 1)%nat ltac:(lia) (n + m)%nat s1 W1) as (d' & n' & s' & Hrest).
    exists (d ++ d'), n', s'. intros rest. rewrite expire_rounds_eq.
    change (expires_ (with_rng s _)) with (expires_ s). rewrite E. cbv zeta. fold sampled.
    change (ticked (with_rng s ?r)) with (with_rng (ticked s) r).
    change (reading (with_rng s _)) with (reading s).
    by rewrite <-app_assoc, Hrun, Ec, Hrest.
Qed.

Lemma active_expire_total rounds s :
  wf s -> exists draws out, active_expire_cycle rounds (with_rng s draws) = Some out.
Proof.
  intros W. destruct (expire_rounds_total rounds 0 s W) as (d & n & s' & H).
  specialize (H []). rewrite app_nil_r in H. exists d.
  unfold active_expire_cycle. change (passive_expiry_ (with_rng s d)) with (passive_expiry_ s).
  destruct (passive_expiry_ s); [by eexists|]. rewrite H. by eexists.
Qed.

(** *** Moving buckets, clearing, listing *)

Lemma active_rehash_refines rounds s :
  wf s -> refines s (active_rehash rounds s).2 ([], abstract s).
Proof.
  revert s. induction rounds as [|rounds IH]; intros s W; simpl;
    (destruct (_ || _); [|by apply refines_refl]);
    destruct (kt_rehash_step_law 100 _ (wf_dict _ W)) as [Hd1 Hd2];
    destruct (kt_rehash_step_law 100 _ (wf_expires _ W)) as [Hx1 Hx2];
    set (s1 := with_expires _ _);
    (assert (Hr : refines s s1 ([], abstract s));
     [split; [|unfold abstract, entries, deadlines, lru_keys; simpl; by rewrite Hd2, Hx2|done
       |by rewrite app_nil_r];
      destruct W as [W1 W2 W3 W4 W5 W6 W7 W8 W9];
      split; unfold entries, deadlines, slot in *; simpl; rewrite ?Hd2, ?Hx2; done|]).
  - exact Hr.
  - destruct rounds as [|rounds]; [exact Hr|].
    pose proof (IH s1 (ref_wf _ _ _ Hr)) as Hr2. rewrite (ref_abstract _ _ _ Hr) in Hr2.
    exact (refines_trans _ _ _ _ _ _ _ Hr Hr2).
Qed.

Lemma clear_refines s : refines s (clear s) ([], mkKeySpace ∅ ∅ []).
Proof.
  split; [|..|done|by rewrite app_nil_r].
  - split; unfold clear, entries, deadlines, slot; simpl;
      try setoid_rewrite kt_empty_map; try apply kt_empty_wf; try done.
    + intros k [z Hz]. by rewrite lookup_empty in Hz.
    + constructor.
    + constructor.
  - unfold abstract, entries, deadlines, clear. simpl. by rewrite !kt_empty_map.
Qed.

Lemma for_each_perm s :
  wf s ->
  for_each s ≡ₚ
  (fun '(k, v) => (k, v, default (-1) (ttls (abstract s) !! k))) <$> map_to_list (vals (abstract s)).
Proof.
  intros W. unfold for_each, abstract. simpl. rewrite map_to_list_fmap, <-list_fmap_compose.
  rewrite (kt_for_each_law _ (wf_dict _ W)). apply reflexive_eq, list_fmap_ext.
  intros i [k e] _. simpl. by rewrite find_expires.
Qed.

Lemma size_entries s : wf s -> size s = base.size (vals (abstract s)).
Proof. intros W. unfold size, abstract. simpl. by rewrite map_size_fmap, kt_size_law by apply W. Qed.

(** *** The slot index *)

(** A pointer in a slot's list leads to the LRU node of a key of that slot. *)
Lemma slot_deref s i p :
  wf s -> p ∈ slot s i ->
  exists k e, entries s !! k = Some e /\ key_hash_slot k = i /\
    p = (slot_pos e, lru_pos e) /\ list_deref p.2 (lru_ s) = Some k.
Proof.
  intros W Hp. rewrite (wf_slot _ W) in Hp.
  apply list_elem_of_fmap in Hp as ([k e] & -> & [Hs He]%list_elem_of_filter).
  apply elem_of_map_to_list in He. exists k, e. split_and!; [done|done|done|].
  apply list_deref_elem; [apply W|]. by apply lru_node_elem.
Qed.

Definition slot_keys (s : Store T) (i : Z) : list bytes :=
  omap (fun p => list_deref p.2 (lru_ s)) (slot s i).

Lemma omap_take_total {A B} (f : A -> option B) (l : list A) n :
  (forall x, x ∈ l -> is_Some (f x)) -> omap f (take n l) = take n (omap f l).
Proof.
  revert n. induction l as [|x l IH]; intros [|n] H; simpl; try done.
  destruct (H x) as [y Hy]; [set_solver|]. rewrite Hy. simpl. f_equal.
  apply IH. set_solver.
Qed.

Lemma omap_length_total {A B} (f : A -> option B) (l : list A) :
  (forall x, x ∈ l -> is_Some (f x)) -> length (omap f l) = length l.
Proof.
  induction l as [|x l IH]; intros H; simpl; [done|].
  destruct (H x) as [y Hy]; [set_solver|]. rewrite Hy. simpl. f_equal. apply IH. set_solver.
Qed.

Lemma slot_deref_total s i p :
  wf s -> p ∈ slot s i -> is_Some (list_deref p.2 (lru_ s)).
Proof. intros W Hp. destruct (slot_deref s i p W Hp) as (k & e & _ & _ & _ & ->). by eexists. Qed.

Lemma keys_in_slot_take s i max :
  wf s -> keys_in_slot s i max = take max (slot_keys s i).
Proof. intros W. apply omap_take_total. intros p. by apply slot_deref_total. Qed.

Lemma slot_keys_length s i : wf s -> length (slot_keys s i) = count_keys_in_slot s i.
Proof. intros W. apply omap_length_total. intros p. by apply slot_deref_total. Qed.

Lemma omap_fmap_inv {A B C} (f : B -> option C) (g : A -> B) (h : A -> C) (l : list A) :
  (forall x, x ∈ l -> f (g x) = Some (h x)) -> omap f (g <$> l) = h <$> l.
Proof.
  induction l as [|x l IH]; intros H; simpl; [done|].
  rewrite H by set_solver. f_equal. apply IH. set_solver.
Qed.

(** The index of a slot lists each of its keys once. *)
Lemma slot_keys_perm s i :
  wf s -> slot_keys s i ≡ₚ
    (filter (fun ke => key_hash_slot ke.1 = i) (map_to_list (entries s))).*1.
Proof.
  intros W. unfold slot_keys. rewrite (wf_slot _ W i). unfold slot_nodes.
  apply reflexive_eq, omap_fmap_inv. intros [k e] [_ H%elem_of_map_to_list]%list_elem_of_filter.
  simpl. apply list_deref_elem; [apply W|]. by apply lru_node_elem.
Qed.

Lemma slot_keys_nodup s i : wf s -> NoDup (slot_keys s i).
Proof.
  intros W. rewrite slot_keys_perm by done.
  apply NoDup_fmap_2_strong; [|apply list.NoDup_filter, NoDup_map_to_list].
  intros [k e] [k' e'] [_ H%elem_of_map_to_list]%list_elem_of_filter
    [_ H'%elem_of_map_to_list]%list_elem_of_filter Heq. simpl in Heq. congruence.
Qed.

Lemma elem_of_slot_keys s i k :
  wf s -> k ∈ slot_keys s i <-> key_hash_slot k = i /\ is_Some (vals (abstract s) !! k).
Proof.
  intros W. rewrite slot_keys_perm, vals_is_Some, list_elem_of_fmap by done. split.
  - intros ([k' e] & -> & [Hs H%elem_of_map_to_list]%list_elem_of_filter). split; [done|by eexists].
  - intros [Hs [e He]]. exists (k, e). split; [done|]. apply list_elem_of_filter.
    split; [done|]. by apply elem_of_map_to_list.
Qed.

Lemma clear_expire_slots k s : slots_ (clear_expire k s).2 = slots_ s.
Proof. unfold clear_expire. by destruct (kt_del k (expires_ s)) as [[] x]. Qed.

Lemma remove_slot s k e i :
  wf s -> entries s !! k = Some e -> key_hash_slot k = i ->
  slot (remove k s).2 i = list_erase (slot_pos e) (slot s i).
Proof.
  intros W He <-. rewrite remove_eq, find_dict, He by done. simpl. unfold slot at 1.
  rewrite clear_expire_slots. unfold removed. simpl. by rewrite lookup_insert_eq.
Qed.

Lemma delete_slot_loop_refines fuel i n s :
  wf s -> (length (slot s i) <= fuel)%nat ->
  delete_slot_loop fuel i n s =
    ((n + length (slot_keys s i))%nat, (delete_slot_loop fuel i n s).2) /\
  refines s (delete_slot_loop fuel i n s).2
    (slot_keys s i, drop_keys (abstract s) (slot_keys s i)).
Proof.
  revert n s. induction fuel as [|fuel IH]; intros n s W Hlen.
  { unfold slot_keys. destruct (slot s i) as [|p l] eqn:Es; [|simpl in Hlen; lia].
    simpl. rewrite Es. simpl. split; [f_equal; lia|by apply refines_refl]. }
  simpl. unfold slot_keys. destruct (slot s i) as [|p l] eqn:Es; simpl.
  { split; [f_equal; lia|by apply refines_refl]. }
  destruct (slot_deref s i p W) as (k & e & He & Hs & Hp & Hd); [rewrite Es; set_solver|].
  rewrite Hd. pose proof (remove_notify_refines k s W) as Hr.
  pose proof (remove_slot s k e i W He Hs) as Hsl.
  destruct (remove_spec k s W) as [Hdel _].
  destruct (remove k s) as [b s1]. cbn [snd] in *. rewrite Es, Hp in Hsl. simpl in Hsl.
  rewrite Nat.eqb_refl in Hsl. set (s2 := notify_deleted k s1) in *.
  assert (Hk2 : slot_keys s2 i = omap (fun p => list_deref p.2 (lru_ s)) l).
  { unfold slot_keys. change (slot s2 i) with (slot s1 i). rewrite Hsl.
    apply list_omap_ext, Forall_Forall2_diag, Forall_forall. intros q Hq%list_elem_of_In.
    destruct (slot_deref s2 i q (ref_wf _ _ _ Hr)) as (k' & e' & He' & _ & -> & ->).
    { change (slot s2 i) with (slot s1 i). by rewrite Hsl. }
    change (entries s2) with (entries s1) in He'.
    rewrite (deleted_entries _ _ _ Hdel) in He'. apply lookup_delete_Some in He' as [_ He'].
    symmetry. apply list_deref_elem; [apply W|]. by apply lru_node_elem. }
  destruct (IH (S n) s2) as [E1 E2].
  { apply Hr. }
  { change (slot s2 i) with (slot s1 i). rewrite Hsl. simpl in Hlen. lia. }
  rewrite Hk2, (ref_abstract _ _ _ Hr) in *. cbn [snd] in *. split.
  - rewrite E1. simpl. by rewrite Nat.add_succ_r.
  - exact (refines_trans _ _ _ _ _ _ _ Hr E2).
Qed.

Lemma delete_slot_refines i s :
  wf s ->
  (delete_slot i s).1 = count_keys_in_slot s i /\
  refines s (delete_slot i s).2 (slot_keys s i, drop_keys (abstract s) (slot_keys s i)).
Proof.
  intros W. unfold delete_slot.
  destruct (delete_slot_loop_refines (length (slot s i)) i 0 s W) as [E1 E2]; [done|].
  split; [|done]. rewrite E1. simpl. by apply slot_keys_length.
Qed.

(** ** Histories of a store *)

Inductive op :=
  | OGet (key : bytes)
  | OExists (key : bytes)
  | OContains (key : bytes)
  | OSet (key v : bytes) (keep_ttl : bool)
  | ODel (key : bytes)
  | OSetExpire (key : bytes) (when_ms : Z)
  | OPersist (key : bytes)
  | OPttl (key : bytes)
  | OEvict
  | ORehash (rounds : nat)
  | OClear
  | OPassive (on : bool).

Inductive result := RUnit | RValue (v : option bytes) | RBool (b : bool) | RInt (z : Z).

Definition as_bool (r : bool * Store T) : result * Store T := (RBool r.1, r.2).

(** One operation with the clock standing at [t] throughout. *)
Definition exec (s : Store T) (to : Z * op) : result * Store T :=
  let s := with_clock s (fun _ => to.1) in
  match to.2 with
  | OGet k => let '(v, s) := get k s in (RValue v, s)
  | OExists k => as_bool (exists_ k s)
  | OContains k => as_bool (contains k s)
  | OSet k v keep => (RUnit, set k v keep s)
  | ODel k => as_bool (del k s)
  | OSetExpire k w => as_bool (set_expire k w s)
  | OPersist k => as_bool (persist k s)
  | OPttl k => let '(z, s) := pttl k s in (RInt z, s)
  | OEvict => as_bool (evict_if_needed s)
  | ORehash n => (RUnit, (active_rehash n s).2)
  | OClear => (RUnit, clear s)
  | OPassive on => (RUnit, set_passive_expiry on s)
  end.

(** The same operation on the abstract keyspace. *)
Definition spec_exec (max : Z) (pol : EvictionPolicy) (passive : bool) (ks : KeySpace) (to : Z * op)
  : result * (list bytes * KeySpace) :=
  let t := to.1 in
  match to.2 with
  | OGet k => (RValue (live t k ks), spec_access passive t k true ks)
  | OExists k => (RBool (bool_decide (is_Some (live t k ks))), spec_access passive t k true ks)
  | OContains k => (RBool (bool_decide (is_Some (live t k ks))), spec_access passive t k false ks)
  | OSet k v keep => (RUnit, spec_set passive t k v keep ks)
  | ODel k => (RBool (bool_decide (is_Some (live t k ks))), spec_del passive t k ks)
  | OSetExpire k w =>
      (RBool (bool_decide (is_Some (live t k ks))), spec_set_expire passive t t k w ks)
  | OPersist k =>
      (RBool (bool_decide (is_Some (live t k ks) /\ is_Some (ttls ks !! k))),
       spec_persist passive t k ks)
  | OPttl k => (RInt (spec_pttl t t k ks), spec_access passive t k false ks)
  | OEvict =>
      let out := if (max =? 0) || bool_decide (pol = kNoEviction) then ([], ks)
                 else spec_evict max (reverse (recency ks)) ks in
      (RBool ((max =? 0) || (u64 (cost out.2) <=? max)), out)
  | ORehash _ => (RUnit, ([], ks))
  | OClear => (RUnit, ([], mkKeySpace ∅ ∅ []))
  | OPassive _ => (RUnit, ([], ks))
  end.

Definition next_passive (p : bool) (to : Z * op) : bool :=
  match to.2 with OPassive on => on | _ => p end.

Definition run_op (st : list result * Store T) (to : Z * op) : list result * Store T :=
  let '(r, s) := exec st.2 to in (st.1 ++ [r], s).

(** Results, passive mode, reports so far, keyspace. *)
Definition spec_op (max : Z) (pol : EvictionPolicy)
  (st : list result * bool * list bytes * KeySpace) (to : Z * op)
  : list result * bool * list bytes * KeySpace :=
  let '(rs, p, dels, ks) := st in
  let '(r, (d, ks')) := spec_exec max pol p ks to in
  (rs ++ [r], next_passive p to, dels ++ d, ks').

Definition run (max : Z) (pol : EvictionPolicy) (rng : list nat) (h : list (Z * op))
  : list result * Store T :=
  foldl run_op ([], make max pol (fun _ => 0) rng) h.

Definition spec_run (max : Z) (pol : EvictionPolicy) (h : list (Z * op))
  : list result * bool * list bytes * KeySpace :=
  foldl (spec_op max pol) ([], false, [], mkKeySpace ∅ ∅ []) h.

(** One step of the simulation. *)
Record simulates (s s' : Store T) (to : Z * op) (out : list bytes * KeySpace) : Prop := {
  sim_wf : wf s';
  sim_abstract : abstract s' = out.2;
  sim_notified : notified_ s' = notified_ s ++ out.1;
  sim_passive : passive_expiry_ s' = next_passive (passive_expiry_ s) to;
  sim_max : maxmemory s' = maxmemory s /\ policy s' = policy s
}.

Lemma simulates_refines s s' t o out :
  refines (with_clock s (fun _ => t)) s' out -> (forall on, o <> OPassive on) ->
  simulates s s' (t, o) out.
Proof.
  intros [R1 R2 [= R3a R3b R3c R3d] R4] Ho. split; try done.
  rewrite R3d. destruct o; try done. by destruct (Ho on).
Qed.

Lemma exec_simulates s to :
  wf s ->
  let out := spec_exec (maxmemory s) (policy s) (passive_expiry_ s) (abstract s) to in
  (exec s to).1 = out.1 /\ simulates s (exec s to).2 to out.2.
Proof.
  intros W. destruct to as [t o]. set (s0 := with_clock s (fun _ => t)).
  assert (W0 : wf s0) by by apply (wf_tables s).
  assert (Hread : forall s1 out, refines s0 s1 out -> reading s1 = t).
  { intros s1 out Hr. unfold reading. by rewrite (config_clock _ _ (ref_config _ _ _ Hr)). }
  destruct o as [k|k|k|k v keep|k|k w|k|k| |n| |on];
    unfold exec, spec_exec, as_bool; cbn [fst snd]; fold s0.
  - destruct (get_refines k s0 W0) as [E Hr]. destruct (get k s0). cbn [fst snd] in *.
    split; [exact (f_equal RValue E)|by apply simulates_refines].
  - destruct (exists_refines k s0 W0) as [-> Hr]. split; [done|by apply simulates_refines].
  - destruct (contains_refines k s0 W0) as [-> Hr]. split; [done|by apply simulates_refines].
  - pose proof (set_refines k v keep s0 W0). split; [done|by apply simulates_refines].
  - destruct (del_refines k s0 W0) as [-> Hr]. split; [done|by apply simulates_refines].
  - destruct (set_expire_refines k w s0 W0) as [-> Hr].
    rewrite (Hread _ _ (proj1 (lookup_refines k true s0 W0))) in Hr.
    split; [done|by apply simulates_refines].
  - destruct (persist_refines k s0 W0) as [-> Hr]. split; [done|by apply simulates_refines].
  - destruct (pttl_refines k s0 W0) as [E Hr].
    rewrite (Hread _ _ (proj1 (lookup_refines k false s0 W0))) in E.
    destruct (pttl k s0). cbn [fst snd] in *.
    split; [exact (f_equal RInt E)|by apply simulates_refines].
  - destruct (evict_refines s0 W0) as [Hr ->]. split; [done|by apply simulates_refines].
  - pose proof (active_rehash_refines n s0 W0). split; [done|by apply simulates_refines].
  - pose proof (clear_refines s0). split; [done|by apply simulates_refines].
  - split; [done|]. split; [by apply (wf_tables s)|done|by rewrite app_nil_r|done|done].
Qed.

Lemma store_run_invariant max pol rng h :
  let '(rs, s) := run max pol rng h in
  wf s /\ maxmemory s = max /\ policy s = pol /\
  (rs, passive_expiry_ s, notified_ s, abstract s) = spec_run max pol h.
Proof.
  unfold run, spec_run. induction h as [|to h IH] using rev_ind.
  { simpl. split_and!; [apply make_wf|done|done|]. f_equal.
    unfold abstract, entries, deadlines. simpl. by rewrite !kt_empty_map. }
  rewrite !foldl_app. simpl. destruct (foldl run_op _ h) as [rs s].
  destruct IH as (W & Hm & Hp & <-). unfold run_op. simpl.
  destruct (exec_simulates s to W) as [E [S1 S2 S3 S4 [S5 S6]]]. rewrite Hm, Hp in *.
  destruct (exec s to) as [r s']. cbn [fst snd] in *.
  destruct (spec_exec _ _ _ _ _) as [r' [d ks]]. cbn [fst snd] in *.
  split_and!; [done|done|done|]. by rewrite S2, S3, S4, E.
Qed.
End invariant.
End Store.

(** ** The store over the incremental hash table *)

Abbreviation KvStore := (Store.Store HashTable.HashTable).

Module StoreClaims.
Import Store.

(** C6: over any history of operations, each at its own time, a store gives
    the results, makes the deletion reports and holds the contents of the
    abstract keyspace: expired keys are never seen, passive expiry only hides
    them, and the memory estimate is the one of the keys held. *)
Theorem store_refines_keyspace max pol rng h :
  let '(rs, s) := run (T := HashTable.HashTable) max pol rng h in
  let '(rs', passive, dels, ks) := spec_run max pol h in
  rs = rs' /\ notified_ s = dels /\ abstract s = ks /\ passive_expiry_ s = passive /\
  used_memory_ s = u64 (cost ks) /\ size s = base.size (vals ks).
Proof.
  pose proof (store_run_invariant (T := HashTable.HashTable) max pol rng h) as H.
  destruct (run max pol rng h) as [rs s]. destruct H as (W & _ & _ & <-).
  split_and!; try done; [by apply used_cost|by apply size_entries].
Qed.

(** C30: no iterator or key pointer of a store dangles: after any history,
    each entry's LRU iterator leads to a node holding its key, its slot
    iterator to a node pointing at that LRU node, and every pointer in a slot
    list leads to the node of a key of that slot. *)
Theorem iterators_never_dangle max pol rng h :
  let s := (run (T := HashTable.HashTable) max pol rng h).2 in
  (forall k e, kt_find k (dict_ s) = Some e ->
     list_deref (lru_pos e) (lru_ s) = Some k /\
     list_deref (slot_pos e) (slot s (key_hash_slot k)) = Some (lru_pos e)) /\
  (forall i p, p ∈ slot s i -> exists k e, kt_find k (dict_ s) = Some e /\
     key_hash_slot k = i /\ list_deref p.2 (lru_ s) = Some k).
Proof.
  pose proof (store_run_invariant (T := HashTable.HashTable) max pol rng h) as H.
  destruct (run max pol rng h) as [rs s]. destruct H as (W & _). cbv zeta. simpl snd. split.
  - intros k e He. rewrite find_dict in He by done. split.
    + apply list_deref_elem; [apply W|by apply lru_node_elem].
    + apply list_deref_elem; [apply W|]. rewrite (wf_slot _ W).
      rewrite (slot_nodes_delete _ _ _ _ He), decide_True by done. set_solver.
  - intros i p Hp. destruct (slot_deref s i p W Hp) as (k & e & ? & ? & _ & ?).
    exists k, e. by rewrite find_dict.
Qed.

(** C31: eviction under allkeys-lru deletes keys from the least recently used
    end of the recency order, reports each, deletes no more than it must (the
    estimate was over the limit before every deletion), and leaves the
    estimate within the limit unless the store is empty. *)
Theorem eviction_is_lru max rng h :
  0 < max ->
  let s := (run (T := HashTable.HashTable) max kAllKeysLru rng h).2 in
  let ks := abstract s in
  let '(ok, s') := evict_if_needed s in
  exists victims kept,
    recency ks = kept ++ reverse victims /\
    abstract s' = drop_keys ks victims /\ notified_ s' = notified_ s ++ victims /\
    (ok = true -> used_memory_ s' <= max) /\ (ok = false -> kept = []) /\
    (forall n, (n < length victims)%nat -> max < u64 (cost (drop_keys ks (take n victims)))).
Proof.
  intros Hmax. pose proof (store_run_invariant (T := HashTable.HashTable) max kAllKeysLru rng h) as H.
  destruct (run max kAllKeysLru rng h) as [rs s]. destruct H as (W & Hm & Hp & _).
  cbv zeta. simpl snd. destruct (evict_refines s W) as [Hr Hb]. rewrite Hm, Hp in *.
  rewrite (proj2 (Z.eqb_neq max 0)) in * by lia. cbn [orb] in *.
  destruct (spec_evict_victims max (reverse (recency (abstract s))) (abstract s))
    as (dels & left & Hsplit & Hev & Hl & Hn). rewrite Hev in *. cbn [fst snd] in *.
  destruct (evict_if_needed s) as [ok s']. cbn [fst snd] in *.
  exists dels, (reverse left). split_and!.
  - by rewrite <-reverse_app, <-Hsplit, reverse_involutive.
  - apply Hr.
  - apply Hr.
  - intros ->. symmetry in Hb. zbool.
    by rewrite (used_cost s' (ref_wf _ _ _ Hr)), (ref_abstract _ _ _ Hr).
  - intros ->. symmetry in Hb. zbool. by rewrite Hl.
  - done.
Qed.

Definition demo_history : list (Z * op) :=
  [(0, OSet &"a" &"1" false); (0, OSet &"b" &"2" false); (0, OGet &"a")].

Lemma eviction_is_lru_witness :
  let s := (run (T := HashTable.HashTable) 200 kAllKeysLru [] demo_history).2 in
  let ks := abstract s in
  let '(ok, s') := evict_if_needed s in
  exists victims kept,
    recency ks = kept ++ reverse victims /\
    abstract s' = drop_keys ks victims /\ notified_ s' = notified_ s ++ victims /\
    (ok = true -> used_memory_ s' <= 200) /\ (ok = false -> kept = []) /\
    (forall n, (n < length victims)%nat -> 200 < u64 (cost (drop_keys ks (take n victims)))).
Proof. apply (eviction_is_lru 200 [] demo_history). lia. Defined.

(** C32: a cycle of active expiry can always run; it deletes only keys whose
    deadline had passed at one of its readings of the clock, reports each,
    changes nothing else, and deletes nothing under passive expiry. *)
Theorem active_expiry_exact max pol rng h rounds :
  let s := (run (T := HashTable.HashTable) max pol rng h).2 in
  (exists draws out, active_expire_cycle rounds (with_rng s draws) = Some out) /\
  (forall draws c n s', active_expire_cycle rounds (with_clock (with_rng s draws) c) = Some (n, s') ->
   exists victims, n = length victims /\ notified_ s' = notified_ s ++ victims /\
     abstract s' = drop_keys (abstract s) victims /\
     Forall (fun v => exists w i, ttls (abstract s) !! v = Some w /\ w <= c i) victims /\
     (passive_expiry_ s = true -> victims = [])).
Proof.
  pose proof (store_run_invariant (T := HashTable.HashTable) max pol rng h) as H.
  destruct (run max pol rng h) as [rs s]. destruct H as (W & _). cbv zeta. simpl snd.
  split; [by apply active_expire_total|]. intros draws c n s' E.
  apply active_expire_refines in E as (vs & [Hr Hf] & -> & Hp); [|by apply (wf_tables s)].
  exists vs. split_and!; [done|apply Hr|apply Hr|exact Hf|exact Hp].
Qed.

(** C33: the slot index lists exactly the keys of the slot, each once, cut
    off at the requested number; deleting a slot deletes and reports exactly
    those keys and empties it. *)
Theorem slot_index_exact max pol rng h i m :
  let s := (run (T := HashTable.HashTable) max pol rng h).2 in
  let keys := keys_in_slot s i (count_keys_in_slot s i) in
  NoDup keys /\ length keys = count_keys_in_slot s i /\
  (forall k, k ∈ keys <-> key_hash_slot k = i /\ is_Some (vals (abstract s) !! k)) /\
  keys_in_slot s i m = take m keys /\
  let '(deleted, s') := delete_slot i s in
  deleted = length keys /\ notified_ s' = notified_ s ++ keys /\
  abstract s' = drop_keys (abstract s) keys /\ count_keys_in_slot s' i = 0%nat.
Proof.
  pose proof (store_run_invariant (T := HashTable.HashTable) max pol rng h) as H.
  destruct (run max pol rng h) as [rs s]. destruct H as (W & _). cbv zeta. simpl snd.
  assert (E : keys_in_slot s i (count_keys_in_slot s i) = slot_keys s i)
    by (rewrite keys_in_slot_take, <-slot_keys_length by done; by apply firstn_all).
  rewrite E. destruct (delete_slot_refines i s W) as [Hn Hr].
  destruct (delete_slot i s) as [n s']. cbn [fst snd] in *.
  split_and!; [by apply slot_keys_nodup|by apply slot_keys_length| | | |apply Hr|apply Hr|].
  - intros k. by apply elem_of_slot_keys.
  - by apply keys_in_slot_take.
  - by rewrite slot_keys_length.
  - rewrite <-slot_keys_length by apply Hr. apply length_zero_iff_nil, elem_of_nil_inv.
    intros k. rewrite elem_of_slot_keys by apply Hr. rewrite (ref_abstract _ _ _ Hr).
    intros [Hs [Hk Hv]%drop_keys_is_Some]. by apply Hk, elem_of_slot_keys.
Qed.

End StoreClaims.
