(* ===== verification/Snapshot.v ===== *)
(** * Snapshot files and DUMP payloads (src/snapshot.cpp, src/file_util.cpp)

    The binary point-in-time dump of the keyspace: the CRC-32, the buffered
    writer and reader with the system calls they make, the record format, the
    loader, and the DUMP/RESTORE payload of a single value.

    A file descriptor being written is the bytes written so far together with
    the results its next [write] calls will return; one being read is the
    bytes left together with the results of its next [read] calls.  When the
    given results run out, calls succeed in full. *)

From S2P Require Import Prelude Slots HashTable Store.

Module Snapshot.

Definition kMagic : bytes := &"KVSNAP".
Definition kVersion : Z := 1.
Definition kOpString : Z := 0x00.
Definition kOpExpireMs : Z := 0xFC.
Definition kOpEof : Z := 0xFF.
Definition kIoBufferSize : nat := Z.to_nat 65536.
Definition kMaxVarintBytes : nat := 10.

(** ** CRC-32 *)

Definition crc32_round (c : Z) : Z :=
  if Z.odd c then Z.lxor 0xEDB88320 (Z.shiftr c 1) else Z.shiftr c 1.

Definition crc32_table : list Z :=
  (fun i => Nat.iter 8 crc32_round (Z.of_nat i)) <$> seq 0 256.

Definition crc32_table_at (i : Z) : Z := nth (Z.to_nat i) crc32_table 0.

(** [~crc] on [uint32_t]. *)
Definition not32 (crc : Z) : Z := Z.lxor crc 0xFFFFFFFF.

Definition crc32_step (crc : Z) (b : byte) : Z :=
  Z.lxor (crc32_table_at (Z.land (Z.lxor crc (bz b)) 0xFF)) (Z.shiftr crc 8).

Definition crc32_update (crc : Z) (data : bytes) : Z :=
  not32 (foldl crc32_step (not32 crc) data).

(** ** Integer encodings *)

(** The [do ... while (v != 0)] loop of [put_varint] and [dump_value]; a 64-bit
    value needs at most [kMaxVarintBytes] iterations. *)
Fixpoint varint_loop (fuel : nat) (v : Z) : bytes :=
  match fuel with
  | O => []
  | S fuel =>
      let b := Z.land v 0x7F in
      let v := Z.shiftr v 7 in
      if v =? 0 then [zb b] else zb (Z.lor b 0x80) :: varint_loop fuel v
  end.

Definition varint (v : Z) : bytes := varint_loop kMaxVarintBytes (u64 v).

Definition fixed (v : Z) (n : nat) : bytes :=
  (fun i => zb (Z.land (Z.shiftr v (8 * Z.of_nat i)) 0xFF)) <$> seq 0 n.

Definition from_fixed (s : bytes) : Z :=
  foldr (fun b acc => Z.lor (bz b) (Z.shiftl acc 8)) 0 s.

(** ** System calls *)

Inductive wresult := Wrote (n : nat) | WIntr | WError.

Record WFd := mkWFd { contents : bytes; wresults : list wresult }.

(** [fileutil::write_all]: how many bytes went out. *)
Fixpoint write_all_loop (rs : list wresult) (data : bytes) (written : nat) (out : bytes)
  : nat * WFd :=
  match data with
  | [] => (written, mkWFd out rs)
  | _ =>
      match rs with
      | [] => ((written + length data)%nat, mkWFd (out ++ data) [])
      | WIntr :: rs => write_all_loop rs data written out
      | WError :: rs => (written, mkWFd out rs)
      | Wrote n :: rs =>
          let n := Nat.min n (length data) in
          write_all_loop rs (drop n data) (written + n) (out ++ take n data)
      end
  end.

Definition write_all (fd : WFd) (data : bytes) : nat * WFd :=
  write_all_loop (wresults fd) data 0 (contents fd).

Inductive rresult := Got (n : nat) | RIntr | RError.

Record RFd := mkRFd { remaining : bytes; rresults : list rresult }.

(** One [fill]: the chunk [read] returned, [None] for an error; the empty
    chunk is the end of the file.  A successful [read] of a file that has
    bytes left returns at least one. *)
Fixpoint read_loop (rs : list rresult) (rest : bytes) : option bytes * RFd :=
  match rs with
  | [] => (Some (take kIoBufferSize rest), mkRFd (drop kIoBufferSize rest) [])
  | RIntr :: rs => read_loop rs rest
  | RError :: rs => (None, mkRFd rest rs)
  | Got n :: rs =>
      let n := Nat.max 1 (Nat.min n kIoBufferSize) in
      (Some (take n rest), mkRFd (drop n rest) rs)
  end.

(** ** [Writer] *)

Record Writer := mkWriter { wfd_ : WFd; wbuf_ : bytes; wcrc_ : Z; wok_ : bool }.

Definition flush (w : Writer) : bool * Writer :=
  if wok_ w then
    let '(n, fd) := write_all (wfd_ w) (wbuf_ w) in
    let ok := (n =? length (wbuf_ w))%nat in
    (ok, mkWriter fd [] (wcrc_ w) ok)
  else (false, mkWriter (wfd_ w) [] (wcrc_ w) false).

Definition put (data : bytes) (w : Writer) : Writer :=
  let w := mkWriter (wfd_ w) (wbuf_ w ++ data) (crc32_update (wcrc_ w) data) (wok_ w) in
  if (kIoBufferSize <=? length (wbuf_ w))%nat then (flush w).2 else w.

Definition put_byte (b : Z) (w : Writer) : Writer := put [zb b] w.
Definition put_varint (v : Z) (w : Writer) : Writer := put (varint v) w.
Definition put_fixed (v : Z) (n : nat) (w : Writer) : Writer := put (fixed v n) w.
Definition put_string (s : bytes) (w : Writer) : Writer := put s (put_varint (zlen s) w).

(** ** [Reader] *)

Record Reader := mkReader { rfd_ : RFd; rbuf_ : bytes; rcrc_ : Z; rerror_ : bool }.

Definition fill (r : Reader) : bool * Reader :=
  match read_loop (rresults (rfd_ r)) (remaining (rfd_ r)) with
  | (None, fd) => (false, mkReader fd (rbuf_ r) (rcrc_ r) true)
  | (Some [], fd) => (false, mkReader fd (rbuf_ r) (rcrc_ r) (rerror_ r))
  | (Some chunk, fd) => (true, mkReader fd chunk (rcrc_ r) (rerror_ r))
  end.

(** Every iteration hands out at least one byte, so [len] is fuel enough. *)
Fixpoint get_loop (fuel len : nat) (out : bytes) (r : Reader) : option bytes * Reader :=
  match len, fuel with
  | O, _ => (Some out, r)
  | _, O => (None, r)
  | _, S fuel =>
      let '(ok, r) := match rbuf_ r with [] => fill r | _ => (true, r) end in
      if negb ok then (None, r)
      else
        let n := Nat.min len (length (rbuf_ r)) in
        let chunk := take n (rbuf_ r) in
        get_loop fuel (len - n) (out ++ chunk)
          (mkReader (rfd_ r) (drop n (rbuf_ r)) (crc32_update (rcrc_ r) chunk) (rerror_ r))
  end.

Definition get (len : nat) (r : Reader) : option bytes * Reader := get_loop len len [] r.

Definition get_byte (r : Reader) : option Z * Reader :=
  let '(s, r) := get 1 r in
  (match s with Some (b :: _) => Some (bz b) | _ => None end, r).

Fixpoint get_varint_loop (tries : nat) (i v : Z) (r : Reader) : option Z * Reader :=
  match tries with
  | O => (None, r)
  | S tries =>
      let '(ob, r) := get_byte r in
      match ob with
      | None => (None, r)
      | Some b =>
          let v := Z.lor v (u64 (Z.shiftl (Z.land b 0x7F) (7 * i))) in
          if Z.land b 0x80 =? 0 then (Some v, r) else get_varint_loop tries (i + 1) v r
      end
  end.

Definition get_varint (r : Reader) : option Z * Reader := get_varint_loop kMaxVarintBytes 0 0 r.

Definition get_fixed (n : nat) (r : Reader) : option Z * Reader :=
  let '(s, r) := get n r in (from_fixed <$> s, r).

Definition available (r : Reader) : bytes := rbuf_ r ++ remaining (rfd_ r).

(** Chunk by chunk; every chunk takes a byte of the file or fails, so the
    bytes left bound the iterations. *)
Fixpoint get_string_loop (fuel : nat) (len : Z) (s : bytes) (r : Reader) : option bytes * Reader :=
  if len <=? 0 then (Some s, r)
  else
    match fuel with
    | O => (None, r)
    | S fuel =>
        let n := Z.to_nat (Z.min len (Z.of_nat kIoBufferSize)) in
        let '(chunk, r) := get n r in
        match chunk with
        | None => (None, r)
        | Some c => get_string_loop fuel (len - Z.of_nat n) (s ++ c) r
        end
    end.

Definition get_string (r : Reader) : option bytes * Reader :=
  let '(len, r) := get_varint r in
  match len with
  | None => (None, r)
  | Some len => get_string_loop (S (length (available r))) len [] r
  end.

Definition at_eof (r : Reader) : bool * Reader :=
  match rbuf_ r with
  | [] => let '(ok, r) := fill r in (negb ok, r)
  | _ => (false, r)
  end.

(** ** Writing a snapshot *)

(** The function [write_file] passes to [Store::for_each]. *)
Definition write_entry (now : Z) (w : Writer) (entry : bytes * bytes * Z) : Writer :=
  let '(key, value, expire_ms) := entry in
  let record w := put_string value (put_string key (put_byte kOpString w)) in
  if 0 <=? expire_ms then
    if expire_ms <=? now then w
    else record (put_fixed expire_ms 8 (put_byte kOpExpireMs w))
  else record w.

(** What [write_file] puts, up to the checksum. *)
Definition write_records (now : Z) (entries : list (bytes * bytes * Z)) (w : Writer) : Writer :=
  let w := put_byte kVersion (put kMagic w) in
  put_byte kOpEof (foldl (write_entry now) w entries).

(** [opened], [synced] and [closed] are the outcomes of [open], [fsync] and
    [close]; the result is the answer and the file. *)
Definition write_file (opened synced closed : bool) (rs : list wresult) (store : KvStore)
  : bool * bytes :=
  if negb opened then (false, [])
  else
    let w := mkWriter (mkWFd [] rs) [] 0 true in
    let w := write_records (Store.now_ms store).1 (Store.for_each store) w in
    let w := put_fixed (wcrc_ w) 4 w in
    let '(flushed, w) := flush w in
    (closed && (flushed && synced), contents (wfd_ w)).

(** ** Loading a snapshot *)

Inductive load_error :=
  | ReadFailed
  | Reason (what : bytes).

Definition fail (r : Reader) (what : bytes) : load_error :=
  if rerror_ r then ReadFailed else Reason what.

(** One round of the loop of [load_from] up to the store: an error, the end
    marker, or a record with its deadline (-1 for none). *)
Inductive record :=
  | RecError (e : load_error)
  | RecEof
  | RecEntry (key value : bytes) (expire_ms : Z).

Definition to_int64 (raw : Z) : Z := if raw <? 2 ^ 63 then raw else raw - 2 ^ 64.

Definition read_strings (expire_ms : Z) (r : Reader) : record * Reader :=
  let '(key, r) := get_string r in
  match key with
  | None => (RecError (fail r &"truncated"), r)
  | Some key =>
      let '(value, r) := get_string r in
      match value with
      | None => (RecError (fail r &"truncated"), r)
      | Some value => (RecEntry key value expire_ms, r)
      end
  end.

Definition read_record (r : Reader) : record * Reader :=
  let '(op, r) := get_byte r in
  match op with
  | None => (RecError (fail r &"truncated"), r)
  | Some op =>
      if op =? kOpExpireMs then
        let '(raw, r) := get_fixed 8 r in
        match raw with
        | None => (RecError (fail r &"truncated"), r)
        | Some raw =>
            let '(op, r) := get_byte r in
            match op with
            | None => (RecError (fail r &"truncated"), r)
            | Some op =>
                let expire_ms := to_int64 raw in
                if expire_ms <? 0 then (RecError (fail r &"corrupt expire time"), r)
                else if negb (op =? kOpString)
                then (RecError (fail r &"corrupt: unknown record type"), r)
                else read_strings expire_ms r
            end
        end
      else if op =? kOpEof then (RecEof, r)
      else if negb (op =? kOpString)
      then (RecError (fail r &"corrupt: unknown record type"), r)
      else read_strings (-1) r
  end.

(** What a record does to the store being filled. *)
Definition load_entry (now : Z) (key value : bytes) (expire_ms : Z) (store : KvStore) : KvStore :=
  if (0 <=? expire_ms) && (expire_ms <=? now) then store
  else
    let store := Store.set key value false store in
    if 0 <=? expire_ms then (Store.set_expire key expire_ms store).2 else store.

(** Every record takes at least a byte of the file. *)
Fixpoint load_loop (fuel : nat) (now : Z) (r : Reader) (store : KvStore)
  : option load_error * Reader * KvStore :=
  let '(rec, r) := read_record r in
  match rec with
  | RecError e => (Some e, r, store)
  | RecEof => (None, r, store)
  | RecEntry key value expire_ms =>
      match fuel with
      | O => (Some (Reason &"truncated"), r, store)
      | S fuel => load_loop fuel now r (load_entry now key value expire_ms store)
      end
  end.

(** The end of [load_from]: checksum, and nothing after it. *)
Definition load_trailer (r : Reader) : option load_error :=
  let expected := rcrc_ r in
  let '(stored, r) := get_fixed 4 r in
  match stored with
  | None => Some (fail r &"truncated")
  | Some stored =>
      if negb (stored =? expected) then Some (fail r &"checksum mismatch")
      else
        let '(eof, r) := at_eof r in
        if negb eof then Some (fail r &"unexpected data after the end of the snapshot") else None
  end.

Definition load_from (r : Reader) (store : KvStore) : option load_error * KvStore :=
  let '(magic, r) := get (length kMagic) r in
  if negb (bool_decide (magic = Some kMagic))
  then (Some (fail r &"not a snapshot file (bad magic)"), store)
  else
    let '(version, r) := get_byte r in
    match version with
    | None => (Some (fail r &"truncated"), store)
    | Some version =>
        if negb (version =? kVersion)
        then (Some (Reason (&"unsupported snapshot version " ++ to_string version)), store)
        else
          let '(now, store) := Store.now_ms store in
          let '(err, r, store) := load_loop (length (available r)) now r store in
          match err with
          | Some e => (Some e, store)
          | None => (load_trailer r, store)
          end
    end.

Inductive LoadResult := kOk | kNotFound | kError (e : load_error).

(** The outcome of [open]. *)
Inductive opening := NoSuchFile | OpenFailed | Opened (content : bytes) (rs : list rresult).

Definition load (file : opening) (store : KvStore) : LoadResult * KvStore :=
  match file with
  | NoSuchFile => (kNotFound, store)
  | OpenFailed => (kError ReadFailed, store)
  | Opened content rs =>
      let '(err, store) := load_from (mkReader (mkRFd content rs) [] 0 false) store in
      (match err with Some e => kError e | None => kOk end, store)
  end.

(** ** DUMP payloads *)

Definition dump_value (value : bytes) : bytes :=
  let payload := [zb kOpString] ++ varint (zlen value) ++ value ++ [zb kVersion; x00] in
  payload ++ fixed (crc32_update 0 payload) 4.

(** The length loop of [restore_value] over the payload without its trailer;
    the bytes after the length. *)
Fixpoint restore_length (tries : nat) (i len : Z) (s : bytes) : option (Z * bytes) :=
  match tries, s with
  | S tries, b :: s =>
      let len := Z.lor len (u64 (Z.shiftl (Z.land (bz b) 0x7F) (7 * i))) in
      if Z.land (bz b) 0x80 =? 0 then Some (len, s) else restore_length tries (i + 1) len s
  | _, _ => None
  end.

Definition restore_value (payload : bytes) : option bytes :=
  if (length payload <? 1 + 1 + 2 + 4)%nat then None
  else
    let body := (length payload - 4)%nat in
    if negb (from_fixed (drop body payload) =? crc32_update 0 (take body payload)) then None
    else
      let at_ i := bz (nth i payload x00) in
      if negb (at_ (body - 2)%nat =? kVersion) || negb (at_ (body - 1)%nat =? 0) ||
         negb (at_ 0%nat =? kOpString)
      then None
      else
        match restore_length kMaxVarintBytes 0 0 (drop 1 (take (body - 2) payload)) with
        | None => None
        | Some (len, rest) => if negb (len =? zlen rest) then None else Some rest
        end.


(** ** Facts about the checksum *)

Lemma not32_involutive c : not32 (not32 c) = c.
Proof. unfold not32. by rewrite Z.lxor_assoc, Z.lxor_nilpotent, Z.lxor_0_r. Qed.

(** The checksum can be computed while streaming. *)
Lemma crc32_update_app c a b :
  crc32_update (crc32_update c a) b = crc32_update c (a ++ b).
Proof. unfold crc32_update. by rewrite not32_involutive, foldl_app. Qed.

Lemma crc32_update_nil c : crc32_update c [] = c.
Proof. apply not32_involutive. Qed.

Definition in_u32 (c : Z) : Prop := 0 <= c < 2 ^ 32.

Lemma in_u32_lxor a b : in_u32 a -> in_u32 b -> in_u32 (Z.lxor a b).
Proof.
  unfold in_u32. intros [Ha1 Ha2] [Hb1 Hb2]. split; [apply Z.lxor_nonneg; lia|].
  destruct (decide (Z.lxor a b = 0)) as [->|Hne]; [done|].
  assert (0 <= Z.lxor a b) by (apply Z.lxor_nonneg; lia).
  apply Z.log2_lt_pow2; [lia|]. eapply Z.le_lt_trans; [by apply Z.log2_lxor|].
  apply Z.max_lub_lt.
  - destruct (decide (a = 0)) as [->|]; [done|]. apply Z.log2_lt_pow2; lia.
  - destruct (decide (b = 0)) as [->|]; [done|]. apply Z.log2_lt_pow2; lia.
Qed.

Lemma crc32_table_check :
  forallb (fun c => (0 <=? c) && (c <? 2 ^ 32)) crc32_table = true.
Proof. by vm_compute. Qed.

(** The top bytes of the table are a permutation of the bytes. *)
Definition crc32_top_inverse (t : Z) : Z :=
  Z.of_nat (default 0%nat (fst <$> list_find (fun c => Z.shiftr c 24 = t) crc32_table)).

Lemma crc32_top_check :
  forallb (fun i => Z.shiftr (crc32_table_at (Z.of_nat i)) 24 <? 256) (seq 0 256) &&
  forallb (fun i => crc32_top_inverse (Z.shiftr (crc32_table_at (Z.of_nat i)) 24) =? Z.of_nat i)
    (seq 0 256) = true.
Proof. by vm_compute. Qed.

Lemma crc32_table_at_range i : 0 <= i < 256 -> in_u32 (crc32_table_at i).
Proof.
  intros H. unfold crc32_table_at.
  assert (Hin : In (nth (Z.to_nat i) crc32_table 0) crc32_table).
  { apply nth_In. change (length crc32_table) with 256%nat. lia. }
  pose proof crc32_table_check as Hc. rewrite forallb_forall in Hc. specialize (Hc _ Hin).
  unfold in_u32. zlia.
Qed.

Lemma crc32_top_inj i j :
  0 <= i < 256 -> 0 <= j < 256 ->
  Z.shiftr (crc32_table_at i) 24 = Z.shiftr (crc32_table_at j) 24 -> i = j.
Proof.
  intros Hi Hj E. pose proof crc32_top_check as Hc.
  apply andb_true_iff in Hc as [_ Hc]. rewrite forallb_forall in Hc.
  pose proof (Hc (Z.to_nat i)) as H1. pose proof (Hc (Z.to_nat j)) as H2.
  rewrite Z2Nat.id in H1, H2 by lia. rewrite E in H1.
  assert (In (Z.to_nat i) (seq 0 256)) as Hini by (apply in_seq; lia).
  assert (In (Z.to_nat j) (seq 0 256)) as Hinj by (apply in_seq; lia).
  specialize (H1 Hini). specialize (H2 Hinj). zlia.
Qed.

Lemma land_255_range x : 0 <= Z.land x 0xFF < 256.
Proof. change 0xFF with (Z.ones 8). rewrite Z.land_ones by lia. by apply Z.mod_pos_bound. Qed.

Lemma crc32_step_range c b : in_u32 c -> in_u32 (crc32_step c b).
Proof.
  intros Hc. unfold crc32_step. apply in_u32_lxor.
  - apply crc32_table_at_range, land_255_range.
  - unfold in_u32 in *. rewrite Z.shiftr_div_pow2 by lia.
    split; [apply Z.div_pos; lia|]. apply Z.div_lt_upper_bound; lia.
Qed.

Lemma crc32_steps_range c s : in_u32 c -> in_u32 (foldl crc32_step c s).
Proof.
  revert c. induction s as [|b s IH]; intros c Hc; simpl; [done|].
  by apply IH, crc32_step_range.
Qed.

(** Equal results of a step have equal table indices and equal high bits. *)
Lemma crc32_step_inv c1 b1 c2 b2 :
  in_u32 c1 -> in_u32 c2 -> crc32_step c1 b1 = crc32_step c2 b2 ->
  Z.land (Z.lxor c1 (bz b1)) 0xFF = Z.land (Z.lxor c2 (bz b2)) 0xFF /\
  Z.shiftr c1 8 = Z.shiftr c2 8.
Proof.
  intros H1 H2 E. unfold crc32_step in E.
  assert (Htop : forall c t, in_u32 c -> Z.shiftr (Z.lxor t (Z.shiftr c 8)) 24 = Z.shiftr t 24).
  { intros c t Hc. rewrite Z.shiftr_lxor, Z.shiftr_shiftr by lia.
    rewrite (Z.shiftr_div_pow2 c) by lia.
    rewrite Z.div_small by exact Hc. apply Z.lxor_0_r. }
  assert (Hi : Z.land (Z.lxor c1 (bz b1)) 0xFF = Z.land (Z.lxor c2 (bz b2)) 0xFF).
  { apply crc32_top_inj; [apply land_255_range..|].
    apply (f_equal (fun v => Z.shiftr v 24)) in E. by rewrite !Htop in E. }
  split; [done|]. rewrite Hi in E.
  apply (f_equal (Z.lxor (crc32_table_at (Z.land (Z.lxor c2 (bz b2)) 0xFF)))) in E.
  by rewrite <-!Z.lxor_assoc, Z.lxor_nilpotent, !Z.lxor_0_l in E.
Qed.

(** The value from its low byte and the rest. *)
Lemma low_byte_eq a b :
  Z.land a 0xFF = Z.land b 0xFF -> Z.shiftr a 8 = Z.shiftr b 8 -> a = b.
Proof.
  change 0xFF with (Z.ones 8). rewrite !Z.land_ones, !Z.shiftr_div_pow2 by lia.
  intros H1 H2. rewrite (Z.div_mod a (2 ^ 8)), (Z.div_mod b (2 ^ 8)) by lia. by rewrite H1, H2.
Qed.

Lemma lxor_land_cancel a b x :
  Z.land (Z.lxor a x) 0xFF = Z.land (Z.lxor b x) 0xFF -> Z.land a 0xFF = Z.land b 0xFF.
Proof.
  intros E. apply Z.bits_inj'. intros n Hn. apply (f_equal (fun v => Z.testbit v n)) in E.
  revert E. rewrite !Z.land_spec, !Z.lxor_spec.
  destruct (Z.testbit a n), (Z.testbit b n), (Z.testbit x n), (Z.testbit 0xFF n); done.
Qed.

Lemma crc32_step_state_inj c1 c2 b :
  in_u32 c1 -> in_u32 c2 -> crc32_step c1 b = crc32_step c2 b -> c1 = c2.
Proof.
  intros H1 H2 [Hl Hh]%crc32_step_inv; [|done|done].
  apply low_byte_eq; [by eapply lxor_land_cancel|done].
Qed.

Lemma crc32_step_byte_inj c b1 b2 :
  in_u32 c -> crc32_step c b1 = crc32_step c b2 -> b1 = b2.
Proof.
  intros H [Hl _]%crc32_step_inv; [|done|done].
  rewrite !(Z.lxor_comm c) in Hl. apply lxor_land_cancel in Hl.
  change 0xFF with (Z.ones 8) in Hl. rewrite !Z.land_ones in Hl by lia.
  pose proof (bz_range b1). pose proof (bz_range b2).
  rewrite !Z.mod_small in Hl by done. by apply (inj bz).
Qed.

Lemma crc32_steps_inj c1 c2 s :
  in_u32 c1 -> in_u32 c2 -> foldl crc32_step c1 s = foldl crc32_step c2 s -> c1 = c2.
Proof.
  revert c1 c2. induction s as [|b s IH]; intros c1 c2 H1 H2; simpl; [done|].
  intros E%IH; [|by apply crc32_step_range..]. by apply crc32_step_state_inj in E.
Qed.

Lemma not32_range c : in_u32 c -> in_u32 (not32 c).
Proof. intros H. apply in_u32_lxor; [done|]. done. Qed.

Lemma not32_inj a b : not32 a = not32 b -> a = b.
Proof. intros E%(f_equal not32). by rewrite !not32_involutive in E. Qed.

Lemma crc32_update_range c s : in_u32 c -> in_u32 (crc32_update c s).
Proof. intros H. by apply not32_range, crc32_steps_range, not32_range. Qed.

(** Changing one byte always changes the checksum. *)
Lemma crc32_detects_byte c p b b' q :
  in_u32 c -> b <> b' -> crc32_update c (p ++ b :: q) <> crc32_update c (p ++ b' :: q).
Proof.
  intros H Hne E%not32_inj. rewrite !foldl_app in E. simpl in E.
  pose proof (crc32_steps_range _ p (not32_range _ H)) as Hp.
  apply crc32_steps_inj in E; [|by apply crc32_step_range..].
  by apply crc32_step_byte_inj in E.
Qed.

(** ** Fixed-width and variable-length integers *)

Lemma from_fixed_cons b s : 0 <= from_fixed s -> from_fixed (b :: s) = bz b + from_fixed s * 256.
Proof. intros H. simpl. rewrite lor_shiftl; [done|lia|]. apply bz_range. Qed.

Lemma from_fixed_range s : 0 <= from_fixed s < 256 ^ zlen s.
Proof.
  induction s as [|b s IH]; [done|]. rewrite from_fixed_cons by lia.
  rewrite zlen_cons, Z.pow_add_r by (try apply zlen_nonneg; lia).
  pose proof (bz_range b). lia.
Qed.

Lemma fixed_S v n : 0 <= v -> fixed v (S n) = zb (Z.land v 0xFF) :: fixed (Z.shiftr v 8) n.
Proof.
  intros Hv. unfold fixed. simpl seq. rewrite fmap_cons. f_equal.
  rewrite <-seq_shift. rewrite <-list_fmap_compose. apply list_fmap_ext. intros i j _. simpl.
  rewrite Z.shiftr_shiftr by lia. do 3 f_equal. lia.
Qed.

Lemma from_fixed_fixed v n : 0 <= v < 256 ^ Z.of_nat n -> from_fixed (fixed v n) = v.
Proof.
  revert v. induction n as [|n IH]; intros v Hv; [simpl in Hv; simpl; lia|].
  rewrite fixed_S by lia. rewrite Nat2Z.inj_succ, Z.pow_succ_r in Hv by lia.
  assert (0 <= Z.shiftr v 8 < 256 ^ Z.of_nat n).
  { rewrite Z.shiftr_div_pow2 by lia. split; [apply Z.div_pos; lia|].
    apply Z.div_lt_upper_bound; lia. }
  rewrite from_fixed_cons, IH by (rewrite ?IH; lia).
  change 0xFF with (Z.ones 8). rewrite Z.land_ones, bz_zb by lia.
  change (2 ^ 8) with 256. rewrite Z.mod_mod by lia.
  rewrite Z.shiftr_div_pow2 by lia. change (2 ^ 8) with 256.
  rewrite Z.add_comm, Z.mul_comm. symmetry. apply Z.div_mod. lia.
Qed.

Lemma length_fixed v n : length (fixed v n) = n.
Proof. unfold fixed. by rewrite length_fmap, length_seq. Qed.

(** One byte of a varint: seven bits, and whether more follow. *)
Lemma varint_byte_low v : 0 <= v -> Z.land v 0x7F = v mod 128.
Proof. intros H. change 0x7F with (Z.ones 7). by rewrite Z.land_ones by lia. Qed.

Lemma varint_byte_last d : 0 <= d < 128 -> Z.land (bz (zb d)) 0x7F = d /\ Z.land (bz (zb d)) 0x80 = 0.
Proof.
  intros H. rewrite bz_zb_small by lia. split.
  - rewrite varint_byte_low by lia. apply Z.mod_small. lia.
  - apply Z.bits_inj'. intros i Hi. rewrite Z.land_spec, Z.bits_0.
    change 0x80 with (2 ^ 7). rewrite Z.pow2_bits_eqb by lia.
    destruct (Z.eqb_spec 7 i) as [<-|]; [|by rewrite andb_false_r].
    rewrite andb_true_r. rewrite <-(Z.mod_small d (2 ^ 7)) by done.
    by rewrite Z.mod_pow2_bits_high by lia.
Qed.

Lemma varint_byte_more d :
  0 <= d < 128 ->
  Z.land (bz (zb (Z.lor d 0x80))) 0x7F = d /\ Z.land (bz (zb (Z.lor d 0x80))) 0x80 <> 0.
Proof.
  intros H. change 0x80 with (Z.shiftl 1 7). rewrite lor_shiftl by (try done; lia).
  change (1 * 2 ^ 7) with 128. rewrite bz_zb_small by lia. split.
  - rewrite varint_byte_low by lia. rewrite <-(Z.mul_1_l 128) at 1.
    rewrite Z.mod_add by lia. apply Z.mod_small. lia.
  - intros E. apply (f_equal (fun v => Z.testbit v 7)) in E. revert E.
    rewrite Z.land_spec, Z.bits_0. change (Z.testbit (Z.shiftl 1 7) 7) with true.
    rewrite andb_true_r, Z.testbit_false by lia. change (2 ^ 7) with 128.
    rewrite <-(Z.mul_1_l 128) at 1. by rewrite Z.div_add, Z.div_small by lia.
Qed.

Lemma restore_length_varint fuel tries i len v rest :
  (fuel <= tries)%nat -> 0 <= i -> 0 <= len < 2 ^ (7 * i) ->
  0 <= v < 2 ^ (7 * Z.of_nat fuel) -> (0 < fuel)%nat -> v * 2 ^ (7 * i) < 2 ^ 64 ->
  restore_length tries i len (varint_loop fuel v ++ rest) = Some (len + v * 2 ^ (7 * i), rest).
Proof.
  revert tries i len v. induction fuel as [|fuel IH]; intros [|tries] i len v Ht Hi Hlen Hv Hf Hmax;
    [lia..|].
  simpl. rewrite varint_byte_low, Z.shiftr_div_pow2 by lia. change (2 ^ 7) with 128.
  assert (Hd : 0 <= v mod 128 < 128) by by apply Z.mod_pos_bound.
  assert (Hp : 0 < 2 ^ (7 * i)) by (apply Z.pow_pos_nonneg; lia).
  assert (Hsum : forall a, Z.land a 0x7F = v mod 128 ->
    Z.lor len (u64 (Z.shiftl (Z.land a 0x7F) (7 * i))) = len + v mod 128 * 2 ^ (7 * i)).
  { intros a ->. rewrite u64_small.
    - by rewrite lor_shiftl by lia.
    - rewrite Z.shiftl_mul_pow2 by lia. pose proof (Z.mod_le v 128). nia. }
  destruct (Z.eqb_spec (v / 128) 0) as [E|E]; simpl.
  - destruct (varint_byte_last _ Hd) as [H1 H2]. rewrite Hsum, H2 by done. simpl.
    do 3 f_equal. rewrite (Z.div_mod v 128), E by lia. rewrite Z.mul_0_r, Z.add_0_l.
    by rewrite Z.mod_mod by lia.
  - destruct (varint_byte_more _ Hd) as [H1 H2]. rewrite Hsum by done.
    rewrite (proj2 (Z.eqb_neq _ _) H2).
    rewrite Nat2Z.inj_succ, Z.mul_succ_r, Z.pow_add_r in Hv by lia. change (2 ^ 7) with 128 in Hv.
    assert (Hq : 0 <= v / 128 < 2 ^ (7 * Z.of_nat fuel))
      by (split; [apply Z.div_pos; lia|apply Z.div_lt_upper_bound; lia]).
    assert (Hpi : 2 ^ (7 * (i + 1)) = 128 * 2 ^ (7 * i))
      by (rewrite Z.mul_add_distr_l, Z.pow_add_r by lia; lia).
    pose proof (Z.div_mod v 128 ltac:(lia)) as Hdm.
    rewrite IH; [do 2 f_equal; rewrite Hpi; nia|lia|lia|rewrite Hpi; nia|done| |rewrite Hpi; nia].
    destruct fuel; [simpl in Hq; lia|lia].
Qed.

Lemma restore_length_of_varint v rest :
  0 <= v < 2 ^ 64 -> restore_length kMaxVarintBytes 0 0 (varint v ++ rest) = Some (v, rest).
Proof.
  intros Hv. unfold varint. rewrite u64_small by done.
  rewrite (restore_length_varint kMaxVarintBytes); [do 2 f_equal; lia|done|done|done| |unfold kMaxVarintBytes; lia|lia].
  split; [lia|]. eapply Z.lt_trans; [apply Hv|]. apply Z.pow_lt_mono_r; unfold kMaxVarintBytes; lia.
Qed.

Lemma from_fixed_inj s t : length s = length t -> from_fixed s = from_fixed t -> s = t.
Proof.
  revert t. induction s as [|a s IH]; intros [|b t] Hl E; try done.
  pose proof (from_fixed_range s). pose proof (from_fixed_range t).
  rewrite !from_fixed_cons in E by lia. pose proof (bz_range a). pose proof (bz_range b).
  assert (bz a = bz b /\ from_fixed s = from_fixed t) as [Hab Hst] by lia.
  f_equal; [by apply (inj bz)|]. apply IH; [by injection Hl|done].
Qed.

Lemma varint_loop_nonempty fuel v : (0 < length (varint_loop (S fuel) v))%nat.
Proof. simpl. destruct (_ =? 0); simpl; lia. Qed.

Lemma varint_nonempty v : (0 < length (varint v))%nat.
Proof. apply varint_loop_nonempty. Qed.

(** ** DUMP and RESTORE *)

Definition dump_body (value : bytes) : bytes :=
  [zb kOpString] ++ varint (zlen value) ++ value ++ [zb kVersion; x00].

Lemma dump_value_eq value :
  dump_value value = dump_body value ++ fixed (crc32_update 0 (dump_body value)) 4.
Proof. done. Qed.

Lemma in_u32_0 : in_u32 0.
Proof. by split. Qed.

(** A payload whose trailer is not the checksum of its body is refused. *)
Lemma restore_bad_checksum body crc :
  length crc = 4%nat -> from_fixed crc <> crc32_update 0 body -> restore_value (body ++ crc) = None.
Proof.
  intros Hl Hne. unfold restore_value. destruct (_ <? _)%nat; [done|].
  rewrite length_app, Hl, Nat.add_sub. rewrite drop_app_length, take_app_length.
  by rewrite (proj2 (Z.eqb_neq _ _) Hne).
Qed.

Lemma restore_dump value :
  zlen value < 2 ^ 64 -> restore_value (dump_value value) = Some value.
Proof.
  intros Hv. rewrite dump_value_eq. set (body := dump_body value).
  set (inner := varint (zlen value) ++ value).
  assert (Hb : body = zb kOpString :: (inner ++ [zb kVersion; x00]))
    by (unfold body, dump_body, inner; by rewrite <-app_assoc).
  assert (Hlb : length body = S (length inner + 2))
    by (rewrite Hb; simpl; by rewrite length_app).
  assert (Hin : (0 < length inner)%nat).
  { unfold inner. rewrite length_app. pose proof (varint_nonempty (zlen value)). lia. }
  unfold restore_value. rewrite length_app, length_fixed, Nat.add_sub.
  rewrite (proj2 (Nat.ltb_ge _ _)) by lia. rewrite drop_app_length, take_app_length.
  rewrite from_fixed_fixed by apply crc32_update_range, in_u32_0. rewrite Z.eqb_refl.
  cbn [negb]. cbv beta zeta iota. rewrite !app_nth1 by lia.
  assert (Hn1 : nth (length body - 2) body x00 = zb kVersion).
  { rewrite Hlb, Hb. replace (S (length inner + 2) - 2)%nat with (S (length inner)) by lia.
    simpl. rewrite app_nth2, Nat.sub_diag by lia. done. }
  assert (Hn2 : nth (length body - 1) body x00 = x00).
  { rewrite Hlb, Hb. replace (S (length inner + 2) - 1)%nat with (S (S (length inner))) by lia.
    simpl. rewrite app_nth2 by lia. by replace (S (length inner) - length inner)%nat with 1%nat by lia. }
  assert (Hn0 : nth 0 body x00 = zb kOpString) by by rewrite Hb.
  rewrite Hn0, Hn1, Hn2. simpl orb. cbv iota.
  rewrite take_app_le by lia.
  replace (drop 1 (take (length body - 2) body)) with inner.
  2: { rewrite Hlb, Hb. replace (S (length inner + 2) - 2)%nat with (S (length inner)) by lia.
       simpl. by rewrite take_app_length. }
  unfold inner. rewrite restore_length_of_varint by (pose proof (zlen_nonneg value); lia).
  by rewrite Z.eqb_refl.
Qed.

(** A damaged byte anywhere in a payload is refused. *)
Lemma restore_damaged value p b b' q :
  dump_value value = p ++ b :: q -> b <> b' -> restore_value (p ++ b' :: q) = None.
Proof.
  intros E Hne. rewrite dump_value_eq in E.
  set (body := dump_body value) in *. set (crc := fixed _ 4) in *.
  assert (Hcrc : from_fixed crc = crc32_update 0 body)
    by (apply from_fixed_fixed, crc32_update_range, in_u32_0).
  assert (Hl : length crc = 4%nat) by apply length_fixed.
  apply app_eq_app in E as [l [[E1 E2]|[E1 E2]]].
  - destruct l as [|x l].
    + simpl in E2. rewrite app_nil_r in E1. rewrite <-E1.
      apply restore_bad_checksum; [rewrite <-Hl, <-E2; done|].
      intros E. rewrite <-Hcrc, <-E2 in E. apply from_fixed_inj in E; [|done].
      by injection E.
    + simpl in E2. injection E2 as -> ->.
      change (p ++ b' :: l ++ crc) with (p ++ (b' :: l) ++ crc). rewrite app_assoc.
      apply restore_bad_checksum; [done|]. rewrite Hcrc, E1.
      apply crc32_detects_byte; [apply in_u32_0|done].
  - rewrite E1, <-app_assoc. apply restore_bad_checksum.
    + rewrite E2, length_app in Hl. rewrite length_app. done.
    + intros E. rewrite <-Hcrc, E2 in E. apply from_fixed_inj in E; [|by rewrite !length_app].
      apply app_inv_head in E. by injection E.
Qed.

(** ** The reader: chunks and interruptions are invisible *)

(** No [read] has failed or will fail. *)
Definition clean (r : Reader) : Prop :=
  Forall (fun x => x <> RError) (rresults (rfd_ r)) /\ rerror_ r = false.

(** [r'] is [r] after handing out [s]. *)
Record after (r : Reader) (s : bytes) (r' : Reader) : Prop := {
  after_available : available r = s ++ available r';
  after_crc : rcrc_ r' = crc32_update (rcrc_ r) s;
  after_clean : clean r'
}.

Lemma after_trans r1 s1 r2 s2 r3 : after r1 s1 r2 -> after r2 s2 r3 -> after r1 (s1 ++ s2) r3.
Proof.
  intros [A1 A2 A3] [B1 B2 B3]. split; [by rewrite A1, B1, app_assoc| |done].
  by rewrite B2, A2, crc32_update_app.
Qed.

Lemma after_refl r : clean r -> after r [] r.
Proof. intros H. split; [done|by rewrite crc32_update_nil|done]. Qed.

Lemma kIoBufferSize_pos : (0 < kIoBufferSize)%nat.
Proof. unfold kIoBufferSize. lia. Qed.
#[local] Opaque kIoBufferSize.

Lemma read_loop_spec rs rest :
  Forall (fun x => x <> RError) rs ->
  exists chunk fd, read_loop rs rest = (Some chunk, fd) /\ rest = chunk ++ remaining fd /\
    (rest <> [] -> chunk <> []) /\ Forall (fun x => x <> RError) (rresults fd).
Proof.
  assert (Htake : forall n, (0 < n)%nat -> rest <> [] -> take n rest <> [])
    by (intros [|n] ? ?; [lia|]; by destruct rest).
  induction 1 as [|x rs Hx Hrs IH]; cbn [read_loop]; cbv zeta.
  - eexists _, _. split_and!; [done|symmetry; apply take_drop| |done].
    apply Htake, kIoBufferSize_pos.
  - destruct x as [n| |]; [|done|done]. eexists _, _.
    split_and!; [done|symmetry; apply take_drop| |done]. apply Htake. lia.
Qed.

Lemma fill_spec r :
  clean r -> rbuf_ r = [] ->
  clean (fill r).2 /\ rcrc_ (fill r).2 = rcrc_ r /\ available (fill r).2 = available r /\
  (fill r).1 = bool_decide (available r <> []) /\
  ((fill r).1 = true -> rbuf_ (fill r).2 <> []).
Proof.
  intros [Hrs He] Hb. unfold fill, clean, available.
  destruct (read_loop_spec (rresults (rfd_ r)) (remaining (rfd_ r)) Hrs)
    as (chunk & fd & -> & Hsplit & Hne & Hfd). rewrite Hb. simpl.
  destruct chunk as [|b chunk]; simpl.
  - simpl in Hsplit. split_and!; try done.
    symmetry. apply bool_decide_eq_false. intros H. by apply Hne.
  - split_and!; try done. symmetry. apply bool_decide_eq_true. rewrite Hsplit. done.
Qed.

Lemma get_loop_spec fuel len out r :
  clean r -> (len <= fuel)%nat ->
  if (len <=? length (available r))%nat
  then exists r', get_loop fuel len out r = (Some (out ++ take len (available r)), r') /\
         after r (take len (available r)) r'
  else exists r', get_loop fuel len out r = (None, r') /\ clean r'.
Proof.
  revert len out r. induction fuel as [|fuel IH]; intros [|len] out r Hc Hle; cbn [get_loop].
  1, 3: exists r; rewrite take_0, app_nil_r; by split; [|apply after_refl].
  { lia. }
  assert (Hready : exists ok r1, match rbuf_ r with [] => fill r | _ => (true, r) end = (ok, r1) /\
    clean r1 /\ rcrc_ r1 = rcrc_ r /\ available r1 = available r /\
    ok = bool_decide (available r <> []) /\ (ok = true -> rbuf_ r1 <> [])).
  { destruct (rbuf_ r) as [|b s] eqn:Eb.
    - destruct (fill_spec r Hc Eb) as (F1 & F2 & F3 & F4 & F5).
      destruct (fill r) as [ok r1]. by exists ok, r1.
    - exists true, r. split_and!; try done; [|by rewrite Eb].
      symmetry. apply bool_decide_eq_true. unfold available. by rewrite Eb. }
  destruct Hready as (ok & r1 & -> & Hc1 & Hcrc & Hav & -> & Hbuf).
  destruct (available r) as [|a rest] eqn:Ea.
  { simpl. exists r1. by split. }
  simpl negb. cbv iota. specialize (Hbuf eq_refl).
  set (n := Nat.min (S len) (length (rbuf_ r1))).
  set (r2 := mkReader _ _ _ _).
  assert (Hn : (0 < n <= S len)%nat) by (unfold n; destruct (rbuf_ r1); simpl in *; [done|lia]).
  assert (Hafter : after r1 (take n (rbuf_ r1)) r2).
  { split; [|done|done]. unfold available. simpl. by rewrite app_assoc, take_drop. }
  assert (Hsplit : a :: rest = take n (rbuf_ r1) ++ available r2).
  { rewrite <-Hav. apply Hafter. }
  assert (Hlen : length (take n (rbuf_ r1)) = n) by (rewrite length_take; unfold n; lia).
  specialize (IH (S len - n)%nat (out ++ take n (rbuf_ r1)) r2 (after_clean _ _ _ Hafter)
                ltac:(lia)).
  assert (Htot : S (length rest) = (n + length (available r2))%nat)
    by (rewrite <-Hlen, <-length_app, <-Hsplit; done).
  change (length (a :: rest)) with (S (length rest)). rewrite Htot.
  assert (Htake : take (S len) (a :: rest) = take n (rbuf_ r1) ++ take (S len - n) (available r2)).
  { rewrite Hsplit, take_app, Hlen. f_equal. apply take_ge. lia. }
  destruct (S len <=? n + length (available r2))%nat eqn:E; zbool.
  - rewrite (proj2 (Nat.leb_le _ _)) in IH by lia. destruct IH as (r' & -> & Haf).
    exists r'. rewrite Htake, <-app_assoc. split; [done|].
    eapply after_trans; [|exact Haf]. split; [|by rewrite <-Hcrc; apply Hafter|apply Hafter].
    rewrite Ea. exact Hsplit.
  - rewrite (proj2 (Nat.leb_gt _ _)) in IH by lia. done.
Qed.

(** Reading [len] bytes gives the next [len] bytes of the file, or fails when
    there are fewer. *)
Lemma get_spec s rest r :
  clean r -> available r = s ++ rest ->
  exists r', get (length s) r = (Some s, r') /\ after r s r' /\ available r' = rest.
Proof.
  intros Hc Ha. pose proof (get_loop_spec (length s) (length s) [] r Hc (le_n _)) as H.
  rewrite Ha, length_app, (proj2 (Nat.leb_le _ _)), take_app_length in H by lia.
  destruct H as (r' & E & Haf). exists r'. split_and!; [done|done|].
  pose proof (after_available _ _ _ Haf) as Hr. rewrite Ha in Hr. by apply app_inv_head in Hr.
Qed.

Lemma get_cases len r :
  clean r ->
  (exists s r', length s = len /\ get len r = (Some s, r') /\ after r s r') \/
  (length (available r) < len)%nat /\ exists r', get len r = (None, r') /\ clean r'.
Proof.
  intros Hc. pose proof (get_loop_spec len len [] r Hc (le_n _)) as H.
  destruct (len <=? length (available r))%nat eqn:E; zbool.
  - left. destruct H as (r' & E' & Haf). exists (take len (available r)), r'.
    split_and!; [|exact E'|done].
    rewrite length_take. lia.
  - by right.
Qed.

Lemma get_byte_spec b rest r :
  clean r -> available r = b :: rest ->
  exists r', get_byte r = (Some (bz b), r') /\ after r [b] r' /\ available r' = rest.
Proof.
  intros Hc Ha. destruct (get_spec [b] rest r Hc Ha) as (r' & E & H).
  exists r'. unfold get_byte. change 1%nat with (length [b]). by rewrite E.
Qed.

Lemma get_fixed_spec v n rest r :
  clean r -> 0 <= v < 256 ^ Z.of_nat n -> available r = fixed v n ++ rest ->
  exists r', get_fixed n r = (Some v, r') /\ after r (fixed v n) r' /\ available r' = rest.
Proof.
  intros Hc Hv Ha. destruct (get_spec _ _ r Hc Ha) as (r' & E & H).
  rewrite length_fixed in E. exists r'. unfold get_fixed. rewrite E. simpl.
  by rewrite from_fixed_fixed.
Qed.

(** The reader's length loop is the one of [restore_value]. *)
Lemma get_varint_loop_restore tries i v r x rest :
  clean r -> restore_length tries i v (available r) = Some (x, rest) ->
  exists s r', get_varint_loop tries i v r = (Some x, r') /\ after r s r' /\ available r' = rest.
Proof.
  revert i v r. induction tries as [|tries IH]; intros i v r Hc; simpl; [done|].
  destruct (available r) as [|b t] eqn:Ea; [done|].
  destruct (get_byte_spec b t r Hc Ea) as (r1 & -> & Haf & Ha1).
  destruct (Z.land (bz b) 0x80 =? 0).
  - intros [= <- <-]. by exists [b], r1.
  - rewrite <-Ha1. intros H. destruct (IH _ _ r1 (after_clean _ _ _ Haf) H) as (s & r' & E & Haf' & ?).
    exists ([b] ++ s), r'. split_and!; [done|by eapply after_trans|done].
Qed.

Lemma after_exact r s r' t rest :
  after r s r' -> available r = t ++ rest -> available r' = rest -> s = t.
Proof.
  intros Haf Ha Hr. pose proof (after_available _ _ _ Haf) as H. rewrite Ha, Hr in H.
  by apply app_inv_tail in H.
Qed.

Lemma get_varint_spec v rest r :
  clean r -> 0 <= v < 2 ^ 64 -> available r = varint v ++ rest ->
  exists r', get_varint r = (Some v, r') /\ after r (varint v) r' /\ available r' = rest.
Proof.
  intros Hc Hv Ha.
  destruct (get_varint_loop_restore kMaxVarintBytes 0 0 r v rest Hc) as (s & r' & E & Haf & Hr).
  { rewrite Ha. by apply restore_length_of_varint. }
  exists r'. split_and!; [done| |done]. by rewrite <-(after_exact _ _ _ _ _ Haf Ha Hr).
Qed.

Lemma get_string_loop_spec fuel acc s rest r :
  clean r -> available r = s ++ rest -> (length s <= fuel)%nat ->
  exists r', get_string_loop fuel (zlen s) acc r = (Some (acc ++ s), r') /\ after r s r' /\
    available r' = rest.
Proof.
  revert acc s r. induction fuel as [|fuel IH]; intros acc s r Hc Ha Hf.
  { destruct s; [|simpl in Hf; lia]. exists r. rewrite app_nil_r.
    split_and!; [done|by apply after_refl|done]. }
  destruct s as [|b s0] eqn:Es.
  { exists r. rewrite app_nil_r. split_and!; [done|by apply after_refl|done]. }
  rewrite <-Es in *. assert (Hlen : (0 < length s)%nat) by (rewrite Es; simpl; lia).
  cbn [get_string_loop]. rewrite (proj2 (Z.leb_gt _ _)) by (unfold zlen; lia).
  set (n := Z.to_nat (Z.min (zlen s) (Z.of_nat kIoBufferSize))).
  pose proof kIoBufferSize_pos as Hpos.
  assert (Hn : (0 < n <= length s)%nat) by (unfold n, zlen; lia).
  rewrite <-(take_drop n s), <-app_assoc in Ha.
  assert (Hnl : length (take n s) = n) by (rewrite length_take; lia).
  destruct (get_spec _ _ r Hc Ha) as (r1 & E1 & Haf1 & Ha1). rewrite Hnl in E1. rewrite E1.
  replace (zlen s - Z.of_nat n) with (zlen (drop n s))
    by (unfold zlen; rewrite length_drop; lia).
  destruct (IH (acc ++ take n s) (drop n s) r1) as (r2 & E2 & Haf2 & Ha2);
    [apply Haf1|done|rewrite length_drop; lia|].
  exists r2. rewrite E2. rewrite <-app_assoc, take_drop. split_and!; [done| |done].
  rewrite <-(take_drop n s). by eapply after_trans.
Qed.

Lemma get_string_spec s rest r :
  clean r -> zlen s < 2 ^ 64 -> available r = (varint (zlen s) ++ s) ++ rest ->
  exists r', get_string r = (Some s, r') /\ after r (varint (zlen s) ++ s) r' /\
    available r' = rest.
Proof.
  intros Hc Hs Ha. rewrite <-app_assoc in Ha. unfold get_string.
  destruct (get_varint_spec (zlen s) (s ++ rest) r Hc) as (r1 & -> & Haf1 & Ha1);
    [pose proof (zlen_nonneg s); lia|done|].
  destruct (get_string_loop_spec (S (length (available r1))) [] s rest r1) as (r2 & -> & Haf2 & Ha2).
  - apply Haf1.
  - done.
  - rewrite Ha1, length_app. lia.
  - exists r2. split_and!; [done|by eapply after_trans|done].
Qed.

(** ** The records of a file *)

Definition encode_string (s : bytes) : bytes := varint (zlen s) ++ s.

Definition encode_entry (entry : bytes * bytes * Z) : bytes :=
  let '(key, value, expire_ms) := entry in
  (if 0 <=? expire_ms then [zb kOpExpireMs] ++ fixed expire_ms 8 else []) ++
  [zb kOpString] ++ encode_string key ++ encode_string value.

(** What fits the format: 64-bit lengths and a deadline that is an [int64_t]. *)
Definition entry_ok (entry : bytes * bytes * Z) : Prop :=
  let '(key, value, expire_ms) := entry in
  zlen key < 2 ^ 64 /\ zlen value < 2 ^ 64 /\ -1 <= expire_ms < 2 ^ 63.

Lemma read_strings_spec key value expire rest r :
  clean r -> zlen key < 2 ^ 64 -> zlen value < 2 ^ 64 ->
  available r = (encode_string key ++ encode_string value) ++ rest ->
  exists r', read_strings expire r = (RecEntry key value expire, r') /\
    after r (encode_string key ++ encode_string value) r' /\ available r' = rest.
Proof.
  intros Hc Hk Hv Ha. unfold read_strings. rewrite <-app_assoc in Ha.
  destruct (get_string_spec key _ r Hc Hk Ha) as (r1 & -> & Haf1 & Ha1).
  destruct (get_string_spec value rest r1 (after_clean _ _ _ Haf1) Hv Ha1)
    as (r2 & -> & Haf2 & Ha2).
  exists r2. split_and!; [done|by eapply after_trans|done].
Qed.

Lemma read_record_entry key value expire rest r :
  clean r -> entry_ok (key, value, expire) ->
  available r = encode_entry (key, value, expire) ++ rest ->
  exists r', read_record r = (RecEntry key value expire, r') /\
    after r (encode_entry (key, value, expire)) r' /\ available r' = rest.
Proof.
  intros Hc (Hk & Hv & He) Ha. unfold encode_entry in *. unfold read_record.
  destruct (Z.leb_spec 0 expire) as [Hpos|Hneg].
  - rewrite <-!app_assoc in Ha. simpl app in Ha.
    destruct (get_byte_spec _ _ r Hc Ha) as (r1 & -> & Haf1 & Ha1).
    change (bz (zb kOpExpireMs) =? kOpExpireMs) with true. cbv iota.
    assert (Hf : 0 <= expire < 256 ^ Z.of_nat 8) by (simpl; lia).
    destruct (get_fixed_spec expire 8 _ r1 (after_clean _ _ _ Haf1) Hf Ha1)
      as (r2 & -> & Haf2 & Ha2).
    destruct (get_byte_spec _ _ r2 (after_clean _ _ _ Haf2) Ha2) as (r3 & -> & Haf3 & Ha3).
    change (negb (bz (zb kOpString) =? kOpString)) with false. cbv zeta iota.
    unfold to_int64. rewrite (proj2 (Z.ltb_lt expire _)), (proj2 (Z.ltb_ge expire 0)) by lia.
    rewrite app_assoc in Ha3.
    destruct (read_strings_spec key value expire rest r3 (after_clean _ _ _ Haf3) Hk Hv Ha3)
      as (r4 & -> & Haf4 & Ha4).
    exists r4. split_and!; [done| |done]. rewrite <-app_assoc.
    eapply after_trans; [done|]. eapply after_trans; [done|]. by eapply after_trans.
  - assert (expire = -1) as -> by lia. rewrite app_nil_l, <-app_assoc in Ha. simpl app in Ha.
    destruct (get_byte_spec _ _ r Hc Ha) as (r1 & -> & Haf1 & Ha1).
    change (bz (zb kOpString) =? kOpExpireMs) with false.
    change (bz (zb kOpString) =? kOpEof) with false.
    change (negb (bz (zb kOpString) =? kOpString)) with false. cbv iota.
    destruct (read_strings_spec key value (-1) rest r1 (after_clean _ _ _ Haf1) Hk Hv Ha1)
      as (r2 & -> & Haf2 & Ha2).
    exists r2. split_and!; [done|rewrite app_nil_l; by eapply after_trans|done].
Qed.

Lemma read_record_eof rest r :
  clean r -> available r = zb kOpEof :: rest ->
  exists r', read_record r = (RecEof, r') /\ after r [zb kOpEof] r' /\ available r' = rest.
Proof.
  intros Hc Ha. unfold read_record.
  destruct (get_byte_spec _ _ r Hc Ha) as (r1 & -> & Haf1 & Ha1). by exists r1.
Qed.

Definition encode_entries (es : list (bytes * bytes * Z)) : bytes :=
  concat (encode_entry <$> es).

Definition load_entries (now : Z) (es : list (bytes * bytes * Z)) (store : KvStore) : KvStore :=
  foldl (fun store '(key, value, expire_ms) => load_entry now key value expire_ms store) store es.

Lemma load_loop_spec fuel now es rest r store :
  clean r -> Forall entry_ok es -> (length es <= fuel)%nat ->
  available r = encode_entries es ++ zb kOpEof :: rest ->
  exists r', load_loop fuel now r store = (None, r', load_entries now es store) /\
    after r (encode_entries es ++ [zb kOpEof]) r' /\ available r' = rest.
Proof.
  intros Hc Hok. revert fuel r store Hc.
  induction Hok as [|[[k v] x] es He Hok IH]; intros fuel r store Hc Hf Ha.
  { destruct (read_record_eof rest r Hc Ha) as (r' & E & H).
    exists r'. split; [|done]. by destruct fuel; simpl; rewrite E. }
  destruct fuel as [|fuel]; [simpl in Hf; lia|].
  unfold encode_entries in Ha. rewrite fmap_cons in Ha. simpl concat in Ha. rewrite <-app_assoc in Ha.
  destruct (read_record_entry k v x _ r Hc He Ha) as (r1 & E & Haf1 & Ha1).
  cbn [load_loop]. rewrite E.
  destruct (IH fuel r1 (load_entry now k v x store)) as (r2 & E2 & Haf2 & Ha2);
    [apply Haf1|simpl in Hf; lia|done|].
  exists r2. rewrite E2. split_and!; [done| |done].
  unfold encode_entries. rewrite fmap_cons. simpl concat. rewrite <-app_assoc.
  by eapply after_trans.
Qed.

(** A whole file: everything the checksum covers, then the checksum. *)
Definition file_body (es : list (bytes * bytes * Z)) : bytes :=
  kMagic ++ [zb kVersion] ++ encode_entries es ++ [zb kOpEof].

Definition file_of (es : list (bytes * bytes * Z)) : bytes :=
  file_body es ++ fixed (crc32_update 0 (file_body es)) 4.

Lemma encode_entry_nonempty e : (0 < length (encode_entry e))%nat.
Proof. destruct e as [[k v] x]. unfold encode_entry. rewrite !length_app. simpl. lia. Qed.

Lemma encode_entries_length es : (length es <= length (encode_entries es))%nat.
Proof.
  unfold encode_entries. induction es as [|e es IH]; [done|]. rewrite fmap_cons.
  simpl concat. rewrite length_app. pose proof (encode_entry_nonempty e). simpl. lia.
Qed.

Lemma at_eof_spec r : clean r -> (at_eof r).1 = bool_decide (available r = []).
Proof.
  intros Hc. unfold at_eof. destruct (rbuf_ r) as [|b s] eqn:Eb.
  - destruct (fill_spec r Hc Eb) as (_ & _ & _ & H & _). destruct (fill r) as [ok r'].
    simpl in *. rewrite H. by destruct (available r).
  - unfold available. by rewrite Eb.
Qed.

Lemma load_trailer_spec crc rest r :
  clean r -> rcrc_ r = crc -> in_u32 crc -> available r = fixed crc 4 ++ rest ->
  load_trailer r = None <-> rest = [].
Proof.
  intros Hc Hcrc Hr Ha. unfold load_trailer.
  destruct (get_fixed_spec crc 4 rest r Hc Hr Ha) as (r1 & -> & Haf & Ha1).
  rewrite Hcrc, Z.eqb_refl. simpl negb. cbv iota.
  pose proof (at_eof_spec r1 (after_clean _ _ _ Haf)) as He. rewrite Ha1 in He.
  destruct (at_eof r1) as [eof r2]. simpl in He. subst eof. by destruct rest.
Qed.

(** Loading what was written gives every entry to the store, and succeeds
    exactly when nothing follows. *)
Lemma load_from_spec es rest r store :
  clean r -> rcrc_ r = 0 -> Forall entry_ok es -> available r = file_of es ++ rest ->
  let '(now, store1) := Store.now_ms store in
  (load_from r store).2 = load_entries now es store1 /\
  ((load_from r store).1 = None <-> rest = []).
Proof.
  intros Hc Hcrc Hok Ha. destruct (Store.now_ms store) as [now store1] eqn:En.
  unfold file_of, file_body in Ha. rewrite <-!app_assoc in Ha.
  destruct (get_spec _ _ r Hc Ha) as (r1 & E1 & Haf1 & Ha1).
  destruct (get_byte_spec _ _ r1 (after_clean _ _ _ Haf1) Ha1) as (r2 & E2 & Haf2 & Ha2).
  assert (Hfuel : (length es <= length (available r2))%nat).
  { rewrite Ha2, length_app. pose proof (encode_entries_length es). lia. }
  destruct (load_loop_spec (length (available r2)) now es _ r2 store1
              (after_clean _ _ _ Haf2) Hok Hfuel Ha2) as (r3 & E3 & Haf3 & Ha3).
  assert (Hcrc3 : rcrc_ r3 = crc32_update 0 (file_body es)).
  { pose proof (after_trans _ _ _ _ _ Haf1 (after_trans _ _ _ _ _ Haf2 Haf3)) as Haf.
    rewrite (after_crc _ _ _ Haf), Hcrc. done. }
  unfold load_from. rewrite E1. rewrite bool_decide_true by done. simpl negb. cbv iota.
  rewrite E2. change (negb (bz (zb kVersion) =? kVersion)) with false. cbv iota.
  rewrite En, E3. split; [done|].
  apply (load_trailer_spec (crc32_update 0 (file_body es))).
  - apply Haf3.
  - done.
  - apply crc32_update_range, in_u32_0.
  - done.
Qed.

(** ** The writer: short writes and interruptions are invisible *)

Definition wclean (w : Writer) : Prop :=
  Forall (fun x => x <> WError) (wresults (wfd_ w)) /\ wok_ w = true.

(** What is in the file and what is still buffered. *)
Definition output (w : Writer) : bytes := contents (wfd_ w) ++ wbuf_ w.

Lemma write_all_loop_spec rs data n out :
  Forall (fun x => x <> WError) rs ->
  exists rs', write_all_loop rs data n out = ((n + length data)%nat, mkWFd (out ++ data) rs') /\
    Forall (fun x => x <> WError) rs'.
Proof.
  intros H. revert data n out. induction H as [|x rs Hx Hrs IH]; intros data n out.
  - destruct data as [|b data]; simpl.
    + exists []. by rewrite app_nil_r, Nat.add_0_r.
    + by exists [].
  - destruct data as [|b data].
    + exists (x :: rs). simpl. rewrite app_nil_r, Nat.add_0_r. split; [done|by constructor].
    + destruct x as [m| |]; [|by apply IH|done]. cbn [write_all_loop]. cbv zeta.
      set (m' := Nat.min m (length (b :: data))).
      destruct (IH (drop m' (b :: data)) (n + m')%nat (out ++ take m' (b :: data))) as (rs' & -> & ?).
      exists rs'. split; [|done]. rewrite <-app_assoc, take_drop, length_drop.
      f_equal. unfold m'. lia.
Qed.

(** What went out is a prefix of the data, as long as the count says; less
    than all of it only when a [write] failed. *)
Lemma write_all_prefix rs data n out :
  let '(m, fd) := write_all_loop rs data n out in
  exists k, m = (n + k)%nat /\ (k <= length data)%nat /\ contents fd = out ++ take k data.
Proof.
  revert data n out. induction rs as [|x rs IH]; intros data n out;
    (destruct data as [|b data]; [exists 0%nat; simpl; rewrite app_nil_r; split_and!; [lia|lia|done]|]).
  - exists (length (b :: data)). simpl contents. rewrite take_ge by done. split_and!; [done|done|done].
  - destruct x as [m| |]; [|apply IH|].
    + cbn [write_all_loop]. cbv zeta. set (m' := Nat.min m (length (b :: data))).
      specialize (IH (drop m' (b :: data)) (n + m')%nat (out ++ take m' (b :: data))).
      destruct (write_all_loop rs _ _ _) as [c fd]. destruct IH as (k & -> & Hk & ->).
      rewrite length_drop in Hk. exists (m' + k)%nat. split_and!; [lia|unfold m' in *; lia|].
      by rewrite <-take_take_drop, app_assoc.
    + exists 0%nat. simpl. rewrite app_nil_r. split_and!; [lia|lia|done].
Qed.

Lemma flush_spec w :
  wbuf_ (flush w).2 = [] /\ wcrc_ (flush w).2 = wcrc_ w /\ (flush w).1 = wok_ (flush w).2 /\
  (wok_ (flush w).2 = true -> wok_ w = true /\ output (flush w).2 = output w) /\
  (wclean w -> wclean (flush w).2).
Proof.
  unfold flush, write_all, wclean. destruct (wok_ w) eqn:Eok; [|by simpl].
  pose proof (write_all_prefix (wresults (wfd_ w)) (wbuf_ w) 0 (contents (wfd_ w))) as Hp.
  pose proof (write_all_loop_spec (wresults (wfd_ w)) (wbuf_ w) 0 (contents (wfd_ w))) as Hc.
  destruct (write_all_loop _ _ _ _) as [n fd]. destruct Hp as (k & -> & Hk & Hfd).
  simpl. split_and!; [done|done|done| |].
  - intros E. zbool. split; [done|]. unfold output. simpl.
    by rewrite Hfd, app_nil_r, take_ge by lia.
  - intros [Hrs _]. destruct (Hc Hrs) as (rs' & [= E ->] & Hrs'). simpl. split; [done|].
    simpl in E. by rewrite E, Nat.eqb_refl.
Qed.

(** [w'] is [w] after putting [s]: the checksum takes it in, and as long as
    no write has failed it is in the file or the buffer. *)
Record wrote (w : Writer) (s : bytes) (w' : Writer) : Prop := {
  wrote_crc : wcrc_ w' = crc32_update (wcrc_ w) s;
  wrote_ok : wok_ w' = true -> wok_ w = true /\ output w' = output w ++ s;
  wrote_clean : wclean w -> wclean w'
}.

Lemma put_spec s w : wrote w s (put s w).
Proof.
  unfold put. set (w1 := mkWriter _ _ _ _).
  assert (Hw1 : wrote w s w1)
    by (split; [done|intros; split; [done|unfold output; simpl; by rewrite app_assoc]|done]).
  destruct (_ <=? _)%nat; [|done].
  destruct (flush_spec w1) as (_ & F1 & _ & F2 & F3). destruct Hw1 as [A B C]. split.
  - by rewrite F1.
  - intros [H1 H2]%F2. rewrite H2. by apply B.
  - auto.
Qed.

Lemma wrote_trans w1 s1 w2 s2 w3 : wrote w1 s1 w2 -> wrote w2 s2 w3 -> wrote w1 (s1 ++ s2) w3.
Proof.
  intros [A1 A2 A3] [B1 B2 B3]. split; [by rewrite B1, A1, crc32_update_app| |by auto].
  intros [H2 E2]%B2. destruct (A2 H2) as [H1 E1]. split; [done|].
  by rewrite E2, E1, app_assoc.
Qed.

Lemma wrote_refl w : wrote w [] w.
Proof. split; [by rewrite crc32_update_nil|by rewrite app_nil_r|done]. Qed.

Lemma put_string_spec s w : wrote w (encode_string s) (put_string s w).
Proof.
  unfold put_string, put_varint, encode_string.
  eapply wrote_trans; [apply put_spec|]. apply put_spec.
Qed.

Definition skipped (now : Z) (entry : bytes * bytes * Z) : bool :=
  (0 <=? entry.2) && (entry.2 <=? now).

Lemma write_entry_spec now e w :
  wrote w (if skipped now e then [] else encode_entry e) (write_entry now w e).
Proof.
  destruct e as [[k v] x]. unfold write_entry, encode_entry, skipped. simpl snd.
  assert (Hrec : forall w,
    wrote w ([zb kOpString] ++ encode_string k ++ encode_string v)
      (put_string v (put_string k (put_byte kOpString w)))).
  { intros w0. eapply wrote_trans; [apply put_spec|].
    eapply wrote_trans; [apply put_string_spec|]. apply put_string_spec. }
  destruct (0 <=? x); simpl; [|by apply Hrec].
  destruct (x <=? now); [by apply wrote_refl|].
  apply (wrote_trans w [zb kOpExpireMs] (put_byte kOpExpireMs w)); [apply put_spec|].
  apply (wrote_trans _ (fixed x 8) (put_fixed x 8 (put_byte kOpExpireMs w))); [apply put_spec|].
  apply Hrec.
Qed.

Lemma write_entries_spec now es w :
  wrote w (encode_entries (filter (fun e => skipped now e = false) es)) (foldl (write_entry now) w es).
Proof.
  revert w. induction es as [|e es IH]; intros w; [by apply wrote_refl|].
  change (foldl (write_entry now) w (e :: es)) with (foldl (write_entry now) (write_entry now w e) es).
  pose proof (wrote_trans _ _ _ _ _ (write_entry_spec now e w) (IH (write_entry now w e))) as H.
  rewrite filter_cons. destruct (skipped now e) eqn:E.
  - by rewrite decide_False.
  - by rewrite decide_True.
Qed.

(** What [write_file] saves: the entries that have not expired. *)
Definition saved (store : KvStore) : list (bytes * bytes * Z) :=
  filter (fun e => skipped (Store.now_ms store).1 e = false) (Store.for_each store).

(** An answer of success means the whole file is there, whatever the writes
    did; and without write errors [write_file] succeeds. *)
Lemma write_file_spec opened synced closed rs store :
  let '(ok, file) := write_file opened synced closed rs store in
  (ok = true -> file = file_of (saved store)) /\
  (opened && synced && closed = true -> Forall (fun x => x <> WError) rs -> ok = true).
Proof.
  unfold write_file. destruct opened; [|by simpl]. simpl negb. cbv iota.
  set (w0 := mkWriter _ _ _ _). unfold write_records. cbv zeta. fold (saved store).
  pose proof (put_spec kMagic w0) as H1. pose proof (put_spec [zb kVersion] (put kMagic w0)) as H2.
  pose proof (write_entries_spec (Store.now_ms store).1 (Store.for_each store)
                (put [zb kVersion] (put kMagic w0))) as H3.
  unfold put_byte. revert H3.
  generalize (foldl (write_entry (Store.now_ms store).1) (put [zb kVersion] (put kMagic w0))
                (Store.for_each store)). intros w1 H3.
  pose proof (put_spec [zb kOpEof] w1) as H4.
  pose proof (wrote_trans _ _ _ _ _ H1 (wrote_trans _ _ _ _ _ H2 (wrote_trans _ _ _ _ _ H3 H4))) as H.
  change (kMagic ++ [zb kVersion] ++ encode_entries _ ++ [zb kOpEof])
    with (file_body (saved store)) in H.
  revert H. generalize (put [zb kOpEof] w1). intros w H. unfold put_fixed.
  pose proof (put_spec (fixed (wcrc_ w) 4) w) as H5.
  pose proof (wrote_trans _ _ _ _ _ H H5) as H6. rewrite (wrote_crc _ _ _ H) in H6 at 1.
  destruct (flush_spec (put (fixed (wcrc_ w) 4) w)) as (F1 & _ & F2 & F3 & F4).
  destruct (flush _) as [ok w']. cbn [fst snd] in *. subst ok. split.
  - intros (_ & [Hok _]%andb_true_iff)%andb_true_iff. destruct (F3 Hok) as [Hok' Eo].
    destruct (wrote_ok _ _ _ H6 Hok') as [_ E6]. rewrite E6 in Eo. unfold output in Eo at 1.
    rewrite F1, app_nil_r in Eo. rewrite Eo. done.
  - intros H7 Hrs. simpl in H7. apply andb_true_iff in H7 as [-> ->].
    rewrite andb_true_r. apply F4, H6. done.
Qed.

(** ** What loading does to the keyspace *)

Import Store.

(** The clock stands at [t]. *)
Definition frozen (t : Z) (s : KvStore) : Prop := forall i, clock s i = t.

Lemma frozen_reading t s : frozen t s -> reading s = t.
Proof. intros H. apply H. Qed.

Lemma refines_frozen t s s' out : refines s s' out -> frozen t s -> frozen t s'.
Proof. intros Hr Hf i. rewrite (config_clock _ _ (ref_config _ _ _ Hr)). apply Hf. Qed.

Lemma fresh_not_live t k ks :
  vals ks !! k = None -> ttls ks !! k = None -> live t k ks = None /\
  forall passive, spec_access passive t k true ks = ([], ks).
Proof.
  intros Hv Ht. unfold live, spec_access, expired. rewrite Ht, Hv. split; [done|].
  intros passive. by rewrite bool_decide_false, andb_false_r by by intros [].
Qed.

(** Loading an entry of a key not yet there. *)
Lemma load_entry_spec now k v x s :
  wf s -> frozen now s -> entries s !! k = None -> x < 0 \/ now < x ->
  let s' := load_entry now k v x s in
  wf s' /\ frozen now s' /\ vals (abstract s') = <[k := v]> (vals (abstract s)) /\
  ttls (abstract s') = (if 0 <=? x then <[k := x]> (ttls (abstract s)) else ttls (abstract s)).
Proof.
  intros W Hf Hk Hx. cbv zeta. unfold load_entry.
  rewrite (proj2 (andb_false_iff (0 <=? x) (x <=? now))) by lia.
  assert (Hv : vals (abstract s) !! k = None) by (rewrite vals_lookup, Hk; done).
  assert (Ht : ttls (abstract s) !! k = None) by by apply no_entry_no_deadline.
  pose proof (set_refines k v false s W) as Hs. rewrite (frozen_reading now) in Hs by done.
  unfold spec_set in Hs. destruct (fresh_not_live now k _ Hv Ht) as [_ Ha]. rewrite Ha in Hs.
  simpl andb in Hs. cbv iota in Hs.
  pose proof (refines_frozen _ _ _ _ Hs Hf) as Hf1. pose proof (ref_wf _ _ _ Hs) as W1.
  pose proof (ref_abstract _ _ _ Hs) as Ea. cbn [snd] in Ea. rewrite (delete_id _ _ Ht) in Ea.
  destruct (0 <=? x) eqn:Ex; [|split_and!; [done|done|by rewrite Ea|by rewrite Ea]].
  revert Hf1 W1 Ea. generalize (set k v false s). intros s1 Hf1 W1 Ea.
  clear Hs Ha. revert Hv Ht Ea. generalize (abstract s). intros ks Hv Ht Ea.
  destruct (set_expire_refines k x s1 W1) as [_ He].
  assert (Hr2 : reading (lookup k true s1).2 = now).
  { eapply frozen_reading, refines_frozen, Hf1. apply lookup_refines, W1. }
  rewrite Hr2, (frozen_reading now s1 Hf1) in He.
  pose proof (refines_frozen _ _ _ _ He Hf1) as Hf2. pose proof (ref_wf _ _ _ He) as W2.
  pose proof (ref_abstract _ _ _ He) as E2.
  unfold spec_set_expire, live, spec_access, expired in E2. rewrite Ea in E2. simpl in E2.
  rewrite Ht in E2. rewrite lookup_insert_eq in E2. simpl in E2.
  rewrite (proj2 (Z.leb_gt x now)) in E2 by zlia. simpl in E2.
  split_and!; [done|done|by rewrite E2|by rewrite E2].
Qed.

(** The entry [e] is among [es] and had not expired at [now]. *)
Definition kept (now : Z) (es : list (bytes * bytes * Z)) (k v : bytes) (x : Z) : Prop :=
  (k, v, x) ∈ es /\ skipped now (k, v, x) = false.

Definition key_of (e : bytes * bytes * Z) : bytes := e.1.1.

Lemma load_entries_snoc now es e s :
  load_entries now (es ++ [e]) s = load_entry now e.1.1 e.1.2 e.2 (load_entries now es s).
Proof. unfold load_entries. rewrite foldl_app. by destruct e as [[k v] x]. Qed.

Lemma load_entries_spec now es s :
  wf s -> frozen now s -> abstract s = mkKeySpace ∅ ∅ [] -> NoDup (key_of <$> es) ->
  let s' := load_entries now es s in
  wf s' /\ frozen now s' /\
  (forall k v, vals (abstract s') !! k = Some v <-> exists x, kept now es k v x) /\
  (forall k x, ttls (abstract s') !! k = Some x <-> 0 <= x /\ exists v, kept now es k v x).
Proof.
  intros W Hf Ha. cbv zeta. induction es as [|[[k v] x] es IH] using rev_ind; intros Hnd.
  { change (load_entries now [] s) with s. rewrite Ha. simpl. split_and!; [done|done| |]; intros; rewrite lookup_empty; split;
      try done; [intros (y & H & _)|intros (_ & y & H & _)]; by apply not_elem_of_nil in H. }
  rewrite fmap_app in Hnd. apply list.NoDup_app in Hnd as (Hnd & Hnew & _).
  destruct (IH Hnd) as (W' & Hf' & Hv & Ht). rewrite load_entries_snoc. cbn [fst snd].
  set (s' := load_entries now es s) in *.
  assert (Hk : k ∉ key_of <$> es) by (intros H; apply (Hnew _ H); set_solver).
  assert (Hmem : forall k' v' x', kept now (es ++ [(k, v, x)]) k' v' x' <->
    kept now es k' v' x' \/ (k', v', x') = (k, v, x) /\ skipped now (k, v, x) = false).
  { intros k' v' x'. unfold kept. rewrite elem_of_app, list_elem_of_singleton. naive_solver. }
  destruct (skipped now (k, v, x)) eqn:Es.
  { unfold load_entry. unfold skipped in Es. simpl snd in Es. rewrite Es.
    split_and!; [done|done| |]; intros; [rewrite Hv|rewrite Ht]; by setoid_rewrite Hmem; naive_solver. }
  assert (Hnone : entries s' !! k = None).
  { apply eq_None_not_Some. rewrite <-vals_is_Some. intros [v' (x' & Hin & _)%Hv].
    apply Hk. apply (list_elem_of_fmap_2 key_of) in Hin. done. }
  assert (Hx : x < 0 \/ now < x) by (unfold skipped in Es; simpl in Es; apply andb_false_iff in Es as [?|?]; zlia).
  destruct (load_entry_spec now k v x s' W' Hf' Hnone Hx) as (W2 & Hf2 & Ev & Et).
  assert (Hother : forall k' v' x', kept now es k' v' x' -> k <> k').
  { intros k' v' x' [Hin _] <-. apply Hk. by apply (list_elem_of_fmap_2 key_of) in Hin. }
  split_and!; [done|done| |].
  - intros k' v'. rewrite Ev. setoid_rewrite Hmem. rewrite lookup_insert_Some, Hv. naive_solver.
  - intros k' x'. rewrite Et. setoid_rewrite Hmem. destruct (Z.leb_spec 0 x).
    + rewrite lookup_insert_Some, Ht. naive_solver.
    + rewrite Ht. naive_solver lia.
Qed.

(** ** A longer file reads the same until its end *)

Record ext (q : bytes) (r rq : Reader) : Prop := {
  ext_clean : clean r;
  ext_clean' : clean rq;
  ext_available : available rq = available r ++ q;
  ext_crc : rcrc_ rq = rcrc_ r
}.

Lemma get_ext q len r rq s r' :
  ext q r rq -> Snapshot.get len r = (Some s, r') ->
  exists rq', Snapshot.get len rq = (Some s, rq') /\ ext q r' rq'.
Proof.
  intros [E1 E2 E3 E4] Hg.
  destruct (get_cases len r E1) as [(s0 & r0 & Hl & Hg' & Haf)|(_ & r0 & Hg' & _)];
    rewrite Hg' in Hg; [|done]. injection Hg as -> ->.
  rewrite (after_available _ _ _ Haf), <-app_assoc in E3.
  destruct (get_spec _ _ rq E2 E3) as (rq' & Hq & Hafq & Haq). rewrite Hl in Hq.
  exists rq'. split; [done|]. split; [apply Haf|apply Hafq|done|].
  by rewrite (after_crc _ _ _ Haf), (after_crc _ _ _ Hafq), E4.
Qed.

Lemma get_byte_ext q r rq b r' :
  ext q r rq -> get_byte r = (Some b, r') ->
  exists rq', get_byte rq = (Some b, rq') /\ ext q r' rq'.
Proof.
  intros He. unfold get_byte. destruct (Snapshot.get 1 r) as [[s|] r1] eqn:E; [|done].
  intros Hb. destruct (get_ext _ _ _ _ _ _ He E) as (rq' & -> & He').
  destruct s as [|c s]; [done|]. injection Hb as <- <-. by exists rq'.
Qed.

Lemma get_fixed_ext q n r rq v r' :
  ext q r rq -> get_fixed n r = (Some v, r') ->
  exists rq', get_fixed n rq = (Some v, rq') /\ ext q r' rq'.
Proof.
  intros He. unfold get_fixed. destruct (Snapshot.get n r) as [[s|] r1] eqn:E; [|done].
  intros [= <- <-]. destruct (get_ext _ _ _ _ _ _ He E) as (rq' & -> & He'). by exists rq'.
Qed.

Lemma get_varint_loop_ext q tries i v r rq x r' :
  ext q r rq -> get_varint_loop tries i v r = (Some x, r') ->
  exists rq', get_varint_loop tries i v rq = (Some x, rq') /\ ext q r' rq'.
Proof.
  revert i v r rq. induction tries as [|tries IH]; intros i v r rq He; simpl; [done|].
  destruct (get_byte r) as [[b|] r1] eqn:E; [|done].
  destruct (get_byte_ext _ _ _ _ _ He E) as (rq1 & -> & He1).
  destruct (_ =? 0); [|by apply IH]. intros [= <- <-]. by exists rq1.
Qed.

Lemma get_string_loop_ext q f f' len acc r rq x r' :
  ext q r rq -> (f <= f')%nat -> get_string_loop f len acc r = (Some x, r') ->
  exists rq', get_string_loop f' len acc rq = (Some x, rq') /\ ext q r' rq'.
Proof.
  revert f' len acc r rq. induction f as [|f IH]; intros f' len acc r rq He Hf.
  - simpl. destruct (len <=? 0) eqn:El; [|done]. intros [= <- <-]. exists rq.
    destruct f'; simpl; by rewrite El.
  - destruct f' as [|f']; [lia|]. cbn [get_string_loop].
    destruct (len <=? 0); [intros [= <- <-]; by exists rq|]. cbv zeta.
    destruct (Snapshot.get _ r) as [[c|] r1] eqn:E; [|done].
    destruct (get_ext _ _ _ _ _ _ He E) as (rq1 & -> & He1). apply IH; [done|lia].
Qed.

Lemma get_string_ext q r rq s r' :
  ext q r rq -> get_string r = (Some s, r') ->
  exists rq', get_string rq = (Some s, rq') /\ ext q r' rq'.
Proof.
  intros He. unfold get_string. destruct (get_varint r) as [[len|] r1] eqn:E; [|done].
  destruct (get_varint_loop_ext _ _ _ _ _ _ _ _ He E) as (rq1 & Eq & He1).
  unfold get_varint. rewrite Eq. apply get_string_loop_ext; [done|].
  rewrite (ext_available _ _ _ He1), length_app. lia.
Qed.

(** A record read, not an error. *)
Definition good (rec : record) : bool := match rec with RecError _ => false | _ => true end.

Lemma read_strings_ext q x r rq rec r' :
  ext q r rq -> read_strings x r = (rec, r') -> good rec = true ->
  exists rq', read_strings x rq = (rec, rq') /\ ext q r' rq'.
Proof.
  intros He. unfold read_strings. destruct (get_string r) as [[k|] r1] eqn:E1; [|by intros [= <- _]].
  destruct (get_string_ext _ _ _ _ _ He E1) as (rq1 & -> & He1).
  destruct (get_string r1) as [[v|] r2] eqn:E2; [|by intros [= <- _]].
  destruct (get_string_ext _ _ _ _ _ He1 E2) as (rq2 & -> & He2).
  intros [= <- <-] _. by exists rq2.
Qed.

Lemma read_record_ext q r rq rec r' :
  ext q r rq -> read_record r = (rec, r') -> good rec = true ->
  exists rq', read_record rq = (rec, rq') /\ ext q r' rq'.
Proof.
  intros He. unfold read_record. destruct (get_byte r) as [[op|] r1] eqn:E1; [|by intros [= <- _]].
  destruct (get_byte_ext _ _ _ _ _ He E1) as (rq1 & -> & He1).
  destruct (op =? kOpExpireMs).
  - destruct (get_fixed 8 r1) as [[raw|] r2] eqn:E2; [|by intros [= <- _]].
    destruct (get_fixed_ext _ _ _ _ _ _ He1 E2) as (rq2 & -> & He2).
    destruct (get_byte r2) as [[op'|] r3] eqn:E3; [|by intros [= <- _]].
    destruct (get_byte_ext _ _ _ _ _ He2 E3) as (rq3 & -> & He3). cbv zeta.
    destruct (_ <? 0); [by intros [= <- _]|].
    destruct (negb _); [by intros [= <- _]|]. by apply read_strings_ext.
  - destruct (op =? kOpEof); [intros [= <- <-] _; by exists rq1|].
    destruct (negb _); [by intros [= <- _]|]. by apply read_strings_ext.
Qed.

Lemma load_loop_ext q f f' now r rq s r' s' :
  ext q r rq -> (f <= f')%nat -> load_loop f now r s = (None, r', s') ->
  exists rq', load_loop f' now rq s = (None, rq', s') /\ ext q r' rq'.
Proof.
  revert f' r rq s. induction f as [|f IH]; intros f' r rq s He Hf; cbn [load_loop];
    destruct (read_record r) as [rec r1] eqn:E; destruct rec as [e| |k v x]; try done.
  1, 2: intros [= <- <-]; destruct (read_record_ext _ _ _ _ _ He E eq_refl) as (rq1 & Eq & He1);
    exists rq1; destruct f'; cbn [load_loop]; by rewrite Eq.
  destruct f' as [|f']; [lia|].
  destruct (read_record_ext _ _ _ _ _ He E eq_refl) as (rq1 & Eq & He1).
  intros Hl. cbn [load_loop]. rewrite Eq. eapply IH; [done|lia|done].
Qed.

Lemma load_trailer_ext q r rq :
  ext q r rq -> load_trailer r = None -> q <> [] -> load_trailer rq <> None.
Proof.
  intros He. unfold load_trailer. destruct (get_fixed 4 r) as [[v|] r1] eqn:E; [|done].
  destruct (get_fixed_ext _ _ _ _ _ _ He E) as (rq1 & -> & He1).
  rewrite (ext_crc _ _ _ He). destruct (negb _); [done|].
  pose proof (at_eof_spec rq1 (ext_clean' _ _ _ He1)) as Heof.
  rewrite (ext_available _ _ _ He1) in Heof. intros _ Hq.
  destruct (at_eof rq1) as [eof rq2]. simpl in Heof. subst eof.
  rewrite bool_decide_false; [done|]. intros [_ ?]%app_eq_nil. done.
Qed.

(** A file that loads does not load with anything after it. *)
Lemma load_from_ext q r rq s :
  ext q r rq -> q <> [] -> (load_from r s).1 = None -> (load_from rq s).1 <> None.
Proof.
  intros He Hq. unfold load_from.
  destruct (Snapshot.get (length kMagic) r) as [om r1] eqn:E1.
  destruct (bool_decide (om = Some kMagic)) eqn:Em; [|done].
  apply bool_decide_eq_true in Em as ->.
  destruct (get_ext _ _ _ _ _ _ He E1) as (rq1 & -> & He1). rewrite bool_decide_true by done.
  simpl negb. cbv iota. destruct (get_byte r1) as [[v|] r2] eqn:E2; [|done].
  destruct (get_byte_ext _ _ _ _ _ He1 E2) as (rq2 & -> & He2).
  destruct (negb _); [done|]. destruct (now_ms s) as [now s1].
  destruct (load_loop (length (available r2)) now r2 s1) as [[[e|] r3] s2] eqn:E3; [done|].
  assert (Hf : (length (available r2) <= length (available rq2))%nat)
    by (rewrite (ext_available _ _ _ He2), length_app; lia).
  destruct (load_loop_ext _ _ _ _ _ _ _ _ _ He2 Hf E3) as (rq3 & -> & He3).
  cbn [fst]. intros H. by eapply load_trailer_ext.
Qed.
End Snapshot.

Module SnapshotClaims.
Import Store Snapshot.

(** A keyspace whose sizes and deadlines fit the format. *)
Definition storable (ks : KeySpace) : Prop :=
  map_Forall (fun k v => zlen k < 2 ^ 64 /\ zlen v < 2 ^ 64) (vals ks) /\
  map_Forall (fun _ w => 0 <= w < 2 ^ 63) (ttls ks).

(** Whether [k] has not expired by [t]. *)
Definition alive (t : Z) (k : bytes) (ks : KeySpace) : bool := negb (expired t k ks).

Lemma saved_entries s k v x :
  wf s -> (k, v, x) ∈ Store.for_each s <->
  vals (abstract s) !! k = Some v /\ x = default (-1) (ttls (abstract s) !! k).
Proof.
  intros W. rewrite (for_each_perm s W), list_elem_of_fmap. split.
  - intros ([k' v'] & [= -> -> ->] & H%elem_of_map_to_list). done.
  - intros [Hv ->]. exists (k, v). split; [done|]. by apply elem_of_map_to_list.
Qed.

Lemma saved_ok s : wf s -> storable (abstract s) -> Forall entry_ok (saved s).
Proof.
  intros W [Hv Ht]. apply Forall_forall. intros [[k v] x] Hin%list_elem_of_In.
  apply list_elem_of_filter in Hin as [_ [Hk ->]%saved_entries]; [|done].
  destruct (Hv _ _ Hk). split_and!; [done|done| |];
    (destruct (ttls (abstract s) !! k) as [w|] eqn:E; [specialize (Ht _ _ E)|]; simpl in *; lia).
Qed.

Lemma saved_nodup s : wf s -> NoDup (key_of <$> saved s).
Proof.
  intros W. assert (H : NoDup (Store.for_each s)).
  { rewrite (for_each_perm s W). apply NoDup_fmap_2_strong; [|apply NoDup_map_to_list].
    intros [k v] [k' v'] _ _ [= -> -> _]. done. }
  apply NoDup_fmap_2_strong; [|by apply list.NoDup_filter].
  intros [[k v] x] [[k' v'] x'] [_ H1]%list_elem_of_filter [_ H2]%list_elem_of_filter Hk.
  apply saved_entries in H1 as [Hv ->], H2 as [Hv' ->]; [|done..].
  unfold key_of in Hk. simpl in Hk. congruence.
Qed.

Lemma kept_saved s t k v x :
  wf s -> storable (abstract s) ->
  kept t (saved s) k v x <->
  vals (abstract s) !! k = Some v /\ x = default (-1) (ttls (abstract s) !! k) /\
  alive (Z.max (reading s) t) k (abstract s) = true.
Proof.
  intros W [_ Ht]. unfold kept, saved, alive, expired. rewrite list_elem_of_filter, saved_entries by done.
  change (now_ms s).1 with (reading s). unfold skipped. simpl snd.
  destruct (ttls (abstract s) !! k) as [w|] eqn:E; simpl.
  - specialize (Ht _ _ E). simpl in Ht. split.
    + intros [[H1 [H2 ->]] H3]. split_and!; [done|done|]. simpl in H1, H3. lia.
    + intros (H1 & -> & H3). split_and!; [|done|done|]; simpl in *; lia.
  - split; [by intros [[H1 [H2 ->]] H3]|by intros (H1 & -> & _)].
Qed.

Lemma fresh_store_abstract max pol c rng :
  abstract (make (T := HashTable.HashTable) max pol c rng) = mkKeySpace ∅ ∅ [].
Proof. done. Qed.

Lemma load_saved s max pol t rng rs :
  wf s -> storable (abstract s) -> Forall (fun x => x <> RError) rs ->
  let '(res, s') := load (Opened (file_of (saved s)) rs) (make max pol (fun _ => t) rng) in
  res = kOk /\ wf s' /\
  forall k,
    let keep := alive (Z.max (reading s) t) k (abstract s) in
    vals (abstract s') !! k = (if keep then vals (abstract s) !! k else None) /\
    ttls (abstract s') !! k = (if keep then ttls (abstract s) !! k else None).
Proof.
  intros W Hst Hrs. unfold load. set (r := mkReader _ _ _ _). set (s0 := make _ _ _ _).
  pose proof (load_from_spec (saved s) [] r s0) as H. simpl now_ms in H. cbv iota in H.
  destruct H as [Hs Hr].
  { done. }
  { done. }
  { by apply saved_ok. }
  { by rewrite app_nil_r. }
  destruct (load_from r s0) as [err s']. cbn [fst snd] in Hs, Hr.
  rewrite (proj2 Hr eq_refl). subst s'.
  destruct (load_entries_spec t (saved s) (ticked s0)) as (W' & _ & Hv & Ht).
  - apply ticked_refines, make_wf.
  - by intros i.
  - done.
  - by apply saved_nodup.
  - split_and!; [done|exact W'|]. intros k. cbv zeta. split; apply option_eq; intros y.
    + etrans; [apply Hv|]. setoid_rewrite kept_saved; [|done..].
      destruct (alive _ _ _); naive_solver.
    + etrans; [apply Ht|]. setoid_rewrite kept_saved; [|done..].
      destruct Hst as [_ Hst].
      destruct (alive _ _ _) eqn:Ea; [|naive_solver].
      destruct (ttls (abstract s) !! k) as [w|] eqn:E; simpl.
      * specialize (Hst _ _ E). simpl in Hst. split.
        -- intros (_ & v & _ & -> & _). done.
        -- intros [= <-]. split; [lia|].
           destruct (wf_dom _ W k) as [e He]; [by exists w|].
           exists (value e). split_and!; [|done|done].
           exact (eq_trans (vals_lookup s k) (f_equal (fmap value) He)).
      * split; [intros (? & v & _ & -> & _); lia|done].
Qed.

(** C9: a snapshot written with success and loaded into a fresh store brings
    back exactly the keys that have expired neither when it was written nor
    when it is loaded, with their values and deadlines; how the system calls
    split or interrupt the transfer does not matter. *)
Theorem snapshot_round_trip max pol rng h opened synced closed ws file t rs :
  let s := (run (T := HashTable.HashTable) max pol rng h).2 in
  storable (abstract s) ->
  write_file opened synced closed ws s = (true, file) ->
  Forall (fun x => x <> RError) rs ->
  let '(res, s') := load (Opened file rs) (make max pol (fun _ => t) rng) in
  res = kOk /\
  forall k,
    let keep := alive (Z.max (reading s) t) k (abstract s) in
    vals (abstract s') !! k = (if keep then vals (abstract s) !! k else None) /\
    ttls (abstract s') !! k = (if keep then ttls (abstract s) !! k else None).
Proof.
  pose proof (store_run_invariant (T := HashTable.HashTable) max pol rng h) as H.
  destruct (run max pol rng h) as [res s]. destruct H as (W & _). cbv zeta. simpl snd.
  intros Hst Hw Hrs. pose proof (write_file_spec opened synced closed ws s) as Hf.
  rewrite Hw in Hf. destruct Hf as [-> _]; [|done].
  pose proof (load_saved s max pol t rng rs W Hst Hrs) as Hl.
  destruct (load _ _) as [r s']. destruct Hl as (? & _ & ?). done.
Qed.

Definition demo_history : list (Z * op) :=
  [(5, OSet &"a" &"1" false); (5, OSet &"b" &"2" false); (5, OSetExpire &"b" 100);
   (5, OSetExpire &"a" 10)].

Definition demo_store : KvStore := (run 0 kNoEviction [] demo_history).2.

Lemma demo_storable :
  storable (abstract (run (T := HashTable.HashTable) 0 kNoEviction [] demo_history).2).
Proof. unfold storable. apply (bool_decide_unpack _). by vm_compute. Qed.

Definition demo_file : bytes := (write_file true true true [Wrote 3; WIntr] demo_store).2.

Lemma snapshot_round_trip_witness :
  let '(res, s') := load (Opened demo_file [Got 7; RIntr]) (make 0 kNoEviction (fun _ => 20) []) in
  res = kOk /\
  forall k,
    let keep := alive (Z.max (reading demo_store) 20) k (abstract demo_store) in
    vals (abstract s') !! k = (if keep then vals (abstract demo_store) !! k else None) /\
    ttls (abstract s') !! k = (if keep then ttls (abstract demo_store) !! k else None).
Proof.
  apply (snapshot_round_trip 0 kNoEviction [] demo_history true true true [Wrote 3; WIntr] demo_file
           20 [Got 7; RIntr]).
  - exact demo_storable.
  - vm_compute. reflexivity.
  - repeat constructor; done.
Defined.

(** C34: a torn snapshot, any proper prefix of a complete file, is refused by
    the loader. *)
Theorem torn_snapshot_refused max pol rng h opened synced closed ws p q rs store :
  let s := (run (T := HashTable.HashTable) max pol rng h).2 in
  storable (abstract s) ->
  write_file opened synced closed ws s = (true, p ++ q) -> q <> [] ->
  Forall (fun x => x <> RError) rs ->
  exists e, (load (Opened p rs) store).1 = kError e.
Proof.
  pose proof (store_run_invariant (T := HashTable.HashTable) max pol rng h) as H.
  destruct (run max pol rng h) as [res s]. destruct H as (W & _). cbv zeta. simpl snd.
  intros Hst Hw Hq Hrs. pose proof (write_file_spec opened synced closed ws s) as Hf.
  rewrite Hw in Hf. destruct Hf as [Hf _]. specialize (Hf eq_refl).
  set (r := mkReader (mkRFd p rs) [] 0 false). set (rq := mkReader (mkRFd (p ++ q) rs) [] 0 false).
  assert (He : ext q r rq) by by split.
  pose proof (load_from_ext q r rq store He Hq) as Hx.
  pose proof (load_from_spec (saved s) [] rq store (ext_clean' _ _ _ He) eq_refl
                (saved_ok s W Hst)) as Hl.
  simpl now_ms in Hl. cbv iota in Hl. destruct Hl as [_ Hl].
  { rewrite app_nil_r. exact Hf. }
  unfold load. fold r. destruct (load_from r store) as [[e|] s']; [by exists e|].
  exfalso. apply Hx; [done|]. by apply Hl.
Qed.

Lemma torn_snapshot_refused_witness :
  exists e, (load (Opened (take 20 demo_file) []) (make 0 kNoEviction (fun _ => 20) [])).1 = kError e.
Proof.
  apply (torn_snapshot_refused 0 kNoEviction [] demo_history true true true [Wrote 3; WIntr]
           (take 20 demo_file) (drop 20 demo_file) []).
  - exact demo_storable.
  - rewrite take_drop. vm_compute. reflexivity.
  - by vm_compute.
  - constructor.
Defined.

(** RESTORE of a DUMP payload gives the value back. *)
Theorem dump_restore_round_trip value :
  zlen value < 2 ^ 64 -> restore_value (dump_value value) = Some value.
Proof. apply restore_dump. Qed.

Lemma dump_restore_round_trip_witness :
  restore_value (dump_value &"hello") = Some &"hello".
Proof. apply dump_restore_round_trip. by vm_compute. Defined.

(** A DUMP payload with any one byte changed is refused. *)
Theorem damaged_payload_refused value p b b' q :
  dump_value value = p ++ b :: q -> b <> b' -> restore_value (p ++ b' :: q) = None.
Proof. apply restore_damaged. Qed.

Lemma damaged_payload_refused_witness :
  restore_value (take 3 (dump_value &"hello") ++ x00 :: drop 4 (dump_value &"hello")) = None.
Proof.
  apply (damaged_payload_refused &"hello" _ "e"%byte); [by vm_compute|done].
Defined.

End SnapshotClaims.
