(* ===== verification/Dispatcher.v ===== *)
(** * Command semantics (src/command_dispatcher.cpp, include/command_dispatcher.hpp)

    Routing of a parsed command to its handler, the checks in front of it and
    every handler.  [Env] is what a command sees: the store, the other
    components, the commands propagated so far, the sending client and the
    output buffer.

    The components the dispatcher calls through pointers (persistence,
    replication, cluster, and the blocking exchange of MIGRATE) are the class
    [Services]: a record of the operations the dispatcher uses.  The
    propagator is the list [log] of its calls; the deletion listener of the
    store feeds the same propagator, so keys the store reports as deleted
    appear in [log] as DEL commands, before whatever the handler propagates
    afterwards. *)

From S2P Require Import Prelude Resp Slots HashTable Store Snapshot.

Abbreviation Args := (list bytes).

(** The part of a connection commands look at. *)
Record Client := mkClient {
  client_id : Z;
  asking : bool;
  readonly : bool;
  is_master : bool;
  repl_listening_port : Z
}.

Definition with_asking (c : Client) (b : bool) : Client :=
  mkClient (client_id c) b (readonly c) (is_master c) (repl_listening_port c).
Definition with_readonly (c : Client) (b : bool) : Client :=
  mkClient (client_id c) (asking c) b (is_master c) (repl_listening_port c).
Definition with_port (c : Client) (p : Z) : Client :=
  mkClient (client_id c) (asking c) (readonly c) (is_master c) p.

Inductive RewriteStart := kStarted | kScheduled | kError (err : bytes).

(** ** What the dispatcher calls

    [W] is the state of the other components.  An operation that may touch
    the keyspace takes and returns the store; an operation that writes a
    reply appends to the given output. *)
Class Services (W : Type) := {
  has_persistence : W -> bool;
  persistence_loading : W -> bool;
  write_error : W -> bytes;
  svc_save : W -> KvStore -> option bytes * W;
  svc_bgsave : W -> KvStore -> option bytes * W;
  svc_bgrewriteaof : W -> KvStore -> RewriteStart * W;
  svc_lastsave : W -> Z;
  svc_count_change : W -> W;
  log_wanted : W -> bool;
  has_replication : W -> bool;
  is_replica : W -> bool;
  svc_replicaof_no_one : W -> KvStore -> W * KvStore;
  svc_replicaof : bytes -> Z -> W -> KvStore -> W * KvStore;
  svc_replconf_ack : Client -> Z -> W -> W;
  svc_replconf_getack : W -> W;
  svc_psync : Client -> bytes -> Z -> bytes -> W -> bytes * W;
  svc_wait : Client -> Z -> Z -> bytes -> W -> bytes * W;
  svc_info : W -> bytes;
  has_cluster : W -> bool;
  svc_route : list bytes -> bool -> bool -> Client -> W -> KvStore -> option bytes * W * KvStore;
  svc_cluster_command : Args -> bytes -> W -> KvStore -> bytes * W * KvStore;
  svc_exchange : bytes -> Z -> bytes -> nat -> Z -> W -> list bytes * option bytes * W
}.

Module Dispatcher.

Definition kErrNotInteger : bytes := &"ERR value is not an integer or out of range".
Definition kErrIncrOverflow : bytes := &"ERR increment or decrement would overflow".
Definition kErrSyntax : bytes := &"ERR syntax error".
Definition kErrOom : bytes := &"OOM command not allowed when used memory > 'maxmemory'.".
Definition kErrNoPersistence : bytes := &"ERR persistence is not enabled on this server".
Definition kErrNoReplication : bytes := &"ERR replication is not available here".
Definition kErrReadOnly : bytes := &"READONLY You can't write against a read only replica.".

Definition sanitize_for_error (s : bytes) : bytes :=
  (fun c => if (bz c =? 13) || (bz c =? 10) then " "%byte else c) <$> s.

Definition parse_int64 (s : bytes) : option Z := from_chars_all true int64_min int64_max s.

Definition parse_canonical_int64 (s : bytes) : option Z :=
  match parse_int64 s with
  | Some v => if beq (to_string v) s then Some v else None
  | None => None
  end.

Definition deadline_from (now amount unit_ms : Z) : option Z :=
  match mul_overflow amount unit_ms with
  | Some delta => add_overflow now delta
  | None => None
  end.

(** [argv[i]]; the arity of each command is checked before its handler runs. *)
Definition arg (argv : Args) (i : nat) : bytes := nth i argv [].

Section dispatcher.
Context {W : Type} `{SV : Services W}.

Record Env := mkEnv {
  store : KvStore;
  world : W;
  log : list Args;
  client_ : option Client;
  out : bytes
}.

(** ** Effects *)

Definition with_out (e : Env) (o : bytes) : Env :=
  mkEnv (store e) (world e) (log e) (client_ e) o.
Definition with_world (e : Env) (w : W) : Env :=
  mkEnv (store e) w (log e) (client_ e) (out e).
Definition with_client (e : Env) (c : option Client) : Env :=
  mkEnv (store e) (world e) (log e) c (out e).

(** Installing a store after an operation on it: the keys it reported as
    deleted meanwhile have gone through the deletion listener. *)
Definition with_store (e : Env) (s : KvStore) : Env :=
  let reported := drop (length (Store.notified_ (store e))) (Store.notified_ s) in
  mkEnv s (world e) (log e ++ ((fun k => [&"DEL"; k]) <$> reported)) (client_ e) (out e).

Definition on_store {A} (f : KvStore -> A * KvStore) (e : Env) : A * Env :=
  let '(a, s) := f (store e) in (a, with_store e s).

Definition propagate (argv : Args) (e : Env) : Env :=
  mkEnv (store e) (world e) (log e ++ [argv]) (client_ e) (out e).

Definition count_unlogged_write (e : Env) : Env :=
  if has_persistence (world e) then with_world e (svc_count_change (world e)) else e.

Definition propagate_built (argv : Args) (e : Env) : Env :=
  if log_wanted (world e) then propagate argv e else count_unlogged_write e.

Definition reply_error (msg : bytes) (e : Env) : Env := with_out e (Reply.error (out e) msg).
Definition reply_simple (s : bytes) (e : Env) : Env := with_out e (Reply.simple_string (out e) s).
Definition reply_integer (n : Z) (e : Env) : Env := with_out e (Reply.integer (out e) n).
Definition reply_bulk (s : bytes) (e : Env) : Env := with_out e (Reply.bulk_string (out e) s).
Definition reply_null (e : Env) : Env := with_out e (Reply.null_bulk (out e)).

Definition loading (e : Env) : bool := has_persistence (world e) && persistence_loading (world e).

Definition now_ms (e : Env) : Z * Env := on_store Store.now_ms e.

(** ** Handlers: basic commands *)

Definition cmd_ping (argv : Args) (e : Env) : Env :=
  if (length argv =? 1)%nat then reply_simple &"PONG" e
  else if (length argv =? 2)%nat then reply_bulk (arg argv 1) e
  else reply_error &"ERR wrong number of arguments for 'ping' command" e.

Definition cmd_echo (argv : Args) (e : Env) : Env := reply_bulk (arg argv 1) e.

Record SetOptions := mkSetOptions {
  nx : bool;
  xx : bool;
  keep_ttl : bool;
  expire_at : option Z
}.

Definition is_time_option (opt : bytes) : bool :=
  beq opt &"EX" || beq opt &"PX" || beq opt &"EXAT" || beq opt &"PXAT".

(** The option loop of [cmd_set]; an error is the reply to give. *)
Fixpoint set_options (args : Args) (o : SetOptions) (e : Env) : (bytes + SetOptions) * Env :=
  match args with
  | [] => (inr o, e)
  | a :: args =>
      let opt := to_upper a in
      if beq opt &"NX" && negb (xx o)
      then set_options args (mkSetOptions true (xx o) (keep_ttl o) (expire_at o)) e
      else if beq opt &"XX" && negb (nx o)
      then set_options args (mkSetOptions (nx o) true (keep_ttl o) (expire_at o)) e
      else if beq opt &"KEEPTTL" && bool_decide (expire_at o = None)
      then set_options args (mkSetOptions (nx o) (xx o) true (expire_at o)) e
      else if is_time_option opt && negb (keep_ttl o) && bool_decide (expire_at o = None)
      then
        match args with
        | [] => (inl kErrSyntax, e)
        | a :: args =>
            match parse_int64 a with
            | None => (inl kErrNotInteger, e)
            | Some amount =>
                let relative := beq opt &"EX" || beq opt &"PX" in
                let unit_ms := if beq opt &"EX" || beq opt &"EXAT" then 1000 else 1 in
                let '(when_, e) :=
                  if 0 <? amount then
                    let '(now, e) := if relative then now_ms e else (0, e) in
                    (deadline_from now amount unit_ms, e)
                  else (None, e) in
                match when_ with
                | None => (inl &"ERR invalid expire time in 'set' command", e)
                | Some w => set_options args (mkSetOptions (nx o) (xx o) (keep_ttl o) (Some w)) e
                end
            end
        end
      else (inl kErrSyntax, e)
  end.

(** The command a SET is logged as. *)
Definition logged_set (key value : bytes) (expire_at : option Z) (keep_ttl : bool) : Args :=
  [&"SET"; key; value] ++
  match expire_at with
  | Some w => [&"PXAT"; to_string w]
  | None => if keep_ttl then [&"KEEPTTL"] else []
  end.

Definition put_key (key value : bytes) (keep : bool) (expire_at : option Z) (e : Env) : Env :=
  let e := with_store e (Store.set key value keep (store e)) in
  match expire_at with
  | Some w => (on_store (Store.set_expire key w) e).2
  | None => e
  end.

Definition cmd_set (argv : Args) (e : Env) : Env :=
  let '(r, e) := set_options (drop 3 argv) (mkSetOptions false false false None) e in
  match r with
  | inl err => reply_error err e
  | inr o =>
      let '(blocked, e) :=
        if nx o || xx o then
          let '(ex, e) := on_store (Store.exists_ (arg argv 1)) e in
          ((nx o && ex) || (xx o && negb ex), e)
        else (false, e) in
      if blocked then reply_null e
      else
        let e := put_key (arg argv 1) (arg argv 2) (keep_ttl o) (expire_at o) e in
        let e := propagate_built
                   (logged_set (arg argv 1) (arg argv 2) (expire_at o) (keep_ttl o)) e in
        reply_simple &"OK" e
  end.

Definition cmd_get (argv : Args) (e : Env) : Env :=
  let '(v, e) := on_store (Store.get (arg argv 1)) e in
  match v with Some v => reply_bulk v e | None => reply_null e end.

(** Applies [f] to each key and counts the answers. *)
Fixpoint count_keys (f : bytes -> KvStore -> bool * KvStore) (keys : list bytes) (n : Z) (e : Env)
  : Z * Env :=
  match keys with
  | [] => (n, e)
  | k :: keys =>
      let '(b, e) := on_store (f k) e in
      count_keys f keys (if (b : bool) then n + 1 else n) e
  end.

Definition cmd_del (argv : Args) (e : Env) : Env :=
  let '(removed, e) := count_keys Store.del (drop 1 argv) 0 e in
  let e := if 0 <? removed then propagate argv e else e in
  reply_integer removed e.

Definition cmd_exists (argv : Args) (e : Env) : Env :=
  let '(found, e) := count_keys Store.exists_ (drop 1 argv) 0 e in
  reply_integer found e.

Definition incr_by (key : bytes) (delta : Z) (e : Env) : Env :=
  let '(current, e) := on_store (Store.get key) e in
  match (match current with Some c => parse_canonical_int64 c | None => Some 0 end) with
  | None => reply_error kErrNotInteger e
  | Some value =>
      match add_overflow value delta with
      | None => reply_error kErrIncrOverflow e
      | Some value =>
          let text := to_string value in
          let e := with_store e (Store.set key text true (store e)) in
          let e := propagate_built [&"SET"; key; text; &"KEEPTTL"] e in
          reply_integer value e
      end
  end.

Definition cmd_incr (argv : Args) (e : Env) : Env := incr_by (arg argv 1) 1 e.
Definition cmd_decr (argv : Args) (e : Env) : Env := incr_by (arg argv 1) (-1) e.

Definition cmd_incrby (argv : Args) (e : Env) : Env :=
  match parse_int64 (arg argv 2) with
  | None => reply_error kErrNotInteger e
  | Some delta => incr_by (arg argv 1) delta e
  end.

Definition cmd_decrby (argv : Args) (e : Env) : Env :=
  match parse_int64 (arg argv 2) with
  | None => reply_error kErrNotInteger e
  | Some delta =>
      if delta =? int64_min then reply_error &"ERR decrement would overflow" e
      else incr_by (arg argv 1) (- delta) e
  end.

Definition expire_generic (argv : Args) (unit_ms : Z) (relative : bool) (name : bytes) (e : Env)
  : Env :=
  match parse_int64 (arg argv 2) with
  | None => reply_error kErrNotInteger e
  | Some amount =>
      let '(now, e) := now_ms e in
      match deadline_from (if relative then now else 0) amount unit_ms with
      | None => reply_error (&"ERR invalid expire time in '" ++ name ++ &"' command") e
      | Some w =>
          let '(ok, e) := on_store (Store.set_expire (arg argv 1) w) e in
          if negb ok then reply_integer 0 e
          else
            let e := propagate_built
                       (if w <=? now then [&"DEL"; arg argv 1]
                        else [&"PEXPIREAT"; arg argv 1; to_string w]) e in
            reply_integer 1 e
      end
  end.

Definition cmd_expire (argv : Args) : Env -> Env := expire_generic argv 1000 true &"expire".
Definition cmd_pexpire (argv : Args) : Env -> Env := expire_generic argv 1 true &"pexpire".
Definition cmd_expireat (argv : Args) : Env -> Env := expire_generic argv 1000 false &"expireat".
Definition cmd_pexpireat (argv : Args) : Env -> Env := expire_generic argv 1 false &"pexpireat".

Definition cmd_ttl (argv : Args) (e : Env) : Env :=
  let '(ms, e) := on_store (Store.pttl (arg argv 1)) e in
  reply_integer (if ms <? 0 then ms else Z.quot (ms + 500) 1000) e.

Definition cmd_pttl (argv : Args) (e : Env) : Env :=
  let '(ms, e) := on_store (Store.pttl (arg argv 1)) e in reply_integer ms e.

Definition cmd_persist (argv : Args) (e : Env) : Env :=
  let '(ok, e) := on_store (Store.persist (arg argv 1)) e in
  if negb ok then reply_integer 0 e else reply_integer 1 (propagate argv e).

Definition cmd_dbsize (argv : Args) (e : Env) : Env :=
  reply_integer (Z.of_nat (Store.size (store e))) e.

(** ** Handlers: persistence and replication *)

Definition cmd_save (argv : Args) (e : Env) : Env :=
  if negb (has_persistence (world e)) then reply_error kErrNoPersistence e
  else
    let '(err, w) := svc_save (world e) (store e) in
    let e := with_world e w in
    match err with None => reply_simple &"OK" e | Some err => reply_error err e end.

Definition cmd_bgsave (argv : Args) (e : Env) : Env :=
  if negb (has_persistence (world e)) then reply_error kErrNoPersistence e
  else
    let '(err, w) := svc_bgsave (world e) (store e) in
    let e := with_world e w in
    match err with
    | None => reply_simple &"Background saving started" e
    | Some err => reply_error err e
    end.

Definition cmd_bgrewriteaof (argv : Args) (e : Env) : Env :=
  if negb (has_persistence (world e)) then reply_error kErrNoPersistence e
  else
    let '(r, w) := svc_bgrewriteaof (world e) (store e) in
    let e := with_world e w in
    match r with
    | kStarted => reply_simple &"Background append only file rewriting started" e
    | kScheduled => reply_simple &"Background append only file rewriting scheduled" e
    | kError err => reply_error err e
    end.

Definition cmd_lastsave (argv : Args) (e : Env) : Env :=
  if negb (has_persistence (world e)) then reply_error kErrNoPersistence e
  else reply_integer (svc_lastsave (world e)) e.

Definition cmd_replicaof (argv : Args) (e : Env) : Env :=
  if negb (has_replication (world e)) then reply_error kErrNoReplication e
  else if has_cluster (world e)
  then reply_error &"ERR REPLICAOF not allowed in cluster mode." e
  else if beq (to_upper (arg argv 1)) &"NO" && beq (to_upper (arg argv 2)) &"ONE" then
    let '(w, s) := svc_replicaof_no_one (world e) (store e) in
    reply_simple &"OK" (with_store (with_world e w) s)
  else
    match parse_int64 (arg argv 2) with
    | Some port =>
        if (port <=? 0) || (65535 <? port) then reply_error &"ERR Invalid master port" e
        else
          let '(w, s) := svc_replicaof (arg argv 1) port (world e) (store e) in
          reply_simple &"OK" (with_store (with_world e w) s)
    | None => reply_error &"ERR Invalid master port" e
    end.

(** The option loop of [cmd_replconf] over the arguments after the name. *)
Fixpoint replconf_loop (args : Args) (e : Env) : Env :=
  match args with
  | a :: v :: args =>
      let opt := to_upper a in
      if beq opt &"LISTENING-PORT" then
        match parse_int64 v with
        | Some port =>
            if (port <=? 0) || (65535 <? port) then reply_error &"ERR Invalid listening port" e
            else replconf_loop args (with_client e ((fun c => with_port c port) <$> client_ e))
        | None => reply_error &"ERR Invalid listening port" e
        end
      else if beq opt &"CAPA" then replconf_loop args e
      else if beq opt &"ACK" then
        match client_ e, parse_int64 v with
        | Some c, Some offset =>
            if has_replication (world e) && (0 <=? offset)
            then with_world e (svc_replconf_ack c offset (world e)) else e
        | _, _ => e
        end
      else if beq opt &"GETACK" then
        match client_ e with
        | Some c => if has_replication (world e) && is_master c
                    then with_world e (svc_replconf_getack (world e)) else e
        | None => e
        end
      else reply_error (&"ERR Unrecognized REPLCONF option: " ++ sanitize_for_error a) e
  | _ => reply_simple &"OK" e
  end.

Definition cmd_replconf (argv : Args) (e : Env) : Env :=
  if Nat.even (length argv) then reply_error kErrSyntax e else replconf_loop (drop 1 argv) e.

Definition cmd_psync (argv : Args) (e : Env) : Env :=
  match client_ e with
  | Some c =>
      if negb (has_replication (world e)) then reply_error kErrNoReplication e
      else
        match parse_int64 (arg argv 2) with
        | None => reply_error kErrNotInteger e
        | Some offset =>
            let '(o, w) := svc_psync c (arg argv 1) offset (out e) (world e) in
            with_out (with_world e w) o
        end
  | None => reply_error kErrNoReplication e
  end.

Definition cmd_wait (argv : Args) (e : Env) : Env :=
  match client_ e with
  | Some c =>
      if negb (has_replication (world e)) then reply_error kErrNoReplication e
      else
        match parse_int64 (arg argv 1), parse_int64 (arg argv 2) with
        | Some numreplicas, Some timeout =>
            if timeout <? 0 then reply_error &"ERR timeout is negative" e
            else
              let '(o, w) := svc_wait c numreplicas timeout (out e) (world e) in
              with_out (with_world e w) o
        | _, _ => reply_error kErrNotInteger e
        end
  | None => reply_error kErrNoReplication e
  end.

Definition cmd_info (argv : Args) (e : Env) : Env :=
  let sections := to_upper <$> drop 1 argv in
  let named s := existsb (beq s) sections in
  let all := (length argv =? 1)%nat || named &"ALL" || named &"DEFAULT" || named &"EVERYTHING" in
  let text := if (all || named &"REPLICATION") && has_replication (world e)
              then svc_info (world e) else [] in
  let text :=
    if all || named &"CLUSTER" then
      text ++ (if bool_decide (text = []) then [] else crlf) ++
      &"# Cluster" ++ crlf ++ &"cluster_enabled:" ++
      (if has_cluster (world e) then &"1" else &"0") ++ crlf
    else text in
  reply_bulk text e.

(** ** Handlers: moving keys *)

Definition cmd_dump (argv : Args) (e : Env) : Env :=
  let '(v, e) := on_store (Store.get (arg argv 1)) e in
  match v with Some v => reply_bulk (Snapshot.dump_value v) e | None => reply_null e end.

(** The options of RESTORE: REPLACE and ABSTTL; [None] on anything else. *)
Fixpoint restore_options (args : Args) (replace absttl : bool) : option (bool * bool) :=
  match args with
  | [] => Some (replace, absttl)
  | a :: args =>
      let opt := to_upper a in
      if beq opt &"REPLACE" then restore_options args true absttl
      else if beq opt &"ABSTTL" then restore_options args replace true
      else None
  end.

Definition restore_deadline (ttl now : Z) (absttl : bool) : option Z :=
  if 0 <? ttl then
    Some (if absttl then ttl else default int64_max (deadline_from now ttl 1))
  else None.

Definition restore_key (key value : bytes) (ttl : Z) (absttl : bool) (e : Env) : Env :=
  let '(now, e) := now_ms e in
  let expire_at := restore_deadline ttl now absttl in
  let expired := match expire_at with Some w => w <=? now | None => false end in
  if expired then
    let '(deleted, e) := on_store (Store.del key) e in
    let e := if (deleted : bool) then propagate [&"DEL"; key] e else e in
    reply_simple &"OK" e
  else
    let e := put_key key value false expire_at e in
    let e := propagate_built (logged_set key value expire_at false) e in
    reply_simple &"OK" e.

Definition cmd_restore (argv : Args) (e : Env) : Env :=
  match restore_options (drop 4 argv) false false with
  | None => reply_error kErrSyntax e
  | Some (replace, absttl) =>
      match parse_int64 (arg argv 2) with
      | Some ttl =>
          if ttl <? 0 then reply_error &"ERR Invalid TTL value, must be >= 0" e
          else
            let key := arg argv 1 in
            let '(busy, e) := if replace then (false, e) else on_store (Store.exists_ key) e in
            if (busy : bool) then reply_error &"BUSYKEY Target key name already exists." e
            else
              match Snapshot.restore_value (arg argv 3) with
              | None => reply_error &"ERR DUMP payload version or checksum are wrong" e
              | Some value => restore_key key value ttl absttl e
              end
      | None => reply_error &"ERR Invalid TTL value, must be >= 0" e
      end
  end.

(** The options of MIGRATE: COPY, REPLACE and the keys after KEYS. *)
Fixpoint migrate_options (args : Args) (single : bytes) (copy replace : bool)
  : bytes + bool * bool * list bytes :=
  match args with
  | [] => inr (copy, replace, [])
  | a :: args =>
      let opt := to_upper a in
      if beq opt &"COPY" then migrate_options args single true replace
      else if beq opt &"REPLACE" then migrate_options args single copy true
      else if beq opt &"KEYS" then
        if bool_decide (single = []) then inr (copy, replace, args)
        else inl &"ERR When using MIGRATE KEYS option, the key argument must be set to the empty string"
      else inl kErrSyntax
  end.

(** The pipelined request, and the keys in it.  The code keeps a pointer to the
    value across [pttl]; where the key expires in between, [pttl] frees the value
    and the code reads freed memory.  Here the value is the one [get] found. *)
Fixpoint migrate_collect (keys : list bytes) (replace : bool) (request : bytes) (sent : list bytes)
  (e : Env) : bytes * list bytes * Env :=
  match keys with
  | [] => (request, sent, e)
  | key :: keys =>
      let '(value, e) := on_store (Store.get key) e in
      match value with
      | None => migrate_collect keys replace request sent e
      | Some value =>
          let '(pttl, e) := on_store (Store.pttl key) e in
          let restore := [&"RESTORE-ASKING"; key; to_string (if 0 <? pttl then pttl else 0);
                          Snapshot.dump_value value] ++ (if replace then [&"REPLACE"] else []) in
          migrate_collect keys replace (Reply.command request restore) (sent ++ [key]) e
      end
  end.

(** Deleting what the target confirmed: the first error and the keys deleted. *)
Fixpoint migrate_confirm (replies sent : list bytes) (copy : bool) (target_error : bytes)
  (deleted : list bytes) (e : Env) : bytes * list bytes * Env :=
  match replies, sent with
  | r :: replies, key :: sent =>
      match r with
      | c :: msg =>
          if bz c =? 45 then
            migrate_confirm replies sent copy
              (if bool_decide (target_error = []) then msg else target_error) deleted e
          else if copy then migrate_confirm replies sent copy target_error deleted e
          else
            let '(b, e) := on_store (Store.del key) e in
            migrate_confirm replies sent copy target_error
              (if (b : bool) then deleted ++ [key] else deleted) e
      | [] =>
          if copy then migrate_confirm replies sent copy target_error deleted e
          else
            let '(b, e) := on_store (Store.del key) e in
            migrate_confirm replies sent copy target_error
              (if (b : bool) then deleted ++ [key] else deleted) e
      end
  | _, _ => (target_error, deleted, e)
  end.

Definition migrate_keys (host : bytes) (port timeout : Z) (copy replace : bool) (keys : list bytes)
  (e : Env) : Env :=
  let '(request, sent, e) := migrate_collect keys replace [] [] e in
  if bool_decide (sent = []) then reply_simple &"NOKEY" e
  else
    let '(replies, io_error, w) :=
      svc_exchange host port request (length sent) (if 0 <? timeout then timeout else 1000)
        (world e) in
    let e := with_world e w in
    let '(target_error, deleted, e) := migrate_confirm replies sent copy [] [] e in
    let e := if bool_decide (deleted = []) then e else propagate (&"DEL" :: deleted) e in
    match io_error with
    | Some err => reply_error err e
    | None =>
        if bool_decide (target_error = []) then reply_simple &"OK" e
        else reply_error
               (&"ERR Target instance replied with error: " ++ sanitize_for_error target_error) e
    end.

Definition cmd_migrate (argv : Args) (e : Env) : Env :=
  match parse_int64 (arg argv 2), parse_int64 (arg argv 4), parse_int64 (arg argv 5) with
  | Some port, Some db, Some timeout =>
      if (port <=? 0) || (65535 <? port) then reply_error kErrNotInteger e
      else if negb (db =? 0) then reply_error &"ERR DB index is out of range" e
      else
        match migrate_options (drop 6 argv) (arg argv 3) false false with
        | inl err => reply_error err e
        | inr (copy, replace, keys) =>
            let keys := if bool_decide (keys = []) then [arg argv 3] else keys in
            migrate_keys (arg argv 1) port timeout copy replace keys e
        end
  | _, _, _ => reply_error kErrNotInteger e
  end.

(** ** Handlers: cluster *)

Definition kErrNoCluster : bytes := &"ERR This instance has cluster support disabled".

Definition cmd_cluster (argv : Args) (e : Env) : Env :=
  if has_cluster (world e) then
    let '(o, w, s) := svc_cluster_command argv (out e) (world e) (store e) in
    with_out (with_store (with_world e w) s) o
  else reply_error kErrNoCluster e.

Definition set_client_flag (f : Client -> Client) (e : Env) : Env :=
  if has_cluster (world e) then reply_simple &"OK" (with_client e (f <$> client_ e))
  else reply_error kErrNoCluster e.

Definition cmd_asking (argv : Args) : Env -> Env := set_client_flag (fun c => with_asking c true).
Definition cmd_readonly (argv : Args) : Env -> Env := set_client_flag (fun c => with_readonly c true).
Definition cmd_readwrite (argv : Args) : Env -> Env := set_client_flag (fun c => with_readonly c false).

(** ** The command table and the dispatcher *)

Record CommandSpec := mkSpec {
  name : bytes;
  handler : Args -> Env -> Env;
  arity : Z;
  kWrite : bool;
  kDenyOom : bool;
  kAsking : bool;
  first_key : Z;
  last_key : Z;
  key_step : Z
}.

Definition table_ : list (bytes * CommandSpec) :=
  [(&"PING", mkSpec &"ping" cmd_ping (-1) false false false 0 0 0);
   (&"ECHO", mkSpec &"echo" cmd_echo 2 false false false 0 0 0);
   (&"SET", mkSpec &"set" cmd_set (-3) true true false 1 1 1);
   (&"GET", mkSpec &"get" cmd_get 2 false false false 1 1 1);
   (&"DEL", mkSpec &"del" cmd_del (-2) true false false 1 (-1) 1);
   (&"EXISTS", mkSpec &"exists" cmd_exists (-2) false false false 1 (-1) 1);
   (&"INCR", mkSpec &"incr" cmd_incr 2 true true false 1 1 1);
   (&"DECR", mkSpec &"decr" cmd_decr 2 true true false 1 1 1);
   (&"INCRBY", mkSpec &"incrby" cmd_incrby 3 true true false 1 1 1);
   (&"DECRBY", mkSpec &"decrby" cmd_decrby 3 true true false 1 1 1);
   (&"EXPIRE", mkSpec &"expire" cmd_expire 3 true false false 1 1 1);
   (&"PEXPIRE", mkSpec &"pexpire" cmd_pexpire 3 true false false 1 1 1);
   (&"EXPIREAT", mkSpec &"expireat" cmd_expireat 3 true false false 1 1 1);
   (&"PEXPIREAT", mkSpec &"pexpireat" cmd_pexpireat 3 true false false 1 1 1);
   (&"TTL", mkSpec &"ttl" cmd_ttl 2 false false false 1 1 1);
   (&"PTTL", mkSpec &"pttl" cmd_pttl 2 false false false 1 1 1);
   (&"PERSIST", mkSpec &"persist" cmd_persist 2 true false false 1 1 1);
   (&"DBSIZE", mkSpec &"dbsize" cmd_dbsize 1 false false false 0 0 0);
   (&"SAVE", mkSpec &"save" cmd_save 1 false false false 0 0 0);
   (&"BGSAVE", mkSpec &"bgsave" cmd_bgsave 1 false false false 0 0 0);
   (&"BGREWRITEAOF", mkSpec &"bgrewriteaof" cmd_bgrewriteaof 1 false false false 0 0 0);
   (&"LASTSAVE", mkSpec &"lastsave" cmd_lastsave 1 false false false 0 0 0);
   (&"REPLICAOF", mkSpec &"replicaof" cmd_replicaof 3 false false false 0 0 0);
   (&"SLAVEOF", mkSpec &"slaveof" cmd_replicaof 3 false false false 0 0 0);
   (&"REPLCONF", mkSpec &"replconf" cmd_replconf (-3) false false false 0 0 0);
   (&"PSYNC", mkSpec &"psync" cmd_psync 3 false false false 0 0 0);
   (&"WAIT", mkSpec &"wait" cmd_wait 3 false false false 0 0 0);
   (&"INFO", mkSpec &"info" cmd_info (-1) false false false 0 0 0);
   (&"DUMP", mkSpec &"dump" cmd_dump 2 false false false 1 1 1);
   (&"RESTORE", mkSpec &"restore" cmd_restore (-4) true true false 1 1 1);
   (&"RESTORE-ASKING", mkSpec &"restore-asking" cmd_restore (-4) true true true 1 1 1);
   (&"MIGRATE", mkSpec &"migrate" cmd_migrate (-6) true false false 0 0 0);
   (&"CLUSTER", mkSpec &"cluster" cmd_cluster (-2) false false false 0 0 0);
   (&"ASKING", mkSpec &"asking" cmd_asking 1 false false false 0 0 0);
   (&"READONLY", mkSpec &"readonly" cmd_readonly 1 false false false 0 0 0);
   (&"READWRITE", mkSpec &"readwrite" cmd_readwrite 1 false false false 0 0 0)].

Fixpoint table_find (name : bytes) (t : list (bytes * CommandSpec)) : option CommandSpec :=
  match t with
  | [] => None
  | (n, spec) :: t => if beq n name then Some spec else table_find name t
  end.

Definition arity_ok (arity : Z) (argc : nat) : bool :=
  if 0 <=? arity then Z.of_nat argc =? arity else - arity <=? Z.of_nat argc.

Definition is_write (argv : Args) : bool :=
  match argv with
  | [] => false
  | n :: _ => match table_find (to_upper n) table_ with Some spec => kWrite spec | None => false end
  end.

(** The arguments that are keys: [argv[first..last]] every [step]. *)
Definition keys_of (spec : CommandSpec) (argv : Args) : list bytes :=
  let argc := zlen argv in
  let last := if last_key spec <? 0 then argc + last_key spec else last_key spec in
  let n := Z.to_nat ((Z.min last (argc - 1) - first_key spec) / key_step spec + 1) in
  (fun i => arg argv (Z.to_nat (first_key spec + Z.of_nat i * key_step spec))) <$> seq 0 n.

(** The checks in front of the handler; [Some] is the error to reply. *)
Definition check_route (spec : CommandSpec) (argv : Args) (asked from_master : bool) (e : Env)
  : option bytes * Env :=
  match client_ e with
  | Some c =>
      if has_cluster (world e) && negb from_master && (0 <? first_key spec) then
        let '(r, w, s) := svc_route (keys_of spec argv) (kWrite spec) (asked || kAsking spec) c
                            (world e) (store e) in
        (r, with_store (with_world e w) s)
      else (None, e)
  | None => (None, e)
  end.

Definition check_memory (spec : CommandSpec) (from_master : bool) (e : Env) : option bytes * Env :=
  if kDenyOom spec && negb (loading e) && negb from_master then
    let '(ok, e) := on_store Store.evict_if_needed e in
    (if (ok : bool) then None else Some kErrOom, e)
  else (None, e).

Definition check_command (spec : CommandSpec) (argv : Args) (asked from_master : bool) (e : Env)
  : option bytes * Env :=
  let '(redirect, e) := check_route spec argv asked from_master e in
  match redirect with
  | Some err => (Some err, e)
  | None =>
      if kWrite spec && negb from_master && has_replication (world e) && is_replica (world e)
      then (Some kErrReadOnly, e)
      else
        let err := if kWrite spec && has_persistence (world e) && negb (loading e) &&
                      negb from_master
                   then write_error (world e) else [] in
        if bool_decide (err = []) then check_memory spec from_master e else (Some err, e)
  end.

(** Executes [argv] for the client of [e]; [client_] of the result is the
    client afterwards. *)
Definition dispatch (argv : Args) (e : Env) : Env :=
  match argv with
  | [] => e
  | n :: _ =>
      let asked := match client_ e with Some c => asking c | None => false end in
      let e := with_client e ((fun c => with_asking c false) <$> client_ e) in
      match table_find (to_upper n) table_ with
      | None => reply_error (&"ERR unknown command '" ++ sanitize_for_error n ++ &"'") e
      | Some spec =>
          if negb (arity_ok (arity spec) (length argv)) then
            reply_error (&"ERR wrong number of arguments for '" ++ name spec ++ &"' command") e
          else
            let from_master := match client_ e with Some c => is_master c | None => false end in
            let '(err, e) := check_command spec argv asked from_master e in
            match err with
            | Some err => reply_error err e
            | None => handler spec argv e
            end
      end
  end.

End dispatcher.
Arguments Env : clear implicits.
End Dispatcher.
