(* ===== verification/Replay.v ===== *)
(** * The propagated log (src/command_dispatcher.cpp, kv_server.cpp)

    Every change to the dataset is propagated as a command that reproduces it;
    the log feeds the append-only file and the replicas.  This file relates
    the two sides: executing client commands appends to the log exactly what
    turns the old dataset into the new one, and executing the log again
    rebuilds the dataset.

    The analysis is per key.  [view k] is what the keyspace holds for [k];
    [apply_logged k] is what a logged command does to it, at no particular
    time.  [tracks] says that a stretch of execution changed the view of [k]
    exactly as its new log entries say, and is closed under composition. *)

From S2P Require Import Prelude Resp Slots HashTable Store Snapshot Dispatcher.

Module Replay.
Import Store Dispatcher.

(** ** The log, one key at a time *)

Definition view (k : bytes) (ks : KeySpace) : option bytes * option Z :=
  (vals ks !! k, ttls ks !! k).

Abbreviation kview := (option bytes * option Z)%type.

(** The commands the dispatcher propagates.  DEL and PERSIST are propagated
    as the client spelled them. *)
Inductive logged :=
  | LSet (key value : bytes)
  | LSetPxat (key value : bytes) (when_ : bytes)
  | LSetKeep (key value : bytes)
  | LDel (keys : list bytes)
  | LExpireAt (key : bytes) (when_ : bytes)
  | LPersist (key : bytes).

Definition as_logged (argv : Args) : option logged :=
  match argv with
  | name :: args =>
      let n := to_upper name in
      if beq n &"SET" then
        match args with
        | [k; v] => Some (LSet k v)
        | [k; v; o] => if beq o &"KEEPTTL" then Some (LSetKeep k v) else None
        | [k; v; o; w] => if beq o &"PXAT" then Some (LSetPxat k v w) else None
        | _ => None
        end
      else if beq n &"DEL" then Some (LDel args)
      else if beq n &"PEXPIREAT" then
        match args with [k; w] => Some (LExpireAt k w) | _ => None end
      else if beq n &"PERSIST" then
        match args with [k] => Some (LPersist k) | _ => None end
      else None
  | [] => None
  end.

Definition apply_entry (k : bytes) (l : logged) (vw : kview) : kview :=
  match l with
  | LSet key v => if beq key k then (Some v, None) else vw
  | LSetPxat key v w => if beq key k then (Some v, parse_int64 w) else vw
  | LSetKeep key v => if beq key k then (Some v, vw.2) else vw
  | LDel keys => if bool_decide (k ∈ keys) then (None, None) else vw
  | LExpireAt key w =>
      if beq key k then match vw.1 with Some v => (Some v, parse_int64 w) | None => vw end else vw
  | LPersist key => if beq key k then (vw.1, None) else vw
  end.

Definition apply_logged (k : bytes) (vw : kview) (argv : Args) : kview :=
  match as_logged argv with Some l => apply_entry k l vw | None => vw end.

Definition apply_log (k : bytes) (vw : kview) (l : list Args) : kview :=
  foldl (apply_logged k) vw l.

(** Every deadline the log gives to [k] is after [T]. *)
Definition deadline_after (T : Z) (w : bytes) : bool :=
  match parse_int64 w with Some w => T <? w | None => false end.

Definition future_entry (k : bytes) (T : Z) (argv : Args) : bool :=
  match as_logged argv with
  | Some (LSetPxat key _ w) | Some (LExpireAt key w) => negb (beq key k) || deadline_after T w
  | _ => true
  end.

Definition future (k : bytes) (T : Z) (l : list Args) : bool := forallb (future_entry k T) l.

(** The view has no deadline at or before [T], and none without a value. *)
Definition fresh_view (T : Z) (vw : kview) : Prop :=
  (forall w, vw.2 = Some w -> T < w) /\ (vw.1 = None -> vw.2 = None).

Lemma apply_log_app k vw a b : apply_log k vw (a ++ b) = apply_log k (apply_log k vw a) b.
Proof. apply foldl_app. Qed.

Lemma future_app k T a b : future k T (a ++ b) = future k T a && future k T b.
Proof. apply forallb_app. Qed.

Lemma apply_logged_fresh k T vw argv :
  fresh_view T vw -> future_entry k T argv = true -> fresh_view T (apply_logged k vw argv).
Proof.
  intros [H1 H2]. unfold apply_logged, future_entry.
  destruct (as_logged argv) as [[key v|key v w|key v|keys|key w|key]|]; simpl; try done.
  - by destruct (beq key k).
  - destruct (beq key k); simpl; [|done]. unfold deadline_after. intros Hd. split; [|done].
    simpl. intros w0 E. rewrite E in Hd. zlia.
  - by destruct (beq key k).
  - by destruct (bool_decide _).
  - destruct (beq key k); simpl; [|done]. unfold deadline_after. intros Hd.
    destruct vw as [[v|] d]; [|done]. split; [|done]. simpl. intros w0 E. rewrite E in Hd. zlia.
  - destruct (beq key k); [|done]. split; [done|done].
Qed.

Lemma apply_log_fresh k T vw l :
  fresh_view T vw -> future k T l = true -> fresh_view T (apply_log k vw l).
Proof.
  revert vw. induction l as [|a l IH]; intros vw Hf; simpl; [done|].
  intros [Ha Hl]%andb_true_iff. by apply IH; [apply apply_logged_fresh|].
Qed.

(** DELs of the store's own deletions. *)
Definition del_log (dels : list bytes) : list Args := (fun k => [&"DEL"; k]) <$> dels.

Lemma apply_del_log k vw dels :
  apply_log k vw (del_log dels) = if bool_decide (k ∈ dels) then (None, None) else vw.
Proof.
  revert vw. induction dels as [|d dels IH]; intros vw; [done|].
  change (apply_log k vw (del_log (d :: dels)))
    with (apply_log k (apply_logged k vw [&"DEL"; d]) (del_log dels)).
  rewrite IH. change (apply_logged k vw [&"DEL"; d])
    with (if bool_decide (k ∈ [d]) then (None, None) else vw).
  repeat case_bool_decide; try done; set_solver.
Qed.

Lemma future_del_log k T dels : future k T (del_log dels) = true.
Proof. induction dels as [|d dels IH]; [done|]. done. Qed.

(** ** The view under the operations of the keyspace *)

Lemma view_drop k key ks :
  view k (drop_key key ks) = if beq key k then (None, None) else view k ks.
Proof.
  unfold view, drop_key. simpl. destruct (beq key k) eqn:E.
  - apply beq_eq in E as ->. by rewrite !lookup_delete_eq.
  - apply beq_neq in E. by rewrite !lookup_delete_ne.
Qed.

Lemma view_drops k vs ks :
  view k (drop_keys ks vs) = if bool_decide (k ∈ vs) then (None, None) else view k ks.
Proof.
  unfold drop_keys. revert ks. induction vs as [|v vs IH]; intros ks; [done|]. simpl.
  rewrite IH, view_drop. destruct (beq v k) eqn:E; repeat case_bool_decide; try done;
    (apply beq_eq in E as -> || apply beq_neq in E); set_solver.
Qed.

Lemma fresh_not_expired T t k ks :
  fresh_view T (view k ks) -> t <= T -> expired t k ks = false.
Proof.
  intros [H _] Ht. unfold expired. simpl in H. destruct (ttls ks !! k) as [w|]; [|done].
  specialize (H w eq_refl). apply Z.leb_gt. lia.
Qed.

Section access.
Context (p : bool) (T t : Z) (k : bytes) (ks : KeySpace).
Context (Hf : fresh_view T (view k ks)) (Ht : t <= T).

(** An access changes no other key, and a key that has not expired neither;
    what it reports is not such a key. *)
Lemma view_access key touch :
  view k (spec_access p t key touch ks).2 = view k ks /\ k ∉ (spec_access p t key touch ks).1.
Proof.
  pose proof (fresh_not_expired _ _ _ _ Hf Ht) as Hk. unfold spec_access.
  destruct (expired t key ks) eqn:E.
  - assert (key <> k) by congruence. destruct p; simpl; [set_solver|].
    rewrite view_drop, (proj2 (beq_neq key k)) by done. set_solver.
  - destruct (touch && _); set_solver.
Qed.

Lemma view_live : live t k ks = (view k ks).1.
Proof. unfold live. by rewrite (fresh_not_expired _ _ _ _ Hf Ht). Qed.

Lemma view_set key v keep :
  view k (spec_set p t key v keep ks).2 =
    (if beq key k then (Some v, if keep then (view k ks).2 else None) else view k ks) /\
  k ∉ (spec_set p t key v keep ks).1.
Proof.
  pose proof (view_access key true) as [Hv Hn]. unfold spec_set.
  destruct (spec_access p t key true ks) as [dels ks'] eqn:Ea. cbn [fst snd] in *.
  split; [|done]. destruct (beq key k) eqn:E.
  - apply beq_eq in E as ->. rewrite <-Hv. unfold view. simpl. rewrite lookup_insert_eq.
    rewrite view_live. destruct keep; simpl; [|by rewrite lookup_delete_eq].
    destruct (vals ks !! k) as [v0|] eqn:E0; simpl; [done|].
    rewrite lookup_delete_eq. rewrite <-Hv in Hf. destruct Hf as [_ H2]. simpl in H2.
    injection Hv as Hv _. rewrite H2; [done|]. by rewrite Hv.
  - apply beq_neq in E. rewrite <-Hv. unfold view. simpl. rewrite lookup_insert_ne by done.
    destruct (keep && _); [done|]. by rewrite lookup_delete_ne.
Qed.

Lemma view_del key :
  view k (spec_del p t key ks).2 = (if beq key k then (None, None) else view k ks) /\
  k ∉ (spec_del p t key ks).1.
Proof.
  pose proof (view_access key false) as [Hv Hn]. unfold spec_del.
  destruct (spec_access p t key false ks) as [dels ks']. cbn [fst snd] in *.
  by rewrite view_drop, Hv.
Qed.

Lemma view_set_expire t' key w :
  view k (spec_set_expire p t t' key w ks).2 =
    (if beq key k then
       match (view k ks).1 with
       | Some v => if (w <=? t') && negb p then (None, None) else (Some v, Some w)
       | None => view k ks
       end
     else view k ks) /\
  k ∉ (spec_set_expire p t t' key w ks).1.
Proof.
  pose proof (view_access key true) as [Hv Hn]. unfold spec_set_expire.
  destruct (spec_access p t key true ks) as [dels ks']. cbn [fst snd] in *. split; [|done].
  destruct (beq key k) eqn:E.
  - apply beq_eq in E as ->. rewrite view_live. rewrite <-Hv.
    destruct (view k ks') as [[v|] d] eqn:Ev; simpl; [|done].
    destruct (_ && _); [by rewrite view_drop, beq_refl|].
    unfold view in *. simpl. injection Ev as -> _. by rewrite lookup_insert_eq.
  - rewrite <-Hv. destruct (bool_decide _); [|done].
    destruct (_ && _); [by rewrite view_drop, E|].
    apply beq_neq in E. unfold view. simpl. by rewrite lookup_insert_ne.
Qed.

Lemma view_persist key :
  view k (spec_persist p t key ks).2 = (if beq key k then ((view k ks).1, None) else view k ks) /\
  k ∉ (spec_persist p t key ks).1.
Proof.
  pose proof (view_access key true) as [Hv Hn]. unfold spec_persist.
  destruct (spec_access p t key true ks) as [dels ks']. cbn [fst snd] in *. split; [|done].
  destruct (beq key k) eqn:E.
  - apply beq_eq in E as ->. rewrite view_live. rewrite <-Hv in *.
    destruct (view k ks') as [[v|] d] eqn:Ev; simpl.
    + unfold view in *. simpl. injection Ev as -> _. by rewrite lookup_delete_eq.
    + destruct Hf as [_ H2]. simpl in H2. by rewrite Ev, H2.
  - rewrite <-Hv. destruct (bool_decide _); [|done].
    apply beq_neq in E. unfold view. simpl. by rewrite lookup_delete_ne.
Qed.

End access.

(** ** Executions that do what their log says *)

(** What the other components promise about the keyspace: routing a command
    deletes only what it reports, and something reads the log. *)
Definition reports (s s' : KvStore) : Prop :=
  wf s' /\ config s' = config s /\
  exists dels, notified_ s' = notified_ s ++ dels /\
    forall k, view k (abstract s') = if bool_decide (k ∈ dels) then (None, None)
                                     else view k (abstract s).

Class KeyspaceServices (W : Type) `{Services W} := {
  route_reports keys wr ask c w s : wf s ->
    let '(_, _, s') := svc_route keys wr ask c w s in reports s s';
  always_logged w : log_wanted w = true
}.

Section tracking.
Context {W : Type} `{SV : Services W} `{KS : !KeyspaceServices W}.
Context (T : Z) (k : bytes).
Implicit Types e : Env W.

Definition ks_of (e : Env W) : KeySpace := abstract (store e).
Definition view_of (e : Env W) : kview := view k (ks_of e).

(** A clock that does not go back and stays within [T]. *)
Definition steady (s : KvStore) : Prop :=
  (forall i, clock s i <= T) /\ (forall i, clock s i <= clock s (S i)).

Definition ready (e : Env W) : Prop := wf (store e) /\ steady (store e).

Lemma steady_config s s' : config s' = config s -> steady s -> steady s'.
Proof.
  intros Hc. unfold steady. by rewrite (config_clock _ _ Hc).
Qed.

Lemma steady_le s i j : steady s -> (i <= j)%nat -> clock s i <= clock s j.
Proof.
  intros (_ & Hm). induction 1 as [|j _ IH]; [done|]. specialize (Hm j). lia.
Qed.

Lemma remove_reads key (s : KvStore) : reads_ (remove key s).2 = reads_ s.
Proof.
  unfold remove. destruct (kt_find key (dict_ s)); [|done]. unfold clear_expire.
  by destruct (kt_del key _) as [[] x].
Qed.

Lemma lookup_reads key touch (s : KvStore) : (reads_ s <= reads_ (lookup key touch s).2)%nat.
Proof.
  assert (H : (reads_ s <= reads_ (expire_if_needed key s).2)%nat).
  { unfold expire_if_needed. destruct (_ =? _)%nat; [done|]. destruct (kt_find _ _); [|done].
    change (Store.now_ms s) with (reading s, ticked s). cbv iota beta.
    assert (reads_ (ticked s) = S (reads_ s)) as E by done.
    destruct (_ <? _); [cbn [snd]; lia|]. destruct (passive_expiry_ _); [cbn [snd]; lia|].
    pose proof (remove_reads key (ticked s)). destruct (remove key (ticked s)) as [b s1].
    cbn [snd] in *. change (reads_ s <= reads_ s1)%nat. lia. }
  unfold lookup. destruct (expire_if_needed key s) as [[] s1]; [done|].
  destruct (kt_find key _); [|done]. by destruct touch.
Qed.

(** [e'] is [e] with its store and log changed, the log grown by [l] and the
    view of [k] changed the same way. *)
Definition grows (l : list Args) (e e' : Env W) : Prop :=
  log e' = log e ++ l /\ Forall (fun a => is_Some (as_logged a)) l /\
  (future k T l = true -> fresh_view T (view_of e) -> view_of e' = apply_log k (view_of e) l).

Record tracks (e e' : Env W) : Prop := {
  tr_wf : wf (store e');
  tr_config : config (store e') = config (store e);
  tr_log : exists l, grows l e e'
}.

Lemma tracks_ready e e' : ready e -> tracks e e' -> ready e'.
Proof.
  intros [_ Hs] [Hw Hc _]. split; [done|]. by eapply steady_config.
Qed.

Lemma tracks_refl e : ready e -> tracks e e.
Proof.
  intros (Hw & _). split; [done|done|]. exists []. split_and!; [by rewrite app_nil_r|done|done].
Qed.

Lemma tracks_trans a b c : tracks a b -> tracks b c -> tracks a c.
Proof.
  intros [A1 A2 (l1 & L1 & F1 & V1)] [B1 B2 (l2 & L2 & F2 & V2)]. split; [done|congruence|].
  exists (l1 ++ l2). split_and!; [by rewrite L2, L1, app_assoc|by apply Forall_app|].
  rewrite future_app, apply_log_app. intros [H1 H2]%andb_true_iff Hf.
  specialize (V1 H1 Hf). rewrite <-V1. apply V2; [done|]. rewrite V1. by apply apply_log_fresh.
Qed.

(** Steps that touch neither the store nor the log. *)
Lemma tracks_frame e e' : ready e -> store e' = store e -> log e' = log e -> tracks e e'.
Proof.
  intros (Hw & _) Es El. split; [by rewrite Es|by rewrite Es|].
  exists []. split_and!; [by rewrite El, app_nil_r|done|]. unfold view_of, ks_of. by rewrite Es.
Qed.

Lemma with_store_log e s dels :
  notified_ s = notified_ (store e) ++ dels -> log (with_store e s) = log e ++ del_log dels.
Proof. intros E. unfold with_store. simpl. rewrite E, drop_app_length. done. Qed.

Lemma del_log_logged dels : Forall (fun a => is_Some (as_logged a)) (del_log dels).
Proof. apply Forall_fmap, Forall_true. intros d. by eexists. Qed.

(** A store operation whose reports account for what happens to [k]. *)
Lemma tracks_reports e s : ready e -> reports (store e) s -> tracks e (with_store e s).
Proof.
  intros _ (Hw & Hc & dels & Hn & Hv). split; [done|done|]. exists (del_log dels).
  split_and!; [by apply with_store_log|apply del_log_logged|].
  intros _ _. rewrite apply_del_log. apply Hv.
Qed.

(** A stretch that logs nothing but the store's own deletions, none of them
    of a [k] that has not expired, and changes the view of [k] by [R]. *)
Record moves (R : kview -> kview -> Prop) (e e' : Env W) : Prop := {
  mv_wf : wf (store e');
  mv_config : config (store e') = config (store e);
  mv_log : exists dels, log e' = log e ++ del_log dels /\
    (fresh_view T (view_of e) -> k ∉ dels /\ R (view_of e) (view_of e'))
}.

Lemma moves_ready R e e' : ready e -> moves R e e' -> ready e'.
Proof. intros [_ Hs] [Hw Hc _]. split; [done|]. by eapply steady_config. Qed.

Lemma moves_refines (R : kview -> kview -> Prop) e s out :
  refines (store e) s out ->
  (fresh_view T (view_of e) -> k ∉ out.1 /\ R (view_of e) (view k out.2)) ->
  moves R e (with_store e s).
Proof.
  intros [Hw Ha Hc Hn] Hv. split; [done|done|]. exists out.1. split; [by apply with_store_log|].
  intros Hf. destruct (Hv Hf) as [H1 H2]. split; [done|].
  change (view_of (with_store e s)) with (view k (abstract s)). by rewrite Ha.
Qed.

Lemma moves_trans (R S U : kview -> kview -> Prop) a b c :
  moves R a b -> moves S b c ->
  (forall x y, fresh_view T x -> R x y -> fresh_view T y) ->
  (forall x y z, fresh_view T x -> R x y -> S y z -> U x z) -> moves U a c.
Proof.
  intros [A1 A2 (d1 & L1 & V1)] [B1 B2 (d2 & L2 & V2)] Hfr HU. split; [done|congruence|].
  exists (d1 ++ d2). split.
  { rewrite L2, L1. unfold del_log. by rewrite fmap_app, app_assoc. }
  intros Hf. destruct (V1 Hf) as [N1 R1]. destruct V2 as [N2 R2]; [by eapply Hfr|].
  split; [set_solver|by eapply HU].
Qed.

Lemma moves_weaken (R S : kview -> kview -> Prop) e e' :
  moves R e e' -> (forall x y, fresh_view T x -> R x y -> S x y) -> moves S e e'.
Proof.
  intros [A1 A2 (d & L & V)] H. split; [done|done|]. exists d. split; [done|].
  intros Hf. destruct (V Hf). eauto.
Qed.

Lemma moves_tracks e e' : moves (fun x y : kview => y = x) e e' -> tracks e e'.
Proof.
  intros [A1 A2 (d & L & V)]. split; [done|done|]. exists (del_log d).
  split_and!; [done|apply del_log_logged|]. intros _ Hf. destruct (V Hf) as [Hd ->].
  by rewrite apply_del_log, bool_decide_false.
Qed.

(** The entry that accounts for what the stretch did. *)
Lemma moves_logged (R : kview -> kview -> Prop) e e' argv :
  moves R e e' -> is_Some (as_logged argv) ->
  (forall x y, fresh_view T x -> future_entry k T argv = true -> R x y ->
     y = apply_logged k x argv) ->
  tracks e (propagate argv e').
Proof.
  intros [A1 A2 (d & L & V)] Hl Hv. split; [done|done|]. exists (del_log d ++ [argv]). split_and!.
  - change (log (propagate argv e')) with (log e' ++ [argv]). by rewrite L, app_assoc.
  - apply Forall_app. split; [apply del_log_logged|by constructor].
  - rewrite future_app, apply_log_app, future_del_log. simpl. rewrite andb_true_r.
    intros Hfut Hf. destruct (V Hf) as [Hd HR]. rewrite apply_del_log, bool_decide_false by done.
    by apply Hv.
Qed.

Lemma tracks_then a b c : ready a -> tracks a b -> (ready b -> tracks b c) -> tracks a c.
Proof.
  intros Ha Hab Hbc. eapply tracks_trans; [exact Hab|]. apply Hbc. by eapply tracks_ready.
Qed.

Lemma tracks_on_store {A} (f : KvStore -> A * KvStore) e out :
  refines (store e) (f (store e)).2 out ->
  (fresh_view T (view_of e) -> view k out.2 = view_of e /\ k ∉ out.1) ->
  tracks e (on_store f e).2.
Proof.
  intros H Hv. unfold on_store. destruct (f (store e)) as [a s].
  apply moves_tracks. eapply moves_refines; [exact H|]. intros Hf. by destruct (Hv Hf).
Qed.

Lemma ready_reading e : ready e -> reading (store e) <= T.
Proof. intros (_ & Hf & _). apply Hf. Qed.

Lemma propagate_built_eq argv e : propagate_built argv e = propagate argv e.
Proof. unfold propagate_built. by rewrite always_logged. Qed.

(** Reads. *)
Lemma tracks_access {A} (f : KvStore -> A * KvStore) e key touch :
  ready e ->
  refines (store e) (f (store e)).2
    (spec_access (passive_expiry_ (store e)) (reading (store e)) key touch (ks_of e)) ->
  tracks e (on_store f e).2.
Proof.
  intros Hr Href. eapply tracks_on_store; [exact Href|]. intros Hf.
  apply (view_access _ T); [done|by apply ready_reading].
Qed.

Lemma tracks_get e key : ready e -> tracks e (on_store (Store.get key) e).2.
Proof. intros Hr. eapply tracks_access; [done|]. apply get_refines, Hr. Qed.

Lemma tracks_exists e key : ready e -> tracks e (on_store (Store.exists_ key) e).2.
Proof. intros Hr. eapply tracks_access; [done|]. apply exists_refines, Hr. Qed.

Lemma tracks_pttl e key : ready e -> tracks e (on_store (Store.pttl key) e).2.
Proof. intros Hr. eapply tracks_access; [done|]. apply pttl_refines, Hr. Qed.

Lemma tracks_now e : ready e -> tracks e (now_ms e).2.
Proof. intros Hr. eapply tracks_on_store; [apply ticked_refines, Hr|]. intros _. set_solver. Qed.

(** Evictions are reported. *)
Lemma tracks_evict e : ready e -> tracks e (on_store Store.evict_if_needed e).2.
Proof.
  intros Hr. unfold on_store. pose proof (evict_refines (store e) (proj1 Hr)) as H.
  cbv zeta in H. destruct H as [H _]. destruct (evict_if_needed (store e)) as [b s]. cbn [snd] in *.
  apply tracks_reports; [done|]. destruct H as [Hw Ha Hc Hn]. split_and!; [done|done|].
  destruct (_ || _); [|].
  - exists []. split; [done|]. intros k'. by rewrite Ha.
  - destruct (spec_evict_victims (maxmemory (store e))
      (reverse (recency (abstract (store e)))) (abstract (store e))) as (dels & rest & _ & E & _).
    rewrite E in Ha, Hn. exists dels. split; [done|]. intros k'. rewrite Ha. apply view_drops.
Qed.


(** *** Writes *)

Lemma moves_set e key v (keep : bool) :
  ready e ->
  moves (fun x y : kview => y = (if beq key k then (Some v, if keep then x.2 else None) else x))
    e (with_store e (Store.set key v keep (store e))).
Proof.
  intros Hr. eapply moves_refines; [apply set_refines, Hr|]. intros Hf.
  destruct (view_set (passive_expiry_ (store e)) T (reading (store e)) k (ks_of e) Hf
    (ready_reading e Hr) key v keep) as [H1 H2]. done.
Qed.

Lemma moves_del e key :
  ready e ->
  moves (fun x y : kview => y = (if beq key k then (None, None) else x) /\
           ((on_store (Store.del key) e).1 = false -> y = x))
    e (on_store (Store.del key) e).2.
Proof.
  intros Hr. destruct (del_refines key (store e) (proj1 Hr)) as [Hb H].
  unfold on_store. destruct (Store.del key (store e)) as [b s]. cbn [fst snd] in *.
  eapply moves_refines; [exact H|]. intros Hf.
  pose proof (ready_reading e Hr) as Ht.
  destruct (view_del (passive_expiry_ (store e)) T (reading (store e)) k (ks_of e) Hf Ht key)
    as [H1 H2].
  split; [done|]. unfold ks_of in H1. rewrite H1. split; [done|]. intros ->.
  destruct (beq key k) eqn:E; [|done]. apply beq_eq in E as ->.
  rewrite (view_live T) in Hb by done. destruct Hf as [_ Hf]. unfold view_of, ks_of in *.
  destruct (view k (abstract (store e))) as [[v|] d] eqn:Ev; simpl in *; [done|].
  by rewrite Hf.
Qed.

Definition set_expire_view (passive : bool) (key : bytes) (w now : Z) (b : bool) (x y : kview)
  : Prop :=
  if beq key k then
    match x.1 with
    | Some v => (passive = false -> w <= now -> y = (None, None)) /\ (T < w -> y = (Some v, Some w))
    | None => y = x
    end /\ (b = false -> y = x)
  else y = x.

(** [now] is any earlier reading of the clock. *)
Lemma moves_set_expire e key w now :
  ready e -> (exists i, (i <= reads_ (store e))%nat /\ now = clock (store e) i) ->
  moves (set_expire_view (passive_expiry_ (store e)) key w now (on_store (Store.set_expire key w) e).1)
    e (on_store (Store.set_expire key w) e).2.
Proof.
  intros Hr (i & Hi & ->). destruct (set_expire_refines key w (store e) (proj1 Hr)) as [Hb H].
  pose proof (lookup_reads key true (store e)) as Hle.
  destruct (lookup_refines key true (store e) (proj1 Hr)) as [Hl _].
  unfold on_store. set (s1 := (lookup key true (store e)).2) in *.
  assert (Hr1 : reading s1 <= T /\ clock (store e) i <= reading s1).
  { unfold reading. rewrite (config_clock _ _ (ref_config _ _ _ Hl)).
    split; [apply Hr|]. apply steady_le; [apply Hr|lia]. }
  clearbody s1. destruct (Store.set_expire key w (store e)) as [b s]. cbn [fst snd] in *.
  eapply moves_refines; [exact H|]. intros Hf. pose proof (ready_reading e Hr) as Ht.
  destruct (view_set_expire (passive_expiry_ (store e)) T (reading (store e)) k (ks_of e) Hf Ht
    (reading s1) key w) as [H1 H2].
  split; [done|]. unfold set_expire_view. unfold ks_of in H1. rewrite H1.
  destruct (beq key k) eqn:E; [|done]. apply beq_eq in E as ->.
  rewrite (view_live T) in Hb by done. unfold view_of, ks_of.
  destruct (view k (abstract (store e))) as [[v|] d]; simpl in *; [|done].
  split; [|by rewrite Hb]. split.
  - intros -> Hw. rewrite andb_true_r, (proj2 (Z.leb_le w (reading s1))) by lia. done.
  - intros Hw. rewrite (proj2 (Z.leb_gt w (reading s1))) by lia. done.
Qed.

Lemma moves_persist e key :
  ready e ->
  moves (fun x y : kview => y = (if beq key k then (x.1, None) else x) /\
           ((on_store (Store.persist key) e).1 = false -> y = x))
    e (on_store (Store.persist key) e).2.
Proof.
  intros Hr. destruct (persist_refines key (store e) (proj1 Hr)) as [Hb H].
  unfold on_store. destruct (Store.persist key (store e)) as [b s]. cbn [fst snd] in *.
  eapply moves_refines; [exact H|]. intros Hf. pose proof (ready_reading e Hr) as Ht.
  destruct (view_persist (passive_expiry_ (store e)) T (reading (store e)) k (ks_of e) Hf Ht key)
    as [H1 H2].
  split; [done|]. unfold ks_of in H1. rewrite H1. split; [done|]. intros ->.
  destruct (beq key k) eqn:E; [|done]. apply beq_eq in E as ->.
  rewrite (view_live T) in Hb by done. destruct Hf as [_ Hf]. unfold view_of, ks_of, view in *.
  symmetry in Hb. apply bool_decide_eq_false in Hb. cbn [fst snd] in *.
  destruct (vals (abstract (store e)) !! k) as [v|]; [|by rewrite Hf].
  destruct (ttls (abstract (store e)) !! k) as [w|]; [|done]. destruct Hb. by split; eexists.
Qed.

(** *** What the handlers do and log *)

Definition int64_opt (w : option Z) : Prop := forall z, w = Some z -> in_int64 z = true.

Lemma parse_to_string w : in_int64 w = true -> parse_int64 (to_string w) = Some w.
Proof. unfold in_int64. intros H. apply from_chars_to_string; [zlia|done]. Qed.

Lemma parse_int64_range s w : parse_int64 s = Some w -> in_int64 w = true.
Proof. intros H%from_chars_all_range. unfold in_int64. zlia. Qed.

Lemma deadline_from_int64 now a u : int64_opt (deadline_from now a u).
Proof.
  intros z. unfold deadline_from, mul_overflow, add_overflow.
  destruct (in_int64 (a * u)); [|done]. destruct (in_int64 (now + a * u)) eqn:E; [|done].
  by intros [= <-].
Qed.

Lemma moves_put e key v (keep : bool) exp :
  ready e ->
  moves (fun x y : kview =>
      if beq key k then
        match exp with
        | Some w => T < w -> y = (Some v, Some w)
        | None => y = (Some v, if keep then x.2 else None)
        end
      else y = x)
    e (put_key key v keep exp e).
Proof.
  intros Hr. pose proof (moves_set e key v keep Hr) as H1. unfold put_key.
  set (e1 := with_store _ _) in *. pose proof (moves_ready _ _ _ Hr H1) as Hr1.
  clearbody e1. destruct exp as [w|].
  - eapply moves_trans; [exact H1|apply (moves_set_expire e1 key w (reading (store e1)) Hr1)| |].
    + by exists (reads_ (store e1)).
    + intros x y [F1 F2] ->. destruct (beq key k); [|done]. split; [|done]. simpl.
      destruct keep; [done|done].
    + intros x y z _ -> . unfold set_expire_view. destruct (beq key k); [|done]. simpl.
      intros [[_ H] _]. exact H.
  - eapply moves_weaken; [exact H1|]. intros x y _ ->. by destruct (beq key k).
Qed.

Lemma tracks_put e key v keep exp :
  ready e -> int64_opt exp ->
  tracks e (propagate (logged_set key v exp keep) (put_key key v keep exp e)).
Proof.
  intros Hr Hx. eapply moves_logged; [by apply moves_put|destruct exp, keep; by eexists|].
  intros x y _ Hfut. unfold apply_logged.
  destruct exp as [w|]; [|destruct keep; simpl; by destruct (beq key k)].
  simpl. specialize (Hx w eq_refl). revert Hfut. unfold future_entry. simpl.
  unfold deadline_after. rewrite parse_to_string by done.
  destruct (beq key k); [|done]. simpl. intros Hw H. apply H. zlia.
Qed.

Lemma tracks_same a b c : tracks a b -> store c = store b -> log c = log b -> tracks a c.
Proof.
  intros [A1 A2 (l & L & F & V)] Es El. split; [by rewrite Es|by rewrite Es|].
  exists l. split_and!; [by rewrite El|done|]. unfold view_of, ks_of in *. by rewrite Es.
Qed.

Lemma tracks_out a b o : tracks a b -> tracks a (with_out b o).
Proof. intros H. by apply (tracks_same a b). Qed.

Lemma tracks_world a b w : tracks a b -> tracks a (with_world b w).
Proof. intros H. by apply (tracks_same a b). Qed.

Lemma tracks_client a b c : tracks a b -> tracks a (with_client b c).
Proof. intros H. by apply (tracks_same a b). Qed.

(** Replies, and calls that only touch the other components. *)
Ltac framed := first [apply tracks_out | apply tracks_world | apply tracks_client].

Lemma tracks_count_del keys n e :
  ready e ->
  moves (fun x y : kview => y = (if bool_decide (k ∈ keys) then (None, None) else x) /\
           (n <= (count_keys Store.del keys n e).1) /\
           ((count_keys Store.del keys n e).1 = n -> y = x))
    e (count_keys Store.del keys n e).2.
Proof.
  revert n e. induction keys as [|key keys IH]; intros n e Hr.
  { split; [apply Hr|done|]. exists []. split; [by rewrite app_nil_r|]. intros _.
    split; [set_solver|]. simpl. split; [done|]. split; [lia|done]. }
  cbn [count_keys]. pose proof (moves_del e key Hr) as H1.
  destruct (on_store (Store.del key) e) as [b e1]. cbn [fst snd] in *.
  pose proof (moves_ready _ _ _ Hr H1) as Hr1.
  eapply moves_trans; [exact H1|apply IH, Hr1| |].
  - intros x y Hx [-> _]. by destruct (beq key k).
  - intros x y z _ [-> Hb] (-> & Hle & Hc). set (c := (count_keys _ _ _ _).1) in *. clearbody c.
    split_and!.
    + destruct (beq key k) eqn:E; repeat case_bool_decide; try done;
        (apply beq_eq in E as -> || apply beq_neq in E); set_solver.
    + destruct b; lia.
    + intros ->. destruct b; [lia|]. by rewrite Hc, Hb.
Qed.

Lemma tracks_count_exists keys n e :
  ready e -> tracks e (count_keys Store.exists_ keys n e).2.
Proof.
  revert n e. induction keys as [|key keys IH]; intros n e Hr; [by apply tracks_refl|].
  cbn [count_keys]. pose proof (tracks_exists e key Hr) as H1.
  destruct (on_store (Store.exists_ key) e) as [b e1].
  eapply tracks_then; [done|exact H1|]. apply IH.
Qed.

Lemma apply_del_keys x name keys :
  to_upper name = &"DEL" ->
  apply_logged k x (name :: keys) = if bool_decide (k ∈ keys) then (None, None) else x.
Proof. intros E. unfold apply_logged, as_logged. by rewrite E. Qed.

Lemma tracks_del argv e : ready e -> to_upper (arg argv 0) = &"DEL" -> tracks e (cmd_del argv e).
Proof.
  intros Hr Hn. unfold cmd_del. pose proof (tracks_count_del (drop 1 argv) 0 e Hr) as H.
  destruct (count_keys Store.del (drop 1 argv) 0 e) as [n e1]. cbn [fst snd] in *. framed.
  destruct argv as [|name keys]; [done|]. change (arg (name :: keys) 0) with name in Hn.
  change (drop 1 (name :: keys)) with keys in H.
  destruct (0 <? n) eqn:En; zbool.
  - eapply moves_logged; [exact H|unfold as_logged; rewrite Hn; by eexists|].
    intros x y _ _ [-> _]. by rewrite apply_del_keys.
  - apply moves_tracks. eapply moves_weaken; [exact H|]. intros x y _ (_ & ? & Hy). apply Hy. lia.
Qed.

Lemma tracks_incr_by key delta e : ready e -> tracks e (incr_by key delta e).
Proof.
  intros Hr. unfold incr_by. pose proof (tracks_get e key Hr) as H.
  destruct (on_store (Store.get key) e) as [v e1]. cbn [snd] in H.
  pose proof (tracks_ready _ _ Hr H) as Hr1. destruct (match v with Some _ => _ | None => _ end) as [z|].
  2:{ by framed. }
  destruct (add_overflow z delta) as [z'|]; [|by framed].
  eapply tracks_trans; [exact H|]. framed. rewrite propagate_built_eq.
  eapply moves_logged; [by apply moves_set|by eexists|]. intros x y _ _ ->. done.
Qed.

Lemma tracks_expire_generic argv unit_ms relative name e :
  ready e -> passive_expiry_ (store e) = false -> tracks e (expire_generic argv unit_ms relative name e).
Proof.
  intros Hr Hp. unfold expire_generic.
  destruct (parse_int64 _) as [a|]; [|framed; by apply tracks_refl].
  pose proof (tracks_now e Hr) as H.
  assert (Hp1 : passive_expiry_ (store (now_ms e).2) = false) by done.
  assert (E : now_ms e = (reading (store e), (now_ms e).2)) by done. rewrite E. clear E.
  set (now := reading (store e)).
  assert (Hnow : exists i, (i <= reads_ (store (now_ms e).2))%nat /\
                   now = clock (store (now_ms e).2) i).
  { exists (reads_ (store e)). split; [simpl; lia|done]. }
  clearbody now. destruct (now_ms e) as [? e1]. cbn [snd] in *.
  pose proof (tracks_ready _ _ Hr H) as Hr1.
  destruct (deadline_from _ a unit_ms) as [w|] eqn:Ew; [|by framed].
  pose proof (moves_set_expire e1 (arg argv 1) w now Hr1 Hnow) as Hm.
  destruct (on_store _ e1) as [b e2]. cbn [fst snd] in *.
  eapply tracks_trans; [exact H|]. destruct b; simpl negb; cbv iota; framed.
  - rewrite propagate_built_eq. eapply moves_logged; [exact Hm|destruct (w <=? now); by eexists|].
    intros x y [_ Hx] Hfut. unfold set_expire_view, apply_logged. rewrite Hp1.
    destruct (w <=? now) eqn:El; zbool.
    + change (as_logged [&"DEL"; arg argv 1]) with (Some (LDel [arg argv 1])). simpl.
      destruct (beq (arg argv 1) k) eqn:Ek.
      * apply beq_eq in Ek as ->. rewrite bool_decide_true by set_solver.
        destruct x as [[v|] d]; simpl in *; [intros [[-> _] _]; done|].
        intros [-> _]. by rewrite Hx.
      * apply beq_neq in Ek. by rewrite bool_decide_false by set_solver.
    + revert Hfut. unfold future_entry. change (as_logged _) with
        (Some (LExpireAt (arg argv 1) (to_string w))). simpl.
      unfold deadline_after. rewrite parse_to_string by (by eapply deadline_from_int64).
      destruct (beq (arg argv 1) k); [|done]. simpl. intros Hw.
      destruct x as [[v|] d]; simpl; [|by intros [-> _]]. intros [[_ H1] _]. apply H1. zlia.
  - apply moves_tracks. eapply moves_weaken; [exact Hm|]. intros x y _. unfold set_expire_view.
    destruct (beq _ k); [|done]. intros [_ H1]. by apply H1.
Qed.

(** Every deadline [set_options] accepts is a 64-bit integer. *)
Lemma tracks_set_options args o e :
  ready e -> int64_opt (expire_at o) ->
  tracks e (set_options args o e).2 /\
  (forall o', (set_options args o e).1 = inr o' -> int64_opt (expire_at o')).
Proof.
  revert o e. induction args as [args IH] using (induction_ltof1 _ (@length _)). unfold ltof in IH.
  intros o e Hr Ho. destruct args as [|a args]; cbn [set_options].
  { split; [by apply tracks_refl|]. by intros o' [= <-]. }
  repeat (destruct (_ && _); [try (apply IH; [simpl; lia|done|done])|]).
  2:{ split; [by apply tracks_refl|done]. }
  destruct args as [|b args]; [split; [by apply tracks_refl|done]|].
  destruct (parse_int64 b) as [amount|]; [|split; [by apply tracks_refl|done]].
  destruct (0 <? amount); [|split; [by apply tracks_refl|done]].
  assert (H : tracks e (if beq (to_upper a) &"EX" || beq (to_upper a) &"PX" then now_ms e else (0, e)).2)
    by (destruct (_ || _); [by apply tracks_now|by apply tracks_refl]).
  destruct (if beq (to_upper a) &"EX" || beq (to_upper a) &"PX" then now_ms e else (0, e)) as [now e1].
  cbn [snd] in H. destruct (deadline_from now amount _) as [w|] eqn:Ew; [|by split].
  destruct (IH args ltac:(simpl; lia) (mkSetOptions (nx o) (xx o) (keep_ttl o) (Some w)) e1)
    as [H1 H2]; [by eapply tracks_ready| |].
  { intros z [= <-]. by eapply deadline_from_int64. }
  split; [by eapply tracks_trans|done].
Qed.

Lemma tracks_cmd_set argv e : ready e -> tracks e (cmd_set argv e).
Proof.
  intros Hr. unfold cmd_set.
  destruct (tracks_set_options (drop 3 argv) (mkSetOptions false false false None) e Hr)
    as [H Ho]; [done|].
  destruct (set_options _ _ e) as [[err|o] e1]; cbn [fst snd] in *; [by framed|].
  pose proof (tracks_ready _ _ Hr H) as Hr1. specialize (Ho o eq_refl).
  eapply tracks_trans; [exact H|]. clear H.
  destruct (nx o || xx o).
  - pose proof (tracks_exists e1 (arg argv 1) Hr1) as H.
    destruct (on_store _ e1) as [ex e2]. cbn [snd] in H. pose proof (tracks_ready _ _ Hr1 H) as Hr2.
    destruct (_ || _); [by framed|]. eapply tracks_trans; [exact H|].
    framed. rewrite propagate_built_eq. by apply tracks_put.
  - framed. rewrite propagate_built_eq. by apply tracks_put.
Qed.

Lemma tracks_cmd_persist argv e :
  ready e -> to_upper (arg argv 0) = &"PERSIST" -> length argv = 2%nat ->
  tracks e (cmd_persist argv e).
Proof.
  intros Hr Hn Hl. unfold cmd_persist. pose proof (moves_persist e (arg argv 1) Hr) as H.
  destruct (on_store _ e) as [b e1]. cbn [fst snd] in H. destruct b; cbn [negb]; framed.
  - destruct argv as [|name [|key [|? ?]]]; try done.
    change (arg [name; key] 0) with name in Hn. change (arg [name; key] 1) with key in H.
    eapply moves_logged; [exact H|unfold as_logged; rewrite Hn; by eexists|].
    intros x y _ _ [-> _]. unfold apply_logged, as_logged. by rewrite Hn.
  - apply moves_tracks. eapply moves_weaken; [exact H|]. intros x y _ [_ Hy]. by apply Hy.
Qed.

Lemma restore_deadline_int64 ttl now absttl :
  in_int64 ttl = true -> int64_opt (restore_deadline ttl now absttl).
Proof.
  intros Ht z. unfold restore_deadline. destruct (0 <? ttl); [|done]. intros [= <-].
  destruct absttl; [done|]. destruct (deadline_from now ttl 1) as [w|] eqn:E; [|done].
  by eapply deadline_from_int64.
Qed.

Lemma tracks_restore_key key value ttl absttl e :
  ready e -> in_int64 ttl = true -> tracks e (restore_key key value ttl absttl e).
Proof.
  intros Hr Ht. unfold restore_key. pose proof (tracks_now e Hr) as H.
  destruct (now_ms e) as [now e1]. cbn [snd] in H. pose proof (tracks_ready _ _ Hr H) as Hr1.
  eapply tracks_trans; [exact H|]. destruct (match restore_deadline ttl now absttl with
    | Some _ => _ | None => _ end).
  - pose proof (moves_del e1 key Hr1) as Hm. destruct (on_store _ e1) as [b e2].
    cbn [fst snd] in Hm. framed. destruct b.
    + eapply moves_logged; [exact Hm|by eexists|]. intros x y _ _ [-> _].
      change [&"DEL"; key] with (&"DEL" :: [key]). rewrite apply_del_keys by done.
      destruct (beq key k) eqn:E; case_bool_decide; try done;
        (apply beq_eq in E as -> || apply beq_neq in E); set_solver.
    + apply moves_tracks. eapply moves_weaken; [exact Hm|]. intros x y _ [_ Hy]. by apply Hy.
  - framed. rewrite propagate_built_eq. apply tracks_put; [done|by apply restore_deadline_int64].
Qed.

Lemma tracks_cmd_restore argv e : ready e -> tracks e (cmd_restore argv e).
Proof.
  intros Hr. pose proof (tracks_refl e Hr) as H0. unfold cmd_restore.
  destruct (restore_options _ _ _) as [[replace absttl]|]; [|by framed].
  destruct (parse_int64 (arg argv 2)) as [ttl|] eqn:Et; [|by framed].
  assert (Htt : in_int64 ttl = true) by (by eapply parse_int64_range).
  destruct (ttl <? 0); [by framed|].
  destruct replace.
  - destruct (Snapshot.restore_value _); [by apply tracks_restore_key|by framed].
  - pose proof (tracks_exists e (arg argv 1) Hr) as H. destruct (on_store _ e) as [b e1].
    cbn [snd] in H. destruct b; [by framed|].
    destruct (Snapshot.restore_value _); [|by framed].
    eapply tracks_then; [done|exact H|]. intros Hr1. by apply tracks_restore_key.
Qed.

Lemma tracks_migrate_collect keys replace request sent e :
  ready e -> tracks e (migrate_collect keys replace request sent e).2.
Proof.
  revert request sent e. induction keys as [|key keys IH]; intros request sent e Hr;
    [by apply tracks_refl|].
  cbn [migrate_collect]. pose proof (tracks_get e key Hr) as H.
  destruct (on_store (Store.get key) e) as [[v|] e1]; cbn [snd] in H;
    [|by eapply tracks_then; [done|exact H|apply IH]].
  pose proof (tracks_ready _ _ Hr H) as Hr1. pose proof (tracks_pttl e1 key Hr1) as H1.
  destruct (on_store (Store.pttl key) e1) as [p e2]. cbn [snd] in H1.
  eapply tracks_trans; [exact H|]. eapply tracks_then; [done|exact H1|apply IH].
Qed.

(** The keys deleted on the target's word are exactly the ones listed. *)
Lemma moves_migrate_confirm replies sent copy terr deleted e :
  ready e ->
  let r := migrate_confirm replies sent copy terr deleted e in
  exists new, r.1.2 = deleted ++ new /\
    moves (fun x y : kview => y = (if bool_decide (k ∈ new) then (None, None) else x)) e r.2.
Proof.
  cbv zeta. revert sent terr deleted e.
  assert (Hnil : forall e, ready e -> forall d : list bytes, exists new, d = d ++ new /\
    moves (fun x y : kview => y = (if bool_decide (k ∈ new) then (None, None) else x)) e e).
  { intros e Hr d. exists []. split; [by rewrite app_nil_r|]. split; [apply Hr|done|].
    exists []. split; [by rewrite app_nil_r|]. intros _. set_solver. }
  induction replies as [|r replies IH]; intros sent terr deleted e Hr; [by apply Hnil|].
  destruct sent as [|key sent]; [by apply Hnil|]. cbn [migrate_confirm].
  assert (Hdel : exists new,
    (let '(b, e1) := on_store (Store.del key) e in
     migrate_confirm replies sent copy terr (if (b : bool) then deleted ++ [key] else deleted) e1).1.2
      = deleted ++ new /\
    moves (fun x y : kview => y = (if bool_decide (k ∈ new) then (None, None) else x)) e
      (let '(b, e1) := on_store (Store.del key) e in
       migrate_confirm replies sent copy terr (if (b : bool) then deleted ++ [key] else deleted) e1).2).
  { pose proof (moves_del e key Hr) as H1. destruct (on_store _ e) as [b e1]. cbn [fst snd] in H1.
    destruct (IH sent terr (if b then deleted ++ [key] else deleted) e1) as (new & E & H2);
      [by eapply moves_ready|].
    exists (if b then key :: new else new). split; [by destruct b; rewrite E, <-?app_assoc|].
    eapply moves_trans; [exact H1|exact H2| |].
    - intros x y Hx [-> _]. by destruct (beq key k).
    - intros x y z _ [-> Hb] ->. destruct b; [|by rewrite Hb by done].
      destruct (beq key k) eqn:Ek; repeat case_bool_decide; try done;
        (apply beq_eq in Ek as -> || apply beq_neq in Ek); set_solver. }
  destruct r as [|c msg]; [|destruct (bz c =? 45)]; [|by apply IH|]; (destruct copy; [by apply IH|done]).
Qed.

Lemma tracks_migrate_keys host port timeout copy replace keys e :
  ready e -> tracks e (migrate_keys host port timeout copy replace keys e).
Proof.
  intros Hr. unfold migrate_keys. pose proof (tracks_migrate_collect keys replace [] [] e Hr) as H.
  destruct (migrate_collect keys replace [] [] e) as [[request sent] e1]. cbn [snd] in H.
  destruct (bool_decide (sent = [])); [by framed|].
  destruct (svc_exchange _ _ _ _ _ _) as [[replies io_error] w].
  pose proof (tracks_world _ _ w H) as H1. pose proof (tracks_ready _ _ Hr H1) as Hr1.
  eapply tracks_trans; [exact H1|]. clear H H1.
  destruct (moves_migrate_confirm replies sent copy [] [] (with_world e1 w) Hr1) as (new & E & Hm).
  destruct (migrate_confirm _ _ _ _ _ _) as [[terr deleted] e2]. cbn [fst snd app] in *. subst new.
  assert (H : tracks (with_world e1 w)
    (if bool_decide (deleted = []) then e2 else propagate (&"DEL" :: deleted) e2)).
  { destruct (bool_decide_reflect (deleted = [])) as [Hd|Hd].
    - subst. apply moves_tracks. eapply moves_weaken; [exact Hm|]. intros x y _ ->. set_solver.
    - eapply moves_logged; [exact Hm|by eexists|]. intros x y _ _ ->. by rewrite apply_del_keys. }
  destruct io_error; [by framed|]. destruct (bool_decide (terr = [])); by framed.
Qed.

Lemma tracks_cmd_migrate argv e : ready e -> tracks e (cmd_migrate argv e).
Proof.
  intros Hr. pose proof (tracks_refl e Hr) as H0. unfold cmd_migrate.
  destruct (parse_int64 _); [|by framed]. destruct (parse_int64 _); [|by framed].
  destruct (parse_int64 _); [|by framed]. destruct (_ || _); [by framed|].
  destruct (negb _); [by framed|].
  destruct (migrate_options _ _ _ _) as [err|[[copy replace] keys]]; [by framed|].
  by apply tracks_migrate_keys.
Qed.

Lemma tracks_replconf args e : ready e -> tracks e (replconf_loop args e).
Proof.
  revert e. induction args as [args IH] using (induction_ltof1 _ (@length _)). unfold ltof in IH.
  intros e Hr. pose proof (tracks_refl e Hr) as H0.
  destruct args as [|a [|v args]]; [by framed|by framed|]. cbn [replconf_loop].
  destruct (beq _ _).
  { destruct (parse_int64 v); [|by framed]. destruct (_ || _); [by framed|].
    eapply tracks_then; [done|by apply tracks_client|]. intros Hr1. apply IH; [simpl; lia|done]. }
  destruct (beq _ _); [apply IH; [simpl; lia|done]|].
  destruct (beq _ _).
  { destruct (client_ e); [|done]. destruct (parse_int64 v); [|done].
    destruct (_ && _); [by framed|done]. }
  destruct (beq _ _); [|by framed].
  destruct (client_ e); [|done]. destruct (_ && _); [by framed|done].
Qed.

(** *** The dispatcher *)

(** The commands that hand the store to another component for more than
    routing: they may turn the server into a replica or drop whole slots. *)
Definition administrative (name : bytes) : bool :=
  beq name &"REPLICAOF" || beq name &"SLAVEOF" || beq name &"CLUSTER".

Definition handler_tracks (row : bytes * CommandSpec) : Prop :=
  administrative row.1 = false ->
  forall argv e, ready e -> passive_expiry_ (store e) = false -> to_upper (arg argv 0) = row.1 ->
    arity_ok (arity row.2) (length argv) = true -> tracks e (handler row.2 argv e).

Lemma tracks_cmd_read {A} (f : KvStore -> A * KvStore) (g : A -> Env W -> Env W) e :
  tracks e (on_store f e).2 ->
  (forall a e', tracks e e' -> tracks e (g a e')) ->
  tracks e (let '(a, e') := on_store f e in g a e').
Proof. intros H Hg. destruct (on_store f e) as [a e']. by apply Hg. Qed.

(** Handlers that call another component and reply. *)
Ltac replies_only :=
  match goal with Hr : ready ?e |- _ => pose proof (tracks_refl e Hr) end;
  repeat first
    [ assumption
    | progress framed
    | match goal with |- context [match ?x with _ => _ end] => destruct x end ].

Lemma handlers_track : Forall handler_tracks table_.
Proof.
  unfold table_.
  repeat match goal with
  | |- Forall _ (_ :: _) =>
      apply List.Forall_cons;
        [intros Hadm argv e Hr Hp Hn Ha; cbn [fst snd handler arity] in *; try discriminate Hadm|]
  | |- Forall _ [] => apply List.Forall_nil
  end.
  - unfold cmd_ping. replies_only.
  - unfold cmd_echo. replies_only.
  - by apply tracks_cmd_set.
  - apply tracks_cmd_read; [by apply tracks_get|]. intros [v|] e' H; by framed.
  - by apply tracks_del.
  - unfold cmd_exists. pose proof (tracks_count_exists (drop 1 argv) 0 e Hr) as H.
    destruct (count_keys _ _ _ e). by framed.
  - by apply tracks_incr_by.
  - by apply tracks_incr_by.
  - unfold cmd_incrby. destruct (parse_int64 _); [by apply tracks_incr_by|replies_only].
  - unfold cmd_decrby. destruct (parse_int64 _); [|replies_only].
    destruct (_ =? _); [replies_only|by apply tracks_incr_by].
  - by apply tracks_expire_generic.
  - by apply tracks_expire_generic.
  - by apply tracks_expire_generic.
  - by apply tracks_expire_generic.
  - apply tracks_cmd_read; [by apply tracks_pttl|]. intros ms e' H; by framed.
  - apply tracks_cmd_read; [by apply tracks_pttl|]. intros ms e' H; by framed.
  - apply tracks_cmd_persist; [done|done|]. unfold arity_ok in Ha. simpl in Ha. zlia.
  - unfold cmd_dbsize. replies_only.
  - unfold cmd_save. replies_only.
  - unfold cmd_bgsave. replies_only.
  - unfold cmd_bgrewriteaof. replies_only.
  - unfold cmd_lastsave. replies_only.
  - unfold cmd_replconf. destruct (Nat.even _); [replies_only|by apply tracks_replconf].
  - unfold cmd_psync. replies_only.
  - unfold cmd_wait. replies_only.
  - unfold cmd_info. framed. by apply tracks_refl.
  - apply tracks_cmd_read; [by apply tracks_get|]. intros [v|] e' H; by framed.
  - by apply tracks_cmd_restore.
  - by apply tracks_cmd_restore.
  - by apply tracks_cmd_migrate.
  - unfold cmd_asking, set_client_flag. replies_only.
  - unfold cmd_readonly, set_client_flag. replies_only.
  - unfold cmd_readwrite, set_client_flag. replies_only.
Qed.

Lemma table_find_elem name (t : list (bytes * @CommandSpec W)) spec :
  table_find name t = Some spec -> (name, spec) ∈ t.
Proof.
  induction t as [|[n sp] t IH]; simpl; [done|]. destruct (beq n name) eqn:E.
  - apply beq_eq in E as ->. intros [= ->]. set_solver.
  - intros H%IH. set_solver.
Qed.

Lemma tracks_check_command spec argv asked fm e :
  ready e -> tracks e (check_command spec argv asked fm e).2.
Proof.
  intros Hr. unfold check_command.
  assert (H : tracks e (check_route spec argv asked fm e).2).
  { unfold check_route. destruct (client_ e) as [c|]; [|by apply tracks_refl].
    destruct (_ && _); [|by apply tracks_refl].
    pose proof (route_reports (keys_of spec argv) (kWrite spec) (asked || kAsking spec) c
      (world e) (store e) (proj1 Hr)) as Hrep.
    destruct (svc_route _ _ _ _ _ _) as [[r w] s]. cbn [snd].
    eapply tracks_trans; [apply tracks_world, (tracks_refl e Hr)|]. by apply tracks_reports. }
  destruct (check_route spec argv asked fm e) as [[r|] e1]; cbn [snd] in *; [done|].
  destruct (_ && _); [done|]. destruct (bool_decide _); [|done].
  eapply tracks_then; [done|exact H|]. intros Hr1. unfold check_memory.
  destruct (_ && _); [|by apply tracks_refl]. pose proof (tracks_evict e1 Hr1) as He.
  by destruct (on_store _ e1).
Qed.

Lemma tracks_dispatch argv e :
  ready e -> passive_expiry_ (store e) = false ->
  administrative (to_upper (arg argv 0)) = false -> tracks e (dispatch argv e).
Proof.
  intros Hr Hp Hadm. pose proof (tracks_refl e Hr) as H0. unfold dispatch.
  destruct argv as [|n args]; [done|]. change (arg (n :: args) 0) with n in Hadm.
  set (e1 := with_client _ _).
  assert (H1 : tracks e e1) by (by apply tracks_client).
  assert (Hp1 : passive_expiry_ (store e1) = false) by done. clearbody e1.
  pose proof (tracks_ready _ _ Hr H1) as Hr1.
  destruct (table_find _ _) as [spec|] eqn:Et; [|by framed].
  destruct (arity_ok _ _) eqn:Ea; [|by framed]. cbn [negb].
  eapply tracks_trans; [exact H1|]. set (fm := match client_ e1 with Some _ => _ | None => _ end).
  pose proof (tracks_check_command spec (n :: args)
    match client_ e with Some c => asking c | None => false end fm e1 Hr1) as H2.
  destruct (check_command _ _ _ _ e1) as [[err|] e2]; cbn [snd] in H2; [by framed|].
  eapply tracks_then; [done|exact H2|]. intros Hr2.
  pose proof handlers_track as HF. rewrite Forall_forall in HF.
  apply (HF (to_upper n, spec)); [|done|done| |done|done]; [|by rewrite (config_passive _ _ (tr_config _ _ H2))].
  by apply list_elem_of_In, table_find_elem.
Qed.

(** ** Replaying a log *)

(** The two places a log is executed again: a server at startup, which has no
    client and is not a replica yet, and a replica's link to its master. *)
Definition trusted (e : Env W) : Prop :=
  match client_ e with
  | None => loading e = true /\ has_replication (world e) && is_replica (world e) = false
  | Some c => is_master c = true
  end.

(** The state after an entry that gave [k] the view [vw]. *)
Record settled (vw : kview) (e e' : Env W) : Prop := {
  st_wf : wf (store e');
  st_config : config (store e') = config (store e);
  st_world : world e' = world e;
  st_client : is_master <$> client_ e' = is_master <$> client_ e;
  st_view : view_of e' = vw
}.

Lemma settled_out vw e e' o : settled vw e e' -> settled vw e (with_out e' o).
Proof. by intros [A B C D V]. Qed.

Lemma settled_refl e : ready e -> settled (view_of e) e e.
Proof. intros [H _]. by split. Qed.

Lemma settled_propagate vw e e' argv : settled vw e e' -> settled vw e (propagate argv e').
Proof. by intros [A B C D V]. Qed.

(** What store operations do not touch. *)
Definition same_world (e e' : Env W) : Prop := world e' = world e /\ client_ e' = client_ e.

Lemma on_store_world {A} (f : KvStore -> A * KvStore) e : same_world e (on_store f e).2.
Proof. unfold on_store. by destruct (f (store e)). Qed.

Lemma settled_moves (R : kview -> kview -> Prop) vw e e' :
  moves R e e' -> same_world e e' -> fresh_view T (view_of e) ->
  (forall y, R (view_of e) y -> y = vw) -> settled vw e e'.
Proof.
  intros [A B (dels & _ & V)] [Ew Ec] Hf H. split; [done|done|done|by rewrite Ec|].
  destruct (V Hf) as [_ HR]. by apply H.
Qed.

Lemma put_key_world key v keep exp e : same_world e (put_key key v keep exp e).
Proof. unfold put_key. destruct exp; [|done]. apply (on_store_world _ (with_store e _)). Qed.

(** A SET that went through its options. *)
Lemma settled_put e key v (keep : bool) exp vw :
  ready e -> fresh_view T (view_of e) ->
  vw = (if beq key k then (Some v, match exp with
                                  | Some w => Some w
                                  | None => if keep then (view_of e).2 else None
                                  end) else view_of e) ->
  (beq key k = true -> forall w, exp = Some w -> T < w) ->
  settled vw e (propagate_built (logged_set key v exp keep) (put_key key v keep exp e)).
Proof.
  intros Hr Hf -> Hw. rewrite propagate_built_eq. apply settled_propagate.
  eapply settled_moves; [by apply moves_put|apply put_key_world|done|].
  intros y. destruct (beq key k); [|done]. destruct exp as [w|]; [|done].
  intros H. apply H. by apply Hw.
Qed.

Lemma deadline_from_ms now w : now = 0 -> in_int64 w = true -> deadline_from now w 1 = Some w.
Proof.
  intros -> H. unfold deadline_from, mul_overflow, add_overflow.
  by rewrite Z.mul_1_r, H, Z.add_0_l, H.
Qed.

Lemma set_options_pxat w z e :
  parse_int64 w = Some z ->
  set_options [&"PXAT"; w] (mkSetOptions false false false None) e =
  if 0 <? z then (inr (mkSetOptions false false false (Some z)), e)
  else (inl &"ERR invalid expire time in 'set' command", e).
Proof.
  intros Ez. cbn [set_options]. rewrite Ez. destruct (0 <? z); [|done].
  cbv iota beta. change (beq (to_upper &"PXAT") &"EX" || beq (to_upper &"PXAT") &"PX") with false.
  cbv iota beta. change (if _ || _ then 1000 else 1) with 1.
  by rewrite deadline_from_ms by (done || by eapply parse_int64_range).
Qed.

Context (HT : 0 <= T).

Lemma replay_set e name args l :
  ready e -> fresh_view T (view_of e) -> to_upper name = &"SET" ->
  as_logged (name :: args) = Some l -> future_entry k T (name :: args) = true ->
  settled (apply_entry k l (view_of e)) e (cmd_set (name :: args) e).
Proof.
  intros Hr Hf Hn. unfold future_entry, as_logged. rewrite Hn.
  change (beq &"SET" &"SET") with true. cbv iota.
  destruct args as [|key [|v [|o [|w [|? ?]]]]]; try done; cbv iota.
  - intros [= <-] _. apply settled_out, settled_put; [done|done|done|done].
  - destruct (beq o &"KEEPTTL") eqn:Eo; [|done]. apply beq_eq in Eo as ->.
    intros [= <-] _. apply settled_out, settled_put; [done|done|done|done].
  - destruct (beq o &"PXAT") eqn:Eo; [|done]. apply beq_eq in Eo as ->. intros [= <-] Hfut.
    cbn [apply_entry]. unfold cmd_set. cbn [drop].
    assert (Hk : beq key k = true -> exists z, parse_int64 w = Some z /\ T < z).
    { intros E. rewrite E in Hfut. simpl in Hfut. unfold deadline_after in Hfut.
      destruct (parse_int64 w) as [z|]; [|done]. exists z. split; [done|zlia]. }
    destruct (parse_int64 w) as [z|] eqn:Ez.
    2:{ cbn [set_options]. rewrite Ez.
        destruct (beq key k); [by destruct Hk as (? & ? & ?)|]. by apply settled_out, settled_refl. }
    assert (Hz : beq key k = true -> T < z) by (intros E; destruct (Hk E) as (? & [= <-] & ?); done).
    rewrite (set_options_pxat _ z) by done. destruct (0 <? z) eqn:E0; zbool.
    + apply settled_out, settled_put; [done|done|done|]. by intros E ? [= <-]; apply Hz.
    + destruct (beq key k); [by specialize (Hz eq_refl); lia|]. by apply settled_out, settled_refl.
Qed.

Lemma replay_del e name keys :
  ready e -> fresh_view T (view_of e) ->
  settled (apply_entry k (LDel keys) (view_of e)) e (cmd_del (name :: keys) e).
Proof.
  intros Hr Hf. unfold cmd_del. change (drop 1 (name :: keys)) with keys.
  assert (Hw : forall ks n e0, same_world e0 (count_keys Store.del ks n e0).2).
  { intros ks. induction ks as [|key ks IH]; intros n e0; [done|]. cbn [count_keys].
    pose proof (on_store_world (Store.del key) e0) as [H1 H2].
    destruct (on_store (Store.del key) e0) as [b e1]. cbn [snd] in *.
    destruct (IH (if b then n + 1 else n) e1). split; congruence. }
  specialize (Hw keys 0 e). pose proof (tracks_count_del keys 0 e Hr) as Hm.
  destruct (count_keys Store.del keys 0 e) as [n e1]. cbn [fst snd] in *. apply settled_out.
  assert (H : settled (apply_entry k (LDel keys) (view_of e)) e e1)
    by (eapply settled_moves; [exact Hm|done|done|]; by intros y [-> _]).
  destruct (0 <? n); [by apply settled_propagate|done].
Qed.

Lemma moves_now e : ready e -> moves (fun x y : kview => y = x) e (now_ms e).2.
Proof.
  intros Hr. eapply moves_refines; [apply ticked_refines, Hr|]. intros _. set_solver.
Qed.

Lemma replay_pexpireat e name key w :
  ready e -> fresh_view T (view_of e) -> (beq key k = true -> deadline_after T w = true) ->
  settled (apply_entry k (LExpireAt key w) (view_of e)) e (cmd_pexpireat [name; key; w] e).
Proof.
  intros Hr Hf Hd. unfold cmd_pexpireat, expire_generic.
  change (arg [name; key; w] 2) with w. change (arg [name; key; w] 1) with key. cbn [apply_entry].
  unfold deadline_after in Hd. destruct (parse_int64 w) as [z|] eqn:Ez.
  2:{ destruct (beq key k); [by specialize (Hd eq_refl)|]. by apply settled_out, settled_refl. }
  pose proof (moves_now e Hr) as H1. pose proof (moves_ready _ _ _ Hr H1) as Hr1.
  pose proof (on_store_world Store.now_ms e) as W1. unfold now_ms in *.
  destruct (on_store Store.now_ms e) as [now e1]. cbn [snd] in *.
  rewrite deadline_from_ms by (done || by eapply parse_int64_range).
  pose proof (moves_set_expire e1 key z (reading (store e1)) Hr1) as H2.
  pose proof (on_store_world (Store.set_expire key z) e1) as W2.
  destruct (on_store (Store.set_expire key z) e1) as [b e2]. cbn [fst snd] in *.
  assert (H : settled (if beq key k then match (view_of e).1 with
                         | Some v => (Some v, Some z) | None => view_of e end else view_of e) e e2).
  { eapply settled_moves.
    - eapply moves_trans; [exact H1|apply H2; by exists (reads_ (store e1))|by intros x y ? ->|].
      intros x y z' _ -> HR. exact HR.
    - destruct W1, W2. split; congruence.
    - done.
    - intros y. unfold set_expire_view. destruct (beq key k); [|done]. specialize (Hd eq_refl).
      destruct (view_of e) as [[v|] d]; simpl; [|by intros [-> _]].
      intros [[_ Hy] _]. apply Hy. zlia. }
  destruct b; cbn [negb]; apply settled_out; [|done].
  rewrite propagate_built_eq. by apply settled_propagate.
Qed.

Lemma replay_persist e name key :
  ready e -> fresh_view T (view_of e) ->
  settled (apply_entry k (LPersist key) (view_of e)) e (cmd_persist [name; key] e).
Proof.
  intros Hr Hf. unfold cmd_persist. change (arg [name; key] 1) with key.
  pose proof (moves_persist e key Hr) as Hm. pose proof (on_store_world (Store.persist key) e) as Hw.
  destruct (on_store (Store.persist key) e) as [b e1]. cbn [fst snd] in *.
  assert (H : settled (apply_entry k (LPersist key) (view_of e)) e e1)
    by (eapply settled_moves; [exact Hm|done|done|]; by intros y [-> _]).
  destruct b; cbn [negb]; apply settled_out; [by apply settled_propagate|done].
Qed.

(** The client's pending ASKING is spent. *)
Definition unasked (e : Env W) : Env W :=
  with_client e ((fun c => with_asking c false) <$> client_ e).

Lemma settled_unasked vw e e' : settled vw (unasked e) e' -> settled vw e e'.
Proof.
  intros [A B C D V]. split; [done|done|done| |done]. rewrite D. simpl. by destruct (client_ e).
Qed.

(** With the checks off, the dispatcher runs the handler of the table. *)
Lemma dispatch_trusted n args e spec :
  trusted e -> table_find (to_upper n) table_ = Some spec ->
  arity_ok (arity spec) (length (n :: args)) = true ->
  dispatch (n :: args) e = handler spec (n :: args) (unasked e).
Proof.
  intros Ht Hfind Ha. unfold dispatch. rewrite Hfind, Ha. cbn [negb]. fold (unasked e).
  unfold check_command, check_route, check_memory, trusted in *. simpl client_.
  destruct (client_ e) as [c|] eqn:Ec; cbn [fmap option_fmap option_map].
  - change (is_master (with_asking c false)) with (is_master c). rewrite Ht. cbn [negb].
    rewrite !andb_false_r. cbn [andb]. by rewrite !andb_false_r.
  - destruct Ht as [Hl Hrep]. change (loading (unasked e)) with (loading e).
    change (world (unasked e)) with (world e). cbn [negb].
    rewrite andb_true_r, <-andb_assoc, Hrep, andb_false_r, Hl. cbn [negb].
    rewrite !andb_false_r. done.
Qed.

Lemma replay_entry e argv l :
  ready e -> trusted e -> fresh_view T (view_of e) -> as_logged argv = Some l ->
  future_entry k T argv = true ->
  settled (apply_entry k l (view_of e)) e (dispatch argv e).
Proof.
  intros Hr Hs Hf Hl Hfut. destruct argv as [|n args]; [done|]. apply settled_unasked.
  change (view_of e) with (view_of (unasked e)) in *. change (ready (unasked e)) in Hr.
  pose proof Hl as Hl'. pose proof Hfut as Hfut'. unfold future_entry in Hfut'. rewrite Hl in Hfut'.
  unfold as_logged in Hl'. destruct (beq (to_upper n) &"SET") eqn:E1.
  { apply beq_eq in E1. rewrite (dispatch_trusted _ _ _ (mkSpec &"set" cmd_set (-3) true true false 1 1 1));
      [by apply replay_set|done|by rewrite E1|].
    destruct args as [|? [|? args]]; try done. apply Z.leb_le. cbn [length arity]. lia. }
  destruct (beq (to_upper n) &"DEL") eqn:E2.
  { apply beq_eq in E2. injection Hl' as <-. destruct args as [|key keys].
    - unfold dispatch. rewrite E2. by apply settled_out, (settled_refl (unasked e)).
    - rewrite (dispatch_trusted _ _ _ (mkSpec &"del" cmd_del (-2) true false false 1 (-1) 1));
        [by apply replay_del|done|by rewrite E2|]. apply Z.leb_le. cbn [length arity]. lia. }
  destruct (beq (to_upper n) &"PEXPIREAT") eqn:E3.
  { apply beq_eq in E3. destruct args as [|key [|w [|? ?]]]; try done. injection Hl' as <-.
    rewrite (dispatch_trusted _ _ _ (mkSpec &"pexpireat" cmd_pexpireat 3 true false false 1 1 1));
      [|done|by rewrite E3|done].
    apply replay_pexpireat; [done|done|]. intros Ek. by rewrite Ek in Hfut'. }
  destruct (beq (to_upper n) &"PERSIST") eqn:E4; [|done].
  apply beq_eq in E4. destruct args as [|key [|? ?]]; try done. injection Hl' as <-.
  rewrite (dispatch_trusted _ _ _ (mkSpec &"persist" cmd_persist 2 true false false 1 1 1));
    [by apply replay_persist|done|by rewrite E4|done].
Qed.

(** Feeding a log to the dispatcher. *)
Definition replay (l : list Args) (e : Env W) : Env W := foldl (fun e argv => dispatch argv e) e l.

Lemma replay_log l e :
  ready e -> trusted e -> fresh_view T (view_of e) ->
  Forall (fun a => is_Some (as_logged a)) l -> future k T l = true ->
  view_of (replay l e) = apply_log k (view_of e) l.
Proof.
  revert e. induction l as [|a l IH]; intros e Hr Hs Hf Hl Hfut; [done|].
  apply Forall_cons_1 in Hl as [[x Hx] Hl]. cbn [future forallb] in Hfut.
  apply andb_true_iff in Hfut as [Ha Hfut].
  pose proof (replay_entry e a x Hr Hs Hf Hx Ha) as [A B C D V].
  assert (Ea : apply_entry k x (view_of e) = apply_logged k (view_of e) a)
    by (unfold apply_logged; by rewrite Hx).
  change (replay (a :: l) e) with (replay l (dispatch a e)).
  change (apply_log k (view_of e) (a :: l)) with (apply_log k (apply_logged k (view_of e) a) l).
  rewrite <-Ea, <-V. apply IH; [|..|done|done].
  - destruct Hr as [_ Hst]. split; [done|by eapply steady_config].
  - unfold trusted, loading in *. rewrite C.
    destruct (client_ e), (client_ (dispatch a e)); simplify_eq/=; congruence || done.
  - rewrite V, Ea. by apply apply_logged_fresh.
Qed.

(** *** Replaying late *)

(** A deadline that has passed when it is replayed takes the key with it. *)
Lemma replay_set_late e v w :
  ready e -> passive_expiry_ (store e) = false -> fresh_view T (view_of e) ->
  in_int64 w = true -> 0 < w -> (forall i, w <= clock (store e) i) ->
  settled (None, None) e (cmd_set [&"SET"; k; v; &"PXAT"; to_string w] e).
Proof.
  intros Hr Hp Hf Hw H0 Hlate. unfold cmd_set. cbn [drop].
  rewrite (set_options_pxat _ w) by by apply parse_to_string. rewrite (proj2 (Z.ltb_lt 0 w) H0).
  apply settled_out. change (propagate_built _ _)
    with (propagate_built (logged_set k v (Some w) false) (put_key k v false (Some w) e)).
  rewrite propagate_built_eq. apply settled_propagate. pose proof (moves_set e k v false Hr) as H1.
  pose proof (put_key_world k v false (Some w) e) as Hwd. unfold put_key in *.
  set (e1 := with_store _ _) in *. pose proof (moves_ready _ _ _ Hr H1) as Hr1.
  pose proof (mv_config _ _ _ H1) as Hc. clearbody e1.
  eapply (settled_moves (fun _ y => y = (None, None))); [|done|done|done].
  eapply moves_trans; [exact H1|apply (moves_set_expire e1 k w (reading (store e1)) Hr1)| |].
  - by exists (reads_ (store e1)).
  - intros x y _ ->. rewrite beq_refl. by split.
  - intros x y z _ ->. unfold set_expire_view. rewrite beq_refl. simpl. intros [[H _] _]. apply H.
    + by rewrite (config_passive _ _ Hc).
    + unfold reading. rewrite (config_clock _ _ Hc). apply Hlate.
Qed.

Lemma replay_late e v w :
  ready e -> trusted e -> passive_expiry_ (store e) = false -> fresh_view T (view_of e) ->
  in_int64 w = true -> 0 < w -> (forall i, w <= clock (store e) i) ->
  view_of (replay [[&"SET"; k; v; &"PXAT"; to_string w]; [&"PERSIST"; k]] e) = (None, None).
Proof.
  intros Hr Ht Hp Hf Hw H0 Hlate. cbn [replay foldl].
  assert (H1 : settled (None, None) e (dispatch [&"SET"; k; v; &"PXAT"; to_string w] e)).
  { apply settled_unasked.
    rewrite (dispatch_trusted _ _ _ (mkSpec &"set" cmd_set (-3) true true false 1 1 1)); [|done|done|done].
    by apply replay_set_late. }
  set (e1 := dispatch _ e) in *. destruct H1 as [A B C D V]. clearbody e1.
  assert (Hr1 : ready e1) by (destruct Hr as [_ Hst]; split; [done|by eapply steady_config]).
  assert (Ht1 : trusted e1).
  { unfold trusted, loading in *. rewrite C. destruct (client_ e), (client_ e1); simplify_eq/=; congruence || done. }
  pose proof (replay_entry e1 [&"PERSIST"; k] (LPersist k) Hr1 Ht1 ltac:(by rewrite V) eq_refl eq_refl) as [_ _ _ _ V2].
  rewrite V2, V. cbn [apply_entry]. by rewrite beq_refl.
Qed.

(** ** Histories of a server *)

(** Commands from any client, and the store's share of the periodic task. *)
Inductive event :=
  | Command (c : option Client) (argv : Args)
  | Expire (rounds : nat) (draws : list nat)
  | Rehash (rounds : nat).

Definition ordinary (ev : event) : bool :=
  match ev with Command _ argv => negb (administrative (to_upper (arg argv 0))) | _ => true end.

(** [None] when the expiry cycle ran out of random draws. *)
Definition exec (ev : event) (e : Env W) : option (Env W) :=
  match ev with
  | Command c argv => Some (dispatch argv (with_client (with_out e []) c))
  | Expire rounds draws =>
      (fun r => with_store e r.2) <$> active_expire_cycle rounds (with_rng (store e) draws)
  | Rehash rounds => Some (with_store e (active_rehash rounds (store e)).2)
  end.

Fixpoint serve (evs : list event) (e : Env W) : option (Env W) :=
  match evs with
  | [] => Some e
  | ev :: evs => match exec ev e with Some e => serve evs e | None => None end
  end.

Lemma tracks_exec ev e e' :
  ready e -> passive_expiry_ (store e) = false -> ordinary ev = true -> exec ev e = Some e' -> tracks e e'.
Proof.
  intros Hr Hp Ho. destruct ev as [c argv|rounds draws|rounds]; simpl.
  - intros [= <-]. apply negb_true_iff in Ho.
    eapply tracks_then; [done|apply tracks_client, tracks_out, (tracks_refl e Hr)|].
    intros Hr1. by apply tracks_dispatch.
  - intros ([n s] & Ea & ->)%fmap_Some_1.
    destruct (active_expire_refines rounds (with_rng (store e) draws) n s)
      as (vs & [[Hw Ha Hc Hn] Hexp] & _); [by apply (wf_tables (store e)), Hr|done|].
    apply moves_tracks. eapply (moves_refines _ _ _ (vs, drop_keys (ks_of e) vs)).
    { split; [done|done|done|done]. }
    intros [Hf _]. cbn [fst snd]. assert (Hk : k ∉ vs).
    { intros Hin. rewrite Forall_forall in Hexp.
      destruct (Hexp k (proj1 (list_elem_of_In _ _) Hin)) as (w & i & Hw' & Hi).
      specialize (Hf w Hw'). destruct Hr as (_ & HT' & _). specialize (HT' i). simpl in Hi. lia. }
    split; [done|]. by rewrite view_drops, bool_decide_false.
  - intros [= <-]. apply moves_tracks. eapply moves_refines; [apply active_rehash_refines, Hr|].
    intros _. set_solver.
Qed.

Lemma tracks_serve evs e e' :
  ready e -> passive_expiry_ (store e) = false -> forallb ordinary evs = true -> serve evs e = Some e' -> tracks e e'.
Proof.
  revert e. induction evs as [|ev evs IH]; intros e Hr Hp; simpl.
  - intros _ [= <-]. by apply tracks_refl.
  - intros [Ho Hos]%andb_true_iff. destruct (exec ev e) as [e1|] eqn:E; [|done].
    pose proof (tracks_exec _ _ _ Hr Hp Ho E) as H1. intros H2.
    eapply tracks_then; [done|exact H1|]. intros Hr1. apply IH; [done| |done|done].
    by rewrite (config_passive _ _ (tr_config _ _ H1)).
Qed.
End tracking.
End Replay.

(** ** Main results *)

Module ReplayClaims.
Import Store Dispatcher Replay.

(** A server without cluster or replication; the world says whether it is
    loading. *)
#[local] Instance demo_services : Services bool := {|
  has_persistence _ := true;
  persistence_loading w := w;
  write_error _ := [];
  svc_save w _ := (None, w);
  svc_bgsave w _ := (None, w);
  svc_bgrewriteaof w _ := (kStarted, w);
  svc_lastsave _ := 0;
  svc_count_change w := w;
  log_wanted _ := true;
  has_replication _ := false;
  is_replica _ := false;
  svc_replicaof_no_one w s := (w, s);
  svc_replicaof _ _ w s := (w, s);
  svc_replconf_ack _ _ w := w;
  svc_replconf_getack w := w;
  svc_psync _ _ _ o w := (o, w);
  svc_wait _ _ _ o w := (o, w);
  svc_info _ := [];
  has_cluster _ := false;
  svc_route _ _ _ _ w s := (None, w, s);
  svc_cluster_command _ o w s := (o, w, s);
  svc_exchange _ _ _ _ _ w := ([], None, w)
|}.

Lemma reports_refl s : wf s -> reports s s.
Proof. intros Hw. split_and!; [done|done|]. exists []. split; [by rewrite app_nil_r|done]. Qed.

#[local] Instance demo_keyspace : KeyspaceServices bool.
Proof. split; [|done]. intros keys wr ask c w s Hw. by apply reports_refl. Qed.

Definition demo_env (t : Z) (loading : bool) : Env bool :=
  mkEnv (make 0 kNoEviction (fun _ => t) []) loading [] None [].

Lemma demo_ready t T loading : t <= T -> ready T (demo_env t loading).
Proof. intros H. split; [apply make_wf|]. split; [done|]. intros i. simpl. lia. Qed.

Definition demo_client : option Client := Some (mkClient 7 false false false 0).

Definition demo_events : list event :=
  [Command demo_client [&"SET"; &"n"; &"41"; &"PX"; &"9000"];
   Command demo_client [&"incr"; &"n"];
   Command demo_client [&"SET"; &"m"; &"x"];
   Command demo_client [&"EXPIRE"; &"m"; &"5"];
   Command demo_client [&"del"; &"m"; &"z"]].

(** C1: Executing the propagated log again rebuilds the dataset.  A master
    serves any sequence of commands, expiry cycles and rehash steps by a clock
    that stays within [T]; if every deadline it logged for key [k] is after
    [T], then an empty server that executes the log, at startup or on a
    replica's link to its master and by any clock that stays within [T], ends
    with the same value and the same deadline for [k]. *)
Theorem replay_rebuilds {W} `{SV : Services W} `{KS : !KeyspaceServices W}
  (T : Z) (k : bytes) (evs : list event) (e0 e1 e2 : Env W) :
  0 <= T ->
  ready T e0 -> passive_expiry_ (store e0) = false -> view k (abstract (store e0)) = (None, None) ->
  log e0 = [] -> forallb ordinary evs = true -> serve evs e0 = Some e1 ->
  future k T (log e1) = true ->
  ready T e2 -> trusted e2 -> view k (abstract (store e2)) = (None, None) ->
  view k (abstract (store (replay (log e1) e2))) = view k (abstract (store e1)).
Proof.
  intros HT Hr0 Hp Hv0 Hlog Ho Hs Hfut Hr2 Ht Hv2.
  destruct (tracks_serve T k HT evs e0 e1 Hr0 Hp Ho Hs) as [_ _ (l & Hl & Hlogged & Hview)].
  rewrite Hlog in Hl. simpl in Hl. subst l.
  assert (Hf : fresh_view T (None, None)) by done.
  unfold view_of, ks_of in Hview. rewrite Hv0 in Hview. rewrite (Hview Hfut Hf), <-Hv2.
  apply (replay_log T k HT); [done|done|by unfold view_of, ks_of; rewrite Hv2|done|done].
Qed.

Definition demo_served : Env bool :=
  default (demo_env 0 false) (serve demo_events (demo_env 1000 false)).

Lemma demo_served_eq : serve demo_events (demo_env 1000 false) = Some demo_served.
Proof.
  unfold demo_served. assert (H : is_Some (serve demo_events (demo_env 1000 false)))
    by (eexists; reflexivity). by destruct H as [e ->].
Qed.

Lemma replay_rebuilds_witness :
  view &"n" (abstract (store demo_served)) = (Some &"42", Some 10000) /\
  view &"n" (abstract (store (replay (log demo_served) (demo_env 2000 true)))) =
    view &"n" (abstract (store demo_served)).
Proof.
  split; [by vm_compute|].
  refine (replay_rebuilds 5000 &"n" demo_events (demo_env 1000 false) demo_served
    (demo_env 2000 true) _ (demo_ready _ _ _ _) _ _ _ _ demo_served_eq _ (demo_ready _ _ _ _) _ _);
    first [lia | by vm_compute].
Defined.

(** C39: the bound on the deadlines in the first statement is needed.  A server
    that has logged a SET with a deadline and then a PERSIST of the same key
    holds the key, permanently; a start that replays this log after the old
    deadline ends without the key, for every key, value, deadline and clock. *)
Theorem late_replay_loses_key {W} `{SV : Services W} `{KS : !KeyspaceServices W}
    (T T' w : Z) (k v : bytes) (evs : list event) (e0 e1 e2 : Env W)
    (Hrange : 0 <= T < w /\ in_int64 w = true)
    (Hserver : ready T e0 /\ passive_expiry_ (store e0) = false /\ view k (abstract (store e0)) = (None, None) /\
               log e0 = [])
    (Hevents : forallb ordinary evs = true) (Hserved : serve evs e0 = Some e1)
    (Hlog : log e1 = [[&"SET"; k; v; &"PXAT"; to_string w]; [&"PERSIST"; k]])
    (Hstart : ready T' e2 /\ passive_expiry_ (store e2) = false /\ trusted e2 /\
              view k (abstract (store e2)) = (None, None))
    (Hlate : 0 <= T' /\ forall i, w <= clock (store e2) i) :
  view k (abstract (store e1)) = (Some v, None) /\
  view k (abstract (store (replay (log e1) e2))) = (None, None).
Proof.
  destruct Hrange as [[HT Hw] H64], Hserver as (Hr0 & Hp & Hv0 & Hl0), Hstart as (Hr2 & Hp2 & Ht & Hv2).
  destruct Hlate as [HT' Hlate]. split.
  - destruct (tracks_serve T k HT evs e0 e1 Hr0 Hp Hevents Hserved) as [_ _ (l & Hl & _ & Hview)].
    rewrite Hl0 in Hl. simpl in Hl. subst l. rewrite Hlog in Hview.
    unfold view_of, ks_of in Hview. rewrite Hv0 in Hview. rewrite Hview.
    + change (apply_entry k (LPersist k) (apply_entry k (LSetPxat k v (to_string w)) (None, None)) = (Some v, None)).
      cbn [apply_entry]. by rewrite beq_refl.
    + change ((negb (beq k k) || deadline_after T (to_string w)) && true = true).
      unfold deadline_after. rewrite beq_refl, parse_to_string by done. cbn [negb orb]. zlia.
    + done.
  - rewrite Hlog. apply (replay_late T' k HT'); try done; [by unfold view_of, ks_of; rewrite Hv2|lia].
Qed.

Definition demo_persisted : Env bool :=
  default (demo_env 0 false)
    (serve [Command demo_client [&"SET"; &"k"; &"v"; &"PX"; &"100"];
            Command demo_client [&"PERSIST"; &"k"]] (demo_env 1000 false)).

Lemma late_replay_loses_key_witness :
  view &"k" (abstract (store demo_persisted)) = (Some &"v", None) /\
  view &"k" (abstract (store (replay (log demo_persisted) (demo_env 5000 true)))) = (None, None).
Proof.
  refine (late_replay_loses_key 1000 5000 1100 &"k" &"v"
    [Command demo_client [&"SET"; &"k"; &"v"; &"PX"; &"100"]; Command demo_client [&"PERSIST"; &"k"]]
    (demo_env 1000 false) demo_persisted (demo_env 5000 true) _ _ _ _ _ _ _).
  - by vm_compute.
  - split; [by apply demo_ready|by vm_compute].
  - by vm_compute.
  - by vm_compute.
  - by vm_compute.
  - split; [by apply demo_ready|by vm_compute].
  - split; [lia|]. simpl. lia.
Defined.

End ReplayClaims.
