(* ===== verification/ClusterMsg.v ===== *)
(** * Messages of the cluster bus (src/src/cluster_msg.cpp, src/include/cluster_msg.hpp)

    A message is a header and a body that depends on its type, sent as a RESP
    array of bulk strings.  [encode] and [decode] are the two directions; the
    slot bitmap travels as 2048 raw bytes.  The theorems: every well-formed
    message survives the trip through the encoder, the RESP parser and the
    decoder, and whatever the decoder accepts is well formed. *)

From S2P Require Import Prelude Resp Slots.
From Stdlib Require Import Lia.

Module ClusterMsg.

(** [std::bitset<kSlots>]: bit [i] is slot [i]. *)
Definition SlotBitmap : Type := Z.

Definition kNodeIdLength : nat := 40.
Definition kHeaderFields : nat := 11.
Definition kGossipFields : nat := 5.
Definition kSlotBytes : nat := Z.to_nat (kSlots / 8).

Inductive MsgType :=
  | kPing | kPong | kMeet | kUpdate | kFail
  | kFailoverAuthRequest | kFailoverAuthAck | kMfStart.

#[global] Instance msg_type_eq_dec : EqDecision MsgType.
Proof. solve_decision. Defined.

Definition kMsgPaused : Z := 1.
Definition kMsgForceAck : Z := 2.

Record GossipEntry := mkGossip {
  g_id : bytes;
  g_ip : bytes;
  g_port : Z;
  g_cport : Z;
  g_replica : bool;
  g_pfail : bool;
  g_fail : bool
}.

Record Message := mkMessage {
  type : MsgType;
  sender : bytes;
  port : Z;
  cport : Z;
  replica : bool;
  master_id : bytes;
  current_epoch : Z;
  config_epoch : Z;
  repl_offset : Z;
  mflags : Z;
  slots : SlotBitmap;
  gossip : list GossipEntry;
  update_id : bytes;
  update_epoch : Z;
  update_slots : SlotBitmap;
  fail_id : bytes
}.

Definition kAllTypes : list MsgType :=
  [kPing; kPong; kMeet; kUpdate; kFail; kFailoverAuthRequest; kFailoverAuthAck; kMfStart].

Definition type_name (t : MsgType) : bytes :=
  match t with
  | kPing => &"PING"
  | kPong => &"PONG"
  | kMeet => &"MEET"
  | kUpdate => &"UPDATE"
  | kFail => &"FAIL"
  | kFailoverAuthRequest => &"FAILOVER_AUTH_REQUEST"
  | kFailoverAuthAck => &"FAILOVER_AUTH_ACK"
  | kMfStart => &"MFSTART"
  end.

Definition parse_type (s : bytes) : option MsgType :=
  List.find (fun candidate => beq s (type_name candidate)) kAllTypes.

Definition header_only (t : MsgType) : bool :=
  match t with kFailoverAuthRequest | kFailoverAuthAck | kMfStart => true | _ => false end.

(** [parse_uint<T>] for an unsigned type with maximum [hi]. *)
Definition parse_uint (hi : Z) (s : bytes) : option Z := from_chars_all false 0 hi s.

Definition uint16_max : Z := 2 ^ 16 - 1.
Definition uint32_max : Z := 2 ^ 32 - 1.
Definition uint64_max : Z := 2 ^ 64 - 1.

Definition parse_port (s : bytes) : option Z :=
  match parse_uint uint16_max s with
  | Some port => if port =? 0 then None else Some port
  | None => None
  end.

Definition role_name (replica : bool) : bytes := if replica then &"slave" else &"master".

Definition parse_role (s : bytes) : option bool :=
  if beq s &"master" then Some false else if beq s &"slave" then Some true else None.

Definition gossip_flags (g : GossipEntry) : bytes :=
  role_name (g_replica g) ++
  (if g_fail g then &",fail" else if g_pfail g then &",fail?" else []).

(** The [while] loop over the flags after the role; every round moves to a
    later comma, so [length s] rounds are enough. *)
Fixpoint parse_flags_loop (fuel : nat) (s : bytes) (comma : option nat) (pfail fail : bool)
  : option (bool * bool) :=
  match comma with
  | None => Some (pfail, fail)
  | Some comma =>
      match fuel with
      | O => None
      | S fuel =>
          let next := find_byte ","%byte s (comma + 1) in
          let flag := match next with
                      | None => drop (comma + 1) s
                      | Some next => Parser.substr s (comma + 1) (next - comma - 1)
                      end in
          if beq flag &"fail?" then parse_flags_loop fuel s next true fail
          else if beq flag &"fail" then parse_flags_loop fuel s next pfail true
          else None
      end
  end.

(** The role and the two flags. *)
Definition parse_gossip_flags (s : bytes) : option (bool * bool * bool) :=
  let comma := find_byte ","%byte s 0 in
  match parse_role (match comma with Some c => Parser.substr s 0 c | None => s end) with
  | None => None
  | Some replica =>
      match parse_flags_loop (S (length s)) s comma false false with
      | Some (pfail, fail) => Some (replica, pfail, fail)
      | None => None
      end
  end.

Definition is_id_char (c : byte) : bool :=
  ((48 <=? bz c) && (bz c <=? 57)) || ((97 <=? bz c) && (bz c <=? 102)).

Definition valid_node_id (id : bytes) : bool :=
  (length id =? kNodeIdLength)%nat && forallb is_id_char id.

Definition set_slot_byte (slots : SlotBitmap) (bs : bytes) (slot : Z) : bytes :=
  if Z.testbit slots slot
  then alter (fun b => zb (Z.lor (bz b) (Z.shiftl 1 (slot mod 8)))) (Z.to_nat (slot / 8)) bs
  else bs.

Definition slots_to_bytes (slots : SlotBitmap) : bytes :=
  foldl (set_slot_byte slots) (replicate kSlotBytes x00) (seqZ 0 kSlots).

Definition get_slot_byte (bs : bytes) (slots : SlotBitmap) (slot : Z) : SlotBitmap :=
  if negb (Z.land (bz (nth (Z.to_nat (slot / 8)) bs x00)) (Z.shiftl 1 (slot mod 8)) =? 0)
  then Z.setbit slots slot else slots.

Definition slots_from_bytes (bs : bytes) : option SlotBitmap :=
  if (length bs =? kSlotBytes)%nat then Some (foldl (get_slot_byte bs) 0 (seqZ 0 kSlots))
  else None.

Definition gossip_fields (g : GossipEntry) : list bytes :=
  [g_id g; g_ip g; to_string (g_port g); to_string (g_cport g); gossip_flags g].

(** The array [encode] sends. *)
Definition encode_argv (msg : Message) : list bytes :=
  [type_name (type msg); sender msg; to_string (port msg); to_string (cport msg);
   role_name (replica msg); if bool_decide (master_id msg = []) then &"-" else master_id msg;
   to_string (current_epoch msg); to_string (config_epoch msg); to_string (repl_offset msg);
   to_string (mflags msg); slots_to_bytes (slots msg)] ++
  match type msg with
  | kUpdate => [update_id msg; to_string (update_epoch msg); slots_to_bytes (update_slots msg)]
  | kFail => [fail_id msg]
  | t => if header_only t then []
         else to_string (zlen (gossip msg)) :: concat (gossip_fields <$> gossip msg)
  end.

Definition encode (msg : Message) (out : bytes) : bytes := Reply.command out (encode_argv msg).

Definition field (argv : list bytes) (i : nat) : bytes := nth i argv [].

Definition decode_gossip (f : list bytes) : option GossipEntry :=
  if negb (valid_node_id (field f 0)) then None
  else
    p ← parse_port (field f 2);
    c ← parse_port (field f 3);
    '(r, pf, fl) ← parse_gossip_flags (field f 4);
    Some (mkGossip (field f 0) (field f 1) p c r pf fl).

(** The loop over [count] entries from [body + 1]. *)
Fixpoint decode_gossips (count : nat) (f : list bytes) : option (list GossipEntry) :=
  match count with
  | O => Some []
  | S count =>
      g ← decode_gossip f;
      gs ← decode_gossips count (drop kGossipFields f);
      Some (g :: gs)
  end.

(** The header; the fields of the body keep their defaults. *)
Definition decode_header (argv : list bytes) : option Message :=
  if (length argv <? kHeaderFields)%nat then None
  else
    t ← parse_type (field argv 0);
    if negb (valid_node_id (field argv 1)) then None
    else
      p ← parse_port (field argv 2);
      c ← parse_port (field argv 3);
      r ← parse_role (field argv 4);
      cur ← parse_uint uint64_max (field argv 6);
      cfg ← parse_uint uint64_max (field argv 7);
      off ← parse_uint uint64_max (field argv 8);
      fl ← parse_uint uint32_max (field argv 9);
      sl ← slots_from_bytes (field argv 10);
      let msg m := mkMessage t (field argv 1) p c r m cur cfg off fl sl [] [] 0 0 [] in
      if beq (field argv 5) &"-" then Some (msg [])
      else if valid_node_id (field argv 5) then Some (msg (field argv 5)) else None.

Definition with_update (m : Message) (id : bytes) (e : Z) (s : SlotBitmap) : Message :=
  mkMessage (type m) (sender m) (port m) (cport m) (replica m) (master_id m) (current_epoch m)
    (config_epoch m) (repl_offset m) (mflags m) (slots m) (gossip m) id e s (fail_id m).
Definition with_fail (m : Message) (id : bytes) : Message :=
  mkMessage (type m) (sender m) (port m) (cport m) (replica m) (master_id m) (current_epoch m)
    (config_epoch m) (repl_offset m) (mflags m) (slots m) (gossip m) (update_id m) (update_epoch m)
    (update_slots m) id.
Definition with_gossip (m : Message) (gs : list GossipEntry) : Message :=
  mkMessage (type m) (sender m) (port m) (cport m) (replica m) (master_id m) (current_epoch m)
    (config_epoch m) (repl_offset m) (mflags m) (slots m) gs (update_id m) (update_epoch m)
    (update_slots m) (fail_id m).

Definition decode (argv : list bytes) : option Message :=
  msg ← decode_header argv;
  let body := drop kHeaderFields argv in
  let body_size := zlen body in
  match type msg with
  | kUpdate =>
      if negb (body_size =? 3) || negb (valid_node_id (field body 0)) then None
      else
        e ← parse_uint uint64_max (field body 1);
        s ← slots_from_bytes (field body 2);
        Some (with_update msg (field body 0) e s)
  | kFail =>
      if negb (body_size =? 1) || negb (valid_node_id (field body 0)) then None
      else Some (with_fail msg (field body 0))
  | t =>
      if header_only t then if body_size =? 0 then Some msg else None
      else if body_size <? 1 then None
      else
        count ← parse_uint uint64_max (field body 0);
        if (body_size <? count) || negb (body_size =? u64 (1 + u64 (count * Z.of_nat kGossipFields)))
        then None
        else
          gs ← decode_gossips (Z.to_nat count) (drop 1 body);
          Some (with_gossip msg gs)
  end.


(** ** The slot bitmap *)

Lemma land_bit b j : 0 <= j -> negb (Z.land b (Z.shiftl 1 j) =? 0) = Z.testbit b j.
Proof.
  intros Hj. rewrite Z.shiftl_1_l. destruct (Z.testbit b j) eqn:E.
  - apply negb_true_iff, Z.eqb_neq. intros H.
    assert (H' : Z.testbit (Z.land b (2 ^ j)) j = true)
      by (by rewrite Z.land_spec, E, Z.pow2_bits_true).
    by rewrite H, Z.bits_0 in H'.
  - apply negb_false_iff, Z.eqb_eq, Z.bits_inj'. intros i Hi.
    rewrite Z.land_spec, Z.bits_0, Z.pow2_bits_eqb by done.
    destruct (Z.eqb_spec j i); [subst; by rewrite E|apply andb_false_r].
Qed.

(** Slot [s] is bit [s mod 8] of byte [s / 8]. *)
Definition slot_bit (bs : bytes) (s : Z) : bool :=
  Z.testbit (bz (nth (Z.to_nat (s / 8)) bs x00)) (s mod 8).

Lemma slot_index s : 0 <= s < kSlots -> (Z.to_nat (s / 8) < kSlotBytes)%nat.
Proof.
  intros H. unfold kSlotBytes. apply Z2Nat.inj_lt; [apply Z.div_pos; lia|by vm_compute|].
  apply Z.div_lt_upper_bound; [lia|]. change (8 * (kSlots / 8)) with kSlots. lia.
Qed.

Lemma set_slot_byte_length sl bs s : length (set_slot_byte sl bs s) = length bs.
Proof. unfold set_slot_byte. destruct (Z.testbit sl s); [apply length_alter|done]. Qed.

Lemma set_slot_byte_bit sl bs n s :
  length bs = kSlotBytes -> 0 <= n < kSlots -> 0 <= s < kSlots ->
  slot_bit (set_slot_byte sl bs n) s = slot_bit bs s || ((s =? n) && Z.testbit sl n).
Proof.
  intros Hl Hn Hs. unfold set_slot_byte. destruct (Z.testbit sl n); [|by rewrite andb_false_r, orb_false_r].
  rewrite andb_true_r. unfold slot_bit. rewrite !nth_lookup.
  pose proof (slot_index s Hs) as Hi. pose proof (slot_index n Hn) as Hni.
  assert (Hm : 0 <= s mod 8 < 8) by (apply Z.mod_pos_bound; lia).
  assert (Hmn : 0 <= n mod 8 < 8) by (apply Z.mod_pos_bound; lia).
  destruct (lookup_lt_is_Some_2 bs (Z.to_nat (s / 8))) as [b Hb]; [lia|].
  destruct (decide (s / 8 = n / 8)) as [E|E].
  - rewrite <-E, list_lookup_alter_eq, Hb. simpl. rewrite bz_zb.
    change 256 with (2 ^ 8). rewrite Z.mod_pow2_bits_low by lia. rewrite Z.lor_spec. f_equal.
    rewrite Z.shiftl_1_l, Z.pow2_bits_eqb by lia.
    pose proof (Z.div_mod s 8 ltac:(lia)). pose proof (Z.div_mod n 8 ltac:(lia)).
    destruct (Z.eqb_spec (n mod 8) (s mod 8)), (Z.eqb_spec s n); try done; [lia|congruence].
  - rewrite list_lookup_alter_ne by (intros H; apply E, Z2Nat.inj; [apply Z.div_pos; lia..|done]).
    destruct (Z.eqb_spec s n); [congruence|]. by rewrite orb_false_r.
Qed.

Lemma slots_to_bytes_prefix sl n :
  (Z.of_nat n <= kSlots) ->
  let bs := foldl (set_slot_byte sl) (replicate kSlotBytes x00) (seqZ 0 (Z.of_nat n)) in
  length bs = kSlotBytes /\
  forall s, 0 <= s < kSlots -> slot_bit bs s = (s <? Z.of_nat n) && Z.testbit sl s.
Proof.
  induction n as [|n IH]; intros Hn; cbv zeta.
  - split; [apply (length_replicate kSlotBytes)|]. intros s Hs. change (Z.of_nat 0) with 0.
    destruct (Z.ltb_spec s 0); [lia|]. rewrite andb_false_l. unfold slot_bit. rewrite nth_lookup.
    change (foldl _ ?x (seqZ 0 0)) with x.
    destruct (replicate kSlotBytes x00 !! Z.to_nat (s / 8)) as [b|] eqn:E; [apply lookup_replicate in E as [-> _]|]; apply Z.bits_0.
  - rewrite Nat2Z.inj_succ. unfold Z.succ. rewrite seqZ_app by lia. rewrite foldl_app.
    change (seqZ (0 + Z.of_nat n) 1) with [0 + Z.of_nat n]. cbn [foldl].
    destruct IH as [IH1 IH2]; [lia|]. rewrite set_slot_byte_length. split; [done|].
    intros s Hs. rewrite set_slot_byte_bit, IH2 by (done || lia). rewrite Z.add_0_l.
    destruct (Z.ltb_spec s (Z.of_nat n)), (Z.eqb_spec s (Z.of_nat n)),
      (Z.ltb_spec s (Z.of_nat n + 1)); try lia; subst; simpl; by rewrite ?orb_false_r.
Qed.

Lemma kSlots_nat : kSlots = Z.of_nat (Z.to_nat kSlots).
Proof. by vm_compute. Qed.

Lemma slots_to_bytes_length sl : length (slots_to_bytes sl) = kSlotBytes.
Proof.
  unfold slots_to_bytes. rewrite kSlots_nat. apply slots_to_bytes_prefix. by rewrite <-kSlots_nat.
Qed.

Lemma slots_to_bytes_bit sl s : 0 <= s < kSlots -> slot_bit (slots_to_bytes sl) s = Z.testbit sl s.
Proof.
  intros Hs. unfold slots_to_bytes. rewrite kSlots_nat.
  destruct (slots_to_bytes_prefix sl (Z.to_nat kSlots)) as [_ H]; [by rewrite <-kSlots_nat|].
  rewrite H by done. rewrite <-kSlots_nat. destruct (Z.ltb_spec s kSlots); [done|lia].
Qed.

Lemma get_slots_prefix bs n i :
  0 <= i ->
  Z.testbit (foldl (get_slot_byte bs) 0 (seqZ 0 (Z.of_nat n))) i = (i <? Z.of_nat n) && slot_bit bs i.
Proof.
  intros Hi. induction n as [|n IH].
  - change (Z.of_nat 0) with 0. destruct (Z.ltb_spec i 0); [lia|]. apply Z.bits_0.
  - rewrite Nat2Z.inj_succ. unfold Z.succ. rewrite seqZ_app by lia. rewrite foldl_app.
    change (seqZ (0 + Z.of_nat n) 1) with [0 + Z.of_nat n]. cbn [foldl]. rewrite Z.add_0_l.
    unfold get_slot_byte at 1. rewrite land_bit by (apply Z.mod_pos_bound; lia).
    fold (slot_bit bs (Z.of_nat n)). destruct (slot_bit bs (Z.of_nat n)) eqn:E.
    + rewrite Z.setbit_eqb, IH by lia.
      destruct (Z.ltb_spec i (Z.of_nat n)), (Z.eqb_spec (Z.of_nat n) i),
        (Z.ltb_spec i (Z.of_nat n + 1)); try lia; subst; simpl; by rewrite ?E.
    + rewrite IH. destruct (Z.ltb_spec i (Z.of_nat n)), (Z.ltb_spec i (Z.of_nat n + 1)); try done; try lia.
      replace i with (Z.of_nat n) by lia. by rewrite E.
Qed.

(** The bitmaps a [std::bitset<kSlots>] can hold. *)
Definition bitmap_ok (sl : SlotBitmap) : Prop := forall i, 0 <= i -> Z.testbit sl i = true -> i < kSlots.

Lemma slots_from_bytes_bit bs sl :
  slots_from_bytes bs = Some sl ->
  forall i, 0 <= i -> Z.testbit sl i = (i <? kSlots) && slot_bit bs i.
Proof.
  unfold slots_from_bytes. destruct (_ =? _)%nat; [|done]. intros Hs i Hi.
  apply (inj Some) in Hs as <-. rewrite kSlots_nat. by rewrite get_slots_prefix.
Qed.

Lemma bitmap_ext a b : bitmap_ok a -> bitmap_ok b -> 
  (forall i, 0 <= i < kSlots -> Z.testbit a i = Z.testbit b i) -> a = b.
Proof.
  intros Ha Hb H. apply Z.bits_inj'. intros i Hi. destruct (Z.ltb_spec i kSlots); [apply H; lia|].
  destruct (Z.testbit a i) eqn:Ea; [specialize (Ha i Hi Ea); lia|].
  destruct (Z.testbit b i) eqn:Eb; [specialize (Hb i Hi Eb); lia|done].
Qed.

Lemma slots_from_bytes_ok bs sl : slots_from_bytes bs = Some sl -> bitmap_ok sl.
Proof.
  intros H i Hi. rewrite (slots_from_bytes_bit _ _ H) by done. intros Hb. zlia.
Qed.

Lemma slots_from_bytes_some bs : length bs = kSlotBytes -> exists sl, slots_from_bytes bs = Some sl.
Proof.
  intros H. unfold slots_from_bytes. rewrite (proj2 (Nat.eqb_eq _ _) H). by eexists.
Qed.

#[local] Opaque slots_to_bytes slots_from_bytes.

Lemma slots_round_trip sl : bitmap_ok sl -> slots_from_bytes (slots_to_bytes sl) = Some sl.
Proof.
  intros Hok. destruct (slots_from_bytes_some _ (slots_to_bytes_length sl)) as [sl' E].
  rewrite E. f_equal. apply bitmap_ext; [exact (slots_from_bytes_ok _ _ E)|done|]. intros i Hi.
  rewrite (slots_from_bytes_bit _ _ E), slots_to_bytes_bit by lia.
  rewrite (proj2 (Z.ltb_lt i kSlots)) by lia. apply andb_true_l.
Qed.

(** ** Encoding and decoding *)

(** A message the program can hold: unsigned fields within their types, ids
    and ports valid, and only the body of its own type set. *)
Definition port_ok (p : Z) : Prop := 1 <= p <= uint16_max.
Definition u64_ok (z : Z) : Prop := 0 <= z <= uint64_max.

Record gossip_ok (g : GossipEntry) : Prop := {
  gok_id : valid_node_id (g_id g) = true;
  gok_port : port_ok (g_port g);
  gok_cport : port_ok (g_cport g)
}.

Definition body_ok (m : Message) : Prop :=
  (type m = kUpdate -> valid_node_id (update_id m) = true) /\
  (type m = kFail -> valid_node_id (fail_id m) = true) /\
  (type m <> kUpdate -> update_id m = [] /\ update_epoch m = 0 /\ update_slots m = 0) /\
  (type m <> kFail -> fail_id m = []) /\
  (type m = kUpdate \/ type m = kFail \/ header_only (type m) = true -> gossip m = []).

Record message_ok (m : Message) : Prop := {
  mok_sender : valid_node_id (sender m) = true;
  mok_port : port_ok (port m);
  mok_cport : port_ok (cport m);
  mok_master : master_id m = [] \/ valid_node_id (master_id m) = true;
  mok_current : u64_ok (current_epoch m);
  mok_config : u64_ok (config_epoch m);
  mok_offset : u64_ok (repl_offset m);
  mok_flags : 0 <= mflags m <= uint32_max;
  mok_slots : bitmap_ok (slots m);
  mok_gossip : Forall gossip_ok (gossip m);
  mok_update_epoch : u64_ok (update_epoch m);
  mok_update_slots : bitmap_ok (update_slots m);
  mok_body : body_ok m
}.

(** An entry is not both suspected and failed: the encoder writes one flag. *)
Definition one_flag (g : GossipEntry) : Prop := g_fail g && g_pfail g = false.

Lemma parse_uint_to_string hi n : 0 <= n <= hi -> parse_uint hi (to_string n) = Some n.
Proof. intros H. apply from_chars_to_string; [done|]. intros _. apply H. Qed.

Lemma parse_port_to_string p : port_ok p -> parse_port (to_string p) = Some p.
Proof.
  unfold port_ok. intros H. unfold parse_port. rewrite parse_uint_to_string by lia.
  destruct (Z.eqb_spec p 0); [lia|done].
Qed.

Lemma parse_port_ok s p : parse_port s = Some p -> port_ok p.
Proof.
  unfold parse_port, port_ok. destruct (parse_uint _ _) as [q|] eqn:E; [|done].
  apply from_chars_all_range in E. destruct (Z.eqb_spec q 0); [done|]. intros [= <-]. lia.
Qed.

Lemma parse_type_name t : parse_type (type_name t) = Some t.
Proof. by destruct t. Qed.

Lemma parse_role_name r : parse_role (role_name r) = Some r.
Proof. by destruct r. Qed.

Lemma parse_gossip_flags_written g :
  one_flag g -> parse_gossip_flags (gossip_flags g) = Some (g_replica g, g_pfail g, g_fail g).
Proof. destruct g as [? ? ? ? [] [] []]; done. Qed.

Lemma valid_id_not_dash id : valid_node_id id = true -> beq id &"-" = false /\ id <> [].
Proof.
  unfold valid_node_id. intros [H _]%andb_true_iff. apply Nat.eqb_eq in H.
  split; [apply beq_neq|]; intros ->; done.
Qed.

Lemma decode_gossip_fields g rest :
  gossip_ok g -> one_flag g -> decode_gossip (gossip_fields g ++ rest) = Some g.
Proof.
  intros [H1 H2 H3] Hf. unfold decode_gossip, gossip_fields. cbn [app field nth].
  rewrite H1, parse_port_to_string by done. cbn [negb mbind option_bind].
  rewrite parse_port_to_string by done. cbn [mbind option_bind].
  rewrite parse_gossip_flags_written by done. by destruct g.
Qed.

Lemma decode_gossips_fields gs :
  Forall gossip_ok gs -> Forall one_flag gs ->
  decode_gossips (length gs) (concat (gossip_fields <$> gs)) = Some gs.
Proof.
  induction gs as [|g gs IH]; intros Hok Hfl; [done|].
  apply Forall_cons_1 in Hok as [H1 H2]. apply Forall_cons_1 in Hfl as [F1 F2].
  cbn [fmap list_fmap concat length decode_gossips]. rewrite decode_gossip_fields by done.
  cbn [mbind option_bind]. change (drop kGossipFields (gossip_fields g ++ ?r)) with r.
  rewrite IH by done. done.
Qed.

Lemma gossip_fields_length gs :
  zlen (concat (gossip_fields <$> gs)) = zlen gs * Z.of_nat kGossipFields.
Proof.
  induction gs as [|g gs IH]; [done|]. cbn [fmap list_fmap concat]. rewrite zlen_app, zlen_cons.
  change (list_fmap _ _ gossip_fields gs) with (gossip_fields <$> gs). rewrite IH.
  change (zlen (gossip_fields g)) with (Z.of_nat kGossipFields). lia.
Qed.

(** The header fields, whatever the body. *)
Definition header_of (m : Message) : Message :=
  mkMessage (type m) (sender m) (port m) (cport m) (replica m) (master_id m) (current_epoch m)
    (config_epoch m) (repl_offset m) (mflags m) (slots m) [] [] 0 0 [].

(** The decoder on an array of known length, field by field. *)
Lemma decode_header_fields a0 a1 a2 a3 a4 a5 a6 a7 a8 a9 a10 rest t p c r cur cfg off fl sl :
  parse_type a0 = Some t -> valid_node_id a1 = true -> parse_port a2 = Some p ->
  parse_port a3 = Some c -> parse_role a4 = Some r -> parse_uint uint64_max a6 = Some cur ->
  parse_uint uint64_max a7 = Some cfg -> parse_uint uint64_max a8 = Some off ->
  parse_uint uint32_max a9 = Some fl -> slots_from_bytes a10 = Some sl ->
  decode_header (a0 :: a1 :: a2 :: a3 :: a4 :: a5 :: a6 :: a7 :: a8 :: a9 :: a10 :: rest) =
  (let msg m := mkMessage t a1 p c r m cur cfg off fl sl [] [] 0 0 [] in
   if beq a5 &"-" then Some (msg [])
   else if valid_node_id a5 then Some (msg a5) else None).
Proof.
  intros E0 E1 E2 E3 E4 E6 E7 E8 E9 E10. unfold decode_header. cbn [field nth].
  change (length _ <? kHeaderFields)%nat with false. cbv iota.
  rewrite E0, E1, E2, E3, E4, E6, E7, E8, E9, E10. done.
Qed.

Lemma decode_header_encoded m : message_ok m -> decode_header (encode_argv m) = Some (header_of m).
Proof.
  intros []. unfold encode_argv. cbn [app]. erewrite decode_header_fields;
    [|apply parse_type_name|exact mok_sender0|by apply parse_port_to_string
     |by apply parse_port_to_string|apply parse_role_name|by apply parse_uint_to_string
     |by apply parse_uint_to_string|by apply parse_uint_to_string|by apply parse_uint_to_string
     |by apply slots_round_trip].
  cbv zeta. unfold header_of. destruct mok_master0 as [E|E].
  - rewrite E. rewrite bool_decide_true by done. rewrite beq_refl. reflexivity.
  - destruct (valid_id_not_dash _ E) as [E1 E2]. rewrite bool_decide_false by exact E2.
    rewrite E1, E. reflexivity.
Qed.

(** The decoder after the header. *)
Definition decode_body (msg : Message) (body : list bytes) : option Message :=
  match type msg with
  | kUpdate =>
      if negb (zlen body =? 3) || negb (valid_node_id (field body 0)) then None
      else
        e ← parse_uint uint64_max (field body 1);
        s ← slots_from_bytes (field body 2);
        Some (with_update msg (field body 0) e s)
  | kFail =>
      if negb (zlen body =? 1) || negb (valid_node_id (field body 0)) then None
      else Some (with_fail msg (field body 0))
  | t =>
      if header_only t then if zlen body =? 0 then Some msg else None
      else if zlen body <? 1 then None
      else
        count ← parse_uint uint64_max (field body 0);
        if (zlen body <? count) || negb (zlen body =? u64 (1 + u64 (count * Z.of_nat kGossipFields)))
        then None
        else
          gs ← decode_gossips (Z.to_nat count) (drop 1 body);
          Some (with_gossip msg gs)
  end.

Lemma decode_eq argv : decode argv = msg ← decode_header argv; decode_body msg (drop kHeaderFields argv).
Proof. reflexivity. Qed.

Definition encode_body (m : Message) : list bytes :=
  match type m with
  | kUpdate => [update_id m; to_string (update_epoch m); slots_to_bytes (update_slots m)]
  | kFail => [fail_id m]
  | t => if header_only t then []
         else to_string (zlen (gossip m)) :: concat (gossip_fields <$> gossip m)
  end.

Lemma encode_argv_body m : drop kHeaderFields (encode_argv m) = encode_body m.
Proof. reflexivity. Qed.

(** The number of entries that fit one message's array. *)
Definition gossip_fits (m : Message) : Prop := zlen (gossip m) < 2 ^ 60.

Lemma decode_gossip_body msg gs :
  Forall gossip_ok gs -> Forall one_flag gs -> zlen gs < 2 ^ 60 ->
  match type msg with kPing | kPong | kMeet => True | _ => False end ->
  decode_body msg (to_string (zlen gs) :: concat (gossip_fields <$> gs)) = Some (with_gossip msg gs).
Proof.
  intros Hok Hfl Hn Ht. pose proof (zlen_nonneg gs) as H0.
  pose proof (gossip_fields_length gs) as Hl. change (Z.of_nat kGossipFields) with 5 in Hl.
  assert (Hb : zlen (to_string (zlen gs) :: concat (gossip_fields <$> gs)) = 1 + zlen gs * 5)
    by (rewrite zlen_cons; lia).
  assert (H : (count ← parse_uint uint64_max (to_string (zlen gs));
      if (1 + zlen gs * 5 <? count) || negb (1 + zlen gs * 5 =? u64 (1 + u64 (count * Z.of_nat kGossipFields)))
      then None
      else gs ← decode_gossips (Z.to_nat count) (concat (gossip_fields <$> gs));
           Some (with_gossip msg gs)) = Some (with_gossip msg gs)).
  { rewrite parse_uint_to_string by (unfold uint64_max; lia). cbn [mbind option_bind].
    change (Z.of_nat kGossipFields) with 5. rewrite (u64_small (zlen gs * 5)), u64_small by lia.
    rewrite (proj2 (Z.ltb_ge (1 + zlen gs * 5) (zlen gs))), Z.eqb_refl by lia.
    unfold zlen. rewrite Nat2Z.id, decode_gossips_fields by done. reflexivity. }
  unfold decode_body. rewrite Hb, (proj2 (Z.ltb_ge (1 + zlen gs * 5) 1)) by lia.
  destruct (type msg); try done; exact H.
Qed.

Lemma decode_update_body msg a b c e sl :
  type msg = kUpdate -> valid_node_id a = true -> parse_uint uint64_max b = Some e ->
  slots_from_bytes c = Some sl -> decode_body msg [a; b; c] = Some (with_update msg a e sl).
Proof.
  intros Ht Ha Hb Hc. unfold decode_body. rewrite Ht. cbn [field nth]. rewrite Ha, Hb, Hc. reflexivity.
Qed.

Lemma decode_fail_body msg a :
  type msg = kFail -> valid_node_id a = true -> decode_body msg [a] = Some (with_fail msg a).
Proof. intros Ht Ha. unfold decode_body. rewrite Ht. cbn [field nth]. rewrite Ha. reflexivity. Qed.

Lemma decode_empty_body msg : header_only (type msg) = true -> decode_body msg [] = Some msg.
Proof. unfold decode_body. by destruct (type msg). Qed.

(** A message is its header and the body of its type. *)
Lemma message_parts m :
  body_ok m ->
  m = match type m with
      | kUpdate => with_update (header_of m) (update_id m) (update_epoch m) (update_slots m)
      | kFail => with_fail (header_of m) (fail_id m)
      | t => if header_only t then header_of m else with_gossip (header_of m) (gossip m)
      end.
Proof.
  intros (B1 & B2 & B3 & B4 & B5).
  destruct m as [t ? ? ? ? ? ? ? ? ? ? gs ui ue us fi].
  unfold header_of, with_update, with_fail, with_gossip. cbn [type update_id update_epoch
    update_slots fail_id gossip sender port cport replica master_id current_epoch config_epoch
    repl_offset mflags slots] in *.
  destruct t; cbn [header_only] in *;
    try (destruct B3 as (-> & -> & ->); [done|]); try (rewrite B4 by done);
    try (rewrite B5 by (by repeat first [left; done | right])); reflexivity.
Qed.

Lemma decode_encoded m :
  message_ok m -> Forall one_flag (gossip m) -> gossip_fits m -> decode (encode_argv m) = Some m.
Proof.
  intros Hok Hfl Hn. rewrite decode_eq, decode_header_encoded, encode_argv_body by done.
  cbn [mbind option_bind]. unfold encode_body. pose proof (mok_body _ Hok) as HB.
  pose proof (message_parts m HB) as Hm. pose proof (mok_gossip _ Hok) as Hg.
  assert (Ht : type (header_of m) = type m) by done.
  destruct (type m) eqn:Et; cbn [header_only] in *;
    (etransitivity; [|exact (f_equal Some (eq_sym Hm))]); clear Hm.
  - apply decode_gossip_body; [done|done|done|by rewrite Ht].
  - apply decode_gossip_body; [done|done|done|by rewrite Ht].
  - apply decode_gossip_body; [done|done|done|by rewrite Ht].
  - apply decode_update_body; [done|by apply HB|apply parse_uint_to_string, Hok|].
    apply slots_round_trip, Hok.
  - apply decode_fail_body; [done|by apply HB].
  - apply decode_empty_body. by rewrite Ht.
  - apply decode_empty_body. by rewrite Ht.
  - apply decode_empty_body. by rewrite Ht.
Qed.

(** ** Whatever is accepted is well formed *)

Lemma parse_uint_range hi s v : parse_uint hi s = Some v -> 0 <= v <= hi.
Proof. apply from_chars_all_range. Qed.

Lemma bitmap_ok_0 : bitmap_ok 0.
Proof. intros i _. by rewrite Z.bits_0. Qed.

(** Peels the binds of a successful decoder. *)
Ltac unbind H :=
  repeat match type of H with
  | mbind _ ?x = Some _ =>
      let v := fresh "v" in let E := fresh "E" in
      destruct x as [v|] eqn:E; [cbn [mbind option_bind] in H|discriminate H]
  | (if ?b then None else _) = Some _ =>
      let E := fresh "E" in destruct b eqn:E; [discriminate H|]
  end.

Lemma decode_header_sound argv m :
  decode_header argv = Some m ->
  m = header_of m /\ valid_node_id (sender m) = true /\ port_ok (port m) /\ port_ok (cport m) /\
  (master_id m = [] \/ valid_node_id (master_id m) = true) /\ u64_ok (current_epoch m) /\
  u64_ok (config_epoch m) /\ u64_ok (repl_offset m) /\ 0 <= mflags m <= uint32_max /\
  bitmap_ok (slots m).
Proof.
  unfold decode_header. intros H. unbind H. cbv zeta in H.
  destruct (beq (field argv 5) &"-"); [|destruct (valid_node_id (field argv 5)) eqn:Em; [|done]];
    injection H as <-; unfold header_of, u64_ok;
    cbn [type sender port cport replica master_id current_epoch config_epoch repl_offset mflags slots];
    apply parse_uint_range in E5, E6, E7, E8; apply parse_port_ok in E2, E3;
    apply slots_from_bytes_ok in E9; apply negb_false_iff in E1; naive_solver.
Qed.

Lemma decode_gossip_ok f g : decode_gossip f = Some g -> gossip_ok g.
Proof.
  unfold decode_gossip. intros H. unbind H. destruct v1 as [[r pf] fl]. injection H as <-.
  split; [by apply negb_false_iff|by eapply parse_port_ok|by eapply parse_port_ok].
Qed.

Lemma decode_gossips_ok n f gs : decode_gossips n f = Some gs -> Forall gossip_ok gs /\ length gs = n.
Proof.
  revert f gs. induction n as [|n IH]; intros f gs; cbn [decode_gossips]; [by intros [= <-]|].
  intros H. unbind H. injection H as <-. destruct (IH _ _ E0). split; [|simpl; by f_equal].
  constructor; [by eapply decode_gossip_ok|done].
Qed.

Lemma decode_sound argv m : decode argv = Some m -> message_ok m.
Proof.
  rewrite decode_eq. intros H. unbind H.
  apply decode_header_sound in E as (Eh & H1 & H2 & H3 & H4 & H5 & H6 & H7 & H8 & H9).
  unfold decode_body in H. destruct v as [t sn po cp re ma cu co offs fl sl gs ui ue us fi].
  unfold header_of in Eh. simpl in *. injection Eh as -> -> -> -> ->.
  pose proof bitmap_ok_0 as H0. assert (Hz : u64_ok 0) by (unfold u64_ok, uint64_max; lia).
  destruct t; cbn [header_only] in H; unbind H.
  all: try match goal with
    | G : decode_gossips _ _ = Some _ |- _ => apply decode_gossips_ok in G as [? _]
    | G : (if ?b then Some _ else None) = Some _ |- _ => destruct b; [|done]
    | G : negb _ || negb _ = false |- _ => apply orb_false_iff in G as [_ ?%negb_false_iff]
    end; try match goal with G : parse_uint _ _ = Some _ |- _ => apply parse_uint_range in G end;
    try match goal with G : slots_from_bytes _ = Some _ |- _ => apply slots_from_bytes_ok in G end;
    injection H as <-; split; try done; unfold body_ok;
    cbn [type update_id update_epoch update_slots fail_id gossip with_update with_fail with_gossip];
    naive_solver.
Qed.
(** ** Sizes *)

Lemma dec_digits_length f n : (length (dec_digits f n) <= f)%nat.
Proof.
  revert n. induction f as [|f IH]; intros n; simpl; [done|].
  destruct (n <? 10); simpl; [lia|]. rewrite length_app. specialize (IH (n / 10)). simpl. lia.
Qed.

Lemma fits_short (l : bytes) : (length l <= 4096)%nat -> Parser.fits l.
Proof. unfold Parser.fits, zlen, size_max. lia. Qed.

Lemma fits_to_string n : 0 <= n <= uint64_max -> Parser.fits (to_string n).
Proof.
  intros H. apply fits_short. unfold to_string. rewrite (proj2 (Z.ltb_ge n 0)) by lia.
  unfold dec_nonneg. pose proof (dec_digits_length (S (Z.to_nat (Z.log2 n))) n).
  assert (Z.log2 n <= Z.log2 uint64_max) by (apply Z.log2_le_mono; lia).
  change (Z.log2 uint64_max) with 63 in *. lia.
Qed.

Lemma fits_id id : valid_node_id id = true -> Parser.fits id.
Proof.
  unfold valid_node_id. intros [H%Nat.eqb_eq _]%andb_true_iff. apply fits_short.
  rewrite H. unfold kNodeIdLength. lia.
Qed.

Lemma fits_slots sl : Parser.fits (slots_to_bytes sl).
Proof. apply fits_short. rewrite slots_to_bytes_length. apply Nat.leb_le. by vm_compute. Qed.

Lemma fits_port p : port_ok p -> Parser.fits (to_string p).
Proof. unfold port_ok, uint16_max. intros. apply fits_to_string. unfold uint64_max. lia. Qed.

Lemma fits_gossip g :
  gossip_ok g -> Parser.fits (g_ip g) -> Forall Parser.fits (gossip_fields g).
Proof.
  intros [] Hip. constructor; [by apply fits_id|]. constructor; [done|].
  do 2 (constructor; [by apply fits_port|]). constructor; [|constructor].
  unfold gossip_flags. destruct (g_replica g), (g_fail g), (g_pfail g); by vm_compute.
Qed.

Lemma fits_header m :
  message_ok m -> Forall Parser.fits (take kHeaderFields (encode_argv m)).
Proof.
  intros []. unfold encode_argv. change (take kHeaderFields (?a ++ _)) with a.
  assert (F32 : forall z, 0 <= z <= uint32_max -> Parser.fits (to_string z))
    by (intros; apply fits_to_string; unfold uint64_max, uint32_max in *; lia).
  constructor; [destruct (type m); by vm_compute|]. constructor; [by apply fits_id|].
  do 2 (constructor; [by apply fits_port|]). constructor; [destruct (replica m); by vm_compute|].
  constructor.
  { destruct mok_master0 as [->|H]; [by vm_compute|].
    destruct (valid_id_not_dash _ H). rewrite bool_decide_false by done. by apply fits_id. }
  do 3 (constructor; [by apply fits_to_string|]). constructor; [by apply F32|].
  constructor; [apply fits_slots|constructor].
Qed.

Lemma fits_body m :
  message_ok m -> gossip_fits m -> Forall (fun g => Parser.fits (g_ip g)) (gossip m) ->
  Forall Parser.fits (encode_body m) /\ zlen (encode_body m) < 2 ^ 63.
Proof.
  intros Hok Hn Hip. pose proof (mok_body _ Hok) as (B1 & B2 & _).
  pose proof (mok_gossip _ Hok) as Hg. unfold gossip_fits in Hn. pose proof (zlen_nonneg (gossip m)).
  assert (Hgs : Forall Parser.fits (to_string (zlen (gossip m)) :: concat (gossip_fields <$> gossip m)) /\
    zlen (to_string (zlen (gossip m)) :: concat (gossip_fields <$> gossip m)) < 2 ^ 63).
  { split.
    - constructor; [apply fits_to_string; unfold uint64_max; lia|].
      clear Hn B1 B2 H. induction (gossip m) as [|g gs IH]; [constructor|].
      apply Forall_cons_1 in Hip as [Hi Hip]. apply Forall_cons_1 in Hg as [Hg1 Hg].
      cbn [fmap list_fmap concat]. apply Forall_app. split; [by apply fits_gossip|by apply IH].
    - rewrite zlen_cons, gossip_fields_length. change (Z.of_nat kGossipFields) with 5. lia. }
  unfold encode_body. destruct (type m) eqn:Et; cbn [header_only]; try exact Hgs; try done.
  - split; [|done]. constructor; [by apply fits_id, B1|].
    constructor; [apply fits_to_string, Hok|]. constructor; [apply fits_slots|constructor].
  - split; [|done]. constructor; [by apply fits_id, B2|constructor].
Qed.

Lemma encode_fits m :
  message_ok m -> gossip_fits m -> Forall (fun g => Parser.fits (g_ip g)) (gossip m) ->
  Parser.fits (encode_argv m) /\ Forall Parser.fits (encode_argv m).
Proof.
  intros Hok Hn Hip. destruct (fits_body m Hok Hn Hip) as [F2 L2].
  pose proof (fits_header m Hok) as F1. rewrite <-(take_drop kHeaderFields (encode_argv m)).
  rewrite encode_argv_body. split; [|by apply Forall_app].
  unfold Parser.fits. rewrite zlen_app. pose proof (length_take (encode_argv m) kHeaderFields).
  unfold size_max, zlen in *. change (kHeaderFields) with 11%nat in *. lia.
Qed.

End ClusterMsg.

(** ** Main results *)

Module ClusterMsgClaims.
Import ClusterMsg.

(** C24: a bus message survives the wire.  Every message a node can hold,
    encoded and followed by anything, is read back by the RESP parser and the
    decoder as the same message, and exactly the rest stays buffered. *)
Theorem bus_round_trip m rest :
  message_ok m -> Forall one_flag (gossip m) -> gossip_fits m ->
  Forall (fun g => Parser.fits (g_ip g)) (gossip m) ->
  exists argv,
    Parser.try_parse_command {| Parser.buffer_ := encode m [] ++ rest |} =
      ({| Parser.status := Parser.kComplete; Parser.cmd := argv |}, encode m [],
       {| Parser.buffer_ := rest |}) /\
    decode argv = Some m.
Proof.
  intros Hok Hfl Hn Hip. destruct (encode_fits m Hok Hn Hip) as [F1 F2]. exists (encode_argv m). split; [|by apply decode_encoded].
  unfold encode. rewrite Parser.try_parse_outcome, Parser.outcome_of_command by done.
  by rewrite take_app_length, drop_app_length.
Qed.

Definition demo_id : bytes := replicate 40 "a"%byte.
Definition demo_ping : Message :=
  mkMessage kPing demo_id 7000 17000 true demo_id 7 5 1234 kMsgPaused 5
    [mkGossip demo_id &"10.0.0.2" 7001 17001 false true false] [] 0 0 [].

Lemma small_bitmap sl : 0 <= sl < 256 -> bitmap_ok sl.
Proof.
  intros H i Hi Hb. destruct (Z.ltb_spec i 8); [unfold kSlots; lia|].
  rewrite <-(Z.mod_small sl (2 ^ 8)) in Hb by lia. by rewrite Z.mod_pow2_bits_high in Hb by lia.
Qed.

Lemma demo_ping_ok : message_ok demo_ping.
Proof.
  split; try done; try (by right); try (by apply small_bitmap).
  unfold body_ok. simpl. naive_solver.
Qed.

Lemma bus_round_trip_witness : exists argv,
  Parser.try_parse_command {| Parser.buffer_ := encode demo_ping [] ++ &"*3" |} =
    ({| Parser.status := Parser.kComplete; Parser.cmd := argv |}, encode demo_ping [],
     {| Parser.buffer_ := &"*3" |}) /\
  decode argv = Some demo_ping.
Proof.
  apply bus_round_trip; [apply demo_ping_ok|by repeat constructor|by vm_compute|].
  constructor; [by vm_compute|constructor].
Defined.

(** The bus never acts on a malformed message.  Whatever array of strings
    arrives, a message the decoder accepts has valid node ids, non-zero ports,
    integers within their types, slots below 16384 and only the body of its
    own type; and encoding it again gives a message that decodes to it, unless
    it flags a node both suspected and failed. *)
Theorem decode_only_valid argv m :
  decode argv = Some m ->
  message_ok m /\ (Forall one_flag (gossip m) -> gossip_fits m -> decode (encode_argv m) = Some m).
Proof. intros H%decode_sound. split; [done|]. intros. by apply decode_encoded. Qed.

Definition demo_fail : Message :=
  mkMessage kFail demo_id 7000 17000 false [] 7 5 1234 0 5 [] [] 0 0 demo_id.

Lemma demo_fail_ok : message_ok demo_fail.
Proof.
  split; try done; try (by left); try (by apply small_bitmap).
Qed.

Lemma decode_only_valid_witness : message_ok demo_fail.
Proof.
  apply (decode_only_valid (encode_argv demo_fail)).
  apply decode_encoded; [apply demo_fail_ok|constructor|by vm_compute].
Defined.

End ClusterMsgClaims.
