(* ===== verification/Sys.v ===== *)
(** * System calls, files and crashes (src/src/file_util.cpp, and the calls of aof.cpp and persistence.cpp)

    The programs that write files are modelled as trees of system calls
    ([prog]), so that their behaviour is known at every point in between: the
    machine may stop there.  A call is executed by [do_call] under a [choice],
    which decides what the system does: whether the call fails and with which
    [errno], how the writes behind it were split, what the clock said.

    A file is an inode with contents, a prefix of which is known to be on the
    disk.  Operations on the directory are durable once the directory has been
    synced; until then they reach the disk in order, as a journalling file
    system writes them.  [crash] is what a machine that stops finds afterwards:
    some of the pending directory operations, and of every file a prefix that
    includes the synced part.  Opening a file with [O_TRUNC] links the name to
    an empty inode. *)

From S2P Require Import Prelude Resp Slots HashTable Store Snapshot.
From Stdlib Require Import Lia.

Module Sys.

Abbreviation ino := nat.

Record Inode := mkInode { content : bytes; synced : nat }.

Inductive dirop :=
  | DLink (path : bytes) (i : ino)
  | DUnlink (path : bytes)
  | DRename (from to : bytes).

Abbreviation dirmap := (gmap bytes ino).

(** The files, and what the children that were forked are writing. *)
Record FS := mkFS {
  durable : dirmap;
  pending : list dirop;
  inodes : gmap ino Inode;
  next_ino : ino;
  children : gmap Z (bytes * bytes)
}.

Definition apply_dirop (d : dirmap) (op : dirop) : dirmap :=
  match op with
  | DLink path i => <[path := i]> d
  | DUnlink path => delete path d
  | DRename from to =>
      match d !! from with Some i => <[to := i]> (delete from d) | None => d end
  end.

Definition dir (fs : FS) : dirmap := foldl apply_dirop (durable fs) (pending fs).

Definition push (op : dirop) (fs : FS) : FS :=
  mkFS (durable fs) (pending fs ++ [op]) (inodes fs) (next_ino fs) (children fs).

Definition set_inode (i : ino) (n : Inode) (fs : FS) : FS :=
  mkFS (durable fs) (pending fs) (<[i := n]> (inodes fs)) (next_ino fs) (children fs).

(** A name for a new inode. *)
Definition link_new (path : bytes) (n : Inode) (fs : FS) : FS :=
  push (DLink path (next_ino fs))
    (mkFS (durable fs) (pending fs) (<[next_ino fs := n]> (inodes fs)) (S (next_ino fs))
       (children fs)).

Definition sync_dir (fs : FS) : FS :=
  mkFS (dir fs) [] (inodes fs) (next_ino fs) (children fs).

Definition inode_of (fs : FS) (i : ino) : Inode := default (mkInode [] 0) (inodes fs !! i).

Definition file (fs : FS) (path : bytes) : option bytes :=
  i ← dir fs !! path; content <$> inodes fs !! i.

Inductive sysres (A : Type) := Ok (a : A) | Err (errno : Z).
Arguments Ok {A}. Arguments Err {A}.

(** The state of a child when the parent asks. *)
Inductive child_status := Running | Exited (ok : bool).

(** [Open_read] gives the contents, how the [read]s will deliver them and the
    [errno] of one that fails.  [Writes fd f]: a sequence of [write] calls made by a writer [f] that is
    given their outcomes; it answers and says which bytes went out.
    [Try_submit] hands the descriptor to the thread that syncs in the
    background.  [Fork path_of data] starts a child that writes [data] to a
    file of its own and syncs it. *)
Inductive syscall : Type -> Type :=
  | Open_trunc (path : bytes) : syscall (sysres ino)
  | Open_append (path : bytes) : syscall (sysres ino)
  | Open_read (path : bytes) : syscall (sysres (bytes * list Snapshot.rresult * Z))
  | Writes {A} (fd : ino) (f : list Snapshot.wresult -> A * bytes) : syscall (A * Z)
  | Fsync (fd : ino) : syscall (sysres unit)
  | Close (fd : ino) : syscall (sysres unit)
  | Ftruncate (fd : ino) (len : Z) : syscall (sysres unit)
  | Truncate (path : bytes) (len : Z) : syscall (sysres unit)
  | Rename (from to : bytes) : syscall (sysres unit)
  | Unlink (path : bytes) : syscall unit
  | Fsync_dir (path : bytes) : syscall (sysres unit)
  | Mkdir (path : bytes) : syscall (sysres unit)
  | Access (path : bytes) : syscall bool
  | File_size (path : bytes) : syscall Z
  | Steady_now : syscall Z
  | Unix_now : syscall Z
  | Getpid : syscall Z
  | Try_submit (fd : ino) : syscall bool
  | Wait_idle : syscall unit
  | Worker_errno : syscall Z
  | Fork (path_of : Z -> bytes) (data : bytes) : syscall (sysres Z)
  | Waitpid (pid : Z) : syscall child_status
  | Kill_wait (pid : Z) : syscall unit.

(** What the system decides during a call; syncing a directory fails on its
    own account. *)
Record choice := mkChoice {
  c_errno : option Z;
  c_dir_errno : option Z;
  c_value : Z;
  c_flag : bool;
  c_writes : list Snapshot.wresult;
  c_reads : list Snapshot.rresult
}.

Definition ENOENT : Z := 2.
Definition EEXIST : Z := 17.

Definition guarded {A} (err : option Z) (fs : FS) (r : sysres A * FS) : sysres A * FS :=
  match err with Some e => (Err e, fs) | None => r end.

(** The child's file, complete and synced; without it if the child failed. *)
Definition reap (pid : Z) (ok : bool) (fs : FS) : FS :=
  let fs' := mkFS (durable fs) (pending fs) (inodes fs) (next_ino fs) (delete pid (children fs)) in
  match children fs !! pid with
  | Some (path, data) => if ok then link_new path (mkInode data (length data)) fs' else fs'
  | None => fs'
  end.

Definition do_call {R} (ch : choice) (fs : FS) (c : syscall R) : R * FS :=
  match c in syscall R return R * FS with
  | Open_trunc path => guarded (c_errno ch) fs (Ok (next_ino fs), link_new path (mkInode [] 0) fs)
  | Open_append path =>
      guarded (c_errno ch) fs (match dir fs !! path with Some i => Ok i | None => Err ENOENT end, fs)
  | Open_read path =>
      guarded (c_errno ch) fs
        (match dir fs !! path with
         | Some i => Ok (content (inode_of fs i), c_reads ch, c_value ch)
         | None => Err ENOENT
         end, fs)
  | Writes fd f =>
      let '(a, out) := f (c_writes ch) in
      let n := inode_of fs fd in
      ((a, default 0 (c_errno ch)), set_inode fd (mkInode (content n ++ out) (synced n)) fs)
  | Fsync fd =>
      let n := inode_of fs fd in
      guarded (c_errno ch) fs (Ok tt, set_inode fd (mkInode (content n) (length (content n))) fs)
  | Close fd => guarded (c_errno ch) fs (Ok tt, fs)
  | Ftruncate fd len =>
      let n := inode_of fs fd in
      let len := Z.to_nat len in
      guarded (c_errno ch) fs (Ok tt, set_inode fd (mkInode (take len (content n)) (Nat.min len (synced n))) fs)
  | Truncate path len =>
      guarded (c_errno ch) fs
        (match dir fs !! path with
         | Some i =>
             let n := inode_of fs i in
             let len := Z.to_nat len in
             (Ok tt, set_inode i (mkInode (take len (content n)) (Nat.min len (synced n))) fs)
         | None => (Err ENOENT, fs)
         end)
  | Rename from to =>
      guarded (c_errno ch) fs
        (match dir fs !! from with
         | Some _ => (Ok tt, push (DRename from to) fs)
         | None => (Err ENOENT, fs)
         end)
  | Unlink path => (tt, match c_errno ch with Some _ => fs | None => push (DUnlink path) fs end)
  | Fsync_dir _ => guarded (c_dir_errno ch) fs (Ok tt, sync_dir fs)
  | Mkdir _ => guarded (c_errno ch) fs (Ok tt, fs)
  | Access path => (bool_decide (is_Some (dir fs !! path)), fs)
  | File_size path =>
      (match dir fs !! path with Some i => zlen (content (inode_of fs i)) | None => 0 end, fs)
  | Steady_now => (c_value ch, fs)
  | Unix_now => (c_value ch, fs)
  | Getpid => (c_value ch, fs)
  | Try_submit fd => (c_flag ch, fs)
  | Wait_idle => (tt, fs)
  | Worker_errno => (c_value ch, fs)
  | Fork path_of data =>
      let pid := Z.max 1 (c_value ch) in
      guarded (c_errno ch) fs
        (Ok pid, mkFS (durable fs) (pending fs) (inodes fs) (next_ino fs)
                   (<[pid := (path_of pid, data)]> (children fs)))
  | Waitpid pid =>
      if c_flag ch
      then let ok := bool_decide (c_errno ch = None) in (Exited ok, reap pid ok fs)
      else (Running, fs)
  | Kill_wait pid => (tt, reap pid false fs)
  end.

(** ** Programs *)

Inductive prog (A : Type) : Type :=
  | Ret (a : A)
  | Call {R : Type} (c : syscall R) (k : R -> prog A).
Arguments Ret {A}. Arguments Call {A R}.

Fixpoint bind {A B} (p : prog A) (f : A -> prog B) : prog B :=
  match p with
  | Ret a => f a
  | Call c k => Call c (fun r => bind (k r) f)
  end.

#[global] Instance prog_bind : MBind prog := fun A B f p => bind p f.
#[global] Instance prog_ret : MRet prog := fun A a => Ret a.

Definition call {R} (c : syscall R) : prog R := Call c Ret.

(** Running a program under a list of choices; the last one goes on forever. *)
Definition calm : choice := mkChoice None None 0 false [] [].

Fixpoint run {A} (chs : list choice) (p : prog A) (fs : FS) : A * FS :=
  match p with
  | Ret a => (a, fs)
  | Call c k =>
      let '(r, fs) := do_call (default calm (head chs)) fs c in run (tail chs) (k r) fs
  end.

(** The files after the first [n] calls. *)
Fixpoint run_for {A} (n : nat) (chs : list choice) (p : prog A) (fs : FS) : FS :=
  match n, p with
  | S n, Call c k =>
      let '(r, fs) := do_call (default calm (head chs)) fs c in run_for n (tail chs) (k r) fs
  | _, _ => fs
  end.

(** ** Crashes *)

(** [k] pending directory operations made it, and [cut i] bytes of inode [i]
    beyond what was synced. *)
Definition crash (k : nat) (cut : ino -> nat) (fs : FS) : FS :=
  let survive i n :=
    let len := Nat.min (length (content n)) (synced n + cut i) in
    mkInode (take len (content n)) len in
  mkFS (foldl apply_dirop (durable fs) (take k (pending fs))) []
    (map_imap (fun i n => Some (survive i n)) (inodes fs)) (next_ino fs) ∅.

(** ** [fileutil] *)

Definition write_all (fd : ino) (data : bytes) : prog (nat * Z) :=
  call (Writes fd (fun rs =>
    let '(n, w) := Snapshot.write_all (Snapshot.mkWFd [] rs) data in (n, Snapshot.contents w))).

Definition join (dir name : bytes) : bytes :=
  match list.last dir with
  | None => name
  | Some c => if bool_decide (c = "/"%byte) then dir ++ name else dir ++ &"/" ++ name
  end.

(** [path.rfind('/')]. *)
Fixpoint rfind_slash (s : bytes) : option nat :=
  match s with
  | [] => None
  | c :: s =>
      match rfind_slash s with
      | Some k => Some (S k)
      | None => if bool_decide (c = "/"%byte) then Some 0%nat else None
      end
  end.

Definition dirname (path : bytes) : bytes :=
  match rfind_slash path with
  | None => &"."
  | Some O => &"/"
  | Some slash => take slash path
  end.

(** [None] is success; otherwise [errno]. *)
Definition as_errno {A} (r : sysres A) : option Z :=
  match r with Ok _ => None | Err e => Some e end.

Definition fsync_dir (path : bytes) : prog (option Z) :=
  r ← call (Fsync_dir path); mret (as_errno r).

Definition durable_rename (from to : bytes) : prog (option Z) :=
  r ← call (Rename from to);
  match r with
  | Ok _ => fsync_dir (dirname to)
  | Err e => mret (Some e)
  end.

(** ** [snapshot::write_file] and [snapshot::save] *)

Definition write_file (store : KvStore) (path : bytes) : prog (option Z) :=
  fd ← call (Open_trunc path);
  match fd with
  | Err e => mret (Some e)
  | Ok fd =>
      '(flushed, e) ← call (Writes fd (fun rs => Snapshot.write_file true true true rs store));
      r ← (if (flushed : bool) then s ← call (Fsync fd); mret (as_errno s) else mret (Some e));
      c ← call (Close fd);
      mret (match r with Some e => Some e | None => as_errno c end)
  end.

Definition save (store : KvStore) (path : bytes) : prog (option Z) :=
  pid ← call Getpid;
  let temp := join (dirname path) (&"temp-" ++ to_string pid ++ &".snap") in
  r ← write_file store temp;
  r ← match r with Some e => mret (Some e) | None => durable_rename temp path end;
  match r with
  | None => mret None
  | Some e => _ ← call (Unlink temp); mret (Some e)
  end.


(** ** Reasoning about every point of a run *)

Section wp.
(** The choices the system is assumed to make, and what must hold between any
    two calls. *)
Context (env : choice -> Prop) (I : FS -> Prop).

Fixpoint wp {A} (p : prog A) (Q : A -> FS -> Prop) (fs : FS) : Prop :=
  match p with
  | Ret a => Q a fs
  | Call c k =>
      forall ch, env ch -> I (do_call ch fs c).2 /\ wp (k (do_call ch fs c).1) Q (do_call ch fs c).2
  end.

Lemma wp_mono {A} (p : prog A) (Q Q' : A -> FS -> Prop) fs :
  wp p Q fs -> (forall a fs, Q a fs -> Q' a fs) -> wp p Q' fs.
Proof.
  intros H HQ. revert fs H. induction p as [a|R c k IH]; intros fs; simpl; [apply HQ|].
  intros H ch Hch. destruct (H ch Hch) as [H1 H2]. split; [done|by apply IH].
Qed.

Lemma wp_bind {A B} (p : prog A) (f : A -> prog B) (Q : B -> FS -> Prop) fs :
  wp p (fun a fs => wp (f a) Q fs) fs -> wp (p ≫= f) Q fs.
Proof.
  revert fs. induction p as [a|R c k IH]; intros fs; simpl; [done|].
  intros H ch Hch. destruct (H ch Hch) as [H1 H2]. split; [done|]. by apply IH.
Qed.

Lemma wp_ret {A} (a : A) (Q : A -> FS -> Prop) fs : Q a fs -> wp (mret a) Q fs.
Proof. done. Qed.

Lemma wp_call {R} (c : syscall R) (Q : R -> FS -> Prop) fs :
  (forall ch, env ch -> I (do_call ch fs c).2 /\ Q (do_call ch fs c).1 (do_call ch fs c).2) ->
  wp (call c) Q fs.
Proof. done. Qed.

(** Runs under such choices end as specified and satisfy [I] on the way. *)
Lemma wp_run {A} (p : prog A) (Q : A -> FS -> Prop) chs fs :
  Forall env chs -> env calm -> wp p Q fs -> Q (run chs p fs).1 (run chs p fs).2.
Proof.
  intros Hchs Hcalm. revert chs fs Hchs. induction p as [a|R c k IH]; intros chs fs Hchs; simpl; [done|].
  intros H. assert (Hh : env (default calm (head chs)))
    by (destruct chs; [done|by apply Forall_cons_1 in Hchs as [??]]).
  assert (Ht : Forall env (tail chs)) by (destruct chs; [done|by apply Forall_cons_1 in Hchs as [??]]).
  destruct (H _ Hh) as [_ H2]. destruct (do_call _ fs c) as [r fs']. by apply IH.
Qed.

Lemma wp_run_for {A} n (p : prog A) (Q : A -> FS -> Prop) chs fs :
  Forall env chs -> env calm -> I fs -> wp p Q fs -> I (run_for n chs p fs).
Proof.
  intros Hchs Hcalm. revert p chs fs Hchs.
  induction n as [|n IH]; intros p chs fs Hchs HI H; [by destruct p|].
  destruct p as [a|R c k]; simpl; [done|]. simpl in H.
  assert (Hh : env (default calm (head chs)))
    by (destruct chs; [done|by apply Forall_cons_1 in Hchs as [??]]).
  assert (Ht : Forall env (tail chs)) by (destruct chs; [done|by apply Forall_cons_1 in Hchs as [??]]).
  destruct (H _ Hh) as [H1 H2]. destruct (do_call _ fs c) as [r fs']. by apply IH.
Qed.
End wp.

(** What holds in between may be weakened. *)
Lemma wp_weaken (env : choice -> Prop) (I J : FS -> Prop) {A} (p : prog A) (Q : A -> FS -> Prop) fs :
  (forall fs, I fs -> J fs) -> wp env I p Q fs -> wp env J p Q fs.
Proof.
  intros HIJ. revert fs. induction p as [a|R c k IH]; intros fs; simpl; [done|].
  intros H ch Hch. destruct (H ch Hch) as [H1 H2]. split; [by apply HIJ|by apply IH].
Qed.

(** Two specifications of one program. *)
Lemma wp_and (env : choice -> Prop) (I J : FS -> Prop) {A} (p : prog A) (Q R : A -> FS -> Prop) fs :
  wp env I p Q fs -> wp env J p R fs -> wp env I p (fun a fs => Q a fs /\ R a fs) fs.
Proof.
  revert fs. induction p as [a|R' c k IH]; intros fs; simpl; [done|].
  intros H1 H2 ch Hch. destruct (H1 ch Hch) as [? ?], (H2 ch Hch) as [_ ?]. split; [done|by apply IH].
Qed.

(** ** The directories a crash may leave *)

Definition crash_dirs (fs : FS) (P : dirmap -> Prop) : Prop :=
  forall k, P (foldl apply_dirop (durable fs) (take k (pending fs))).

Lemma dir_push (op : dirop) (fs : FS) : dir (push op fs) = apply_dirop (dir fs) op.
Proof. unfold dir, push. simpl. by rewrite foldl_app. Qed.

Lemma crash_dirs_now (fs : FS) P : crash_dirs fs P -> P (dir fs).
Proof. intros H. specialize (H (length (pending fs))). by rewrite take_ge in H. Qed.

Lemma crash_dirs_push (op : dirop) (fs : FS) (P : dirmap -> Prop) :
  crash_dirs fs P -> P (apply_dirop (dir fs) op) -> crash_dirs (push op fs) P.
Proof.
  intros H1 H2 k. unfold push. simpl. destruct (decide (k <= length (pending fs))%nat) as [Hk|Hk].
  - rewrite take_app_le by done. apply H1.
  - rewrite take_ge by (rewrite length_app; simpl; lia). by rewrite foldl_app.
Qed.

Lemma crash_dirs_sync (fs : FS) (P : dirmap -> Prop) : P (dir fs) -> crash_dirs (sync_dir fs) P.
Proof. intros H k. unfold sync_dir. simpl. by rewrite take_nil. Qed.

Lemma crash_dirs_mono (fs : FS) (P Q : dirmap -> Prop) :
  crash_dirs fs P -> (forall d, P d -> Q d) -> crash_dirs fs Q.
Proof. intros H HPQ k. apply HPQ, H. Qed.

Lemma crash_dir k cut (fs : FS) :
  dir (crash k cut fs) = foldl apply_dirop (durable fs) (take k (pending fs)).
Proof. done. Qed.

(** ** Well-formed file systems: every name has an inode of its own *)

Definition dir_ok (bound : ino) (d : dirmap) : Prop :=
  (forall p i, d !! p = Some i -> (i < bound)%nat) /\
  (forall p q i, d !! p = Some i -> d !! q = Some i -> p = q).

Definition fs_ok (fs : FS) : Prop :=
  crash_dirs fs (dir_ok (next_ino fs)) /\
  (forall i, (next_ino fs <= i)%nat -> inodes fs !! i = None).

Lemma fs_ok_dir fs : fs_ok fs -> dir_ok (next_ino fs) (dir fs).
Proof. intros [H _]. by apply crash_dirs_now. Qed.

Lemma dir_ok_mono b b' d : (b <= b')%nat -> dir_ok b d -> dir_ok b' d.
Proof. intros Hb [H1 H2]. split; [|done]. intros p i Hp. specialize (H1 _ _ Hp). lia. Qed.

Lemma dir_ok_link b d p : dir_ok b d -> dir_ok (S b) (<[p := b]> d).
Proof.
  intros [H1 H2]. split.
  - intros q i [[-> ->]|[_ Hq]]%lookup_insert_Some; [lia|]. specialize (H1 _ _ Hq). lia.
  - intros q q' i [[<- <-]|[? Hq]]%lookup_insert_Some [[<- ?]|[? Hq']]%lookup_insert_Some; try done.
    + apply H1 in Hq'. lia.
    + subst. apply H1 in Hq. lia.
    + by eapply H2.
Qed.

Lemma dir_ok_unlink b d p : dir_ok b d -> dir_ok b (delete p d).
Proof.
  intros [H1 H2]. split.
  - intros q i [_ Hq]%lookup_delete_Some. by eapply H1.
  - intros q q' i [_ Hq]%lookup_delete_Some [_ Hq']%lookup_delete_Some. by eapply H2.
Qed.

Lemma dir_ok_rename b d p q : dir_ok b d -> dir_ok b (apply_dirop d (DRename p q)).
Proof.
  intros [H1 H2]. simpl. destruct (d !! p) as [i|] eqn:E; [|done]. split.
  - intros r j [[-> ->]|[_ [_ Hr]%lookup_delete_Some]]%lookup_insert_Some; by eapply H1.
  - intros r r' j [[<- <-]|[? [? Hr]%lookup_delete_Some]]%lookup_insert_Some
      [[<- ?]|[? [? Hr']%lookup_delete_Some]]%lookup_insert_Some; try done.
    + exfalso. by apply (H2 _ _ _ E) in Hr'.
    + subst. exfalso. by apply (H2 _ _ _ E) in Hr.
    + by eapply H2.
Qed.

Lemma fs_ok_push op fs :
  fs_ok fs -> dir_ok (next_ino fs) (apply_dirop (dir fs) op) -> fs_ok (push op fs).
Proof. intros [H1 H2] H. split; [by apply crash_dirs_push|done]. Qed.

Lemma fs_ok_set_inode i n fs : (i < next_ino fs)%nat -> fs_ok fs -> fs_ok (set_inode i n fs).
Proof.
  intros Hi [H1 H2]. split; [done|]. intros j Hj. simpl in *.
  rewrite lookup_insert_ne by lia. by apply H2.
Qed.

Lemma fs_ok_link_new p n fs : fs_ok fs -> fs_ok (link_new p n fs).
Proof.
  intros [H1 H2]. unfold link_new. apply fs_ok_push.
  - split; simpl.
    + intros k. eapply dir_ok_mono, H1. simpl. lia.
    + intros i Hi. rewrite lookup_insert_ne by lia. apply H2. lia.
  - simpl. apply dir_ok_link. by apply crash_dirs_now in H1.
Qed.

Lemma fs_ok_sync fs : fs_ok fs -> fs_ok (sync_dir fs).
Proof. intros [H1 H2]. split; [|done]. by apply crash_dirs_sync, crash_dirs_now. Qed.

(** ** What a directory says about a file *)

(** The file at [p] is there, whole and on the disk. *)
Definition file_is (I : gmap ino Inode) (p c : bytes) (d : dirmap) : Prop :=
  exists i, d !! p = Some i /\ I !! i = Some (mkInode c (length c)).

Lemma file_is_link I p c d q i :
  p <> q -> file_is I p c d -> file_is I p c (<[q := i]> d).
Proof. intros Hpq (j & Hd & HI). exists j. by rewrite lookup_insert_ne. Qed.

Lemma file_is_unlink I p c d q : p <> q -> file_is I p c d -> file_is I p c (delete q d).
Proof. intros Hpq (j & Hd & HI). exists j. by rewrite lookup_delete_ne. Qed.

Lemma file_is_rename I p c d q r :
  p <> q -> p <> r -> file_is I p c d -> file_is I p c (apply_dirop d (DRename q r)).
Proof.
  intros Hq Hr (j & Hd & HI). simpl. destruct (d !! q); [|by exists j].
  exists j. by rewrite lookup_insert_ne, lookup_delete_ne.
Qed.

(** Writing to an inode that is some other file's, or to a new one. *)
Lemma file_is_inode I p c d i n :
  d !! p <> Some i -> file_is I p c d -> file_is (<[i := n]> I) p c d.
Proof.
  intros Hi (j & Hd & HI). exists j. split; [done|]. rewrite lookup_insert_ne; [done|].
  intros <-. done.
Qed.

Lemma file_is_agree I I' p c d b :
  dir_ok b d -> (forall i, (i < b)%nat -> I' !! i = I !! i) -> file_is I p c d -> file_is I' p c d.
Proof. intros [Hb _] H (i & Hd & HI). exists i. split; [done|]. rewrite H; [done|]. by eapply Hb. Qed.

(** ** Rules for the calls *)

Lemma writes_a_prefix rs data n out :
  exists k, (k <= length data)%nat /\
    (Snapshot.write_all_loop rs data n out).1 = (n + k)%nat /\
    Snapshot.contents (Snapshot.write_all_loop rs data n out).2 = out ++ take k data.
Proof.
  revert data n out. induction rs as [|r rs IH]; intros data n out.
  - destruct data as [|b data]; [exists 0%nat; split_and!; [done|simpl; lia|by rewrite app_nil_r]|].
    exists (length (b :: data)). split_and!; [done|done|]. by rewrite firstn_all.
  - destruct data as [|b data]; [exists 0%nat; split_and!; [done|simpl; lia|by rewrite app_nil_r]|].
    destruct r as [m| |]; cbn [Snapshot.write_all_loop]; [|apply IH|].
    + cbv zeta. set (m' := Nat.min m (length (b :: data))).
      destruct (IH (drop m' (b :: data)) (n + m')%nat (out ++ take m' (b :: data)))
        as (k & Hk & -> & ->).
      rewrite length_drop in Hk. exists (m' + k)%nat.
      assert (m' <= length (b :: data))%nat by (unfold m'; lia). split_and!; [lia|lia|].
      by rewrite <-app_assoc, take_take_drop.
    + exists 0%nat. split_and!; [lia|simpl; lia|by rewrite take_0, app_nil_r].
Qed.

Section rules.
Context (env : choice -> Prop) (I : FS -> Prop) {B : Type}.
Implicit Types (Q : B -> FS -> Prop) (fs : FS).

(** A call that may fail without doing anything. *)
Lemma wp_fallible {R} (c : syscall (sysres R)) (f : sysres R -> prog B) Q fs (r : R) fs' :
  I fs ->
  (forall ch, env ch -> do_call ch fs c = (Ok r, fs') \/ exists e, do_call ch fs c = (Err e, fs)) ->
  (forall e, wp env I (f (Err e)) Q fs) ->
  I fs' -> wp env I (f (Ok r)) Q fs' ->
  wp env I (call c ≫= f) Q fs.
Proof.
  intros HI Hc He HI' Hok ch Hch. destruct (Hc ch Hch) as [->|(e & ->)]; simpl; [done|].
  split; [done|apply He].
Qed.

Lemma wp_open_trunc p (f : sysres ino -> prog B) Q fs :
  I fs -> (forall e, wp env I (f (Err e)) Q fs) ->
  I (link_new p (mkInode [] 0) fs) ->
  wp env I (f (Ok (next_ino fs))) Q (link_new p (mkInode [] 0) fs) ->
  wp env I (call (Open_trunc p) ≫= f) Q fs.
Proof.
  intros HI He HI' Hok. eapply wp_fallible; [done| |done|exact HI'|exact Hok].
  intros ch _. simpl. unfold guarded. destruct (c_errno ch); [right; by eexists|by left].
Qed.

Lemma wp_write_all fd data (f : nat * Z -> prog B) Q fs :
  (forall k e, (k <= length data)%nat ->
     let n := inode_of fs fd in
     let fs' := set_inode fd (mkInode (content n ++ take k data) (synced n)) fs in
     I fs' /\ wp env I (f (k, e)) Q fs') ->
  wp env I (write_all fd data ≫= f) Q fs.
Proof.
  intros H. set (g := fun rs => let '(n, w) := Snapshot.write_all (Snapshot.mkWFd [] rs) data in
    (n, Snapshot.contents w)).
  change (wp env I (call (Writes fd g) ≫= f) Q fs). intros ch _.
  destruct (writes_a_prefix (c_writes ch) data 0 []) as (k & Hk & E1 & E2).
  assert (E : do_call ch fs (Writes fd g) = ((k, default 0 (c_errno ch)),
    set_inode fd (mkInode (content (inode_of fs fd) ++ take k data) (synced (inode_of fs fd))) fs)).
  { unfold g, Snapshot.write_all. simpl in *.
    destruct (Snapshot.write_all_loop (c_writes ch) data 0 []) as [n w]. simpl in *. rewrite E2. by subst. }
  rewrite E. by apply H.
Qed.

Lemma wp_fsync fd (f : sysres unit -> prog B) Q fs :
  I fs -> (forall e, wp env I (f (Err e)) Q fs) ->
  (let n := inode_of fs fd in
   let fs' := set_inode fd (mkInode (content n) (length (content n))) fs in
   I fs' /\ wp env I (f (Ok tt)) Q fs') ->
  wp env I (call (Fsync fd) ≫= f) Q fs.
Proof.
  intros HI He [HI' Hok]. eapply wp_fallible; [done| |done|exact HI'|exact Hok].
  intros ch _. simpl. unfold guarded. destruct (c_errno ch); [right; by eexists|by left].
Qed.

Lemma wp_close fd (f : sysres unit -> prog B) Q fs :
  I fs -> (forall r, wp env I (f r) Q fs) -> wp env I (call (Close fd) ≫= f) Q fs.
Proof.
  intros HI Hr. eapply (wp_fallible _ _ _ _ tt); [done| |done|exact HI|apply Hr].
  intros ch _. simpl. unfold guarded. destruct (c_errno ch); [right; by eexists|by left].
Qed.

Lemma wp_ftruncate fd len (f : sysres unit -> prog B) Q fs :
  I fs -> (forall e, wp env I (f (Err e)) Q fs) ->
  (let n := inode_of fs fd in
   let fs' := set_inode fd (mkInode (take (Z.to_nat len) (content n))
                              (Nat.min (Z.to_nat len) (synced n))) fs in
   I fs' /\ wp env I (f (Ok tt)) Q fs') ->
  wp env I (call (Ftruncate fd len) ≫= f) Q fs.
Proof.
  intros HI He [HI' Hok]. eapply wp_fallible; [done| |done|exact HI'|exact Hok].
  intros ch _. simpl. unfold guarded. destruct (c_errno ch); [right; by eexists|by left].
Qed.

Lemma wp_rename p q (f : sysres unit -> prog B) Q fs :
  I fs -> (forall e, wp env I (f (Err e)) Q fs) ->
  (forall i, dir fs !! p = Some i ->
     I (push (DRename p q) fs) /\ wp env I (f (Ok tt)) Q (push (DRename p q) fs)) ->
  wp env I (call (Rename p q) ≫= f) Q fs.
Proof.
  intros HI He Hok. destruct (dir fs !! p) as [i|] eqn:E.
  - destruct (Hok i eq_refl) as [HI' Hok']. eapply wp_fallible; [done| |done|exact HI'|exact Hok'].
    intros ch _. simpl. unfold guarded. rewrite E. destruct (c_errno ch); [right; by eexists|by left].
  - intros ch _. simpl. unfold guarded. rewrite E. destruct (c_errno ch); simpl; split; auto.
Qed.

Lemma wp_unlink p (f : unit -> prog B) Q fs :
  I fs -> I (push (DUnlink p) fs) -> wp env I (f tt) Q fs ->
  wp env I (f tt) Q (push (DUnlink p) fs) -> wp env I (call (Unlink p) ≫= f) Q fs.
Proof. intros HI HI' H H' ch _. simpl. by destruct (c_errno ch). Qed.

(** A call that only answers. *)
Lemma wp_reads {R} (c : syscall R) (f : R -> prog B) Q fs :
  I fs -> (forall ch, (do_call ch fs c).2 = fs) -> (forall r, wp env I (f r) Q fs) ->
  wp env I (call c ≫= f) Q fs.
Proof. intros HI Hc Hr ch _. simpl. rewrite Hc. split; [done|apply Hr]. Qed.

Lemma wp_fork path_of data (f : sysres Z -> prog B) Q fs :
  I fs -> (forall e, wp env I (f (Err e)) Q fs) ->
  (forall pid, 0 < pid ->
     let fs' := mkFS (durable fs) (pending fs) (inodes fs) (next_ino fs)
                  (<[pid := (path_of pid, data)]> (children fs)) in
     I fs' /\ wp env I (f (Ok pid)) Q fs') ->
  wp env I (call (Fork path_of data) ≫= f) Q fs.
Proof. intros HI He Hok ch _. simpl. destruct (c_errno ch); simpl; [by split|apply Hok; lia]. Qed.

Lemma wp_waitpid pid (f : child_status -> prog B) Q fs :
  I fs -> wp env I (f Running) Q fs ->
  (forall ok, I (reap pid ok fs) /\ wp env I (f (Exited ok)) Q (reap pid ok fs)) ->
  wp env I (call (Waitpid pid) ≫= f) Q fs.
Proof. intros HI Hr He ch _. simpl. destruct (c_flag ch); [apply He|by split]. Qed.

Lemma wp_kill_wait pid (f : unit -> prog B) Q fs :
  I (reap pid false fs) -> wp env I (f tt) Q (reap pid false fs) ->
  wp env I (call (Kill_wait pid) ≫= f) Q fs.
Proof. intros HI Hf ch _. by split. Qed.
End rules.

(** Directory syncs, in a system that does them. *)
Lemma wp_fsync_dir (I : FS -> Prop) {B} p (f : option Z -> prog B) (Q : B -> FS -> Prop) fs :
  I (sync_dir fs) -> wp (fun ch => c_dir_errno ch = None) I (f None) Q (sync_dir fs) ->
  wp (fun ch => c_dir_errno ch = None) I (fsync_dir p ≫= f) Q fs.
Proof. intros HI H ch Hch. simpl. unfold guarded. rewrite Hch. by split. Qed.
(** ** Saving a snapshot *)

Lemma wp_writes (env : choice -> Prop) (I : FS -> Prop) {A B} fd (w : list Snapshot.wresult -> A * bytes)
    (f : A * Z -> prog B) Q fs :
  (forall rs e,
     let n := inode_of fs fd in
     let fs' := set_inode fd (mkInode (content n ++ (w rs).2) (synced n)) fs in
     I fs' /\ wp env I (f ((w rs).1, e)) Q fs') ->
  wp env I (call (Writes fd w) ≫= f) Q fs.
Proof. intros H ch _. simpl. specialize (H (c_writes ch) (default 0 (c_errno ch))). by destruct (w (c_writes ch)). Qed.

(** The name a snapshot is written under. *)
Definition save_temp (p : bytes) (pid : Z) : bytes := join (dirname p) (&"temp-" ++ to_string pid ++ &".snap").

Lemma set_new_inode p m n fs : set_inode (next_ino fs) n (link_new p m fs) = link_new p n fs.
Proof. unfold set_inode, link_new, push. simpl. by rewrite insert_insert_eq. Qed.

(** What [snapshot::save] does to the directory: it adds and removes its
    temporary name, and may rename it. *)
Section saving.
Context (env : choice -> Prop) (I : FS -> Prop) (P : FS -> Prop) (store : KvStore) (p : bytes).
Context (HI : forall fs, P fs -> I fs).
Context (Hlink : forall fs pid n, P fs -> P (link_new (save_temp p pid) n fs)).
Context (Hunlink : forall fs pid, P fs -> P (push (DUnlink (save_temp p pid)) fs)).
Context (Hrename : forall fs pid, P fs -> P (push (DRename (save_temp p pid) p) fs)).
Context (Hsync : forall fs, P fs -> P (sync_dir fs)).

Lemma write_file_keeps pid fs :
  P fs -> wp env I (write_file store (save_temp p pid)) (fun _ fs' => P fs') fs.
Proof.
  intros HP. pose proof (fun n => Hlink _ pid n HP) as HL. unfold write_file.
  apply wp_open_trunc; [by apply HI|intros e; by apply wp_ret|by apply HI|].
  apply wp_writes. intros rs e. cbv zeta. rewrite set_new_inode. split; [by apply HI|].
  destruct (Snapshot.write_file true true true rs store) as [[] out]; cbn [fst snd]; apply wp_bind.
  - apply wp_fsync; [by apply HI| |].
    + intros e'. apply wp_ret, wp_close; [by apply HI|]. intros r. by apply wp_ret.
    + cbv zeta. rewrite set_new_inode. split; [by apply HI|]. apply wp_ret, wp_close; [by apply HI|].
      intros r. by apply wp_ret.
  - apply wp_ret, wp_close; [by apply HI|]. intros r. by apply wp_ret.
Qed.

Lemma save_keeps fs : P fs -> wp env I (save store p) (fun _ fs' => P fs') fs.
Proof.
  intros HP. unfold save. apply wp_reads; [by apply HI|done|]. intros pid. cbv zeta. fold (save_temp p pid).
  assert (Hend : forall fs' (r : option Z), P fs' ->
    wp env I (match r with None => mret None | Some e => _ ← call (Unlink (save_temp p pid)); mret (Some e) end)
      (fun _ fs' => P fs') fs').
  { intros fs' [e|] HP'; [|by apply wp_ret]. pose proof (Hunlink _ pid HP').
    apply wp_unlink; [by apply HI|by apply HI|by apply wp_ret|by apply wp_ret]. }
  apply wp_bind. eapply wp_mono; [by apply write_file_keeps|]. intros [e|] fs1 HP1; apply wp_bind.
  { by apply wp_ret, (Hend _ (Some e)). }
  unfold durable_rename. apply wp_rename; [by apply HI|intros e; by apply wp_ret, (Hend _ (Some e))|].
  intros i _. pose proof (Hrename _ pid HP1) as HP2. split; [by apply HI|]. intros ch _.
  simpl. unfold guarded. destruct (c_dir_errno ch) as [e|]; simpl.
  - split; [by apply HI|]. by apply (Hend _ (Some e)).
  - pose proof (Hsync _ HP2). split; [by apply HI|]. by apply (Hend _ None).
Qed.
End saving.

Section save.
Context (store : KvStore) (data : bytes).
(** What a successful [snapshot::write_file] writes. *)
Context (Hdata : forall rs, (Snapshot.write_file true true true rs store).1 = true ->
  (Snapshot.write_file true true true rs store).2 = data).
Abbreviation swp := (wp (fun ch => c_dir_errno ch = None) (fun _ => True)).

Lemma write_file_wp p fs :
  fs_ok fs ->
  swp (write_file store p)
    (fun r fs' => fs_ok fs' /\ children fs' = children fs /\
       (r = None -> file_is (inodes fs') p data (dir fs'))) fs.
Proof.
  intros Hok. unfold write_file. apply wp_open_trunc; [done|intros e; by apply wp_ret|done|].
  pose proof (fs_ok_link_new p (mkInode [] 0) fs Hok) as Hok1. set (fs1 := link_new p _ fs) in *.
  assert (Hd : dir fs1 !! p = Some (next_ino fs))
    by (unfold fs1, link_new; rewrite dir_push; simpl; by rewrite lookup_insert_eq).
  assert (Hi : inode_of fs1 (next_ino fs) = mkInode [] 0)
    by (unfold inode_of, fs1, link_new; simpl; by rewrite lookup_insert_eq).
  assert (Hb : (next_ino fs < next_ino fs1)%nat) by (unfold fs1; simpl; lia).
  apply wp_writes. intros rs e. cbv zeta. split; [done|]. rewrite Hi. cbn [content synced app].
  specialize (Hdata rs). destruct (Snapshot.write_file true true true rs store) as [flushed out].
  cbn [fst snd] in *. set (fs2 := set_inode _ _ fs1).
  assert (Hok2 : fs_ok fs2) by (by apply fs_ok_set_inode). apply wp_bind. destruct flushed.
  - specialize (Hdata eq_refl) as ->. apply wp_fsync; [done| |].
    + intros e'. apply wp_ret, wp_close; [done|]. intros r. by apply wp_ret.
    + cbv zeta. assert (Hi2 : inode_of fs2 (next_ino fs) = mkInode data 0)
        by (unfold inode_of, fs2; simpl; by rewrite lookup_insert_eq).
      rewrite Hi2. cbn [content]. split; [done|]. set (fs3 := set_inode _ _ fs2).
      assert (Hok3 : fs_ok fs3) by (by apply fs_ok_set_inode).
      apply wp_ret, wp_close; [done|]. intros r. apply wp_ret. split_and!; [done|done|]. intros _.
      exists (next_ino fs). split; [done|]. simpl. apply lookup_insert_eq.
  - apply wp_ret, wp_close; [done|]. intros r. by apply wp_ret.
Qed.

(** [snapshot::save]: the file is there and on the disk, or the call reports an
    error. *)
Lemma save_wp p fs :
  fs_ok fs ->
  swp (save store p)
    (fun r fs' => fs_ok fs' /\ children fs' = children fs /\
       (r = None -> file_is (inodes fs') p data (dir fs'))) fs.
Proof.
  intros Hok. unfold save. apply wp_reads; [done|done|]. intros pid. cbv zeta. set (temp := join _ _).
  assert (Hfail : forall fs' e, fs_ok fs' -> children fs' = children fs ->
    swp (_ ← call (Unlink temp); mret (Some e : option Z))
      (fun r fs' => fs_ok fs' /\ children fs' = children fs /\
         (r = None -> file_is (inodes fs') p data (dir fs'))) fs').
  { intros fs' e Hok' Hc. apply wp_unlink; [done|done|by apply wp_ret|]. apply wp_ret.
    split_and!; [|done|done]. apply fs_ok_push; [done|]. by apply dir_ok_unlink, fs_ok_dir. }
  apply wp_bind. eapply wp_mono; [by apply write_file_wp|]. intros [e|] fs1 (Hok1 & Hc1 & Hf).
  { apply wp_bind, wp_ret. by apply Hfail. }
  specialize (Hf eq_refl). apply wp_bind. unfold durable_rename. apply wp_rename; [done| |].
  { intros e. apply wp_ret. by apply Hfail. }
  intros i Hi. split; [done|].
  assert (Hok2 : fs_ok (push (DRename temp p) fs1)).
  { apply fs_ok_push; [done|]. by apply dir_ok_rename, fs_ok_dir. }
  intros ch Hch. simpl. unfold guarded. rewrite Hch. simpl. split; [done|].
  split_and!; [by apply fs_ok_sync|done|]. intros _. unfold sync_dir, dir at 1. cbn [durable pending foldl].
  rewrite dir_push. destruct Hf as (j & Hj & Hn). exists j. simpl. rewrite Hj. split; [apply lookup_insert_eq|done].
Qed.
End save.
(** ** A system that reads without errors *)

Definition reads_ok (ch : choice) : Prop :=
  c_errno ch = None /\ Forall (fun x => x <> Snapshot.RError) (c_reads ch).

Section reading.
Context {B : Type}.
Implicit Types (Q : B -> FS -> Prop) (fs : FS).
Abbreviation rwp := (wp reads_ok (fun _ => True)).

Lemma wp_open_read p f Q fs i n :
  dir fs !! p = Some i -> inodes fs !! i = Some n ->
  (forall rs e, Forall (fun x => x <> Snapshot.RError) rs -> rwp (f (Ok (content n, rs, e))) Q fs) ->
  rwp (call (Open_read p) ≫= f) Q fs.
Proof.
  intros Hp Hi Hf ch [Hc Hr]. simpl. unfold guarded. rewrite Hc, Hp. simpl. split; [done|].
  unfold inode_of. rewrite Hi. by apply Hf.
Qed.

Lemma wp_open_append p f Q fs i :
  dir fs !! p = Some i -> rwp (f (Ok i)) Q fs -> rwp (call (Open_append p) ≫= f) Q fs.
Proof. intros Hp Hf ch [Hc Hr]. simpl. unfold guarded. by rewrite Hc, Hp. Qed.

Lemma wp_truncate p len f Q fs i n :
  dir fs !! p = Some i -> inodes fs !! i = Some n ->
  rwp (f (Ok tt)) Q
    (set_inode i (mkInode (take (Z.to_nat len) (content n)) (Nat.min (Z.to_nat len) (synced n))) fs) ->
  rwp (call (Truncate p len) ≫= f) Q fs.
Proof.
  intros Hp Hi Hf ch [Hc Hr]. simpl. unfold guarded. rewrite Hc, Hp. simpl. split; [done|].
  unfold inode_of. by rewrite Hi.
Qed.
End reading.

(** ** A system in which nothing fails but, maybe, the sync of a directory *)

Definition works (ch : choice) : Prop :=
  c_errno ch = None /\ Forall (fun x => x <> Snapshot.WError) (c_writes ch).

Section working.
Context {B : Type}.
Implicit Types (Q : B -> FS -> Prop) (fs : FS).
Abbreviation kwp := (wp works (fun _ => True)).

Lemma works_open_trunc p f Q fs :
  kwp (f (Ok (next_ino fs))) Q (link_new p (mkInode [] 0) fs) -> kwp (call (Open_trunc p) ≫= f) Q fs.
Proof. intros Hf ch [Hc _]. simpl. unfold guarded. by rewrite Hc. Qed.

Lemma works_write_all fd data f Q fs :
  (forall e, kwp (f (length data, e)) Q
     (set_inode fd (mkInode (content (inode_of fs fd) ++ data) (synced (inode_of fs fd))) fs)) ->
  kwp (write_all fd data ≫= f) Q fs.
Proof.
  intros Hf ch [_ Hw]. simpl. unfold Snapshot.write_all. cbn [Snapshot.wresults Snapshot.contents].
  destruct (Snapshot.write_all_loop_spec (c_writes ch) data 0 [] Hw) as (rs' & -> & _). by split; [|apply Hf].
Qed.

Lemma works_fsync fd f Q fs :
  (let n := inode_of fs fd in
   kwp (f (Ok tt)) Q (set_inode fd (mkInode (content n) (length (content n))) fs)) ->
  kwp (call (Fsync fd) ≫= f) Q fs.
Proof. intros Hf ch [Hc _]. simpl. unfold guarded. by rewrite Hc. Qed.

Lemma works_close fd f Q fs : kwp (f (Ok tt)) Q fs -> kwp (call (Close fd) ≫= f) Q fs.
Proof. intros Hf ch [Hc _]. simpl. unfold guarded. by rewrite Hc. Qed.

Lemma works_rename p q f Q fs :
  is_Some (dir fs !! p) -> kwp (f (Ok tt)) Q (push (DRename p q) fs) -> kwp (call (Rename p q) ≫= f) Q fs.
Proof. intros [i Hp] Hf ch [Hc _]. simpl. unfold guarded. by rewrite Hc, Hp. Qed.

Lemma works_unlink p f Q fs :
  kwp (f tt) Q (push (DUnlink p) fs) -> kwp (call (Unlink p) ≫= f) Q fs.
Proof. intros Hf ch [Hc _]. simpl. by rewrite Hc. Qed.

End working.

Lemma works_fsync_dir p (Q : option Z -> FS -> Prop) fs :
  (forall e, Q (Some e) fs) -> Q None (sync_dir fs) -> wp works (fun _ => True) (fsync_dir p) Q fs.
Proof. intros He Hf ch _. simpl. unfold guarded. destruct (c_dir_errno ch); (split; [done|]); [apply He|exact Hf]. Qed.

(** ** What a crash leaves *)

Lemma crash_fs_ok k cut fs : fs_ok fs -> fs_ok (crash k cut fs).
Proof.
  intros [H1 H2]. split.
  - intros j. unfold crash. simpl. rewrite take_nil. simpl. apply H1.
  - intros i Hi. unfold crash in *. simpl in *. rewrite map_lookup_imap, H2 by done. done.
Qed.

Lemma crash_dirs_crash (k : nat) (cut : ino -> nat) (fs : FS) (P : dirmap -> Prop) :
  P (foldl apply_dirop (durable fs) (take k (pending fs))) -> crash_dirs (crash k cut fs) P.
Proof. intros H j. unfold crash. simpl. by rewrite take_nil. Qed.

Lemma crash_inode k cut fs i n :
  inodes fs !! i = Some n ->
  let len := Nat.min (length (content n)) (synced n + cut i) in
  inodes (crash k cut fs) !! i = Some (mkInode (take len (content n)) len).
Proof. intros Hi. unfold crash. simpl. by rewrite map_lookup_imap, Hi. Qed.

Lemma crash_file k cut fs p c d :
  file_is (inodes fs) p c d -> file_is (inodes (crash k cut fs)) p c d.
Proof.
  intros (i & Hd & Hi). exists i. split; [done|]. rewrite (crash_inode _ _ _ _ _ Hi). simpl.
  by rewrite Nat.min_l, firstn_all by lia.
Qed.
End Sys.
