(* ===== verification/FsyncWorker.v ===== *)
(** * The thread that syncs the append-only file (src/src/aof.cpp, class [FsyncWorker])

    The event loop and the worker share [fd_], [stop_] and [last_errno_] under a
    mutex and one condition variable.  A step of the relation is what one of the
    threads does while it holds the mutex, or a call made without it; a thread
    inside [cv_.wait] is asleep until it is notified or wakes up spuriously.

    The theorems: [wait_idle] returns only when no sync is running; every
    descriptor that is accepted is synced, also when the worker is told to stop;
    no wake-up is lost, so a loop that waits, or joins the thread, goes on after
    a bounded number of steps. *)

From S2P Require Import Prelude.
From Stdlib Require Import Lia Relations.

Module FsyncWorker.

(** Where the worker is: inside [cv_.wait], awake and about to evaluate the
    condition, in [fdatasync], about to lock again, or returned from [run]. *)
Inductive wpc := WAsleep | WAwake | WSyncing (fd : Z) | WSynced | WReturned.

(** Where the event loop is: outside, inside [wait_idle], or in the
    destructor. *)
Inductive lpc := LOutside | LAsleep | LAwake | LStopping | LJoining | LJoined.

Record state := mkState {
  fd_ : Z;
  stop_ : bool;
  last_errno_ : Z;
  worker : wpc;
  loop : lpc
}.

Definition init : state := mkState (-1) false 0 WAwake LOutside.

(** [cv_.notify_all]. *)
Definition wake_worker (w : wpc) : wpc := match w with WAsleep => WAwake | _ => w end.
Definition wake_loop (l : lpc) : lpc := match l with LAsleep => LAwake | _ => l end.

(** What the outside sees. *)
Inductive event :=
  | Submitted (fd : Z) | Refused | Idle | Stopped | Joined | Sync (fd errno : Z) | Silent.

Definition try_submit (fd : Z) (s : state) : bool * state :=
  if 0 <=? fd_ s then (false, s)
  else (true, mkState fd (stop_ s) (last_errno_ s) (wake_worker (worker s)) (wake_loop (loop s))).

(** The condition of [wait_idle]: returns, or goes to sleep. *)
Definition wait_idle (s : state) : bool * state :=
  if fd_ s <? 0 then (true, mkState (fd_ s) (stop_ s) (last_errno_ s) (worker s) LOutside)
  else (false, mkState (fd_ s) (stop_ s) (last_errno_ s) (worker s) LAsleep).

(** The top of the worker's loop, under the lock. *)
Definition check (s : state) : state :=
  mkState (fd_ s) (stop_ s) (last_errno_ s)
    (if stop_ s || (0 <=? fd_ s) then (if fd_ s <? 0 then WReturned else WSyncing (fd_ s)) else WAsleep)
    (loop s).

(** After [fdatasync]: [fd_ = -1] and notify, then the top of the loop again. *)
Definition finish (s : state) : state :=
  check (mkState (-1) (stop_ s) (last_errno_ s) WAwake (wake_loop (loop s))).

Inductive step : state -> event -> state -> Prop :=
  | step_submit fd s s' :
      loop s = LOutside -> 0 <= fd -> try_submit fd s = (true, s') -> step s (Submitted fd) s'
  | step_refuse fd s s' :
      loop s = LOutside -> 0 <= fd -> try_submit fd s = (false, s') -> step s Refused s'
  | step_idle s s' :
      loop s = LOutside \/ loop s = LAwake -> wait_idle s = (true, s') -> step s Idle s'
  | step_wait s s' :
      loop s = LOutside \/ loop s = LAwake -> wait_idle s = (false, s') -> step s Silent s'
  | step_stop s :
      loop s = LOutside -> step s Stopped (mkState (fd_ s) true (last_errno_ s) (worker s) LStopping)
  | step_stop_notify s :
      loop s = LStopping ->
      step s Silent (mkState (fd_ s) (stop_ s) (last_errno_ s) (wake_worker (worker s)) LJoining)
  | step_join s :
      loop s = LJoining -> worker s = WReturned ->
      step s Joined (mkState (fd_ s) (stop_ s) (last_errno_ s) (worker s) LJoined)
  | step_check s : worker s = WAwake -> step s Silent (check s)
  | step_sync s fd errno :
      worker s = WSyncing fd ->
      step s (Sync fd errno) (mkState (fd_ s) (stop_ s) errno WSynced (loop s))
  | step_finish s : worker s = WSynced -> step s Silent (finish s).

(** Waking up without a reason. *)
Inductive spurious : state -> state -> Prop :=
  | spurious_worker s :
      worker s = WAsleep -> spurious s (mkState (fd_ s) (stop_ s) (last_errno_ s) WAwake (loop s))
  | spurious_loop s :
      loop s = LAsleep -> spurious s (mkState (fd_ s) (stop_ s) (last_errno_ s) (worker s) LAwake).

(** Runs, with the events seen. *)
Inductive runs : state -> list event -> state -> Prop :=
  | runs_nil s : runs s [] s
  | runs_step s tr s' e s'' : runs s tr s' -> step s' e s'' -> runs s (tr ++ [e]) s''
  | runs_spurious s tr s' s'' : runs s tr s' -> spurious s' s'' -> runs s tr s''.

(** ** The invariant *)

(** The worker sleeps only with nothing to do, or with a notification on its
    way; the loop sleeps only while there is a sync to wait for. *)
Definition inv (s : state) : Prop :=
  match worker s with
  | WAsleep => fd_ s < 0 /\ (stop_ s = true -> loop s = LStopping)
  | WAwake => True
  | WSyncing fd => fd_ s = fd /\ 0 <= fd
  | WSynced => 0 <= fd_ s
  | WReturned => fd_ s < 0 /\ stop_ s = true
  end /\
  (loop s = LAsleep -> 0 <= fd_ s) /\
  stop_ s = match loop s with LStopping | LJoining | LJoined => true | _ => false end.

(** The cases of a step, on the parts of a state. *)
Ltac cases := unfold inv in *; simpl in *; intuition (try congruence; try lia).

Lemma inv_init : inv init.
Proof. cases. Qed.

Lemma check_inv s : inv s -> inv (check s).
Proof.
  destruct s as [f st e w l]. unfold check. simpl.
  destruct (Z.leb_spec 0 f), (Z.ltb_spec f 0), st, l; try lia; cases.
Qed.

Lemma step_inv s e s' : inv s -> step s e s' -> inv s'.
Proof.
  intros Hi Hs. destruct Hs as
    [fd s s' Hl Hfd E|fd s s' Hl Hfd E|s s' Hl E|s s' Hl E|s Hl|s Hl|s Hl Hw|s Hw|s fd e Hw|s Hw];
    destruct s as [f st er w l]; simpl in *; subst.
  - unfold try_submit in E. simpl in E. destruct (Z.leb_spec 0 f); simplify_eq. destruct w; cases.
  - unfold try_submit in E. simpl in E. destruct (0 <=? f); by simplify_eq.
  - unfold wait_idle in E. simpl in E. destruct (Z.ltb_spec f 0); simplify_eq.
    destruct Hl as [-> | ->], w; cases.
  - unfold wait_idle in E. simpl in E. destruct (Z.ltb_spec f 0); simplify_eq.
    destruct Hl as [-> | ->], w; cases.
  - destruct w; cases.
  - destruct w; cases.
  - cases.
  - by apply check_inv.
  - destruct l; cases.
  - unfold finish. apply check_inv. destruct l; cases.
Qed.

Lemma spurious_inv s s' : inv s -> spurious s s' -> inv s'.
Proof.
  intros Hi Hs. destruct Hs as [s Hw|s Hl]; destruct s as [f st e w l]; simpl in *; subst; [destruct l|destruct w]; cases.
Qed.

Lemma runs_inv s tr s' : inv s -> runs s tr s' -> inv s'.
Proof.
  intros Hi Hr. induction Hr; [done|by eapply step_inv; [apply IHHr|]|by eapply spurious_inv; [apply IHHr|]].
Qed.

(** ** What is owed *)

(** The descriptors accepted, and those synced, in the order of the events. *)
Definition accepted (tr : list event) : list Z :=
  omap (fun e => match e with Submitted fd => Some fd | _ => None end) tr.
Definition synced (tr : list event) : list Z :=
  omap (fun e => match e with Sync fd _ => Some fd | _ => None end) tr.

(** What the last sync returned. *)
Definition outcome (tr : list event) : Z :=
  foldl (fun o e => match e with Sync _ errno => errno | _ => o end) 0 tr.

Definition pays (tr : list event) (s : state) : Prop :=
  last_errno_ s = outcome tr /\
  ((exists fd, accepted tr = synced tr ++ [fd] /\ fd_ s = fd /\ 0 <= fd /\ (worker s = WAwake \/ worker s = WSyncing fd)) \/
   (accepted tr = synced tr /\ ((fd_ s < 0 /\ forall fd, worker s <> WSyncing fd) \/ worker s = WSynced))).

Lemma accepted_snoc tr e :
  accepted (tr ++ [e]) = accepted tr ++ match e with Submitted fd => [fd] | _ => [] end.
Proof. unfold accepted. rewrite omap_app. by destruct e. Qed.

Lemma synced_snoc tr e : synced (tr ++ [e]) = synced tr ++ match e with Sync fd _ => [fd] | _ => [] end.
Proof. unfold synced. rewrite omap_app. by destruct e. Qed.

Lemma outcome_snoc tr e : outcome (tr ++ [e]) = match e with Sync _ errno => errno | _ => outcome tr end.
Proof. unfold outcome. by rewrite foldl_app. Qed.

Lemma check_pays tr s : worker s = WAwake -> pays tr s -> pays tr (check s).
Proof.
  destruct s as [f st e w l]. unfold pays, check. simpl. intros -> [He [(fd & Ha & -> & Hf & _)|[Ha [[Hf _]|]]]]; [| |done].
  - split; [done|]. left. exists fd. destruct (Z.leb_spec 0 fd), (Z.ltb_spec fd 0); try lia. rewrite orb_true_r. naive_solver.
  - split; [done|]. right. split; [done|]. left. destruct (Z.leb_spec 0 f), (Z.ltb_spec f 0); try lia.
    rewrite orb_false_r. by destruct st.
Qed.

Lemma step_pays tr s e s' : inv s -> pays tr s -> step s e s' -> pays (tr ++ [e]) s'.
Proof.
  intros Hi [He Hp] Hs. unfold pays. rewrite accepted_snoc, synced_snoc, outcome_snoc.
  destruct Hs as [fd s s' Hl Hfd E|fd s s' Hl Hfd E|s s' Hl E|s s' Hl E|s Hl|s Hl|s Hl Hw|s Hw|s fd e Hw|s Hw];
    rewrite ?app_nil_r.
  - unfold try_submit in E. destruct (Z.leb_spec 0 (fd_ s)) as [|Hneg]; simplify_eq. simpl. split; [done|]. left. exists fd.
    destruct Hp as [(fd' & _ & <- & ? & _)|[-> Hw]]; [lia|]. split_and!; [done..|left].
    destruct s as [f st er w l]. simpl in *. subst l. destruct w; cases.
  - unfold try_submit in E. destruct (0 <=? fd_ s); by simplify_eq.
  - unfold wait_idle in E. destruct (fd_ s <? 0); by simplify_eq.
  - unfold wait_idle in E. destruct (fd_ s <? 0); by simplify_eq.
  - done.
  - simpl. split; [done|]. destruct Hp as [(fd & ? & ? & ? & [Ew|Ew])|[? [[? ?]|Ew]]]; [left|left|right|right]; try rewrite Ew; eauto 10.
    split; [done|]. left. split; [done|]. destruct (worker s); simpl in *; naive_solver.
  - done.
  - by apply (check_pays tr s).
  - simpl. split; [done|]. right. destruct Hp as [(fd' & -> & <- & _ & [?|?])|[_ [[_ F]|?]]]; try congruence.
    split; [f_equal; f_equal; congruence|by right].
  - destruct Hp as [(fd' & _ & _ & _ & [?|?])|[Ha _]]; try congruence.
    unfold finish, check. simpl. rewrite orb_false_r. split; [done|]. right. split; [done|]. left. split; [lia|]. by destruct (stop_ s).
Qed.

Lemma runs_pays tr s : runs init tr s -> pays tr s.
Proof.
  intros Hr. remember init as s0 eqn:E0. induction Hr as [s|s tr s' e s'' Hr IH Hs|s tr s' s'' Hr IH Hs]; subst.
  - split; [done|]. right. split; [done|]. by left.
  - eapply step_pays; [exact (runs_inv _ _ _ inv_init Hr)|by apply IH|done].
  - destruct (IH eq_refl) as [He Hp]. destruct Hs as [s Hw|s Hl]; split; simpl; try done.
    rewrite Hw in Hp. naive_solver.
Qed.

Lemma runs_prefix s0 tr1 tr2 s : runs s0 (tr1 ++ tr2) s -> exists s1, runs s0 tr1 s1.
Proof.
  intros Hr. remember (tr1 ++ tr2) as tr eqn:E. revert tr1 tr2 E.
  induction Hr as [s|s tr s' e s'' Hr IH Hs|s tr s' s'' Hr IH Hs]; intros tr1 tr2 E.
  - destruct tr1; [|done]. exists s. constructor.
  - destruct tr2 as [|x tr2 _] using rev_ind.
    + rewrite app_nil_r in E. exists s''. rewrite <-E. by eapply runs_step.
    + rewrite app_assoc in E. apply app_inj_tail in E as [-> _]. by eapply IH.
  - by eapply IH.
Qed.

(** ** Progress *)

Definition blocked (s : state) : Prop := loop s <> LOutside /\ loop s <> LJoined.

(** The steps still to be made before the loop goes on. *)
Definition weight (s : state) : nat :=
  2 * match worker s with
      | WAwake => if 0 <=? fd_ s then 3 else 1
      | WSyncing _ => 2
      | WSynced => 1
      | _ => 0
      end
  + match loop s with LStopping => 5 | LAwake => 2 | LAsleep => 1 | LJoining => 1 | _ => 0 end.

Lemma check_weight s : worker s = WAwake -> (weight (check s) < weight s)%nat.
Proof.
  destruct s as [f st e w l]. simpl. intros ->. unfold weight, check. simpl.
  destruct (Z.leb_spec 0 f), (Z.ltb_spec f 0), st; simpl; lia.
Qed.

Lemma blocked_weight s e s' : inv s -> blocked s -> step s e s' -> (weight s' < weight s)%nat.
Proof.
  intros Hi [Hb1 Hb2] Hs. destruct Hs as
    [fd s s' Hl Hfd E|fd s s' Hl Hfd E|s s' Hl E|s s' Hl E|s Hl|s Hl|s Hl Hw|s Hw|s fd e Hw|s Hw]; try done.
  - unfold wait_idle in E. destruct (fd_ s <? 0); simplify_eq. destruct Hl as [|Hl]; [done|].
    unfold weight. simpl. rewrite Hl. lia.
  - unfold wait_idle in E. destruct (fd_ s <? 0); simplify_eq. destruct Hl as [|Hl]; [done|].
    unfold weight. simpl. rewrite Hl. lia.
  - unfold weight. simpl. rewrite Hl. destruct s as [f st e w l]. simpl in *. subst l.
    destruct w; simpl; try lia. destruct (Z.leb_spec 0 f); cases.
  - unfold weight. simpl. rewrite Hl. lia.
  - by apply check_weight.
  - unfold weight. simpl. rewrite Hw. lia.
  - unfold finish, weight, check. simpl. rewrite Hw, orb_false_r. destruct (stop_ s), (loop s); simpl; lia.
Qed.

Lemma worker_enabled s :
  worker s <> WAsleep -> worker s <> WReturned -> exists e s', step s e s'.
Proof.
  intros H1 H2. destruct (worker s) as [| |fd| |] eqn:Ew; [done| | | |done].
  - exists Silent, (check s). by apply step_check.
  - eexists _, _. by apply (step_sync s fd 0).
  - exists Silent, (finish s). by apply step_finish.
Qed.

Lemma blocked_enabled s : inv s -> blocked s -> exists e s', step s e s'.
Proof.
  intros Hi [Hb1 Hb2]. destruct (loop s) eqn:El; [done| | | | |done].
  - apply worker_enabled; intros Ew; unfold inv in Hi; rewrite El, Ew in Hi; cases.
  - destruct (wait_idle s) as [[] s'] eqn:E.
    + exists Idle, s'. apply step_idle; auto.
    + exists Silent, s'. apply step_wait; auto.
  - eexists _, _. by apply step_stop_notify.
  - destruct (worker s) eqn:Ew; try (apply worker_enabled; by rewrite Ew).
    + unfold inv in Hi; rewrite El, Ew in Hi; cases.
    + eexists _, _. by apply step_join.
Qed.
End FsyncWorker.

Module FsyncWorkerClaims.
Import FsyncWorker.

(** C22: the worker keeps its word.  In every interleaving of the event loop and
    the worker, spurious wake-ups included: when [wait_idle] returns, or the
    destructor has joined the thread, the descriptors synced are exactly those
    accepted, one sync for each and in the same order, no sync is running any
    more, and [last_errno] is what the last sync returned.  At any earlier point
    at most the last descriptor accepted is still to be synced: a sync never
    comes before its descriptor was accepted. *)
Theorem idle_means_synced tr s e s' :
  runs init tr s -> step s e s' -> e = Idle \/ e = Joined ->
  synced tr = accepted tr /\ last_errno_ s' = outcome tr /\
  fd_ s' < 0 /\ worker s' <> WSynced /\ (forall fd, worker s' <> WSyncing fd) /\
  (forall tr1 tr2, tr = tr1 ++ tr2 -> exists pending, accepted tr1 = synced tr1 ++ pending /\ (length pending <= 1)%nat).
Proof.
  intros Hr Hs He. pose proof (runs_inv _ _ _ inv_init Hr) as Hi. destruct (runs_pays _ _ Hr) as [Hl Hp].
  assert (Hf : fd_ s < 0 /\ fd_ s' = fd_ s /\ worker s' = worker s /\ last_errno_ s' = last_errno_ s).
  { destruct Hs; destruct He; simplify_eq.
    - unfold wait_idle in *. destruct (Z.ltb_spec (fd_ s) 0); by simplify_eq.
    - unfold inv in Hi. simpl. rewrite H0 in Hi. naive_solver. }
  destruct Hf as (Hf & -> & -> & ->). unfold inv in Hi.
  split_and!; [destruct Hp as [(fd & _ & <- & ? & _)|[-> _]]; [lia|done]|done|done|..].
  - intros Ew. rewrite Ew in Hi. cases.
  - intros fd Ew. rewrite Ew in Hi. cases.
  - intros tr1 tr2 ->. destruct (runs_prefix _ _ _ _ Hr) as [s1 Hr1].
    destruct (runs_pays _ _ Hr1) as [_ [(fd & E & _)|[E _]]]; [by exists [fd]|]. exists []. rewrite app_nil_r. split; [done|simpl; lia].
Qed.

(** A descriptor is submitted, synced with success, and the loop has not waited
    yet. *)
Definition demo_trace : list event := [Silent; Submitted 3; Silent; Sync 3 0; Silent].
Definition demo_state : state := mkState (-1) false 0 WAsleep LOutside.

Lemma demo_runs : runs init demo_trace demo_state.
Proof.
  apply (runs_step _ [Silent; Submitted 3; Silent; Sync 3 0] (mkState 3 false 0 WSynced LOutside)); [|by apply (step_finish (mkState 3 false 0 WSynced LOutside))].
  apply (runs_step _ [Silent; Submitted 3; Silent] (mkState 3 false 0 (WSyncing 3) LOutside));
    [|by apply (step_sync (mkState 3 false 0 (WSyncing 3) LOutside))].
  apply (runs_step _ [Silent; Submitted 3] (mkState 3 false 0 WAwake LOutside));
    [|by apply (step_check (mkState 3 false 0 WAwake LOutside))].
  apply (runs_step _ [Silent] (mkState (-1) false 0 WAsleep LOutside)); [|by apply step_submit].
  apply (runs_step _ [] init); [apply runs_nil|by apply (step_check init)].
Qed.

Lemma idle_means_synced_witness :
  synced demo_trace = [3] /\ synced demo_trace = accepted demo_trace /\ last_errno_ demo_state = 0.
Proof.
  split; [reflexivity|]. destruct (idle_means_synced demo_trace demo_state Idle demo_state) as (? & ? & _).
  - exact demo_runs.
  - apply step_idle; [by left|reflexivity].
  - by left.
  - by split.
Defined.

(** C19: no wake-up is lost.  A loop that is inside [wait_idle] or in the
    destructor can always go on: some thread can move, and every move that is
    not a spurious wake-up brings it nearer to the end, which is at most 11
    moves away. *)
Theorem blocked_loop_goes_on tr s :
  runs init tr s -> blocked s ->
  (weight s <= 11)%nat /\ (exists e s', step s e s') /\
  (forall e s', step s e s' -> (weight s' < weight s)%nat).
Proof.
  intros Hr Hb. pose proof (runs_inv _ _ _ inv_init Hr) as Hi. split_and!.
  - unfold weight. destruct (worker s), (loop s), (0 <=? fd_ s); lia.
  - by apply blocked_enabled.
  - intros e s'. by apply blocked_weight.
Qed.

(** The loop waits for a sync that has not started. *)
Definition waiting_state : state := mkState 3 false 0 WAwake LAsleep.

Lemma waiting_runs : runs init [Silent; Submitted 3; Silent] waiting_state.
Proof.
  apply (runs_step _ [Silent; Submitted 3] (mkState 3 false 0 WAwake LOutside));
    [|apply step_wait; [by left|reflexivity]].
  apply (runs_step _ [Silent] (mkState (-1) false 0 WAsleep LOutside)); [|by apply step_submit].
  apply (runs_step _ [] init); [apply runs_nil|by apply (step_check init)].
Qed.

Lemma blocked_loop_goes_on_witness :
  (weight waiting_state <= 11)%nat /\ (exists e s', step waiting_state e s') /\
  (forall e s', step waiting_state e s' -> (weight s' < weight waiting_state)%nat).
Proof.
  apply (blocked_loop_goes_on [Silent; Submitted 3; Silent] waiting_state).
  - exact waiting_runs.
  - by split.
Defined.
End FsyncWorkerClaims.
