(* ===== verification/Aof.v ===== *)
(** * The append-only file (src/src/aof.cpp, src/include/aof.hpp)

    A directory holds a manifest, at most one base snapshot and the incr files
    with the commands executed since; [load] loads the base and replays the
    incrs in the order the manifest lists them.  Commands are buffered by
    [feed], written by [flush] and synced according to the policy; a rewrite
    switches to a new incr file ([begin_rewrite]), lets a child write a new
    base, and installs it ([finish_rewrite]).

    The theorems are about crashes: whenever the machine stops, the files it
    leaves describe the history of commands up to some point, nothing before
    what was acknowledged as durable is missing, and nothing is there twice. *)

From S2P Require Import Prelude Resp Slots HashTable Store Snapshot Sys.
From Stdlib Require Import Lia.

Module Aof.
Import Sys.

Abbreviation Args := (list bytes).

Inductive FsyncPolicy := kAlways | kEverySec | kNo.

#[global] Instance fsync_policy_eq_dec : EqDecision FsyncPolicy.
Proof. solve_decision. Defined.

Definition kManifestName : bytes := &"appendonly.aof.manifest".
Definition kEverySecInterval : Z := 1000000000.
Definition kLoadChunkSize : nat := 4096.

Definition base_name (seq : Z) : bytes := &"appendonly.aof." ++ to_string seq ++ &".base.snap".
Definition incr_name (seq : Z) : bytes := &"appendonly.aof." ++ to_string seq ++ &".incr.aof".

Record FileEntry := mkEntry { name : bytes; seq : Z; is_base : bool }.

Record AppendOnlyFile := mkAof {
  dir_ : bytes;
  policy_ : FsyncPolicy;
  base_ : option FileEntry;
  incrs_ : list FileEntry;
  next_seq_ : Z;
  fd_ : option ino;
  buf_ : bytes;
  write_errno_ : Z;
  unsynced_ : bool;
  last_fsync_ : Z;
  base_bytes_ : Z;
  older_incr_bytes_ : Z;
  incr_bytes_ : Z;
  size_after_rewrite_ : Z
}.

Definition make (dir : bytes) (policy : FsyncPolicy) : AppendOnlyFile :=
  mkAof dir policy None [] 1 None [] 0 false 0 0 0 0 0.

Definition with_files (a : AppendOnlyFile) (b : option FileEntry) (fs : list FileEntry) (n : Z)
  : AppendOnlyFile :=
  mkAof (dir_ a) (policy_ a) b fs n (fd_ a) (buf_ a) (write_errno_ a) (unsynced_ a) (last_fsync_ a)
    (base_bytes_ a) (older_incr_bytes_ a) (incr_bytes_ a) (size_after_rewrite_ a).
Definition with_fd (a : AppendOnlyFile) (fd : option ino) : AppendOnlyFile :=
  mkAof (dir_ a) (policy_ a) (base_ a) (incrs_ a) (next_seq_ a) fd (buf_ a) (write_errno_ a)
    (unsynced_ a) (last_fsync_ a) (base_bytes_ a) (older_incr_bytes_ a) (incr_bytes_ a)
    (size_after_rewrite_ a).
Definition with_buf (a : AppendOnlyFile) (buf : bytes) : AppendOnlyFile :=
  mkAof (dir_ a) (policy_ a) (base_ a) (incrs_ a) (next_seq_ a) (fd_ a) buf (write_errno_ a)
    (unsynced_ a) (last_fsync_ a) (base_bytes_ a) (older_incr_bytes_ a) (incr_bytes_ a)
    (size_after_rewrite_ a).
Definition with_errno (a : AppendOnlyFile) (e : Z) : AppendOnlyFile :=
  mkAof (dir_ a) (policy_ a) (base_ a) (incrs_ a) (next_seq_ a) (fd_ a) (buf_ a) e (unsynced_ a)
    (last_fsync_ a) (base_bytes_ a) (older_incr_bytes_ a) (incr_bytes_ a) (size_after_rewrite_ a).
Definition with_sync (a : AppendOnlyFile) (unsynced : bool) (last : Z) : AppendOnlyFile :=
  mkAof (dir_ a) (policy_ a) (base_ a) (incrs_ a) (next_seq_ a) (fd_ a) (buf_ a) (write_errno_ a)
    unsynced last (base_bytes_ a) (older_incr_bytes_ a) (incr_bytes_ a) (size_after_rewrite_ a).
Definition with_bytes (a : AppendOnlyFile) (base older incr after : Z) : AppendOnlyFile :=
  mkAof (dir_ a) (policy_ a) (base_ a) (incrs_ a) (next_seq_ a) (fd_ a) (buf_ a) (write_errno_ a)
    (unsynced_ a) (last_fsync_ a) base older incr after.

Definition current_size (a : AppendOnlyFile) : Z :=
  u64 (base_bytes_ a + older_incr_bytes_ a + incr_bytes_ a).

Definition has_worker (a : AppendOnlyFile) : bool := bool_decide (policy_ a = kEverySec).

Definition path (a : AppendOnlyFile) (name : bytes) : bytes := join (dir_ a) name.

Definition temp_base_path (a : AppendOnlyFile) (child_pid : Z) : bytes :=
  path a (&"temp-rewrite-" ++ to_string child_pid ++ &".snap").

Definition exists_ (a : AppendOnlyFile) : prog bool := call (Access (path a kManifestName)).

(** ** The manifest *)

(** [std::getline] until the end of the stream. *)
Fixpoint getlines (s acc : bytes) : list bytes :=
  match s with
  | [] => match acc with [] => [] | _ => [acc] end
  | c :: s => if bool_decide (c = x0a) then acc :: getlines s [] else getlines s (acc ++ [c])
  end.

Definition is_space (c : byte) : bool := ((9 <=? bz c) && (bz c <=? 13)) || (bz c =? 32).

Fixpoint skip_spaces (s : bytes) : bytes :=
  match s with c :: t => if is_space c then skip_spaces t else s | [] => [] end.

Fixpoint scan_word (s : bytes) : bytes * bytes :=
  match s with
  | c :: t => if is_space c then ([], s) else let '(w, r) := scan_word t in (c :: w, r)
  | [] => ([], [])
  end.

(** [fields >> word]: the word and the rest; [None] when the stream fails. *)
Definition extract_word (s : bytes) : option (bytes * bytes) :=
  match scan_word (skip_spaces s) with ([], _) => None | (w, r) => Some (w, r) end.

(** [fields >> n] for a [uint64_t]. *)
Definition extract_u64 (s : bytes) : option (Z * bytes) :=
  let s := skip_spaces s in
  let '(neg, body) :=
    match s with
    | c :: t => if bz c =? 45 then (true, t) else if bz c =? 43 then (false, t) else (false, s)
    | [] => (false, [])
    end in
  let '(ds, rest) := scan_digits body in
  match ds with
  | [] => None
  | _ => let v := digits_value ds in
         if size_max <? v then None else Some (if (neg : bool) then u64 (- v) else v, rest)
  end.

Definition has_slash (s : bytes) : bool := existsb (fun c => bool_decide (c = "/"%byte)) s.

Definition parse_line (line : bytes) : option FileEntry :=
  '(file_kw, r) ← extract_word line;
  '(name, r) ← extract_word r;
  '(seq_kw, r) ← extract_word r;
  '(seq, r) ← extract_u64 r;
  '(type_kw, r) ← extract_word r;
  '(type, r) ← extract_word r;
  if beq file_kw &"file" && beq seq_kw &"seq" && beq type_kw &"type" &&
     (beq type &"b" || beq type &"i") && negb (has_slash name)
  then Some (mkEntry name seq (beq type &"b")) else None.

(** The loop over the lines: the entries and the next sequence number, or the
    error. *)
Fixpoint manifest_lines (lines : list bytes) (base : option FileEntry) (incrs : list FileEntry)
  (next : Z) : bytes + option FileEntry * list FileEntry * Z :=
  match lines with
  | [] => inr (base, incrs, next)
  | [] :: lines => manifest_lines lines base incrs next
  | line :: lines =>
      match parse_line line with
      | None => inl (&"malformed AOF manifest line: " ++ line)
      | Some e =>
          let next' := Z.max next (u64 (seq e + 1)) in
          if is_base e then
            if bool_decide (base = None /\ incrs = []) then manifest_lines lines (Some e) incrs next'
            else inl &"AOF manifest: the base file must be listed once, first"
          else manifest_lines lines base (incrs ++ [e]) next'
      end
  end.

#[global] Instance file_entry_eq_dec : EqDecision FileEntry.
Proof. solve_decision. Defined.

Section aof.
(** [std::strerror]. *)
Context (strerror : Z -> bytes).

(** [None] is success, [Some] the error text. *)
Definition read_manifest (a : AppendOnlyFile) : prog (option bytes * AppendOnlyFile) :=
  r ← call (Open_read (path a kManifestName));
  match r with
  | Err e => mret (Some (path a kManifestName ++ &": " ++ strerror e), a)
  | Ok (text, _, _) =>
      match manifest_lines (getlines text []) (base_ a) (incrs_ a) (next_seq_ a) with
      | inl err => mret (Some err, a)
      | inr (base, incrs, next) =>
          let a := with_files a base incrs next in
          mret (if bool_decide (incrs = []) then Some &"AOF manifest lists no incr file" else None, a)
      end
  end.

Definition manifest_line (f : FileEntry) : bytes :=
  &"file " ++ name f ++ &" seq " ++ to_string (seq f) ++ &" type " ++
  (if is_base f then &"b" else &"i") ++ [x0a].

Definition manifest_text (base : option FileEntry) (incrs : list FileEntry) : bytes :=
  match base with Some f => manifest_line f | None => [] end ++ concat (manifest_line <$> incrs).

Definition persist_manifest (a : AppendOnlyFile) : prog (option bytes) :=
  let text := manifest_text (base_ a) (incrs_ a) in
  let temp := path a (kManifestName ++ &".tmp") in
  fd ← call (Open_trunc temp);
  r ← match fd with
      | Err e => mret (Some e)
      | Ok fd =>
          '(n, e) ← write_all fd text;
          r ← (if (n =? length text)%nat then s ← call (Fsync fd); mret (as_errno s)
               else mret (Some e));
          _ ← call (Close fd);
          mret r
      end;
  r ← match r with Some e => mret (Some e) | None => durable_rename temp (path a kManifestName) end;
  match r with
  | None => mret None
  | Some e => _ ← call (Unlink temp); mret (Some (&"writing the AOF manifest: " ++ strerror e))
  end.

(** ** Starting a file *)

Definition create (store : KvStore) (a : AppendOnlyFile) : prog (option bytes * AppendOnlyFile) :=
  d ← call (Mkdir (dir_ a));
  match (match d with Err e => if e =? EEXIST then None else Some e | Ok _ => None end) with
  | Some e => mret (Some (dir_ a ++ &": " ++ strerror e), a)
  | None =>
      let base := mkEntry (base_name (next_seq_ a)) (next_seq_ a) true in
      let incr := mkEntry (incr_name (u64 (next_seq_ a + 1))) (u64 (next_seq_ a + 1)) false in
      r ← save store (path a (name base));
      match r with
      | Some e => mret (Some (&"writing the AOF base: " ++ strerror e), a)
      | None =>
          fd ← call (Open_trunc (path a (name incr)));
          match fd with
          | Err e => mret (Some (path a (name incr) ++ &": " ++ strerror e), a)
          | Ok fd =>
              let a := with_files a (Some base) [incr] (next_seq_ a) in
              r ← persist_manifest a;
              match r with
              | Some err => _ ← call (Close fd); mret (Some err, a)
              | None =>
                  let a := with_fd (with_files a (base_ a) (incrs_ a) (u64 (next_seq_ a + 2))) (Some fd) in
                  size ← call (File_size (path a (name base)));
                  let a := with_bytes a size 0 0 (size_after_rewrite_ a) in
                  mret (None, with_bytes a size 0 0 (current_size a))
              end
          end
      end
  end.

Definition opt_close (fd : option ino) : prog unit :=
  match fd with Some fd => _ ← call (Close fd); mret tt | None => mret tt end.

Fixpoint unlink_all (paths : list bytes) : prog unit :=
  match paths with
  | [] => mret tt
  | p :: paths => _ ← call (Unlink p); unlink_all paths
  end.

Definition reset (store : KvStore) (a : AppendOnlyFile) : prog (option bytes * AppendOnlyFile) :=
  _ ← (if has_worker a then call Wait_idle else mret tt);
  '(r, a') ← create store a;
  match r with
  | Some err => mret (Some err, with_files a' (base_ a) (incrs_ a) (next_seq_ a'))
  | None =>
      let a' := with_sync (with_errno (with_buf a' []) 0) false (last_fsync_ a') in
      _ ← opt_close (fd_ a);
      _ ← unlink_all (match base_ a with Some b => [path a (name b)] | None => [] end);
      _ ← unlink_all ((fun f => path a (name f)) <$> incrs_ a);
      _ ← fsync_dir (dir_ a);
      mret (None, a')
  end.

(** ** Loading *)

(** The chunks successive [read]s deliver, and whether one failed. *)
Fixpoint read_file (fuel : nat) (rs : list Snapshot.rresult) (rest : bytes) : list bytes * bool :=
  match fuel with
  | O => ([], false)
  | S fuel =>
      let next n rs :=
        match rest with
        | [] => ([], false)
        | _ => let '(chunks, err) := read_file fuel rs (drop n rest) in (take n rest :: chunks, err)
        end in
      match rs with
      | [] => next kLoadChunkSize []
      | Snapshot.RIntr :: rs => read_file fuel rs rest
      | Snapshot.RError :: rs => ([], true)
      | Snapshot.Got n :: rs => next (Nat.max 1 (Nat.min n kLoadChunkSize)) rs
      end
  end.

Definition read_chunks_of (rs : list Snapshot.rresult) (text : bytes) : list bytes * bool :=
  read_file (S (length rs + length text)) rs text.

(** The answer, the commands handed to [replay], and the length of the prefix
    made of complete commands. *)
Definition replay_incr (a : AppendOnlyFile) (file : bytes) (is_last : bool)
  : prog (option bytes * list Args * Z) :=
  let file_path := path a file in
  r ← call (Open_read file_path);
  match r with
  | Err e => mret (Some (file_path ++ &": " ++ strerror e), [], 0)
  | Ok (text, rs, errno) =>
      let '(chunks, read_error) := read_chunks_of rs text in
      let '(cmds, corrupt, parser) := Parser.read_chunks {| Parser.buffer_ := [] |} chunks in
      let fed := zlen (concat chunks) in
      let valid := fed - Parser.buffered_bytes parser in
      if (corrupt : bool) then
        mret (Some (file_path ++ &": corrupt command at byte offset " ++ to_string valid), cmds, valid)
      else if (read_error : bool) then
        mret (Some (file_path ++ &": " ++ strerror errno), cmds, valid)
      else if 0 <? Parser.buffered_bytes parser then
        if negb is_last then
          mret (Some (file_path ++ &": truncated command at byte offset " ++ to_string valid),
                cmds, valid)
        else
          t ← call (Truncate file_path valid);
          match t with
          | Err e => mret (Some (file_path ++ &": truncate: " ++ strerror e), cmds, valid)
          | Ok _ => mret (None, cmds, valid)
          end
      else mret (None, cmds, valid)
  end.

(** The loop over the incr files: the bytes of the older ones and of the last. *)
Fixpoint replay_incrs (a : AppendOnlyFile) (incrs : list FileEntry) (cmds : list Args) (older last : Z)
  : prog (option bytes * list Args * Z * Z) :=
  match incrs with
  | [] => mret (None, cmds, older, last)
  | f :: rest =>
      let is_last := bool_decide (rest = []) in
      '(err, cs, n) ← replay_incr a (name f) is_last;
      match err with
      | Some err => mret (Some err, cmds ++ cs, older, last)
      | None =>
          if is_last then replay_incrs a rest (cmds ++ cs) older (u64 (last + n))
          else replay_incrs a rest (cmds ++ cs) (u64 (older + n)) last
      end
  end.

(** [snapshot::load] of a path, with its error text. *)
Definition load_snapshot (file_path : bytes) (store : KvStore)
  : prog (Snapshot.LoadResult * KvStore * bytes) :=
  r ← call (Open_read file_path);
  let '(file, errno) :=
    match r with
    | Ok (text, rs, errno) => (Snapshot.Opened text rs, errno)
    | Err e => (if e =? ENOENT then Snapshot.NoSuchFile else Snapshot.OpenFailed, e)
    end in
  let '(res, store) := Snapshot.load file store in
  mret (res, store,
        match res with
        | Snapshot.kError Snapshot.ReadFailed => file_path ++ &": " ++ strerror errno
        | Snapshot.kError (Snapshot.Reason what) => file_path ++ &": " ++ what
        | _ => []
        end).

Definition load_base (a : AppendOnlyFile) (store : KvStore)
  : prog (option bytes * AppendOnlyFile * KvStore) :=
  match base_ a with
  | None => mret (None, a, store)
  | Some b =>
      let base_path := path a (name b) in
      '(r, store, err) ← load_snapshot base_path store;
      match r with
      | Snapshot.kOk =>
          size ← call (File_size base_path);
          mret (None, with_bytes a size (older_incr_bytes_ a) (incr_bytes_ a) (size_after_rewrite_ a), store)
      | Snapshot.kNotFound =>
          mret (Some (base_path ++ &": listed in the manifest but missing"), a, store)
      | Snapshot.kError _ => mret (Some err, a, store)
      end
  end.

(** The store after the base, and the commands to replay on it. *)
Definition load (a : AppendOnlyFile) (store : KvStore)
  : prog (option bytes * AppendOnlyFile * KvStore * list Args) :=
  '(r, a) ← read_manifest a;
  match r with
  | Some err => mret (Some err, a, store, [])
  | None =>
      '(r, a, store) ← load_base a store;
      match r with
      | Some err => mret (Some err, a, store, [])
      | None =>
          '(err, cmds, older, last) ← replay_incrs a (incrs_ a) [] (older_incr_bytes_ a) (incr_bytes_ a);
          let a := with_bytes a (base_bytes_ a) older last (size_after_rewrite_ a) in
          match err with
          | Some err => mret (Some err, a, store, cmds)
          | None =>
              let last_path := path a (default [] (name <$> list.last (incrs_ a))) in
              fd ← call (Open_append last_path);
              match fd with
              | Err e => mret (Some (last_path ++ &": " ++ strerror e), a, store, cmds)
              | Ok fd =>
                  let a := with_fd a (Some fd) in
                  mret (None, with_bytes a (base_bytes_ a) (older_incr_bytes_ a) (incr_bytes_ a)
                                (current_size a), store, cmds)
              end
          end
      end
  end.

(** ** Logging *)

Definition feed (argv : Args) (a : AppendOnlyFile) : AppendOnlyFile :=
  with_buf a (Reply.command (buf_ a) argv).

Definition the_fd (a : AppendOnlyFile) : ino := default 0%nat (fd_ a).

(** The buffer reached the file; [true] unless a sync that the policy asks for
    failed. *)
Definition flush_sync (a : AppendOnlyFile) : prog (bool * AppendOnlyFile) :=
  if bool_decide (policy_ a = kAlways) then
    r ← call (Fsync (the_fd a));
    match r with
    | Err e => mret (false, with_errno a e)
    | Ok _ => mret (true, with_sync a false (last_fsync_ a))
    end
  else mret (true, a).

Definition flush_write (a : AppendOnlyFile) : prog (bool * AppendOnlyFile) :=
  match buf_ a with
  | [] => mret (true, a)
  | _ =>
      '(written, e) ← write_all (the_fd a) (buf_ a);
      if (written <? length (buf_ a))%nat then
        let a := with_errno a e in
        r ← (if (0 <? written)%nat then call (Ftruncate (the_fd a) (incr_bytes_ a)) else mret (Ok tt));
        match r with
        | Ok _ => mret (false, a)
        | Err _ =>
            let a := with_bytes a (base_bytes_ a) (older_incr_bytes_ a)
                       (u64 (incr_bytes_ a + Z.of_nat written)) (size_after_rewrite_ a) in
            mret (false, with_buf a (drop written (buf_ a)))
        end
      else
        let a := with_bytes a (base_bytes_ a) (older_incr_bytes_ a)
                   (u64 (incr_bytes_ a + Z.of_nat written)) (size_after_rewrite_ a) in
        flush_sync (with_sync (with_errno (with_buf a []) 0) true (last_fsync_ a))
  end.

Definition flush (a : AppendOnlyFile) : prog (bool * AppendOnlyFile) :=
  '(ok, a) ← flush_write a;
  if negb ok then mret (false, a)
  else if has_worker a && unsynced_ a then
    now ← call Steady_now;
    if kEverySecInterval <=? now - last_fsync_ a then
      s ← call (Try_submit (the_fd a));
      mret (true, if (s : bool) then with_sync a false now else a)
    else mret (true, a)
  else mret (true, a).

Definition flush_and_sync (a : AppendOnlyFile) : prog (bool * AppendOnlyFile) :=
  '(ok, a) ← flush a;
  if negb ok then mret (false, a)
  else
    _ ← (if has_worker a then call Wait_idle else mret tt);
    r ← call (Fsync (the_fd a));
    match r with
    | Err e => mret (false, with_errno a e)
    | Ok _ => mret (true, with_sync a false (last_fsync_ a))
    end.

Definition healthy (a : AppendOnlyFile) : prog bool :=
  if negb (write_errno_ a =? 0) then mret false
  else if has_worker a then e ← call Worker_errno; mret (e =? 0) else mret true.

Definition last_error (a : AppendOnlyFile) : prog bytes :=
  err ← (if negb (write_errno_ a =? 0) then mret (write_errno_ a)
         else if has_worker a then call Worker_errno else mret 0);
  mret (if negb (err =? 0) then strerror err else &"no error").

(** ** Rewriting *)

Definition begin_rewrite (a : AppendOnlyFile) : prog (option bytes * AppendOnlyFile) :=
  '(ok, a) ← flush_and_sync a;
  if negb ok then
    e ← last_error a;
    mret (Some (&"flushing the AOF before rewrite: " ++ e), a)
  else
    let incr := mkEntry (incr_name (next_seq_ a)) (next_seq_ a) false in
    fd ← call (Open_trunc (path a (name incr)));
    match fd with
    | Err e => mret (Some (path a (name incr) ++ &": " ++ strerror e), a)
    | Ok fd =>
        r ← persist_manifest (with_files a (base_ a) (incrs_ a ++ [incr]) (next_seq_ a));
        match r with
        | Some err =>
            _ ← call (Close fd);
            _ ← call (Unlink (path a (name incr)));
            mret (Some err, a)
        | None =>
            _ ← opt_close (fd_ a);
            let a := with_fd (with_files a (base_ a) (incrs_ a ++ [incr]) (u64 (next_seq_ a + 1))) (Some fd) in
            mret (None, with_bytes a (base_bytes_ a) (u64 (older_incr_bytes_ a + incr_bytes_ a)) 0
                          (size_after_rewrite_ a))
        end
    end.

Definition finish_rewrite (child_ok : bool) (temp_base : bytes) (a : AppendOnlyFile)
  : prog (option bytes * AppendOnlyFile) :=
  if negb child_ok then
    _ ← call (Unlink temp_base);
    mret (Some &"rewrite child failed", a)
  else
    let new_base := mkEntry (base_name (next_seq_ a)) (next_seq_ a) true in
    let new_base_path := path a (name new_base) in
    r ← call (Rename temp_base new_base_path);
    match r with
    | Err e =>
        _ ← call (Unlink temp_base);
        mret (Some (&"installing the new AOF base: " ++ strerror e), a)
    | Ok _ =>
        let a' := with_files a (Some new_base) (option_list (list.last (incrs_ a))) (next_seq_ a) in
        r ← persist_manifest a';
        match r with
        | Some err => _ ← call (Unlink new_base_path); mret (Some err, a)
        | None =>
            let a' := with_files a' (base_ a') (incrs_ a') (u64 (next_seq_ a + 1)) in
            _ ← unlink_all (match base_ a with Some b => [path a (name b)] | None => [] end);
            _ ← unlink_all ((fun f => path a (name f)) <$> removelast (incrs_ a));
            _ ← fsync_dir (dir_ a);
            size ← call (File_size new_base_path);
            let a' := with_bytes a' size 0 (incr_bytes_ a') (size_after_rewrite_ a') in
            mret (None, with_bytes a' size 0 (incr_bytes_ a') (current_size a'))
        end
    end.

End aof.

(** ** Layouts of the directory *)

(** The system syncs directories when asked to. *)
Definition dir_syncs (ch : choice) : Prop := c_dir_errno ch = None.

(** ** Reading back a manifest *)

Definition plain_byte (c : byte) : bool := negb (is_space c) && negb (bool_decide (c = "/"%byte)).
Abbreviation plain w := (Forall (fun c => plain_byte c = true) w).

Lemma plain_digits ds : Forall (fun b => is_digit b = true) ds -> plain ds.
Proof.
  intros Hd. eapply Forall_impl; [|exact Hd]. intros c Hc. unfold plain_byte, is_space, is_digit in *.
  destruct (bool_decide_reflect (c = "/"%byte)) as [->|_]; [done|]. zlia.
Qed.

Lemma to_string_digits n : 0 <= n -> to_string n = dec_nonneg n.
Proof. intros Hn. unfold to_string. by destruct (Z.ltb_spec n 0); [lia|]. Qed.

Lemma plain_to_string n : 0 <= n -> plain (to_string n).
Proof. intros Hn. rewrite to_string_digits by done. by apply plain_digits, dec_nonneg_spec. Qed.

Lemma plain_const w : forallb plain_byte w = true -> plain w.
Proof. intros Hw. apply Forall_forall. intros c Hc. by apply (proj1 (forallb_forall _ _) Hw). Qed.

Lemma plain_base_name n : 0 <= n -> plain (base_name n).
Proof.
  intros Hn. apply Forall_app. split; [by apply plain_const|]. apply Forall_app.
  split; [by apply plain_to_string|by apply plain_const].
Qed.

Lemma plain_incr_name n : 0 <= n -> plain (incr_name n).
Proof.
  intros Hn. apply Forall_app. split; [by apply plain_const|]. apply Forall_app.
  split; [by apply plain_to_string|by apply plain_const].
Qed.

Lemma plain_no_slash w : plain w -> has_slash w = false.
Proof.
  induction 1 as [|c w Hc _ IH]; [done|]. unfold has_slash in *. simpl. rewrite IH.
  unfold plain_byte in Hc. by destruct (is_space c), (bool_decide (c = "/"%byte)).
Qed.

(** What may follow a word. *)
Definition word_end (rest : bytes) : Prop := rest = [] \/ exists t, rest = x20 :: t.

Lemma scan_word_plain w rest : plain w -> word_end rest -> scan_word (w ++ rest) = (w, rest).
Proof.
  intros Hw Hr. induction Hw as [|c w Hc _ IH]; simpl.
  - by destruct Hr as [->|[t ->]].
  - unfold plain_byte in Hc. destruct (is_space c); [done|]. by rewrite IH.
Qed.

Lemma skip_plain c w : plain_byte c = true -> skip_spaces (c :: w) = c :: w.
Proof. unfold plain_byte. simpl. by destruct (is_space c). Qed.

Lemma extract_word_plain w rest :
  plain w -> w <> [] -> word_end rest -> extract_word (w ++ rest) = Some (w, rest).
Proof.
  intros Hw Hne Hr. unfold extract_word. destruct w as [|c w]; [done|].
  rewrite <-app_comm_cons, skip_plain by (by apply Forall_cons_1 in Hw as [??]).
  rewrite app_comm_cons. by rewrite scan_word_plain.
Qed.

Lemma extract_word_space s : extract_word (x20 :: s) = extract_word s.
Proof. done. Qed.

Lemma extract_u64_to_string n rest :
  0 <= n <= size_max -> word_end rest -> extract_u64 (to_string n ++ rest) = Some (n, rest).
Proof.
  intros Hn Hr. rewrite to_string_digits by lia. destruct (dec_nonneg_spec n) as (Hne & Hd & Hv); [lia|].
  pose proof (plain_digits _ Hd) as Hp. unfold extract_u64.
  assert (Hs : scan_digits (dec_nonneg n ++ rest) = (dec_nonneg n, rest)).
  { apply scan_digits_app; [done|]. intros b t ->. by destruct Hr as [?|[? [= -> ->]]]. }
  destruct (dec_nonneg n) as [|d ds] eqn:E; [done|].
  assert (Hd1 : is_digit d = true) by (by apply Forall_cons_1 in Hd as [??]).
  rewrite <-app_comm_cons, skip_plain by (by apply Forall_cons_1 in Hp as [??]).
  replace (bz d =? 45) with false by (unfold is_digit in Hd1; zlia).
  replace (bz d =? 43) with false by (unfold is_digit in Hd1; zlia).
  rewrite app_comm_cons, Hs, Hv. by replace (size_max <? n) with false by zlia.
Qed.

(** The side conditions of the lemmas on words. *)
Ltac words := first [by apply plain_const | lia | by left | right; by eexists | done].

Definition line_of (f : FileEntry) : bytes :=
  &"file " ++ name f ++ &" seq " ++ to_string (seq f) ++ &" type " ++ (if is_base f then &"b" else &"i").

Definition entry_good (f : FileEntry) : Prop :=
  plain (name f) /\ name f <> [] /\ 0 <= seq f < size_max.

Lemma parse_line_of f : entry_good f -> parse_line (line_of f) = Some f.
Proof.
  intros (Hp & Hne & Hs). unfold parse_line, line_of.
  change (&"file ") with (&"file" ++ &" "). rewrite <-app_assoc.
  rewrite (extract_word_plain (&"file")) by words. cbn [mbind option_bind].
  change (&" " ++ ?x) with (x20 :: x). rewrite extract_word_space.
  rewrite (extract_word_plain (name f)) by words. cbn [mbind option_bind].
  change (&" seq " ++ ?x) with (x20 :: &"seq" ++ x20 :: x). rewrite extract_word_space.
  rewrite (extract_word_plain (&"seq")) by words. cbn [mbind option_bind].
  change (extract_u64 (x20 :: ?x)) with (extract_u64 x).
  rewrite extract_u64_to_string by words. cbn [mbind option_bind].
  change (&" type " ++ ?x) with (x20 :: &"type" ++ x20 :: x). rewrite extract_word_space.
  rewrite (extract_word_plain (&"type")) by words. cbn [mbind option_bind].
  rewrite extract_word_space.
  rewrite <-(app_nil_r (if is_base f then _ else _)).
  rewrite (extract_word_plain (if is_base f then &"b" else &"i"))
    by (destruct (is_base f); words).
  cbn [mbind option_bind]. rewrite !beq_refl, plain_no_slash by done.
  destruct f as [nm sq []]; done.
Qed.

Lemma getlines_line l rest acc :
  Forall (fun c => c <> x0a) l -> getlines (l ++ x0a :: rest) acc = (acc ++ l) :: getlines rest [].
Proof.
  intros Hl. revert acc. induction Hl as [|c l Hc _ IH]; intros acc; simpl; [by rewrite app_nil_r|].
  destruct (bool_decide_reflect (c = x0a)); [done|]. by rewrite IH, <-app_assoc.
Qed.

Lemma plain_no_newline w : plain w -> Forall (fun c => c <> x0a) w.
Proof. intros Hw. eapply Forall_impl; [|exact Hw]. by intros c Hc ->. Qed.

Lemma line_of_no_newline f : entry_good f -> Forall (fun c => c <> x0a) (line_of f).
Proof.
  intros (Hp & _ & Hs). unfold line_of. pose proof (plain_to_string (seq f) ltac:(lia)) as Hq.
  repeat (apply Forall_app; split); try (by apply plain_no_newline);
    try (by repeat (constructor; [done|])).
  destruct (is_base f); by repeat (constructor; [done|]).
Qed.

Lemma getlines_entries es rest :
  Forall entry_good es -> getlines (concat (manifest_line <$> es) ++ rest) [] = (line_of <$> es) ++ getlines rest [].
Proof.
  induction 1 as [|e es He _ IH]; [done|]. cbn [fmap list_fmap concat].
  assert (E : manifest_line e = line_of e ++ [x0a]).
  { unfold manifest_line, line_of. by rewrite !app_assoc. }
  rewrite E, <-!app_assoc. cbn [app]. rewrite getlines_line by (by apply line_of_no_newline).
  by rewrite IH.
Qed.

(** The sequence number after those of the entries. *)
Definition next_of (n : Z) (es : list FileEntry) : Z :=
  foldl (fun n e => Z.max n (u64 (seq e + 1))) n es.

Lemma next_of_bounds es n m :
  Forall entry_good es -> n <= m -> Forall (fun e => seq e < m) es ->
  n <= next_of n es <= m /\ Forall (fun e => seq e < next_of n es) es.
Proof.
  intros Hg. revert n. induction Hg as [|e es (_ & _ & He) _ IH]; intros n Hn Hm; simpl.
  { split; [lia|done]. }
  apply Forall_cons_1 in Hm as [Hm1 Hm2].
  assert (Eu : u64 (seq e + 1) = seq e + 1) by (apply u64_small; unfold size_max in He; lia).
  destruct (IH (Z.max n (u64 (seq e + 1)))) as [B1 B2]; [lia|done|].
  split; [lia|]. constructor; [lia|done].
Qed.

Lemma manifest_lines_incrs es : forall b acc n,
  Forall entry_good es -> Forall (fun e => is_base e = false) es ->
  manifest_lines (line_of <$> es) b acc n = inr (b, acc ++ es, next_of n es).
Proof.
  induction es as [|e es IH]; intros b acc n Hg Hb; cbn [fmap list_fmap].
  { by rewrite app_nil_r. }
  apply Forall_cons_1 in Hg as [Hg1 Hg2]. apply Forall_cons_1 in Hb as [Hb1 Hb2].
  cbn [manifest_lines]. pose proof (parse_line_of e Hg1) as Hp.
  destruct (line_of e) as [|c l]; [done|]. rewrite Hp. cbv zeta. rewrite Hb1, IH by done.
  by rewrite <-app_assoc.
Qed.

(** What [persist_manifest] writes, [read_manifest] reads. *)
Lemma manifest_round_trip b es n :
  entry_good b -> is_base b = true -> Forall entry_good es -> Forall (fun e => is_base e = false) es ->
  manifest_lines (getlines (manifest_text (Some b) es) []) None [] n =
  inr (Some b, es, next_of n (b :: es)).
Proof.
  intros Hg Hb Hgs Hbs.
  assert (E : manifest_text (Some b) es = concat (manifest_line <$> (b :: es)) ++ [])
    by (by rewrite app_nil_r).
  rewrite E, getlines_entries, app_nil_r by (by constructor).
  cbn [fmap list_fmap manifest_lines]. pose proof (parse_line_of b Hg) as Hp.
  destruct (line_of b) as [|c l]; [done|]. rewrite Hp. cbv zeta. rewrite Hb, bool_decide_eq_true_2 by done.
  by rewrite manifest_lines_incrs.
Qed.
Section layout.
Context (strerror : Z -> bytes) (D : bytes).

Definition mpath : bytes := join D kManifestName.
Definition tpath : bytes := join D (kManifestName ++ &".tmp").

(** A manifest, the complete files it lists, and the file being appended to. *)
Record layout := mkLayout {
  l_text : bytes;
  l_files : list (bytes * bytes);
  l_cur : bytes;
  l_fd : ino
}.

Definition laid (I : gmap ino Inode) (L : layout) (d : dirmap) : Prop :=
  file_is I mpath (l_text L) d /\ Forall (fun pc => file_is I pc.1 pc.2 d) (l_files L) /\
  d !! l_cur L = Some (l_fd L).

(** The names it uses besides the manifest. *)
Definition names (L : layout) : list bytes := l_cur L :: (l_files L).*1.

Lemma laid_link I L d q i :
  q <> mpath -> q ∉ names L -> laid I L d -> laid I L (<[q := i]> d).
Proof.
  intros Hm Hq (H1 & H2 & H3). unfold names in Hq. apply not_elem_of_cons in Hq as [Hc Hq].
  split_and!; [by apply file_is_link| |by rewrite lookup_insert_ne].
  apply Forall_forall. intros pc Hin. rewrite Forall_forall in H2. apply file_is_link; [|by apply H2].
  intros <-. apply Hq. apply list_elem_of_In, in_map_iff. by exists pc.
Qed.

Lemma laid_unlink I L d q :
  q <> mpath -> q ∉ names L -> laid I L d -> laid I L (delete q d).
Proof.
  intros Hm Hq (H1 & H2 & H3). unfold names in Hq. apply not_elem_of_cons in Hq as [Hc Hq].
  split_and!; [by apply file_is_unlink| |by rewrite lookup_delete_ne].
  apply Forall_forall. intros pc Hin. rewrite Forall_forall in H2. apply file_is_unlink; [|by apply H2].
  intros <-. apply Hq. apply list_elem_of_In, in_map_iff. by exists pc.
Qed.

Lemma laid_agree I I' L d b :
  dir_ok b d -> (forall i, (i < b)%nat -> I' !! i = I !! i) -> laid I L d -> laid I' L d.
Proof.
  intros Hd HI (H1 & H2 & H3). split_and!; [by eapply file_is_agree| |done].
  eapply Forall_impl; [|exact H2]. intros pc. by eapply file_is_agree.
Qed.

(** Appending to the current file, or any change to an inode that the complete
    files do not use. *)
Lemma laid_inode I L d i n :
  d !! mpath <> Some i -> Forall (fun pc => d !! pc.1 <> Some i) (l_files L) ->
  laid I L d -> laid (<[i := n]> I) L d.
Proof.
  intros Hm Hf (H1 & H2 & H3). split_and!; [by apply file_is_inode| |done].
  rewrite Forall_forall in *. intros pc Hin. apply file_is_inode; [by apply Hf|by apply H2].
Qed.

(** What a stretch of calls leaves alone. *)
Record kept (touched : list bytes) (fs fs' : FS) : Prop := {
  kp_ino : (next_ino fs <= next_ino fs')%nat;
  kp_inodes : forall i, (i < next_ino fs)%nat -> inodes fs' !! i = inodes fs !! i;
  kp_dir : forall p, p ∉ touched -> dir fs' !! p = dir fs !! p;
  kp_children : children fs' = children fs
}.

Lemma kept_refl ts fs : kept ts fs fs.
Proof. by split. Qed.

Lemma kept_trans ts a b c : kept ts a b -> kept ts b c -> kept ts a c.
Proof.
  intros [A1 A2 A3 A4] [B1 B2 B3 B4]. split; [lia| | |congruence].
  - intros i Hi. rewrite B2 by lia. by apply A2.
  - intros p Hp. rewrite B3 by done. by apply A3.
Qed.

Lemma kept_link ts p n fs : p ∈ ts -> kept ts fs (link_new p n fs).
Proof.
  intros Hp. unfold link_new. split; simpl; [lia| | |done].
  - intros i Hi. by rewrite lookup_insert_ne by lia.
  - intros q Hq. rewrite dir_push. simpl. rewrite lookup_insert_ne by set_solver. done.
Qed.

Lemma kept_set_inode ts i n fs : (next_ino fs <= i)%nat -> kept ts fs (set_inode i n fs).
Proof. intros Hi. split; simpl; [lia| |done|done]. intros j Hj. by rewrite lookup_insert_ne by lia. Qed.

Lemma kept_unlink ts p fs : p ∈ ts -> kept ts fs (push (DUnlink p) fs).
Proof.
  intros Hp. split; simpl; [lia|done| |done]. intros q Hq. rewrite dir_push. simpl.
  by rewrite lookup_delete_ne by set_solver.
Qed.

Lemma kept_rename ts p q fs : p ∈ ts -> q ∈ ts -> kept ts fs (push (DRename p q) fs).
Proof.
  intros Hp Hq. split; simpl; [lia|done| |done]. intros r Hr. rewrite dir_push. simpl.
  destruct (dir fs !! p); [|done]. by rewrite lookup_insert_ne, lookup_delete_ne by set_solver.
Qed.

Lemma dir_sync fs : dir (sync_dir fs) = dir fs.
Proof. done. Qed.

Lemma kept_sync ts fs : kept ts fs (sync_dir fs).
Proof. by split. Qed.

Lemma kept_write ts i n fs0 fs :
  (next_ino fs0 <= i)%nat -> kept ts fs0 fs -> kept ts fs0 (set_inode i n fs).
Proof.
  intros Hi [A1 A2 A3 A4]. split; [done| |done|done]. intros j Hj. simpl.
  rewrite lookup_insert_ne by lia. by apply A2.
Qed.

(** The names of a layout use inodes older than [b]. *)
Definition below (b : ino) (L : layout) (d : dirmap) : Prop :=
  forall p i, p = mpath \/ p ∈ names L -> d !! p = Some i -> (i < b)%nat.

Lemma below_link b L d q i :
  q <> mpath -> q ∉ names L -> below b L d -> below b L (<[q := i]> d).
Proof.
  intros Hm Hq H p j Hp. rewrite lookup_insert_ne by (destruct Hp; congruence). by apply H.
Qed.

Lemma below_unlink b L d q : below b L d -> below b L (delete q d).
Proof. intros H p j Hp [_ Hd]%lookup_delete_Some. by eapply H. Qed.

Lemma laid_write I L d b i n :
  (b <= i)%nat -> below b L d -> laid I L d -> laid (<[i := n]> I) L d.
Proof.
  intros Hi Hb. apply laid_inode.
  - intros E. specialize (Hb _ _ (or_introl eq_refl) E). lia.
  - apply Forall_forall. intros pc Hin E.
    assert (H : pc.1 ∈ names L)
      by (unfold names; right; apply list_elem_of_In, in_map_iff; by exists pc).
    specialize (Hb _ _ (or_intror H) E). lia.
Qed.

(** *** Replacing the manifest *)

Section persist.
(** The first manifest replaces nothing. *)
Context (I : FS -> Prop) (fs0 : FS) (L0 : option layout) (L1 : layout).
Context (HT0 : forall L, L0 = Some L -> tpath ∉ names L) (HT1 : tpath ∉ names L1) (HM1 : mpath ∉ names L1).

Definition laid0 (I : gmap ino Inode) (d : dirmap) : Prop := forall L, L0 = Some L -> laid I L d.
Definition below0 (d : dirmap) : Prop := forall L, L0 = Some L -> below (next_ino fs0) L d.

Definition on_old (fs : FS) : Prop :=
  fs_ok fs /\ kept [tpath; mpath] fs0 fs /\
  crash_dirs fs (fun d => laid0 (inodes fs) d /\ below0 d).

Definition in_between (fs : FS) : Prop :=
  fs_ok fs /\ kept [tpath; mpath] fs0 fs /\
  crash_dirs fs (fun d => laid0 (inodes fs) d \/ laid (inodes fs) L1 d).

Context (HI : forall fs, in_between fs -> I fs).

Lemma tpath_mpath : tpath <> mpath.
Proof.
  unfold tpath, mpath, join. destruct (list.last D) as [c|]; [|done].
  destruct (bool_decide _); intros H; apply (f_equal length) in H; rewrite !length_app in H; simpl in H; lia.
Qed.

Lemma names_untouched p : p ∈ names L1 -> p ∉ [tpath; mpath].
Proof.
  intros Hp [->|[->|Hn]%elem_of_cons]%elem_of_cons; [by apply HT1|by apply HM1|].
  by apply elem_of_nil in Hn.
Qed.

Lemma on_old_between fs : on_old fs -> in_between fs.
Proof.
  intros (H1 & H2 & H3). split_and!; [done|done|]. eapply crash_dirs_mono; [exact H3|]. naive_solver.
Qed.

Lemma laid0_write I' d i n :
  (next_ino fs0 <= i)%nat -> below0 d -> laid0 I' d -> laid0 (<[i := n]> I') d.
Proof. intros Hi Hb H L E. eapply laid_write; [exact Hi|by apply Hb|by apply H]. Qed.

Lemma on_old_link fs n : on_old fs -> on_old (link_new tpath n fs).
Proof.
  intros (H1 & H2 & H3). split_and!; [by apply fs_ok_link_new| |].
  - eapply kept_trans; [exact H2|]. apply kept_link. by left.
  - pose proof tpath_mpath as Hne. unfold link_new.
    apply crash_dirs_push; simpl.
    + intros k. simpl. destruct (H3 k) as [A B]. split; [|done]. apply laid0_write; [apply H2|done|done].
    + destruct (crash_dirs_now _ _ H3) as [A B]. split; intros L E.
      * apply laid_link; [done|by apply HT0|]. apply laid0_write; [apply H2|done|done|done].
      * apply below_link; [done|by apply HT0|by apply B].
Qed.

Lemma on_old_write fs i n :
  (next_ino fs0 <= i < next_ino fs)%nat -> on_old fs -> on_old (set_inode i n fs).
Proof.
  intros Hi (H1 & H2 & H3). split_and!.
  - apply fs_ok_set_inode; [lia|done].
  - apply kept_write; [lia|done].
  - intros k. simpl. destruct (H3 k) as [A B]. split; [|done]. apply laid0_write; [lia|done|done].
Qed.

Lemma on_old_unlink fs : on_old fs -> on_old (push (DUnlink tpath) fs).
Proof.
  intros (H1 & H2 & H3). pose proof tpath_mpath as Hne. split_and!.
  - apply fs_ok_push; [done|]. apply dir_ok_unlink, fs_ok_dir, H1.
  - eapply kept_trans; [exact H2|]. apply kept_unlink. by left.
  - apply crash_dirs_push; [done|]. destruct (crash_dirs_now _ _ H3) as [A B].
    split; intros L E; [apply laid_unlink; [done|by apply HT0|by apply A]|by apply below_unlink, B].
Qed.

(** The new manifest, written and synced under its temporary name. *)
Definition written (text : bytes) (fs : FS) : Prop := file_is (inodes fs) tpath text (dir fs).

Lemma between_rename text fs :
  on_old fs -> written text fs -> l_text L1 = text ->
  Forall (fun pc => file_is (inodes fs0) pc.1 pc.2 (dir fs0)) (l_files L1) ->
  dir fs0 !! l_cur L1 = Some (l_fd L1) -> fs_ok fs0 ->
  let fs' := push (DRename tpath mpath) fs in
  in_between fs' /\ laid (inodes fs') L1 (dir fs').
Proof.
  intros (H1 & H2 & H3) (i & Hd & Hi) Ht Hf Hc Hok0. pose proof tpath_mpath as Hne. cbv zeta.
  assert (HL : laid (inodes fs) L1 (apply_dirop (dir fs) (DRename tpath mpath))).
  { split_and!.
    - exists i. simpl. rewrite Hd, Ht. split; [by rewrite lookup_insert_eq|done].
    - rewrite Forall_forall in *. intros pc Hin.
      assert (Hp : pc.1 ∈ names L1)
        by (unfold names; right; apply list_elem_of_In, in_map_iff; by exists pc).
      apply file_is_rename; [intros E; by rewrite E in Hp..|].
      destruct (Hf pc Hin) as (j & Hj & HIj). exists j.
      rewrite (kp_dir _ _ _ H2) by (by apply names_untouched). split; [done|].
      rewrite (kp_inodes _ _ _ H2); [done|]. eapply (fs_ok_dir _ Hok0), Hj.
    - assert (Hp : l_cur L1 ∈ names L1) by (unfold names; by left).
      simpl. rewrite Hd, lookup_insert_ne, lookup_delete_ne by (intros E; by rewrite E in *).
      rewrite (kp_dir _ _ _ H2); [done|]. by apply names_untouched. }
  split.
  - split_and!.
    + apply fs_ok_push; [done|]. apply dir_ok_rename, fs_ok_dir, H1.
    + eapply kept_trans; [exact H2|]. apply kept_rename; [by left|by right; left].
    + apply crash_dirs_push; [eapply crash_dirs_mono; [exact H3|naive_solver]|]. by right.
  - rewrite dir_push. exact HL.
Qed.

Lemma I_on_old fs : on_old fs -> I fs.
Proof. intros H. by apply HI, on_old_between. Qed.

Lemma write_temp_wp fs fd text :
  on_old fs -> dir fs !! tpath = Some fd -> inodes fs !! fd = Some (mkInode [] 0) ->
  (next_ino fs0 <= fd < next_ino fs)%nat ->
  wp dir_syncs I
    ('(n, e) ← write_all fd text;
     r ← (if (n =? length text)%nat then s ← call (Fsync fd); mret (as_errno s) else mret (Some e));
     _ ← call (Close fd);
     mret r)
    (fun r fs' => on_old fs' /\ (r = None -> written text fs')) fs.
Proof.
  intros Hold Hd Hi Hb. apply wp_write_all. intros k e Hk. cbv zeta.
  assert (Hn : inode_of fs fd = mkInode [] 0) by (unfold inode_of; by rewrite Hi). rewrite Hn.
  cbn [content synced app]. set (fs1 := set_inode fd _ fs).
  assert (H1 : on_old fs1) by (by apply on_old_write). split; [by apply I_on_old|].
  apply wp_bind. destruct (Nat.eqb_spec k (length text)) as [->|_].
  - apply wp_fsync; [by apply I_on_old| |].
    { intros e'. apply wp_ret, wp_close; [by apply I_on_old|]. intros r. by apply wp_ret. }
    cbv zeta. assert (Hn1 : inode_of fs1 fd = mkInode (take (length text) text) 0)
      by (unfold inode_of, fs1; simpl; by rewrite lookup_insert_eq).
    rewrite Hn1. cbn [content]. rewrite firstn_all. set (fs2 := set_inode fd _ fs1).
    assert (H2 : on_old fs2) by (by apply on_old_write). split; [by apply I_on_old|].
    apply wp_ret, wp_close; [by apply I_on_old|]. intros r. apply wp_ret. split; [done|]. intros _.
    exists fd. split; [done|]. simpl. by rewrite lookup_insert_eq.
  - apply wp_ret, wp_close; [by apply I_on_old|]. intros r. by apply wp_ret.
Qed.

Context (Hok0 : fs_ok fs0) (HL0 : crash_dirs fs0 (laid0 (inodes fs0))).
Context (Hf1 : Forall (fun pc => file_is (inodes fs0) pc.1 pc.2 (dir fs0)) (l_files L1)).
Context (Hc1 : dir fs0 !! l_cur L1 = Some (l_fd L1)).

Lemma on_old_start : on_old fs0.
Proof.
  split_and!; [done|apply kept_refl|]. intros k. split; [apply HL0|].
  intros L _ p i _ Hp. destruct Hok0 as [H _]. by eapply (H k).
Qed.

(** The manifest is replaced, or the old one stays; in between a crash finds
    one of the two. *)
Lemma persist_manifest_wp a :
  dir_ a = D -> l_text L1 = manifest_text (base_ a) (incrs_ a) ->
  wp dir_syncs I (persist_manifest strerror a)
    (fun r fs =>
       fs_ok fs /\ kept [tpath; mpath] fs0 fs /\
       match r with
       | None => crash_dirs fs (laid (inodes fs) L1)
       | Some _ => crash_dirs fs (laid0 (inodes fs))
       end) fs0.
Proof.
  intros Ha Ht. unfold persist_manifest, path. rewrite Ha. fold tpath mpath.
  pose proof on_old_start as H0.
  assert (Hfail : forall fs e, on_old fs ->
    wp dir_syncs I (_ ← call (Unlink tpath);
                    mret (Some (&"writing the AOF manifest: " ++ strerror e)))
      (fun r fs => fs_ok fs /\ kept [tpath; mpath] fs0 fs /\
         match r with
         | None => crash_dirs fs (laid (inodes fs) L1)
         | Some _ => crash_dirs fs (laid0 (inodes fs))
         end) fs).
  { intros fs e Ho. pose proof (on_old_unlink _ Ho) as Hu.
    assert (Hq : forall fs, on_old fs -> fs_ok fs /\ kept [tpath; mpath] fs0 fs /\
      crash_dirs fs (laid0 (inodes fs))).
    { intros fs' (A & B & C). split_and!; [done|done|]. eapply crash_dirs_mono; [exact C|naive_solver]. }
    apply wp_unlink; [by apply I_on_old|by apply I_on_old|by apply Hq|by apply Hq]. }
  apply wp_open_trunc; [by apply I_on_old|intros e; by apply Hfail| |].
  { by apply I_on_old, on_old_link. }
  pose proof (on_old_link _ (mkInode [] 0) H0) as H1. set (fs1 := link_new _ _ fs0) in *.
  apply wp_bind. eapply wp_mono; [apply write_temp_wp; [done|..]|].
  - unfold fs1, link_new. rewrite dir_push. simpl. by rewrite lookup_insert_eq.
  - unfold fs1, link_new. simpl. by rewrite lookup_insert_eq.
  - unfold fs1. simpl. lia.
  - intros [e|] fs2 [H2 Hw]; [by apply Hfail|]. specialize (Hw eq_refl).
    apply wp_bind. unfold durable_rename. apply wp_rename; [by apply I_on_old|intros e; by apply Hfail|].
    intros i Hi.
    destruct (between_rename (manifest_text (base_ a) (incrs_ a)) fs2 H2 Hw Ht Hf1 Hc1 Hok0) as [Hb HL].
    split; [by apply HI|]. set (fs3 := push _ fs2) in *. destruct Hb as (B1 & B2 & B3).
    assert (B1' := fs_ok_sync _ B1).
    assert (Hsync : in_between (sync_dir fs3)).
    { split_and!; [done| |]; [eapply kept_trans; [exact B2|apply kept_sync]|].
      apply crash_dirs_sync. right. exact HL. }
    intros ch Hch. simpl. unfold guarded. rewrite Hch. simpl. split; [by apply HI|].
    split_and!; [done|apply Hsync|]. apply crash_dirs_sync. exact HL.
Qed.

End persist.


(** *** Layouts that stay *)

Definition steady (L : layout) (fs : FS) : Prop :=
  fs_ok fs /\ crash_dirs fs (laid (inodes fs) L).

Definition foreign (p : bytes) (L : layout) : Prop := p <> mpath /\ p ∉ names L.

Lemma steady_link L fs p n : foreign p L -> steady L fs -> steady L (link_new p n fs).
Proof.
  intros [Hm Hp] [H1 H2]. split; [by apply fs_ok_link_new|]. unfold link_new.
  assert (Hag : forall d, dir_ok (next_ino fs) d -> laid (inodes fs) L d ->
    laid (<[next_ino fs := n]> (inodes fs)) L d).
  { intros d Hd. eapply laid_agree; [exact Hd|]. intros i Hi. by rewrite lookup_insert_ne by lia. }
  apply crash_dirs_push; simpl.
  - intros k. apply Hag; [apply H1|apply H2].
  - apply laid_link; [done|done|].
    apply Hag; [exact (fs_ok_dir fs H1)|exact (crash_dirs_now fs _ H2)].
Qed.

Lemma steady_unlink L fs p : foreign p L -> steady L fs -> steady L (push (DUnlink p) fs).
Proof.
  intros [Hm Hp] [H1 H2]. split; [apply fs_ok_push; [done|by apply dir_ok_unlink, fs_ok_dir]|].
  apply crash_dirs_push; [done|]. apply laid_unlink; [done|done|]. by apply crash_dirs_now in H2.
Qed.

Lemma steady_rename L fs p q :
  foreign p L -> foreign q L -> steady L fs -> steady L (push (DRename p q) fs).
Proof.
  intros [Hm Hp] [Hqm Hq] [H1 H2].
  split; [apply fs_ok_push; [done|by apply dir_ok_rename, fs_ok_dir]|].
  apply crash_dirs_push; [done|]. apply crash_dirs_now in H2. simpl.
  destruct (dir fs !! p); [|done]. apply laid_link; [done|done|]. by apply laid_unlink.
Qed.

Lemma steady_sync L fs : steady L fs -> steady L (sync_dir fs).
Proof.
  intros [H1 H2]. split; [by apply fs_ok_sync|]. apply crash_dirs_sync. by apply crash_dirs_now in H2.
Qed.

(** Appending to the current file leaves the complete ones alone. *)
Lemma steady_append L fs n :
  l_cur L <> mpath -> l_cur L ∉ (l_files L).*1 -> steady L fs -> steady L (set_inode (l_fd L) n fs).
Proof.
  intros Hm Hf [H1 H2]. split.
  - apply fs_ok_set_inode; [|done]. apply crash_dirs_now in H2 as (_ & _ & Hc).
    by eapply (fs_ok_dir _ H1).
  - intros k. simpl. pose proof (H2 k) as Hl. pose proof (proj1 H1 k) as [_ Hinj].
    pose proof Hl as (_ & _ & Hc). simpl in *. apply laid_inode; [| |done].
    + intros E. apply Hm. by eapply Hinj.
    + apply Forall_forall. intros pc Hin E. apply Hf.
      rewrite (Hinj _ _ _ Hc E). apply list_elem_of_In, in_map_iff. by exists pc.
Qed.

Lemma steady_children L fs ch :
  steady L fs -> steady L (mkFS (durable fs) (pending fs) (inodes fs) (next_ino fs) ch).
Proof. by intros [H1 H2]. Qed.

(** ** Names *)

Lemma join_inj x y : join D x = join D y -> x = y.
Proof.
  unfold join. destruct (list.last D); [|done]. destruct (bool_decide _); intros H.
  - by apply app_inv_head in H.
  - apply app_inv_head in H. by apply (app_inv_head (&"/")) in H.
Qed.

Lemma to_string_inj a b :
  0 <= a <= size_max -> 0 <= b <= size_max -> to_string a = to_string b -> a = b.
Proof.
  intros Ha Hb E. pose proof (from_chars_to_string false 0 size_max a Ha ltac:(lia)) as H1.
  pose proof (from_chars_to_string false 0 size_max b Hb ltac:(lia)) as H2. congruence.
Qed.

(** Two names that end in different words of the same length. *)
Lemma suffix_neq (x y s t : bytes) : length s = length t -> s <> t -> x ++ s <> y ++ t.
Proof. intros Hl Hne E. apply app_inj_2 in E as [_ E]; [done|done]. Qed.

Lemma base_incr_neq s t : base_name s <> incr_name t.
Proof.
  unfold base_name, incr_name.
  change (&".base.snap") with (&".base." ++ &"snap"). change (&".incr.aof") with (&".incr" ++ &".aof").
  rewrite !app_assoc. by apply suffix_neq.
Qed.

Lemma base_name_inj s t :
  0 <= s <= size_max -> 0 <= t <= size_max -> base_name s = base_name t -> s = t.
Proof.
  intros Hs Ht E. unfold base_name in E. apply app_inv_head in E. apply app_inv_tail in E.
  by apply to_string_inj.
Qed.

Lemma incr_name_inj s t :
  0 <= s <= size_max -> 0 <= t <= size_max -> incr_name s = incr_name t -> s = t.
Proof.
  intros Hs Ht E. unfold incr_name in E. apply app_inv_head in E. apply app_inv_tail in E.
  by apply to_string_inj.
Qed.

(** The files of the program, other than the manifest. *)
Definition reserved (x : bytes) : Prop :=
  x = kManifestName \/ x = kManifestName ++ &".tmp" \/
  exists pid, x = &"temp-rewrite-" ++ to_string pid ++ &".snap".

Lemma base_not_reserved s : ~ reserved (base_name s).
Proof.
  intros [E|[E|[pid E]]].
  - revert E. change kManifestName with (&"appendonly.aof.mani" ++ &"fest").
    unfold base_name. change (&".base.snap") with (&".base." ++ &"snap"). rewrite !app_assoc.
    by apply suffix_neq.
  - revert E. unfold base_name. change (&".base.snap") with (&".base." ++ &"snap"). rewrite !app_assoc.
    by apply suffix_neq.
  - done.
Qed.

Lemma incr_not_reserved s : ~ reserved (incr_name s).
Proof.
  intros [E|[E|[pid E]]].
  - revert E. change kManifestName with (&"appendonly.aof.mani" ++ &"fest").
    unfold incr_name. change (&".incr.aof") with (&".incr" ++ &".aof"). rewrite !app_assoc.
    by apply suffix_neq.
  - revert E. unfold incr_name. change (&".incr.aof") with (&".incr" ++ &".aof"). rewrite !app_assoc.
    by apply suffix_neq.
  - done.
Qed.


(** ** The file and the history *)

(** Lengths of concatenations. *)
Ltac zlens := unfold zlen in *; rewrite ?length_app, ?length_take in *; lia.

Definition enc (cmds : list Args) : bytes := concat (Reply.command [] <$> cmds).

Lemma enc_app a b : enc (a ++ b) = enc a ++ enc b.
Proof. unfold enc. by rewrite fmap_app, concat_app. Qed.

Lemma enc_single argv : enc [argv] = Reply.command [] argv.
Proof. unfold enc. simpl. by rewrite app_nil_r. Qed.

Lemma command_onto out argv : Reply.command out argv = out ++ Reply.command [] argv.
Proof. by rewrite !Parser.command_app. Qed.


(** *** Reading a log back *)

Abbreviation sized argv := (Parser.fits argv /\ Forall Parser.fits argv).

Lemma command_size argv :
  (length argv <= length (Reply.command [] argv))%nat /\
  Forall (fun a => (length a <= length (Reply.command [] argv))%nat) argv /\
  (0 < length (Reply.command [] argv))%nat.
Proof.
  rewrite Parser.command_app. cbn [app]. rewrite !length_app.
  assert (Hb : (length argv <= length (concat (Reply.bulk_string [] <$> argv)))%nat /\
    Forall (fun a => (length a <= length (concat (Reply.bulk_string [] <$> argv)))%nat) argv).
  { induction argv as [|a argv [IH1 IH2]]; [by split; [|constructor]|].
    assert (Hl : (S (length a) <= length (Reply.bulk_string [] a))%nat)
      by (unfold Reply.bulk_string; rewrite !length_app; simpl; lia).
    cbn [fmap list_fmap concat]. rewrite length_app. split; [simpl; lia|]. constructor; [lia|].
    eapply Forall_impl; [|exact IH2]. simpl. intros x Hx. lia. }
  destruct Hb as [B1 B2]. split_and!; [simpl; lia| |simpl; lia].
  eapply Forall_impl; [|exact B2]. simpl. intros x Hx. lia.
Qed.

Lemma enc_sized cmds : zlen (enc cmds) < 2 ^ 64 -> Forall (fun argv => sized argv) cmds.
Proof.
  induction cmds as [|argv cmds IH]; intros Hf; [done|].
  change (argv :: cmds) with ([argv] ++ cmds) in Hf. rewrite enc_app, enc_single in Hf.
  constructor; [|apply IH; zlens]. destruct (command_size argv) as (S1 & S2 & _).
  unfold Parser.fits, size_max. split; [zlens|]. eapply Forall_impl; [|exact S2]. simpl. intros a Ha. zlens.
Qed.

(** A prefix of a log is complete commands and the beginning of the next. *)
Lemma torn_prefix cmds : forall c,
  Forall (fun argv => sized argv) cmds -> c `prefix_of` enc cmds ->
  exists m t, (m <= length cmds)%nat /\ c = enc (take m cmds) ++ t /\ Parser.outcome_of t = Parser.OIncomplete /\
    (forall k, (length (enc (take k cmds)) <= length c)%nat -> (k <= length cmds)%nat -> (k <= m)%nat).
Proof.
  induction cmds as [|argv cmds IH]; intros c Hs Hc.
  { apply prefix_nil_inv in Hc as ->. exists 0%nat, []. split_and!; [done|done|done|]. intros k _ Hk. exact Hk. }
  apply Forall_cons_1 in Hs as [[Hs1 Hs1'] Hs]. change (argv :: cmds) with ([argv] ++ cmds) in Hc.
  rewrite enc_app, enc_single in Hc.
  destruct (decide (length (Reply.command [] argv) <= length c)%nat) as [Hl|Hl].
  - destruct Hc as [r Hc].
    assert (Ec : c = Reply.command [] argv ++ drop (length (Reply.command [] argv)) c).
    { rewrite <-(take_drop (length (Reply.command [] argv)) c) at 1. f_equal.
      apply (f_equal (take (length (Reply.command [] argv)))) in Hc.
      rewrite take_app_length, take_app_le in Hc by done. done. }
    destruct (IH (drop (length (Reply.command [] argv)) c)) as (m & t & M1 & M2 & M3 & M4); [done| |].
    { exists r. rewrite Ec, <-app_assoc in Hc. by apply app_inv_head in Hc. }
    exists (S m), t. split_and!; [simpl; lia| |done|].
    + rewrite Ec, M2, app_assoc. cbn [take]. change (argv :: take m cmds) with ([argv] ++ take m cmds).
      by rewrite enc_app, enc_single.
    + intros [|k] Hk Hk'; [lia|]. cbn [take] in Hk. change (argv :: take k cmds) with ([argv] ++ take k cmds) in Hk.
      rewrite enc_app, enc_single, length_app in Hk. simpl in Hk'.
      apply le_n_S, M4; [rewrite length_drop; lia|lia].
  - exists 0%nat, c. destruct (prefix_weak_total c (Reply.command [] argv) _ Hc ltac:(by apply prefix_app_r)) as [Hp|Hp];
      [|apply prefix_length in Hp; lia].
    destruct Hp as [r Hp]. split_and!; [lia|done| |].
    + assert (c = take (length c) (Reply.command [] argv)) as -> by (by rewrite Hp, take_app_length).
      apply Parser.outcome_of_torn; [done|done|lia].
    + intros [|k] Hk Hk'; [lia|]. exfalso. cbn [take] in Hk.
      change (argv :: take k cmds) with ([argv] ++ take k cmds) in Hk.
      rewrite enc_app, enc_single, length_app in Hk. lia.
Qed.

Lemma read_file_spec fuel rs text :
  Forall (fun x => x <> Snapshot.RError) rs -> (length rs + length text < fuel)%nat ->
  (read_file fuel rs text).2 = false /\ concat (read_file fuel rs text).1 = text.
Proof.
  revert rs text. induction fuel as [|fuel IH]; intros rs text Hrs Hf; [lia|]. simpl.
  assert (Hnext : forall n rs', (0 < n)%nat -> Forall (fun x => x <> Snapshot.RError) rs' ->
    (length rs' <= length rs)%nat ->
    let p := match text with
             | [] => ([], false)
             | _ => let '(chunks, err) := read_file fuel rs' (drop n text) in (take n text :: chunks, err)
             end in p.2 = false /\ concat p.1 = text).
  { intros n rs' Hn Hrs' Hl. destruct text as [|b text]; [done|].
    destruct (IH rs' (drop n (b :: text))) as [I1 I2]; [done|rewrite length_drop; simpl in *; lia|].
    destruct (read_file fuel rs' _) as [chunks err]. cbn [fst snd] in I1, I2. subst err. cbv zeta.
    cbn [fst snd concat]. split; [done|]. by rewrite I2, take_drop. }
  destruct rs as [|[n| |] rs].
  - apply (Hnext kLoadChunkSize []); [unfold kLoadChunkSize; lia|done|done].
  - apply Forall_cons_1 in Hrs as [_ Hrs]. apply (Hnext _ rs); [lia|done|simpl; lia].
  - apply Forall_cons_1 in Hrs as [_ Hrs]. apply IH; [done|simpl in Hf; lia].
  - by apply Forall_cons_1 in Hrs as [? _].
Qed.

(** What replaying a file hands over: its complete commands. *)
Lemma replay_text rs cmds t :
  Forall (fun x => x <> Snapshot.RError) rs -> Forall (fun argv => sized argv) cmds ->
  Parser.outcome_of t = Parser.OIncomplete ->
  exists chunks, read_chunks_of rs (enc cmds ++ t) = (chunks, false) /\ concat chunks = enc cmds ++ t /\
    Parser.read_chunks {| Parser.buffer_ := [] |} chunks = (cmds, false, {| Parser.buffer_ := t |}).
Proof.
  intros Hrs Hs Ht. unfold read_chunks_of.
  destruct (read_file_spec (S (length rs + length (enc cmds ++ t))) rs (enc cmds ++ t)) as [R1 R2]; [done|lia|].
  destruct (read_file _ rs _) as [chunks err]. simpl in R1, R2. subst err. exists chunks.
  split_and!; [done|done|].
  pose proof (Parser.read_chunks_drain chunks {| Parser.buffer_ := [] |} eq_refl) as Hd.
  unfold Parser.feed in Hd. cbn [Parser.buffer_ app] in Hd. rewrite R2 in Hd.
  pose proof (Parser.drain_commands cmds t Hs Ht) as Hdr. unfold enc in Hd. rewrite Hdr in Hd.
  destruct (Parser.read_chunks _ chunks) as [[cs e] q]. destruct Hd as (-> & -> & [Hx| ->]); done.
Qed.
(** The entries of a manifest this program wrote. *)
Record named (b : FileEntry) (incrs : list FileEntry) (next : Z) : Prop := {
  nm_base : is_base b = true /\ name b = base_name (seq b) /\ 0 <= seq b < next;
  nm_incrs : Forall (fun e => is_base e = false /\ name e = incr_name (seq e) /\ 0 <= seq e < next) incrs;
  nm_nodup : NoDup (seq <$> incrs);
  nm_next : next <= size_max
}.

Definition epath (e : FileEntry) : bytes := join D (name e).

Section history.
(** [snap_at cmds] is a snapshot of the dataset after the commands [cmds]. *)
Context (snap_at : list Args -> bytes).

(** How a directory describes a history: the base covers the commands
    [g_base], the complete incrs the next [g_segs], and the current file starts
    where they end. *)
Record ghost := mkGhost {
  g_b : FileEntry;
  g_olds : list FileEntry;
  g_cur : FileEntry;
  g_fd : ino;
  g_base : list Args;
  g_segs : list (list Args)
}.

Definition lay (g : ghost) : layout :=
  mkLayout (manifest_text (Some (g_b g)) (g_olds g ++ [g_cur g]))
    ((epath (g_b g), snap_at (g_base g)) :: zip (epath <$> g_olds g) (enc <$> g_segs g))
    (epath (g_cur g)) (g_fd g).

(** What comes before the current file, and where that one starts. *)
Definition before (g : ghost) : list Args := g_base g ++ concat (g_segs g).
Definition start (g : ghost) : nat := length (before g).

Definition covers (g : ghost) (hist tail : list Args) : Prop :=
  length (g_segs g) = length (g_olds g) /\ hist = before g ++ tail.

(** The first [dur] commands are on the disk. *)
Definition durable_by (g : ghost) (tail : list Args) (dur s : nat) : Prop :=
  exists k, (k <= length tail)%nat /\ (dur <= start g + k)%nat /\ (length (enc (take k tail)) <= s)%nat.

(** The files hold the history up to some point of [tail]. *)
Record holds (g : ghost) (next : Z) (hist tail : list Args) (dur : nat) (c : bytes) (s : nat) (fs : FS)
  : Prop := {
  h_named : named (g_b g) (g_olds g ++ [g_cur g]) next;
  h_covers : covers g hist tail;
  h_steady : steady (lay g) fs;
  h_inode : inodes fs !! g_fd g = Some (mkInode c s);
  h_prefix : c `prefix_of` enc tail;
  h_synced : (s <= length c)%nat;
  h_durable : durable_by g tail dur s
}.

(** What a crash may find, for the whole history [H]. *)
Definition describes (H : list Args) (dur : nat) (I : gmap ino Inode) (d : dirmap) : Prop :=
  exists g next tail c s,
    named (g_b g) (g_olds g ++ [g_cur g]) next /\ covers g H tail /\ laid I (lay g) d /\
    I !! g_fd g = Some (mkInode c s) /\ c `prefix_of` enc tail /\ (s <= length c)%nat /\
    durable_by g tail dur s.

Definition crash_safe (H : list Args) (dur : nat) (fs : FS) : Prop :=
  fs_ok fs /\ crash_dirs fs (describes H dur (inodes fs)).

Lemma covers_more g hist tail more : covers g hist tail -> covers g (hist ++ more) (tail ++ more).
Proof. intros [C1 ->]. split; [done|]. by rewrite app_assoc. Qed.

Lemma durable_by_more g tail more dur s :
  durable_by g tail dur s -> durable_by g (tail ++ more) dur s.
Proof.
  intros (k & H1 & H2 & H3). exists k. rewrite length_app, take_app_le by done. split_and!; [lia|done|done].
Qed.

Lemma durable_by_le g tail dur dur' s s' :
  (dur' <= dur)%nat -> (s <= s')%nat -> durable_by g tail dur s -> durable_by g tail dur' s'.
Proof. intros Hd Hs (k & H1 & H2 & H3). exists k. split_and!; [done|lia|lia]. Qed.

Lemma covers_length g hist tail : covers g hist tail -> length hist = (start g + length tail)%nat.
Proof. intros [_ ->]. by rewrite length_app. Qed.

(** Everything written and synced is durable. *)
Lemma durable_by_all g hist tail : covers g hist tail -> durable_by g tail (length hist) (length (enc tail)).
Proof.
  intros C. exists (length tail). rewrite (covers_length _ _ _ C), firstn_all. split_and!; [done|lia|lia].
Qed.

Lemma describes_intro g next hist tail dur c s I d H :
  named (g_b g) (g_olds g ++ [g_cur g]) next -> covers g hist tail -> laid I (lay g) d ->
  I !! g_fd g = Some (mkInode c s) -> c `prefix_of` enc tail -> (s <= length c)%nat ->
  durable_by g tail dur s -> hist `prefix_of` H -> describes H dur I d.
Proof.
  intros Hn Hc Hl Hi Hp Hs Hd [more ->]. exists g, next, (tail ++ more), c, s.
  split_and!; [done|by apply covers_more|done|done| |done|by apply durable_by_more].
  rewrite enc_app. by apply prefix_app_r.
Qed.

Lemma holds_safe g next hist tail dur c s fs H :
  holds g next hist tail dur c s fs -> hist `prefix_of` H -> crash_safe H dur fs.
Proof.
  intros [h1 h2 [h3 h3'] h4 h5 h6 h7] HH. split; [done|]. intros k. by eapply describes_intro; [..|exact HH].
Qed.

(** *** Names of a layout *)

Lemma zip_fst {A B} (xs : list A) (ys : list B) : length xs = length ys -> (zip xs ys).*1 = xs.
Proof.
  revert ys. induction xs as [|x xs IH]; intros [|y ys] H; simplify_eq/=; [done|]. f_equal. by apply IH.
Qed.

Lemma lay_files g :
  length (g_segs g) = length (g_olds g) -> (l_files (lay g)).*1 = epath (g_b g) :: (epath <$> g_olds g).
Proof. intros H. simpl. f_equal. apply zip_fst. by rewrite !length_fmap. Qed.

Lemma epath_inj_name e x : epath e = join D x -> name e = x.
Proof. apply join_inj. Qed.

(** A name that is none of the entries'. *)
Lemma not_named g x :
  length (g_segs g) = length (g_olds g) ->
  x <> name (g_b g) -> Forall (fun e => x <> name e) (g_olds g ++ [g_cur g]) ->
  join D x ∉ names (lay g).
Proof.
  intros Hl Hb Hi. unfold names. rewrite lay_files by done. apply Forall_app in Hi as [Hi1 Hi2].
  apply Forall_cons_1 in Hi2 as [Hi2 _].
  intros [E|[E|E]%elem_of_cons]%elem_of_cons.
  - symmetry in E. by apply epath_inj_name in E.
  - symmetry in E. by apply epath_inj_name in E.
  - apply list_elem_of_fmap in E as (e & E & Hin). symmetry in E. apply epath_inj_name in E.
    rewrite Forall_forall in Hi1. apply list_elem_of_In in Hin. by apply (Hi1 e Hin).
Qed.

Section named.
Context (g : ghost) (next : Z) (Hn : named (g_b g) (g_olds g ++ [g_cur g]) next).
Context (Hl : length (g_segs g) = length (g_olds g)).

Lemma reserved_not_named x : reserved x -> join D x ∉ names (lay g).
Proof.
  intros Hx. destruct Hn as [(_ & N1 & _) N2 _ _]. apply not_named; [done| |].
  - rewrite N1. intros ->. by apply (base_not_reserved _ Hx).
  - eapply Forall_impl; [|exact N2]. intros e (_ & E & _) ->. rewrite E in Hx.
    by apply (incr_not_reserved _ Hx).
Qed.

Lemma reserved_foreign x : reserved x -> x <> kManifestName -> foreign (join D x) (lay g).
Proof. intros Hx Hm. split; [intros E; by apply join_inj in E|by apply reserved_not_named]. Qed.

Lemma next_incr_foreign : foreign (join D (incr_name next)) (lay g).
Proof.
  split; [intros E; apply join_inj in E; apply (incr_not_reserved next); by left|].
  destruct Hn as [(_ & N1 & _) N2 _ N4]. apply not_named; [done| |].
  - rewrite N1. intros E. symmetry in E. by apply base_incr_neq in E.
  - eapply Forall_impl; [|exact N2]. intros e (_ & E & Hs). rewrite E. intros E'.
    apply incr_name_inj in E'; lia.
Qed.

Lemma next_base_foreign : foreign (join D (base_name next)) (lay g).
Proof.
  split; [intros E; apply join_inj in E; apply (base_not_reserved next); by left|].
  destruct Hn as [(_ & N1 & N1') N2 _ N4]. apply not_named; [done| |].
  - rewrite N1. intros E. apply base_name_inj in E; lia.
  - eapply Forall_impl; [|exact N2]. intros e (_ & E & Hs). rewrite E. apply base_incr_neq.
Qed.

Lemma cur_named : is_base (g_cur g) = false /\ name (g_cur g) = incr_name (seq (g_cur g)) /\ 0 <= seq (g_cur g) < next.
Proof. destruct Hn as [_ N2 _ _]. by apply Forall_app in N2 as [_ [N2 _]%Forall_cons_1]. Qed.

Lemma cur_not_manifest : l_cur (lay g) <> mpath.
Proof.
  intros E. apply epath_inj_name in E. destruct cur_named as (_ & E' & _). rewrite E' in E.
  apply (incr_not_reserved (seq (g_cur g))). by left.
Qed.

Lemma cur_not_file : l_cur (lay g) ∉ (l_files (lay g)).*1.
Proof.
  rewrite lay_files by done. destruct cur_named as (_ & Ec & Hc). destruct Hn as [(_ & N1 & _) N2 N3 N4].
  intros [E|E]%elem_of_cons.
  - apply epath_inj_name in E. rewrite Ec, N1 in E. symmetry in E. by apply base_incr_neq in E.
  - apply list_elem_of_fmap in E as (e & E & Hin). apply epath_inj_name in E.
    apply Forall_app in N2 as [N2 _]. rewrite Forall_forall in N2.
    destruct (N2 e (proj1 (list_elem_of_In _ _) Hin)) as (_ & Ee & He).
    rewrite Ec, Ee in E. apply incr_name_inj in E; [|lia|lia].
    rewrite fmap_app in N3. apply list.NoDup_app in N3 as (_ & N3 & _).
    apply (N3 (seq e)); [by apply list_elem_of_fmap_2|]. rewrite <-E. by left.
Qed.
End named.

(** *** Writing the current file *)

(** The object describes the files; what it has not written yet is the rest of
    [tail]. *)
Record agrees (g : ghost) (a : AppendOnlyFile) (c : bytes) (tail : list Args) : Prop := {
  ag_dir : dir_ a = D;
  ag_base : base_ a = Some (g_b g);
  ag_incrs : incrs_ a = g_olds g ++ [g_cur g];
  ag_fd : fd_ a = Some (g_fd g);
  ag_buf : c ++ buf_ a = enc tail;
  ag_bytes : incr_bytes_ a = zlen c
}.

Lemma holds_set g next hist tail dur c s c' s' fs :
  holds g next hist tail dur c s fs -> c' `prefix_of` enc tail -> (s <= s' <= length c')%nat ->
  holds g next hist tail dur c' s' (set_inode (g_fd g) (mkInode c' s') fs).
Proof.
  intros [h1 h2 h3 h4 h5 h6 h7] Hp Hs. split; [done|done| | |done|lia|].
  - apply (steady_append (lay g)); [by eapply cur_not_manifest| |done].
    eapply cur_not_file; [done|apply h2].
  - simpl. apply lookup_insert_eq.
  - eapply durable_by_le; [..|exact h7]; lia.
Qed.

Section ops.
(** The whole history, which fits the counters, and the part of it known to be
    on the disk. *)
Context (H : list Args) (Hfits : zlen (enc H) < 2 ^ 64).

Lemma tail_fits g hist tail : covers g hist tail -> hist `prefix_of` H -> zlen (enc tail) < 2 ^ 64.
Proof.
  intros [_ ->] [more ->]. rewrite !enc_app in Hfits. zlens.
Qed.

(** What a stretch of writing does. *)
Definition wrote (g : ghost) (hist tail : list Args) (dur : nat) (a : AppendOnlyFile) (fs : FS)
    (a' : AppendOnlyFile) (fs' : FS) (P : bytes -> nat -> Prop) : Prop :=
  exists c s, holds g (next_seq_ a) hist tail dur c s fs' /\ agrees g a' c tail /\
    next_seq_ a' = next_seq_ a /\ policy_ a' = policy_ a /\ children fs' = children fs /\ P c s.

Section flush.
Context (env : choice -> Prop) (g : ghost) (hist tail : list Args) (dur : nat) (Hpre : hist `prefix_of` H).
Abbreviation I := (crash_safe H dur).

Lemma the_fd_agrees a c : agrees g a c tail -> the_fd a = g_fd g.
Proof. intros A. unfold the_fd. by rewrite (ag_fd _ _ _ _ A). Qed.

Lemma inode_of_holds next c s fs : holds g next hist tail dur c s fs -> inode_of fs (g_fd g) = mkInode c s.
Proof. intros A. unfold inode_of. by rewrite (h_inode _ _ _ _ _ _ _ _ A). Qed.

Lemma fsync_wp next c s fs {B} (f : sysres unit -> prog B) Q :
  holds g next hist tail dur c s fs ->
  (forall e, wp env I (f (Err e)) Q fs) ->
  (forall fs', holds g next hist tail dur c (length c) fs' -> children fs' = children fs ->
     wp env I (f (Ok tt)) Q fs') ->
  wp env I (call (Fsync (g_fd g)) ≫= f) Q fs.
Proof.
  intros Hh He Hok. apply wp_fsync; [by eapply holds_safe|done|]. cbv zeta.
  rewrite (inode_of_holds _ _ _ _ Hh). cbn [content].
  assert (H1 : holds g next hist tail dur c (length c)
    (set_inode (g_fd g) (mkInode c (length c)) fs)).
  { eapply holds_set; [exact Hh|apply Hh|]. pose proof (h_synced _ _ _ _ _ _ _ _ Hh). lia. }
  split; [by eapply holds_safe|by apply Hok].
Qed.

Lemma flush_sync_wp a c s fs :
  holds g (next_seq_ a) hist tail dur c s fs -> agrees g a c tail ->
  wp env I (flush_sync a)
    (fun '(ok, a') fs' => wrote g hist tail dur a fs a' fs' (fun c' s' =>
       c' = c /\ buf_ a' = buf_ a /\ (ok = true -> policy_ a = kAlways -> s' = length c'))) fs.
Proof.
  intros Hh Ha. unfold flush_sync. destruct (bool_decide_reflect (policy_ a = kAlways)) as [Hp|Hp].
  - rewrite (the_fd_agrees _ _ Ha). eapply fsync_wp; [exact Hh| |].
    + intros e. apply wp_ret. exists c, s. destruct Ha. split_and!; [done|by split|done..].
    + intros fs' Hh' Hc. apply wp_ret. exists c, (length c). destruct Ha.
      split_and!; [done|by split|done..].
  - apply wp_ret. exists c, s. split_and!; [done|done|done..].
Qed.

Lemma flush_write_wp a c s fs :
  holds g (next_seq_ a) hist tail dur c s fs -> agrees g a c tail ->
  wp env I (flush_write a)
    (fun '(ok, a') fs' => wrote g hist tail dur a fs a' fs' (fun c' s' =>
       ok = true -> buf_ a' = [] /\ (policy_ a = kAlways -> buf_ a <> [] -> s' = length c'))) fs.
Proof.
  intros Hh Ha. unfold flush_write. destruct (buf_ a) as [|b0 buf0] eqn:Eb.
  { apply wp_ret. exists c, s. by split_and!. }
  rewrite <-Eb. clear Eb b0 buf0. pose proof Ha as [A1 A2 A3 A4 A5 A6].
  rewrite (the_fd_agrees _ _ Ha). apply wp_write_all. intros k e Hk. cbv zeta.
  rewrite (inode_of_holds _ _ _ _ Hh). cbn [content synced].
  pose proof (h_synced _ _ _ _ _ _ _ _ Hh) as Hs.
  set (fs1 := set_inode _ _ fs).
  assert (H1 : holds g (next_seq_ a) hist tail dur (c ++ take k (buf_ a)) s fs1).
  { eapply holds_set; [exact Hh| |rewrite length_app; lia]. rewrite <-A5.
    apply prefix_app, prefix_take. }
  split; [by eapply holds_safe|].
  pose proof (tail_fits _ _ _ (h_covers _ _ _ _ _ _ _ _ Hh) Hpre) as Hf. rewrite <-A5 in Hf.
  destruct (Nat.ltb_spec k (length (buf_ a))) as [Hlt|Hge].
  - assert (Hback : forall a', agrees g a' c tail -> next_seq_ a' = next_seq_ a -> policy_ a' = policy_ a ->
      forall fs', holds g (next_seq_ a) hist tail dur c s fs' -> children fs' = children fs ->
      wrote g hist tail dur a fs a' fs' (fun c' s' =>
        false = true -> buf_ a' = [] /\ (policy_ a = kAlways -> buf_ a <> [] -> s' = length c'))).
    { intros a' Ha' E1 E2 fs' Hh' Hc. exists c, s. by split_and!. }
    destruct (Nat.ltb_spec 0 k) as [Hk0|Hk0].
    + change (the_fd (with_errno a e)) with (the_fd a). rewrite (the_fd_agrees _ _ Ha).
      apply wp_ftruncate; [by eapply holds_safe| |].
      * intros e'. apply wp_ret. exists (c ++ take k (buf_ a)), s.
        split_and!; [done| |done..]. split; try done; simpl; [by rewrite <-app_assoc, take_drop|].
        rewrite A6, u64_small; zlens.
      * cbv zeta. rewrite (inode_of_holds _ _ _ _ H1). cbn [content synced with_errno incr_bytes_].
        rewrite A6. unfold zlen. rewrite Nat2Z.id, take_app_length, Nat.min_r by done.
        assert (H2 : holds g (next_seq_ a) hist tail dur c s (set_inode (g_fd g) (mkInode c s) fs1)).
        { eapply holds_set; [exact H1|apply Hh|lia]. }
        split; [by eapply holds_safe|]. apply wp_ret. apply Hback; [by split|done..].
    + assert (k = 0)%nat as -> by lia.
      apply Hback; [by split|done|done| |done]. by rewrite take_0, app_nil_r in H1.
  - assert (k = length (buf_ a)) as -> by lia. rewrite firstn_all in H1.
    eapply wp_mono; [apply (flush_sync_wp _ (c ++ buf_ a) s); [exact H1|]|].
    { split; try done; simpl; [by rewrite app_nil_r|]. rewrite A6, u64_small; zlens. }
    intros [ok a'] fs' (c' & s' & W1 & W2 & W3 & W4 & W5 & -> & W7 & W8).
    exists (c ++ buf_ a), s'. split_and!; [done..|]. intros ->. split; [done|]. intros Hp _. by apply W8.
Qed.

Lemma flush_wp a c s fs :
  holds g (next_seq_ a) hist tail dur c s fs -> agrees g a c tail ->
  wp env I (flush a)
    (fun '(ok, a') fs' => wrote g hist tail dur a fs a' fs' (fun c' s' =>
       ok = true -> buf_ a' = [] /\ (policy_ a = kAlways -> buf_ a <> [] -> s' = length c'))) fs.
Proof.
  intros Hh Ha. unfold flush. apply wp_bind. eapply wp_mono; [by eapply flush_write_wp|].
  intros [[] a1] fs1 (c1 & s1 & W1 & W2 & W3 & W4 & W5 & W6); cbn [negb]; [|apply wp_ret; by exists c1, s1].
  assert (Hsafe : I fs1) by (by eapply holds_safe).
  destruct (has_worker a1 && unsynced_ a1); [|apply wp_ret; by exists c1, s1].
  apply wp_reads; [done|done|]. intros now.
  destruct (kEverySecInterval <=? now - last_fsync_ a1); [|apply wp_ret; by exists c1, s1].
  apply wp_reads; [done|done|]. intros r. apply wp_ret. exists c1, s1.
  destruct r; [|by split_and!]. destruct W2. split_and!; [done|by split|done..].
Qed.

Lemma flush_and_sync_wp a c s fs :
  holds g (next_seq_ a) hist tail dur c s fs -> agrees g a c tail ->
  wp env I (flush_and_sync a)
    (fun '(ok, a') fs' => wrote g hist tail dur a fs a' fs' (fun c' s' =>
       ok = true -> buf_ a' = [] /\ s' = length c')) fs.
Proof.
  intros Hh Ha. unfold flush_and_sync. apply wp_bind. eapply wp_mono; [by eapply flush_wp|].
  intros [[] a1] fs1 (c1 & s1 & W1 & W2 & W3 & W4 & W5 & W6); cbn [negb].
  2: { apply wp_ret. exists c1, s1. by split_and!. }
  destruct (W6 eq_refl) as [Eb _].
  assert (Hs : wp env I
    (r ← call (Fsync (the_fd a1));
     match r with
     | Ok _ => mret (true, with_sync a1 false (last_fsync_ a1))
     | Err e => mret (false, with_errno a1 e)
     end)
    (fun '(ok, a') fs' => wrote g hist tail dur a fs a' fs' (fun c' s' =>
       ok = true -> buf_ a' = [] /\ s' = length c')) fs1).
  { rewrite (the_fd_agrees _ _ W2). destruct W2. eapply fsync_wp; [exact W1| |].
    - intros e. apply wp_ret. exists c1, s1. split_and!; [done|by split|done..].
    - intros fs' Hh' Hc. apply wp_ret. exists c1, (length c1).
      split_and!; [done|by split|done|done|by rewrite Hc|done]. }
  destruct (has_worker a1); [|exact Hs]. apply wp_reads; [by eapply holds_safe|done|]. intros []. exact Hs.
Qed.
End flush.

(** *** Replacing one description of the history by another *)

Section switch.
Context (hist : list Args) (dur : nat) (Hpre : hist `prefix_of` H).
Context (g0 g1 : ghost) (n0 n1 : Z) (t0 t1 : list Args) (c0 c1 : bytes) (s0 s1 : nat) (fs : FS).
Context (H0 : holds g0 n0 hist t0 dur c0 s0 fs).
Context (N1 : named (g_b g1) (g_olds g1 ++ [g_cur g1]) n1) (C1 : covers g1 hist t1).
Context (I1 : inodes fs !! g_fd g1 = Some (mkInode c1 s1)) (P1 : c1 `prefix_of` enc t1).
Context (S1 : (s1 <= length c1)%nat) (D1 : durable_by g1 t1 dur s1).
Context (F1 : Forall (fun pc => file_is (inodes fs) pc.1 pc.2 (dir fs)) (l_files (lay g1))).
Context (L1 : dir fs !! l_cur (lay g1) = Some (g_fd g1)).

Lemma kept_inode fs' i n ts : kept ts fs fs' -> (exists p, dir fs !! p = Some i) ->
  inodes fs !! i = Some n -> inodes fs' !! i = Some n.
Proof.
  intros K [p Hp] Hi. rewrite (kp_inodes _ _ _ K); [done|].
  pose proof (h_steady _ _ _ _ _ _ _ _ H0) as [Hok _]. by eapply (fs_ok_dir _ Hok).
Qed.

Lemma holds_named g next t c s fs' :
  holds g next hist t dur c s fs' -> exists p, dir fs' !! p = Some (g_fd g).
Proof.
  intros Hh. pose proof (h_steady _ _ _ _ _ _ _ _ Hh) as [_ Hl].
  apply crash_dirs_now in Hl as (_ & _ & Hc). by exists (l_cur (lay g)).
Qed.

Lemma between_safe fs' : in_between fs (Some (lay g0)) (lay g1) fs' -> crash_safe H dur fs'.
Proof.
  intros (Hok & K & Hl). split; [done|]. intros k. destruct H0 as [h1 h2 h3 h4 h5 h6 h7].
  destruct (Hl k) as [Hk|Hk].
  - eapply (describes_intro g0); [done|done|by apply Hk| |done..].
    eapply kept_inode; [exact K|by eapply holds_named|done].
  - eapply (describes_intro g1); [done|done|exact Hk| |done..].
    eapply kept_inode; [exact K|by exists (l_cur (lay g1))|done].
Qed.

Lemma switch_wp a :
  dir_ a = D -> base_ a = Some (g_b g1) -> incrs_ a = g_olds g1 ++ [g_cur g1] ->
  wp dir_syncs (crash_safe H dur) (persist_manifest strerror a)
    (fun r fs' => children fs' = children fs /\
       match r with
       | None => holds g1 n1 hist t1 dur c1 s1 fs'
       | Some _ => holds g0 n0 hist t0 dur c0 s0 fs'
       end) fs.
Proof.
  intros A1 A2 A3. pose proof H0 as [h1 h2 h3 h4 h5 h6 h7].
  assert (R : reserved (kManifestName ++ &".tmp")) by (right; by left).
  assert (R' : reserved kManifestName) by (by left).
  eapply wp_mono.
  - apply (persist_manifest_wp _ fs (Some (lay g0)) (lay g1));
      [| | |apply between_safe|apply h3|intros k L [= <-]; apply h3|done|done|done|].
    + intros L [= <-]. eapply (reserved_not_named g0); [done|apply h2|done].
    + eapply (reserved_not_named g1); [done|apply C1|done].
    + eapply (reserved_not_named g1); [done|apply C1|done].
    + simpl. by rewrite A2, A3.
  - intros r fs' (Hok & K & Hr). split; [apply K|]. destruct r.
    + split; [done|done|split; [done|intros k; by apply Hr]| |done..].
      eapply kept_inode; [exact K|by eapply holds_named|done].
    + split; [done|done|by split| |done..].
      eapply kept_inode; [exact K|by exists (l_cur (lay g1))|done].
Qed.
End switch.

(** *** Starting a rewrite *)

(** The current file becomes complete, and a new one follows it. *)
Definition rotate (g : ghost) (tail : list Args) (e : FileEntry) (fd : ino) : ghost :=
  mkGhost (g_b g) (g_olds g ++ [g_cur g]) e fd (g_base g) (g_segs g ++ [tail]).

Abbreviation next_incr next := (mkEntry (incr_name next) next false).

Lemma named_rotate g next tail fd :
  named (g_b g) (g_olds g ++ [g_cur g]) next -> next < size_max ->
  let g' := rotate g tail (next_incr next) fd in
  named (g_b g') (g_olds g' ++ [g_cur g']) (next + 1).
Proof.
  intros [(B1 & B2 & B3) N2 N3 N4] Hlt. cbv zeta. split; simpl.
  - split_and!; [done|done|lia|lia].
  - apply Forall_app. split; [|repeat constructor; simpl; lia].
    eapply Forall_impl; [|exact N2]. intros e (?&?&?). split_and!; [done|done|lia|lia].
  - rewrite fmap_app. apply list.NoDup_app. split_and!; [done| |apply NoDup_singleton].
    intros x Hx ->%list_elem_of_singleton. apply list_elem_of_fmap in Hx as (e & E & Hin).
    rewrite Forall_forall in N2. destruct (N2 e (proj1 (list_elem_of_In _ _) Hin)) as (_ & _ & ?).
    simpl in E. lia.
  - lia.
Qed.

Lemma before_rotate g tail e fd : before (rotate g tail e fd) = before g ++ tail.
Proof. unfold before. simpl. by rewrite concat_app, app_assoc; simpl; rewrite app_nil_r. Qed.

Lemma covers_rotate g hist tail e fd : covers g hist tail -> covers (rotate g tail e fd) hist [].
Proof.
  intros [C1 ->]. split; [simpl; by rewrite !length_app, C1|]. by rewrite before_rotate, app_nil_r.
Qed.

Lemma start_rotate g hist tail e fd : covers g hist tail -> start (rotate g tail e fd) = length hist.
Proof. intros C. rewrite (covers_length _ _ _ (covers_rotate _ _ _ e fd C)). simpl. lia. Qed.

Lemma lay_rotate g tail e fd :
  length (g_segs g) = length (g_olds g) ->
  l_files (lay (rotate g tail e fd)) = l_files (lay g) ++ [(epath (g_cur g), enc tail)].
Proof.
  intros Hl. simpl. f_equal. rewrite !fmap_app. simpl. rewrite zip_with_app by (by rewrite !length_fmap).
  done.
Qed.

Lemma holds_link g next hist tail dur c s fs p n :
  holds g next hist tail dur c s fs -> foreign p (lay g) ->
  holds g next hist tail dur c s (link_new p n fs).
Proof.
  intros Hh Hp. pose proof (holds_named _ _ _ _ _ _ _ _ Hh) as [q Hq].
  destruct Hh as [h1 h2 h3 h4 h5 h6 h7]. split; [done|done|by apply steady_link| |done..].
  simpl. rewrite lookup_insert_ne; [done|].
  intros E. pose proof (fs_ok_dir _ (proj1 h3)) as [Hb _]. specialize (Hb _ _ Hq). lia.
Qed.

Lemma holds_unlink g next hist tail dur c s fs p :
  holds g next hist tail dur c s fs -> foreign p (lay g) ->
  holds g next hist tail dur c s (push (DUnlink p) fs).
Proof. intros [h1 h2 h3 h4 h5 h6 h7] Hp. split; [done|done|by apply steady_unlink|done..]. Qed.

Lemma holds_sync g next hist tail dur c s fs :
  holds g next hist tail dur c s fs -> holds g next hist tail dur c s (sync_dir fs).
Proof. intros [h1 h2 h3 h4 h5 h6 h7]. split; [done|done|by apply steady_sync|done..]. Qed.

Lemma holds_dur g next hist tail dur dur' c s fs :
  holds g next hist tail dur c s fs -> durable_by g tail dur' s -> holds g next hist tail dur' c s fs.
Proof. intros [h1 h2 h3 h4 h5 h6 h7] Hd. by split. Qed.

(** The files of a rotated log, once the old one is complete and synced. *)
Lemma rotated_files g next hist tail dur fs e fd :
  holds g next hist tail dur (enc tail) (length (enc tail)) fs ->
  Forall (fun pc => file_is (inodes fs) pc.1 pc.2 (dir fs)) (l_files (lay (rotate g tail e fd))).
Proof.
  intros [h1 h2 h3 h4 h5 h6 h7]. destruct h3 as [_ h3]. apply crash_dirs_now in h3 as (_ & F & Hc).
  rewrite lay_rotate by apply h2. apply Forall_app. split; [done|]. constructor; [|done].
  by exists (g_fd g).
Qed.

Lemma wp_unlink_foreign g next hist tail dur c s fs p {B} (f : unit -> prog B) Q :
  hist `prefix_of` H -> foreign p (lay g) -> holds g next hist tail dur c s fs ->
  (forall fs', holds g next hist tail dur c s fs' -> children fs' = children fs ->
     wp dir_syncs (crash_safe H dur) (f tt) Q fs') ->
  wp dir_syncs (crash_safe H dur) (call (Unlink p) ≫= f) Q fs.
Proof.
  intros Hpre Hp Hh Hf. pose proof (holds_unlink _ _ _ _ _ _ _ _ _ Hh Hp) as Hh'.
  apply wp_unlink; [by eapply holds_safe|by eapply holds_safe|by apply Hf|by apply Hf].
Qed.

Lemma last_error_wp (I : FS -> Prop) a (Q : bytes -> FS -> Prop) fs :
  I fs -> (forall e, Q e fs) -> wp dir_syncs I (last_error strerror a) Q fs.
Proof.
  intros HI HQ. unfold last_error. destruct (negb (write_errno_ a =? 0)); [apply HQ|].
  destruct (has_worker a); [|apply HQ]. apply wp_reads; [done|done|]. intros e. apply HQ.
Qed.

Lemma begin_rewrite_wp g hist tail dur a c s fs :
  hist `prefix_of` H -> next_seq_ a < size_max ->
  holds g (next_seq_ a) hist tail dur c s fs -> agrees g a c tail ->
  wp dir_syncs (crash_safe H dur) (begin_rewrite strerror a)
    (fun '(r, a') fs' =>
       match r with
       | Some _ => wrote g hist tail dur a fs a' fs' (fun _ _ => True)
       | None =>
           exists fd, let g' := rotate g tail (next_incr (next_seq_ a)) fd in
           holds g' (next_seq_ a') hist [] (length hist) [] 0 fs' /\ agrees g' a' [] [] /\
           next_seq_ a' = next_seq_ a + 1 /\ policy_ a' = policy_ a /\ children fs' = children fs
       end) fs.
Proof.
  intros Hpre Hlt Hh Ha. unfold begin_rewrite. apply wp_bind.
  eapply wp_mono; [by eapply flush_and_sync_wp|].
  intros [[] a1] fs1 (c1 & s1 & W1 & W2 & W3 & W4 & W5 & W6); cbn [negb].
  2: { apply wp_bind, last_error_wp; [by eapply holds_safe|]. intros e. apply wp_ret.
       exists c1, s1. by split_and!. }
  destruct (W6 eq_refl) as [Eb ->]. cbv zeta. rewrite W3. unfold path. rewrite (ag_dir _ _ _ _ W2).
  pose proof (ag_buf _ _ _ _ W2) as Ec. rewrite Eb, app_nil_r in Ec. subst c1.
  pose proof W1 as [h1 h2 h3 h4 h5 h6 h7]. cbn [name].
  assert (Hp : foreign (join D (incr_name (next_seq_ a))) (lay g))
    by (eapply next_incr_foreign; [done|apply h2]).
  set (p := join D (incr_name (next_seq_ a))) in *.
  pose proof (holds_link _ _ _ _ _ _ _ _ p (mkInode [] 0) W1 Hp) as W1'.
  assert (Hret : forall fs', holds g (next_seq_ a) hist tail dur (enc tail) (length (enc tail)) fs' ->
    children fs' = children fs -> wrote g hist tail dur a fs a1 fs' (fun _ _ => True))
    by (intros fs' Hh' Hc; by exists (enc tail), (length (enc tail))).
  apply wp_open_trunc; [by eapply holds_safe|intros e; apply wp_ret; by apply Hret|by eapply holds_safe|].
  set (fd := next_ino fs1). set (fs2 := link_new p _ fs1) in *. apply wp_bind.
  pose proof (start_rotate g hist tail (next_incr (next_seq_ a)) fd h2) as Hstart.
  eapply wp_mono; [apply (switch_wp hist dur Hpre g (rotate g tail (next_incr (next_seq_ a)) fd)
    (next_seq_ a) (next_seq_ a + 1) tail [] (enc tail) [] (length (enc tail)) 0%nat fs2 W1')|].
  - by apply named_rotate.
  - by apply covers_rotate.
  - unfold fs2, link_new. simpl. by rewrite lookup_insert_eq.
  - apply prefix_nil.
  - done.
  - exists 0%nat. rewrite Hstart. split_and!; [simpl; lia| |simpl; lia].
    destruct h7 as (k & K1 & K2 & _). rewrite (covers_length _ _ _ h2). lia.
  - by eapply rotated_files.
  - unfold fs2, link_new. rewrite dir_push. simpl. by rewrite lookup_insert_eq.
  - apply W2.
  - simpl. apply W2.
  - simpl. by rewrite (ag_incrs _ _ _ _ W2).
  - intros [err|] fs3 [Hc3 Hr].
    + apply wp_close; [by eapply holds_safe|]. intros _.
      eapply wp_unlink_foreign; [done|exact Hp|exact Hr|]. intros fs4 Hh4 Hc4. apply wp_ret.
      apply Hret; [done|]. rewrite Hc4, Hc3. exact W5.
    + rewrite (ag_fd _ _ _ _ W2). apply wp_bind, wp_close; [by eapply holds_safe|]. intros _.
      apply wp_ret, wp_ret. exists fd. cbv zeta. simpl.
      assert (En : u64 (next_seq_ a + 1) = next_seq_ a + 1).
      { pose proof (proj2 (proj2 (nm_base _ _ _ h1))). apply u64_small. unfold size_max in Hlt. lia. }
      rewrite En. split_and!; [| |done|done|rewrite Hc3; exact W5].
      * eapply holds_dur; [exact Hr|]. exists 0%nat. rewrite Hstart. split_and!; simpl; lia.
      * split; simpl; [apply W2..|by rewrite (ag_incrs _ _ _ _ W2)|done|by rewrite Eb|done].
Qed.

(** *** Completing a rewrite *)

Abbreviation next_base next := (mkEntry (base_name next) next true).

(** The new base covers everything before the current file. *)
Definition compact (g : ghost) (next : Z) : ghost :=
  mkGhost (next_base next) [] (g_cur g) (g_fd g) (before g) [].

Lemma named_compact g next :
  named (g_b g) (g_olds g ++ [g_cur g]) next -> next < size_max ->
  let g' := compact g next in named (g_b g') (g_olds g' ++ [g_cur g']) (next + 1).
Proof.
  intros N Hlt. destruct (cur_named _ _ N) as (E1 & E2 & E3). pose proof (proj2 (proj2 (nm_base _ _ _ N))).
  cbv zeta. split; simpl; [split_and!; [done|done|lia|lia]| |apply NoDup_singleton|lia].
  constructor; [|done]. split_and!; [done|done|lia|lia].
Qed.

Lemma before_compact g next : before (compact g next) = before g.
Proof. unfold before at 1. simpl. by rewrite app_nil_r. Qed.

Lemma covers_compact g hist tail next : covers g hist tail -> covers (compact g next) hist tail.
Proof. intros [C1 ->]. split; [done|]. by rewrite before_compact. Qed.

Lemma durable_compact g tail dur s next :
  durable_by g tail dur s -> durable_by (compact g next) tail dur s.
Proof. unfold durable_by, start. by rewrite before_compact. Qed.

(** The files a rewrite makes obsolete. *)
Lemma obsolete_foreign g next e :
  named (g_b g) (g_olds g ++ [g_cur g]) next -> e ∈ g_b g :: g_olds g ->
  foreign (epath e) (lay (compact g next)).
Proof.
  intros N He. destruct (cur_named _ _ N) as (_ & Ec & Hc).
  pose proof N as [(_ & B2 & B3) N2 N3 N4].
  assert (Hb : epath (g_b g) <> epath (g_cur g)).
  { intros E. apply epath_inj_name in E. rewrite Ec, B2 in E. by apply base_incr_neq in E. }
  assert (Hnr : ~ reserved (name e)).
  { apply elem_of_cons in He as [->|He]; [rewrite B2; apply base_not_reserved|].
    apply Forall_app in N2 as [N2 _]. rewrite Forall_forall in N2.
    destruct (N2 e (proj1 (list_elem_of_In _ _) He)) as (_ & -> & _). apply incr_not_reserved. }
  split; [intros E; apply epath_inj_name in E; apply Hnr; rewrite E; by left|].
  apply not_named; [done| |constructor; [|done]]; simpl.
  - apply elem_of_cons in He as [->|He].
    + rewrite B2. intros E. apply base_name_inj in E; lia.
    + apply Forall_app in N2 as [N2 _]. rewrite Forall_forall in N2.
      destruct (N2 e (proj1 (list_elem_of_In _ _) He)) as (_ & -> & _). intros E. symmetry in E.
      by apply base_incr_neq in E.
  - apply elem_of_cons in He as [->|He]; [intros E; apply Hb; unfold epath; by rewrite E|].
    rewrite fmap_app in N3. apply list.NoDup_app in N3 as (_ & N3 & _).
    apply Forall_app in N2 as [N2 _]. rewrite Forall_forall in N2.
    destruct (N2 e (proj1 (list_elem_of_In _ _) He)) as (_ & Ee & He').
    rewrite Ee, Ec. intros E. apply incr_name_inj in E; [|lia|lia].
    apply (N3 (seq e)); [by apply list_elem_of_fmap_2|]. rewrite E. by left.
Qed.

Lemma unlink_all_wp g next hist tail dur c s ps fs {B} (f : unit -> prog B) Q :
  hist `prefix_of` H -> Forall (fun p => foreign p (lay g)) ps -> holds g next hist tail dur c s fs ->
  (forall fs', holds g next hist tail dur c s fs' -> children fs' = children fs ->
     wp dir_syncs (crash_safe H dur) (f tt) Q fs') ->
  wp dir_syncs (crash_safe H dur) (unlink_all ps ≫= f) Q fs.
Proof.
  intros Hpre Hps. revert fs. induction Hps as [|p ps Hp Hps IH]; intros fs Hh Hf; [by apply Hf|].
  change (unlink_all (p :: ps) ≫= f) with (call (Unlink p) ≫= (fun _ => unlink_all ps ≫= f)).
  eapply wp_unlink_foreign; [done|exact Hp|exact Hh|]. intros fs' Hh' Hc. apply IH; [done|].
  intros fs'' Hh'' Hc'. apply Hf; [done|]. by rewrite Hc'.
Qed.

Lemma holds_rename g next hist tail dur c s fs p q :
  holds g next hist tail dur c s fs -> foreign p (lay g) -> foreign q (lay g) ->
  holds g next hist tail dur c s (push (DRename p q) fs).
Proof. intros [h1 h2 h3 h4 h5 h6 h7] Hp Hq. split; [done|done|by apply steady_rename|done..]. Qed.

Lemma file_is_renamed I p q c d :
  file_is I p c d -> file_is I q c (apply_dirop d (DRename p q)).
Proof. intros (i & Hd & Hi). exists i. simpl. rewrite Hd. split; [apply lookup_insert_eq|done]. Qed.

Section finish.
Context (g : ghost) (hist tail : list Args) (dur : nat) (Hpre : hist `prefix_of` H).
Context (a : AppendOnlyFile) (c : bytes) (s : nat) (Hlt : next_seq_ a < size_max).
Context (Ha : agrees g a c tail).
Abbreviation done_with a' fs' fs := (
  exists g', holds g' (next_seq_ a') hist tail dur c s fs' /\ agrees g' a' c tail /\
    next_seq_ a <= next_seq_ a' <= next_seq_ a + 1 /\ policy_ a' = policy_ a /\
    children fs' = children fs).

(** The new manifest is in place: clean up. *)
Lemma finish_cleanup_wp fs size_of :
  let a' := with_files a (Some (next_base (next_seq_ a))) [g_cur g] (next_seq_ a) in
  holds (compact g (next_seq_ a)) (next_seq_ a + 1) hist tail dur c s fs ->
  named (g_b g) (g_olds g ++ [g_cur g]) (next_seq_ a) ->
  wp dir_syncs (crash_safe H dur)
    (let a' := with_files a' (base_ a') (incrs_ a') (u64 (next_seq_ a + 1)) in
     _ ← unlink_all (match base_ a with Some b => [path a (name b)] | None => [] end);
     _ ← unlink_all ((fun f => path a (name f)) <$> removelast (incrs_ a));
     _ ← fsync_dir (dir_ a);
     size ← call (File_size size_of);
     let a' := with_bytes a' size 0 (incr_bytes_ a') (size_after_rewrite_ a') in
     mret (None : option bytes, with_bytes a' size 0 (incr_bytes_ a') (current_size a')))
    (fun '(_, a') fs' => done_with a' fs' fs) fs.
Proof.
  intros a' Hh N. cbv zeta. pose proof Ha as [A1 A2 A3 A4 A5 A6].
  rewrite A2, A3, removelast_last. unfold path. rewrite A1.
  eapply unlink_all_wp; [done| |exact Hh|].
  { constructor; [|done]. apply (obsolete_foreign g _ (g_b g)); [done|]. by left. }
  intros fs1 H1 Hc1. eapply unlink_all_wp; [done| |exact H1|].
  { apply Forall_forall. intros p Hp. apply in_map_iff in Hp as (e & <- & Hin).
    apply (obsolete_foreign g _ e); [done|]. right. by apply list_elem_of_In. }
  intros fs2 H2 Hc2. pose proof (holds_sync _ _ _ _ _ _ _ _ H2) as H3.
  apply wp_fsync_dir; [by eapply holds_safe|]. apply wp_reads; [by eapply holds_safe|done|].
  intros size. apply wp_ret. exists (compact g (next_seq_ a)). simpl.
  assert (En : u64 (next_seq_ a + 1) = next_seq_ a + 1).
  { pose proof (proj2 (proj2 (nm_base _ _ _ N))). apply u64_small. unfold size_max in Hlt. lia. }
  rewrite En. split_and!; [done|by split|lia|lia|done|by rewrite Hc2].
Qed.

Lemma finish_rewrite_wp child_ok x fs :
  reserved x -> x <> kManifestName ->
  (child_ok = true -> file_is (inodes fs) (join D x) (snap_at (before g)) (dir fs)) ->
  holds g (next_seq_ a) hist tail dur c s fs ->
  wp dir_syncs (crash_safe H dur) (finish_rewrite strerror child_ok (join D x) a)
    (fun '(_, a') fs' => done_with a' fs' fs) fs.
Proof.
  intros Hx Hxm Hfile Hh. pose proof Hh as [h1 h2 h3 h4 h5 h6 h7]. pose proof Ha as [A1 A2 A3 A4 A5 A6].
  assert (Ft : foreign (join D x) (lay g)) by (eapply reserved_foreign; [done|apply h2|done|done]).
  assert (Hback : forall fs', holds g (next_seq_ a) hist tail dur c s fs' -> children fs' = children fs ->
    done_with a fs' fs) by (intros fs' Hh' Hc; exists g; split_and!; [done|done|lia|lia|done|done]).
  unfold finish_rewrite. destruct child_ok; cbn [negb].
  2: { eapply wp_unlink_foreign; [done|exact Ft|exact Hh|]. intros fs' Hh' Hc. by apply wp_ret, Hback. }
  cbv zeta. unfold path. rewrite A1. cbn [name]. specialize (Hfile eq_refl).
  assert (Fn : foreign (join D (base_name (next_seq_ a))) (lay g))
    by (eapply next_base_foreign; [done|apply h2]).
  set (nb := join D (base_name (next_seq_ a))) in *.
  apply wp_rename; [by eapply holds_safe| |].
  { intros e. eapply wp_unlink_foreign; [done|exact Ft|exact Hh|]. intros fs' Hh' Hc. by apply wp_ret, Hback. }
  intros i Hi. set (fs1 := push _ fs).
  assert (H1 : holds g (next_seq_ a) hist tail dur c s fs1) by (by apply holds_rename).
  split; [by eapply holds_safe|]. rewrite A3, last_snoc. cbn [option_list]. apply wp_bind.
  pose proof (h_steady _ _ _ _ _ _ _ _ H1) as [_ HL]. apply crash_dirs_now in HL as (_ & _ & Hcur).
  eapply wp_mono; [apply (switch_wp hist dur Hpre g (compact g (next_seq_ a))
    (next_seq_ a) (next_seq_ a + 1) tail tail c c s s fs1 H1)|].
  - by apply named_compact.
  - by apply covers_compact.
  - done.
  - done.
  - done.
  - by apply durable_compact.
  - constructor; [|done]. unfold fs1. rewrite dir_push. by apply file_is_renamed.
  - exact Hcur.
  - done.
  - done.
  - done.
  - intros [err|] fs2 [Hc2 Hr].
    + eapply wp_unlink_foreign; [done|exact Fn|exact Hr|]. intros fs' Hh' Hc. apply wp_ret, Hback; [done|].
      by rewrite Hc, Hc2.
    + pose proof (finish_cleanup_wp fs2 nb Hr h1) as Hcl. cbv zeta in Hcl. unfold path in Hcl.
      rewrite A1, A3 in Hcl. eapply wp_mono; [exact Hcl|]. intros [r a'] fs3 (g' & G1 & G2 & G3 & G4 & G5).
      exists g'. split_and!; [done|done|lia|lia|done|by rewrite G5, Hc2].
Qed.
End finish.
End ops.


(** ** The file in use *)

(** What the server does with the file: [feed] after a write command, [flush]
    before it sleeps, and rewrites by a child that saves the dataset as it is
    when it is forked, and that may be killed.  [s_hist] is what was fed, and [s_acked] how much of it
    was reported to be on the disk. *)
Record session := mkSession {
  s_aof : AppendOnlyFile;
  s_child : option Z;
  s_hist : list Args;
  s_acked : nat
}.

Inductive op := OFeed (argv : Args) | OFlush | OSync | ORewrite | OReap | OKill.

Definition with_aof (S : session) (a : AppendOnlyFile) : session :=
  mkSession a (s_child S) (s_hist S) (s_acked S).

(** The server believes the whole log to be on the disk if [b]. *)
Definition acked (b : bool) (S : session) : session :=
  mkSession (s_aof S) (s_child S) (s_hist S) (if b then length (s_hist S) else s_acked S).

Definition fed (o : op) : list Args := match o with OFeed argv => [argv] | _ => [] end.

Definition do_op (o : op) (S : session) : prog session :=
  let a := s_aof S in
  match o with
  | OFeed argv => mret (mkSession (feed argv a) (s_child S) (s_hist S ++ [argv]) (s_acked S))
  | OFlush =>
      '(ok, a') ← flush a;
      mret (acked (ok && bool_decide (policy_ a = kAlways) && negb (bool_decide (buf_ a = [])))
              (with_aof S a'))
  | OSync => '(ok, a') ← flush_and_sync a; mret (acked ok (with_aof S a'))
  | ORewrite =>
      match s_child S with
      | Some _ => mret S
      | None =>
          '(r, a') ← begin_rewrite strerror a;
          match r with
          | Some _ => mret (with_aof S a')
          | None =>
              r ← call (Fork (temp_base_path a') (snap_at (s_hist S)));
              mret (mkSession a' (match r with Ok pid => Some pid | Err _ => None end) (s_hist S) (s_acked S))
          end
      end
  | OReap =>
      match s_child S with
      | None => mret S
      | Some pid =>
          st ← call (Waitpid pid);
          match st with
          | Running => mret S
          | Exited ok =>
              '(_, a') ← finish_rewrite strerror ok (temp_base_path a pid) a;
              mret (mkSession a' None (s_hist S) (s_acked S))
          end
      end
  | OKill =>
      match s_child S with
      | None => mret S
      | Some pid =>
          _ ← call (Kill_wait pid);
          '(_, a') ← finish_rewrite strerror false (temp_base_path a pid) a;
          mret (mkSession a' None (s_hist S) (s_acked S))
      end
  end.

Fixpoint do_ops (os : list op) (S : session) : prog session :=
  match os with
  | [] => mret S
  | o :: os => S ← do_op o S; do_ops os S
  end.

(** The invariant of a session. *)
Definition session_ok (S : session) (fs : FS) : Prop :=
  exists g tail c s,
    holds g (next_seq_ (s_aof S)) (s_hist S) tail (s_acked S) c s fs /\ agrees g (s_aof S) c tail /\
    (forall pid, s_child S = Some pid ->
       children fs !! pid = Some (temp_base_path (s_aof S) pid, snap_at (before g))).

Section session.
Context (H : list Args) (Hfits : zlen (enc H) < 2 ^ 64).

Lemma crash_safe_le dur dur' fs : (dur' <= dur)%nat -> crash_safe H dur fs -> crash_safe H dur' fs.
Proof.
  intros Hd [Hok Hs]. split; [done|]. intros k. destruct (Hs k) as (g & next & t & c & s & ? & ? & ? & ? & ? & ? & Hdur).
  exists g, next, t, c, s. split_and!; try done. by eapply durable_by_le; [..|exact Hdur].
Qed.

Definition after_op (S : session) (more : list Args) (S' : session) (fs' : FS) : Prop :=
  session_ok S' fs' /\ s_hist S' = s_hist S ++ more /\ (s_acked S <= s_acked S')%nat /\
  next_seq_ (s_aof S) <= next_seq_ (s_aof S') <= next_seq_ (s_aof S) + 1.

Lemma temp_base_path_agrees g a c tail pid :
  agrees g a c tail -> temp_base_path a pid = join D (&"temp-rewrite-" ++ to_string pid ++ &".snap").
Proof. intros A. unfold temp_base_path, path. by rewrite (ag_dir _ _ _ _ A). Qed.

Lemma acked_le g next hist tail dur c s fs :
  holds g next hist tail dur c s fs -> (dur <= length hist)%nat.
Proof.
  intros Hh. destruct (h_durable _ _ _ _ _ _ _ _ Hh) as (k & K1 & K2 & _).
  rewrite (covers_length _ _ _ (h_covers _ _ _ _ _ _ _ _ Hh)). lia.
Qed.

(** Everything written and synced may be acknowledged. *)
Lemma holds_all g next hist tail dur c s fs :
  holds g next hist tail dur c s fs -> c = enc tail -> s = length c ->
  holds g next hist tail (length hist) c s fs.
Proof.
  intros Hh -> ->. eapply holds_dur; [exact Hh|]. apply durable_by_all, Hh.
Qed.

Lemma feed_ok S fs argv :
  session_ok S fs ->
  after_op S [argv] (mkSession (feed argv (s_aof S)) (s_child S) (s_hist S ++ [argv]) (s_acked S)) fs.
Proof.
  intros (g & tail & c & s & Hh & Ha & Hc). split_and!; [|done|done|simpl; lia|simpl; lia].
  exists g, (tail ++ [argv]), c, s. destruct Ha as [A1 A2 A3 A4 A5 A6]. split_and!; [| |done].
  - destruct Hh as [h1 h2 h3 h4 h5 h6 h7]. split; [done|by apply covers_more|done|done| |done|].
    + rewrite enc_app. by apply prefix_app_r.
    + by apply durable_by_more.
  - split; try done. cbn [s_aof]. unfold feed. cbn [with_buf buf_].
    by rewrite enc_app, enc_single, command_onto, <-A5, app_assoc.
Qed.

(** A flush, and what it allows to acknowledge. *)
Lemma wrote_ok S fs g tail a' fs' (b : bool) P :
  wrote g (s_hist S) tail (s_acked S) (s_aof S) fs a' fs' P ->
  (forall pid, s_child S = Some pid ->
     children fs !! pid = Some (temp_base_path (s_aof S) pid, snap_at (before g))) ->
  dir_ (s_aof S) = D ->
  (forall c s, P c s -> agrees g a' c tail -> b = true -> c = enc tail /\ s = length c) ->
  after_op S [] (acked b (with_aof S a')) fs'.
Proof.
  intros (c & s & W1 & W2 & W3 & W4 & W5 & W6) Hc HD HP.
  split_and!; [|simpl; by rewrite app_nil_r| |simpl; lia|simpl; lia].
  - exists g, tail, c, s. simpl. rewrite W3, W5.
    assert (Et : forall pid, temp_base_path a' pid = temp_base_path (s_aof S) pid)
      by (intros pid; unfold temp_base_path, path; by rewrite HD, (ag_dir _ _ _ _ W2)).
    split_and!; [|done|intros pid Hp; rewrite Et; by apply Hc].
    destruct b; [|done]. destruct (HP c s W6 W2 eq_refl). by eapply holds_all.
  - simpl. destruct b; [|done]. by eapply acked_le.
Qed.

Lemma holds_children g next hist tail dur c s fs ch :
  holds g next hist tail dur c s fs ->
  holds g next hist tail dur c s (mkFS (durable fs) (pending fs) (inodes fs) (next_ino fs) ch).
Proof. intros [h1 h2 h3 h4 h5 h6 h7]. split; [done|done|by apply steady_children|done..]. Qed.

Lemma temp_reserved pid : reserved (&"temp-rewrite-" ++ to_string pid ++ &".snap").
Proof. right; right. by exists pid. Qed.

(** A child that succeeded leaves its file, complete. *)
Lemma reap_ok g next hist tail dur c s fs pid ok x data :
  holds g next hist tail dur c s fs -> children fs !! pid = Some (join D x, data) ->
  foreign (join D x) (lay g) ->
  holds g next hist tail dur c s (reap pid ok fs) /\
  (ok = true -> file_is (inodes (reap pid ok fs)) (join D x) data (dir (reap pid ok fs))).
Proof.
  intros Hh Hc Hx. unfold reap. rewrite Hc. destruct ok.
  - split; [by apply holds_link, Hx; apply holds_children|]. intros _. eexists. unfold link_new. rewrite dir_push. simpl.
    by rewrite !lookup_insert_eq.
  - split; [by apply holds_children|done].
Qed.

Lemma rewrite_op_wp S fs :
  session_ok S fs -> s_hist S `prefix_of` H -> next_seq_ (s_aof S) < size_max ->
  wp dir_syncs (crash_safe H (s_acked S)) (do_op ORewrite S) (after_op S []) fs.
Proof.
  intros Hok Hpre Hlt. pose proof Hok as (g & tail & c & s & Hh & Ha & Hc). unfold do_op.
  destruct (s_child S) eqn:Ech.
  { apply wp_ret. split_and!; [done|by rewrite app_nil_r|done|lia|lia]. }
  apply wp_bind. eapply wp_mono; [by eapply begin_rewrite_wp|]. intros [[err|] a'] fs1.
  - intros W. apply wp_ret. apply (wrote_ok S fs g tail a' fs1 false _ W); [by rewrite Ech|apply Ha|done].
  - intros (fd & H1 & A1 & En & _ & Ec). set (g' := rotate g tail _ fd) in *.
    assert (H1' : holds g' (next_seq_ a') (s_hist S) [] (s_acked S) [] 0 fs1).
    { eapply holds_dur; [exact H1|]. eapply durable_by_le; [|done|apply H1]. by eapply acked_le. }
    assert (Eb : before g' = s_hist S).
    { destruct (h_covers _ _ _ _ _ _ _ _ H1) as [_ E]. by rewrite app_nil_r in E. }
    apply wp_fork; [by eapply holds_safe| |].
    + intros e. apply wp_ret. split_and!; [|by rewrite app_nil_r|done|simpl; lia|simpl; lia].
      by exists g', [], [], 0%nat.
    + intros pid _. cbv zeta. pose proof (holds_children _ _ _ _ _ _ _ _ (<[pid := (temp_base_path a' pid,
        snap_at (s_hist S))]> (children fs1)) H1') as H2. split; [by eapply holds_safe|].
      apply wp_ret. split_and!; [|by rewrite app_nil_r|done|simpl; lia|simpl; lia].
      exists g', [], [], 0%nat. split_and!; [done|done|]. cbn [s_child s_aof children].
      intros pid' [= <-]. by rewrite lookup_insert_eq, Eb.
Qed.

Lemma reap_op_wp S fs :
  session_ok S fs -> s_hist S `prefix_of` H -> next_seq_ (s_aof S) < size_max ->
  wp dir_syncs (crash_safe H (s_acked S)) (do_op OReap S) (after_op S []) fs.
Proof.
  intros Hok Hpre Hlt. pose proof Hok as (g & tail & c & s & Hh & Ha & Hc). unfold do_op.
  assert (Hsame : after_op S [] S fs) by (split_and!; [done|by rewrite app_nil_r|done|lia|lia]).
  destruct (s_child S) as [pid|] eqn:Ech; [|by apply wp_ret].
  specialize (Hc pid eq_refl). rewrite (temp_base_path_agrees _ _ _ _ pid Ha) in Hc |- *.
  assert (Ft : foreign (join D (&"temp-rewrite-" ++ to_string pid ++ &".snap")) (lay g)).
  { pose proof Hh as [h1 [h2 _] _ _ _ _ _]. by eapply reserved_foreign; [..|apply temp_reserved|]. }
  apply wp_waitpid; [by eapply holds_safe|by apply wp_ret|]. intros ok.
  destruct (reap_ok _ _ _ _ _ _ _ _ _ ok _ _ Hh Hc Ft) as [H1 Hf]. split; [by eapply holds_safe|].
  apply wp_bind. eapply wp_mono.
  - apply (finish_rewrite_wp H g (s_hist S) tail (s_acked S) Hpre (s_aof S) c s Hlt Ha);
      [apply temp_reserved|done|exact Hf|exact H1].
  - intros [r a'] fs2 (g' & G1 & G2 & G3 & G4 & G5). apply wp_ret.
    split_and!; [|by rewrite app_nil_r|done|simpl; lia|simpl; lia]. by exists g', tail, c, s.
Qed.

Lemma kill_op_wp S fs :
  session_ok S fs -> s_hist S `prefix_of` H -> next_seq_ (s_aof S) < size_max ->
  wp dir_syncs (crash_safe H (s_acked S)) (do_op OKill S)
    (fun S' fs' => after_op S [] S' fs' /\ s_child S' = None /\ s_acked S' = s_acked S) fs.
Proof.
  intros Hok Hpre Hlt. pose proof Hok as (g & tail & c & s & Hh & Ha & Hc). unfold do_op.
  destruct (s_child S) as [pid|] eqn:Ech.
  2:{ apply wp_ret. split_and!; [|done|done]. split_and!; [done|by rewrite app_nil_r|done|lia|lia]. }
  specialize (Hc pid eq_refl). rewrite (temp_base_path_agrees _ _ _ _ pid Ha) in Hc |- *.
  assert (Ft : foreign (join D (&"temp-rewrite-" ++ to_string pid ++ &".snap")) (lay g)).
  { pose proof Hh as [h1 [h2 _] _ _ _ _ _]. by eapply reserved_foreign; [..|apply temp_reserved|]. }
  destruct (reap_ok _ _ _ _ _ _ _ _ _ false _ _ Hh Hc Ft) as [H1 Hf].
  apply wp_kill_wait; [by eapply holds_safe|]. apply wp_bind. eapply wp_mono.
  - apply (finish_rewrite_wp H g (s_hist S) tail (s_acked S) Hpre (s_aof S) c s Hlt Ha);
      [apply temp_reserved|done|exact Hf|exact H1].
  - intros [r a'] fs2 (g' & G1 & G2 & G3 & G4 & G5). apply wp_ret. split_and!; [|done|done].
    split_and!; [|by rewrite app_nil_r|done|simpl; lia|simpl; lia]. by exists g', tail, c, s.
Qed.

Lemma do_op_wp o S fs :
  session_ok S fs -> s_hist S `prefix_of` H -> next_seq_ (s_aof S) < size_max ->
  wp dir_syncs (crash_safe H (s_acked S)) (do_op o S) (after_op S (fed o)) fs.
Proof.
  intros Hok Hpre Hlt. pose proof Hok as (g & tail & c & s & Hh & Ha & Hc).
  destruct o; [by apply wp_ret, feed_ok| | |by apply rewrite_op_wp|by apply reap_op_wp
    |by eapply wp_mono; [apply kill_op_wp|intros S' fs' [? _]]]; cbn [do_op fed].
  - apply wp_bind. eapply wp_mono; [by eapply flush_wp|]. intros [ok a'] fs' W. apply wp_ret.
    eapply wrote_ok; [exact W|exact Hc|apply Ha|]. simpl. intros c' s' HP A Hb.
    destruct ok; [|done]. destruct (bool_decide_reflect (policy_ (s_aof S) = kAlways)) as [Hp|]; [|done].
    destruct (bool_decide_reflect (buf_ (s_aof S) = [])) as [|Hn]; [done|].
    destruct (HP eq_refl) as [Eb Es]. split; [|by apply Es].
    pose proof (ag_buf _ _ _ _ A) as E. by rewrite Eb, app_nil_r in E.
  - apply wp_bind. eapply wp_mono; [by eapply flush_and_sync_wp|]. intros [ok a'] fs' W. apply wp_ret.
    eapply wrote_ok; [exact W|exact Hc|apply Ha|]. simpl. intros c' s' HP A Hb.
    destruct (HP Hb) as [Eb Es]. split; [|done].
    pose proof (ag_buf _ _ _ _ A) as E. by rewrite Eb, app_nil_r in E.
Qed.

Lemma do_ops_wp os : forall S fs,
  session_ok S fs -> s_hist S ++ concat (fed <$> os) `prefix_of` H ->
  next_seq_ (s_aof S) + Z.of_nat (length os) <= size_max ->
  wp dir_syncs (crash_safe H (s_acked S)) (do_ops os S)
    (fun S' fs' => session_ok S' fs' /\ s_hist S' = s_hist S ++ concat (fed <$> os) /\
       (s_acked S <= s_acked S')%nat /\
       next_seq_ (s_aof S') <= next_seq_ (s_aof S) + Z.of_nat (length os)) fs.
Proof.
  induction os as [|o os IH]; intros S fs Hok Hpre Hlt; cbn [do_ops fmap list_fmap concat].
  { apply wp_ret. split_and!; [done|by rewrite app_nil_r|done|simpl; lia]. }
  cbn [length] in *. apply wp_bind. cbn [fmap list_fmap concat] in Hpre. eapply wp_mono.
  - apply do_op_wp; [done| |lia]. destruct Hpre as [more ->]. rewrite <-!app_assoc. by eexists.
  - intros S1 fs1 (O1 & O2 & O3 & O4).
    eapply wp_weaken; [intros fs2; by apply (crash_safe_le (s_acked S1))|].
    eapply wp_mono; [apply IH; [done| |lia]|].
    + by rewrite O2, <-app_assoc.
    + intros S2 fs2 (P1 & P2 & P3 & P4). split_and!; [done| |lia|lia].
      by rewrite P2, O2, <-app_assoc.
Qed.

Lemma session_safe S fs : session_ok S fs -> s_hist S `prefix_of` H -> crash_safe H (s_acked S) fs.
Proof. intros (g & tail & c & s & Hh & _) Hpre. by eapply holds_safe. Qed.
End session.

(** ** Restarting *)

(** What a crash finds is again files that hold a history: the one up to some
    point of [H]. *)
Lemma crash_holds H dur k cut fs :
  fs_ok fs -> describes H dur (inodes fs) (foldl apply_dirop (durable fs) (take k (pending fs))) ->
  exists g next tail c, holds g next H tail dur c (length c) (crash k cut fs).
Proof.
  intros Hok (g & next & tail & c & s & N & C & L & Hi & P & Hl & Hd).
  exists g, next, tail, (take (Nat.min (length c) (s + cut (g_fd g))) c).
  pose proof (crash_inode k cut fs _ _ Hi) as Hi'. cbv zeta in Hi'. cbn [content synced] in Hi'.
  assert (El : length (take (Nat.min (length c) (s + cut (g_fd g))) c) = Nat.min (length c) (s + cut (g_fd g)))
    by (rewrite length_take; lia).
  split; [done|done| | | |done|].
  - split; [by apply crash_fs_ok|]. apply crash_dirs_crash.
    destruct L as (L1 & L2 & L3). split_and!; [by apply crash_file| |done].
    eapply Forall_impl; [|exact L2]. intros pc. apply crash_file.
  - by rewrite El.
  - etrans; [apply prefix_take|done].
  - rewrite El. eapply durable_by_le; [done| |exact Hd]. lia.
Qed.

Lemma named_good b incrs next :
  named b incrs next ->
  entry_good b /\ is_base b = true /\ Forall entry_good incrs /\ Forall (fun e => is_base e = false) incrs /\
  Forall (fun e => seq e < next) (b :: incrs).
Proof.
  intros [(B1 & B2 & B3) N2 _ N4]. split_and!; [|done| | |].
  - split_and!; [rewrite B2; apply plain_base_name; lia|by rewrite B2|lia|lia].
  - eapply Forall_impl; [|exact N2]. intros e (_ & E & ?).
    split_and!; [rewrite E; apply plain_incr_name; lia|by rewrite E|lia|lia].
  - eapply Forall_impl; [|exact N2]. by intros e (? & _).
  - constructor; [lia|]. eapply Forall_impl; [|exact N2]. intros e (_ & _ & ?). lia.
Qed.

Section restart.
Context (st0 : KvStore) (Good : list Args -> KvStore -> Prop).
(** The snapshots can be loaded. *)
Context (Hsnap : forall h rs, Forall (fun x => x <> Snapshot.RError) rs ->
  exists st, Snapshot.load (Snapshot.Opened (snap_at h) rs) st0 = (Snapshot.kOk, st) /\ Good h st).
Abbreviation rwp := (wp reads_ok (fun _ => True)).

Lemma read_manifest_wp pol fs b es next {B} (f : option bytes * AppendOnlyFile -> prog B) Q :
  file_is (inodes fs) mpath (manifest_text (Some b) es) (dir fs) -> named b es next -> es <> [] ->
  (forall next', next' <= Z.max 1 next -> Forall (fun e => seq e < next') (b :: es) ->
     rwp (f (None, with_files (make D pol) (Some b) es next')) Q fs) ->
  rwp (read_manifest strerror (make D pol) ≫= f) Q fs.
Proof.
  intros (i & Hd & Hi) N Hne Hf. destruct (named_good _ _ _ N) as (G1 & G2 & G3 & G4 & G5).
  apply wp_bind. unfold read_manifest. eapply wp_open_read; [exact Hd|exact Hi|]. intros rs e Hrs.
  cbn [content base_ incrs_ next_seq_ make]. rewrite manifest_round_trip by done.
  apply wp_ret. rewrite bool_decide_eq_false_2 by done.
  destruct (next_of_bounds (b :: es) 1 (Z.max 1 next)) as [B1 B2].
  { by constructor. }
  { lia. }
  { eapply Forall_impl; [|exact G5]. simpl. intros; lia. }
  apply Hf; [lia|done].
Qed.

Lemma load_base_wp a fs b h {B} (f : option bytes * AppendOnlyFile * KvStore -> prog B) Q :
  dir_ a = D -> base_ a = Some b -> file_is (inodes fs) (epath b) (snap_at h) (dir fs) ->
  (forall st size, Good h st ->
     rwp (f (None, with_bytes a size (older_incr_bytes_ a) (incr_bytes_ a) (size_after_rewrite_ a), st)) Q fs) ->
  rwp (load_base strerror a st0 ≫= f) Q fs.
Proof.
  intros HD Hb (i & Hd & Hi) Hf. apply wp_bind. unfold load_base, load_snapshot. rewrite Hb.
  unfold path. rewrite HD. fold (epath b). apply wp_bind. eapply wp_open_read; [exact Hd|exact Hi|].
  intros rs e Hrs. cbn [content]. destruct (Hsnap h rs Hrs) as (st & -> & Hg). apply wp_ret.
  apply wp_reads; [done|done|]. intros size. by apply wp_ret, Hf.
Qed.

(** A file of commands, read without errors. *)
Lemma replay_complete_wp a e is_last fs cmds {B} (f : option bytes * list Args * Z -> prog B) Q i n :
  dir_ a = D -> dir fs !! epath e = Some i -> inodes fs !! i = Some n -> content n = enc cmds ->
  Forall (fun argv => sized argv) cmds ->
  rwp (f (None, cmds, zlen (enc cmds))) Q fs ->
  rwp (replay_incr strerror a (name e) is_last ≫= f) Q fs.
Proof.
  intros HD Hd Hi Hc Hs Hf. apply wp_bind. unfold replay_incr, path. rewrite HD. fold (epath e).
  eapply wp_open_read; [exact Hd|exact Hi|]. intros rs err Hrs. rewrite Hc, <-(app_nil_r (enc cmds)).
  destruct (replay_text rs cmds [] Hrs Hs eq_refl) as (chunks & -> & Ec & ->).
  cbn [Parser.buffered_bytes Parser.buffer_]. rewrite Ec, app_nil_r. unfold Parser.buffered_bytes. cbn.
  by rewrite Z.sub_0_r.
Qed.

(** The last file: what follows the complete commands is cut off. *)
Lemma replay_torn_wp a e fs cmds t {B} (f : option bytes * list Args * Z -> prog B) Q i n :
  dir_ a = D -> dir fs !! epath e = Some i -> inodes fs !! i = Some n -> content n = enc cmds ++ t ->
  t <> [] -> Parser.outcome_of t = Parser.OIncomplete -> Forall (fun argv => sized argv) cmds ->
  rwp (f (None, cmds, zlen (enc cmds))) Q
    (set_inode i (mkInode (enc cmds) (Nat.min (length (enc cmds)) (synced n))) fs) ->
  rwp (replay_incr strerror a (name e) true ≫= f) Q fs.
Proof.
  intros HD Hd Hi Hc Hne Ht Hs Hf. apply wp_bind. unfold replay_incr, path. rewrite HD. fold (epath e).
  eapply wp_open_read; [exact Hd|exact Hi|]. intros rs err Hrs. rewrite Hc.
  destruct (replay_text rs cmds t Hrs Hs Ht) as (chunks & -> & Ec & ->).
  unfold Parser.buffered_bytes. cbn [Parser.buffer_ negb]. rewrite Ec, zlen_app.
  assert (0 < zlen t) by (destruct t; [done|]; rewrite zlen_cons; pose proof (zlen_nonneg t); lia).
  replace (0 <? zlen t) with true by zlia. replace (zlen (enc cmds) + zlen t - zlen t) with (zlen (enc cmds)) by lia.
  eapply wp_truncate; [exact Hd|exact Hi|]. apply wp_ret. unfold zlen in *. rewrite Nat2Z.id, Hc, take_app_length. done.
Qed.

Lemma replay_olds_wp a fs rest last Q :
  dir_ a = D -> rest <> [] -> forall olds segs cmds older,
  length segs = length olds ->
  Forall (fun pc => file_is (inodes fs) pc.1 pc.2 (dir fs)) (zip (epath <$> olds) (enc <$> segs)) ->
  Forall (fun argv => sized argv) (concat segs) ->
  (forall older', rwp (replay_incrs strerror a rest (cmds ++ concat segs) older' last) Q fs) ->
  rwp (replay_incrs strerror a (olds ++ rest) cmds older last) Q fs.
Proof.
  intros HD Hr. induction olds as [|e olds IH]; intros [|seg segs] cmds older Hl HF Hs Hf; try done.
  { cbn [app]. cbn [concat] in Hf. by rewrite app_nil_r in Hf. }
  cbn [fmap list_fmap] in HF. apply Forall_cons_1 in HF as [(i & Hd & Hi) HF]. cbn [concat] in Hs, Hf.
  apply Forall_app in Hs as [Hs1 Hs2]. cbn [fst snd] in *.
  cbn [app replay_incrs]. rewrite (bool_decide_eq_false_2 (olds ++ rest = [])).
  2: { intros E. by apply app_eq_nil in E as [_ ?]. }
  eapply replay_complete_wp; [done|exact Hd|exact Hi|done|done|].
  apply (IH segs); [by injection Hl|done|done|]. intros older'. rewrite <-app_assoc. apply Hf.
Qed.

Lemma named_next b es next next' :
  named b es next -> next' <= size_max -> Forall (fun e => seq e < next') (b :: es) -> named b es next'.
Proof.
  intros [(B1 & B2 & B3) N2 N3 N4] Hm Hs. apply Forall_cons_1 in Hs as [Hb Hs].
  split; [split_and!; [done|done|lia|lia]| |done|done].
  rewrite Forall_forall in *. intros e He. destruct (N2 e He) as (? & ? & ?). specialize (Hs e He).
  split_and!; [done|done|lia|lia].
Qed.

(** The complete commands of the current file. *)
Lemma holds_cut g next next' H tail dur c fs fs' m t :
  holds g next H tail dur c (length c) fs -> named (g_b g) (g_olds g ++ [g_cur g]) next' ->
  (m <= length tail)%nat -> c = enc (take m tail) ++ t ->
  (forall k, (length (enc (take k tail)) <= length c)%nat -> (k <= length tail)%nat -> (k <= m)%nat) ->
  steady (lay g) fs' -> inodes fs' !! g_fd g = Some (mkInode (enc (take m tail)) (length (enc (take m tail)))) ->
  holds g next' (before g ++ take m tail) (take m tail) dur (enc (take m tail)) (length (enc (take m tail))) fs'.
Proof.
  intros [h1 h2 h3 h4 h5 h6 h7] N Hm Hc Hk Hst Hi. split; [done| |done|done|done|done|].
  - destruct h2 as [h2 _]. by split.
  - destruct h7 as (k & K1 & K2 & K3). exists k. specialize (Hk k K3 K1).
    rewrite length_take, take_take, Nat.min_l by done. split_and!; [lia|done|].
    rewrite <-(take_drop k (take m tail)), enc_app, take_take, Nat.min_l, length_app by done. lia.
Qed.

(** The last file, torn or not. *)
Lemma replay_last_wp a g next H tail dur c fs cmds older m t Q :
  dir_ a = D -> holds g next H tail dur c (length c) fs -> Forall (fun argv => sized argv) tail ->
  c = enc (take m tail) ++ t -> Parser.outcome_of t = Parser.OIncomplete ->
  (forall fs', steady (lay g) fs' ->
     inodes fs' !! g_fd g = Some (mkInode (enc (take m tail)) (length (enc (take m tail)))) ->
     Q (None, cmds ++ take m tail, older, u64 (zlen (enc (take m tail)))) fs') ->
  rwp (replay_incrs strerror a [g_cur g] cmds older 0) Q fs.
Proof.
  intros HD Hh Hs Hc Ht HQ. pose proof Hh as [h1 h2 h3 h4 h5 h6 h7].
  pose proof h3 as [Hok L]. apply crash_dirs_now in L as (_ & _ & Hcur).
  assert (Hs' : Forall (fun argv => sized argv) (take m tail)).
  { rewrite <-(take_drop m tail) in Hs. by apply Forall_app in Hs as [? _]. }
  cbn [replay_incrs]. rewrite bool_decide_eq_true_2 by done.
  destruct (decide (t = [])) as [->|Hne].
  - rewrite app_nil_r in Hc. eapply replay_complete_wp; [done|exact Hcur|exact h4|done|done|].
    apply wp_ret. apply HQ; [done|]. by rewrite <-Hc.
  - eapply replay_torn_wp; [done|exact Hcur|exact h4|done|done|done|done|]. apply wp_ret.
    cbn [synced]. rewrite Nat.min_l by (rewrite Hc, length_app; lia). apply HQ.
    + apply (steady_append (lay g)); [by eapply cur_not_manifest| |done]. eapply cur_not_file; [done|apply h2].
    + simpl. apply lookup_insert_eq.
Qed.

Definition recovered (g : ghost) (tail : list Args) (dur : nat) (next : Z) (m : nat)
    (a : AppendOnlyFile) (fs : FS) : Prop :=
  holds g (next_seq_ a) (before g ++ take m tail) (take m tail) dur
    (enc (take m tail)) (length (enc (take m tail))) fs /\
  agrees g a (enc (take m tail)) (take m tail) /\ next_seq_ a <= next.

(** [load] after a crash: it succeeds, the base covers a prefix of the history,
    and the commands to replay are the ones that follow. *)
Lemma load_wp pol g next H tail dur c fs :
  zlen (enc H) < 2 ^ 64 -> holds g next H tail dur c (length c) fs ->
  rwp (load strerror (make D pol) st0)
    (fun '(err, a, st, cmds) fs' => exists m,
       err = None /\ (m <= length tail)%nat /\ Good (g_base g) st /\
       cmds = concat (g_segs g) ++ take m tail /\ recovered g tail dur next m a fs') fs.
Proof.
  intros Hfit Hh. pose proof Hh as [h1 h2 h3 h4 h5 h6 h7]. pose proof h2 as [C1 C2].
  pose proof h3 as [Hok L]. apply crash_dirs_now in L as (LM & LF & Hcur).
  assert (Hs : Forall (fun argv => sized argv) (concat (g_segs g)) /\ Forall (fun argv => sized argv) tail).
  { pose proof (enc_sized H Hfit) as Hs. rewrite C2 in Hs. unfold before in Hs. rewrite <-app_assoc in Hs.
    apply Forall_app in Hs as [_ Hs]. by apply Forall_app in Hs. }
  destruct Hs as [Hs1 Hs2]. destruct (torn_prefix tail c Hs2 h5) as (m & t & M1 & M2 & M3 & M4).
  unfold load. pose proof (nm_next _ _ _ h1) as Hmax. pose proof (proj2 (proj2 (nm_base _ _ _ h1))) as Hseq.
  eapply read_manifest_wp; [exact LM|exact h1|by destruct (g_olds g)|]. intros next' Hn' Hseq'.
  assert (N' : named (g_b g) (g_olds g ++ [g_cur g]) next').
  { eapply named_next; [exact h1|lia|done]. }
  cbn [lay l_files] in LF. apply Forall_cons_1 in LF as [LB LF].
  eapply (load_base_wp _ _ (g_b g) (g_base g)); [done|done|exact LB|]. intros st size Hg.
  cbn [incrs_ with_bytes with_files make older_incr_bytes_ incr_bytes_].
  apply wp_bind. eapply (replay_olds_wp _ _ [g_cur g]); [done|done|exact C1|done|done|].
  intros older'. cbn [app]. eapply (replay_last_wp _ g next H tail dur c); [done|done|done|exact M2|done|].
  intros fs' St' Hi'. pose proof (holds_cut g next next' H tail dur c fs fs' m t Hh N' M1 M2 M4 St' Hi') as Hh'.
  unfold path. cbn [incrs_ with_bytes with_files make dir_ size_after_rewrite_ base_bytes_].
  rewrite last_snoc. cbn [fmap option_fmap option_map default]. fold (epath (g_cur g)).
  pose proof St' as [_ L']. apply crash_dirs_now in L' as (_ & _ & Hcur').
  eapply wp_open_append; [exact Hcur'|]. apply wp_ret. exists m. split_and!; [done|done|done|done|].
  split_and!; [exact Hh'| |simpl; lia].
  split; try done; cbn; [by rewrite app_nil_r|]. apply u64_small.
  assert (zlen (enc (take m tail)) <= zlen (enc H)).
  { rewrite C2, enc_app. rewrite <-(take_drop m tail) at 2. rewrite enc_app. zlens. }
  pose proof (zlen_nonneg (enc (take m tail))). lia.
Qed.
End restart.

(** ** The first file *)

Definition fresh_ghost (next : Z) (fd : ino) : ghost :=
  mkGhost (mkEntry (base_name next) next true) [] (mkEntry (incr_name (next + 1)) (next + 1) false) fd [] [].

Lemma fresh_named next fd :
  0 <= next -> next + 2 <= size_max ->
  named (g_b (fresh_ghost next fd)) (g_olds (fresh_ghost next fd) ++ [g_cur (fresh_ghost next fd)]) (next + 2).
Proof.
  intros Hn Hm. split; simpl; [split_and!; [done|done|lia|lia]| |apply NoDup_singleton|done].
  constructor; [|done]. simpl. split_and!; [done|done|lia|lia].
Qed.

Lemma fresh_holds next fd fs :
  0 <= next -> next + 2 <= size_max -> steady (lay (fresh_ghost next fd)) fs ->
  inodes fs !! fd = Some (mkInode [] 0) ->
  holds (fresh_ghost next fd) (next + 2) [] [] 0 [] 0 fs.
Proof.
  intros Hn Hm Hs Hi. split; [by apply fresh_named|done|done|done|done|done|].
  exists 0%nat. split_and!; simpl; lia.
Qed.

Lemma create_wp store pol fs :
  (forall rs, (Snapshot.write_file true true true rs store).1 = true ->
     (Snapshot.write_file true true true rs store).2 = snap_at []) ->
  fs_ok fs ->
  wp dir_syncs (fun _ => True) (create strerror store (make D pol))
    (fun '(err, a) fs' => err = None -> session_ok (mkSession a None [] 0) fs' /\ next_seq_ a = 3) fs.
Proof.
  intros Hdata Hok. unfold create. apply (wp_reads _ _ (Mkdir _)); [done|by intros ch; simpl; unfold guarded; destruct (c_errno ch)|].
  intros d. destruct (match d with Ok _ => None | Err e => _ end); [by apply wp_ret|].
  cbn [make next_seq_]. cbv zeta. unfold path. cbn [dir_ make name]. change (u64 (1 + 1)) with 2.
  apply wp_bind. eapply wp_mono; [by apply (save_wp store (snap_at []))|].
  intros [e|] fs1 (Hok1 & Hc1 & Hf); [by apply wp_ret|]. specialize (Hf eq_refl).
  apply wp_open_trunc; [done|intros e; by apply wp_ret|done|]. set (fd := next_ino fs1).
  pose proof (fs_ok_link_new (join D (incr_name 2)) (mkInode [] 0) fs1 Hok1) as Hok2.
  set (fs2 := link_new _ _ fs1) in *.
  assert (Hi : inodes fs2 !! fd = Some (mkInode [] 0)) by (unfold fs2; simpl; apply lookup_insert_eq).
  assert (Hcur : dir fs2 !! join D (incr_name 2) = Some fd)
    by (unfold fs2, link_new; rewrite dir_push; simpl; apply lookup_insert_eq).
  assert (Hb : file_is (inodes fs2) (join D (base_name 1)) (snap_at []) (dir fs2)).
  { unfold fs2, link_new. rewrite dir_push. simpl. apply file_is_link.
    { intros E. apply join_inj in E. by apply base_incr_neq in E. }
    eapply file_is_agree; [exact (fs_ok_dir _ Hok1)| |exact Hf]. intros i Hi'. by rewrite lookup_insert_ne by lia. }
  apply wp_bind. pose proof (fresh_named 1 fd ltac:(lia) ltac:(done)) as N.
  assert (R : reserved (kManifestName ++ &".tmp")) by (right; by left).
  assert (R' : reserved kManifestName) by (by left).
  eapply wp_mono; [apply (persist_manifest_wp _ fs2 None (lay (fresh_ghost 1 fd)))|].
  - done.
  - by eapply (reserved_not_named (fresh_ghost 1 fd)).
  - by eapply (reserved_not_named (fresh_ghost 1 fd)).
  - done.
  - done.
  - by intros k L.
  - by constructor.
  - done.
  - done.
  - done.
  - intros [err|] fs3 (Hok3 & K & Hr).
    { apply wp_close; [done|]. intros r. by apply wp_ret. }
    apply wp_reads; [done|done|]. intros size. apply wp_ret. intros _. split; [|done].
    exists (fresh_ghost 1 fd), [], [], 0%nat. split_and!; [|by split|done].
    apply (fresh_holds 1); [lia|done|by split|].
    cbn. rewrite (kp_inodes _ _ _ K); [done|]. by eapply (fs_ok_dir _ Hok2).
Qed.
End history.

(** ** Replacing the history *)

Lemma kept_named ts fs fs' p i n :
  fs_ok fs -> kept ts fs fs' -> dir fs !! p = Some i -> inodes fs !! i = Some n -> inodes fs' !! i = Some n.
Proof. intros Hok K Hp Hi. rewrite (kp_inodes _ _ _ K); [done|]. by eapply (fs_ok_dir _ Hok). Qed.

Lemma join_suffix d x : exists pre, join d x = pre ++ x.
Proof.
  unfold join. destruct (list.last d); [|by exists []]. destruct (bool_decide _); [by exists d|].
  exists (d ++ &"/"). by rewrite <-app_assoc.
Qed.

(** The temporary name of a snapshot ends in a digit and [.snap]. *)
Lemma save_temp_foreign snap g next q pid :
  named (g_b g) (g_olds g ++ [g_cur g]) next -> length (g_segs g) = length (g_olds g) ->
  foreign (save_temp q pid) (lay snap g).
Proof.
  intros N Hl. unfold save_temp. destruct (join_suffix (dirname q) (&"temp-" ++ to_string pid ++ &".snap")) as [pre ->].
  destruct (to_string_last pid) as (ds & d & -> & Hd).
  set (x := pre ++ &"temp-" ++ (ds ++ [d]) ++ &".snap").
  assert (E1 : x = (pre ++ &"temp-" ++ ds) ++ (d :: &".snap")) by (unfold x; by rewrite <-!app_assoc).
  assert (E2 : x = (pre ++ &"temp-" ++ ds ++ [d] ++ &".") ++ &"snap") by (unfold x; by rewrite <-!app_assoc).
  assert (Hb : forall s, x <> join D (base_name s)).
  { intros s. rewrite E1. destruct (join_suffix D (base_name s)) as [pre' ->]. unfold base_name.
    change (&".base.snap") with (&".bas" ++ &"e.snap"). rewrite !app_assoc. apply suffix_neq; [done|].
    intros [= ->]. done. }
  assert (Hi : forall s, x <> join D (incr_name s)).
  { intros s. rewrite E2. destruct (join_suffix D (incr_name s)) as [pre' ->]. unfold incr_name.
    change (&".incr.aof") with (&".incr" ++ &".aof"). rewrite !app_assoc. by apply suffix_neq. }
  assert (Hm : x <> mpath).
  { rewrite E2. unfold mpath. destruct (join_suffix D kManifestName) as [pre' ->].
    change kManifestName with (&"appendonly.aof.mani" ++ &"fest"). rewrite !app_assoc. by apply suffix_neq. }
  destruct N as [(_ & N1 & _) N2 _ _]. split; [done|]. unfold names. rewrite lay_files by done.
  apply Forall_app in N2 as [N2 [(_ & N3 & _) _]%Forall_cons_1]. simpl. unfold epath.
  intros [E|[E|E]%elem_of_cons]%elem_of_cons; [rewrite N3 in E; by apply (Hi _ E)|rewrite N1 in E; by apply (Hb _ E)|].
  apply list_elem_of_fmap in E as (e & E & Hin). rewrite Forall_forall in N2.
  destruct (N2 e (proj1 (list_elem_of_In _ _) Hin)) as (_ & N4 & _). rewrite N4 in E. by apply (Hi _ E).
Qed.

(** The files of the old log are none of the new one's. *)
Lemma replaced_foreign snap g next fd e :
  named (g_b g) (g_olds g ++ [g_cur g]) next -> next + 2 <= size_max -> e ∈ g_b g :: g_olds g ++ [g_cur g] ->
  foreign (epath e) (lay snap (fresh_ghost next fd)).
Proof.
  intros [(_ & B2 & B3) N2 N3 N4] Hm He. rewrite Forall_forall in N2.
  assert (Hcase : (exists s, name e = base_name s /\ 0 <= s < next) \/ (exists s, name e = incr_name s /\ 0 <= s < next)).
  { apply elem_of_cons in He as [->|He]; [left; by eexists|right].
    destruct (N2 e (proj1 (list_elem_of_In _ _) He)) as (_ & ? & ?). by eexists. }
  assert (Hnr : ~ reserved (name e)).
  { destruct Hcase as [(s & -> & _)|(s & -> & _)]; [apply base_not_reserved|apply incr_not_reserved]. }
  split; [intros E; apply epath_inj_name in E; apply Hnr; rewrite E; by left|].
  apply not_named; [done| |constructor; [|done]]; simpl; destruct Hcase as [(s & -> & Hs)|(s & -> & Hs)]; intros E.
  - apply base_name_inj in E; lia.
  - symmetry in E. by apply base_incr_neq in E.
  - by apply base_incr_neq in E.
  - apply incr_name_inj in E; lia.
Qed.

Section reset.
(** The dataset before and after; the old history and the part of it on the
    disk. *)
Context (snap0 snap1 : list Args -> bytes) (H : list Args) (dur : nat).

Definition crash_either (fs : FS) : Prop :=
  fs_ok fs /\
  crash_dirs fs (fun d => describes snap0 H dur (inodes fs) d \/ describes snap1 [] 0 (inodes fs) d).

Lemma either_old fs : crash_safe snap0 H dur fs -> crash_either fs.
Proof. intros [Hok Hs]. split; [done|]. eapply crash_dirs_mono; [exact Hs|]. by left. Qed.

Lemma either_new fs : crash_safe snap1 [] 0 fs -> crash_either fs.
Proof. intros [Hok Hs]. split; [done|]. eapply crash_dirs_mono; [exact Hs|]. by right. Qed.

Context (g : ghost) (next : Z) (hist tail : list Args) (c : bytes) (s : nat).
Context (Hpre : hist `prefix_of` H) (Hnext : next + 2 <= size_max).
Abbreviation old := (holds snap0 g next hist tail dur c s).
Abbreviation new fd := (holds snap1 (fresh_ghost next fd) (next + 2) [] [] 0 [] 0).

Lemma old_either fs : old fs -> crash_either fs.
Proof. intros Hh. apply either_old. by eapply holds_safe. Qed.

Lemma new_either fd fs : new fd fs -> crash_either fs.
Proof. intros Hh. apply either_new. by eapply holds_safe. Qed.

Lemma old_next fs : old fs -> 0 <= next.
Proof. intros [[(_ & _ & ?) _ _ _] _ _ _ _ _ _]. lia. Qed.

Lemma reset_save_wp store fs :
  (forall rs, (Snapshot.write_file true true true rs store).1 = true ->
     (Snapshot.write_file true true true rs store).2 = snap1 []) ->
  old fs ->
  wp dir_syncs crash_either (save store (join D (base_name next)))
    (fun r fs' => (old fs' /\ children fs' = children fs) /\
       (r = None -> file_is (inodes fs') (join D (base_name next)) (snap1 []) (dir fs'))) fs.
Proof.
  intros Hdata Hh. pose proof Hh as [h1 h2 h3 _ _ _ _].
  pose proof (fun pid => save_temp_foreign snap0 g next (join D (base_name next)) pid h1 (proj1 h2)) as Ft.
  pose proof (next_base_foreign snap0 g next h1 (proj1 h2)) as Fb.
  eapply wp_mono; [eapply wp_and|].
  - apply (save_keeps _ _ old); [apply old_either| | | | |done].
    + intros fs' pid n Ho. by eapply holds_link.
    + intros fs' pid Ho. by apply holds_unlink.
    + intros fs' pid Ho. by apply holds_rename.
    + intros fs' Ho. by apply holds_sync.
  - eapply (save_wp store (snap1 []) Hdata), h3.
  - intros r fs' (A & B & C & E). by split_and!.
Qed.

(** The new manifest replaces the old one, or does not. *)
Section installing.
Context (fd : ino) (fs : FS) (H0 : old fs).
Context (Hb : file_is (inodes fs) (join D (base_name next)) (snap1 []) (dir fs)).
Context (Hcur : dir fs !! join D (incr_name (next + 1)) = Some fd).
Context (Hi : inodes fs !! fd = Some (mkInode [] 0)).

Lemma old_kept fs' :
  kept [tpath; mpath] fs fs' -> steady (lay snap0 g) fs' -> old fs'.
Proof.
  intros K Hs. pose proof H0 as [h1 h2 [Hok HL] h4 h5 h6 h7]. split; [done|done|done| |done..].
  apply crash_dirs_now in HL as (_ & _ & Hc). by eapply kept_named.
Qed.

Lemma new_kept fs' :
  kept [tpath; mpath] fs fs' -> steady (lay snap1 (fresh_ghost next fd)) fs' -> new fd fs'.
Proof.
  intros K Hs. pose proof H0 as [_ _ [Hok _] _ _ _ _]. apply fresh_holds; [by eapply old_next|done|done|].
  by eapply kept_named.
Qed.

Lemma install_between fs' :
  in_between fs (Some (lay snap0 g)) (lay snap1 (fresh_ghost next fd)) fs' -> crash_either fs'.
Proof.
  intros (Hok & K & Hl). split; [done|]. intros k. pose proof H0 as [h1 h2 [Hok0 HL] h4 h5 h6 h7].
  apply crash_dirs_now in HL as (_ & _ & Hc). destruct (Hl k) as [Hk|Hk]; [left|right].
  - eapply (describes_intro snap0 g); [done|done|by apply Hk| |done..]. by eapply kept_named.
  - eapply (describes_intro snap1 (fresh_ghost next fd) (next + 2) [] [] 0 [] 0);
      [by eapply fresh_named; [eapply old_next|]|done|exact Hk| |done|done| |done].
    + by eapply (kept_named _ _ _ _ fd).
    + exists 0%nat. split_and!; simpl; lia.
Qed.

Lemma install_wp a :
  dir_ a = D -> base_ a = Some (g_b (fresh_ghost next fd)) -> incrs_ a = [g_cur (fresh_ghost next fd)] ->
  wp dir_syncs crash_either (persist_manifest strerror a)
    (fun r fs' => children fs' = children fs /\ match r with None => new fd fs' | Some _ => old fs' end) fs.
Proof.
  intros A1 A2 A3. pose proof H0 as [h1 h2 h3 h4 h5 h6 h7].
  pose proof (fresh_named next fd (old_next _ H0) Hnext) as N.
  assert (R : reserved (kManifestName ++ &".tmp")) by (right; by left).
  assert (R' : reserved kManifestName) by (by left).
  eapply wp_mono.
  - apply (persist_manifest_wp _ fs (Some (lay snap0 g)) (lay snap1 (fresh_ghost next fd)));
      [| | |apply install_between|apply h3|intros k L [= <-]; apply h3|by constructor|done|done|].
    + intros L [= <-]. eapply reserved_not_named; [done|apply h2|done].
    + by eapply reserved_not_named.
    + by eapply reserved_not_named.
    + simpl. by rewrite A2, A3.
  - intros r fs' (Hok & K & Hr). split; [apply K|]. destruct r.
    + apply old_kept; [done|]. split; [done|]. intros k. by apply Hr.
    + apply new_kept; [done|]. by split.
Qed.
End installing.

(** [create] over an existing log. *)
Lemma create_over_wp store a fs :
  (forall rs, (Snapshot.write_file true true true rs store).1 = true ->
     (Snapshot.write_file true true true rs store).2 = snap1 []) ->
  dir_ a = D -> next_seq_ a = next -> old fs ->
  wp dir_syncs crash_either (create strerror store a)
    (fun '(r, a') fs' =>
       match r with
       | Some _ => old fs' /\ exists b i, a' = with_files a b i next
       | None => exists fd, new fd fs' /\ agrees (fresh_ghost next fd) (with_buf a' []) [] [] /\
                   next_seq_ a' = next + 2
       end) fs.
Proof.
  intros Hdata HD En Hh. pose proof (old_next _ Hh) as Hn. unfold create.
  apply (wp_reads _ _ (Mkdir _)); [by apply old_either|by intros ch; simpl; unfold guarded; destruct (c_errno ch)|].
  assert (Ea : a = with_files a (base_ a) (incrs_ a) next) by (rewrite <-En; by destruct a).
  intros d. destruct (match d with Ok _ => None | Err e => _ end); [apply wp_ret; by eauto|].
  cbv zeta. unfold path. rewrite HD, En. cbn [name].
  assert (u64 (next + 1) = next + 1) as -> by (apply u64_small; unfold size_max in Hnext; lia).
  assert (E2 : u64 (next + 2) = next + 2) by (apply u64_small; unfold size_max in Hnext; lia).
  apply wp_bind. eapply wp_mono; [by apply reset_save_wp|]. intros [e|] fs1 [[H1 Hc1] Hf]; [apply wp_ret; by eauto|].
  specialize (Hf eq_refl). pose proof H1 as [h1 h2 [Hok1 _] _ _ _ _].
  assert (Fi : foreign (join D (incr_name (next + 1))) (lay snap0 g)).
  { apply (next_incr_foreign snap0 g (next + 1)); [|apply h2]. destruct h1 as [(? & ? & ?) N2 N3 N4].
    split; [split_and!; [done|done|lia|lia]| |done|lia]. eapply Forall_impl; [|exact N2]. simpl. intros x (? & ? & ?).
    split_and!; [done|done|lia|lia]. }
  pose proof (fun n => holds_link _ _ _ _ _ _ _ _ _ _ n H1 Fi) as H2.
  apply wp_open_trunc; [by apply old_either|intros e; apply wp_ret; by eauto|by apply old_either|].
  set (fd := next_ino fs1). specialize (H2 (mkInode [] 0)). set (fs2 := link_new _ _ fs1) in *.
  apply wp_bind. eapply wp_mono; [apply (install_wp fd fs2 H2)|].
  - unfold fs2, link_new. rewrite dir_push. simpl. apply file_is_link.
    { intros E. apply join_inj in E. by apply base_incr_neq in E. }
    eapply file_is_agree; [exact (fs_ok_dir _ Hok1)| |exact Hf]. intros i Hi'. by rewrite lookup_insert_ne by lia.
  - unfold fs2, link_new. rewrite dir_push. simpl. apply lookup_insert_eq.
  - unfold fs2. simpl. apply lookup_insert_eq.
  - done.
  - done.
  - done.
  - intros [err|] fs3 [Hc3 Hr].
    { apply wp_close; [by apply old_either|]. intros r. apply wp_ret. by eauto. }
    apply wp_reads; [by eapply new_either|done|]. intros size. apply wp_ret. exists fd.
    cbn. rewrite E2. split_and!; [done|by split|done].
Qed.

(** [reset]: a crash finds the old log or the new one, and the new one is in use
    if the call reports success. *)
Lemma reset_wp store a fs :
  (forall rs, (Snapshot.write_file true true true rs store).1 = true ->
     (Snapshot.write_file true true true rs store).2 = snap1 []) ->
  next_seq_ a = next -> agrees g a c tail -> old fs ->
  wp dir_syncs crash_either (reset strerror store a)
    (fun '(r, a') fs' =>
       match r with
       | Some _ => old fs' /\ agrees g a' c tail
       | None => session_ok snap1 (mkSession a' None [] 0) fs' /\ next_seq_ a' = next + 2
       end) fs.
Proof.
  intros Hdata En Ha Hh. pose proof Ha as [A1 A2 A3 A4 A5 A6]. unfold reset.
  assert (Hgo : forall (f : unit -> prog (option bytes * AppendOnlyFile)) Q,
    wp dir_syncs crash_either (f tt) Q fs ->
    wp dir_syncs crash_either ((if has_worker a then call Wait_idle else mret tt) ≫= f) Q fs).
  { intros f Q Hf. destruct (has_worker a); [|exact Hf]. apply wp_reads; [by apply old_either|done|]. by intros []. }
  apply Hgo, wp_bind. eapply wp_mono; [by apply create_over_wp|]. intros [[err|] a'] fs1.
  { intros [H1 (b & i & ->)]. apply wp_ret. split; [done|]. by split. }
  intros (fd & H1 & G1 & E1). pose proof Hh as [h1 _ _ _ _ _ _]. rewrite A2, A3, A4. unfold path. rewrite A1.
  apply wp_close; [by eapply new_either|]. intros _.
  eapply (wp_weaken _ (crash_safe snap1 [] 0)); [apply either_new|].
  eapply unlink_all_wp; [done| |exact H1|].
  { constructor; [|done]. apply (replaced_foreign snap1 g _ fd (g_b g)); [done|done|by left]. }
  intros fs2 H2 _. eapply unlink_all_wp; [done| |exact H2|].
  { apply Forall_forall. intros p Hp. apply in_map_iff in Hp as (e & <- & Hin).
    apply (replaced_foreign snap1 g _ fd e); [done|done|]. right. by apply list_elem_of_In. }
  intros fs3 H3 _. pose proof (holds_sync _ _ _ _ _ _ _ _ _ H3) as H4.
  apply wp_fsync_dir; [by eapply holds_safe|]. apply wp_ret. split; [|done].
  exists (fresh_ghost next fd), [], [], 0%nat. cbn [s_aof s_hist s_acked s_child]. split_and!; [|by destruct G1|done].
  change (next_seq_ (with_sync _ _ _)) with (next_seq_ a'). by rewrite E1.
Qed.
End reset.

(** ** A sync of the directory that fails *)

Section orphan.
(** The manifest lists a file that is not there, and the file being appended to
    is not the manifest. *)
Record orphaned (a : AppendOnlyFile) (fs : FS) : Prop := {
  or_listed : exists b es next e, named b es next /\ e ∈ es /\ dir fs !! epath e = None /\
    file_is (inodes fs) mpath (manifest_text (Some b) es) (dir fs);
  or_other : exists i, fd_ a = Some i /\ dir fs !! mpath <> Some i
}.

Lemma wp_open_read_any env p {B} (f : _ -> prog B) Q fs :
  (forall r, (dir fs !! p = None -> exists e, r = Err e) -> wp env (fun _ => True) (f r) Q fs) ->
  wp env (fun _ => True) (call (Open_read p) ≫= f) Q fs.
Proof.
  intros Hf ch _. simpl. unfold guarded. destruct (c_errno ch) as [e|]; simpl; (split; [done|]); apply Hf.
  - by exists e.
  - intros ->. by eexists.
Qed.

Lemma wp_truncate_any env p len {B} (f : _ -> prog B) Q fs :
  (forall r fs', dir fs' = dir fs -> wp env (fun _ => True) (f r) Q fs') ->
  wp env (fun _ => True) (call (Truncate p len) ≫= f) Q fs.
Proof.
  intros Hf ch _. simpl. unfold guarded. destruct (c_errno ch); [by split; [|apply Hf]|].
  by destruct (dir fs !! p); (split; [done|]); apply Hf.
Qed.

Lemma replay_incr_dir env a f last fs :
  wp env (fun _ => True) (replay_incr strerror a f last)
    (fun '(err, _, _) fs' => dir fs' = dir fs /\ (dir fs !! path a f = None -> err <> None)) fs.
Proof.
  unfold replay_incr. apply wp_open_read_any. intros [[[text rs] errno]|e] Hr; [|by apply wp_ret].
  assert (Hn : dir fs !! path a f = None -> False) by (intros H; by destruct (Hr H)).
  assert (Hq : forall (r : option bytes * list Args * Z) fs', dir fs' = dir fs ->
    wp env (fun _ => True) (mret r)
      (fun '(err, _, _) fs' => dir fs' = dir fs /\ (dir fs !! path a f = None -> err <> None)) fs')
    by (intros [[err cs] n] fs' Ed; apply wp_ret; by split).
  destruct (read_chunks_of rs text) as [chunks err].
  destruct (Parser.read_chunks _ chunks) as [[cmds corrupt] parser]. cbv zeta.
  destruct corrupt; [by apply Hq|]. destruct err; [by apply Hq|].
  destruct (0 <? _); [|by apply Hq]. destruct (negb last); [by apply Hq|].
  apply wp_truncate_any. intros [|] fs' Ed; by apply Hq.
Qed.

Lemma replay_missing_wp env a es : forall cmds older last fs,
  dir_ a = D -> (exists e, e ∈ es /\ dir fs !! epath e = None) ->
  wp env (fun _ => True) (replay_incrs strerror a es cmds older last) (fun '(err, _, _, _) _ => err <> None) fs.
Proof.
  induction es as [|f es IH]; intros cmds older last fs HD (e & He & Hd); [by apply elem_of_nil in He|].
  cbn [replay_incrs]. cbv zeta. apply wp_bind. eapply wp_mono; [apply replay_incr_dir|].
  intros [[[err|] cs] n] fs' [Ed Hm]; [by apply wp_ret|].
  assert (exists e, e ∈ es /\ dir fs' !! epath e = None).
  { exists e. rewrite Ed. split; [|done]. apply elem_of_cons in He as [->|He]; [|done].
    exfalso. apply Hm; [|done]. unfold path. by rewrite HD. }
  destruct (bool_decide (es = [])); by apply IH.
Qed.

(** The log is refused. *)
Lemma load_orphaned_wp pol a store fs :
  orphaned a fs ->
  wp reads_ok (fun _ => True) (load strerror (make D pol) store) (fun '(err, _, _, _) _ => err <> None) fs.
Proof.
  intros [(b & es & next & e & N & He & Hd & Hm) _]. unfold load.
  eapply read_manifest_wp; [exact Hm|exact N|by intros ->; apply elem_of_nil in He|]. intros next' _ _.
  unfold load_base. cbn [base_ with_files make incrs_]. apply wp_bind. unfold load_snapshot. apply wp_bind.
  apply wp_open_read_any. intros r _. destruct (match r with Ok _ => _ | Err _ => _ end) as [file errno].
  destruct (Snapshot.load file store) as [[| |why] st]; [| |]; apply wp_ret; [|by apply wp_ret..].
  apply wp_reads; [done|done|]. intros size. apply wp_ret, wp_bind.
  eapply wp_mono; [apply replay_missing_wp; [done|by exists e]|].
  intros [[[[err|] cmds] older] last] fs' Hr; [by apply wp_ret|done].
Qed.

(** Writing to the current file changes nothing else. *)
Section appending.
Context (env : choice -> Prop) (i : ino) (P : FS -> Prop) (HP : forall fs n, P fs -> P (set_inode i n fs)).
Abbreviation keeps p := (wp env (fun _ => True) p (fun '(_, a') fs' => fd_ a' = Some i /\ P fs')).

Lemma flush_write_keeps a fs : fd_ a = Some i -> P fs -> keeps (flush_write a) fs.
Proof.
  intros Hi Hp. unfold flush_write. assert (Ef : the_fd a = i) by (unfold the_fd; by rewrite Hi).
  destruct (buf_ a) as [|b0 buf0] eqn:Eb; [by apply wp_ret|]. rewrite <-Eb. rewrite Ef.
  apply wp_write_all. intros k e _. cbv zeta. split; [done|]. set (fs1 := set_inode _ _ fs).
  assert (P1 : P fs1) by (by apply HP). destruct (_ <? _)%nat.
  - destruct (0 <? k)%nat; [|by apply wp_ret]. change (the_fd (with_errno a e)) with (the_fd a). rewrite Ef.
    apply wp_ftruncate; [done|intros e'; by apply wp_ret|]. split; [done|]. apply wp_ret. split; [done|by apply HP].
  - unfold flush_sync. set (a1 := with_sync _ _ _). change (the_fd a1) with (the_fd a). rewrite Ef.
    destruct (bool_decide _); [|by apply wp_ret]. apply wp_fsync; [done|intros e'; by apply wp_ret|].
    split; [done|]. apply wp_ret. split; [done|by apply HP].
Qed.

Lemma flush_keeps a fs : fd_ a = Some i -> P fs -> keeps (flush a) fs.
Proof.
  intros Hi Hp. unfold flush. apply wp_bind. eapply wp_mono; [by apply flush_write_keeps|].
  intros [[] a1] fs1 [H1 P1]; cbn [negb]; [|by apply wp_ret]. destruct (has_worker a1 && unsynced_ a1); [|by apply wp_ret].
  apply wp_reads; [done|done|]. intros now. destruct (_ <=? _); [|by apply wp_ret].
  apply wp_reads; [done|done|]. intros []; by apply wp_ret.
Qed.

Lemma flush_and_sync_keeps a fs : fd_ a = Some i -> P fs -> keeps (flush_and_sync a) fs.
Proof.
  intros Hi Hp. unfold flush_and_sync. apply wp_bind. eapply wp_mono; [by apply flush_keeps|].
  intros [[] a1] fs1 [H1 P1]; cbn [negb]; [|by apply wp_ret].
  assert (Hs : keeps (r ← call (Fsync (the_fd a1));
    match r with
    | Err e => mret (false, with_errno a1 e)
    | Ok _ => mret (true, with_sync a1 false (last_fsync_ a1))
    end) fs1).
  { apply wp_fsync; [done|intros e; by apply wp_ret|]. split; [done|]. apply wp_ret. split; [done|].
    unfold the_fd. rewrite H1. by apply HP. }
  destruct (has_worker a1); [|exact Hs]. apply wp_reads; [done|done|]. intros []. exact Hs.
Qed.
End appending.

(** Where nothing fails, everything is written. *)
Lemma flush_works a fs :
  wp works (fun _ => True) (flush_and_sync a) (fun '(ok, _) _ => ok = true) fs.
Proof.
  assert (Hw : wp works (fun _ => True) (flush_write a) (fun '(ok, _) _ => ok = true) fs).
  { unfold flush_write. destruct (buf_ a) as [|b0 buf0] eqn:Eb; [by apply wp_ret|]. rewrite <-Eb.
    apply works_write_all. intros e. rewrite Nat.ltb_irrefl. unfold flush_sync.
    destruct (bool_decide _); [|by apply wp_ret]. apply works_fsync. by apply wp_ret. }
  unfold flush_and_sync, flush. apply wp_bind, wp_bind. eapply wp_mono; [exact Hw|].
  intros [ok a1] fs1 ->. cbn [negb].
  assert (Hs : forall a fs, wp works (fun _ => True)
    (_ ← (if has_worker a then call Wait_idle else mret tt);
     r ← call (Fsync (the_fd a));
     match r with
     | Err e => mret (false, with_errno a e)
     | Ok _ => mret (true, with_sync a false (last_fsync_ a))
     end) (fun '(ok, _) _ => ok = true) fs).
  { intros a' fs'. destruct (has_worker a'); [apply wp_reads; [done|done|]; intros []|];
      apply works_fsync; by apply wp_ret. }
  destruct (has_worker a1 && unsynced_ a1); [|by apply wp_ret, Hs].
  apply wp_reads; [done|done|]. intros now. destruct (_ <=? _); [|by apply wp_ret, Hs].
  apply wp_reads; [done|done|]. intros []; by apply wp_ret, Hs.
Qed.

(** The new manifest is in place although its installation is reported to have
    failed. *)
Lemma persist_works a fs :
  dir_ a = D ->
  wp works (fun _ => True) (persist_manifest strerror a)
    (fun r fs' => r <> None ->
       file_is (inodes fs') mpath (manifest_text (base_ a) (incrs_ a)) (dir fs') /\
       dir fs' !! mpath = Some (next_ino fs)) fs.
Proof.
  intros HD. pose proof tpath_mpath as Hne. unfold persist_manifest, path. rewrite HD. fold tpath mpath.
  set (text := manifest_text _ _). apply works_open_trunc. set (i := next_ino fs).
  apply wp_bind, works_write_all. intros e. rewrite Nat.eqb_refl. unfold i. rewrite !set_new_inode. fold i.
  assert (E1 : forall n, inode_of (link_new tpath n fs) i = n)
    by (intros n; unfold inode_of, i; simpl; by rewrite lookup_insert_eq).
  rewrite !E1. cbn [content synced app]. apply wp_bind, works_fsync. cbv zeta. unfold i. rewrite set_new_inode. fold i.
  rewrite E1. cbn [content]. apply wp_ret, works_close, wp_ret, wp_bind. unfold durable_rename.
  set (fs1 := link_new tpath _ fs).
  assert (Hd : dir fs1 !! tpath = Some i) by (unfold fs1, link_new; rewrite dir_push; simpl; apply lookup_insert_eq).
  apply works_rename; [by eexists|]. set (fs2 := push _ fs1).
  assert (Hd2 : dir fs2 !! mpath = Some i).
  { unfold fs2. rewrite dir_push. simpl. rewrite Hd. apply lookup_insert_eq. }
  assert (Hi2 : inodes fs2 !! i = Some (mkInode text (length text))) by (unfold fs2, fs1; simpl; apply lookup_insert_eq).
  apply works_fsync_dir; [|by apply wp_ret]. intros err. apply works_unlink, wp_ret. intros _. rewrite dir_push. simpl.
  assert (Hd3 : delete tpath (dir fs2) !! mpath = Some i) by (by rewrite lookup_delete_ne). split; [|done].
  by exists i.
Qed.

(** [begin_rewrite] removes the file its manifest lists. *)
Lemma begin_rewrite_orphans snap H g hist tail dur a c s fs :
  zlen (enc H) < 2 ^ 64 -> hist `prefix_of` H -> next_seq_ a < size_max ->
  holds snap g (next_seq_ a) hist tail dur c s fs -> agrees g a c tail ->
  wp works (fun _ => True) (begin_rewrite strerror a) (fun '(r, a') fs' => r <> None -> orphaned a' fs') fs.
Proof.
  intros Hfit Hpre Hlt Hh Ha. unfold begin_rewrite. apply wp_bind.
  eapply wp_mono; [eapply (wp_weaken _ (crash_safe snap H dur)); [done|]; eapply wp_and;
    [by eapply flush_and_sync_wp|apply flush_works]|].
  intros [ok a1] fs1 [(c1 & s1 & W1 & W2 & W3 & _) ->]. cbn [negb]. cbv zeta.
  unfold path. rewrite (ag_dir _ _ _ _ W2), W3. cbn [name]. apply works_open_trunc.
  set (new := mkEntry (incr_name (next_seq_ a)) (next_seq_ a) false). fold (epath new).
  pose proof W1 as [h1 h2 [Hok HL] _ _ _ _]. apply crash_dirs_now in HL as (_ & _ & Hcur).
  pose proof (next_incr_foreign snap g _ h1 (proj1 h2)) as [Hm _].
  set (fs2 := link_new _ _ fs1). apply wp_bind. eapply wp_mono; [apply persist_works; apply W2|].
  intros [err|] fs3 HF; cbv beta iota.
  2: { destruct (fd_ a1) as [i|]; cbn [opt_close]; [apply wp_bind; apply works_close|]; by apply wp_ret. }
  destruct (HF ltac:(done)) as [Hf Hd]. apply works_close, works_unlink, wp_ret. intros _. split.
  - exists (g_b g), ((g_olds g ++ [g_cur g]) ++ [new]), (next_seq_ a + 1), new. split_and!.
    + apply (named_rotate g (next_seq_ a) tail 0%nat h1 Hlt).
    + apply elem_of_app. right. by left.
    + rewrite dir_push. simpl. apply lookup_delete_eq.
    + rewrite dir_push. simpl. apply file_is_unlink; [done|].
      cbn [base_ incrs_ with_files] in Hf. by rewrite (ag_base _ _ _ _ W2), (ag_incrs _ _ _ _ W2) in Hf.
  - exists (g_fd g). split; [apply W2|]. rewrite dir_push. simpl. rewrite lookup_delete_ne by done. rewrite Hd.
    intros [= E]. pose proof (proj1 (fs_ok_dir _ Hok) _ _ Hcur) as Hb. unfold fs2 in E. cbn in E, Hb. lia.
Qed.

(** Going on with the file does not bring the other one back. *)
Definition writing (o : op) : Prop := match o with OFeed _ | OFlush | OSync => True | _ => False end.

Lemma orphaned_ops env snap os : forall S fs,
  Forall writing os -> orphaned (s_aof S) fs ->
  wp env (fun _ => True) (do_ops snap os S) (fun S' fs' => orphaned (s_aof S') fs') fs.
Proof.
  induction os as [|o os IH]; intros S fs Hos HO; cbn [do_ops]; [by apply wp_ret|].
  apply Forall_cons_1 in Hos as [Ho Hos]. apply wp_bind. destruct HO as [Hl (i & Hi & Hn)].
  set (P := fun fs => (exists b es next e, named b es next /\ e ∈ es /\ dir fs !! epath e = None /\
    file_is (inodes fs) mpath (manifest_text (Some b) es) (dir fs)) /\ dir fs !! mpath <> Some i).
  assert (HP : forall fs n, P fs -> P (set_inode i n fs)).
  { intros fs' n [(b & es & nx & e & ? & ? & ? & ?) Hn']. split; [|done]. exists b, es, nx, e.
    split_and!; [done|done|done|]. by apply file_is_inode. }
  assert (Hnext : forall S' fs', fd_ (s_aof S') = Some i -> P fs' ->
    wp env (fun _ => True) (do_ops snap os S') (fun S' fs' => orphaned (s_aof S') fs') fs').
  { intros S' fs' Hi' [P1 P2]. apply IH; [done|]. split; [done|]. by exists i. }
  destruct o; cbn [writing] in Ho; try done; cbn [do_op]; [by apply wp_ret, Hnext| |].
  - apply wp_bind. eapply wp_mono; [by apply (flush_keeps _ i P)|]. intros [ok a'] fs' [? ?]. by apply wp_ret, Hnext.
  - apply wp_bind. eapply wp_mono; [by apply (flush_and_sync_keeps _ i P)|]. intros [ok a'] fs' [? ?]. by apply wp_ret, Hnext.
Qed.
End orphan.
End layout.

End Aof.

Module AofClaims.
Import Sys Aof.

(** The keys of [s] that have expired neither when it was saved nor at [t], with
    their values and deadlines, are the keys of [s']. *)
Definition restores (s : KvStore) (t : Z) (s' : KvStore) : Prop :=
  forall k,
    let keep := SnapshotClaims.alive (Z.max (Store.reading s) t) k (Store.abstract s) in
    Store.vals (Store.abstract s') !! k = (if keep then Store.vals (Store.abstract s) !! k else None) /\
    Store.ttls (Store.abstract s') !! k = (if keep then Store.ttls (Store.abstract s) !! k else None).

(** The dataset as a function of the commands executed so far. *)
Definition saveable (data_at : list Args -> KvStore) : Prop :=
  forall h, Store.wf (data_at h) /\ SnapshotClaims.storable (Store.abstract (data_at h)).

Definition snapshots (data_at : list Args -> KvStore) (h : list Args) : bytes :=
  Snapshot.file_of (Snapshot.saved (data_at h)).

Lemma snapshots_load data_at max ep t rng h rs :
  saveable data_at -> Forall (fun x => x <> Snapshot.RError) rs ->
  exists st, Snapshot.load (Snapshot.Opened (snapshots data_at h) rs)
               (Store.make max ep (fun _ => t) rng) = (Snapshot.kOk, st) /\ restores (data_at h) t st.
Proof.
  intros Hd Hrs. destruct (Hd h) as [W Hs].
  pose proof (SnapshotClaims.load_saved (data_at h) max ep t rng rs W Hs Hrs) as Hl. unfold snapshots.
  destruct (Snapshot.load _ _) as [res st]. destruct Hl as (-> & _ & Hk). by exists st.
Qed.

Lemma snapshots_written data_at rs :
  (Snapshot.write_file true true true rs (data_at [])).1 = true ->
  (Snapshot.write_file true true true rs (data_at [])).2 = snapshots data_at [].
Proof.
  pose proof (Snapshot.write_file_spec true true true rs (data_at [])) as H.
  destruct (Snapshot.write_file _ _ _ _ _). intros E. by apply H.
Qed.

(** A server's use of the file over the datasets it holds: the commands of the
    current one, and its replacement by another, as [replace_dataset] does it: a
    running child is killed, and the file is reset to the new dataset.  A reset
    that fails ends the run. *)
Record era := mkEra {
  e_data : list Args -> KvStore;
  e_session : session
}.

Inductive use := Use (o : op) | Replace (data : list Args -> KvStore).

Definition do_use (strerror : Z -> bytes) (u : use) (E : era) : prog (option era) :=
  match u with
  | Use o =>
      S ← do_op strerror (snapshots (e_data E)) o (e_session E);
      mret (Some (mkEra (e_data E) S))
  | Replace data =>
      S ← do_op strerror (snapshots (e_data E)) OKill (e_session E);
      '(r, a) ← reset strerror (data []) (s_aof S);
      mret (match r with None => Some (mkEra data (mkSession a None [] 0)) | Some _ => None end)
  end.

Fixpoint do_uses (strerror : Z -> bytes) (us : list use) (E : era) : prog (option era) :=
  match us with
  | [] => mret (Some E)
  | u :: us =>
      r ← do_use strerror u E;
      match r with Some E => do_uses strerror us E | None => mret None end
  end.

(** The dataset can be saved and the file describes it. *)
Definition era_ok (D : bytes) (E : era) (fs : FS) : Prop :=
  saveable (e_data E) /\ session_ok D (snapshots (e_data E)) (e_session E) fs.

Definition fed_by (u : use) : list Args := match u with Use o => fed o | Replace _ => [] end.

Definition use_ok (u : use) : Prop := match u with Use _ => True | Replace data => saveable data end.

(** The counters do not wrap around: so many bytes of commands and so many uses
    are left. *)
Definition room (E : era) (us : list use) : Prop :=
  zlen (enc (s_hist (e_session E) ++ concat (fed_by <$> us))) < 2 ^ 64 /\
  next_seq_ (s_aof (e_session E)) + 3 * Z.of_nat (length us) <= size_max.

(** What a crash inside [u] may find. *)
Definition stops (D : bytes) (u : use) (E : era) (fs : FS) : Prop :=
  fs_ok fs /\
  crash_dirs fs (fun d =>
    describes D (snapshots (e_data E)) (s_hist (e_session E) ++ fed_by u) (s_acked (e_session E)) (inodes fs) d \/
    exists data, u = Replace data /\ describes D (snapshots data) [] 0 (inodes fs) d).

Section uses.
Context (strerror : Z -> bytes) (D : bytes).

Lemma era_stops u E fs : era_ok D E fs -> stops D u E fs.
Proof.
  intros [_ HS]. destruct (session_safe D _ (s_hist (e_session E) ++ fed_by u) _ _ HS) as [Hok Hs]; [by eexists|].
  split; [done|]. eapply crash_dirs_mono; [exact Hs|]. by left.
Qed.

Lemma do_use_wp u us E fs :
  era_ok D E fs -> use_ok u -> room E (u :: us) ->
  wp dir_syncs (stops D u E) (do_use strerror u E)
    (fun r fs' => forall E', r = Some E' -> era_ok D E' fs' /\ room E' us) fs.
Proof.
  intros [Hd HS] Hu [R1 R2]. cbn [fmap list_fmap concat length] in R1, R2.
  set (H := s_hist (e_session E) ++ fed_by u).
  assert (Hfit : zlen (enc H) < 2 ^ 64).
  { rewrite app_assoc, enc_app in R1. unfold zlen in *. rewrite length_app in R1. fold H in R1. lia. }
  assert (Hold : forall fs, crash_safe D (snapshots (e_data E)) H (s_acked (e_session E)) fs -> stops D u E fs).
  { intros fs' [Hok Hs]. split; [done|]. eapply crash_dirs_mono; [exact Hs|]. by left. }
  assert (Hpre : s_hist (e_session E) `prefix_of` H) by (by eexists).
  destruct u as [o|data]; cbn [do_use]; apply wp_bind.
  - eapply wp_weaken; [exact Hold|]. eapply wp_mono; [apply do_op_wp; [done|done|done|lia]|].
    intros S fs' (O1 & O2 & O3 & O4). apply wp_ret. intros E' [= <-]. split; [by split|].
    split; cbn [e_session]; [rewrite O2, <-app_assoc; exact R1|lia].
  - eapply wp_mono; [eapply wp_weaken; [exact Hold|]; apply kill_op_wp; [done|done|lia]|].
    intros S fs1 ((O1 & O2 & O3 & O4) & O5 & O6). apply wp_bind.
    destruct O1 as (g & tail & c & s & Hh & Ha & _).
    eapply wp_weaken; [|eapply wp_mono;
      [apply (reset_wp strerror D (snapshots (e_data E)) (snapshots data) H (s_acked S) g (next_seq_ (s_aof S)) (s_hist S) tail c s);
         [|lia|by apply snapshots_written|reflexivity|done|done]|]].
    + intros fs' [Hok Hs]. rewrite O6 in Hs. split; [done|]. eapply crash_dirs_mono; [exact Hs|].
      intros d [?|?]; [by left|right; by exists data].
    + rewrite O2, app_nil_r. exact Hpre.
    + intros [[err|] a'] fs2; intros HR; apply wp_ret; [done|]. destruct HR as [HS' En]. intros E' [= <-].
      split; [by split|]. split; cbn [e_session s_hist s_aof]; [|lia].
      cbn [app fed_by] in *. rewrite enc_app in R1. unfold zlen in *. rewrite length_app in R1. lia.
Qed.

Lemma do_uses_wp us : forall more E fs,
  era_ok D E fs -> Forall use_ok us -> room E (us ++ more) ->
  wp dir_syncs (fun _ => True) (do_uses strerror us E)
    (fun r fs' => forall E', r = Some E' -> era_ok D E' fs' /\ room E' more) fs.
Proof.
  induction us as [|u us IH]; intros more E fs HE Hus HR; cbn [do_uses].
  { apply wp_ret. by intros E' [= <-]. }
  apply Forall_cons_1 in Hus as [Hu Hus]. apply wp_bind.
  eapply wp_mono; [eapply wp_weaken; [|by apply (do_use_wp u (us ++ more))]; done|].
  intros [E'|] fs' Hr; [|by apply wp_ret]. destruct (Hr E' eq_refl) as [H1 H2]. by apply IH.
Qed.
End uses.

(** [load] of files that hold a history. *)
Lemma load_holds strerror D data_at max ep t rng pol g next H tail dur c fs lchs
    (Hdata : saveable data_at) (Hsize : zlen (enc H) < 2 ^ 64) (Hlchs : Forall reads_ok lchs)
    (Hh : holds D (snapshots data_at) g next H tail dur c (length c) fs) :
  let '(err, a, st, cmds, fs') :=
    run lchs (load strerror (make D pol) (Store.make max ep (fun _ => t) rng)) fs in
  err = None /\
  exists h, restores (data_at h) t st /\ h ++ cmds `prefix_of` H /\ (dur <= length (h ++ cmds))%nat /\
    session_ok D (snapshots data_at) (mkSession a None (h ++ cmds) dur) fs'.
Proof.
  pose proof (wp_run reads_ok (fun _ => True) _ _ lchs _ Hlchs ltac:(by split)
    (load_wp strerror D (snapshots data_at) _ _
       (fun h rs => snapshots_load data_at max ep t rng h rs Hdata) pol _ _ _ _ _ _ _ Hsize Hh)) as Hl.
  destruct (run lchs _ _) as [[[[err a] st] cmds] fs']. destruct Hl as (m & -> & Hm & Hg & -> & R1 & R2 & R3).
  split; [done|]. exists (g_base g). split; [done|].
  assert (E : g_base g ++ concat (g_segs g) ++ take m tail = before g ++ take m tail)
    by (unfold before; by rewrite app_assoc).
  rewrite E. destruct (h_covers _ _ _ _ _ _ _ _ _ _ Hh) as [_ HC]. split_and!.
  - rewrite HC. exists (drop m tail). by rewrite <-app_assoc, take_drop.
  - by eapply acked_le.
  - by exists g, (take m tail), (enc (take m tail)), (length (enc (take m tail))).
Qed.

(** C2: the append-only file survives crashes.  A server uses the file in any
    way: [feed], [flush], [flush_and_sync], rewrites by a child that ends or is
    killed, and [reset] when the dataset is replaced; any system call may fail
    except the sync of a directory.  The uses [us] have returned, every reset
    among them successfully, and the machine stops between any two calls of the
    next use [u]; of what was not synced, the disk keeps any prefix.  Then
    [load] succeeds.  Either the base is a snapshot of the dataset after some
    prefix [h] of the history since the last reset, the commands to replay
    follow [h] immediately, and together they are a prefix of that history that
    contains everything reported as synced before [u] began; or [u] replaces the
    dataset, and the new one is loaded with nothing to replay.  The object that
    comes out of [load] satisfies the same invariant again, so the statement
    applies to the next crash as well. *)
Theorem crash_recovery strerror D max ep t rng pol us u E fs E' fs' chs chs' n k cut lchs
    (HE : era_ok D E fs) (Hus : Forall use_ok (us ++ [u])) (Hroom : room E (us ++ [u]))
    (Hchs : Forall dir_syncs chs) (Hchs' : Forall dir_syncs chs') (Hlchs : Forall reads_ok lchs)
    (Hrun : run chs (do_uses strerror us E) fs = (Some E', fs')) :
  let S := e_session E' in
  let stopped := run_for n chs' (do_use strerror u E') fs' in
  let '(err, a, st, cmds, fs'') :=
    run lchs (load strerror (make D pol) (Store.make max ep (fun _ => t) rng)) (crash k cut stopped) in
  err = None /\
  ((exists h, restores (e_data E' h) t st /\
      h ++ cmds `prefix_of` s_hist S ++ fed_by u /\
      (s_acked S <= length (h ++ cmds))%nat /\
      era_ok D (mkEra (e_data E') (mkSession a None (h ++ cmds) (s_acked S))) fs'') \/
   (exists data, u = Replace data /\ restores (data []) t st /\ cmds = [] /\
      era_ok D (mkEra data (mkSession a None [] 0)) fs'')).
Proof.
  cbv zeta. apply Forall_app in Hus as [Hus [Hu _]%Forall_cons_1].
  pose proof (wp_run dir_syncs (fun _ => True) _ _ chs fs Hchs eq_refl
    (do_uses_wp strerror D us [u] E fs HE Hus Hroom)) as H1.
  rewrite Hrun in H1. destruct (H1 E' eq_refl) as [HE' HR']. set (stopped := run_for _ _ _ _).
  assert (Hs : stops D u E' stopped).
  { eapply wp_run_for; [exact Hchs'|done|by apply era_stops|by apply (do_use_wp strerror D u [])]. }
  destruct Hs as [Hok Hs], HR' as [R _], HE' as [Hd _]. cbn [fmap list_fmap concat] in R. rewrite app_nil_r in R.
  destruct (Hs k) as [Hk|(data & -> & Hk)].
  - destruct (crash_holds _ _ _ _ k cut _ Hok Hk) as (g & next & tail & c & Hh).
    pose proof (load_holds strerror D (e_data E') max ep t rng pol _ _ _ _ _ _ _ lchs Hd R Hlchs Hh) as Hl.
    destruct (run lchs _ _) as [[[[err a] st] cmds] fs'']. destruct Hl as (-> & h & L1 & L2 & L3 & L4).
    split; [done|]. left. exists h. by split_and!.
  - destruct (crash_holds _ _ _ _ k cut _ Hok Hk) as (g & next & tail & c & Hh).
    pose proof (load_holds strerror D data max ep t rng pol g next [] tail 0%nat c _ lchs Hu ltac:(done) Hlchs Hh) as Hl.
    destruct (run lchs _ _) as [[[[err a] st] cmds] fs'']. destruct Hl as (-> & h & L1 & L2 & L3 & L4).
    apply prefix_nil_inv, app_nil in L2 as [-> ->]. split; [done|]. right. by exists data.
Qed.

Definition demo_strerror (e : Z) : bytes := &"errno " ++ to_string e.
Definition demo_dir : bytes := &"/data/appendonlydir".
Definition demo_data (h : list Args) : KvStore := Store.make 0 Store.kNoEviction (fun _ => 5) [].
Definition empty_fs : FS := mkFS ∅ [] ∅ 0 ∅.

Lemma demo_saveable : saveable demo_data.
Proof. intros h. split; [apply Store.make_wf|]. by split; intros k x Hx. Qed.

Lemma empty_fs_ok : fs_ok empty_fs.
Proof.
  split; [|by intros i _]. intros k. simpl. rewrite take_nil. by split; intros p ? ?.
Qed.

Definition demo_created : AppendOnlyFile * FS :=
  let '(_, a, fs) := run [] (create demo_strerror (demo_data []) (make demo_dir kAlways)) empty_fs in (a, fs).
Definition demo_session : session := mkSession demo_created.1 None [] 0.

(** A new append-only file.  When [create] reports success, whatever
    failed on the way, the directory describes the empty history and the object
    satisfies the invariant under which the log survives crashes. *)
Theorem create_starts_session strerror D data_at pol fs chs (Hfs : fs_ok fs) (Hchs : Forall dir_syncs chs) :
  let '(err, a, fs') := run chs (create strerror (data_at []) (make D pol)) fs in
  err = None -> session_ok D (snapshots data_at) (mkSession a None [] 0) fs' /\ next_seq_ a = 3.
Proof.
  pose proof (wp_run dir_syncs (fun _ => True) _ _ chs fs Hchs eq_refl
    (create_wp strerror D (snapshots data_at) (data_at []) pol fs (snapshots_written data_at) Hfs)) as H.
  by destruct (run chs _ fs) as [[err a] fs'].
Qed.

Lemma create_starts_session_witness :
  let '(err, a, fs') := run [] (create demo_strerror (demo_data []) (make demo_dir kAlways)) empty_fs in
  err = None -> session_ok demo_dir (snapshots demo_data) (mkSession a None [] 0) fs' /\ next_seq_ a = 3.
Proof.
  apply (create_starts_session demo_strerror demo_dir demo_data kAlways empty_fs []).
  - exact empty_fs_ok.
  - constructor.
Defined.

Lemma demo_session_ok : session_ok demo_dir (snapshots demo_data) demo_session demo_created.2.
Proof.
  pose proof (wp_run dir_syncs (fun _ => True) _ _ [] empty_fs ltac:(done) eq_refl
    (create_wp demo_strerror demo_dir (snapshots demo_data) (demo_data []) kAlways empty_fs
       (snapshots_written demo_data) empty_fs_ok)) as H.
  assert (E : (run [] (create demo_strerror (demo_data []) (make demo_dir kAlways)) empty_fs).1.1 = None)
    by (by vm_compute).
  unfold demo_session, demo_created. destruct (run [] _ empty_fs) as [[err a] fs']. by apply H.
Qed.

Definition demo_ops : list op := [OFeed [&"SET"; &"k"; &"v"]; OSync; ORewrite; OFeed [&"DEL"; &"k"]; OReap].

Definition demo_era : era := mkEra demo_data demo_session.
Definition demo_uses : list use :=
  [Use (OFeed [&"SET"; &"k"; &"v"]); Use OSync; Replace demo_data; Use (OFeed [&"DEL"; &"k"]); Use OSync; Use ORewrite].
Definition demo_reached : option era * FS := run [] (do_uses demo_strerror demo_uses demo_era) demo_created.2.
Definition demo_later : era := default demo_era demo_reached.1.

Lemma demo_reaches : demo_reached = (Some demo_later, demo_reached.2).
Proof.
  assert (E : bool_decide (is_Some demo_reached.1) = true) by (by vm_compute).
  apply bool_decide_eq_true_1 in E as [x E]. unfold demo_later. destruct demo_reached. simpl in *. by rewrite E.
Qed.

Lemma crash_recovery_witness :
  let S := e_session demo_later in
  let u := Replace demo_data in
  let stopped := run_for 9 [] (do_use demo_strerror u demo_later) demo_reached.2 in
  let '(err, a, st, cmds, fs'') :=
    run [] (load demo_strerror (make demo_dir kAlways) (Store.make 0 Store.kNoEviction (fun _ => 7) []))
      (crash 1 (fun _ => 2%nat) stopped) in
  err = None /\
  ((exists h, restores (e_data demo_later h) 7 st /\
      h ++ cmds `prefix_of` s_hist S ++ fed_by u /\
      (s_acked S <= length (h ++ cmds))%nat /\
      era_ok demo_dir (mkEra (e_data demo_later) (mkSession a None (h ++ cmds) (s_acked S))) fs'') \/
   (exists data, u = Replace data /\ restores (data []) 7 st /\ cmds = [] /\
      era_ok demo_dir (mkEra data (mkSession a None [] 0)) fs'')).
Proof.
  apply (crash_recovery demo_strerror demo_dir 0 Store.kNoEviction 7 [] kAlways demo_uses (Replace demo_data)
           demo_era demo_created.2 demo_later demo_reached.2 [] [] 9 1 (fun _ => 2%nat) []).
  - exact (conj demo_saveable demo_session_ok).
  - repeat (constructor; [try exact I; exact demo_saveable|]). constructor.
  - split; by vm_compute.
  - constructor.
  - constructor.
  - constructor.
  - exact demo_reaches.
Defined.

(** C13: the invariant of the append-only file.  Whatever the server does with
    the file and whatever fails, except the sync of the directory: the history
    is what was fed, what was acknowledged stays acknowledged, and the invariant
    holds again. *)
Theorem session_preserved strerror D data_at S fs os chs
    (HS : session_ok D (snapshots data_at) S fs)
    (Hsize : zlen (enc (s_hist S ++ concat (fed <$> os))) < 2 ^ 64)
    (Hseq : next_seq_ (s_aof S) + Z.of_nat (length os) <= size_max)
    (Hchs : Forall dir_syncs chs) :
  let '(S', fs') := run chs (do_ops strerror (snapshots data_at) os S) fs in
  session_ok D (snapshots data_at) S' fs' /\ s_hist S' = s_hist S ++ concat (fed <$> os) /\
  (s_acked S <= s_acked S')%nat.
Proof.
  pose proof (wp_run dir_syncs _ _ _ chs fs Hchs eq_refl
    (do_ops_wp strerror D (snapshots data_at) _ Hsize os S fs HS ltac:(done) Hseq)) as H.
  destruct (run chs _ fs) as [S' fs']. by destruct H as (? & ? & ? & _).
Qed.

Lemma session_preserved_witness :
  let '(S', fs') := run [] (do_ops demo_strerror (snapshots demo_data) demo_ops demo_session) demo_created.2 in
  session_ok demo_dir (snapshots demo_data) S' fs' /\
  s_hist S' = s_hist demo_session ++ concat (fed <$> demo_ops) /\
  (s_acked demo_session <= s_acked S')%nat.
Proof.
  apply (session_preserved demo_strerror demo_dir demo_data demo_session demo_created.2 demo_ops []).
  - exact demo_session_ok.
  - by vm_compute.
  - by vm_compute.
  - constructor.
Defined.

(** What [persist_manifest] writes, [read_manifest] reads: a base, the incr
    files in their order, and a sequence number above all of theirs. *)
Theorem manifest_reads_back b incrs n
    (Hb : entry_good b /\ is_base b = true)
    (Hi : Forall (fun e => entry_good e /\ is_base e = false) incrs) :
  exists next, manifest_lines (getlines (manifest_text (Some b) incrs) []) None [] n =
    inr (Some b, incrs, next) /\ n <= next /\ Forall (fun e => seq e < next) (b :: incrs).
Proof.
  destruct Hb as [Hb1 Hb2]. assert (Hi1 : Forall entry_good incrs) by (eapply Forall_impl; [|exact Hi]; by intros e [? _]).
  assert (Hi2 : Forall (fun e => is_base e = false) incrs)
    by (eapply Forall_impl; [|exact Hi]; by intros e [_ ?]).
  exists (next_of n (b :: incrs)).
  split; [by apply manifest_round_trip|].
  assert (Hg : Forall entry_good (b :: incrs)) by (by constructor).
  destruct (next_of_bounds (b :: incrs) n (Z.max n size_max) Hg) as [B1 B2]; [lia| |split; [lia|done]].
  eapply Forall_impl; [|exact Hg]. intros e (_ & _ & ?). lia.
Qed.

Lemma manifest_reads_back_witness :
  let b := mkEntry (base_name 4) 4 true in
  let incrs := [mkEntry (incr_name 3) 3 false; mkEntry (incr_name 5) 5 false] in
  exists next, manifest_lines (getlines (manifest_text (Some b) incrs) []) None [] 1 =
    inr (Some b, incrs, next) /\ 1 <= next /\ Forall (fun e => seq e < next) (b :: incrs).
Proof.
  apply manifest_reads_back.
  - split; [|done]. split_and!; [by apply plain_const|done|done|done].
  - repeat constructor; try done; by apply plain_const.
Defined.

(** C37: a sync of the directory that fails loses the log.  Nothing else fails
    while a rewrite begins, and yet it reports an error: the directory could not
    be synced after the new manifest was renamed into place.  Then the manifest
    lists a file that [begin_rewrite] has removed.  Whatever the server goes on
    to write to the old file, and to acknowledge as synced, the next start
    refuses the log. *)
Theorem failed_dir_sync_loses_log strerror D data_at pol store S fs err a fs1 os chs chs' lchs
    (HS : session_ok D (snapshots data_at) S fs)
    (Hsize : zlen (enc (s_hist S)) < 2 ^ 64) (Hseq : next_seq_ (s_aof S) < size_max)
    (Hchs : Forall works chs) (Hlchs : Forall reads_ok lchs) (Hos : Forall writing os)
    (Hrun : run chs (begin_rewrite strerror (s_aof S)) fs = (Some err, a, fs1)) :
  let '(S2, fs2) := run chs' (do_ops strerror (snapshots data_at) os (with_aof S a)) fs1 in
  let '(err2, _, _, _, _) := run lchs (load strerror (make D pol) store) fs2 in
  err2 <> None.
Proof.
  destruct HS as (g & tail & c & s & Hh & Ha & _).
  pose proof (wp_run works (fun _ => True) _ _ chs fs Hchs ltac:(by split)
    (begin_rewrite_orphans strerror D _ (s_hist S) g _ tail _ _ c s fs Hsize ltac:(done) Hseq Hh Ha)) as H1.
  rewrite Hrun in H1. specialize (H1 ltac:(done)). simpl in H1.
  pose proof (wp_run (fun _ => True) (fun _ => True) _ _ chs' fs1 ltac:(by apply list.Forall_true) Logic.I
    (orphaned_ops strerror D (fun _ => True) (snapshots data_at) os (with_aof S a) fs1 Hos H1)) as H2.
  destruct (run chs' _ fs1) as [S2 fs2]. simpl in H2.
  pose proof (wp_run reads_ok (fun _ => True) _ _ lchs fs2 Hlchs ltac:(by split)
    (load_orphaned_wp strerror D pol _ store fs2 H2)) as H3.
  by destruct (run lchs _ fs2) as [[[[err2 ?] ?] ?] ?].
Qed.

(** The directory cannot be synced. *)
Definition dir_sync_fails : list choice := replicate 20 (mkChoice None (Some 5) 0 false [] []).

Definition demo_refused : option bytes * AppendOnlyFile * FS :=
  run dir_sync_fails (begin_rewrite demo_strerror (s_aof demo_session)) demo_created.2.

Lemma demo_refuses : demo_refused =
  (Some (&"writing the AOF manifest: errno 5"), demo_refused.1.2, demo_refused.2).
Proof.
  assert (E : demo_refused.1.1 = Some (&"writing the AOF manifest: errno 5")) by (by vm_compute).
  destruct demo_refused as [[err a] fs]. simpl in *. by rewrite E.
Qed.

Lemma failed_dir_sync_loses_log_witness :
  let '(S2, fs2) :=
    run [] (do_ops demo_strerror (snapshots demo_data) [OFeed [&"SET"; &"k"; &"w"]; OSync]
      (with_aof demo_session demo_refused.1.2)) demo_refused.2 in
  let '(err2, _, _, _, _) :=
    run [] (load demo_strerror (make demo_dir kAlways) (Store.make 0 Store.kNoEviction (fun _ => 7) [])) fs2 in
  err2 <> None.
Proof.
  apply (failed_dir_sync_loses_log demo_strerror demo_dir demo_data kAlways _ demo_session demo_created.2
           (&"writing the AOF manifest: errno 5") demo_refused.1.2 demo_refused.2 _ dir_sync_fails [] []).
  - exact demo_session_ok.
  - by vm_compute.
  - by vm_compute.
  - repeat (constructor; [by split|]). constructor.
  - constructor.
  - repeat constructor.
  - exact demo_refuses.
Defined.
End AofClaims.
