(* ===== verification/Persistence.v ===== *)
(** * Persistence (src/src/persistence.cpp, src/include/persistence.hpp)

    [Persistence] ties snapshots and the append-only file to the running
    server.  The operations are programs over the system calls of [Sys]; the
    store, which the class holds by reference, is an argument, and the ones
    that change it return it.  A background child is the call [Fork], which
    carries what [snapshot::write_file] writes in the child.

    What the operations print is not modelled, nor the calls of
    [last_error] made to print it.  The listener for finished background
    snapshots belongs to replication and does not call back: the operations
    return what it is told, in order. *)

From S2P Require Import Prelude Resp Slots HashTable Store Snapshot Sys Aof.
From Stdlib Require Import Lia.

Module Persistence.
Import Sys.

Abbreviation Args := (list bytes).

(** Seconds. *)
Record SavePoint := mkSavePoint { seconds : Z; changes : Z }.

Record Options := mkOptions {
  opt_dir : bytes;
  dbfilename : bytes;
  save_points : list SavePoint;
  appendonly : bool;
  appendfsync : Aof.FsyncPolicy;
  auto_aof_rewrite_percentage : Z;
  auto_aof_rewrite_min_size : Z
}.

Inductive ChildKind := kNone | kSnapshot | kAofRewrite.

#[global] Instance child_kind_eq_dec : EqDecision ChildKind.
Proof. solve_decision. Defined.

Inductive RewriteStart := kStarted | kScheduled | kRewriteError (error : bytes).

(** Steady times are nanoseconds. *)
Record Persistence := mkPersistence {
  options_ : Options;
  aof_ : option Aof.AppendOnlyFile;
  loading_ : bool;
  aof_was_healthy_ : bool;
  dirty_ : Z;
  dirty_at_fork_ : Z;
  last_save_unix_ : Z;
  last_save_ : Z;
  last_bgsave_ok_ : bool;
  last_bgsave_try_ : Z;
  last_rewrite_ok_ : bool;
  last_rewrite_try_ : Z;
  rewrite_scheduled_ : bool;
  child_pid_ : Z;
  child_kind_ : ChildKind;
  child_start_ : Z;
  child_start_unix_ : Z
}.

Definition kRetryDelay : Z := 5 * 1000000000.

Definition make (o : Options) : Persistence :=
  mkPersistence o None false true 0 0 0 0 true 0 true 0 false (-1) kNone 0 0.

Definition with_aof (p : Persistence) (a : option Aof.AppendOnlyFile) : Persistence :=
  mkPersistence (options_ p) a (loading_ p) (aof_was_healthy_ p) (dirty_ p) (dirty_at_fork_ p)
    (last_save_unix_ p) (last_save_ p) (last_bgsave_ok_ p) (last_bgsave_try_ p) (last_rewrite_ok_ p)
    (last_rewrite_try_ p) (rewrite_scheduled_ p) (child_pid_ p) (child_kind_ p) (child_start_ p)
    (child_start_unix_ p).
Definition with_healthy (p : Persistence) (b : bool) : Persistence :=
  mkPersistence (options_ p) (aof_ p) (loading_ p) b (dirty_ p) (dirty_at_fork_ p)
    (last_save_unix_ p) (last_save_ p) (last_bgsave_ok_ p) (last_bgsave_try_ p) (last_rewrite_ok_ p)
    (last_rewrite_try_ p) (rewrite_scheduled_ p) (child_pid_ p) (child_kind_ p) (child_start_ p)
    (child_start_unix_ p).
Definition with_dirty (p : Persistence) (n : Z) : Persistence :=
  mkPersistence (options_ p) (aof_ p) (loading_ p) (aof_was_healthy_ p) n (dirty_at_fork_ p)
    (last_save_unix_ p) (last_save_ p) (last_bgsave_ok_ p) (last_bgsave_try_ p) (last_rewrite_ok_ p)
    (last_rewrite_try_ p) (rewrite_scheduled_ p) (child_pid_ p) (child_kind_ p) (child_start_ p)
    (child_start_unix_ p).
Definition with_saved (p : Persistence) (steady unix : Z) : Persistence :=
  mkPersistence (options_ p) (aof_ p) (loading_ p) (aof_was_healthy_ p) (dirty_ p) (dirty_at_fork_ p)
    unix steady (last_bgsave_ok_ p) (last_bgsave_try_ p) (last_rewrite_ok_ p)
    (last_rewrite_try_ p) (rewrite_scheduled_ p) (child_pid_ p) (child_kind_ p) (child_start_ p)
    (child_start_unix_ p).
Definition with_bgsave (p : Persistence) (ok : bool) (try : Z) : Persistence :=
  mkPersistence (options_ p) (aof_ p) (loading_ p) (aof_was_healthy_ p) (dirty_ p) (dirty_at_fork_ p)
    (last_save_unix_ p) (last_save_ p) ok try (last_rewrite_ok_ p)
    (last_rewrite_try_ p) (rewrite_scheduled_ p) (child_pid_ p) (child_kind_ p) (child_start_ p)
    (child_start_unix_ p).
Definition with_rewrite (p : Persistence) (ok : bool) (try : Z) (scheduled : bool) : Persistence :=
  mkPersistence (options_ p) (aof_ p) (loading_ p) (aof_was_healthy_ p) (dirty_ p) (dirty_at_fork_ p)
    (last_save_unix_ p) (last_save_ p) (last_bgsave_ok_ p) (last_bgsave_try_ p) ok
    try scheduled (child_pid_ p) (child_kind_ p) (child_start_ p)
    (child_start_unix_ p).
Definition with_child (p : Persistence) (pid : Z) (kind : ChildKind) (start start_unix at_fork : Z)
  : Persistence :=
  mkPersistence (options_ p) (aof_ p) (loading_ p) (aof_was_healthy_ p) (dirty_ p) at_fork
    (last_save_unix_ p) (last_save_ p) (last_bgsave_ok_ p) (last_bgsave_try_ p) (last_rewrite_ok_ p)
    (last_rewrite_try_ p) (rewrite_scheduled_ p) pid kind start start_unix.

Definition child_running (p : Persistence) : bool := 0 <=? child_pid_ p.

Definition snapshot_path (p : Persistence) : bytes := join (opt_dir (options_ p)) (dbfilename (options_ p)).

Definition child_temp_path (kind : ChildKind) (p : Persistence) (pid : Z) : bytes :=
  match kind, aof_ p with
  | kAofRewrite, Some a => Aof.temp_base_path a pid
  | _, _ => join (opt_dir (options_ p)) (&"temp-" ++ to_string pid ++ &".snap")
  end.

(** What the child writes, when it succeeds. *)
Definition child_data (store : KvStore) : bytes := (Snapshot.write_file true true true [] store).2.

Section persistence.
Context (strerror : Z -> bytes).

(** ** Recording changes *)

Definition propagate (argv : Args) (p : Persistence) : Persistence :=
  if loading_ p then p
  else
    let p := with_dirty p (u64 (dirty_ p + 1)) in
    match aof_ p with
    | Some a => with_aof p (Some (Aof.feed argv a))
    | None => p
    end.

Definition count_change (p : Persistence) : Persistence :=
  if negb (loading_ p) then with_dirty p (u64 (dirty_ p + 1)) else p.

(** ** Loading *)

(** [true] unless the snapshot is there but cannot be loaded. *)
Definition load_snapshot (p : Persistence) (store : KvStore) : prog (bool * KvStore * bytes) :=
  '(r, store, err) ← Aof.load_snapshot strerror (snapshot_path p) store;
  mret (match r with Snapshot.kError _ => false | _ => true end, store, err).


(** ** The event loop *)

(** [None]: the process exits. *)
Definition before_sleep (p : Persistence) : prog (option Persistence) :=
  match aof_ p with
  | None => mret (Some p)
  | Some a =>
      '(ok, a) ← Aof.flush a;
      let p := with_aof p (Some a) in
      if negb ok && bool_decide (appendfsync (options_ p) = Aof.kAlways) then mret None
      else
        healthy ← (if (ok : bool) then Aof.healthy a else mret false);
        mret (Some (if negb (bool_decide (healthy = aof_was_healthy_ p)) then with_healthy p healthy else p))
  end.

(** [duration_cast<seconds>] truncates towards zero. *)
Definition save_point_reached (now : Z) (p : Persistence) : bool :=
  if negb (last_bgsave_ok_ p) && (now - last_bgsave_try_ p <? kRetryDelay) then false
  else
    let since_save := Z.quot (now - last_save_ p) 1000000000 in
    existsb (fun sp => (changes sp <=? dirty_ p) && (seconds sp <=? since_save)) (save_points (options_ p)).

Definition aof_needs_rewrite (now : Z) (p : Persistence) : bool :=
  match aof_ p with
  | None => false
  | Some a =>
      if auto_aof_rewrite_percentage (options_ p) =? 0 then false
      else if negb (last_rewrite_ok_ p) && (now - last_rewrite_try_ p <? kRetryDelay) then false
      else
        let size := Aof.current_size a in
        let base := Z.max (Aof.size_after_rewrite_ a) 1 in
        (auto_aof_rewrite_min_size (options_ p) <=? size) && (base <? size) &&
        (auto_aof_rewrite_percentage (options_ p) <=? u64 ((size - base) * 100) / base)
  end.

(** ** Children *)

Definition start_child (kind : ChildKind) (store : KvStore) (p : Persistence)
  : prog (option bytes * Persistence) :=
  now ← call Steady_now;
  '(r, p) ← (
    match kind, aof_ p with
    | kAofRewrite, Some a =>
        let p := with_rewrite p (last_rewrite_ok_ p) now (rewrite_scheduled_ p) in
        '(r, a) ← Aof.begin_rewrite strerror a;
        let p := with_aof p (Some a) in
        mret (r, match r with
                 | Some _ => with_rewrite p false (last_rewrite_try_ p) (rewrite_scheduled_ p)
                 | None => p
                 end)
    | _, _ => mret (None, with_bgsave p (last_bgsave_ok_ p) now)
    end);
  match r with
  | Some err => mret (Some err, p)
  | None =>
      pid ← call (Fork (child_temp_path kind p) (child_data store));
      match pid with
      | Err e =>
          mret (Some (&"fork: " ++ strerror e),
                match kind with
                | kSnapshot => with_bgsave p false (last_bgsave_try_ p)
                | _ => with_rewrite p false (last_rewrite_try_ p) (rewrite_scheduled_ p)
                end)
      | Ok pid =>
          unix ← call Unix_now;
          mret (None, with_child p pid kind now unix (dirty_ p))
      end
  end.

(** What the listener is told, and the new state. *)
Definition finish_child (ok : bool) (p : Persistence) : prog (list bool * Persistence) :=
  let temp := child_temp_path (child_kind_ p) p (child_pid_ p) in
  let gone p := with_child p (-1) kNone (child_start_ p) (child_start_unix_ p) (dirty_at_fork_ p) in
  match child_kind_ p, aof_ p with
  | kSnapshot, _ =>
      r ← (if ok then durable_rename temp (snapshot_path p) else mret (Some 0));
      match r with
      | None =>
          let p := with_dirty p (u64 (dirty_ p - dirty_at_fork_ p)) in
          let p := with_saved p (child_start_ p) (child_start_unix_ p) in
          mret ([true], gone (with_bgsave p true (last_bgsave_try_ p)))
      | Some _ =>
          _ ← call (Unlink temp);
          mret ([false], gone (with_bgsave p false (last_bgsave_try_ p)))
      end
  | _, Some a =>
      '(r, a) ← Aof.finish_rewrite strerror ok temp a;
      let ok := bool_decide (r = None) in
      mret ([], gone (with_rewrite (with_aof p (Some a)) ok (last_rewrite_try_ p) (rewrite_scheduled_ p)))
  | _, None => mret ([], gone p)
  end.

Definition reap_child (p : Persistence) : prog (list bool * Persistence) :=
  if child_pid_ p <? 0 then mret ([], p)
  else
    st ← call (Waitpid (child_pid_ p));
    match st with
    | Running => mret ([], p)
    | Exited ok => finish_child ok p
    end.

Definition kill_child (p : Persistence) : prog (list bool * Persistence) :=
  if child_pid_ p <? 0 then mret ([], p)
  else
    _ ← call (Kill_wait (child_pid_ p));
    finish_child false p.

Definition cron (store : KvStore) (p : Persistence) : prog (list bool * Persistence) :=
  '(told, p) ← reap_child p;
  if 0 <=? child_pid_ p then mret (told, p)
  else
    now ← call Steady_now;
    if rewrite_scheduled_ p || aof_needs_rewrite now p then
      let p := with_rewrite p (last_rewrite_ok_ p) (last_rewrite_try_ p) false in
      '(_, p) ← start_child kAofRewrite store p;
      mret (told, p)
    else if save_point_reached now p then
      '(_, p) ← start_child kSnapshot store p;
      mret (told, p)
    else mret (told, p).

(** ** Commands *)

(** [None] is success. *)
Definition save (store : KvStore) (p : Persistence) : prog (option bytes * Persistence) :=
  if bool_decide (child_kind_ p = kSnapshot) then
    mret (Some &"ERR Background save already in progress", p)
  else
    r ← Sys.save store (snapshot_path p);
    match r with
    | Some e => mret (Some (&"ERR error saving the snapshot: " ++ strerror e), p)
    | None =>
        now ← call Steady_now;
        unix ← call Unix_now;
        let p := with_saved (with_dirty p 0) now unix in
        mret (None, with_bgsave p true (last_bgsave_try_ p))
    end.

Definition bgsave (store : KvStore) (p : Persistence) : prog (option bytes * Persistence) :=
  if 0 <=? child_pid_ p then
    mret (Some (if bool_decide (child_kind_ p = kSnapshot) then &"ERR Background save already in progress"
                else &"ERR Another child process is active (AOF rewrite): can't BGSAVE right now"), p)
  else
    '(r, p) ← start_child kSnapshot store p;
    mret (match r with Some err => Some (&"ERR " ++ err) | None => None end, p).

Definition bgrewriteaof (store : KvStore) (p : Persistence) : prog (RewriteStart * Persistence) :=
  match aof_ p with
  | None => mret (kRewriteError &"ERR AOF is disabled (start the server with --appendonly yes)", p)
  | Some _ =>
      if bool_decide (child_kind_ p = kAofRewrite) then
        mret (kRewriteError &"ERR Background append only file rewriting already in progress", p)
      else if 0 <=? child_pid_ p then
        mret (kScheduled, with_rewrite p (last_rewrite_ok_ p) (last_rewrite_try_ p) true)
      else
        '(r, p) ← start_child kAofRewrite store p;
        mret (match r with Some err => kRewriteError (&"ERR " ++ err) | None => kStarted end, p)
  end.

(** Empty while writes are accepted. *)
Definition write_error (p : Persistence) : prog bytes :=
  if negb (bool_decide (save_points (options_ p) = [])) && negb (last_bgsave_ok_ p) then
    mret (&"MISCONF Snapshotting is configured but the last background save failed; " ++
          &"writes are refused until a save succeeds. Check the server log.")
  else
    match aof_ p with
    | None => mret []
    | Some a =>
        healthy ← Aof.healthy a;
        if (healthy : bool) then mret []
        else err ← Aof.last_error strerror a; mret (&"MISCONF Errors writing to the AOF file: " ++ err)
    end.

(** ** Replacing the dataset, and stopping *)

Definition replace_dataset (snapshot_file : bytes) (p : Persistence) (store : KvStore)
  : prog (option bytes * list bool * Persistence * KvStore) :=
  '(told, p) ← kill_child p;
  '(r, store, err) ← Aof.load_snapshot strerror snapshot_file (Store.clear store);
  match r with
  | Snapshot.kOk =>
      rn ← durable_rename snapshot_file (snapshot_path p);
      p ← match rn with
          | None =>
              now ← call Steady_now;
              unix ← call Unix_now;
              let p := with_saved (with_dirty p 0) now unix in
              mret (with_bgsave p true (last_bgsave_try_ p))
          | Some _ => _ ← call (Unlink snapshot_file); mret p
          end;
      match aof_ p with
      | None => mret (None, told, p, store)
      | Some a =>
          '(r, a) ← Aof.reset strerror store a;
          mret (match r with Some err => Some (&"restarting the AOF: " ++ err) | None => None end,
                told, with_aof p (Some a), store)
      end
  | _ =>
      _ ← call (Unlink snapshot_file);
      mret (Some err, told, p, store)
  end.

Definition shutdown (store : KvStore) (p : Persistence) : prog (bool * list bool * Persistence) :=
  '(told, p) ← kill_child p;
  '(ok, p) ← match aof_ p with
             | None => mret (true, p)
             | Some a => '(ok, a) ← Aof.flush_and_sync a; mret (ok, with_aof p (Some a))
             end;
  if bool_decide (save_points (options_ p) = []) then mret (ok, told, p)
  else
    '(r, p) ← save store p;
    mret ((ok : bool) && bool_decide (r = None), told, p).

End persistence.

(** ** Programs that leave the children alone *)

Definition harmless {R} (c : syscall R) : Prop :=
  match c with Fork _ _ => False | Waitpid _ => False | Kill_wait _ => False | _ => True end.

Fixpoint quiet {A} (p : prog A) : Prop :=
  match p with
  | Ret _ => True
  | Call c k => harmless c /\ forall r, quiet (k r)
  end.

Lemma quiet_ret {A} (a : A) : quiet (mret a).
Proof. done. Qed.

Lemma quiet_call {A R} (c : syscall R) (k : R -> prog A) : harmless c -> (forall r, quiet (k r)) -> quiet (call c ≫= k).
Proof. intros Hc Hk. by split. Qed.

Lemma quiet_bind {A B} (p : prog A) (f : A -> prog B) : quiet p -> (forall a, quiet (f a)) -> quiet (p ≫= f).
Proof. intros Hp Hf. induction p as [a|R c k IH]; [apply Hf|]. destruct Hp as [H1 H2]. split; [done|]. intros r. by apply IH. Qed.

Lemma do_call_children {R} (c : syscall R) ch fs : harmless c -> children (do_call ch fs c).2 = children fs.
Proof.
  intros Hc. destruct c; try done; simpl; unfold guarded; try (by destruct (c_errno ch));
    try (by destruct (c_dir_errno ch)); try (by destruct (f (c_writes ch))).
  - destruct (c_errno ch); [done|]. by destruct (dir fs !! path).
  - destruct (c_errno ch); [done|]. by destruct (dir fs !! from).
Qed.

Create HintDb quiet.
#[local] Hint Resolve quiet_ret : quiet.

(** One step of a program: a call, a branch or a sub-program. *)
Ltac quiet_step :=
  match goal with
  | |- forall _, _ => intros
  | |- quiet (mret _) => exact I
  | |- quiet (call _) => split; [exact I|intros; exact I]
  | |- quiet (call _ ≫= _) => apply quiet_call; [exact I|]
  | |- quiet (match ?x with _ => _ end) => destruct x
  | |- quiet (_ ≫= _) => apply quiet_bind
  | |- quiet _ => by auto with quiet nocore
  end.
Ltac quiet_solve := repeat quiet_step.

Lemma quiet_write_all fd data : quiet (write_all fd data).
Proof. by split. Qed.
Lemma quiet_fsync_dir p : quiet (fsync_dir p).
Proof. unfold fsync_dir. quiet_solve. Qed.
#[local] Hint Resolve quiet_write_all quiet_fsync_dir : quiet.
Lemma quiet_durable_rename p q : quiet (durable_rename p q).
Proof. unfold durable_rename. quiet_solve. Qed.
Lemma quiet_write_file store p : quiet (write_file store p).
Proof. unfold write_file. quiet_solve. Qed.
#[local] Hint Resolve quiet_durable_rename quiet_write_file : quiet.
Lemma quiet_sys_save store p : quiet (Sys.save store p).
Proof. unfold Sys.save. cbv zeta. quiet_solve. Qed.
#[local] Hint Resolve quiet_sys_save : quiet.

Section aof.
Context (strerror : Z -> bytes).

Lemma quiet_persist_manifest a : quiet (Aof.persist_manifest strerror a).
Proof. unfold Aof.persist_manifest. cbv zeta. quiet_solve. Qed.
#[local] Hint Resolve quiet_persist_manifest : quiet.
Lemma quiet_create store a : quiet (Aof.create strerror store a).
Proof. unfold Aof.create. cbv zeta. quiet_solve. Qed.
Lemma quiet_unlink_all ps : quiet (Aof.unlink_all ps).
Proof. induction ps; [exact I|]. cbn [Aof.unlink_all]. quiet_solve. Qed.
Lemma quiet_opt_close fd : quiet (Aof.opt_close fd).
Proof. unfold Aof.opt_close. quiet_solve. Qed.
#[local] Hint Resolve quiet_create quiet_unlink_all quiet_opt_close : quiet.
Lemma quiet_reset store a : quiet (Aof.reset strerror store a).
Proof. unfold Aof.reset. cbv zeta. quiet_solve. Qed.
Lemma quiet_flush_sync a : quiet (Aof.flush_sync a).
Proof. unfold Aof.flush_sync. quiet_solve. Qed.
#[local] Hint Resolve quiet_flush_sync : quiet.
Lemma quiet_flush_write a : quiet (Aof.flush_write a).
Proof. unfold Aof.flush_write. cbv zeta. quiet_solve. Qed.
#[local] Hint Resolve quiet_flush_write : quiet.
Lemma quiet_flush a : quiet (Aof.flush a).
Proof. unfold Aof.flush. quiet_solve. Qed.
#[local] Hint Resolve quiet_flush : quiet.
Lemma quiet_flush_and_sync a : quiet (Aof.flush_and_sync a).
Proof. unfold Aof.flush_and_sync. quiet_solve. Qed.
Lemma quiet_healthy a : quiet (Aof.healthy a).
Proof. unfold Aof.healthy. quiet_solve. Qed.
Lemma quiet_last_error a : quiet (Aof.last_error strerror a).
Proof. unfold Aof.last_error. quiet_solve. Qed.
#[local] Hint Resolve quiet_flush_and_sync quiet_last_error : quiet.
Lemma quiet_begin_rewrite a : quiet (Aof.begin_rewrite strerror a).
Proof. unfold Aof.begin_rewrite. cbv zeta. quiet_solve. Qed.
Lemma quiet_finish_rewrite ok temp a : quiet (Aof.finish_rewrite strerror ok temp a).
Proof. unfold Aof.finish_rewrite. cbv zeta. quiet_solve. Qed.
Lemma quiet_load_snapshot p store : quiet (Aof.load_snapshot strerror p store).
Proof. unfold Aof.load_snapshot. quiet_solve. Qed.
End aof.
#[local] Hint Resolve quiet_flush_and_sync quiet_flush quiet_healthy quiet_begin_rewrite quiet_finish_rewrite
  quiet_load_snapshot quiet_reset quiet_create : quiet.

Lemma wp_quiet {A} (p : prog A) (J : gmap Z (bytes * bytes) -> Prop) fs :
  quiet p -> J (children fs) ->
  wp (fun _ => True) (fun fs' => J (children fs')) p (fun _ fs' => children fs' = children fs) fs.
Proof.
  revert fs. induction p as [a|R c k IH]; intros fs Hq HJ; [done|]. destruct Hq as [Hc Hk]. intros ch _.
  pose proof (do_call_children c ch fs Hc) as E. split; [by rewrite E|].
  eapply wp_mono; [apply IH; [apply Hk|by rewrite E]|]. intros a fs' ->. exact E.
Qed.

(** ** What the server asks for *)

(** Each with the store as it is then. *)
Inductive pop :=
  | PPropagate (argv : Args) | PCount | PSleep | PCron | PSave | PBgsave | PBgrewrite
  | PReplace (file : bytes) | PShutdown.

(** The listener's calls are kept; [None] when the process exited. *)
Definition do_pop (strerror : Z -> bytes) (o : pop) (store : KvStore) (p : Persistence)
  : prog (option (list bool * Persistence)) :=
  match o with
  | PPropagate argv => mret (Some ([], propagate argv p))
  | PCount => mret (Some ([], count_change p))
  | PSleep => r ← before_sleep p; mret (match r with Some p => Some ([], p) | None => None end)
  | PCron => r ← cron strerror store p; mret (Some r)
  | PSave => '(_, p) ← save strerror store p; mret (Some ([], p))
  | PBgsave => '(_, p) ← bgsave strerror store p; mret (Some ([], p))
  | PBgrewrite => '(_, p) ← bgrewriteaof strerror store p; mret (Some ([], p))
  | PReplace file => '(_, told, p, _) ← replace_dataset strerror file p store; mret (Some (told, p))
  | PShutdown => '(_, told, p) ← shutdown strerror store p; mret (Some (told, p))
  end.

Fixpoint do_pops (strerror : Z -> bytes) (os : list (pop * KvStore)) (p : Persistence)
  : prog (option Persistence) :=
  match os with
  | [] => mret (Some p)
  | (o, store) :: os =>
      r ← do_pop strerror o store p;
      match r with None => mret None | Some (_, p) => do_pops strerror os p end
  end.

(** ** One child at a time *)

Definition one_child (p : Persistence) (fs : FS) : Prop :=
  match child_kind_ p with
  | kNone => child_pid_ p = -1 /\ children fs = ∅
  | kSnapshot => 0 < child_pid_ p /\ exists d, children fs = {[child_pid_ p := d]}
  | kAofRewrite => 0 < child_pid_ p /\ (exists d, children fs = {[child_pid_ p := d]}) /\ is_Some (aof_ p)
  end /\ (rewrite_scheduled_ p = true -> is_Some (aof_ p)).

(** At most one, at every moment. *)
Definition few (fs : FS) : Prop := (size (children fs) <= 1)%nat.

Section one_child.
Context (strerror : Z -> bytes).
Abbreviation cwp := (wp (fun _ => True) few).
Abbreviation few_of := (fun ch : gmap Z (bytes * bytes) => (size ch <= 1)%nat).

Lemma one_child_few p fs : one_child p fs -> few fs.
Proof.
  unfold one_child, few. intros [H _]. destruct (child_kind_ p).
  - destruct H as [_ ->]. rewrite map_size_empty; lia.
  - destruct H as [_ [d ->]]. rewrite map_size_singleton; lia.
  - destruct H as [_ [[d ->] _]]. rewrite map_size_singleton; lia.
Qed.

(** A quiet program in front. *)
Lemma wp_quiet_bind {A B} (q : prog A) (f : A -> prog B) Q fs :
  quiet q -> few fs -> (forall a fs', children fs' = children fs -> few fs' -> cwp (f a) Q fs') ->
  cwp (q ≫= f) Q fs.
Proof.
  intros Hq Hf H. apply wp_bind. eapply wp_mono; [by apply (wp_quiet _ few_of)|].
  intros a fs' E. apply H; [done|]. unfold few in *. by rewrite E.
Qed.

(** The child that was there is gone. *)
Lemma reap_gone pid ok fs d : children fs = {[pid := d]} -> children (reap pid ok fs) = ∅.
Proof.
  intros E. unfold reap. rewrite E, lookup_singleton_eq. destruct d as [path data]. destruct ok; simpl.
  - apply delete_singleton_eq.
  - apply delete_singleton_eq.
Qed.

(** Same child, same files of it. *)
Lemma one_child_same p p' fs fs' :
  one_child p fs -> children fs' = children fs -> child_kind_ p' = child_kind_ p -> child_pid_ p' = child_pid_ p ->
  (is_Some (aof_ p) -> is_Some (aof_ p')) -> (rewrite_scheduled_ p' = true -> rewrite_scheduled_ p = true) ->
  one_child p' fs'.
Proof.
  unfold one_child. intros [H1 H2] Ec Ek Ep Ha Hr. rewrite Ek, Ep, Ec. split; [|auto].
  destruct (child_kind_ p); naive_solver.
Qed.

Lemma finish_child_wp ok p fs :
  children fs = ∅ -> (rewrite_scheduled_ p = true -> is_Some (aof_ p)) ->
  cwp (finish_child strerror ok p)
    (fun '(_, p') fs' => one_child p' fs' /\ child_kind_ p' = kNone /\
       (rewrite_scheduled_ p' = true -> rewrite_scheduled_ p = true)) fs.
Proof.
  intros Ec Hr. unfold finish_child. cbv zeta.
  assert (Hf : few fs) by (unfold few; rewrite Ec, map_size_empty; lia).
  assert (Hgone : forall p' fs' s u, children fs' = ∅ -> rewrite_scheduled_ p' = rewrite_scheduled_ p ->
    (is_Some (aof_ p) -> is_Some (aof_ p')) ->
    one_child (with_child p' (-1) kNone s u (dirty_at_fork_ p')) fs' /\
    child_kind_ (with_child p' (-1) kNone s u (dirty_at_fork_ p')) = kNone /\
    (rewrite_scheduled_ (with_child p' (-1) kNone s u (dirty_at_fork_ p')) = true -> rewrite_scheduled_ p = true)).
  { intros p' fs' s u E1 E2 E3. split_and!; [|done|simpl; by rewrite E2]. split; [done|]. simpl. rewrite E2. auto. }
  assert (Hsnap : cwp (
      r ← (if ok then durable_rename (child_temp_path (child_kind_ p) p (child_pid_ p)) (snapshot_path p) else mret (Some 0));
      match r with
      | None =>
          let p := with_dirty p (u64 (dirty_ p - dirty_at_fork_ p)) in
          let p := with_saved p (child_start_ p) (child_start_unix_ p) in
          let p := with_bgsave p true (last_bgsave_try_ p) in
          mret ([true], with_child p (-1) kNone (child_start_ p) (child_start_unix_ p) (dirty_at_fork_ p))
      | Some _ =>
          _ ← call (Unlink (child_temp_path (child_kind_ p) p (child_pid_ p)));
          let p := with_bgsave p false (last_bgsave_try_ p) in
          mret ([false], with_child p (-1) kNone (child_start_ p) (child_start_unix_ p) (dirty_at_fork_ p))
      end)
    (fun '(_, p') fs' => one_child p' fs' /\ child_kind_ p' = kNone /\
       (rewrite_scheduled_ p' = true -> rewrite_scheduled_ p = true)) fs).
  { apply wp_quiet_bind; [destruct ok; quiet_solve|done|]. intros [e|] fs1 E1 F1.
    - apply wp_quiet_bind; [quiet_solve|done|]. intros [] fs2 E2 F2. apply wp_ret, Hgone; [by rewrite E2, E1|done|done].
    - apply wp_ret, Hgone; [by rewrite E1|done|done]. }
  destruct (child_kind_ p); [|exact Hsnap|].
  all: destruct (aof_ p) as [a|] eqn:Ea; [|apply wp_ret; by apply Hgone].
  all: apply wp_quiet_bind; [quiet_solve|done|]; intros [r a'] fs1 E1 F1; apply wp_ret, Hgone;
    [by rewrite E1|done|by eexists].
Qed.

Lemma one_child_running p fs :
  one_child p fs -> 0 <= child_pid_ p -> child_kind_ p <> kNone /\ exists d, children fs = {[child_pid_ p := d]}.
Proof. intros [H _] Hp. destruct (child_kind_ p); [lia|naive_solver|naive_solver]. Qed.

Lemma one_child_idle p fs : one_child p fs -> child_pid_ p < 0 -> child_kind_ p = kNone /\ children fs = ∅.
Proof. intros [H _] Hp. destruct (child_kind_ p); [naive_solver|lia|lia]. Qed.

Lemma reap_child_wp p fs :
  one_child p fs ->
  cwp (reap_child strerror p)
    (fun '(_, p') fs' => one_child p' fs' /\ (rewrite_scheduled_ p' = true -> rewrite_scheduled_ p = true)) fs.
Proof.
  intros Ho. pose proof (one_child_few _ _ Ho) as Hf. unfold reap_child.
  destruct (Z.ltb_spec (child_pid_ p) 0) as [Hp|Hp]; [by apply wp_ret|].
  destruct (one_child_running _ _ Ho Hp) as [Hk [d Hd]].
  apply wp_waitpid; [done|by apply wp_ret|]. intros ok. pose proof (reap_gone _ ok _ _ Hd) as Hg.
  split; [unfold few; rewrite Hg, map_size_empty; lia|].
  eapply wp_mono; [apply finish_child_wp; [done|apply Ho]|]. intros [told p'] fs' (? & ? & ?). done.
Qed.

Lemma kill_child_wp p fs :
  one_child p fs ->
  cwp (kill_child strerror p) (fun '(_, p') fs' => one_child p' fs' /\ child_kind_ p' = kNone) fs.
Proof.
  intros Ho. pose proof (one_child_few _ _ Ho) as Hf. unfold kill_child.
  destruct (Z.ltb_spec (child_pid_ p) 0) as [Hp|Hp].
  { apply wp_ret. split; [done|]. by apply (one_child_idle _ _ Ho). }
  destruct (one_child_running _ _ Ho Hp) as [Hk [d Hd]].
  intros ch _. simpl. pose proof (reap_gone _ false _ _ Hd) as Hg.
  split; [unfold few; rewrite Hg, map_size_empty; lia|].
  eapply wp_mono; [apply finish_child_wp; [done|apply Ho]|]. intros [told p'] fs' (? & ? & ?). done.
Qed.

(** Starting one where there is none. *)
Lemma fork_wp kind store now p fs :
  one_child p fs -> child_kind_ p = kNone -> kind <> kNone -> (kind = kAofRewrite -> is_Some (aof_ p)) ->
  cwp (pid ← call (Fork (child_temp_path kind p) (child_data store));
       match pid with
       | Err e =>
           mret (Some (&"fork: " ++ strerror e),
                 match kind with
                 | kSnapshot => with_bgsave p false (last_bgsave_try_ p)
                 | _ => with_rewrite p false (last_rewrite_try_ p) (rewrite_scheduled_ p)
                 end)
       | Ok pid =>
           unix ← call Unix_now;
           mret (None : option bytes, with_child p pid kind now unix (dirty_ p))
       end) (fun '(_, p') fs' => one_child p' fs') fs.
Proof.
  intros Ho Hk Hkind Ha. pose proof (one_child_few _ _ Ho) as Hf.
  assert (Hc : children fs = ∅) by (destruct Ho as [Ho _]; rewrite Hk in Ho; by destruct Ho).
  apply wp_fork; [done| |].
  - intros e. apply wp_ret. destruct kind; by apply (one_child_same p _ fs fs Ho).
  - intros pid Hpid. cbv zeta. rewrite Hc.
    assert (Hs : forall d : bytes * bytes, (size (<[pid := d]> (∅ : gmap Z (bytes * bytes))) <= 1)%nat)
      by (intros d; rewrite insert_empty, map_size_singleton; lia).
    split; [apply Hs|]. apply wp_reads; [apply Hs|done|]. intros unix. apply wp_ret.
    destruct Ho as [_ Ho2]. split; [|done]. simpl. destruct kind; [done| |].
    + split; [done|]. eexists. by rewrite insert_empty.
    + split_and!; [done| |by apply Ha]. eexists. by rewrite insert_empty.
Qed.

Lemma start_child_wp kind store p fs :
  one_child p fs -> child_kind_ p = kNone -> kind <> kNone -> (kind = kAofRewrite -> is_Some (aof_ p)) ->
  cwp (start_child strerror kind store p) (fun '(_, p') fs' => one_child p' fs') fs.
Proof.
  intros Ho Hk Hkind Ha. pose proof (one_child_few _ _ Ho) as Hf. unfold start_child.
  apply wp_reads; [done|done|]. intros now.
  assert (Hsnap : forall p' fs', one_child p' fs' -> child_kind_ p' = kNone -> (is_Some (aof_ p) -> is_Some (aof_ p')) ->
    cwp (pid ← call (Fork (child_temp_path kind p') (child_data store));
       match pid with
       | Err e =>
           mret (Some (&"fork: " ++ strerror e),
                 match kind with
                 | kSnapshot => with_bgsave p' false (last_bgsave_try_ p')
                 | _ => with_rewrite p' false (last_rewrite_try_ p') (rewrite_scheduled_ p')
                 end)
       | Ok pid =>
           unix ← call Unix_now;
           mret (None : option bytes, with_child p' pid kind now unix (dirty_ p'))
       end) (fun '(_, p') fs' => one_child p' fs') fs').
  { intros p' fs' Ho' Hk' Ha'. apply fork_wp; [done|done|done|auto]. }
  destruct kind; [done| |].
  - apply wp_bind, wp_ret. apply Hsnap; [by apply (one_child_same p _ fs fs Ho)|done|done].
  - destruct (Ha eq_refl) as [a Ea]. rewrite Ea. cbv zeta. apply wp_bind.
    apply wp_quiet_bind; [quiet_solve|done|]. intros [[err|] a'] fs1 E1 F1; apply wp_ret.
    + apply wp_ret. by apply (one_child_same p _ fs fs1 Ho).
    + apply Hsnap; [by apply (one_child_same p _ fs fs1 Ho)|done|by eexists].
Qed.

Lemma cron_wp store p fs :
  one_child p fs -> cwp (cron strerror store p) (fun '(_, p') fs' => one_child p' fs') fs.
Proof.
  intros Ho. unfold cron. apply wp_bind. eapply wp_mono; [by apply reap_child_wp|].
  intros [told p1] fs1 [Ho1 Hr1]. pose proof (one_child_few _ _ Ho1) as Hf1.
  destruct (Z.leb_spec 0 (child_pid_ p1)) as [Hp|Hp]; [by apply wp_ret|].
  destruct (one_child_idle _ _ Ho1 Hp) as [Hk _].
  apply wp_reads; [done|done|]. intros now.
  destruct (rewrite_scheduled_ p1 || aof_needs_rewrite now p1) eqn:Er.
  - cbv zeta. apply wp_bind. eapply wp_mono.
    + apply (start_child_wp kAofRewrite store); [by apply (one_child_same p1 _ fs1 fs1 Ho1)|done|done|].
      intros _. simpl. destruct (rewrite_scheduled_ p1) eqn:Es; [by apply Ho1|].
      simpl in Er. unfold aof_needs_rewrite in Er. by destruct (aof_ p1).
    + intros [r p2] fs2 Ho2. by apply wp_ret.
  - destruct (save_point_reached now p1); [|by apply wp_ret]. apply wp_bind.
    eapply wp_mono; [by apply (start_child_wp kSnapshot store)|]. intros [r p2] fs2 Ho2. by apply wp_ret.
Qed.

Lemma save_child_wp store p fs :
  one_child p fs -> cwp (save strerror store p)
    (fun '(_, p') fs' => one_child p' fs' /\ child_kind_ p' = child_kind_ p) fs.
Proof.
  intros Ho. pose proof (one_child_few _ _ Ho) as Hf. unfold save.
  destruct (bool_decide _); [by apply wp_ret|].
  apply wp_quiet_bind; [quiet_solve|done|]. intros [e|] fs1 E1 F1.
  - apply wp_ret. split; [|done]. by apply (one_child_same p _ fs fs1 Ho).
  - apply wp_reads; [done|done|]. intros now. apply wp_reads; [done|done|]. intros unix. apply wp_ret.
    split; [|done]. by apply (one_child_same p _ fs fs1 Ho).
Qed.

Lemma replace_child_wp file store p fs :
  one_child p fs ->
  cwp (replace_dataset strerror file p store) (fun '(_, _, p', _) fs' => one_child p' fs') fs.
Proof.
  intros Ho. unfold replace_dataset. apply wp_bind. eapply wp_mono; [by apply kill_child_wp|].
  intros [told p1] fs1 [Ho1 Hk]. pose proof (one_child_few _ _ Ho1) as Hf1.
  apply wp_quiet_bind; [quiet_solve|done|]. intros [[r st] err] fs2 E2 F2.
  assert (Hfail : cwp (_ ← call (Unlink file); mret (Some err, told, p1, st))
    (fun '(_, _, p', _) fs' => one_child p' fs') fs2).
  { apply wp_quiet_bind; [quiet_solve|done|]. intros [] fs3 E3 F3. apply wp_ret.
    apply (one_child_same p1 _ fs1 fs3 Ho1); [by rewrite E3|done..]. }
  destruct r; [|exact Hfail|exact Hfail].
  apply wp_quiet_bind; [quiet_solve|done|]. intros rn fs3 E3 F3.
  assert (Hrest : forall p2 fs4, one_child p2 fs4 ->
    cwp (match aof_ p2 with
         | None => mret (None, told, p2, st)
         | Some a =>
             '(r, a) ← Aof.reset strerror st a;
             mret (match r with Some err => Some (&"restarting the AOF: " ++ err) | None => None end,
                   told, with_aof p2 (Some a), st)
         end) (fun '(_, _, p', _) fs' => one_child p' fs') fs4).
  { intros p2 fs4 Ho2. pose proof (one_child_few _ _ Ho2). destruct (aof_ p2) as [a|] eqn:Ea; [|by apply wp_ret].
    apply wp_quiet_bind; [quiet_solve|done|]. intros [r a'] fs5 E5 F5. apply wp_ret.
    by apply (one_child_same p2 _ fs4 fs5 Ho2). }
  apply wp_bind. destruct rn as [e|].
  - apply wp_quiet_bind; [quiet_solve|done|]. intros [] fs4 E4 F4. apply wp_ret, Hrest.
    apply (one_child_same p1 _ fs1 fs4 Ho1); [by rewrite E4, E3, E2|done..].
  - apply wp_reads; [done|done|]. intros now. apply wp_reads; [done|done|]. intros unix.
    apply wp_ret, Hrest. apply (one_child_same p1 _ fs1 fs3 Ho1); [by rewrite E3, E2|done..].
Qed.

Lemma shutdown_child_wp store p fs :
  one_child p fs ->
  cwp (shutdown strerror store p) (fun '(_, _, p') fs' => one_child p' fs' /\ child_kind_ p' = kNone) fs.
Proof.
  intros Ho. unfold shutdown. apply wp_bind. eapply wp_mono; [by apply kill_child_wp|].
  intros [told p1] fs1 [Ho1 Hk]. pose proof (one_child_few _ _ Ho1) as Hf1.
  assert (Hrest : forall ok p2 fs2, one_child p2 fs2 -> child_kind_ p2 = kNone ->
    cwp (if bool_decide (save_points (options_ p2) = []) then mret (ok, told, p2)
         else '(r, p) ← save strerror store p2; mret ((ok : bool) && bool_decide (r = None), told, p))
      (fun '(_, _, p') fs' => one_child p' fs' /\ child_kind_ p' = kNone) fs2).
  { intros ok p2 fs2 Ho2 Hk2. destruct (bool_decide _); [by apply wp_ret|]. apply wp_bind.
    eapply wp_mono; [by apply save_child_wp|]. intros [r p3] fs3 [Ho3 Hk3]. apply wp_ret.
    split; [done|]. by rewrite Hk3. }
  apply wp_bind. destruct (aof_ p1) as [a|] eqn:Ea; [|apply wp_ret; by apply Hrest].
  apply wp_quiet_bind; [quiet_solve|done|]. intros [ok a'] fs2 E2 F2. apply wp_ret, Hrest; [|done].
  by apply (one_child_same p1 _ fs1 fs2 Ho1).
Qed.

Lemma before_sleep_wp p fs :
  one_child p fs ->
  cwp (before_sleep p) (fun r fs' => match r with Some p' => one_child p' fs' | None => True end) fs.
Proof.
  intros Ho. pose proof (one_child_few _ _ Ho) as Hf. unfold before_sleep.
  destruct (aof_ p) as [a|] eqn:Ea; [|by apply wp_ret].
  apply wp_quiet_bind; [quiet_solve|done|]. intros [ok a'] fs1 E1 F1. cbv zeta.
  destruct (negb ok && _); [by apply wp_ret|]. apply wp_quiet_bind; [quiet_solve|done|].
  intros h fs2 E2 F2. apply wp_ret. destruct (negb _); apply (one_child_same p _ fs fs2 Ho);
    first [by rewrite E2|done|by eexists].
Qed.

Lemma bgsave_child_wp store p fs :
  one_child p fs -> cwp (bgsave strerror store p) (fun '(_, p') fs' => one_child p' fs') fs.
Proof.
  intros Ho. unfold bgsave. destruct (Z.leb_spec 0 (child_pid_ p)) as [Hp|Hp]; [by apply wp_ret|].
  destruct (one_child_idle _ _ Ho Hp) as [Hk _]. apply wp_bind.
  eapply wp_mono; [by apply (start_child_wp kSnapshot store)|]. intros [r p2] fs2 Ho2. by apply wp_ret.
Qed.

Lemma bgrewriteaof_child_wp store p fs :
  one_child p fs -> cwp (bgrewriteaof strerror store p) (fun '(_, p') fs' => one_child p' fs') fs.
Proof.
  intros Ho. unfold bgrewriteaof. destruct (aof_ p) as [a|] eqn:Ea; [|by apply wp_ret].
  destruct (bool_decide _); [by apply wp_ret|].
  destruct (Z.leb_spec 0 (child_pid_ p)) as [Hp|Hp].
  { apply wp_ret. destruct Ho as [Ho1 _]. split; [exact Ho1|]. simpl. by rewrite Ea. }
  destruct (one_child_idle _ _ Ho Hp) as [Hk _]. apply wp_bind.
  eapply wp_mono; [apply (start_child_wp kAofRewrite store); [done|done|done|by eexists]|].
  intros [r p2] fs2 Ho2. by apply wp_ret.
Qed.

Lemma do_pop_child_wp o store p fs :
  one_child p fs ->
  cwp (do_pop strerror o store p) (fun r fs' => match r with Some (_, p') => one_child p' fs' | None => True end) fs.
Proof.
  intros Ho. destruct o; cbn [do_pop]; try (apply wp_bind; eapply wp_mono;
    [first [by apply before_sleep_wp | by apply cron_wp | by apply save_child_wp | by apply bgsave_child_wp
           | by apply bgrewriteaof_child_wp | by apply replace_child_wp | by apply shutdown_child_wp]|]).
  - apply wp_ret. unfold propagate. destruct (loading_ p); [done|].
    cbv zeta. destruct (aof_ _) as [a|] eqn:Ea; by apply (one_child_same p _ fs fs Ho).
  - apply wp_ret. unfold count_change. destruct (negb _); [by apply (one_child_same p _ fs fs Ho)|done].
  - intros [p'|] fs' H; by apply wp_ret.
  - intros [told p'] fs' H. by apply wp_ret.
  - intros [r p'] fs' [H _]. by apply wp_ret.
  - intros [r p'] fs' H. by apply wp_ret.
  - intros [r p'] fs' H. by apply wp_ret.
  - intros [[[r told] p'] st] fs' H. by apply wp_ret.
  - intros [[r told] p'] fs' [H _]. by apply wp_ret.
Qed.

Lemma do_pops_child_wp os : forall p fs,
  one_child p fs ->
  cwp (do_pops strerror os p) (fun r fs' => match r with Some p' => one_child p' fs' | None => True end) fs.
Proof.
  induction os as [|[o store] os IH]; intros p fs Ho; [by apply wp_ret|]. cbn [do_pops]. apply wp_bind.
  eapply wp_mono; [by apply do_pop_child_wp|]. intros [[told p']|] fs' H; [by apply IH|by apply wp_ret].
Qed.
End one_child.

(** ** Counting changes *)

(** The changes so far, how many of them the last successful snapshot contains,
    and how many the one being written will contain. *)
Record ledger := mkLedger { total : Z; saved : Z; forked : Z }.

Definition balanced (L : ledger) (p : Persistence) : Prop :=
  loading_ p = false /\ 0 <= saved L <= total L /\ dirty_ p = u64 (total L - saved L) /\
  (child_kind_ p = kSnapshot ->
     0 <= child_pid_ p /\ saved L <= forked L <= total L /\ dirty_at_fork_ p = u64 (forked L - saved L)).

Definition after_cron (L : ledger) (p : Persistence) (told : list bool) (p' : Persistence) : ledger :=
  mkLedger (total L) (if bool_decide (told = [true]) then forked L else saved L)
    (if bool_decide (child_kind_ p' = kSnapshot) &&
        (negb (bool_decide (child_kind_ p = kSnapshot)) || negb (bool_decide (told = [])))
     then total L else forked L).

(** The operations of a running server, with the books kept from what they
    report. *)
Definition do_booked (strerror : Z -> bytes) (o : pop) (store : KvStore) (L : ledger) (p : Persistence)
  : prog (option (ledger * Persistence)) :=
  let bump := mkLedger (total L + 1) (saved L) (forked L) in
  match o with
  | PPropagate argv => mret (Some (bump, propagate argv p))
  | PCount => mret (Some (bump, count_change p))
  | PSleep => r ← before_sleep p; mret (match r with Some p => Some (L, p) | None => None end)
  | PCron => '(told, p') ← cron strerror store p; mret (Some (after_cron L p told p', p'))
  | PSave =>
      '(r, p) ← save strerror store p;
      mret (Some (if bool_decide (r = None) then mkLedger (total L) (total L) (forked L) else L, p))
  | PBgsave =>
      '(r, p) ← bgsave strerror store p;
      mret (Some (if bool_decide (r = None) then mkLedger (total L) (saved L) (total L) else L, p))
  | PBgrewrite => '(_, p) ← bgrewriteaof strerror store p; mret (Some (L, p))
  | PReplace _ | PShutdown => mret None
  end.

Fixpoint do_books (strerror : Z -> bytes) (os : list (pop * KvStore)) (L : ledger) (p : Persistence)
  : prog (option (ledger * Persistence)) :=
  match os with
  | [] => mret (Some (L, p))
  | (o, store) :: os =>
      r ← do_booked strerror o store L p;
      match r with None => mret None | Some (L, p) => do_books strerror os L p end
  end.

Section books.
Context (strerror : Z -> bytes).
Abbreviation bwp := (wp (fun _ => True) (fun _ => True)).

Lemma wp_any {A} (p : prog A) fs : bwp p (fun _ _ => True) fs.
Proof. revert fs. induction p as [a|R c k IH]; intros fs; [done|]. intros ch _. split; [done|apply IH]. Qed.

(** A sub-program whose effects do not matter. *)
Lemma wp_skip {A B} (q : prog A) (f : A -> prog B) Q fs : (forall a fs, bwp (f a) Q fs) -> bwp (q ≫= f) Q fs.
Proof. intros H. apply wp_bind. eapply wp_mono; [apply wp_any|]. intros a fs' _. apply H. Qed.

Lemma balanced_same L p p' :
  balanced L p -> loading_ p' = loading_ p -> dirty_ p' = dirty_ p -> child_kind_ p' = child_kind_ p ->
  child_pid_ p' = child_pid_ p -> dirty_at_fork_ p' = dirty_at_fork_ p -> balanced L p'.
Proof. intros (B1 & B2 & B3 & B4) E1 E2 E3 E4 E5. unfold balanced. by rewrite E1, E2, E3, E4, E5. Qed.

(** What starting a child does to the books. *)
Lemma start_child_books kind store L p fs :
  balanced L p -> child_kind_ p <> kSnapshot ->
  bwp (start_child strerror kind store p)
    (fun '(r, p') _ =>
       balanced (if bool_decide (kind = kSnapshot /\ r = None) then mkLedger (total L) (saved L) (total L) else L) p' /\
       (child_kind_ p' = kSnapshot <-> kind = kSnapshot /\ r = None)) fs.
Proof.
  intros (B1 & B2 & B3 & B4) Hk. unfold start_child. apply wp_reads; [done|done|]. intros now.
  assert (Hfork : forall p1 fs1, loading_ p1 = false -> dirty_ p1 = dirty_ p -> child_kind_ p1 = child_kind_ p ->
    bwp (pid ← call (Fork (child_temp_path kind p1) (child_data store));
       match pid with
       | Err e =>
           mret (Some (&"fork: " ++ strerror e),
                 match kind with
                 | kSnapshot => with_bgsave p1 false (last_bgsave_try_ p1)
                 | _ => with_rewrite p1 false (last_rewrite_try_ p1) (rewrite_scheduled_ p1)
                 end)
       | Ok pid =>
           unix ← call Unix_now;
           mret (None : option bytes, with_child p1 pid kind now unix (dirty_ p1))
       end)
      (fun '(r, p') _ =>
         balanced (if bool_decide (kind = kSnapshot /\ r = None) then mkLedger (total L) (saved L) (total L) else L) p' /\
         (child_kind_ p' = kSnapshot <-> kind = kSnapshot /\ r = None)) fs1).
  { intros p1 fs1 L1 D1 K1. apply wp_fork; [done| |].
    - intros e. apply wp_ret. rewrite bool_decide_eq_false_2 by naive_solver.
      assert (Hb : forall p2, loading_ p2 = loading_ p1 -> dirty_ p2 = dirty_ p1 -> child_kind_ p2 = child_kind_ p1 ->
        balanced L p2 /\ (child_kind_ p2 = kSnapshot <-> kind = kSnapshot /\ Some (&"fork: " ++ strerror e) = None)).
      { intros p2 L2 D2 K2. split; [|split; [congruence|by intros [_ ?]]].
        unfold balanced. rewrite L2, D2, K2, L1, D1, K1. split_and!; [done|lia|lia|done|done]. }
      destruct kind; by apply Hb.
    - intros pid Hpid. cbv zeta. split; [done|]. apply wp_reads; [done|done|]. intros unix. apply wp_ret.
      split; [|simpl; naive_solver]. unfold balanced. simpl. rewrite L1, D1.
      destruct kind; simpl; split_and!; try done; try lia.
      all: rewrite ?bool_decide_eq_true_2 by done; simpl; try lia; try done. }
  assert (Hb0 : forall p1, loading_ p1 = loading_ p -> dirty_ p1 = dirty_ p -> child_kind_ p1 = child_kind_ p ->
    balanced L p1).
  { intros p1 L1 D1 K1. unfold balanced. rewrite L1, D1, K1. split_and!; [done|lia|lia|done|done]. }
  destruct kind; try (apply wp_bind, wp_ret; by apply Hfork).
  destruct (aof_ p) as [a|] eqn:Ea; [|apply wp_bind, wp_ret; by apply Hfork].
  cbv zeta. apply wp_bind, wp_skip. intros [[err|] a'] fs1; apply wp_ret; [|by apply Hfork].
  apply wp_ret. rewrite bool_decide_eq_false_2 by naive_solver. split; [by apply Hb0|].
  split; [by intros E; destruct Hk|by intros [_ ?]].
Qed.

Lemma u64_sub_sub a b c : u64 (u64 (a - b) - u64 (c - b)) = u64 (a - c).
Proof. unfold u64. rewrite <-Zminus_mod. f_equal. lia. Qed.

(** What the end of a child does to the books. *)
Lemma finish_child_books ok L p fs :
  balanced L p ->
  bwp (finish_child strerror ok p)
    (fun '(told, p') _ =>
       child_kind_ p' = kNone /\ (child_kind_ p = kSnapshot -> told <> []) /\
       (child_kind_ p <> kSnapshot -> told = []) /\
       balanced (mkLedger (total L) (if bool_decide (told = [true]) then forked L else saved L) (forked L)) p') fs.
Proof.
  intros (B1 & B2 & B3 & B4). unfold finish_child. cbv zeta.
  destruct (child_kind_ p) eqn:Ek.
  2: { destruct (B4 eq_refl) as (Hp & Hf & Hd). apply wp_skip. intros [e|] fs1.
       - apply wp_skip. intros [] fs2. apply wp_ret. split_and!; [done|done|done|].
         rewrite bool_decide_eq_false_2 by done. unfold balanced. simpl. split_and!; [done|lia|lia|done|done].
       - apply wp_ret. split_and!; [done|done|done|]. rewrite bool_decide_eq_true_2 by done.
         unfold balanced. simpl. split_and!; [done|lia|lia| |done]. by rewrite B3, Hd, u64_sub_sub. }
  all: destruct (aof_ p) as [a|] eqn:Ea; [apply wp_skip; intros [r a'] fs1|];
    apply wp_ret; (split_and!; [done|done|done|]); rewrite bool_decide_eq_false_2 by done;
    unfold balanced; simpl; (split_and!; [done|lia|lia|done|done]).
Qed.

Lemma reap_child_books L p fs :
  balanced L p ->
  bwp (reap_child strerror p)
    (fun '(told, p') _ =>
       ((p' = p /\ told = []) \/
        (child_kind_ p' = kNone /\ (child_kind_ p = kSnapshot -> told <> []))) /\
       balanced (mkLedger (total L) (if bool_decide (told = [true]) then forked L else saved L) (forked L)) p') fs.
Proof.
  intros Hb. unfold reap_child.
  assert (Hsame : forall fs, bwp (mret ([], p)) (fun '(told, p') _ =>
       ((p' = p /\ told = []) \/
        (child_kind_ p' = kNone /\ (child_kind_ p = kSnapshot -> told <> []))) /\
       balanced (mkLedger (total L) (if bool_decide (told = [true]) then forked L else saved L) (forked L)) p') fs).
  { intros fs1. apply wp_ret. split; [by left|]. rewrite bool_decide_eq_false_2 by done. by destruct L. }
  destruct (child_pid_ p <? 0); [apply Hsame|].
  apply wp_waitpid; [done|apply Hsame|]. intros ok. split; [done|].
  eapply wp_mono; [by apply finish_child_books|]. intros [told p'] fs' (K1 & K2 & K3 & K4). split; [by right|done].
Qed.

Lemma cron_books store L p fs :
  balanced L p ->
  bwp (cron strerror store p) (fun '(told, p') _ => balanced (after_cron L p told p') p') fs.
Proof.
  intros Hb. unfold cron. apply wp_bind. eapply wp_mono; [by apply reap_child_books|].
  intros [told p1] fs1 [Hcase Hb1]. set (L1 := mkLedger _ _ _) in Hb1.
  assert (Hdone : forall p2, child_kind_ p2 <> kSnapshot -> balanced L1 p2 -> balanced (after_cron L p told p2) p2).
  { intros p2 Hk2 H2. unfold after_cron. rewrite (bool_decide_eq_false_2 (child_kind_ p2 = kSnapshot)) by done. exact H2. }
  assert (Hstarted : forall p2, child_kind_ p2 = kSnapshot -> (child_kind_ p = kSnapshot -> told <> []) ->
    balanced (mkLedger (total L1) (saved L1) (total L1)) p2 -> balanced (after_cron L p told p2) p2).
  { intros p2 Hk2 Ht H2. unfold after_cron. rewrite (bool_decide_eq_true_2 (child_kind_ p2 = kSnapshot)) by done.
    destruct (bool_decide_reflect (child_kind_ p = kSnapshot)) as [Hk|Hk]; [|exact H2].
    rewrite (bool_decide_eq_false_2 (told = [])) by auto. exact H2. }
  assert (Hrunning : 0 <= child_pid_ p1 \/ child_kind_ p1 <> kSnapshot).
  { destruct (decide (child_kind_ p1 = kSnapshot)) as [E|]; [left|by right].
    destruct Hb1 as (_ & _ & _ & B4). by destruct (B4 E). }
  assert (Hkeep : balanced (after_cron L p told p1) p1).
  { destruct (decide (child_kind_ p1 = kSnapshot)) as [E|]; [|by apply Hdone].
    destruct Hcase as [[-> ->]|[E' _]]; [|congruence]. unfold after_cron.
    rewrite (bool_decide_eq_true_2 (child_kind_ p = kSnapshot)) by done. exact Hb1. }
  destruct (Z.leb_spec 0 (child_pid_ p1)) as [Hp|Hp]; [by apply wp_ret|].
  assert (Hns : child_kind_ p1 <> kSnapshot) by (destruct Hrunning; [lia|done]).
  assert (Ht : child_kind_ p = kSnapshot -> told <> []).
  { destruct Hcase as [[-> ->]|[_ Ht]]; [by intros ?|exact Ht]. }
  apply wp_reads; [done|done|]. intros now.
  destruct (rewrite_scheduled_ p1 || aof_needs_rewrite now p1).
  - cbv zeta. apply wp_bind. eapply wp_mono; [apply (start_child_books kAofRewrite store L1); [|done]|].
    { by eapply balanced_same. }
    intros [r p2] fs2 [H2 Hk2]. rewrite bool_decide_eq_false_2 in H2 by naive_solver.
    apply wp_ret. apply Hdone; [naive_solver|done].
  - destruct (save_point_reached now p1); [|by apply wp_ret]. apply wp_bind.
    eapply wp_mono; [by apply (start_child_books kSnapshot store L1)|]. intros [r p2] fs2 [H2 Hk2]. apply wp_ret.
    destruct r as [err|].
    + rewrite bool_decide_eq_false_2 in H2 by naive_solver. apply Hdone; [naive_solver|done].
    + rewrite bool_decide_eq_true_2 in H2 by done. apply Hstarted; [naive_solver|done|done].
Qed.

Lemma save_books store L p fs :
  balanced L p ->
  bwp (save strerror store p)
    (fun '(r, p') _ => balanced (if bool_decide (r = None) then mkLedger (total L) (total L) (forked L) else L) p') fs.
Proof.
  intros Hb. pose proof Hb as (B1 & B2 & B3 & B4). unfold save.
  destruct (bool_decide_reflect (child_kind_ p = kSnapshot)) as [Hk|Hk]; [by apply wp_ret|].
  apply wp_skip. intros [e|] fs1; [by apply wp_ret|].
  apply wp_reads; [done|done|]. intros now. apply wp_reads; [done|done|]. intros unix. apply wp_ret.
  rewrite bool_decide_eq_true_2 by done. unfold balanced. simpl. rewrite Z.sub_diag. split_and!; [done|lia|lia|done|done].
Qed.

Lemma bgsave_books store L p fs :
  balanced L p ->
  bwp (bgsave strerror store p)
    (fun '(r, p') _ => balanced (if bool_decide (r = None) then mkLedger (total L) (saved L) (total L) else L) p') fs.
Proof.
  intros Hb. pose proof Hb as (B1 & B2 & B3 & B4). unfold bgsave.
  destruct (Z.leb_spec 0 (child_pid_ p)) as [Hp|Hp]; [by apply wp_ret|].
  assert (Hk : child_kind_ p <> kSnapshot) by (intros E; destruct (B4 E); lia).
  apply wp_bind. eapply wp_mono; [by apply (start_child_books kSnapshot store L)|].
  intros [[err|] p2] fs2 [H2 _]; apply wp_ret.
  - rewrite bool_decide_eq_false_2 in H2 by naive_solver. by rewrite bool_decide_eq_false_2.
  - rewrite bool_decide_eq_true_2 in H2 by done. by rewrite bool_decide_eq_true_2.
Qed.

Lemma bgrewriteaof_books store L p fs :
  balanced L p -> bwp (bgrewriteaof strerror store p) (fun '(_, p') _ => balanced L p') fs.
Proof.
  intros Hb. pose proof Hb as (B1 & B2 & B3 & B4). unfold bgrewriteaof.
  destruct (aof_ p) as [a|]; [|by apply wp_ret]. destruct (bool_decide _); [by apply wp_ret|].
  destruct (Z.leb_spec 0 (child_pid_ p)) as [Hp|Hp]; [apply wp_ret; by eapply balanced_same|].
  assert (Hk : child_kind_ p <> kSnapshot) by (intros E; destruct (B4 E); lia).
  apply wp_bind. eapply wp_mono; [by apply (start_child_books kAofRewrite store L)|].
  intros [r p2] fs2 [H2 _]. rewrite bool_decide_eq_false_2 in H2 by naive_solver. by apply wp_ret.
Qed.

Lemma before_sleep_books L p fs :
  balanced L p -> bwp (before_sleep p) (fun r _ => match r with Some p' => balanced L p' | None => True end) fs.
Proof.
  intros Hb. unfold before_sleep. destruct (aof_ p) as [a|]; [|by apply wp_ret].
  apply wp_skip. intros [ok a'] fs1. cbv zeta. destruct (negb ok && _); [by apply wp_ret|].
  apply wp_skip. intros h fs2. apply wp_ret. destruct (negb _); by eapply balanced_same.
Qed.

Lemma bump_books L p p' :
  balanced L p -> loading_ p' = false -> dirty_ p' = u64 (dirty_ p + 1) -> child_kind_ p' = child_kind_ p ->
  child_pid_ p' = child_pid_ p -> dirty_at_fork_ p' = dirty_at_fork_ p ->
  balanced (mkLedger (total L + 1) (saved L) (forked L)) p'.
Proof.
  intros (B1 & B2 & B3 & B4) E1 E2 E3 E4 E5. unfold balanced. simpl. rewrite E1, E2, E3, E4, E5, B3, u64_add_l.
  split_and!; [done|lia|lia|f_equal; lia|]. intros E. destruct (B4 E) as (? & ? & ?). split_and!; [done|lia|lia|done].
Qed.

Lemma do_books_wp os : forall L p fs,
  balanced L p ->
  bwp (do_books strerror os L p) (fun r _ => match r with Some (L', p') => balanced L' p' | None => True end) fs.
Proof.
  induction os as [|[o store] os IH]; intros L p fs Hb; [by apply wp_ret|]. cbn [do_books]. apply wp_bind.
  eapply (wp_mono _ _ _ (fun r _ => match r with Some (L', p') => balanced L' p' | None => True end)).
  2: { intros [[L' p']|] fs' H; [by apply IH|by apply wp_ret]. }
  pose proof Hb as (B1 & _).
  destruct o; cbn [do_booked]; cbv zeta; try (by apply wp_ret); try (apply wp_bind; eapply wp_mono;
    [first [by apply before_sleep_books | by apply cron_books | by apply save_books | by apply bgsave_books
           | by apply bgrewriteaof_books]|]).
  - apply wp_ret. unfold propagate. rewrite B1. cbv zeta. destruct (aof_ _); by eapply bump_books.
  - apply wp_ret. unfold count_change. rewrite B1. by eapply bump_books.
  - intros [p'|] fs' H; by apply wp_ret.
  - intros [told p'] fs' H. by apply wp_ret.
  - intros [r p'] fs' H. by apply wp_ret.
  - intros [r p'] fs' H. by apply wp_ret.
  - intros [r p'] fs' H. by apply wp_ret.
Qed.
End books.

(** ** The snapshot on the disk *)

Definition snap (s : KvStore) : bytes := Snapshot.file_of (Snapshot.saved s).

Lemma child_data_snap s : child_data s = snap s.
Proof.
  unfold child_data. pose proof (Snapshot.write_file_spec true true true [] s) as H.
  destruct (Snapshot.write_file _ _ _ _ _) as [ok file]. destruct H as [H1 H2]. apply H1, H2; done.
Qed.

Section on_disk.
(** The path of the snapshot. *)
Context (spath : bytes).

(** It holds a snapshot of [s], complete and synced, or there is none. *)
Definition holds_one (o : option KvStore) (I : gmap ino Inode) (d : dirmap) : Prop :=
  match o with Some s => file_is I spath (snap s) d | None => d !! spath = None end.

(** Whatever survives a crash is one of [cs]. *)
Definition among (cs : list (option KvStore)) (fs : FS) : Prop :=
  fs_ok fs /\ crash_dirs fs (fun d => exists o, o ∈ cs /\ holds_one o (inodes fs) d).

Lemma among_mono cs cs' fs : cs ⊆ cs' -> among cs fs -> among cs' fs.
Proof.
  intros Hs [H1 H2]. split; [done|]. eapply crash_dirs_mono; [exact H2|]. intros d (o & Ho & Hd).
  exists o. split; [by apply Hs|done].
Qed.

(** The inode [i] is not the one of the snapshot. *)
Definition apart (i : ino) (fs : FS) : Prop := crash_dirs fs (fun d => d !! spath <> Some i).

Lemma holds_one_link o I d q i : q <> spath -> holds_one o I d -> holds_one o I (<[q := i]> d).
Proof. intros Hq. destruct o as [s|]; [by apply file_is_link|]. simpl. by rewrite lookup_insert_ne. Qed.

Lemma holds_one_unlink o I d q : q <> spath -> holds_one o I d -> holds_one o I (delete q d).
Proof. intros Hq. destruct o as [s|]; [by apply file_is_unlink|]. simpl. by rewrite lookup_delete_ne. Qed.

Lemma holds_one_agree o I I' d b :
  dir_ok b d -> (forall i, (i < b)%nat -> I' !! i = I !! i) -> holds_one o I d -> holds_one o I' d.
Proof. intros Hd HI. destruct o as [s|]; [by eapply file_is_agree|done]. Qed.

Lemma holds_one_inode o I d i n : d !! spath <> Some i -> holds_one o I d -> holds_one o (<[i := n]> I) d.
Proof. intros Hd. destruct o as [s|]; [by apply file_is_inode|done]. Qed.

Lemma among_link cs fs q n : q <> spath -> among cs fs -> among cs (link_new q n fs).
Proof.
  intros Hq [H1 H2]. split; [by apply fs_ok_link_new|]. unfold link_new.
  assert (Hag : forall o d, dir_ok (next_ino fs) d -> holds_one o (inodes fs) d ->
    holds_one o (<[next_ino fs := n]> (inodes fs)) d).
  { intros o d Hd. eapply holds_one_agree; [exact Hd|]. intros i Hi. by rewrite lookup_insert_ne by lia. }
  apply crash_dirs_push; simpl.
  - intros k. destruct (H2 k) as (o & Ho & Hd). exists o. split; [done|]. apply Hag; [apply H1|done].
  - destruct (crash_dirs_now fs _ H2) as (o & Ho & Hd). exists o. split; [done|].
    apply holds_one_link; [done|]. apply Hag; [exact (fs_ok_dir fs H1)|done].
Qed.

Lemma apart_link fs q n : q <> spath -> fs_ok fs -> apart (next_ino fs) (link_new q n fs).
Proof.
  intros Hq [H1 _]. unfold link_new. apply crash_dirs_push; simpl.
  - intros k E. destruct (H1 k) as [Hb _]. specialize (Hb _ _ E). lia.
  - rewrite lookup_insert_ne by done. intros E. destruct (crash_dirs_now fs _ H1) as [Hb _].
    specialize (Hb _ _ E). lia.
Qed.

Lemma among_write cs fs i n :
  (i < next_ino fs)%nat -> apart i fs -> among cs fs -> among cs (set_inode i n fs).
Proof.
  intros Hi Ha [H1 H2]. split; [by apply fs_ok_set_inode|]. intros k. simpl.
  destruct (H2 k) as (o & Ho & Hd). exists o. split; [done|]. apply holds_one_inode; [apply Ha|done].
Qed.

Lemma apart_write i j n fs : apart i fs -> apart i (set_inode j n fs).
Proof. done. Qed.

Lemma among_unlink cs fs q : q <> spath -> among cs fs -> among cs (push (DUnlink q) fs).
Proof.
  intros Hq [H1 H2]. split; [apply fs_ok_push; [done|by apply dir_ok_unlink, fs_ok_dir]|].
  apply crash_dirs_push; [done|]. destruct (crash_dirs_now fs _ H2) as (o & Ho & Hd). exists o.
  split; [done|]. by apply holds_one_unlink.
Qed.

Lemma among_rename cs fs q s :
  among cs fs -> file_is (inodes fs) q (snap s) (dir fs) ->
  among (Some s :: cs) (push (DRename q spath) fs) /\
  holds_one (Some s) (inodes (push (DRename q spath) fs)) (dir (push (DRename q spath) fs)).
Proof.
  intros [H1 H2] Hf.
  assert (Hn : holds_one (Some s) (inodes fs) (apply_dirop (dir fs) (DRename q spath))).
  { by apply Aof.file_is_renamed. }
  split; [|by rewrite dir_push].
  split; [apply fs_ok_push; [done|by apply dir_ok_rename, fs_ok_dir]|].
  apply crash_dirs_push.
  - eapply crash_dirs_mono; [exact H2|]. intros d (o & Ho & Hd). exists o. split; [by right|done].
  - exists (Some s). split; [by left|done].
Qed.

Lemma among_sync o fs : fs_ok fs -> holds_one o (inodes fs) (dir fs) -> among [o] (sync_dir fs).
Proof. intros H1 H2. split; [by apply fs_ok_sync|]. apply crash_dirs_sync. exists o. split; [by left|done]. Qed.

Section calls.
Context (C : list (option KvStore)).
Abbreviation swp := (wp (fun _ => True) (among C)).

Lemma wp_unlink_temp cs fs q {B} (f : unit -> prog B) Q :
  cs ⊆ C -> q <> spath -> among cs fs ->
  (forall fs', among cs fs' -> children fs' = children fs -> swp (f tt) Q fs') ->
  swp (call (Unlink q) ≫= f) Q fs.
Proof.
  intros HC Hq Ha Hf. pose proof (among_unlink _ _ _ Hq Ha) as Ha'.
  apply wp_unlink; [by eapply among_mono|by eapply among_mono|by apply Hf|by apply Hf].
Qed.

(** The rename is the commit point. *)
Lemma durable_rename_wp cs fs q s :
  Some s :: cs ⊆ C -> among cs fs -> file_is (inodes fs) q (snap s) (dir fs) ->
  swp (durable_rename q spath)
    (fun r fs' => children fs' = children fs /\
       match r with None => among [Some s] fs' | Some _ => among (Some s :: cs) fs' end) fs.
Proof.
  intros HC Ha Hf. assert (Ha' : among (Some s :: cs) fs).
  { eapply among_mono; [|exact Ha]. intros o Ho. by right. }
  unfold durable_rename. apply wp_rename; [by eapply among_mono|intros e; by apply wp_ret|].
  intros i Hi. destruct (among_rename _ _ _ _ Ha Hf) as [H1 H2]. split; [by eapply among_mono|].
  unfold fsync_dir. intros ch _. simpl. unfold guarded. destruct (c_dir_errno ch); simpl.
  - split; [by eapply among_mono|]. by split.
  - pose proof (among_sync _ _ (proj1 H1) H2) as H3.
    split; [|by split]. eapply among_mono; [|exact H3]. intros o ->%list_elem_of_singleton. apply HC. by left.
Qed.

Lemma write_file_disk_wp cs fs store q :
  cs ⊆ C -> q <> spath -> among cs fs ->
  swp (write_file store q)
    (fun r fs' => among cs fs' /\ children fs' = children fs /\
       (r = None -> file_is (inodes fs') q (snap store) (dir fs'))) fs.
Proof.
  intros HC Hq Ha. unfold write_file.
  assert (HI : forall fs, among cs fs -> among C fs) by (intros fs'; by apply among_mono).
  pose proof (among_link cs fs q (mkInode [] 0) Hq Ha) as Ha1.
  pose proof (apart_link fs q (mkInode [] 0) Hq (proj1 Ha)) as Hp1.
  apply wp_open_trunc; [by apply HI|intros e; by apply wp_ret|by apply HI|].
  set (fs1 := link_new q _ fs) in *.
  assert (Hd : dir fs1 !! q = Some (next_ino fs))
    by (unfold fs1, link_new; rewrite dir_push; simpl; by rewrite lookup_insert_eq).
  assert (Hi : inode_of fs1 (next_ino fs) = mkInode [] 0)
    by (unfold inode_of, fs1, link_new; simpl; by rewrite lookup_insert_eq).
  assert (Hb : (next_ino fs < next_ino fs1)%nat) by (unfold fs1; simpl; lia).
  apply wp_writes. intros rs e. cbv zeta. rewrite Hi. cbn [content synced app].
  pose proof (Snapshot.write_file_spec true true true rs store) as Hw.
  destruct (Snapshot.write_file true true true rs store) as [flushed out]. destruct Hw as [Hw _].
  cbn [fst snd] in *. set (fs2 := set_inode _ _ fs1).
  assert (Ha2 : among cs fs2) by (by apply among_write). split; [by apply HI|]. apply wp_bind. destruct flushed.
  - assert (out = snap store) as -> by (by apply Hw). apply wp_fsync; [by apply HI| |].
    + intros e'. apply wp_ret, wp_close; [by apply HI|]. intros r. by apply wp_ret.
    + cbv zeta. assert (Hi2 : inode_of fs2 (next_ino fs) = mkInode (snap store) 0)
        by (unfold inode_of, fs2; simpl; by rewrite lookup_insert_eq).
      rewrite Hi2. cbn [content]. set (fs3 := set_inode _ _ fs2).
      assert (Ha3 : among cs fs3) by (by apply among_write). split; [by apply HI|].
      apply wp_ret, wp_close; [by apply HI|]. intros r. apply wp_ret. split_and!; [done|done|]. intros _.
      exists (next_ino fs). split; [done|]. simpl. apply lookup_insert_eq.
  - apply wp_ret, wp_close; [by apply HI|]. intros r. by apply wp_ret.
Qed.

Lemma sys_save_disk_wp cs fs store :
  Some store :: cs ⊆ C ->
  (forall pid, join (dirname spath) (&"temp-" ++ to_string pid ++ &".snap") <> spath) -> among cs fs ->
  swp (Sys.save store spath)
    (fun r fs' => children fs' = children fs /\
       match r with None => among [Some store] fs' | Some _ => among (Some store :: cs) fs' end) fs.
Proof.
  intros HC Htmp Ha. unfold Sys.save.
  assert (HC' : cs ⊆ C) by (intros o Ho; apply HC; by right).
  assert (Hmore : forall fs, among cs fs -> among (Some store :: cs) fs)
    by (intros fs' Ha'; eapply among_mono; [|exact Ha']; intros o Ho; by right).
  apply wp_reads; [by eapply among_mono|done|]. intros pid. cbv zeta. specialize (Htmp pid). set (temp := join _ _) in *.
  apply wp_bind. eapply wp_mono; [by apply (write_file_disk_wp cs)|]. intros [e|] fs1 (Ha1 & Hc1 & Hf).
  { apply wp_bind, wp_ret. eapply wp_unlink_temp; [exact HC'|done|exact Ha1|]. intros fs2 Ha2 Hc2. apply wp_ret.
    split; [by rewrite Hc2|by apply Hmore]. }
  apply wp_bind. eapply wp_mono; [by apply (durable_rename_wp cs); [..|apply Hf]|].
  intros [e|] fs2 [Hc2 Ha2].
  - eapply wp_unlink_temp; [exact HC|done|exact Ha2|]. intros fs3 Ha3 Hc3. apply wp_ret. split; [|done].
    by rewrite Hc3, Hc2.
  - apply wp_ret. split; [by rewrite Hc2|done].
Qed.
End calls.
End on_disk.

(** ** A server that only takes snapshots *)

(** The state, what the snapshot's path may hold after a crash, and the
    dataset that the child is saving. *)
Record snaps := mkSnaps { s_p : Persistence; s_disk : list (option KvStore); s_child : option KvStore }.

(** From what the operations report: a save that succeeded is the only snapshot
    there is, one that failed may or may not have reached the disk. *)
Definition told_disk (told : list bool) (X : snaps) : list (option KvStore) :=
  match told with
  | [true] => [s_child X]
  | [false] => s_child X :: s_disk X
  | _ => s_disk X
  end.

Definition do_snap (strerror : Z -> bytes) (o : pop) (store : KvStore) (X : snaps) : prog (option snaps) :=
  let p := s_p X in
  match o with
  | PPropagate argv => mret (Some (mkSnaps (propagate argv p) (s_disk X) (s_child X)))
  | PCount => mret (Some (mkSnaps (count_change p) (s_disk X) (s_child X)))
  | PSleep =>
      r ← before_sleep p;
      mret (match r with Some p => Some (mkSnaps p (s_disk X) (s_child X)) | None => None end)
  | PCron =>
      '(told, p') ← cron strerror store p;
      let started := negb (bool_decide (child_kind_ p = kSnapshot)) || negb (bool_decide (told = [])) in
      mret (Some (mkSnaps p' (told_disk told X) (if started then Some store else s_child X)))
  | PSave =>
      '(r, p) ← save strerror store p;
      mret (Some (mkSnaps p (if bool_decide (r = None) then [Some store] else Some store :: s_disk X) (s_child X)))
  | PBgsave =>
      '(r, p) ← bgsave strerror store p;
      mret (Some (mkSnaps p (s_disk X) (if bool_decide (r = None) then Some store else s_child X)))
  | PBgrewrite => '(_, p) ← bgrewriteaof strerror store p; mret (Some (mkSnaps p (s_disk X) (s_child X)))
  | PReplace _ | PShutdown => mret None
  end.

Fixpoint do_snaps (strerror : Z -> bytes) (os : list (pop * KvStore)) (X : snaps) : prog (option snaps) :=
  match os with
  | [] => mret (Some X)
  | (o, store) :: os =>
      r ← do_snap strerror o store X;
      match r with None => mret None | Some X => do_snaps strerror os X end
  end.

Section snapshots.
Context (strerror : Z -> bytes) (opts : Options).
Abbreviation spath := (join (opt_dir opts) (dbfilename opts)).
Abbreviation temp pid := (join (opt_dir opts) (&"temp-" ++ to_string pid ++ &".snap")).

(** The snapshot is not named like a temporary file. *)
Definition names_apart : Prop :=
  forall pid, temp pid <> spath /\ join (dirname spath) (&"temp-" ++ to_string pid ++ &".snap") <> spath.

Context (Hnames : names_apart).

Definition plain_p (p : Persistence) : Prop :=
  options_ p = opts /\ aof_ p = None /\ rewrite_scheduled_ p = false.

Definition child_saves (X : snaps) (fs : FS) : Prop :=
  match child_kind_ (s_p X) with
  | kNone => child_pid_ (s_p X) < 0
  | kSnapshot => 0 <= child_pid_ (s_p X) /\
      exists s, s_child X = Some s /\ children fs !! child_pid_ (s_p X) = Some (temp (child_pid_ (s_p X)), snap s)
  | kAofRewrite => False
  end.

Definition snap_ok (X : snaps) (fs : FS) : Prop :=
  among spath (s_disk X) fs /\ plain_p (s_p X) /\ child_saves X fs.

Section disk.
Context (C : list (option KvStore)).
Abbreviation swp := (wp (fun _ => True) (among spath C)).

Lemma finish_child_disk_wp ok p cs s fs :
  Some s :: cs ⊆ C -> among spath cs fs -> plain_p p -> child_kind_ p = kSnapshot ->
  (ok = true -> file_is (inodes fs) (temp (child_pid_ p)) (snap s) (dir fs)) ->
  swp (finish_child strerror ok p)
    (fun '(told, p') fs' => plain_p p' /\ child_kind_ p' = kNone /\ child_pid_ p' < 0 /\
       ((told = [true] /\ among spath [Some s] fs') \/ (told = [false] /\ among spath (Some s :: cs) fs'))) fs.
Proof.
  intros HC Ha (P1 & P2 & P3) Hk Hf. unfold finish_child. rewrite Hk. cbv zeta.
  assert (HC' : cs ⊆ C) by (intros o Ho; apply HC; by right).
  assert (Ep : snapshot_path p = spath) by (unfold snapshot_path; by rewrite P1).
  assert (Et : child_temp_path kSnapshot p (child_pid_ p) = temp (child_pid_ p))
    by (unfold child_temp_path; by rewrite P1).
  rewrite Et, Ep. destruct (Hnames (child_pid_ p)) as [Hne _].
  assert (Hfail : forall e fs', among spath (Some s :: cs) fs' ->
    swp (match Some e : option Z with
         | None => mret ([true], p)
         | Some _ =>
            _ ← call (Unlink (temp (child_pid_ p)));
            mret ([false], with_child (with_bgsave p false (last_bgsave_try_ p)) (-1) kNone
              (child_start_ p) (child_start_unix_ p) (dirty_at_fork_ p))
         end)
      (fun '(told, p') fs' => plain_p p' /\ child_kind_ p' = kNone /\ child_pid_ p' < 0 /\
         ((told = [true] /\ among spath [Some s] fs') \/ (told = [false] /\ among spath (Some s :: cs) fs'))) fs').
  { intros e fs' Ha'. eapply wp_unlink_temp; [exact HC|exact Hne|exact Ha'|]. intros fs2 Ha2 _. apply wp_ret.
    split_and!; [done..|]. by right. }
  apply wp_bind. destruct ok.
  - eapply wp_mono; [by apply (durable_rename_wp spath C cs); [..|apply Hf]|].
    intros [e|] fs1 [_ Ha1]; [by apply (Hfail e)|]. apply wp_ret. split_and!; [done..|]. by left.
  - apply wp_ret. apply (Hfail 0). eapply among_mono; [|exact Ha]. intros o Ho. by right.
Qed.

Lemma reap_child_disk_wp X fs :
  from_option (fun s => [Some s]) [] (s_child X) ++ s_disk X ⊆ C -> snap_ok X fs ->
  swp (reap_child strerror (s_p X))
    (fun '(told, p') fs' => plain_p p' /\ among spath (told_disk told X) fs' /\
       ((told = [] /\ p' = s_p X /\ child_saves X fs') \/
        (told <> [] /\ child_kind_ (s_p X) = kSnapshot /\ child_kind_ p' = kNone /\ child_pid_ p' < 0))) fs.
Proof.
  intros HC (Ha & Hp & Hc). unfold reap_child.
  assert (HI : among spath C fs).
  { eapply among_mono; [|exact Ha]. intros o Ho. apply HC. apply elem_of_app. by right. }
  assert (Hsame : swp (mret ([], s_p X)) (fun '(told, p') fs' => plain_p p' /\ among spath (told_disk told X) fs' /\
       ((told = [] /\ p' = s_p X /\ child_saves X fs') \/
        (told <> [] /\ child_kind_ (s_p X) = kSnapshot /\ child_kind_ p' = kNone /\ child_pid_ p' < 0))) fs).
  { apply wp_ret. split_and!; [done..|]. by left. }
  destruct (Z.ltb_spec (child_pid_ (s_p X)) 0) as [Hlt|Hge]; [exact Hsame|].
  apply wp_waitpid; [done|exact Hsame|]. intros ok.
  unfold child_saves in Hc. destruct (child_kind_ (s_p X)) eqn:Ek; [lia| |done].
  destruct Hc as (_ & s & Es & Hch). rewrite Es in HC. cbn [from_option] in HC.
  destruct (Hnames (child_pid_ (s_p X))) as [Hne _].
  assert (Ha1 : among spath (s_disk X) (reap (child_pid_ (s_p X)) ok fs)).
  { unfold reap. rewrite Hch. destruct ok; [|exact Ha]. by apply among_link. }
  split; [eapply among_mono; [|exact Ha1]; intros o Ho; apply HC, elem_of_app; by right|].
  eapply wp_mono; [apply (finish_child_disk_wp ok (s_p X) (s_disk X) s); [exact HC|done|done|done|]|].
  - intros ->. unfold reap. rewrite Hch. eexists. unfold link_new. rewrite dir_push. simpl.
    by rewrite !lookup_insert_eq.
  - intros [told p'] fs' (Q1 & Q2 & Q3 & Q4). split; [done|].
    destruct Q4 as [[-> Q4]|[-> Q4]]; (split; [simpl; by rewrite Es|]); right; by split_and!.
Qed.

(** What may be found on the disk, now or when the child is done. *)
Definition inside (X : snaps) : Prop := from_option (fun s => [Some s]) [] (s_child X) ++ s_disk X ⊆ C.

Lemma inside_disk X fs : inside X -> among spath (s_disk X) fs -> among spath C fs.
Proof. intros HC Ha. eapply among_mono; [|exact Ha]. intros o Ho. apply HC, elem_of_app. by right. Qed.

Lemma inside_child X s : inside X -> Some s ∈ C -> forall p, inside (mkSnaps p (s_disk X) (Some s)).
Proof.
  intros HC Hs p o Ho. apply elem_of_cons in Ho as [->|Ho]; [done|]. apply HC, elem_of_app. by right.
Qed.

(** Starting the child. *)
Lemma start_snapshot_wp store p cs fs :
  cs ⊆ C -> among spath cs fs -> plain_p p -> child_kind_ p = kNone -> child_pid_ p < 0 ->
  swp (start_child strerror kSnapshot store p)
    (fun '(r, p') fs' => plain_p p' /\ among spath cs fs' /\
       match r with
       | None => child_saves (mkSnaps p' cs (Some store)) fs' /\ child_kind_ p' = kSnapshot
       | Some _ => child_kind_ p' = kNone /\ child_pid_ p' < 0
       end) fs.
Proof.
  intros HC Ha (P1 & P2 & P3) Hk Hpid. unfold start_child.
  assert (HI : among spath C fs) by (by eapply among_mono).
  apply wp_reads; [done|done|]. intros now. apply wp_bind, wp_ret. apply wp_fork; [done| |].
  - intros e. apply wp_ret. by split_and!.
  - intros pid Hp. cbv zeta. split; [exact HI|]. apply wp_reads; [exact HI|done|]. intros unix. apply wp_ret.
    split_and!; [done|exact Ha| |done]. split; [simpl; lia|]. exists store. split; [done|]. cbn.
    rewrite lookup_insert_eq, child_data_snap. unfold child_temp_path. simpl. by rewrite P1.
Qed.

Definition snap_after (r : option snaps) (fs : FS) : Prop :=
  match r with Some X => snap_ok X fs /\ inside X | None => True end.

Lemma cron_disk_wp store X fs :
  inside X -> Some store ∈ C -> snap_ok X fs -> swp (do_snap strerror PCron store X) snap_after fs.
Proof.
  intros HC Hs Hok. cbn [do_snap]. cbv zeta. apply wp_bind. unfold cron. apply wp_bind.
  eapply wp_mono; [by apply reap_child_disk_wp|]. intros [told p1] fs1 (Hp1 & Ha1 & Hcase).
  assert (HCd : told_disk told X ⊆ C).
  { intros o Ho. apply HC. destruct Hcase as [[-> _]|(_ & Hk & _)]; [apply elem_of_app; by right|].
    destruct Hok as (_ & _ & Hc). unfold child_saves in Hc. rewrite Hk in Hc. destruct Hc as (_ & s & Es & _).
    rewrite Es. cbn [from_option]. destruct told as [|[] [|]]; cbn [told_disk] in Ho; rewrite ?Es in Ho;
      first [by apply elem_of_app; right | apply elem_of_app; left; by apply list_elem_of_singleton in Ho as ->; left
            | apply elem_of_cons in Ho as [->|Ho]; [by left|by right]]. }
  assert (Hidle : forall p2 fs2, plain_p p2 -> among spath (told_disk told X) fs2 ->
    (child_kind_ p2 = kNone /\ child_pid_ p2 < 0 \/ told = [] /\ p2 = s_p X /\ child_saves X fs2) ->
    snap_after (Some (mkSnaps p2 (told_disk told X)
      (if negb (bool_decide (child_kind_ (s_p X) = kSnapshot)) || negb (bool_decide (told = []))
       then Some store else s_child X))) fs2).
  { intros p2 fs2 Hp2 Ha2 Hc2. split; [split_and!; [done|done|]|].
    - destruct Hc2 as [[Hk Hpid]|(-> & -> & Hc2)]; [unfold child_saves; simpl; by rewrite Hk|].
      unfold child_saves in *. simpl. destruct (child_kind_ (s_p X)) eqn:Ek; [done| |done]. exact Hc2.
    - intros o [Ho|Ho]%elem_of_app; [|by apply HCd]. destruct (_ || _).
      + by apply list_elem_of_singleton in Ho as ->.
      + apply HC, elem_of_app. by left. }
  destruct (Z.leb_spec 0 (child_pid_ p1)) as [Hpid|Hpid].
  { apply wp_ret, wp_ret, Hidle; [done|done|]. destruct Hcase as [?|(_ & _ & _ & ?)]; [by right|lia]. }
  assert (Hk1 : child_kind_ p1 = kNone).
  { destruct Hcase as [(_ & -> & Hc)|(_ & _ & ? & _)]; [|done]. unfold child_saves in Hc.
    destruct (child_kind_ (s_p X)); [done|lia|done]. }
  apply wp_reads; [by eapply among_mono|done|]. intros now. destruct Hp1 as (P1 & P2 & P3).
  replace (rewrite_scheduled_ p1 || aof_needs_rewrite now p1) with false
    by (unfold aof_needs_rewrite; by rewrite P3, P2).
  destruct (save_point_reached now p1); [|apply wp_ret, wp_ret, Hidle; [done|done|by left]].
  apply wp_bind. eapply wp_mono; [by apply (start_snapshot_wp store p1 (told_disk told X))|].
  intros [[err|] p2] fs2 (Hp2 & Ha2 & Hr); [apply wp_ret, wp_ret, Hidle; [done|done|by left]|].
  destruct Hr as [Hr Hk2].
  assert (Hst : negb (bool_decide (child_kind_ (s_p X) = kSnapshot)) || negb (bool_decide (told = [])) = true).
  { destruct Hcase as [(-> & -> & _)|(Ht & _)]; [by rewrite Hk1|].
    rewrite (bool_decide_eq_false_2 (told = [])) by done. apply orb_true_r. }
  apply wp_ret, wp_ret. rewrite Hst. split; [by split_and!|].
  intros o [Ho|Ho]%elem_of_app; [by apply list_elem_of_singleton in Ho as ->|by apply HCd].
Qed.

Lemma do_snap_wp o store X fs :
  inside X -> Some store ∈ C -> snap_ok X fs -> swp (do_snap strerror o store X) snap_after fs.
Proof.
  intros HC Hs Hok. pose proof Hok as (Ha & Hp & Hc). pose proof Hp as (P1 & P2 & P3).
  pose proof (inside_disk _ _ HC Ha) as HI.
  destruct o; [| | |by apply cron_disk_wp| | | |done|done]; cbn [do_snap]; cbv zeta.
  - apply wp_ret. unfold propagate. destruct (loading_ (s_p X)); [by destruct X|]. cbv zeta. simpl.
    rewrite P2. by split.
  - apply wp_ret. unfold count_change. destruct (negb _); [by split|by destruct X].
  - unfold before_sleep. rewrite P2. apply wp_bind, wp_ret, wp_ret. by destruct X.
  - unfold save. destruct (bool_decide_reflect (child_kind_ (s_p X) = kSnapshot)) as [Hk|Hk].
    + apply wp_bind, wp_ret, wp_ret. split; [split_and!; [|done|done]|].
      * cbn. eapply among_mono; [|exact Ha]. intros o Ho. by right.
      * intros o [Ho|[->|Ho]%elem_of_cons]%elem_of_app; [apply HC, elem_of_app; by left|done|].
        apply HC, elem_of_app. by right.
    + assert (Ep : snapshot_path (s_p X) = spath) by (unfold snapshot_path; by rewrite P1). rewrite Ep.
      assert (HC' : Some store :: s_disk X ⊆ C).
      { intros o [->|Ho]%elem_of_cons; [done|]. apply HC, elem_of_app. by right. }
      assert (Hnone : child_kind_ (s_p X) = kNone /\ child_pid_ (s_p X) < 0).
      { unfold child_saves in Hc. by destruct (child_kind_ (s_p X)). }
      assert (Hch : forall p cs fs', child_kind_ p = child_kind_ (s_p X) -> child_pid_ p = child_pid_ (s_p X) ->
        child_saves (mkSnaps p cs (s_child X)) fs').
      { intros p cs fs' E1 E2. unfold child_saves. simpl. rewrite E1, E2. by destruct Hnone as [-> ?]. }
      apply wp_bind, wp_bind. eapply wp_mono.
      { apply (sys_save_disk_wp _ C (s_disk X)); [exact HC'|intros pid; apply Hnames|done]. }
      intros [e|] fs1 [Hc1 Ha1].
      * apply wp_ret, wp_ret. split; [split_and!; [done|done|by apply Hch]|].
        intros o [Ho|Ho]%elem_of_app; [apply HC, elem_of_app; by left|by apply HC'].
      * assert (HI1 : among spath C fs1).
        { eapply among_mono; [|exact Ha1]. by intros o ->%list_elem_of_singleton. }
        apply wp_reads; [done|done|]. intros now. apply wp_reads; [done|done|]. intros unix.
        apply wp_ret, wp_ret. split; [split_and!; [done|done|by apply Hch]|].
        intros o [Ho|Ho]%elem_of_app; [apply HC, elem_of_app; by left|by apply list_elem_of_singleton in Ho as ->].
  - unfold bgsave. destruct (Z.leb_spec 0 (child_pid_ (s_p X))) as [Hpid|Hpid].
    + apply wp_bind, wp_ret, wp_ret. by destruct X.
    + assert (Hk : child_kind_ (s_p X) = kNone).
      { unfold child_saves in Hc. destruct (child_kind_ (s_p X)); [done|lia|done]. }
      apply wp_bind, wp_bind. eapply wp_mono.
      { apply (start_snapshot_wp store (s_p X) (s_disk X)); [|done|done|done|done].
        intros o Ho. apply HC, elem_of_app. by right. }
      intros [[err|] p2] fs2 (Hp2 & Ha2 & Hr); apply wp_ret, wp_ret.
      * split; [split_and!; [done|done|]|by destruct X]. unfold child_saves. simpl. by destruct Hr as [-> ?].
      * split; [split_and!; [done|done|by destruct Hr]|by apply inside_child].
  - unfold bgrewriteaof. rewrite P2. apply wp_bind, wp_ret, wp_ret. by destruct X.
Qed.

Lemma do_snaps_wp os : forall X fs,
  inside X -> Some <$> os.*2 ⊆ C -> snap_ok X fs -> swp (do_snaps strerror os X) snap_after fs.
Proof.
  induction os as [|[o store] os IH]; intros X fs HC Hs Hok; [by apply wp_ret|].
  cbn [do_snaps]. apply wp_bind. eapply wp_mono.
  - apply do_snap_wp; [done| |done]. apply Hs. by left.
  - intros [X'|] fs' H; [|by apply wp_ret]. destruct H as [H1 H2]. apply IH; [done| |done].
    intros x Hx. apply Hs. by right.
Qed.
End disk.


End snapshots.

(** ** After a failed background sync *)

(** The program hands nothing to the thread that syncs. *)
Fixpoint no_submit {A} (p : prog A) : Prop :=
  match p with
  | Ret _ => True
  | Call c k => match c with Try_submit _ => False | _ => True end /\ forall r, no_submit (k r)
  end.

(** Everything written was handed over; the answer has not been read. *)
Definition handed_over (p : Persistence) (a : Aof.AppendOnlyFile) : Prop :=
  aof_ p = Some a /\ Aof.policy_ a = Aof.kEverySec /\ Aof.buf_ a = [] /\ Aof.unsynced_ a = false /\
  Aof.write_errno_ a = 0 /\ appendfsync (options_ p) = Aof.kEverySec.

Lemma sleep_handed_over p a :
  handed_over p a ->
  before_sleep p = (e ← call Worker_errno;
                    mret (Some (if negb (bool_decide ((e =? 0) = aof_was_healthy_ (with_aof p (Some a))))
                                then with_healthy (with_aof p (Some a)) (e =? 0) else with_aof p (Some a)))).
Proof.
  intros (H1 & H2 & H3 & H4 & H5 & H6). unfold before_sleep. rewrite H1. unfold Aof.flush, Aof.flush_write.
  rewrite H3. cbn. unfold Aof.has_worker. rewrite H2, H4. cbn.
  rewrite andb_false_r. cbn. unfold Aof.healthy, Aof.has_worker. rewrite H5, H2. done.
Qed.

Lemma sleeps_handed_over strerror store a n : forall p,
  handed_over p a ->
  no_submit (do_pops strerror (replicate n (PSleep, store)) p) /\
  forall chs fs e, (n <= length chs)%nat -> Forall (fun ch => c_value ch = e) chs ->
    exists p', run chs (do_pops strerror (replicate n (PSleep, store)) p) fs = (Some p', fs) /\ handed_over p' a.
Proof.
  induction n as [|n IH]; intros p Hp; cbn [replicate do_pops].
  { split; [done|]. intros chs fs e _ _. by exists p. }
  unfold do_pop. rewrite (sleep_handed_over p a Hp).
  assert (Hnext : forall e, handed_over (if negb (bool_decide ((e =? 0) = aof_was_healthy_ (with_aof p (Some a))))
    then with_healthy (with_aof p (Some a)) (e =? 0) else with_aof p (Some a)) a)
    by (intros e; destruct (negb _), Hp as (_ & H); by split).
  split.
  - split; [done|]. intros e. apply IH, Hnext.
  - intros [|ch chs] fs e Hn Hv; [simpl in Hn; lia|]. apply Forall_cons_1 in Hv as [Hv1 Hv2]. simpl in Hn.
    apply (proj2 (IH _ (Hnext (c_value ch))) chs fs e); [lia|done].
Qed.
End Persistence.

Module PersistenceClaims.
Import Sys Persistence.

(** C17: one child at a time.  Starting from a state in which the children of
    the process are the ones it knows of, whatever the server asks for and
    whatever fails, there is never more than one child, between any two system
    calls, and afterwards the process still knows of all of them. *)
Theorem one_child_at_a_time strerror p fs os chs n (Hp : one_child p fs) :
  (size (children (run_for n chs (do_pops strerror os p) fs)) <= 1)%nat /\
  let '(r, fs') := run chs (do_pops strerror os p) fs in
  match r with Some p' => one_child p' fs' | None => True end.
Proof.
  assert (Ht : Forall (fun _ : choice => True) chs) by (by apply Forall_true).
  pose proof (do_pops_child_wp strerror os p fs Hp) as Hw. split.
  - apply (wp_run_for (fun _ => True) few n _ _ chs fs Ht Logic.I (one_child_few _ _ Hp) Hw).
  - pose proof (wp_run (fun _ => True) few _ _ chs fs Ht Logic.I Hw) as H.
    by destruct (run chs _ fs).
Qed.

Definition demo_options : Options :=
  mkOptions &"/data" &"dump.snap" [mkSavePoint 60 2] false Aof.kEverySec 100 64.
Definition demo_store : KvStore := Store.make 0 Store.kNoEviction (fun _ => 5) [].
Definition demo_choices : list choice :=
  [mkChoice None None (61 * 1000000000) false [] []; mkChoice None None (61 * 1000000000) false [] [];
   mkChoice None None 77 false [] []; mkChoice None None 1000 false [] [];
   mkChoice None None 0 true [] []].
Definition demo_pops : list (pop * KvStore) :=
  [(PCount, demo_store); (PCount, demo_store); (PCron, demo_store); (PCount, demo_store); (PCron, demo_store)].

Lemma one_child_at_a_time_witness :
  (size (children (run_for 4 demo_choices (do_pops AofClaims.demo_strerror demo_pops (make demo_options))
     AofClaims.empty_fs)) <= 1)%nat /\
  let '(r, fs') := run demo_choices (do_pops AofClaims.demo_strerror demo_pops (make demo_options))
                     AofClaims.empty_fs in
  match r with Some p' => one_child p' fs' | None => True end.
Proof.
  apply (one_child_at_a_time AofClaims.demo_strerror (make demo_options) AofClaims.empty_fs demo_pops
           demo_choices 4).
  by vm_compute.
Defined.

(** C18: the counter behind the save points.  In a running server, whatever
    fails, [dirty_] is the number of changes that the last successful snapshot,
    taken by SAVE or by a child, does not contain; changes made while a child
    was writing stay counted. *)
Theorem dirty_counts_unsaved strerror p fs os chs
    (Hp : loading_ p = false /\ dirty_ p = 0 /\ child_kind_ p = kNone) :
  let '(r, _) := run chs (do_books strerror os (mkLedger 0 0 0) p) fs in
  match r with
  | Some (L, p') => 0 <= saved L <= total L /\ (total L < 2 ^ 64 -> dirty_ p' = total L - saved L)
  | None => True
  end.
Proof.
  destruct Hp as (H1 & H2 & H3).
  assert (Hb : balanced (mkLedger 0 0 0) p).
  { unfold balanced. rewrite H1, H2, H3. split_and!; [done|simpl; lia|simpl; lia|done|done]. }
  pose proof (wp_run (fun _ => True) (fun _ => True) _ _ chs fs ltac:(by apply Forall_true) Logic.I
    (do_books_wp strerror os (mkLedger 0 0 0) p fs Hb)) as H.
  destruct (run chs _ fs) as [[[L p']|] fs']; [|done]. destruct H as (_ & B2 & B3 & _). split; [done|].
  intros Ht. rewrite B3. apply u64_small. lia.
Qed.

Lemma dirty_counts_unsaved_witness :
  let '(r, _) := run demo_choices (do_books AofClaims.demo_strerror demo_pops (mkLedger 0 0 0) (make demo_options))
                   AofClaims.empty_fs in
  match r with
  | Some (L, p') => 0 <= saved L <= total L /\ (total L < 2 ^ 64 -> dirty_ p' = total L - saved L)
  | None => True
  end.
Proof.
  apply (dirty_counts_unsaved AofClaims.demo_strerror (make demo_options) AofClaims.empty_fs demo_pops demo_choices).
  by split_and!.
Defined.


(** Every dataset there was. *)
Definition seen (X : snaps) (os : list (pop * KvStore)) : list (option KvStore) :=
  from_option (fun s => [Some s]) [] (s_child X) ++ s_disk X ++ (Some <$> os.*2).


Lemma seen_inside X os : inside (seen X os) X /\ Some <$> os.*2 ⊆ seen X os.
Proof.
  split.
  - intros o [Ho|Ho]%elem_of_app; apply elem_of_app; [by left|right; apply elem_of_app; by left].
  - intros o Ho. apply elem_of_app; right; apply elem_of_app; by right.
Qed.

Lemma do_snaps_end strerror opts X fs os chs X' fs' C : names_apart opts -> inside C X -> Some <$> os.*2 ⊆ C ->
  snap_ok opts X fs -> run chs (do_snaps strerror os X) fs = (Some X', fs') -> snap_ok opts X' fs' /\ inside C X'.
Proof.
  intros Hnames HC Hs HX Hr.
  pose proof (wp_run (fun _ => True) _ _ _ chs fs ltac:(by apply Forall_true) Logic.I
    (do_snaps_wp strerror opts Hnames C os X fs HC Hs HX)) as H. by rewrite Hr in H.
Qed.


(** What is reported is what is on the disk.  The operations keep the
    invariant under which snapshots survive crashes; in particular after a SAVE
    that reports success, or a child that does, a crash leaves exactly that
    snapshot. *)
Theorem snapshot_reports_true strerror opts X fs os chs
    (Hnames : names_apart opts) (HX : snap_ok opts X fs) :
  let '(r, fs') := run chs (do_snaps strerror os X) fs in
  match r with Some X' => snap_ok opts X' fs' | None => True end.
Proof.
  destruct (seen_inside X os) as [HC Hs]. destruct (run chs _ fs) as [[X'|] fs'] eqn:E; [|done].
  by destruct (do_snaps_end strerror opts X fs os chs X' fs' (seen X os) Hnames HC Hs HX E).
Qed.

Definition demo_snaps : snaps := mkSnaps (make demo_options) [None] None.

Lemma demo_names : names_apart demo_options.
Proof. intros pid. split; intros E; discriminate E. Qed.

Lemma demo_snaps_ok : snap_ok demo_options demo_snaps AofClaims.empty_fs.
Proof.
  split_and!; [|done|done]. split; [exact AofClaims.empty_fs_ok|]. intros k. exists None. split; [by left|].
  simpl. by rewrite take_nil.
Qed.




Lemma snapshot_reports_true_witness :
  let '(r, fs') := run demo_choices (do_snaps AofClaims.demo_strerror demo_pops demo_snaps) AofClaims.empty_fs in
  match r with Some X' => snap_ok demo_options X' fs' | None => True end.
Proof.
  apply (snapshot_reports_true AofClaims.demo_strerror demo_options demo_snaps AofClaims.empty_fs demo_pops
           demo_choices).
  - exact demo_names.
  - exact demo_snaps_ok.
Defined.

(** C38: a failed background sync is never retried.  With [appendfsync everysec],
    once everything written has been handed to the thread that syncs and its
    sync has failed, the server refuses writes because of the error; no later
    turn of the event loop hands anything to the thread again, so the error
    stays, and writes are refused for good. *)
Theorem fsync_error_sticks strerror p a store n e chs fs
    (Hp : handed_over p a) (He : e <> 0) (Hn : (n <= length chs)%nat)
    (Hv : Forall (fun ch => c_value ch = e) chs) :
  no_submit (do_pops strerror (replicate n (PSleep, store)) p) /\
  exists p', run chs (do_pops strerror (replicate n (PSleep, store)) p) fs = (Some p', fs) /\
    (run (replicate 2 (mkChoice None None e false [] [])) (write_error strerror p') fs).1 <> [].
Proof.
  destruct (sleeps_handed_over strerror store a n p Hp) as [H1 H2]. split; [done|].
  destruct (H2 chs fs e Hn Hv) as (p' & Hr & G1 & G2 & G3 & G4 & G5 & G6). exists p'. split; [done|].
  unfold write_error. destruct (_ && _); [done|]. rewrite G1. unfold Aof.healthy, Aof.last_error, Aof.has_worker.
  rewrite G5, G2, bool_decide_eq_true_2 by done. cbn. by destruct (Z.eqb_spec e 0).
Qed.

Definition stuck_aof : Aof.AppendOnlyFile := Aof.make &"/data/appendonlydir" Aof.kEverySec.
Definition stuck_server : Persistence :=
  with_aof (make (mkOptions &"/data" &"dump.snap" [] true Aof.kEverySec 100 64)) (Some stuck_aof).
Definition stuck_choices : list choice := replicate 3 (mkChoice None None 5 false [] []).

Lemma fsync_error_sticks_witness :
  no_submit (do_pops AofClaims.demo_strerror (replicate 3 (PSleep, demo_store)) stuck_server) /\
  exists p', run stuck_choices (do_pops AofClaims.demo_strerror (replicate 3 (PSleep, demo_store)) stuck_server)
               AofClaims.empty_fs = (Some p', AofClaims.empty_fs) /\
    (run (replicate 2 (mkChoice None None 5 false [] [])) (write_error AofClaims.demo_strerror p')
       AofClaims.empty_fs).1 <> [].
Proof.
  apply (fsync_error_sticks AofClaims.demo_strerror stuck_server stuck_aof demo_store 3 5 stuck_choices
           AofClaims.empty_fs).
  - by split_and!.
  - done.
  - simpl. lia.
  - repeat constructor.
Defined.
End PersistenceClaims.
