(* ===== verification/Replication.v ===== *)
(** * Replication (src/src/replication.cpp)

    Both ends of master-replica replication, as state passing over a [Node]:
    the [Replication] object, the connections of the event loop and what
    replication sees of the store and of the persistence child.  A node can be
    master and replica at once (its replicas are then fed its own master's
    stream), so there is one node type and one step relation.

    Every outcome replication does not decide is an argument: the clock, the
    random replid, whether fork, open, write and fsync succeed, what a socket
    gives and takes.  Running the commands buffered for a client is a promise
    of the event loop: the class [ClientHost]. *)

From stdpp Require Import relations.
From Stdlib Require Import Lia.
From S2P Require Import Prelude Resp Backlog Sys Aof.

Module Replication.

Abbreviation Args := (list bytes).

(** ** Data (client.hpp, replication.hpp) *)

(** A master's view of an attached replica. *)
Inductive ReplState := kNone | kWaitBgsaveStart | kWaitBgsaveEnd | kSendBulk | kOnline.

(** A replica's link to its master; [kNoLink] is the code's [LinkState::kNone]. *)
Inductive LinkState := kNoLink | kConnect | kConnecting | kHandshake | kTransfer | kConnected.

#[global] Instance repl_state_eq_dec : EqDecision ReplState.
Proof. solve_decision. Defined.
#[global] Instance link_state_eq_dec : EqDecision LinkState.
Proof. solve_decision. Defined.

(** One connection.  [sent] is a ghost: the bytes the socket has taken so far,
    so [sent ++ out] is everything ever queued for the peer.  The server's lists
    [pending_writes_] and [pending_close_] are the connections whose flags
    [pending_write] and [closing] are set.  An open snapshot
    descriptor is the part of the file it has not read yet.  [disturbed] is a
    ghost: a WAIT was parked on the connection while it carried a stream. *)
Record Client := mkClient {
  addr : bytes;
  input : bytes;  (* what the parser holds *)
  out : bytes;
  sent : bytes;
  write_interest : bool;
  pending_write : bool;
  close_after_flush : bool;
  closing : bool;
  blocked : bool;
  held_command : option Args;
  woff : Z;
  repl_state : ReplState;
  repl_listening_port : Z;
  repl_ack_offset : Z;
  repl_ack_time : Z;
  repl_held : bytes;
  repl_snapshot_fd : option bytes;
  is_master : bool;
  last_interaction : Z;
  disturbed : bool;
}.

#[global] Instance client_eta : Eta Client := fun c =>
  mkClient (addr c) (input c) (out c) (sent c) (write_interest c) (pending_write c) (close_after_flush c)
    (closing c) (blocked c) (held_command c) (woff c) (repl_state c) (repl_listening_port c)
    (repl_ack_offset c) (repl_ack_time c) (repl_held c) (repl_snapshot_fd c)
    (is_master c) (last_interaction c) (disturbed c).

Definition new_client : Client :=
  mkClient [] [] [] [] false false false false false None 0 kNone 0 0 0 [] None false 0 false.

Record Waiter := mkWaiter {
  w_client : Z;
  w_offset : Z;
  w_numreplicas : Z;
  w_deadline : option Z;
}.

(** Durations and times are in nanoseconds of the steady clock. *)
Record Options := {
  listening_port : Z;
  backlog_size : nat;
  timeout : Z;
  ping_period : Z;
}.

(** The members that describe the link to our own master.  An open transfer
    file is what has been written to it. *)
Record Link := mkLink {
  master_host_ : bytes;
  master_port_ : Z;
  link_state_ : LinkState;
  next_connect_ : Z;
  link_fd_ : bool;
  link_buf_ : bytes;
  link_last_io_ : Z;
  link_down_since_ : Z;
  handshake_replies_ : Z;
  transfer_replid_ : bytes;
  transfer_offset_ : Z;
  transfer_fd_ : option bytes;
  transfer_path_ : bytes;
  transfer_remaining_ : option Z;
  master_ : option Z;
}.

#[global] Instance link_eta : Eta Link := fun l =>
  mkLink (master_host_ l) (master_port_ l) (link_state_ l) (next_connect_ l) (link_fd_ l)
    (link_buf_ l) (link_last_io_ l) (link_down_since_ l) (handshake_replies_ l)
    (transfer_replid_ l) (transfer_offset_ l) (transfer_fd_ l) (transfer_path_ l)
    (transfer_remaining_ l) (master_ l).

(** What the persistence layer's child process is doing; a snapshot child
    holds the dataset as it was when it was forked. *)
Inductive Child (DS : Type) := no_child | snapshot_child (d : DS) | rewrite_child.
Arguments no_child {_}.
Arguments snapshot_child {_}.
Arguments rewrite_child {_}.

Section node.
Context {DS : Type}.

(** The node: the other members of [Replication], the connections of [Server]
    by client id and its pause of client writes, the dataset, the expiry mode of the store and the persistence child.
    The last four fields are ghosts: the stream bytes fed since the backlog
    was last reset and the offset it was reset to, whether a 64-bit counter
    (the offset or the next client id) has ever wrapped around, and a log of
    the snapshots forked for replicas, each with the offset announced for it. *)
Record Node := mkNode {
  options_ : Options;
  replid_ : bytes;
  replid2_ : bytes;
  second_replid_offset_ : option Z;
  backlog_ : Backlog.ReplBacklog;
  stream_started_ : bool;
  replid_shared_ : bool;
  replicas_ : list Z;
  waiters_ : list Waiter;
  to_resume_ : list Z;
  get_ack_pending_ : bool;
  stream_paused_ : bool;
  last_ping_ : Z;
  last_second_tick_ : Z;
  sync_full_ : Z;
  sync_partial_ok_ : Z;
  sync_partial_err_ : Z;
  link : Link;
  conns_ : gmap Z Client;
  next_client_id_ : Z;
  writes_paused_ : bool;
  resume_held_ : bool;
  held_clients_ : list Z;
  store_ : DS;
  passive_expiry_ : bool;
  child_ : Child DS;
  stream : bytes;
  stream_start : Z;
  wrapped : bool;
  forks : list (Z * DS);
}.

#[global] Instance node_eta : Eta Node := fun n =>
  mkNode (options_ n) (replid_ n) (replid2_ n) (second_replid_offset_ n) (backlog_ n)
    (stream_started_ n) (replid_shared_ n) (replicas_ n) (waiters_ n) (to_resume_ n)
    (get_ack_pending_ n) (stream_paused_ n) (last_ping_ n) (last_second_tick_ n)
    (sync_full_ n) (sync_partial_ok_ n) (sync_partial_err_ n) (link n) (conns_ n)
    (next_client_id_ n) (writes_paused_ n) (resume_held_ n) (held_clients_ n) (store_ n)
    (passive_expiry_ n) (child_ n) (stream n)
    (stream_start n) (wrapped n) (forks n).
End node.
Arguments Node : clear implicits.

Definition kReplIdLength : nat := 40.
Definition kReconnectDelay : Z := 1000000000.
Definition kCronSecond : Z := 1000000000.
Definition kLinkReadChunk : Z := 16 * 1024.
Definition kMaxHandshakeLine : Z := 64 * 1024.
Definition kMaxReplicaBufferBytes : Z := 256 * 1024 * 1024.
Definition kSnapshotChunkSize : Z := 64 * 1024.
Definition kMaxOutputBufferBytes : Z := 64 * 1024 * 1024.

Definition state_name (s : ReplState) : bytes :=
  match s with
  | kWaitBgsaveStart | kWaitBgsaveEnd => &"wait_bgsave"
  | kSendBulk => &"send_bulk"
  | kOnline => &"online"
  | kNone => &"none"
  end.

(** [std::string::find_first_not_of('\n')] and on. *)
Fixpoint drop_newlines (s : bytes) : bytes :=
  match s with
  | c :: t => if bool_decide (c = x0a) then drop_newlines t else s
  | [] => []
  end.

(** [line.rfind(p, 0) == 0]. *)
Definition starts_with (p line : bytes) : bool := beq (take (length p) line) p.

(** [strtoull(s, &end, 10)]: the value, and the text [end] points at.  With no
    digits [end] is [s] itself; an overflow saturates. *)
Definition strtoull (s : bytes) : Z * bytes :=
  let t := Aof.skip_spaces s in
  let '(neg, body) :=
    match t with
    | c :: u => if bz c =? 45 then (true, u) else if bz c =? 43 then (false, u) else (false, t)
    | [] => (false, [])
    end in
  let '(ds, rest) := scan_digits body in
  match ds with
  | [] => (0, s)
  | _ => let v := digits_value ds in
         if size_max <? v then (size_max, rest) else ((if neg then u64 (- v) else v), rest)
  end.

(** [*end == '\0']: the end of a C string is its first NUL byte. *)
Definition at_nul (s : bytes) : bool :=
  match s with [] => true | c :: _ => bool_decide (c = x00) end.

Section operations.
Context {DS : Type}.
Abbreviation node := (Node DS).

(** ** Accessors *)

Definition is_replica (n : node) : bool := negb (beq (master_host_ (link n)) []).
Definition offset (n : node) : Z := Backlog.offset (backlog_ n).
Definition wants_commands (n : node) : bool := stream_started_ n && negb (is_replica n).

Definition on_client (id : Z) (f : Client -> Client) (n : node) : node :=
  n <| conns_ := alter f id (conns_ n) |>.

Definition on_link (f : Link -> Link) (n : node) : node := n <| link := f (link n) |>.

(** [host_->close_client(c)], the server's [mark_closing]. *)
Definition close_client (id : Z) (n : node) : node :=
  on_client id (fun c => c <| closing := true |>) n.

Definition set_stream_paused (paused : bool) (n : node) : node := n <| stream_paused_ := paused |>.

Definition make (options : Options) (replid : bytes) (d : DS) : node :=
  {| options_ := options; replid_ := replid; replid2_ := replicate kReplIdLength "0"%byte;
     second_replid_offset_ := None; backlog_ := Backlog.make (backlog_size options);
     stream_started_ := false; replid_shared_ := false; replicas_ := []; waiters_ := [];
     to_resume_ := []; get_ack_pending_ := false; stream_paused_ := false; last_ping_ := 0;
     last_second_tick_ := 0; sync_full_ := 0; sync_partial_ok_ := 0; sync_partial_err_ := 0;
     link := mkLink [] 0 kNoLink 0 false [] 0 0 0 [] 0 None [] None None;
     conns_ := ∅; next_client_id_ := 1; writes_paused_ := false; resume_held_ := false;
     held_clients_ := []; store_ := d; passive_expiry_ := false;
     child_ := no_child; stream := []; stream_start := 0; wrapped := false; forks := [] |}.

(** ** Master side *)

(** What one round of [feed]'s loop does to the replica it is at. *)
(** [host_->queue_write]. *)
Definition queue_write (c : Client) : Client := c <| pending_write := true |>.

Definition feed_client (data : bytes) (c : Client) : Client :=
  let limit c := if kMaxReplicaBufferBytes <? zlen (out c) + zlen (repl_held c)
                 then c <| closing := true |> else c in
  if closing c then c
  else match repl_state c with
       | kOnline => limit (queue_write (c <| out := out c ++ data |>))
       | kWaitBgsaveEnd | kSendBulk => limit (c <| repl_held := repl_held c ++ data |>)
       | kWaitBgsaveStart | kNone => c
       end.

Definition on_replicas (f : Client -> Client) (n : node) : node :=
  foldl (fun n r => on_client r f n) n (replicas_ n).

Definition feed (data : bytes) (n : node) : node :=
  on_replicas (feed_client data)
    (n <| backlog_ := Backlog.append (backlog_ n) data |>
       <| stream := stream n ++ data |>
       <| wrapped := wrapped n || (2 ^ 64 <=? stream_start n + zlen (stream n) + zlen data) |>).

Definition propagate (argv : Args) (n : node) : node :=
  if negb (wants_commands n) then n else feed (Reply.command [] argv) n.

Definition master_command_applied (raw : bytes) (n : node) : node := feed raw n.

(** The reply is what the call appends to its [out] argument. *)
Definition try_partial_resync (id : Z) (replid : bytes) (off : Z) (n : node) :
    option (bytes * node) :=
  if off <? 0 then None
  else
    let same_history :=
      beq replid (replid_ n) ||
      (beq replid (replid2_ n) &&
       match second_replid_offset_ n with Some o => off <=? o | None => false end) in
    if negb same_history || negb (Backlog.contains (backlog_ n) off) then None
    else
      let reply := Backlog.copy_from (backlog_ n) off
                     (Reply.simple_string [] (&"CONTINUE " ++ replid_ n)) in
      let n := on_client id (fun c => c <| repl_state := kOnline |> <| repl_ack_offset := off |>) n in
      Some (reply, n <| replicas_ := replicas_ n ++ [id] |> <| replid_shared_ := true |>).

Definition child_running (n : node) : bool :=
  match child_ n with no_child => false | _ => true end.

Definition waits_start (c : Client) : bool := bool_decide (repl_state c = kWaitBgsaveStart).

Definition full_resync_reply (replid : bytes) (off : Z) : bytes :=
  Reply.simple_string [] (&"FULLRESYNC " ++ replid ++ &" " ++ to_string off).

(** [fork_ok] is whether [persistence_.bgsave] could start the child; it then
    holds the dataset of this moment. *)
Definition start_snapshot_for_replicas (fork_ok : bool) (n : node) : node :=
  let waiting := existsb (fun r => match conns_ n !! r with
                                   | Some c => waits_start c
                                   | None => false
                                   end) (replicas_ n) in
  if negb waiting || child_running n then n
  else if negb fork_ok then
    on_replicas (fun c => if waits_start c then c <| closing := true |> else c) n
  else
    let n := n <| child_ := snapshot_child (store_ n) |>
               <| forks := forks n ++ [(offset n, store_ n)] |> in
    let reply := full_resync_reply (replid_ n) (offset n) in
    let n := on_replicas (fun c =>
               if waits_start c
               then queue_write (c <| repl_state := kWaitBgsaveEnd |> <| out := out c ++ reply |>)
               else c) n in
    n <| replid_shared_ := true |>.

(** The reply goes to [out], the client's own buffer unless the connection is
    already replicating; see [psync_command]. *)
Definition psync (id : Z) (replid : bytes) (off now : Z) (fork_ok : bool) (n : node) :
    bytes * node :=
  match conns_ n !! id with
  | None => ([], n)
  | Some c =>
      if negb (bool_decide (repl_state c = kNone)) || is_master c then
        (Reply.error [] &"ERR PSYNC on a connection that is already replicating", n)
      else if is_replica n && negb (bool_decide (link_state_ (link n) = kConnected)) then
        (Reply.error [] &"NOMASTERLINK Can't SYNC while not connected with my master", n)
      else
        let n := on_client id (fun c => c <| repl_ack_time := now |>) n in
        let n := n <| stream_started_ := true |> in
        match try_partial_resync id replid off n with
        | Some (reply, n) => (reply, n <| sync_partial_ok_ := u64 (sync_partial_ok_ n + 1) |>)
        | None =>
            let n := if negb (beq replid &"?")
                     then n <| sync_partial_err_ := u64 (sync_partial_err_ n + 1) |> else n in
            let n := n <| sync_full_ := u64 (sync_full_ n + 1) |> in
            let n := on_client id (fun c => c <| repl_state := kWaitBgsaveStart |>) n in
            let n := n <| replicas_ := replicas_ n ++ [id] |> in
            ([], start_snapshot_for_replicas fork_ok n)
        end
  end.

(** A PSYNC as [process_input] runs it: the reply is discarded on a connection
    that carries a stream. *)
Definition psync_command (id : Z) (replid : bytes) (off now : Z) (fork_ok : bool) (n : node) : node :=
  let ordinary := match conns_ n !! id with
                  | Some c => bool_decide (repl_state c = kNone) && negb (is_master c)
                  | None => false
                  end in
  let '(reply, n) := psync id replid off now fork_ok n in
  if ordinary then on_client id (fun c => c <| out := out c ++ reply |>) n else n.

(** Each waiting replica gets a descriptor of its own on the file just
    committed, [file]; [opened] says whose open succeeded. *)
Definition snapshot_finished (ok : bool) (file : bytes) (opened : Z -> bool) (n : node) : node :=
  foldl (fun n r =>
    on_client r (fun c =>
      if negb (bool_decide (repl_state c = kWaitBgsaveEnd)) || closing c then c
      else if negb ok then c <| closing := true |>
      else if negb (opened r) then c <| closing := true |>
      else queue_write
             (c <| repl_snapshot_fd := Some file |>
                <| out := out c ++ &"$" ++ to_string (zlen file) ++ crlf |>
                <| repl_state := kSendBulk |>)) n) n (replicas_ n).

Definition snapshot_sent (now : Z) (c : Client) : Client :=
  c <| repl_snapshot_fd := None |>
    <| out := out c ++ repl_held c |>
    <| repl_held := [] |>
    <| repl_state := kOnline |>
    <| repl_ack_time := now |>.

Definition replconf_ack (id off now : Z) (n : node) : node :=
  on_client id (fun c =>
    if bool_decide (repl_state c = kNone) then c
    else c <| repl_ack_offset := Z.max (repl_ack_offset c) off |> <| repl_ack_time := now |>) n.

Definition has_acked (off : Z) (n : node) (r : Z) : bool :=
  match conns_ n !! r with
  | Some c => bool_decide (repl_state c = kOnline) && (off <=? repl_ack_offset c)
  | None => false
  end.

Definition acked_replicas (off : Z) (n : node) : Z :=
  zlen (List.filter (has_acked off n) (replicas_ n)).

(** The reply and whether the client was parked.  Where [now + timeout_ms]
    exceeds the range of the clock's signed 64-bit count the addition of the
    code is undefined; here it is the exact sum. *)
Definition wait (id numreplicas timeout_ms now : Z) (n : node) : bytes * bool * node :=
  if is_replica n then
    (Reply.error [] &"ERR WAIT cannot be used with replica instances", false, n)
  else
    match conns_ n !! id with
    | None => ([], false, n)
    | Some c =>
        let acked := acked_replicas (woff c) n in
        if numreplicas <=? acked then (Reply.integer [] acked, false, n)
        else
          let deadline := if 0 <? timeout_ms then Some (now + timeout_ms * 1000000) else None in
          let n := n <| waiters_ := waiters_ n ++ [mkWaiter id (woff c) numreplicas deadline] |> in
          let n := on_client id (fun c => c <| blocked := true |>
                     <| disturbed := disturbed c || negb (bool_decide (repl_state c = kNone)) |>) n in
          ([], true, n <| get_ack_pending_ := true |>)
    end.

(** A WAIT as [process_input] runs it: as for PSYNC, the reply is discarded on a
    connection that carries a stream. *)
Definition wait_command (id numreplicas timeout_ms now : Z) (n : node) : node :=
  let ordinary := match conns_ n !! id with
                  | Some c => bool_decide (repl_state c = kNone) && negb (is_master c)
                  | None => false
                  end in
  let '(reply, _, n) := wait id numreplicas timeout_ms now n in
  if ordinary then on_client id (fun c => c <| out := out c ++ reply |>) n else n.

Definition disconnect_replicas (n : node) : node :=
  on_replicas (fun c => c <| closing := true |>) n.

Definition send_ack (n : node) : node :=
  match master_ (link n) with
  | Some m => on_client m (fun c => queue_write (c <| out :=
      Reply.command (out c) [&"REPLCONF"; &"ACK"; to_string (offset n)] |>)) n
  | None => n
  end.

Definition replconf_getack (n : node) : node :=
  match master_ (link n) with Some _ => send_ack n | None => n end.

(** ** Role changes *)

Definition close_link (n : node) : node :=
  let n := match master_ (link n) with Some m => close_client m n | None => n end in
  on_link (fun l => l <| master_ := None |> <| link_fd_ := false |> <| transfer_fd_ := None |>
                      <| transfer_path_ := [] |> <| link_buf_ := [] |>) n.

Definition kUnblocked : bytes :=
  &"UNBLOCKED force unblock from blocking operation, instance state changed (master -> replica?)".

Definition replicaof (host : bytes) (port now : Z) (n : node) : node :=
  if beq host (master_host_ (link n)) && (port =? master_port_ (link n)) then n
  else
    let n := close_link n in
    let n := n <| stream_started_ := true |> in
    let n := on_link (fun l => l <| master_host_ := host |> <| master_port_ := port |>
                                 <| link_state_ := kConnect |> <| next_connect_ := now |>
                                 <| link_down_since_ := now |>) n in
    let n := n <| passive_expiry_ := true |> in
    let n := disconnect_replicas n in
    let ws := waiters_ n in
    foldl (fun n w =>
      let n := on_client (w_client w) (fun c =>
                 c <| out := Reply.error (out c) kUnblocked |> <| blocked := false |>) n in
      n <| to_resume_ := to_resume_ n ++ [w_client w] |>) (n <| waiters_ := [] |>) ws.

Definition shift_replid (fresh : bytes) (n : node) : node :=
  n <| replid2_ := replid_ n |> <| second_replid_offset_ := Some (offset n) |>
    <| replid_ := fresh |> <| replid_shared_ := false |>.

Definition replicaof_no_one (fresh : bytes) (n : node) : node :=
  if negb (is_replica n) then n
  else
    let n := close_link n in
    let n := on_link (fun l => l <| master_host_ := [] |> <| master_port_ := 0 |>
                                 <| link_state_ := kNoLink |>) n in
    let n := shift_replid fresh n in
    let n := n <| passive_expiry_ := false |> in
    disconnect_replicas n.

(** ** What a connection's commands can do

    The dispatcher leaves the dataset as [d] and propagates [writes] on the
    way. *)
Definition execute (writes : list Args) (d : DS) (n : node) : node :=
  foldl (fun n argv => propagate argv n) (n <| store_ := d |>) writes.

(** The connection is on its way out: no more of its commands run. *)
Definition doomed (c : Client) : bool := closing c || close_after_flush c.

(** [process_input] runs commands of this connection, with its own buffer for
    the replies. *)
Definition runs (c : Client) : Prop := blocked c = false /\ doomed c = false.
Definition ordinary (c : Client) : Prop := repl_state c = kNone /\ is_master c = false /\ runs c.

(** [Server::set_writes_paused]. *)
Definition set_writes_paused (paused : bool) (n : node) : node :=
  if Bool.eqb paused (writes_paused_ n) then n
  else n <| writes_paused_ := paused |> <| resume_held_ := negb paused |>.

(** What [process_input] does to a node, command by command. *)
Inductive command_step (id : Z) : node -> node -> Prop :=
  | step_execute n writes d : command_step id n (execute writes d n)
  | step_reply n c s :
      conns_ n !! id = Some c -> repl_state c = kNone ->
      command_step id n (on_client id (fun c => c <| out := out c ++ s |>) n)
  | step_woff n off : command_step id n (on_client id (fun c => c <| woff := off |>) n)
  | step_refuse n s :
      command_step id n
        (on_client id (fun c => c <| out := out c ++ s |> <| close_after_flush := true |>) n)
  | step_psync n c replid off now fork_ok :
      conns_ n !! id = Some c -> runs c ->
      command_step id n (psync_command id replid off now fork_ok n)
  | step_wait n c numreplicas timeout_ms now :
      conns_ n !! id = Some c -> runs c ->
      command_step id n (wait_command id numreplicas timeout_ms now n)
  | step_listening_port n port :
      command_step id n (on_client id (fun c => c <| repl_listening_port := port |>) n)
  | step_ack n off now :
      0 <= off -> command_step id n (replconf_ack id off now n)
  | step_getack n : command_step id n (replconf_getack n)
  | step_applied n raw : command_step id n (master_command_applied raw n)
  | step_replicaof n host port now : command_step id n (replicaof host port now n)
  | step_no_one n fresh : command_step id n (replicaof_no_one fresh n)
  | step_close n : command_step id n (close_client id n)
  | step_input n rest : command_step id n (on_client id (fun c => c <| input := rest |>) n)
  | step_hold n argv : command_step id n (on_client id (fun c => c <| held_command := argv |>) n)
  | step_holds n ids : command_step id n (n <| held_clients_ := ids |>)
  | step_queue n : command_step id n (on_client id queue_write n)
  | step_child n k :
      child_ n = no_child -> k = rewrite_child \/ k = snapshot_child (store_ n) ->
      command_step id n (n <| child_ := k |>)
  | step_pause_writes n b : command_step id n (set_writes_paused b n)
  | step_pause_stream n b : command_step id n (set_stream_paused b n)
  | step_expiry n b : command_step id n (n <| passive_expiry_ := b |>).

End operations.

(** What replication asks of the event loop: to run the commands buffered for
    a client, each of them a [command_step], and to send what they answered. *)
Class ClientHost (DS : Type) := {
  process_buffered : Z -> Node DS -> Node DS;
  process_buffered_steps : forall id n, rtc (command_step id) n (process_buffered id n);
  process_buffered_queues : forall id n c,
    conns_ (process_buffered id n) !! id = Some c -> closing c = false -> pending_write c = true;
}.

Section hooks.
Context {DS : Type} `{ClientHost DS}.
Abbreviation node := (Node DS).

Definition waiter_done (t : Z) (n : node) (w : Waiter) : bool :=
  (w_numreplicas w <=? acked_replicas (w_offset w) n) ||
  match w_deadline w with Some d => d <=? t | None => false end.

Definition unblock_waiters (t : Z) (n : node) : node :=
  let done := List.filter (waiter_done t n) (waiters_ n) in
  let done := map (fun w => (w_client w, acked_replicas (w_offset w) n)) done in
  let n := n <| waiters_ := List.filter (fun w => negb (waiter_done t n w)) (waiters_ n) |> in
  foldl (fun n '(id, acked) =>
    process_buffered id (on_client id (fun c =>
      c <| out := Reply.integer (out c) acked |> <| blocked := false |>) n)) n done.

(** ** Replica side *)

(** The outcomes of the system calls made while handling the link: the clock,
    the path of the transfer file and whether opening, writing and syncing it
    succeed, what [persistence_.replace_dataset] answers and leaves in the
    store, and whether the adopted socket could be added to the event loop. *)
Record LinkIo := {
  io_now : Z;
  io_path : bytes;
  io_open : bool;
  io_write : bool;
  io_fsync : bool;
  io_replace : bytes -> bool * DS;
  io_watch : bool;
}.

Definition abort_link (now : Z) (n : node) : node :=
  let n := close_link n in
  on_link (fun l => l <| link_state_ := if is_replica n then kConnect else kNoLink |>
                      <| next_connect_ := now + kReconnectDelay |>) n.

(** [connected]: the master's name resolved and the socket could be opened and
    watched. *)
Definition connect_to_master (now : Z) (connected : bool) (n : node) : node :=
  let n := on_link (fun l => l <| next_connect_ := now + kReconnectDelay |>) n in
  if negb connected then n
  else on_link (fun l => l <| link_fd_ := true |> <| link_state_ := kConnecting |>
                           <| link_last_io_ := now |> <| link_buf_ := [] |>) n.

Definition take_line (now : Z) (n : node) : option bytes * node :=
  match drop_newlines (link_buf_ (link n)) with
  | [] => (None, on_link (fun l => l <| link_buf_ := [] |>) n)
  | s =>
      match Parser.find_crlf_front s with
      | None =>
          let n := on_link (fun l => l <| link_buf_ := s |>) n in
          (None, if kMaxHandshakeLine <? zlen s then abort_link now n else n)
      | Some e => (Some (take e s), on_link (fun l => l <| link_buf_ := drop (e + 2) s |>) n)
      end
  end.

(** [host_->adopt_master(fd, pending)]. *)
Definition adopt_master (pending : bytes) (watched : bool) (n : node) : Z * node :=
  let id := next_client_id_ n in
  let c := new_client <| is_master := true |> <| input := pending |>
                      <| closing := negb watched |> in
  (id, n <| next_client_id_ := u64 (id + 1) |> <| conns_ := <[id := c]> (conns_ n) |>
         <| wrapped := wrapped n || (2 ^ 64 <=? id + 1) |>).

Definition adopt_link (io : LinkIo) (n : node) : node :=
  let pending := link_buf_ (link n) in
  let n := on_link (fun l => l <| link_fd_ := false |> <| link_buf_ := [] |>) n in
  let '(m, n) := adopt_master pending (io_watch io) n in
  let n := on_link (fun l => l <| master_ := Some m |> <| link_state_ := kConnected |>) n in
  let n := n <| replid_shared_ := true |> in
  let n := on_client m (fun c => c <| last_interaction := io_now io |>) n in
  process_buffered m (send_ack n).

Definition handle_psync_reply (line : bytes) (io : LinkIo) (n : node) : node :=
  if starts_with &"+FULLRESYNC " line then
    match ('(id, r) ← Aof.extract_word (drop 12 line);
           '(off, _) ← Aof.extract_u64 r;
           if (length id =? kReplIdLength)%nat then Some (id, off) else None) with
    | None => abort_link (io_now io) n
    | Some (id, off) =>
        let n := on_link (fun l => l <| transfer_replid_ := id |> <| transfer_offset_ := off |>
                                     <| transfer_path_ := io_path io |>) n in
        if negb (io_open io) then abort_link (io_now io) n
        else on_link (fun l => l <| transfer_fd_ := Some [] |> <| transfer_remaining_ := None |>
                                 <| link_state_ := kTransfer |>) n
    end
  else if beq line &"+CONTINUE" || starts_with &"+CONTINUE " line then
    let id := if (10 <? length line)%nat then drop 10 line else [] in
    let n := if negb (beq id []) && negb (beq id (replid_ n)) then
               disconnect_replicas
                 (n <| replid2_ := replid_ n |> <| second_replid_offset_ := Some (offset n) |>
                    <| replid_ := id |>)
             else n in
    adopt_link io n
  else abort_link (io_now io) n.

(** [persistence_.kill_child]: the child counts as failed, and the listener is
    told so. *)
Definition kill_child (n : node) : node :=
  match child_ n with
  | no_child => n
  | rewrite_child => n <| child_ := no_child |>
  | snapshot_child _ => snapshot_finished false [] (fun _ => false) (n <| child_ := no_child |>)
  end.

Definition replace_dataset (file : bytes) (io : LinkIo) (n : node) : bool * node :=
  let n := kill_child n in
  let '(ok, d) := io_replace io file in (ok, n <| store_ := d |>).

Definition finish_transfer (io : LinkIo) (n : node) : node :=
  let file := default [] (transfer_fd_ (link n)) in
  let n := on_link (fun l => l <| transfer_fd_ := None |>) n in
  if negb (io_fsync io) then abort_link (io_now io) n
  else
    let n := disconnect_replicas n in
    let '(ok, n) := replace_dataset file io n in
    let n := on_link (fun l => l <| transfer_path_ := [] |>) n in
    if negb ok then abort_link (io_now io) n
    else
      let off := u64 (transfer_offset_ (link n)) in  (* a [uint64_t] *)
      let n := n <| replid_ := transfer_replid_ (link n) |>
                 <| replid2_ := replicate kReplIdLength "0"%byte |>
                 <| second_replid_offset_ := None |>
                 <| backlog_ := Backlog.reset (backlog_ n) off |>
                 <| stream := [] |> <| stream_start := off |> in
      adopt_link io n.

(** The length header of the transfer; [None] is the early return. *)
Definition transfer_header (now : Z) (n : node) : option Z * node :=
  match transfer_remaining_ (link n) with
  | Some size => (Some size, n)
  | None =>
      let '(line, n) := take_line now n in
      match line with
      | None => (None, n)
      | Some line =>
          let '(size, ok) :=
            if (1 <? length line)%nat && starts_with &"$" line then
              let '(v, rest) := strtoull (drop 1 line) in (v, at_nul rest)
            else (0, false) in
          if negb ok then (None, abort_link now n)
          else (Some size, on_link (fun l => l <| transfer_remaining_ := Some size |>) n)
      end
  end.

(** The body: as much of it as has arrived goes to the file.  [true] when it
    is complete. *)
Definition transfer_body (size : Z) (io : LinkIo) (n : node) : bool * node :=
  let buf := link_buf_ (link n) in
  let k := Z.to_nat (Z.min size (zlen buf)) in
  if (0 <? k)%nat && negb (io_write io) then (false, abort_link (io_now io) n)
  else
    let rest := size - Z.of_nat k in
    let n := on_link (fun l => l <| transfer_fd_ := (fun f => f ++ take k buf) <$> transfer_fd_ l |>
                                 <| link_buf_ := drop k buf |>
                                 <| transfer_remaining_ := Some rest |>) n in
    (negb (0 <? rest), n).

(** The loop of [process_link_input].  A round that goes on has consumed a line,
    so one round per buffered byte and two more are enough. *)
Fixpoint process_link_loop (fuel : nat) (io : LinkIo) (n : node) : node :=
  match fuel with
  | O => n
  | S fuel =>
      match link_state_ (link n) with
      | kHandshake =>
          let '(line, n) := take_line (io_now io) n in
          match line with
          | None => n
          | Some line =>
              let replies := handshake_replies_ (link n) in
              if replies <? 3 then
                if (replies =? 0) && (beq line [] || starts_with &"-" line)
                then abort_link (io_now io) n
                else process_link_loop fuel io
                       (on_link (fun l => l <| handshake_replies_ := replies + 1 |>) n)
              else process_link_loop fuel io (handle_psync_reply line io n)
          end
      | kTransfer =>
          let '(size, n) := transfer_header (io_now io) n in
          match size with
          | None => n
          | Some size =>
              let '(complete, n) := transfer_body size io n in
              if negb complete then n else process_link_loop fuel io (finish_transfer io n)
          end
      | _ => n
      end
  end.

Definition process_link_input (io : LinkIo) (n : node) : node :=
  process_link_loop (2 + length (link_buf_ (link n))) io n.

Inductive ReadResult := read_data (data : bytes) | read_eof | read_again | read_error.

Definition read_link (r : ReadResult) (io : LinkIo) (n : node) : node :=
  match r with
  | read_eof | read_error => abort_link (io_now io) n
  | read_again => n
  | read_data data =>
      process_link_input io
        (on_link (fun l => l <| link_last_io_ := io_now io |>
                             <| link_buf_ := link_buf_ l ++ take (Z.to_nat kLinkReadChunk) data |>) n)
  end.

Definition handshake (n : node) : bytes :=
  let hs := Reply.command [] [&"PING"] in
  let hs := Reply.command hs [&"REPLCONF"; &"listening-port";
                              to_string (listening_port (options_ n))] in
  let hs := Reply.command hs [&"REPLCONF"; &"capa"; &"psync2"] in
  if replid_shared_ n then Reply.command hs [&"PSYNC"; replid_ n; to_string (offset n)]
  else Reply.command hs [&"PSYNC"; &"?"; &"-1"].

(** What is sent to the master, and the node.  [err] is whether SO_ERROR
    reports a failed connect, [took] how many bytes the socket took. *)
Definition on_link_ready (err : bool) (took : nat) (r : ReadResult) (io : LinkIo) (n : node) :
    bytes * node :=
  if negb (bool_decide (link_state_ (link n) = kConnecting)) then ([], read_link r io n)
  else if err then ([], abort_link (io_now io) n)
  else
    let hs := handshake n in
    if (took <? length hs)%nat then (take took hs, abort_link (io_now io) n)
    else (hs, on_link (fun l => l <| link_state_ := kHandshake |> <| handshake_replies_ := 0 |>
                                  <| link_last_io_ := io_now io |>) n).

(** ** Event-loop hooks *)

Definition client_closed (id now : Z) (n : node) : node :=
  let n := on_client id (fun c => c <| repl_snapshot_fd := None |>) n in
  let n := n <| replicas_ := without id (replicas_ n) |>
             <| waiters_ := filter (fun w => w_client w <> id) (waiters_ n) |>
             <| to_resume_ := without id (to_resume_ n) |> in
  if bool_decide (master_ (link n) = Some id) then
    on_link (fun l => l <| master_ := None |> <| link_down_since_ := now |>
                        <| link_state_ := kConnect |> <| next_connect_ := now |>) n
  else n.

Definition master_last_contact (n : node) : Z :=
  match (if bool_decide (link_state_ (link n) = kConnected) then master_ (link n) else None) with
  | Some m => match conns_ n !! m with Some c => last_interaction c | None => 0 end
  | None => link_down_since_ (link n)
  end.

Definition before_sleep (now : Z) (n : node) : node :=
  let ids := to_resume_ n in
  let n := foldl (fun n id => process_buffered id n) (n <| to_resume_ := [] |>) ids in
  let n := if get_ack_pending_ n && negb (stream_paused_ n) then
             let n := n <| get_ack_pending_ := false |> in
             match replicas_ n with
             | [] => n
             | _ => propagate [&"REPLCONF"; &"GETACK"; &"*"] n
             end
           else n in
  unblock_waiters now n.

(** The [switch (link_state_)] of [cron]. *)
Definition cron_link (t : Z) (connected : bool) (n : node) : node :=
  let l := link n in
  match link_state_ l with
  | kConnect => if next_connect_ l <=? t then connect_to_master t connected n else n
  | kConnecting | kHandshake | kTransfer =>
      if timeout (options_ n) <? t - link_last_io_ l then abort_link t n else n
  | kConnected =>
      match master_ l with
      | Some m => match conns_ n !! m with
                  | Some c => if timeout (options_ n) <? t - last_interaction c
                              then close_client m n else n
                  | None => n
                  end
      | None => n
      end
  | kNoLink => n
  end.

(** One round of [cron]'s loop over the replicas. *)
Definition cron_client (t limit : Z) (c : Client) : Client :=
  if closing c then c
  else match repl_state c with
       | kWaitBgsaveStart | kWaitBgsaveEnd => queue_write (c <| out := out c ++ [x0a] |>)
       | kOnline => if limit <? t - repl_ack_time c then c <| closing := true |> else c
       | kSendBulk | kNone => c
       end.

Definition cron (t : Z) (connected fork_ok : bool) (n : node) : node :=
  let n := unblock_waiters t n in
  let n := cron_link t connected n in
  if t - last_second_tick_ n <? kCronSecond then n
  else
    let n := n <| last_second_tick_ := t |> in
    let n := match master_ (link n) with
             | Some m => match conns_ n !! m with
                         | Some c => if closing c then n else send_ack n
                         | None => n
                         end
             | None => n
             end in
    let n := if negb (is_replica n) && negb (stream_paused_ n) && negb (bool_decide (replicas_ n = []))
                && (ping_period (options_ n) <=? t - last_ping_ n)
             then propagate [&"PING"] (n <| last_ping_ := t |>) else n in
    let n := on_replicas (cron_client t (timeout (options_ n))) n in
    start_snapshot_for_replicas fork_ok n.

(** ** INFO *)

Definition seconds (d : Z) : Z := Z.quot d 1000000000.
Definition field (name value : bytes) : bytes := name ++ &":" ++ value ++ crlf.

Definition info_replica (t : Z) (n : node) (i : nat) (r : Z) : bytes :=
  let c := default new_client (conns_ n !! r) in
  &"slave" ++ to_string (Z.of_nat i) ++ &":ip=" ++ addr c
  ++ &",port=" ++ to_string (repl_listening_port c) ++ &",state=" ++ state_name (repl_state c)
  ++ &",offset=" ++ to_string (repl_ack_offset c)
  ++ &",lag=" ++ to_string (seconds (t - repl_ack_time c)) ++ crlf.

Definition info (t : Z) (n : node) : bytes :=
  let l := link n in
  let up := bool_decide (link_state_ l = kConnected) in
  let master := default new_client (m ← master_ l; conns_ n !! m) in
  &"# Replication" ++ crlf
  ++ field &"role" (if is_replica n then &"slave" else &"master")
  ++ (if is_replica n then
        field &"master_host" (master_host_ l)
        ++ field &"master_port" (to_string (master_port_ l))
        ++ field &"master_link_status" (if up then &"up" else &"down")
        ++ field &"master_last_io_seconds_ago"
             (to_string (if up then seconds (t - last_interaction master) else -1))
        ++ field &"master_sync_in_progress"
             (if bool_decide (link_state_ l = kTransfer) then &"1" else &"0")
        ++ field &"slave_repl_offset" (to_string (offset n))
        ++ field &"slave_read_only" &"1"
      else [])
  ++ field &"connected_slaves" (to_string (zlen (replicas_ n)))
  ++ concat (imap (info_replica t n) (replicas_ n))
  ++ field &"master_replid" (replid_ n)
  ++ field &"master_replid2" (replid2_ n)
  ++ field &"master_repl_offset" (to_string (offset n))
  ++ field &"second_repl_offset"
       (to_string (match second_replid_offset_ n with
                   | Some o => if o <=? int64_max then o else o - 2 ^ 64
                   | None => -1
                   end))
  ++ field &"repl_backlog_size" (to_string (Z.of_nat (Backlog.capacity (backlog_ n))))
  ++ field &"repl_backlog_first_byte_offset" (to_string (Backlog.start_offset (backlog_ n)))
  ++ field &"repl_backlog_histlen" (to_string (Z.of_nat (Backlog.histlen (backlog_ n))))
  ++ field &"sync_full" (to_string (sync_full_ n))
  ++ field &"sync_partial_ok" (to_string (sync_partial_ok_ n))
  ++ field &"sync_partial_err" (to_string (sync_partial_err_ n)).

(** ** A connection's way out (server.cpp) *)

(** [read] on the snapshot file: up to [k] bytes, an interruption or an error. *)
Inductive FileRead := file_bytes (k : nat) | file_intr | file_error.

(** [false] when the client was closed. *)
Definition refill_snapshot (r : FileRead) (now : Z) (c : Client) : bool * Client :=
  if kSnapshotChunkSize <=? zlen (out c) then (true, c)
  else
    match repl_snapshot_fd c, r with
    | None, _ => (true, c)
    | Some _, file_intr => (true, c)
    | Some _, file_error => (false, c <| closing := true |>)
    | Some [], file_bytes _ => (true, snapshot_sent now c)
    | Some rest, file_bytes k =>
        let k := Nat.min (Nat.max 1 k) (Z.to_nat kSnapshotChunkSize) in
        (true, c <| out := out c ++ take k rest |> <| repl_snapshot_fd := Some (drop k rest) |>)
    end.

(** [epoll_ok]: whether changing the interest succeeds, when it changes. *)
Definition set_write_interest (enabled epoll_ok : bool) (c : Client) : Client :=
  if Bool.eqb (write_interest c) enabled then c
  else if negb epoll_ok then c <| closing := true |>
  else c <| write_interest := enabled |>.

(** The send loop takes [took] bytes of the buffer and then would block, is
    done, or fails. *)
Definition flush (r : FileRead) (took : nat) (send_error epoll_ok : bool) (now : Z) (c : Client) : Client :=
  let '(open, c) := match repl_snapshot_fd c with
                    | Some _ => refill_snapshot r now c
                    | None => (true, c)
                    end in
  if negb open then c
  else
    let now_sent := sent c ++ take took (out c) in
    if send_error && (took <? length (out c))%nat then c <| sent := now_sent |> <| closing := true |>
    else
      let c := c <| sent := now_sent |> <| out := drop took (out c) |> in
      if beq (out c) [] && negb (bool_decide (repl_state c = kSendBulk)) then
        let c := set_write_interest false epoll_ok c in
        if close_after_flush c then c <| closing := true |> else c
      else if bool_decide (repl_state c = kNone) && (kMaxOutputBufferBytes <? zlen (out c)) then
        c <| closing := true |>
      else set_write_interest true epoll_ok c.

(** The socket can take bytes again ([run]). *)
Definition flush_ready (id : Z) (r : FileRead) (took : nat) (send_error epoll_ok : bool) (now : Z)
    (n : node) : node :=
  on_client id (fun c => if closing c then c else flush r took send_error epoll_ok now c) n.

(** [flush_pending_writes], for one connection. *)
Definition flush_pending (id : Z) (r : FileRead) (took : nat) (send_error epoll_ok : bool) (now : Z)
    (n : node) : node :=
  on_client id (fun c =>
    if pending_write c then
      let c := c <| pending_write := false |> in
      if closing c then c else flush r took send_error epoll_ok now c
    else c) n.

(** [close_pending], for one connection. *)
Definition close_pending (id now : Z) (n : node) : node :=
  let n := client_closed id now n in
  n <| conns_ := delete id (conns_ n) |> <| held_clients_ := without id (held_clients_ n) |>.

Definition resume_held_clients (n : node) : node :=
  let ids := held_clients_ n in
  foldl (fun n id =>
    match conns_ n !! id with
    | Some c => match held_command c with
                | Some _ => process_buffered id n
                | None => n
                end
    | None => n
    end) (n <| resume_held_ := false |> <| held_clients_ := [] |>) ids.

(** [add_client] for an accepted connection. *)
Definition accept (peer : bytes) (n : node) : node :=
  let id := next_client_id_ n in
  n <| next_client_id_ := u64 (id + 1) |>
    <| conns_ := <[id := new_client <| addr := peer |>]> (conns_ n) |>
    <| wrapped := wrapped n || (2 ^ 64 <=? id + 1) |>.

(** [persistence_.cron] reaping its child: a snapshot is committed by the
    rename and holds the dataset of the fork, written by [dump]; the listener
    is told.  *)
Definition child_exits (dump : DS -> bytes) (ok : bool) (opened : Z -> bool) (n : node) : node :=
  match child_ n with
  | no_child => n
  | rewrite_child => n <| child_ := no_child |>
  | snapshot_child d => snapshot_finished ok (dump d) opened (n <| child_ := no_child |>)
  end.

(** Everything that can happen to a node between two iterations' guards. *)
Inductive step (dump : DS -> bytes) : node -> node -> Prop :=
  | step_command n id n' : command_step id n n' -> step dump n n'
  | step_expire n argv d : step dump n (propagate argv (n <| store_ := d |>))
  | step_paused n b : step dump n (set_stream_paused b n)
  | step_writes_paused n b : step dump n (set_writes_paused b n)
  | step_passive_expiry n b : step dump n (n <| passive_expiry_ := b |>)
  | step_resume n : step dump n (resume_held_clients n)
  | step_before_sleep n now : step dump n (before_sleep now n)
  | step_cron n t connected fork_ok : step dump n (cron t connected fork_ok n)
  | step_link n err took r io :
      link_fd_ (link n) = true -> step dump n (on_link_ready err took r io n).2
  | step_child_exits n ok opened : step dump n (child_exits dump ok opened n)
  | step_read n id t data :
      step dump n (on_client id (fun c =>
        c <| last_interaction := t |> <| input := input c ++ data |>) n)
  | step_flush n id r took send_error epoll_ok now :
      step dump n (flush_ready id r took send_error epoll_ok now n)
  | step_flush_pending n id r took send_error epoll_ok now :
      step dump n (flush_pending id r took send_error epoll_ok now n)
  | step_reap n id c now :
      conns_ n !! id = Some c -> closing c = true -> step dump n (close_pending id now n)
  | step_accept n peer : step dump n (accept peer n).

End hooks.

End Replication.
