(* ===== verification/ReplicationStream.v ===== *)
(** * What a replica is sent (src/src/replication.cpp, src/src/server.cpp)

    The invariant of a node under every step of Replication.v, and what it says
    of one watched connection from its PSYNC on: everything ever queued for it
    is its answer ([+CONTINUE], or [+FULLRESYNC] with keepalives, the snapshot
    forked at the announced offset) followed by the stream from that offset,
    with no byte missing, repeated or out of place. *)

From stdpp Require Import relations.
From Stdlib Require Import Lia.
From S2P Require Import Prelude Resp Backlog Replication.

Module ReplicationStream.
Import Replication.

Section invariant.
Context {DS : Type} (dump : DS -> bytes).
Abbreviation node := (Node DS).

(** ** The part of a node the invariant speaks of *)

Record View := mkView {
  v_replid : bytes;
  v_ring : Backlog.ReplBacklog;
  v_replicas : list Z;
  v_waiters : list Z;
  v_resume : list Z;
  v_master : option Z;
  v_link : LinkState;
  v_conns : gmap Z Client;
  v_next : Z;
  v_child : Child DS;
  v_stream : bytes;
  v_start : Z;
  v_forks : list (Z * DS);
}.

#[global] Instance view_eta : Eta View := fun v =>
  mkView (v_replid v) (v_ring v) (v_replicas v) (v_waiters v) (v_resume v) (v_master v)
    (v_link v) (v_conns v) (v_next v) (v_child v) (v_stream v) (v_start v) (v_forks v).

(** [parked] holds clients taken off the waiters but not resumed yet. *)
Context (parked : list Z).

Definition view (n : node) : View :=
  mkView (replid_ n) (backlog_ n) (replicas_ n) (map w_client (waiters_ n) ++ parked) (to_resume_ n)
    (master_ (link n)) (link_state_ (link n)) (conns_ n) (next_client_id_ n) (child_ n)
    (stream n) (stream_start n) (forks n).

(** Everything ever queued for a connection. *)
Definition total (c : Client) : bytes := sent c ++ out c.

Definition newlines (k : nat) : bytes := replicate k x0a.

(** The stream from offset [off] on. *)
Definition from_off (v : View) (off : Z) : bytes :=
  drop (Z.to_nat (off - v_start v)) (v_stream v).

Definition covers (v : View) (off : Z) : Prop :=
  v_start v <= off <= v_start v + zlen (v_stream v).

(** What precedes the snapshot of a full resync: keepalives while it cannot
    start, the announcement, keepalives while it is written. *)
Definition preamble (k k' : nat) (replid : bytes) (off : Z) : bytes :=
  newlines k ++ full_resync_reply replid off ++ newlines k'.

Definition bulk (file : bytes) : bytes := &"$" ++ to_string (zlen file) ++ crlf ++ file.

(** [phase v pre req c]: what has been queued for [c] since [pre], by the state
    of its synchronisation; [req] is the offset it asked to continue from. *)
Inductive phase (v : View) (pre : bytes) (req : Z) (c : Client) : Prop :=
  | waits_for_child k :
      repl_state c = kWaitBgsaveStart -> total c = pre ++ newlines k ->
      repl_held c = [] -> repl_snapshot_fd c = None -> phase v pre req c
  | waits_for_snapshot k k' off d :
      repl_state c = kWaitBgsaveEnd -> total c = pre ++ preamble k k' (v_replid v) off ->
      v_child v = snapshot_child d -> (off, d) ∈ v_forks v -> covers v off ->
      repl_held c = from_off v off -> repl_snapshot_fd c = None -> phase v pre req c
  | sends_snapshot k k' off d rest :
      repl_state c = kSendBulk -> repl_snapshot_fd c = Some rest ->
      total c ++ rest = pre ++ preamble k k' (v_replid v) off ++ bulk (dump d) ->
      (off, d) ∈ v_forks v -> covers v off -> repl_held c = from_off v off -> phase v pre req c
  | resynced k k' off d :
      repl_state c = kOnline -> (off, d) ∈ v_forks v -> covers v off ->
      total c = pre ++ preamble k k' (v_replid v) off ++ bulk (dump d) ++ from_off v off ->
      repl_held c = [] -> repl_snapshot_fd c = None -> phase v pre req c
  | continued :
      repl_state c = kOnline -> covers v req ->
      total c = pre ++ Reply.simple_string [] (&"CONTINUE " ++ v_replid v) ++ from_off v req ->
      repl_held c = [] -> repl_snapshot_fd c = None -> phase v pre req c.

(** The connection is on its way out, or a WAIT will write into its stream. *)
Definition lost (c : Client) : bool := doomed c || disturbed c.

(** A connection that is watched: its id, what had been queued for it when it
    sent PSYNC, the offset it asked for. *)
Abbreviation watched := (option (Z * bytes * Z)).

Record client_ok (w : watched) (v : View) (id : Z) (c : Client) : Prop := {
  ok_next : 0 <= id < v_next v;
  ok_replica : id ∈ v_replicas v <-> repl_state c <> kNone;
  ok_waiter : id ∈ v_waiters v ->
    blocked c = true /\ (repl_state c <> kNone -> disturbed c = true);
  ok_idle : repl_state c = kNone -> repl_held c = [] /\ repl_snapshot_fd c = None;
  ok_quiet : repl_state c = kNone -> disturbed c = false;
  ok_master : is_master c = true -> repl_state c = kNone;
  ok_bulk : repl_state c = kSendBulk \/ repl_snapshot_fd c = None;
  ok_watched : forall pre req, w = Some (id, pre, req) -> lost c = false ->
    phase v pre req c;
}.

Record good (w : watched) (v : View) : Prop := {
  good_ring : Backlog.repr (v_ring v) (v_start v) (v_stream v);
  good_replicas_nodup : NoDup (v_replicas v);
  good_replicas : forall r, r ∈ v_replicas v -> is_Some (v_conns v !! r);
  good_waiters_nodup : NoDup (v_waiters v);
  good_waiters : forall r, r ∈ v_waiters v -> is_Some (v_conns v !! r);
  good_resume : forall r, r ∈ v_resume v -> is_Some (v_conns v !! r);
  good_master : forall m, v_master v = Some m ->
    exists c, v_conns v !! m = Some c /\ is_master c = true;
  good_connected : v_link v = kConnected <-> is_Some (v_master v);
  good_next : 0 <= v_next v < 2 ^ 64;
  good_watched : forall id pre req, w = Some (id, pre, req) -> 0 <= id < v_next v;
  good_clients : forall id c, v_conns v !! id = Some c -> client_ok w v id c;
}.

Definition inv (w : watched) (n : node) : Prop := wrapped n = false -> good w (view n).

(** ** Updating connections pointwise *)

Definition each (g : Z -> Client -> Client) (m : gmap Z Client) : gmap Z Client :=
  map_imap (fun id c => Some (g id c)) m.

Lemma lookup_each g m id : each g m !! id = g id <$> m !! id.
Proof. unfold each. rewrite map_lookup_imap. by destruct (m !! id). Qed.

Lemma on_client_each id f (n : node) :
  on_client id f n = n <| conns_ := each (fun i c => if decide (i = id) then f c else c) (conns_ n) |>.
Proof.
  unfold on_client. simpl. f_equal. apply map_eq. intros i. rewrite lookup_each, lookup_alter.
  repeat case_decide; subst; try done. by destruct (conns_ n !! i).
Qed.

Lemma on_clients_each l (f : Z -> Client -> Client) : forall n : node,
  NoDup l ->
  foldl (fun n r => on_client r (f r) n) n l
  = n <| conns_ := each (fun i c => if decide (i ∈ l) then f i c else c) (conns_ n) |>.
Proof.
  induction l as [|r l IH]; intros n Hnd; simpl.
  - destruct n. simpl. f_equal. apply map_eq. intros i. rewrite lookup_each. by destruct (_ !! i).
  - apply list.NoDup_cons in Hnd as [Hr Hnd]. rewrite IH by done. rewrite on_client_each. simpl. f_equal.
    apply map_eq. intros i. rewrite !lookup_each.
    destruct (conns_ n !! i) as [c|]; [|done]. simpl. f_equal.
    destruct (decide (i = r)) as [->|]; repeat case_decide; try done; set_solver.
Qed.

Lemma on_replicas_each f (n : node) :
  NoDup (replicas_ n) ->
  on_replicas f n
  = n <| conns_ := each (fun i c => if decide (i ∈ replicas_ n) then f c else c) (conns_ n) |>.
Proof. apply (on_clients_each _ (fun _ => f)). Qed.

(** ** Changes that keep a connection's phase *)

(** Same synchronisation state, and nothing queued on a connection that is
    replicating. *)
Record mild (c c' : Client) : Prop := {
  mild_state : repl_state c' = repl_state c;
  mild_master : is_master c' = is_master c;
  mild_blocked : blocked c' = blocked c;
  mild_disturbed : disturbed c' = disturbed c;
  mild_closing : lost c' = false -> lost c = false;
  mild_held : repl_held c' = repl_held c;
  mild_fd : repl_snapshot_fd c' = repl_snapshot_fd c;
  mild_total : lost c' = false -> repl_state c <> kNone -> total c' = total c;
}.

Lemma mild_refl c : mild c c.
Proof. by split. Qed.

Lemma phase_not_none v pre req c : phase v pre req c -> repl_state c <> kNone.
Proof. destruct 1; congruence. Qed.

(** What the phases and the connections' conditions depend on. *)
Record same_stream (v v' : View) : Prop := {
  same_replid : v_replid v' = v_replid v;
  same_stream_bytes : v_stream v' = v_stream v;
  same_start : v_start v' = v_start v;
  same_forks : v_forks v ⊆ v_forks v';
}.

Record same_lists (v v' : View) : Prop := {
  same_replicas : v_replicas v' = v_replicas v;
  same_waiters : v_waiters v' = v_waiters v;
  same_next : v_next v' = v_next v;
}.

Lemma phase_mild v v' pre req c c' :
  same_stream v v' -> (repl_state c = kWaitBgsaveEnd -> v_child v' = v_child v) ->
  mild c c' -> lost c' = false -> phase v pre req c -> phase v' pre req c'.
Proof.
  intros [] Hch [] Hc Hp. pose proof (mild_total0 Hc (phase_not_none _ _ _ _ Hp)) as Ht.
  destruct Hp; [eapply waits_for_child | eapply waits_for_snapshot | eapply sends_snapshot
    | eapply resynced | eapply continued]; unfold covers, from_off in *;
    rewrite ?Ht, ?mild_state0, ?mild_held0, ?mild_fd0,
      ?same_replid0, ?same_stream_bytes0, ?same_start0; eauto.
  by rewrite Hch.
Qed.

Lemma client_ok_mild w v v' id c c' :
  same_stream v v' -> same_lists v v' ->
  (repl_state c = kWaitBgsaveEnd -> lost c' = false -> v_child v' = v_child v) ->
  mild c c' -> client_ok w v id c -> client_ok w v' id c'.
Proof.
  intros Hs [E1 E2 E3] Hch Hm []. split; rewrite ?E1, ?E2, ?E3, ?(mild_state _ _ Hm),
    ?(mild_blocked _ _ Hm), ?(mild_disturbed _ _ Hm), ?(mild_held _ _ Hm), ?(mild_fd _ _ Hm), ?(mild_master _ _ Hm); try done.
  intros pre req E Hc. pose proof (mild_closing _ _ Hm Hc).
  apply (phase_mild v v' pre req c c'); auto.
Qed.

Lemma mild_queue c : mild c (queue_write c).
Proof. by split. Qed.

Lemma client_ok_queue w v id c : client_ok w v id c -> client_ok w v id (queue_write c).
Proof. apply (client_ok_mild w v v id c); [by split|by split|done|apply mild_queue]. Qed.

(** The rest of [good] follows for any pointwise change. *)
Lemma good_each w v v' g :
  good w v -> v_conns v' = each g (v_conns v) -> same_lists v v' ->
  v_resume v' = v_resume v -> v_master v' = v_master v -> v_link v' = v_link v ->
  Backlog.repr (v_ring v') (v_start v') (v_stream v') ->
  (forall id c, v_conns v !! id = Some c -> client_ok w v id c -> client_ok w v' id (g id c)) ->
  (forall id c, is_master (g id c) = is_master c) ->
  good w v'.
Proof.
  intros [] Hc [] Hr Hm Hl Hring Hok Hmaster.
  assert (Hsome : forall r, is_Some (v_conns v' !! r) <-> is_Some (v_conns v !! r)).
  { intros r. rewrite Hc, lookup_each. apply fmap_is_Some. }
  split; try congruence; intros *; rewrite ?same_replicas0, ?same_waiters0, ?Hr, ?Hm, ?Hl, ?Hsome; eauto.
  - intros Hv. destruct (good_master0 _ Hv) as (c & E & ?). exists (g m c).
    by rewrite Hc, lookup_each, E, Hmaster.
  - rewrite same_next0. eauto.
  - rewrite Hc, lookup_each. intros (c0 & E & ->)%fmap_Some. eauto.
Qed.

Lemma good_mild w v g :
  good w v -> (forall id c, v_conns v !! id = Some c -> client_ok w v id c -> mild c (g id c)) ->
  (forall id c, is_master (g id c) = is_master c) ->
  good w (v <| v_conns := each g (v_conns v) |>).
Proof.
  intros Hg Hm Hi. eapply good_each; [done|done|by split|done..|by destruct Hg| |done].
  intros id c E Hok. eapply (client_ok_mild w v); [by split|by split|done|by apply Hm|done].
Qed.

(** ** Operations that only touch connections mildly *)

Lemma on_clients_wrapped l (f : Z -> Client -> Client) : forall n : node,
  wrapped (foldl (fun n r => on_client r (f r) n) n l) = wrapped n.
Proof. induction l as [|r l IH]; intros n; simpl; [done|]. by rewrite IH. Qed.

Lemma on_replicas_wrapped f (n : node) : wrapped (on_replicas f n) = wrapped n.
Proof. apply (on_clients_wrapped _ (fun _ => f)). Qed.

Lemma inv_client w id f (n : node) :
  inv w n ->
  (forall c, conns_ n !! id = Some c -> good w (view n) -> mild c (f c)) ->
  (forall c, is_master (f c) = is_master c) ->
  inv w (on_client id f n).
Proof.
  intros Hi Hm Hk Hw. rewrite on_client_each. specialize (Hi Hw).
  apply (good_mild w (view n)); [done| |].
  - intros i c E _. case_decide; [subst; by apply Hm|apply mild_refl].
  - intros i c. by case_decide.
Qed.

Lemma inv_replicas w f (n : node) :
  inv w n -> (forall c, mild c (f c)) -> inv w (on_replicas f n).
Proof.
  intros Hi Hm Hw. rewrite on_replicas_wrapped in Hw. specialize (Hi Hw).
  rewrite on_replicas_each by apply Hi.
  apply (good_mild w (view n)); [done| |].
  - intros i c E _. case_decide; [apply Hm|apply mild_refl].
  - intros i c. case_decide; [apply Hm|done].
Qed.

Lemma mild_close c : mild c (c <| closing := true |>).
Proof. by split. Qed.

Lemma inv_close_client w id n : inv w n -> inv w (close_client id n).
Proof. intros H. apply inv_client; [done| |done]. intros. apply mild_close. Qed.

Lemma inv_disconnect w n : inv w n -> inv w (disconnect_replicas n).
Proof. intros H. apply inv_replicas; [done|]. apply mild_close. Qed.

(** Queueing a reply on a connection that is not replicating. *)
Lemma inv_reply w id (f : Client -> bytes) n :
  inv w n ->
  (forall c, conns_ n !! id = Some c -> good w (view n) -> repl_state c = kNone) ->
  inv w (on_client id (fun c => c <| out := f c |>) n).
Proof.
  intros H Hk. apply inv_client; [done| |done]. intros c E Hg. split; try done.
  intros _ Hs. by rewrite (Hk _ E Hg) in Hs.
Qed.

(** ** The stream grows *)

Lemma from_off_app v v' data off :
  v_start v' = v_start v -> v_stream v' = v_stream v ++ data -> covers v off ->
  covers v' off /\ from_off v' off = from_off v off ++ data.
Proof.
  unfold covers, from_off. intros -> -> [H1 H2]. rewrite zlen_app. pose proof (zlen_nonneg data).
  split; [lia|]. rewrite drop_app_le; [done|]. unfold zlen in *. lia.
Qed.

Lemma feed_client_state data c : repl_state (feed_client data c) = repl_state c.
Proof. unfold feed_client. destruct (closing c), (repl_state c) eqn:E; simpl; repeat case_match; by simpl. Qed.

Lemma feed_client_closing data c : lost (feed_client data c) = false -> lost c = false.
Proof.
  unfold feed_client. destruct (closing c) eqn:E; [done|].
  unfold lost, doomed. rewrite E. destruct (repl_state c); simpl; repeat case_match; simpl;
    destruct (close_after_flush c); by rewrite ?E.
Qed.

Lemma lost_closing c : lost c = false -> closing c = false.
Proof. by intros [[H _]%orb_false_iff _]%orb_false_iff. Qed.

(** What [feed] queues on a connection that stays open. *)
Lemma feed_client_open data c :
  lost (feed_client data c) = false ->
  total (feed_client data c) = (if decide (repl_state c = kOnline) then total c ++ data else total c) /\
  repl_held (feed_client data c)
  = (if decide (repl_state c = kWaitBgsaveEnd \/ repl_state c = kSendBulk)
     then repl_held c ++ data else repl_held c) /\
  repl_snapshot_fd (feed_client data c) = repl_snapshot_fd c.
Proof.
  intros H. pose proof (feed_client_closing _ _ H) as Hc%lost_closing. apply lost_closing in H. revert H.
  unfold feed_client, total. rewrite Hc.
  destruct (repl_state c) eqn:E; simpl; repeat case_match; simpl; intros; simplify_eq;
    rewrite ?app_assoc; repeat case_decide; simplify_eq; naive_solver.
Qed.

Lemma phase_feed v v' pre req data c :
  v_start v' = v_start v -> v_stream v' = v_stream v ++ data ->
  v_replid v' = v_replid v -> v_child v' = v_child v -> v_forks v' = v_forks v ->
  phase v pre req c -> lost (feed_client data c) = false ->
  phase v' pre req (feed_client data c).
Proof.
  intros E1 E2 E3 E4 E5 Hp Hc. destruct (feed_client_open _ _ Hc) as (Ht & Hh & Hf).
  pose proof (feed_client_state data c) as Hs.
  destruct Hp as [k P1 P2 P3 P4|k k' off d P1 P2 P3 P4 P5 P6 P7|k k' off d rest P1 P2 P3 P4 P5 P6
    |k k' off d P1 P2 P3 P4 P5 P6|P1 P2 P3 P4 P5]; rewrite P1 in *; simpl in Ht, Hh;
    try (destruct (from_off_app _ _ _ _ E1 E2 P5) as [Hcov Hoff]);
    try (destruct (from_off_app _ _ _ _ E1 E2 P3) as [Hcov Hoff]);
    try (destruct (from_off_app _ _ _ _ E1 E2 P2) as [Hcov Hoff]);
    [eapply waits_for_child | eapply waits_for_snapshot | eapply sends_snapshot
    | eapply resynced | eapply continued];
    rewrite ?Hs, ?Ht, ?Hh, ?Hf, ?E3, ?E4, ?E5, ?Hoff, ?P2, ?P4, ?P6, <-?app_assoc; eauto.
  by rewrite P3, <-!app_assoc.
Qed.

(** A connection that is not replicating does not depend on the stream. *)
Lemma client_ok_idle w v v' id c :
  same_lists v v' -> repl_state c = kNone -> client_ok w v id c -> client_ok w v' id c.
Proof.
  intros [E1 E2 E3] Hs []. split; rewrite ?E1, ?E2, ?E3; try done.
  intros pre req E Hc. by destruct (phase_not_none _ _ _ _ (ok_watched0 _ _ E Hc)).
Qed.

Lemma feed_client_fields data c :
  is_master (feed_client data c) = is_master c /\ blocked (feed_client data c) = blocked c /\
  repl_snapshot_fd (feed_client data c) = repl_snapshot_fd c /\
  disturbed (feed_client data c) = disturbed c.
Proof. unfold feed_client. destruct (closing c), (repl_state c); simpl; repeat case_match; by simpl. Qed.

Lemma inv_feed w data n : inv w n -> inv w (feed data n).
Proof.
  intros Hi Hw. unfold feed in *. rewrite on_replicas_wrapped in Hw. simpl in Hw.
  apply orb_false_iff in Hw as [Hw Hlt]. specialize (Hi Hw).
  rewrite on_replicas_each by apply Hi.
  set (v' := view _).
  eapply (good_each w (view n) v'); [done|done|by split|done..| | |].
  - apply Backlog.append_repr; [apply Hi|]. cbn. lia.
  - intros id c E Hok. cbv beta. case_decide as Hr; simpl in Hr.
    2:{ eapply (client_ok_idle w (view n)); [by split| |done].
        apply dec_stable. intros Hs. by apply (ok_replica _ _ _ _ Hok) in Hs. }
    destruct (feed_client_fields data c) as (F1 & F2 & F3 & F5).
    pose proof (feed_client_state data c) as F4. destruct Hok.
    split; rewrite ?F1, ?F2, ?F3, ?F4, ?F5; try done.
    + intros Hs. by apply ok_replica0 in Hs.
    + intros pre req Ew Hc. eapply (phase_feed (view n)); [done..| |done].
      eapply ok_watched0; [done|]. by eapply feed_client_closing.
  - intros id c. cbv beta. case_decide; [apply feed_client_fields|done].
Qed.

Lemma inv_propagate w argv n : inv w n -> inv w (propagate argv n).
Proof. intros H. unfold propagate. case_match; [done|]. by apply inv_feed. Qed.

Lemma inv_propagates w writes : forall n, inv w n ->
  inv w (foldl (fun n argv => propagate argv n) n writes).
Proof. induction writes; intros n H; simpl; [done|]. by apply IHwrites, inv_propagate. Qed.

(** ** PSYNC: a connection joins the replicas *)

(** [w'] may start watching the connection that joins. *)
Lemma good_attach w w' v id c f :
  good w v -> v_conns v !! id = Some c -> ordinary c ->
  (forall i pre req, w' = Some (i, pre, req) -> i <> id -> w = w') ->
  repl_state (f c) <> kNone -> is_master (f c) = false ->
  repl_state (f c) = kSendBulk \/ repl_snapshot_fd (f c) = None ->
  (forall pre req, w' = Some (id, pre, req) -> lost (f c) = false -> phase v pre req (f c)) ->
  good w' (v <| v_conns := each (fun i c => if decide (i = id) then f c else c) (v_conns v) |>
             <| v_replicas := v_replicas v ++ [id] |>).
Proof.
  intros Hg E (Hs & Hm & Hb & Hcl) Hw Hs' Hm' Hfd Hph. pose proof (good_clients _ _ Hg _ _ E) as Hok.
  assert (Hnr : id ∉ v_replicas v) by (rewrite (ok_replica _ _ _ _ Hok); auto).
  assert (Hsome : forall g r, is_Some (each g (v_conns v) !! r) <-> is_Some (v_conns v !! r)).
  { intros g r. rewrite lookup_each. apply fmap_is_Some. }
  destruct Hg. split; cbn [update v_conns v_replicas v_waiters v_ring v_stream v_start v_resume
    v_master v_link v_next]; try done.
  - apply list.NoDup_app. split_and!; [done| |apply list.NoDup_singleton].
    intros r Hr ->%list_elem_of_singleton. done.
  - intros r Hr. rewrite Hsome. apply elem_of_app in Hr as [Hr|Hr]; [auto|].
    apply list_elem_of_singleton in Hr as ->. by rewrite E.
  - intros r. rewrite Hsome. auto.
  - intros r. rewrite Hsome. auto.
  - intros m Hv. destruct (good_master0 _ Hv) as (cm & Em & Hcm). exists cm.
    rewrite lookup_each, Em. simpl. rewrite decide_False; [done|]. intros ->. congruence.
  - intros i pre req Ew. destruct (decide (i = id)) as [->|]; [apply Hok|].
    eapply good_watched0. rewrite (Hw _ _ _ Ew); done.
  - intros i ci. rewrite lookup_each. intros (c0 & E0 & ->)%fmap_Some. case_decide as Hi.
    + subst i. assert (c0 = c) as -> by congruence. destruct Hok.
      split; cbn [v_replicas v_waiters v_next]; try done.
      * rewrite elem_of_app, list_elem_of_singleton. split; auto.
      * intros Hwt. destruct (ok_waiter0 Hwt). congruence.
      * congruence.
      * intros pre req Ew Hc. specialize (Hph _ _ Ew Hc).
        eapply (phase_mild v); [by split|done|apply mild_refl|done|done].
    + destruct (good_clients0 _ _ E0). split; cbn [v_replicas v_waiters v_next]; try done.
      * rewrite <-ok_replica0, elem_of_app, list_elem_of_singleton. intuition congruence.
      * intros pre req Ew Hc. eapply (phase_mild v); [by split|done|apply mild_refl|done|].
        eapply ok_watched0; [|done]. by rewrite (Hw _ _ _ Ew).
Qed.

(** The end of the stream. *)
Lemma from_end w v :
  good w v -> covers v (Backlog.offset (v_ring v)) /\ from_off v (Backlog.offset (v_ring v)) = [].
Proof.
  intros [[_ Ho _] _ _ _ _ _ _ _ _ _ _]. unfold covers, from_off, Backlog.offset. rewrite Ho.
  pose proof (zlen_nonneg (v_stream v)). split; [lia|].
  apply drop_ge. unfold zlen. lia.
Qed.

Lemma waits_start_spec c : waits_start c = true <-> repl_state c = kWaitBgsaveStart.
Proof. apply bool_decide_eq_true. Qed.

(** The announcement to one connection that waited for it. *)
Lemma announced_ok w v v' id c :
  good w v -> client_ok w v id c -> same_lists v v' ->
  v_replid v' = v_replid v -> v_stream v' = v_stream v -> v_start v' = v_start v ->
  (exists d, v_child v' = snapshot_child d /\ (Backlog.offset (v_ring v), d) ∈ v_forks v') ->
  repl_state c = kWaitBgsaveStart ->
  client_ok w v' id (c <| repl_state := kWaitBgsaveEnd |>
    <| out := out c ++ full_resync_reply (v_replid v) (Backlog.offset (v_ring v)) |>).
Proof.
  intros Hg [] [E1 E2 E3] E4 E5 E6 (d & Hd & Hf) Hs.
  assert (Hfd : repl_snapshot_fd c = None) by (destruct ok_bulk0; congruence).
  split; cbn [update repl_state blocked repl_held repl_snapshot_fd is_master closing];
    rewrite ?E1, ?E2, ?E3; auto.
  - split; [done|]. intros _. apply ok_replica0. congruence.
  - intros H. destruct (ok_waiter0 H) as [? Hd']. split; [done|]. intros _. apply Hd'. congruence.
  - done.
  - done.
  - intros H. apply ok_master0 in H. congruence.
  - intros pre req E Hc. destruct (ok_watched0 _ _ E Hc) as [k P1 P2 P3 P4| | | |]; try congruence.
    destruct (from_end _ _ Hg) as [Hcov Hend]. unfold covers, from_off in *.
    eapply (waits_for_snapshot _ _ _ _ k 0); rewrite ?E4, ?E5, ?E6; eauto.
    + unfold preamble. change (newlines 0) with (@nil byte). rewrite app_nil_r, app_assoc, <-P2.
      unfold total. simpl. by rewrite app_assoc.
    + unfold covers. by rewrite E5, E6.
    + unfold from_off. rewrite E5, E6, Hend. done.
Qed.

Lemma inv_start_snapshot w fork_ok n : inv w n -> inv w (start_snapshot_for_replicas fork_ok n).
Proof.
  intros Hi. unfold start_snapshot_for_replicas.
  destruct (negb _ || child_running n) eqn:Hrun; [done|].
  apply orb_false_iff in Hrun as [_ Hrun].
  assert (Hch : child_ n = no_child) by (unfold child_running in Hrun; by destruct (child_ n)).
  destruct fork_ok; cbn [negb].
  2:{ apply inv_replicas; [done|]. intros c. destruct (waits_start c); [apply mild_close|apply mild_refl]. }
  intros Hw. cbn [update wrapped] in Hw. rewrite on_replicas_wrapped in Hw. specialize (Hi Hw).
  rewrite on_replicas_each by apply Hi. set (v' := view _).
  assert (Hsl : same_lists (view n) v') by by split.
  eapply (good_each w (view n) v'); [done|done|done|done..|apply Hi| |].
  - intros id c E Hok. cbv beta. case_decide as Hr.
    2:{ apply (client_ok_idle w (view n)); [done| |done].
        apply dec_stable. intros Hs. by apply (ok_replica _ _ _ _ Hok) in Hs. }
    destruct (waits_start c) eqn:Hst.
    + apply waits_start_spec in Hst. apply client_ok_queue. eapply (announced_ok w (view n)); eauto.
      exists (store_ n). split; [done|]. cbn. apply elem_of_app. right. by apply list_elem_of_singleton.
    + destruct Hok. split; try done. intros pre req Ew Hc. pose proof (ok_watched0 _ _ Ew Hc) as Hp.
      apply (phase_mild (view n) v' pre req c c); [|..|apply mild_refl|done|done].
      * split; try done. intros x Hx. apply elem_of_app. by left.
      * intros Hs. destruct Hp; cbn in *; congruence.
  - intros id c. cbv beta. repeat case_match; done.
Qed.

(** Watching starts at the PSYNC of connection [id], or does not change. *)
Definition starts_watching (w w' : watched) (id : Z) (c : Client) (req : Z) : Prop :=
  w' = w \/ (w = None /\ w' = Some (id, total c, req)).

Lemma inv_attach w w' id c f (n : node) req :
  inv w n -> conns_ n !! id = Some c -> ordinary c -> starts_watching w w' id c req ->
  repl_state (f c) <> kNone -> is_master (f c) = false ->
  repl_state (f c) = kSendBulk \/ repl_snapshot_fd (f c) = None ->
  (good w (view n) -> phase (view n) (total c) req (f c)) ->
  inv w' (on_client id f n <| replicas_ := replicas_ n ++ [id] |>).
Proof.
  intros Hi E Ho Hw Hs Hm Hfd Hp Hwr. specialize (Hi Hwr). rewrite on_client_each.
  apply (good_attach w w' (view n) id c); try done.
  - intros i pre req' Ew Hne. destruct Hw as [->|[-> ->]]; [done|]. congruence.
  - intros pre req' Ew Hc. destruct Hw as [->|[-> ->]]; [|simplify_eq; auto].
    pose proof (good_clients _ _ Hi _ _ E) as Hok. destruct Ho as (Hn & _ & _ & Hcl).
    assert (lost c = false) as Hl by (unfold lost; by rewrite Hcl, (ok_quiet _ _ _ _ Hok Hn)).
    by destruct (phase_not_none _ _ _ _ (ok_watched _ _ _ _ Hok _ _ Ew Hl)).
Qed.

Lemma try_partial_spec id replid off (n : node) reply n' :
  try_partial_resync id replid off n = Some (reply, n') ->
  Backlog.contains (backlog_ n) off = true /\
  reply = Backlog.copy_from (backlog_ n) off (Reply.simple_string [] (&"CONTINUE " ++ replid_ n)) /\
  n' = on_client id (fun c => c <| repl_state := kOnline |> <| repl_ack_offset := off |>) n
         <| replicas_ := replicas_ n ++ [id] |> <| replid_shared_ := true |>.
Proof.
  unfold try_partial_resync. destruct (off <? 0); [done|].
  destruct (Backlog.contains _ _) eqn:Hc; [|by rewrite orb_true_r].
  case_match; [done|]. intros [= <- <-]. done.
Qed.

Lemma alter_twice (f g : Client -> Client) id (m : gmap Z Client) :
  alter f id (alter g id m) = alter (fun c => f (g c)) id m.
Proof.
  apply map_eq. intros i. rewrite !lookup_alter.
  repeat case_decide; subst; try done. by destruct (m !! i).
Qed.

(** Being answered [+CONTINUE]. *)
Lemma inv_continue w w' id c replid off now n reply n' :
  inv w n -> conns_ n !! id = Some c -> ordinary c -> starts_watching w w' id c off ->
  try_partial_resync id replid off
    (on_client id (fun c => c <| repl_ack_time := now |>) n <| stream_started_ := true |>)
    = Some (reply, n') ->
  inv w' (on_client id (fun c => c <| out := out c ++ reply |>)
    (n' <| sync_partial_ok_ := u64 (sync_partial_ok_ n' + 1) |>)).
Proof.
  intros Hi E Ho Hst (Hc & -> & ->)%try_partial_spec.
  set (reply := Backlog.copy_from _ _ _).
  set (f := fun c => c <| repl_ack_time := now |> <| repl_state := kOnline |>
                       <| repl_ack_offset := off |> <| out := out c ++ reply |>).
  enough (inv w' (on_client id f n <| replicas_ := replicas_ n ++ [id] |>)) as H.
  { intros Hwr. specialize (H Hwr). unfold view, on_client in *. simpl in *.
    by rewrite !alter_twice. }
  destruct Ho as (Hs & Hm & Hr).
  assert (Hidle : good w (view n) -> repl_held c = [] /\ repl_snapshot_fd c = None).
  { intros Hg. by apply (ok_idle _ _ _ _ (good_clients _ _ Hg _ _ E)). }
  intros Hwr. assert (Hg : good w (view n)) by auto. revert Hwr. simpl in Hc.
  apply (inv_attach w w' id c f n off); try done; [right; by apply Hidle|]. intros _.
  destruct (Hidle Hg) as [Hh Hfd]. pose proof (good_ring _ _ Hg) as Hring.
  apply continued; try done.
  - apply (Backlog.contains_repr _ _ _ _ Hring) in Hc. destruct Hring as [[_ Hl _] _ _].
    unfold covers, zlen in *. cbn in *. lia.
  - unfold total, f, reply. cbn [update out sent backlog_ replid_ on_client].
    rewrite (Backlog.copy_from_repr _ _ _ _ _ Hring Hc).
    by rewrite <-!app_assoc.
Qed.

Lemma inv_psync_ordinary w w' id c replid off now fork_ok n :
  inv w n -> conns_ n !! id = Some c -> ordinary c -> starts_watching w w' id c off ->
  w' = w \/ (exists c', conns_ (psync_command id replid off now fork_ok n) !! id = Some c' /\
                        repl_state c' <> kNone) ->
  inv w' (psync_command id replid off now fork_ok n).
Proof.
  intros Hi E Ho Hst Hatt. pose proof Ho as (Hs & Hm & Hr).
  unfold psync_command, psync in *. rewrite E, Hs, Hm in *. cbn [negb bool_decide decide decide_rel
    repl_state_eq_dec orb andb] in *.
  destruct (is_replica n && _) eqn:Hlink.
  { destruct Hatt as [->|(c' & Hl & Hn)].
    - apply inv_reply; [done|]. intros c' E' _. congruence.
    - unfold on_client in Hl. simpl in Hl. rewrite lookup_alter_eq, E in Hl. simpl in Hl.
      injection Hl as <-. by destruct Hn. }
  clear Hatt. destruct (try_partial_resync _ _ _ _) as [[reply n']|] eqn:Hp.
  { by eapply inv_continue. }
  apply inv_client; [|intros c' _ _; by split; rewrite ?app_nil_r|done].
  apply inv_start_snapshot.
  set (f := fun c => c <| repl_ack_time := now |> <| repl_state := kWaitBgsaveStart |>).
  enough (inv w' (on_client id f n <| replicas_ := replicas_ n ++ [id] |>)) as H.
  { intros Hwr. destruct (negb (beq replid &"?")); specialize (H Hwr);
      unfold view, on_client in *; simpl in *; by rewrite !alter_twice. }
  intros Hwr. assert (Hg : good w (view n)) by auto. revert Hwr.
  destruct (ok_idle _ _ _ _ (good_clients _ _ Hg _ _ E) Hs) as [Hh Hfd].
  apply (inv_attach w w' id c f n off); try done; [by right|]. intros _.
  apply (waits_for_child _ _ _ _ 0); try done. by rewrite app_nil_r.
Qed.

Lemma inv_psync w id c replid off now fork_ok n :
  inv w n -> conns_ n !! id = Some c -> runs c ->
  inv w (psync_command id replid off now fork_ok n).
Proof.
  intros Hi E Hr.
  destruct (bool_decide (repl_state c = kNone) && negb (is_master c)) eqn:Ho.
  - apply andb_true_iff in Ho as [Hs%bool_decide_eq_true Hm%negb_true_iff].
    eapply inv_psync_ordinary; [done|done|done|by left|by left].
  - unfold psync_command, psync. rewrite E, Ho.
    replace (negb (bool_decide (repl_state c = kNone)) || is_master c) with true; [done|].
    destruct (bool_decide _), (is_master c); done.
Qed.

(** ** The snapshot is done, and is sent *)

Lemma bulk_header_ok w v v' id c d :
  client_ok w v id c -> same_lists v v' -> same_stream v v' ->
  v_child v = snapshot_child d -> repl_state c = kWaitBgsaveEnd ->
  client_ok w v' id (c <| repl_snapshot_fd := Some (dump d) |>
    <| out := out c ++ &"$" ++ to_string (zlen (dump d)) ++ crlf |> <| repl_state := kSendBulk |>).
Proof.
  intros [] [E1 E2 E3] [E4 E5 E6 E7] Hd Hs.
  split; cbn [update repl_state blocked repl_held repl_snapshot_fd is_master closing];
    rewrite ?E1, ?E2, ?E3; auto.
  - split; [done|]. intros _. apply ok_replica0. congruence.
  - intros H. destruct (ok_waiter0 H) as [? Hd']. split; [done|]. intros _. apply Hd'. congruence.
  - done.
  - done.
  - intros H. apply ok_master0 in H. congruence.
  - intros pre req E Hc. destruct (ok_watched0 _ _ E Hc) as [|k k' off d' P1 P2 P3 P4 P5 P6 P7| | |];
      try congruence.
    assert (d' = d) as -> by congruence.
    eapply (sends_snapshot _ _ _ _ k k'); try done; unfold covers, from_off in *;
      rewrite ?E4, ?E5, ?E6; eauto.
    unfold total, bulk in *. cbn [update out sent].
    rewrite <-!app_assoc, (app_assoc (sent c)), P2, <-!app_assoc. done.
Qed.

Lemma inv_snapshot_finished w ok file opened n d :
  inv w n -> child_ n = snapshot_child d -> (ok = true -> file = dump d) ->
  inv w (snapshot_finished ok file opened (n <| child_ := no_child |>)).
Proof.
  intros Hi Hd Hf Hw. unfold snapshot_finished in *.
  rewrite (on_clients_wrapped _ (fun r c => if _ || closing c then c else _)) in Hw.
  specialize (Hi Hw). rewrite (on_clients_each _ (fun r c => if _ || closing c then c else _)) by apply Hi.
  set (v' := view _). assert (Hsl : same_lists (view n) v') by by split.
  assert (Hss : same_stream (view n) v') by by split.
  eapply (good_each w (view n) v'); [done|done|done|done..|apply Hi| |].
  - intros id c E Hok. cbv beta. case_decide as Hr.
    2:{ apply (client_ok_idle w (view n)); [done| |done].
        apply dec_stable. intros Hs. by apply (ok_replica _ _ _ _ Hok) in Hs. }
    case_match eqn:Hc1.
    { apply (client_ok_mild w (view n) v' id c c); [done|done| |apply mild_refl|done].
      intros Hs Hcl%lost_closing. by rewrite Hs, Hcl in Hc1. }
    apply orb_false_iff in Hc1 as [Hs%negb_false_iff%bool_decide_eq_true Hcl].
    destruct ok; cbn [negb].
    2:{ apply (client_ok_mild w (view n) v' id c); [done|done|done|apply mild_close|done]. }
    destruct (opened id); cbn [negb].
    2:{ apply (client_ok_mild w (view n) v' id c); [done|done|done|apply mild_close|done]. }
    rewrite Hf by done. by apply client_ok_queue, (bulk_header_ok w (view n)).
  - intros id c. cbv beta. repeat case_match; done.
Qed.

(** One refill and one send. *)
Lemma snapshot_sent_ok w v id c now :
  client_ok w v id c -> repl_state c = kSendBulk -> repl_snapshot_fd c = Some [] ->
  client_ok w v id (snapshot_sent now c).
Proof.
  intros [] Hs Hfd. set (c' := snapshot_sent now c).
  assert (F1 : repl_state c' = kOnline) by done. assert (F2 : blocked c' = blocked c) by done.
  assert (F3 : repl_held c' = []) by done. assert (F4 : repl_snapshot_fd c' = None) by done.
  assert (F5 : is_master c' = is_master c) by done. assert (F6 : lost c' = lost c) by done.
  assert (F7 : total c' = total c ++ repl_held c) by apply app_assoc.
  assert (F8 : disturbed c' = disturbed c) by done.
  clearbody c'. split; rewrite ?F1, ?F2, ?F3, ?F4, ?F5, ?F6, ?F8; auto.
  - rewrite ok_replica0, Hs. done.
  - intros H. destruct (ok_waiter0 H) as [? Hd']. split; [done|]. intros _. apply Hd'. congruence.
  - done.
  - intros H. specialize (ok_master0 H). congruence.
  - intros pre req E Hc. destruct (ok_watched0 _ _ E Hc) as [| |k1 k2 off d rest' P1 P2 P3 P4 P5 P6| |];
      try congruence.
    apply (resynced _ _ _ _ k1 k2 off d); try done.
    rewrite Hfd in P2. injection P2 as <-. rewrite app_nil_r in P3.
    by rewrite F7, P3, P6, <-!app_assoc.
Qed.

Lemma chunk_ok w v id c k rest :
  client_ok w v id c -> repl_state c = kSendBulk -> repl_snapshot_fd c = Some rest ->
  client_ok w v id (c <| out := out c ++ take k rest |> <| repl_snapshot_fd := Some (drop k rest) |>).
Proof.
  intros [] Hs Hfd.
  split; cbn [update repl_state blocked repl_held repl_snapshot_fd is_master closing]; auto.
  - congruence.
  - intros pre req E Hc. destruct (ok_watched0 _ _ E Hc) as [| |k1 k2 off d rest' P1 P2 P3 P4 P5 P6| |];
      try congruence.
    eapply (sends_snapshot _ _ _ _ k1 k2 off d); try done. unfold total in *. cbn [update out sent].
    rewrite Hfd in P2. injection P2 as <-. rewrite <-P3, <-!app_assoc.
    by rewrite take_drop.
Qed.

Lemma refill_ok w v id c r now :
  client_ok w v id c -> is_Some (repl_snapshot_fd c) ->
  client_ok w v id (refill_snapshot r now c).2.
Proof.
  intros Hok [rest Hfd]. unfold refill_snapshot. rewrite Hfd.
  assert (Hs : repl_state c = kSendBulk) by (destruct (ok_bulk _ _ _ _ Hok); congruence).
  destruct (_ <=? _); [done|].
  destruct r as [k| |]; [|by destruct rest|].
  - destruct rest as [|x rest]; [by apply snapshot_sent_ok|by apply chunk_ok].
  - assert (client_ok w v id (c <| closing := true |>)); [|by destruct rest].
    by apply (client_ok_mild w v v id c).
Qed.

Lemma mild_trans c1 c2 c3 : mild c1 c2 -> mild c2 c3 -> mild c1 c3.
Proof.
  intros A B. pose proof (mild_closing _ _ B).
  destruct A as [A1 A2 A3 A8 A4 A5 A6 A7], B as [B1 B2 B3 B8 B4 B5 B6 B7].
  split; try congruence; [auto|]. intros Hc Hs. rewrite B7, A7; [done|auto..|done|congruence].
Qed.

Lemma mild_interest enabled epoll_ok c : mild c (set_write_interest enabled epoll_ok c).
Proof. unfold set_write_interest. repeat case_match; by split. Qed.

Lemma mild_sent took c :
  mild c (c <| sent := sent c ++ take took (out c) |> <| out := drop took (out c) |>).
Proof.
  split; try done. intros _ _. unfold total. cbn [update sent out].
  by rewrite <-app_assoc, take_drop.
Qed.

Lemma mild_send_error took c :
  mild c (c <| sent := sent c ++ take took (out c) |> <| closing := true |>).
Proof. by split. Qed.

(** [flush] is a refill followed by mild changes. *)
Lemma flush_mild r took send_error epoll_ok now c :
  exists c1, mild c1 (flush r took send_error epoll_ok now c) /\
    (c1 = c \/ (is_Some (repl_snapshot_fd c) /\ c1 = (refill_snapshot r now c).2)).
Proof.
  assert (Hrest : forall b c1, exists c2, c2 = c1 /\ mild c2
    (if negb b then c1 else
     if send_error && (took <? length (out c1))%nat
     then c1 <| sent := sent c1 ++ take took (out c1) |> <| closing := true |>
     else
       let c := c1 <| sent := sent c1 ++ take took (out c1) |> <| out := drop took (out c1) |> in
       if beq (out c) [] && negb (bool_decide (repl_state c = kSendBulk)) then
         let c := set_write_interest false epoll_ok c in
         if close_after_flush c then c <| closing := true |> else c
       else if bool_decide (repl_state c = kNone) && (kMaxOutputBufferBytes <? zlen (out c)) then
         c <| closing := true |>
       else set_write_interest true epoll_ok c)).
  { intros b c1. exists c1. split; [done|]. destruct b; cbn [negb]; [|apply mild_refl].
    case_match; [apply mild_send_error|]. cbv zeta.
    eapply mild_trans; [apply (mild_sent took)|]. set (c2 := update out _ _). clearbody c2.
    case_match; [|case_match; [apply mild_close|apply mild_interest]].
    case_match; [|apply mild_interest].
    eapply mild_trans; [apply mild_interest|apply mild_close]. }
  unfold flush. destruct (repl_snapshot_fd c) eqn:Hfd.
  - destruct (refill_snapshot r now c) as [b c1] eqn:Hr.
    destruct (Hrest b c1) as (? & -> & H). eauto.
  - destruct (Hrest true c) as (? & -> & H). eauto.
Qed.

Lemma refill_master r now c : is_master (refill_snapshot r now c).2 = is_master c.
Proof. unfold refill_snapshot. repeat case_match; done. Qed.

Lemma flush_ok w v id c r took send_error epoll_ok now :
  client_ok w v id c -> client_ok w v id (flush r took send_error epoll_ok now c).
Proof.
  intros Hok. destruct (flush_mild r took send_error epoll_ok now c) as (c1 & Hm & Hc1).
  apply (client_ok_mild w v v id c1); [by split|by split|done|done|].
  destruct Hc1 as [->|[Hfd ->]]; [done|by apply refill_ok].
Qed.

Lemma flush_master r took send_error epoll_ok now c :
  is_master (flush r took send_error epoll_ok now c) = is_master c.
Proof.
  destruct (flush_mild r took send_error epoll_ok now c) as (c1 & Hm & Hc1).
  rewrite (mild_master _ _ Hm). destruct Hc1 as [->|[_ ->]]; [done|apply refill_master].
Qed.

Lemma inv_client_ok w id f (n : node) :
  inv w n -> (forall c, client_ok w (view n) id c -> client_ok w (view n) id (f c)) ->
  (forall c, is_master (f c) = is_master c) -> inv w (on_client id f n).
Proof.
  intros Hi Hf Hm Hw. specialize (Hi Hw). rewrite on_client_each.
  set (v' := view _). assert (Hsl : same_lists (view n) v') by by split.
  assert (Hss : same_stream (view n) v') by by split.
  eapply (good_each w (view n) v'); [done|done|done|done..|apply Hi| |].
  - intros i c E Hok. cbv beta.
    apply (client_ok_mild w (view n) v' i (if decide (i = id) then f c else c));
      [done|done|done|apply mild_refl|]. case_decide; [subst; auto|done].
  - intros i c. cbv beta. by case_decide.
Qed.

Lemma inv_flush w id r took send_error epoll_ok now n :
  inv w n -> inv w (flush_ready id r took send_error epoll_ok now n).
Proof.
  intros Hi. apply inv_client_ok; [done|..]; intros c; case_match; auto using flush_ok, flush_master.
Qed.

Lemma inv_flush_pending w id r took send_error epoll_ok now n :
  inv w n -> inv w (flush_pending id r took send_error epoll_ok now n).
Proof.
  intros Hi. apply inv_client_ok; [done|..]; intros c; case_match; try done; cbv zeta.
  - intros Hok. assert (Hc : client_ok w (view n) id (c <| pending_write := false |>)).
    { by apply (client_ok_mild w (view n) (view n) id c). }
    case_match; auto using flush_ok.
  - case_match; [done|]. by rewrite flush_master.
Qed.

(** ** Waiters *)

Lemma good_waiters_sub w v ws :
  good w v -> NoDup ws -> (forall r, r ∈ ws -> r ∈ v_waiters v) -> good w (v <| v_waiters := ws |>).
Proof.
  intros [] Hnd Hsub. split; cbn [update v_conns v_replicas v_waiters v_ring v_stream v_start v_resume
    v_master v_link v_next]; auto.
  intros id c E. destruct (good_clients0 _ _ E). split; try done; [cbn; auto|].
  intros pre req Ew Hc. eapply (phase_mild v); eauto using mild_refl. by split.
Qed.

Lemma good_park w v id c ws :
  good w v -> v_conns v !! id = Some c -> runs c -> ws ≡ₚ id :: v_waiters v ->
  good w (v <| v_conns := each (fun i c => if decide (i = id) then c <| blocked := true |>
                                 <| disturbed := disturbed c || negb (bool_decide (repl_state c = kNone)) |> else c)
                            (v_conns v) |> <| v_waiters := ws |>).
Proof.
  intros Hg E [Hb Hcl] Hws. pose proof (good_clients _ _ Hg _ _ E) as Hok.
  assert (Hsome : forall g r, is_Some (each g (v_conns v) !! r) <-> is_Some (v_conns v !! r)).
  { intros g r. rewrite lookup_each. apply fmap_is_Some. }
  assert (Hnw : id ∉ v_waiters v) by (intros H; destruct (ok_waiter _ _ _ _ Hok H); congruence).
  assert (Hin : forall r, r ∈ ws <-> r = id \/ r ∈ v_waiters v).
  { intros r. rewrite Hws. apply elem_of_cons. }
  destruct Hg. split; cbn [update v_conns v_replicas v_waiters v_ring v_stream v_start v_resume
    v_master v_link v_next]; try done.
  - intros r. rewrite Hsome. auto.
  - rewrite Hws. by apply list.NoDup_cons.
  - intros r. rewrite Hsome, Hin. intros [->|?]; [by rewrite E|auto].
  - intros r. rewrite Hsome. auto.
  - intros m Hv. destruct (good_master0 _ Hv) as (cm & Em & Hcm).
    rewrite lookup_each, Em. simpl. eexists. split; [done|]. by case_decide.
  - intros i ci. rewrite lookup_each. intros (c0 & E0 & ->)%fmap_Some.
    destruct (good_clients0 _ _ E0). case_decide as Hi; [subst i|].
    + split; cbn [update blocked repl_state repl_held repl_snapshot_fd is_master closing disturbed]; try done.
      * intros _. split; [done|]. intros Hs. by rewrite bool_decide_eq_false_2, orb_true_r.
      * intros Hs. by rewrite (bool_decide_eq_true_2 _ Hs), orb_false_r, ok_quiet0.
      * intros pre req Ew. unfold lost, doomed. cbn [update closing close_after_flush disturbed].
        intros [Hd [Hq Hs]%orb_false_iff]%orb_false_iff. apply negb_false_iff, bool_decide_eq_true in Hs.
        destruct (phase_not_none _ _ _ _ (ok_watched0 _ _ Ew ltac:(unfold lost; by rewrite Hq, orb_false_r))).
        done.
    + split; try done; [cbn; rewrite Hin; intuition congruence|].
      intros pre req Ew Hc. eapply (phase_mild v); eauto using mild_refl. by split.
Qed.

Lemma inv_wait w id c numreplicas timeout_ms now n :
  inv w n -> conns_ n !! id = Some c -> runs c ->
  inv w (wait_command id numreplicas timeout_ms now n).
Proof.
  intros Hi E Ho. unfold wait_command, wait. rewrite E.
  set (b := bool_decide (repl_state c = kNone) && negb (is_master c)).
  assert (Hreply : forall s, inv w (if b then on_client id (fun c => c <| out := out c ++ s |>) n else n)).
  { intros s. destruct b eqn:Hb; [|done]. apply inv_reply; [done|]. intros c' E' _.
    assert (c' = c) as -> by congruence. by apply andb_true_iff in Hb as [?%bool_decide_eq_true _]. }
  destruct (is_replica n); [apply Hreply|]. cbv zeta. destruct (_ <=? _); [apply Hreply|]. cbv iota beta.
  set (n' := update get_ack_pending_ _ _). assert (Hn : inv w n').
  2: { destruct b; [|done]. apply inv_client; [done|intros c' _ _; by split; rewrite ?app_nil_r|done]. }
  intros Hw. specialize (Hi Hw). unfold n'. rewrite on_client_each.
  apply (good_park w (view n) id c); [done..|]. cbn. rewrite map_app, <-app_assoc. simpl.
  symmetry. apply Permutation_middle.
Qed.


(** ** Commands *)

Lemma inv_execute w writes d n : inv w n -> inv w (execute writes d n).
Proof. intros Hi. by apply inv_propagates. Qed.

(** An error that ends the connection may go anywhere. *)
Lemma inv_refuse w id s n :
  inv w n -> inv w (on_client id (fun c => c <| out := out c ++ s |> <| close_after_flush := true |>) n).
Proof.
  intros Hi. apply inv_client; [done| |done]. intros c _ _.
  split; try done; by unfold lost, doomed; cbn [update closing close_after_flush]; rewrite orb_true_r.
Qed.

Lemma inv_ack w id off now n : inv w n -> inv w (replconf_ack id off now n).
Proof.
  intros H. unfold replconf_ack.
  apply inv_client; [done|intros c _ _|intros c]; case_match; try done; by split.
Qed.

Lemma inv_send_ack w n : inv w n -> inv w (send_ack n).
Proof.
  intros H. unfold send_ack. destruct (master_ (link n)) as [m|] eqn:Hm; [|done].
  apply inv_client; [done| |done]. intros c E Hg. destruct (good_master _ _ Hg _ Hm) as (c' & E' & Hc').
  assert (c' = c) as -> by (cbn in E'; congruence). split; try done. intros _ [].
  by apply (ok_master _ _ _ _ (good_clients _ _ Hg _ _ E)).
Qed.

Lemma inv_getack w n : inv w n -> inv w (replconf_getack n).
Proof. intros H. unfold replconf_getack. case_match; [|done]. by apply inv_send_ack. Qed.

(** ** The link and its master *)

Lemma good_link w v mo s :
  good w v ->
  (forall m, mo = Some m -> exists c, v_conns v !! m = Some c /\ is_master c = true) ->
  (s = kConnected <-> is_Some mo) ->
  good w (v <| v_master := mo |> <| v_link := s |>).
Proof.
  intros [] Hmo Hs. split; cbn [update v_conns v_replicas v_waiters v_ring v_stream v_start v_resume
    v_master v_link v_next]; auto.
  intros id c E. destruct (good_clients0 _ _ E). split; try done.
  intros pre req Ew Hc. eapply (phase_mild v); eauto using mild_refl. by split.
Qed.

Lemma inv_unlink w f n :
  inv w n -> (forall l, master_ (f l) = master_ l) -> (forall l, link_state_ (f l) <> kConnected) ->
  inv w (on_link f (close_link n)).
Proof.
  intros Hi Hm Hs Hw. unfold close_link in *.
  set (n1 := match master_ (link n) with Some m => close_client m n | None => n end) in *.
  assert (H1 : inv w n1) by (unfold n1; case_match; [by apply inv_close_client|done]).
  assert (Hw1 : wrapped n1 = false) by done.
  pose proof (good_link w (view n1) None (link_state_ (link (on_link f (close_link n)))) (H1 Hw1)) as H.
  unfold view in *. cbn in *. rewrite Hm. simpl. apply H; [done|].
  split; [intros E; by apply Hs in E|intros [? [=]]].
Qed.

Lemma inv_abort_link w now n : inv w n -> inv w (abort_link now n).
Proof.
  intros H. unfold abort_link. apply inv_unlink; [done|done|]. intros l. simpl. by case_match.
Qed.

(** A change of the link's state that neither gains nor loses a master. *)
Lemma inv_link_state w f n :
  inv w n -> link_state_ (link n) <> kConnected -> master_ (f (link n)) = master_ (link n) ->
  link_state_ (f (link n)) <> kConnected -> inv w (on_link f n).
Proof.
  intros Hi Hs Hm Hs' Hw. specialize (Hi Hw).
  assert (Hnone : master_ (link n) = None).
  { destruct (master_ (link n)) as [m|] eqn:E; [|done]. destruct Hs.
    apply (good_connected _ _ Hi). cbn. rewrite E. eauto. }
  pose proof (good_link w (view n) None (link_state_ (f (link n))) Hi) as H.
  unfold view in *. cbn in *. rewrite Hm, Hnone. apply H; [done|].
  split; [done|intros [? [=]]].
Qed.

(** ** A new history: allowed once every replica is being closed *)

Definition all_closing (n : node) : Prop :=
  forall r c, r ∈ replicas_ n -> conns_ n !! r = Some c -> closing c = true.

Lemma client_ok_closing w v v' id c :
  same_lists v v' -> (repl_state c <> kNone -> closing c = true) ->
  client_ok w v id c -> client_ok w v' id c.
Proof.
  intros [E1 E2 E3] Hcl []. split; rewrite ?E1, ?E2, ?E3; try done.
  intros pre req E Hc. pose proof (lost_closing _ Hc) as Ho. rewrite Hcl in Ho; [done|].
  by eapply phase_not_none, ok_watched0.
Qed.

Lemma good_new_history w v v' :
  good w v ->
  (forall r c, r ∈ v_replicas v -> v_conns v !! r = Some c -> closing c = true) ->
  same_lists v v' -> v_conns v' = v_conns v -> v_resume v' = v_resume v ->
  v_master v' = v_master v -> v_link v' = v_link v ->
  Backlog.repr (v_ring v') (v_start v') (v_stream v') -> good w v'.
Proof.
  intros Hg Hcl Hsl Hc Hr Hm Hl Hring.
  eapply (good_each w v v' (fun _ c => c)); try done.
  - rewrite Hc. apply map_eq. intros i. rewrite lookup_each. by destruct (_ !! i).
  - intros id c E Hok. apply (client_ok_closing w v); [done| |done].
    intros Hs. eapply Hcl; [|done]. by apply (ok_replica _ _ _ _ Hok).
Qed.

Lemma disconnect_all_closing w n :
  good w (view n) -> all_closing (disconnect_replicas n).
Proof.
  intros Hg r c. unfold disconnect_replicas. rewrite on_replicas_each by apply Hg. simpl.
  intros Hr. rewrite lookup_each. intros (c0 & _ & ->)%fmap_Some. by rewrite decide_True.
Qed.

(** Renaming the history while disconnecting its followers. *)
Lemma inv_rename w n n' :
  inv w n -> wrapped n' = wrapped n -> view n' = view n <| v_replid := replid_ n' |> ->
  inv w (disconnect_replicas n').
Proof.
  intros Hi Hwr Hv Hw. unfold disconnect_replicas in *. rewrite on_replicas_wrapped, Hwr in Hw.
  specialize (Hi Hw).
  assert (Hrs : replicas_ n' = replicas_ n) by apply (f_equal v_replicas Hv).
  rewrite on_replicas_each by (rewrite Hrs; apply Hi). set (v' := view _).
  assert (Hv' : v' = view n' <| v_conns := v_conns v' |>) by done. rewrite Hv in Hv'.
  assert (Hc : v_conns v' = each (fun i c => if decide (i ∈ replicas_ n) then c <| closing := true |>
                                             else c) (conns_ n)).
  { unfold v'. cbn [view v_conns update conns_]. rewrite Hrs. f_equal. apply (f_equal v_conns Hv). }
  clearbody v'.
  assert (Hsl : same_lists (view n) v') by (rewrite Hv'; by split).
  apply (good_each w (view n) v' _ Hi Hc Hsl); try (by rewrite Hv').
  - rewrite Hv'. apply Hi.
  - intros id c E Hok. cbv beta. apply (client_ok_closing w (view n)); [done| |].
    + case_decide as Hr; [done|]. intros Hs. by apply (ok_replica _ _ _ _ Hok) in Hs.
    + case_decide; [|done]. by apply (client_ok_mild w (view n) (view n) id c).
  - intros id c. cbv beta. by case_decide.
Qed.

Lemma inv_child w k n : inv w n -> child_ n = no_child -> inv w (n <| child_ := k |>).
Proof.
  intros Hi Hch Hw. specialize (Hi Hw). set (v' := view _).
  apply (good_each w (view n) v' (fun _ c => c)); try done.
  - cbn. apply map_eq. intros i. rewrite lookup_each. by destruct (_ !! i).
  - apply Hi.
  - intros id c E []. split; try done. intros pre req Ew Hc. specialize (ok_watched0 _ _ Ew Hc) as Hp.
    apply (phase_mild (view n) v' pre req c c); [done| |apply mild_refl|done|done].
    intros Hs. destruct Hp; cbn in *; congruence.
Qed.

(** ** Connections come and go *)

Lemma good_insert w v c :
  good w v -> v_next v + 1 < 2 ^ 64 -> repl_state c = kNone -> repl_held c = [] ->
  repl_snapshot_fd c = None -> disturbed c = false ->
  good w (v <| v_conns := <[v_next v := c]> (v_conns v) |> <| v_next := v_next v + 1 |>).
Proof.
  intros Hg Hlt Hs Hh Hfd Hq. pose proof (good_clients _ _ Hg) as Hcl.
  assert (Hfresh : v_conns v !! v_next v = None).
  { destruct (v_conns v !! v_next v) eqn:E; [|done]. destruct (Hcl _ _ E). lia. }
  assert (Hold : forall r, is_Some (v_conns v !! r) -> r <> v_next v /\
    is_Some ((<[v_next v := c]> (v_conns v)) !! r)).
  { intros r [cr E]. assert (r <> v_next v) by congruence. by rewrite lookup_insert_ne. }
  destruct Hg. split; cbn [update v_conns v_replicas v_waiters v_ring v_stream v_start v_resume
    v_master v_link v_next]; try done.
  1-3: intros r Hr; apply Hold; auto.
  - intros m Hm. destruct (good_master0 _ Hm) as (cm & E & ?). exists cm.
    rewrite lookup_insert_ne; [done|]. congruence.
  - lia.
  - intros i pre req Ew. specialize (good_watched0 _ _ _ Ew). lia.
  - intros i ci. destruct (decide (i = v_next v)) as [->|Hne].
    + rewrite lookup_insert_eq. intros [= <-].
      split; cbn [v_next v_replicas v_waiters]; try done; [lia|..|by right|].
      * split; [|done]. intros Hr. by destruct (Hold _ (good_replicas0 _ Hr)).
      * intros Hr. by destruct (Hold _ (good_waiters0 _ Hr)).
      * intros pre req Ew. specialize (good_watched0 _ _ _ Ew). lia.
    + rewrite lookup_insert_ne by done. intros E. destruct (good_clients0 _ _ E).
      split; cbn [v_next v_replicas v_waiters]; try done; [lia|].
      intros pre req Ew Hc. eapply (phase_mild v); eauto using mild_refl. by split.
Qed.

Lemma good_remove w v id rs ws us mo s :
  good w v -> NoDup rs -> NoDup ws ->
  (forall r, r ∈ rs <-> r <> id /\ r ∈ v_replicas v) ->
  (forall r, r ∈ ws <-> r <> id /\ r ∈ v_waiters v) ->
  (forall r, r ∈ us -> r <> id /\ r ∈ v_resume v) ->
  mo = (if decide (v_master v = Some id) then None else v_master v) ->
  s = (if decide (v_master v = Some id) then kConnect else v_link v) ->
  good w (mkView (v_replid v) (v_ring v) rs ws us mo s (delete id (v_conns v)) (v_next v)
            (v_child v) (v_stream v) (v_start v) (v_forks v)).
Proof.
  intros [] Hnr Hnw Hrs Hws Hus -> ->.
  assert (Hdel : forall r, r <> id -> delete id (v_conns v) !! r = v_conns v !! r)
    by (intros; by apply lookup_delete_ne).
  split; cbn [v_conns v_replicas v_waiters v_ring v_stream v_start v_resume
    v_master v_link v_next]; try done.
  - intros r [Hne Hr]%Hrs. rewrite Hdel; auto.
  - intros r [Hne Hr]%Hws. rewrite Hdel; auto.
  - intros r Hr. destruct (Hus _ Hr). rewrite Hdel; auto.
  - intros m Hm. case_decide; [done|]. rewrite Hdel by congruence. auto.
  - case_decide; [|done]. split; [done|intros [? [=]]].
  - intros i ci [Hne E]%lookup_delete_Some. destruct (good_clients0 _ _ E).
    split; cbn [v_next v_replicas v_waiters]; try done.
    + rewrite Hrs, <-ok_replica0. intuition congruence.
    + intros [_ H]%Hws. auto.
    + intros pre req Ew Hc. eapply (phase_mild v); eauto using mild_refl. by split.
Qed.

Lemma good_unblock w v id f ws us :
  good w v -> v_waiters v ≡ₚ id :: ws ->
  (forall r, r ∈ us -> r = id \/ r ∈ v_resume v) ->
  good w (v <| v_conns := each (fun i c => if decide (i = id)
                                           then c <| out := f c |> <| blocked := false |> else c)
                            (v_conns v) |> <| v_waiters := ws |> <| v_resume := us |>).
Proof.
  intros Hg Hws Hus.
  assert (Hsome : forall g r, is_Some (each g (v_conns v) !! r) <-> is_Some (v_conns v !! r)).
  { intros g r. rewrite lookup_each. apply fmap_is_Some. }
  assert (Hin : forall r, r ∈ v_waiters v <-> r = id \/ r ∈ ws).
  { intros r. rewrite Hws. apply elem_of_cons. }
  assert (Hnd : (id ∉ ws) /\ NoDup ws).
  { pose proof (good_waiters_nodup _ _ Hg) as H. rewrite Hws in H. by apply list.NoDup_cons in H. }
  destruct Hnd as [Hid Hnd].
  destruct Hg. split; cbn [update v_conns v_replicas v_waiters v_ring v_stream v_start v_resume
    v_master v_link v_next]; try done.
  - intros r. rewrite Hsome. auto.
  - intros r Hr. rewrite Hsome. apply good_waiters0, Hin. auto.
  - intros r Hr. rewrite Hsome. destruct (Hus _ Hr) as [->|?]; [|auto].
    apply good_waiters0, Hin. auto.
  - intros m Hv. destruct (good_master0 _ Hv) as (cm & Em & Hcm).
    rewrite lookup_each, Em. simpl. eexists. split; [done|]. by case_decide.
  - intros i ci. rewrite lookup_each. intros (c0 & E0 & ->)%fmap_Some.
    destruct (good_clients0 _ _ E0). case_decide as Hi; [subst i|].
    + destruct ok_waiter0 as [_ Hd]; [apply Hin; auto|].
      split; cbn [update blocked repl_state repl_held repl_snapshot_fd is_master closing disturbed]; try done.
      intros pre req Ew Hc. assert (Hl : lost c0 = false) by exact Hc.
      pose proof (phase_not_none _ _ _ _ (ok_watched0 _ _ Ew Hl)) as Hs%Hd.
      unfold lost in Hl. by rewrite Hs, orb_true_r in Hl.
    + split; try done; [cbn; intros ?; apply ok_waiter0, Hin; auto|].
      intros pre req Ew Hc. eapply (phase_mild v); eauto using mild_refl. by split.
Qed.

End invariant.

(** ** Every step keeps the invariant *)

Section steps.
Context {DS : Type} (dump : DS -> bytes) `{host : !ClientHost DS} (w : option (Z * bytes * Z)).
Abbreviation node := (Node DS).
Abbreviation ok := (fun p => inv dump p w).

(** Setting a field the invariant does not speak of. *)
Ltac drop_field :=
  lazymatch goal with
  | |- inv ?d ?p ?w (update _ _ ?n) =>
      let H := fresh in cut (inv d p w n); [generalize n; intros ? H; exact H|]
  end.

Lemma on_link_started f b (n : node) :
  on_link f (n <| stream_started_ := b |>) = on_link f n <| stream_started_ := b |>.
Proof. done. Qed.

Lemma ok_unblock p id f us (n : node) :
  ok (id :: p) n -> (forall r, r ∈ us -> r = id \/ r ∈ to_resume_ n) ->
  ok p (on_client id (fun c => c <| out := f c |> <| blocked := false |>) n <| to_resume_ := us |>).
Proof.
  intros Hi Hus Hw. specialize (Hi Hw). rewrite on_client_each.
  apply (good_unblock dump w (view (id :: p) n)); [done| |done]. cbn.
  symmetry. apply Permutation_middle.
Qed.

Lemma ok_release p ws : forall n : node,
  ok (map w_client ws ++ p) n ->
  ok p (foldl (fun n x =>
    let n := on_client (w_client x) (fun c =>
               c <| out := Reply.error (out c) kUnblocked |> <| blocked := false |>) n in
    n <| to_resume_ := to_resume_ n ++ [w_client x] |>) n ws).
Proof.
  induction ws as [|x ws IH]; intros n Hn; [done|]. simpl. apply IH.
  apply (ok_unblock _ (w_client x) (fun c => Reply.error (out c) kUnblocked)); [done|].
  intros r. cbn. rewrite elem_of_app, list_elem_of_singleton. tauto.
Qed.

Lemma ok_release_all p (n : node) :
  ok p n ->
  ok p (let ws := waiters_ n in
    foldl (fun n x =>
      let n := on_client (w_client x) (fun c =>
                 c <| out := Reply.error (out c) kUnblocked |> <| blocked := false |>) n in
      n <| to_resume_ := to_resume_ n ++ [w_client x] |>) (n <| waiters_ := [] |>) ws).
Proof. intros H. apply ok_release. exact H. Qed.

Lemma ok_relink p f b (n : node) :
  ok p n -> (forall l, master_ (f l) = master_ l) -> (forall l, link_state_ (f l) <> kConnected) ->
  ok p (disconnect_replicas
    (on_link f (close_link n <| stream_started_ := true |>) <| passive_expiry_ := b |>)).
Proof.
  intros Hi H1 H2. apply inv_disconnect. drop_field. rewrite (on_link_started f). drop_field.
  by apply inv_unlink.
Qed.

Lemma ok_replicaof p h port now (n : node) : ok p n -> ok p (replicaof h port now n).
Proof.
  intros Hi. unfold replicaof. case_match; [done|]. apply ok_release_all. by apply ok_relink.
Qed.

Lemma view_shift p fresh (n : node) :
  view p (shift_replid fresh n) = view p n <| v_replid := fresh |>.
Proof.
  unfold shift_replid. set (n1 := n <| replid2_ := replid_ n |>).
  assert (H1 : view p n1 = view p n) by done. set (o := offset n). rewrite <-H1. clearbody n1 o.
  set (n2 := n1 <| second_replid_offset_ := Some o |>).
  assert (H2 : view p n2 = view p n1) by done. rewrite <-H2. clearbody n2. done.
Qed.

Lemma ok_shift p fresh b (n : node) :
  ok p n -> ok p (disconnect_replicas (shift_replid fresh n <| passive_expiry_ := b |>)).
Proof.
  intros Hi. apply (inv_rename dump p w n); [done..|].
  pose proof (view_shift p fresh n) as E. set (n1 := shift_replid fresh n) in *.
  assert (Hr : replid_ n1 = fresh) by apply (f_equal v_replid E). clearbody n1.
  change (view p n1 = view p n <| v_replid := replid_ n1 |>). by rewrite Hr.
Qed.

Lemma ok_no_one p fresh (n : node) : ok p n -> ok p (replicaof_no_one fresh n).
Proof.
  intros Hi. unfold replicaof_no_one. case_match; [done|]. apply ok_shift. by apply inv_unlink.
Qed.

Lemma ok_command p id (n n' : node) : command_step id n n' -> ok p n -> ok p n'.
Proof.
  destruct 1 as [n writes d|n c s E Hs|n off|n s|n c replid off now fork_ok E Hr
    |n c num tmo now E Ho|n port|n off now _|n|n raw|n h port now|n fresh|n
    |n rest|n argv|n ids|n|n k Hch Hk|n b|n b|n b]; intros Hi.
  - by apply inv_execute.
  - apply inv_reply; [done|]. intros c' E' _. congruence.
  - apply inv_client; [done| |done]. by split.
  - by apply inv_refuse.
  - by eapply inv_psync.
  - by eapply inv_wait.
  - apply inv_client; [done| |done]. by split.
  - by apply inv_ack.
  - by apply inv_getack.
  - by apply inv_feed.
  - by apply ok_replicaof.
  - by apply ok_no_one.
  - by apply inv_close_client.
  - apply inv_client; [done| |done]. by split.
  - apply inv_client; [done| |done]. by split.
  - exact Hi.
  - apply inv_client; [done| |done]. by split.
  - by apply inv_child.
  - unfold set_writes_paused. case_match; [done|]. exact Hi.
  - exact Hi.
  - exact Hi.
Qed.

Lemma ok_buffered p id (n : node) : ok p n -> ok p (process_buffered id n).
Proof.
  intros Hi. pose proof (process_buffered_steps id n) as Hs. revert Hi.
  induction Hs as [|n1 n2 n3 H12 _ IH]; [done|]. intros Hi. by eapply IH, ok_command.
Qed.

Lemma ok_resume p done : forall n : node,
  ok (map fst done ++ p) n ->
  ok p (foldl (fun n '(id, acked) =>
    process_buffered id (on_client id (fun c =>
      c <| out := Reply.integer (out c) acked |> <| blocked := false |>) n)) n done).
Proof.
  induction done as [|[id acked] done IH]; intros n Hn; [exact Hn|]. simpl. apply IH, ok_buffered.
  pose proof (ok_unblock (map fst done ++ p) id (fun c => Reply.integer (out c) acked)
    (to_resume_ n) n Hn ltac:(auto)) as H. exact H.
Qed.

Lemma filter_split_perm {A} (f : A -> bool) l :
  l ≡ₚ List.filter (fun x => negb (f x)) l ++ List.filter f l.
Proof.
  induction l as [|x l IH]; [done|]. simpl. destruct (f x); simpl.
  - rewrite <-Permutation_middle. by constructor.
  - by constructor.
Qed.

Lemma ok_unblock_waiters p t (n : node) : ok p n -> ok p (unblock_waiters t n).
Proof.
  intros Hi. unfold unblock_waiters. cbv zeta. apply ok_resume.
  intros Hw. specialize (Hi Hw). rewrite map_map. cbn [fst].
  set (f := waiter_done t n). set (l := waiters_ n).
  assert (Hp : map w_client (List.filter (fun x => negb (f x)) l) ++ map w_client (List.filter f l) ++ p
               ≡ₚ map w_client l ++ p).
  { by rewrite app_assoc, <-map_app, <-filter_split_perm. }
  apply (good_waiters_sub dump w (view p n)); [done| |].
  - rewrite Hp. apply Hi.
  - intros r. by rewrite Hp.
Qed.

(** *** The replica's side *)

(** A change of the link that keeps its state and master. *)
Lemma ok_link_fields p f (n : node) :
  (forall l, master_ (f l) = master_ l) -> (forall l, link_state_ (f l) = link_state_ l) ->
  ok p n -> ok p (on_link f n).
Proof.
  intros Hm Hs Hi Hw. specialize (Hi Hw). unfold view in *. cbn in *. by rewrite Hm, Hs.
Qed.

Lemma ok_insert p c (n : node) :
  ok p n -> repl_state c = kNone -> repl_held c = [] -> repl_snapshot_fd c = None -> disturbed c = false ->
  ok p (n <| next_client_id_ := u64 (next_client_id_ n + 1) |>
          <| conns_ := <[next_client_id_ n := c]> (conns_ n) |>
          <| wrapped := wrapped n || (2 ^ 64 <=? next_client_id_ n + 1) |>).
Proof.
  intros Hi Hs Hh Hfd Hq [Hw Hlt]%orb_false_iff. specialize (Hi Hw).
  pose proof (good_next _ _ _ Hi) as Hn. unfold view in *. cbn in *.
  rewrite u64_small by lia. by apply (good_insert dump w (view p n)); [|cbn; lia|..].
Qed.

Lemma ok_adopt_link p io (n : node) : ok p n -> ok p (adopt_link io n).
Proof.
  intros Hi. unfold adopt_link, adopt_master. set (pending := link_buf_ (link n)).
  set (n1 := on_link _ n). assert (H1 : ok p n1) by by apply ok_link_fields. clearbody n1.
  cbv zeta beta iota. set (m := next_client_id_ n1).
  set (c := update closing _ _). set (n2 := update wrapped _ _).
  assert (H2 : ok p n2) by by apply (ok_insert p c n1).
  assert (Hm : conns_ n2 !! m = Some c) by apply lookup_insert_eq.
  assert (Hc : is_master c = true) by done. clearbody n2 m c.
  apply ok_buffered, inv_send_ack. apply inv_client; [|by split|done]. drop_field.
  intros Hw. specialize (H2 Hw). pose proof (good_link dump w (view p n2) (Some m) kConnected H2) as H.
  apply H; [|by split; [eauto|done]]. intros m' [= <-]. eauto.
Qed.

Lemma ok_kill_child p (n : node) : ok p n -> ok p (kill_child n).
Proof.
  intros Hi. unfold kill_child. destruct (child_ n) as [|d|] eqn:Hch; [done| |].
  - by eapply inv_snapshot_finished.
  - intros Hw. specialize (Hi Hw). set (v' := view _ _).
    apply (good_each dump w (view p n) v' (fun _ c => c)); try done.
    + cbn. apply map_eq. intros i. rewrite lookup_each. by destruct (_ !! i).
    + apply Hi.
    + intros id c E []. split; try done. intros pre req Ew Hc. pose proof (ok_watched0 _ _ Ew Hc) as Hp.
      apply (phase_mild dump (view p n) v' pre req c c); [done| |apply mild_refl|done|done].
      intros Hs. destruct Hp; cbn in *; congruence.
Qed.

Lemma kill_child_all_closing p (n : node) :
  good dump w (view p n) -> all_closing n -> all_closing (kill_child n) /\ wrapped (kill_child n) = wrapped n.
Proof.
  intros Hg Hcl. unfold kill_child. destruct (child_ n) as [|d|]; [done| |done].
  unfold snapshot_finished.
  rewrite (on_clients_wrapped _ (fun r c => if _ || closing c then c else _)). split; [|done].
  rewrite (on_clients_each _ (fun r c => if _ || closing c then c else _)) by apply Hg.
  intros r c Hr. cbn. rewrite lookup_each. intros (c0 & E & ->)%fmap_Some. simpl in Hr.
  rewrite decide_True by done. specialize (Hcl r c0 Hr E). by rewrite Hcl, orb_true_r.
Qed.

Lemma ok_replace p file io (n : node) :
  ok p n -> (wrapped n = false -> all_closing n) ->
  let n' := (replace_dataset file io n).2 in
  ok p n' /\ (wrapped n' = false -> all_closing n').
Proof.
  intros Hi Hcl. unfold replace_dataset. destruct (io_replace io file) as [b d]. cbn [snd].
  pose proof (ok_kill_child p n Hi) as Hk. split; [drop_field; done|]. cbn [update wrapped].
  intros Hw. assert (Hw0 : wrapped n = false).
  { revert Hw. unfold kill_child. destruct (child_ n); try done. unfold snapshot_finished.
    by rewrite (on_clients_wrapped _ (fun r c => if _ || closing c then c else _)). }
  specialize (Hi Hw0). by apply (kill_child_all_closing p n Hi (Hcl Hw0)).
Qed.

(** Taking over the history announced by the master. *)
Lemma ok_new_history p (n : node) off :
  ok p n -> (wrapped n = false -> all_closing n) -> 0 <= off < 2 ^ 64 ->
  ok p (n <| replid_ := transfer_replid_ (link n) |>
          <| replid2_ := replicate kReplIdLength "0"%byte |>
          <| second_replid_offset_ := None |>
          <| backlog_ := Backlog.reset (backlog_ n) off |>
          <| stream := [] |> <| stream_start := off |>).
Proof.
  intros Hi Hcl Ho Hw. specialize (Hi Hw). specialize (Hcl Hw).
  eapply (good_new_history dump w (view p n)); try done.
  cbn. eapply Backlog.reset_repr; [apply Hi|done].
Qed.

Lemma ok_finish_transfer p io (n : node) : ok p n -> ok p (finish_transfer io n).
Proof.
  intros Hi. unfold finish_transfer. set (file := default [] _). cbv zeta.
  set (n1 := on_link _ n). assert (H1 : ok p n1) by by apply ok_link_fields. clearbody n1.
  destruct (io_fsync io); cbn [negb]; [|by apply inv_abort_link].
  assert (Hcl : wrapped (disconnect_replicas n1) = false -> all_closing (disconnect_replicas n1)).
  { unfold disconnect_replicas at 1. rewrite on_replicas_wrapped. intros Hw.
    apply (disconnect_all_closing dump p w), H1, Hw. }
  destruct (ok_replace p file io _ (inv_disconnect dump p w _ H1) Hcl) as [H2 Hcl2].
  destruct (replace_dataset file io _) as [[] n2]; cbn [snd negb] in *.
  - apply ok_adopt_link. set (n3 := on_link _ n2).
    assert (H3 : ok p n3) by by apply ok_link_fields.
    assert (Hcl3 : wrapped n3 = false -> all_closing n3) by done. clearbody n3.
    apply ok_new_history; [done|done|]. apply Z.mod_pos_bound. lia.
  - by apply inv_abort_link, ok_link_fields.
Qed.

Lemma ok_psync_reply p line io (n : node) :
  ok p n -> link_state_ (link n) = kHandshake -> ok p (handle_psync_reply line io n).
Proof.
  intros Hi Hl. unfold handle_psync_reply. case_match.
  - lazymatch goal with |- context [match ?x with Some _ => _ | None => _ end] =>
      destruct x as [[id off]|] end; [|by apply inv_abort_link]. cbv zeta.
    set (n1 := on_link _ n). assert (H1 : ok p n1) by by apply ok_link_fields.
    assert (Hl1 : link_state_ (link n1) = kHandshake) by done. clearbody n1.
    destruct (io_open io); cbn [negb]; [|by apply inv_abort_link].
    apply inv_link_state; try done. congruence.
  - case_match; [|by apply inv_abort_link]. cbv zeta. apply ok_adopt_link.
    set (id := if (_ <? _)%nat then _ else _). clearbody id.
    case_match; [|done]. by apply (inv_rename dump p w n).
Qed.

Lemma ok_take_line p now (n : node) :
  ok p n -> ok p (take_line now n).2 /\
  ((take_line now n).1 <> None -> link_state_ (link (take_line now n).2) = link_state_ (link n)).
Proof.
  intros Hi. unfold take_line. case_match; [split; [by apply ok_link_fields|done]|].
  case_match; cbn [fst snd]; [split; [by apply ok_link_fields|done]|]. split; [|done].
  case_match; [apply inv_abort_link|]; by apply ok_link_fields.
Qed.

Lemma ok_transfer_body p size io (n : node) : ok p n -> ok p (transfer_body size io n).2.
Proof.
  intros Hi. unfold transfer_body. cbv zeta. case_match; [by apply inv_abort_link|].
  by apply ok_link_fields.
Qed.

Lemma ok_link_loop p io fuel : forall n : node, ok p n -> ok p (process_link_loop fuel io n).
Proof.
  induction fuel as [|fuel IH]; intros n Hi; [done|]. cbn [process_link_loop].
  destruct (link_state_ (link n)) eqn:Hl; try done.
  - pose proof (ok_take_line p (io_now io) n Hi) as [H1 H2].
    destruct (take_line (io_now io) n) as [[line|] n1]; cbn [fst snd] in *; [|done].
    rewrite Hl in H2. specialize (H2 ltac:(done)).
    repeat case_match; [by apply inv_abort_link|apply IH; by apply ok_link_fields|].
    by apply IH, ok_psync_reply.
  - unfold transfer_header. set (r := match transfer_remaining_ (link n) with None => _ | _ => _ end).
    assert (H1 : ok p r.2).
    { unfold r. case_match; [done|]. pose proof (ok_take_line p (io_now io) n Hi) as [H1 _].
      destruct (take_line (io_now io) n) as [[line|] n1]; cbn [fst snd] in *; [|done].
      set (x := if _ && _ then _ else _). destruct x as [size okb].
      destruct okb; cbn [negb snd]; [by apply ok_link_fields|by apply inv_abort_link]. }
    destruct r as [[size|] n1]; cbn [snd] in H1; [|done].
    pose proof (ok_transfer_body p size io n1 H1) as H2.
    destruct (transfer_body size io n1) as [[] n2]; cbn [negb snd] in *; [|done].
    by apply IH, ok_finish_transfer.
Qed.

Lemma ok_read_link p r io (n : node) : ok p n -> ok p (read_link r io n).
Proof.
  intros Hi. unfold read_link. destruct r; [|by apply inv_abort_link|done|by apply inv_abort_link].
  by apply ok_link_loop, ok_link_fields.
Qed.

Lemma ok_link_ready p err took r io (n : node) : ok p n -> ok p (on_link_ready err took r io n).2.
Proof.
  intros Hi. unfold on_link_ready. case_match; [by apply ok_read_link|].
  apply negb_false_iff, bool_decide_eq_true in H.
  destruct err; [by apply inv_abort_link|]. cbv zeta. case_match; [by apply inv_abort_link|].
  apply inv_link_state; try done. congruence.
Qed.

(** *** The event loop's hooks *)

Lemma ok_before_sleep p now (n : node) : ok p n -> ok p (before_sleep now n).
Proof.
  intros Hi. unfold before_sleep. cbv zeta. apply ok_unblock_waiters.
  set (n1 := foldl _ _ _).
  assert (H1 : ok p n1).
  { unfold n1. assert (H0 : ok p (n <| to_resume_ := [] |>)).
    { intros Hw. destruct (Hi Hw). split; try done; [intros r Hr; by apply elem_of_nil in Hr|].
      intros id c E. by apply (client_ok_mild dump w (view p n) _ id c c); auto. }
    revert H0. generalize (n <| to_resume_ := [] |>). generalize (to_resume_ n).
    induction l as [|id l IH]; intros m Hm; [done|]. by apply IH, ok_buffered. }
  clearbody n1. case_match; [|done]. set (n2 := n1 <| get_ack_pending_ := false |>).
  assert (H2 : ok p n2) by exact H1. clearbody n2. case_match; [done|]. by apply inv_propagate.
Qed.

Lemma ok_cron_link p t connected (n : node) : ok p n -> ok p (cron_link t connected n).
Proof.
  intros Hi. unfold cron_link. cbv zeta.
  destruct (link_state_ (link n)) eqn:Hl; try done.
  - case_match; [|done]. unfold connect_to_master. set (n1 := on_link _ n).
    assert (H1 : ok p n1) by by apply ok_link_fields.
    assert (Hl1 : link_state_ (link n1) = kConnect) by done. clearbody n1. cbv zeta.
    case_match; [done|]. apply inv_link_state; try done. congruence.
  - case_match; [by apply inv_abort_link|done].
  - case_match; [by apply inv_abort_link|done].
  - case_match; [by apply inv_abort_link|done].
  - repeat case_match; try done. by apply inv_close_client.
Qed.

Lemma cron_client_ok v id c t limit :
  client_ok dump w v id c -> client_ok dump w v id (cron_client t limit c).
Proof.
  intros Hok. unfold cron_client. destruct (closing c); [done|].
  assert (Hkeep : repl_state c = kWaitBgsaveStart \/ repl_state c = kWaitBgsaveEnd ->
    client_ok dump w v id (c <| out := out c ++ [x0a] |>)).
  { intros Hs. destruct Hok. split; try done. intros pre req Ew Hc.
    destruct (ok_watched0 _ _ Ew Hc) as [k P1 P2 P3 P4|k k' off d P1 P2 P3 P4 P5 P6 P7| | |];
      try (destruct Hs; congruence).
    - apply (waits_for_child _ _ _ _ _ (k + 1)); try done.
      unfold total, newlines in *. cbn [update sent out]. rewrite app_assoc, P2, <-app_assoc.
      by rewrite replicate_add.
    - apply (waits_for_snapshot _ _ _ _ _ k (k' + 1) off d); try done.
      unfold total, preamble, newlines in *. cbn [update sent out].
      by rewrite app_assoc, P2, replicate_add, <-!app_assoc. }
  destruct (repl_state c); auto using client_ok_queue. case_match; [|done].
  by apply (client_ok_mild dump w v v id c).
Qed.

Lemma ok_cron_replicas p t limit (n : node) : ok p n -> ok p (on_replicas (cron_client t limit) n).
Proof.
  intros Hi Hw. rewrite on_replicas_wrapped in Hw. specialize (Hi Hw).
  rewrite on_replicas_each by apply Hi. set (v' := view _ _).
  apply (good_each dump w (view p n) v' _ Hi eq_refl); try done.
  - apply Hi.
  - intros id c E Hok. cbv beta.
    apply (client_ok_mild dump w (view p n) v' id (if decide (id ∈ replicas_ n)
      then cron_client t limit c else c)); try done.
    case_decide; [by apply cron_client_ok|done].
  - intros id c. cbv beta. case_decide; [|done]. unfold cron_client. repeat case_match; done.
Qed.

Lemma ok_cron p t connected fork_ok (n : node) : ok p n -> ok p (cron t connected fork_ok n).
Proof.
  intros Hi. unfold cron. cbv zeta.
  set (n1 := cron_link _ _ _). assert (H1 : ok p n1) by by apply ok_cron_link, ok_unblock_waiters.
  clearbody n1. case_match; [done|]. set (n2 := n1 <| last_second_tick_ := t |>).
  assert (H2 : ok p n2) by exact H1. clearbody n2. set (n3 := match master_ (link n2) with Some _ => _ | None => _ end).
  assert (H3 : ok p n3) by (unfold n3; repeat case_match; try done; by apply inv_send_ack).
  clearbody n3. apply inv_start_snapshot, ok_cron_replicas. case_match; [|done].
  by apply inv_propagate.
Qed.

Lemma ok_child_exits p ok_ opened (n : node) : ok p n -> ok p (child_exits dump ok_ opened n).
Proof.
  intros Hi. unfold child_exits. destruct (child_ n) as [|d|] eqn:Hch; [done| |].
  - by apply (inv_snapshot_finished dump p w ok_ (dump d) opened n d).
  - pose proof (ok_kill_child p n Hi) as H. unfold kill_child in H. by rewrite Hch in H.
Qed.

Lemma client_closed_view id now (n : node) :
  view [] (client_closed id now n)
  = mkView (replid_ n) (backlog_ n) (without id (replicas_ n))
      (map w_client (filter (fun x => w_client x <> id) (waiters_ n)) ++ [])
      (without id (to_resume_ n))
      (if decide (master_ (link n) = Some id) then None else master_ (link n))
      (if decide (master_ (link n) = Some id) then kConnect else link_state_ (link n))
      (alter (fun c => c <| repl_snapshot_fd := None |>) id (conns_ n)) (next_client_id_ n)
      (child_ n) (stream n) (stream_start n) (forks n) /\
  wrapped (client_closed id now n) = wrapped n.
Proof.
  unfold client_closed. destruct n as [? ? ? ? ? ? ? ? ? ? ? ? ? ? ? ? ? l]. cbv zeta.
  change (link (update _ _ _)) with l. cbn [link].
  case_bool_decide; [rewrite !decide_True by done|rewrite !decide_False by done]; done.
Qed.

Lemma waiters_without id (l : list Waiter) :
  let ws := map w_client (filter (fun x => w_client x <> id) l) in
  (forall r, r ∈ ws <-> r <> id /\ r ∈ map w_client l) /\ (NoDup (map w_client l) -> NoDup ws).
Proof.
  intros ws. split.
  - intros r. unfold ws. rewrite !list_elem_of_fmap. setoid_rewrite list_elem_of_filter.
    split; [intros (x & -> & ? & ?); split; [done|by exists x]|].
    intros (? & x & -> & ?). by exists x.
  - unfold ws. clear ws. induction l as [|x l IH]; [done|].
    intros [Hx Hl]%list.NoDup_cons. rewrite filter_cons. case_decide; [|auto]. simpl.
    apply list.NoDup_cons. split; [|auto].
    intros (y & ? & [_ ?]%list_elem_of_filter)%list_elem_of_fmap. apply Hx, list_elem_of_fmap.
    by exists y.
Qed.

Lemma good_reap id (n : node) :
  good dump w (view [] n) ->
  good dump w (mkView (replid_ n) (backlog_ n) (without id (replicas_ n))
    (map w_client (filter (fun x => w_client x <> id) (waiters_ n)) ++ [])
    (without id (to_resume_ n))
    (if decide (master_ (link n) = Some id) then None else master_ (link n))
    (if decide (master_ (link n) = Some id) then kConnect else link_state_ (link n))
    (delete id (conns_ n)) (next_client_id_ n) (child_ n) (stream n) (stream_start n) (forks n)).
Proof.
  intros Hi. destruct (waiters_without id (waiters_ n)) as [Hwm Hnw].
  pose proof (good_waiters_nodup _ _ _ Hi) as Hnd. cbn in Hnd. rewrite app_nil_r in Hnd.
  apply (good_remove dump w (view [] n) id); try done.
  - by apply list.NoDup_filter, Hi.
  - rewrite app_nil_r. auto.
  - intros r. apply elem_of_without.
  - intros r. cbn. rewrite !app_nil_r. auto.
  - intros r. apply elem_of_without.
Qed.

Lemma ok_conns p m (n : node) :
  (wrapped n = false -> good dump w (view p n <| v_conns := m |>)) -> ok p (n <| conns_ := m |>).
Proof. done. Qed.

Lemma ok_held p ids (n : node) : ok p n -> ok p (n <| held_clients_ := ids |>).
Proof. done. Qed.

Lemma ok_reap id now (n : node) : ok [] n -> ok [] (close_pending id now n).
Proof.
  intros Hi. apply ok_held, ok_conns. destruct (client_closed_view id now n) as [Hv Hwr].
  pose proof (f_equal v_conns Hv) as Hc. rewrite Hv, Hwr. cbn [v_conns view] in Hc. rewrite Hc.
  intros Hw. specialize (Hi Hw).
  cbn [update v_conns v_replicas v_waiters v_ring v_stream v_start v_resume
    v_master v_link v_next v_replid v_child v_forks].
  replace (delete id _) with (delete id (conns_ n)); [by apply good_reap|].
  apply map_eq. intros i. rewrite !lookup_delete, lookup_alter.
  repeat case_decide; congruence.
Qed.

Lemma ok_resume_held p (n : node) : ok p n -> ok p (resume_held_clients n).
Proof.
  intros Hi. unfold resume_held_clients. cbv zeta. set (m := update held_clients_ _ _).
  assert (Hm : ok p m) by exact Hi. clearbody m. revert m Hm. generalize (held_clients_ n).
  induction l as [|id l IH]; intros m Hm; [done|]. cbn [foldl]. apply IH.
  repeat case_match; try done. by apply ok_buffered.
Qed.

Lemma ok_step (n n' : node) : step dump n n' -> ok [] n -> ok [] n'.
Proof.
  destruct 1; intros Hi.
  - by eapply ok_command.
  - by apply inv_propagate.
  - exact Hi.
  - unfold set_writes_paused. case_match; [done|]. exact Hi.
  - exact Hi.
  - by apply ok_resume_held.
  - by apply ok_before_sleep.
  - by apply ok_cron.
  - by apply ok_link_ready.
  - by apply ok_child_exits.
  - apply inv_client; [done| |done]. by split.
  - by apply inv_flush.
  - by apply inv_flush_pending.
  - by apply ok_reap.
  - by apply ok_insert.
Qed.

Lemma ok_steps (n n' : node) : rtc (step dump) n n' -> ok [] n -> ok [] n'.
Proof. induction 1; [done|]. intros Hi. by eapply IHrtc, ok_step. Qed.

Lemma ok_make options replid d : w = None -> ok [] (make options replid d).
Proof.
  intros -> _. split; cbn; try done; try (intros r Hr; by apply elem_of_nil in Hr).
  - apply Backlog.make_repr.
  - by apply list.NoDup_nil.
  - by apply list.NoDup_nil.
Qed.

End steps.

End ReplicationStream.
