(* ===== verification/ReplicationLink.v ===== *)
(** * What a replica makes of it (src/src/replication.cpp)

    The other end of the link: the bytes a master queues for a replica, cut
    into reads anywhere, are taken apart by [process_link_input] into the
    handshake's replies, the announcement, the snapshot and the stream.  With
    ReplicationStream.v this gives a resync end to end. *)

From stdpp Require Import relations.
From Stdlib Require Import Lia.
From S2P Require Import Prelude Resp Backlog ClusterMsg Sys Aof Replication ReplicationStream.

Module ReplicationLink.
Import Replication ReplicationStream.

(** ** Lines *)

(** A line [take_line] can give: it does not begin with a keepalive, has no
    carriage return and is of a sane length. *)
Definition line_ok (line : bytes) : Prop :=
  (exists c t, line = c :: t /\ c <> x0a) /\ Forall (fun b => bz b <> 13) line /\
  zlen line < kMaxHandshakeLine.

Lemma drop_newlines_app k s : drop_newlines (newlines k ++ s) = drop_newlines s.
Proof. by induction k. Qed.

Lemma drop_newlines_other c s : c <> x0a -> drop_newlines (c :: s) = c :: s.
Proof. intros H. simpl. by rewrite bool_decide_eq_false_2. Qed.

(** No line end in a proper prefix of a line and its end. *)
Lemma find_crlf_partial line m :
  Forall (fun b => bz b <> 13) line -> (m < length line + 2)%nat ->
  Parser.find_crlf_front (take m (line ++ crlf)) = None.
Proof.
  intros H. revert m. induction H as [|a l Ha Hl IH]; intros m Hm.
  - destruct m as [|[|m]]; [done|done|simpl in Hm; lia].
  - destruct m as [|m]; [done|]. simpl in Hm. specialize (IH m ltac:(lia)).
    cbn [app take firstn]. change (firstn m (l ++ crlf)) with (take m (l ++ crlf)).
    destruct (take m (l ++ crlf)) as [|b s]; [done|].
    rewrite Parser.find_crlf_front_cons2.
    replace (bz a =? 13) with false by (symmetry; by apply Z.eqb_neq). cbn [andb]. by rewrite IH.
Qed.

(** A buffer that is the beginning of [newlines j ++ line ++ crlf ++ tail]
    holds the whole line, or less. *)
Lemma buffer_cases j line tail (buf fut : bytes) :
  buf ++ fut = newlines j ++ line ++ crlf ++ tail ->
  (exists b, buf = newlines j ++ line ++ crlf ++ b /\ b ++ fut = tail) \/
  (exists i, buf = newlines i /\ fut = newlines (j - i) ++ line ++ crlf ++ tail /\ (i <= j)%nat) \/
  (exists m, buf = newlines j ++ take m (line ++ crlf) /\ (0 < m < length line + 2)%nat /\
             fut = drop m (line ++ crlf) ++ tail).
Proof.
  intros E. assert (Hj : length (newlines j) = j) by apply length_replicate.
  destruct (decide (length buf <= j)%nat) as [H|H].
  - right. left. exists (length buf).
    assert (Hn : newlines j = newlines (length buf) ++ newlines (j - length buf)).
    { unfold newlines. rewrite <-replicate_add. f_equal. lia. }
    rewrite Hn, <-app_assoc in E. apply app_inj_1 in E as [E1 E2]; [|unfold newlines; by rewrite length_replicate].
    done.
  - assert (E1 : buf = newlines j ++ drop j buf).
    { rewrite <-(take_drop j buf) at 1. f_equal.
      apply (f_equal (take j)) in E. rewrite take_app_le in E by lia.
      rewrite E, take_app_le by lia. apply take_ge. lia. }
    set (b := drop j buf) in *. clearbody b. subst buf. rewrite <-app_assoc in E.
    apply app_inv_head in E. rewrite length_app, Hj in H.
    rewrite (app_assoc line) in E.
    destruct (decide (length b < length line + 2)%nat) as [Hb|Hb].
    + right. right. exists (length b). rewrite <-(take_drop (length b) (line ++ crlf)), <-app_assoc in E.
      apply app_inj_1 in E as [E1 E2].
      * split_and!; [by rewrite <-E1|lia|lia|done].
      * rewrite length_take, length_app. simpl. lia.
    + left. exists (drop (length line + 2) b).
      rewrite <-(take_drop (length line + 2) b), <-app_assoc in E.
      apply app_inj_1 in E as [E1 E2]; [|rewrite length_take, length_app; simpl; lia].
      split; [|done]. rewrite (app_assoc line), <-E1. by rewrite take_drop.
Qed.

Section link.
Context {DS : Type} `{host : !ClientHost DS}.
Abbreviation node := (Node DS).

Lemma take_line_spec now (n : node) j line tail fut :
  line_ok line -> link_buf_ (link n) ++ fut = newlines j ++ line ++ crlf ++ tail ->
  (exists b, take_line now n = (Some line, on_link (fun l => l <| link_buf_ := b |>) n) /\
             b ++ fut = tail /\ (length b < length (link_buf_ (link n)))%nat) \/
  (exists i b, take_line now n = (None, on_link (fun l => l <| link_buf_ := b |>) n) /\
               b ++ fut = newlines i ++ line ++ crlf ++ tail /\ fut <> []).
Proof.
  intros ((c & t & Hl & Hc) & Hcr & Hlen) E. unfold take_line.
  destruct (buffer_cases _ _ _ _ _ E) as [(b & Hb & Ht)|[(i & Hb & Hf & Hi)|(m & Hb & Hm & Hf)]];
    rewrite Hb, ?drop_newlines_app.
  - left. exists b. rewrite Hl at 1. cbn [app]. rewrite drop_newlines_other by done.
    change (c :: t ++ crlf ++ b) with ((c :: t) ++ crlf ++ b). rewrite <-Hl.
    rewrite Parser.find_crlf_front_clean by done.
    assert (Hd : drop (length line + 2) (line ++ crlf ++ b) = b).
    { rewrite drop_app_add. done. }
    rewrite take_app_length, Hd. destruct line; [done|]. split_and!; [done|done|].
    rewrite !length_app. simpl. lia.
  - right. exists (j - i)%nat, []. unfold newlines at 1. rewrite <-(app_nil_r (replicate i x0a)).
    change (replicate i x0a) with (newlines i). rewrite drop_newlines_app. cbn [drop_newlines].
    split_and!; [done|by rewrite Hf|]. rewrite Hf, Hl. destruct (newlines (j - i)); done.
  - right. exists 0%nat, (take m (line ++ crlf)).
    assert (Hnone := find_crlf_partial line m Hcr ltac:(lia)).
    assert (Hcons : exists s, take m (line ++ crlf) = c :: s).
    { rewrite Hl. destruct m; [lia|]. by eexists. }
    destruct Hcons as [s Hs]. rewrite Hs in *. rewrite drop_newlines_other by done. rewrite Hnone.
    assert (Hz : (kMaxHandshakeLine <? zlen (c :: s)) = false).
    { apply Z.ltb_ge. rewrite <-Hs. unfold zlen in *. rewrite length_take, length_app.
      change (length crlf) with 2%nat. lia. }
    rewrite Hz. split_and!; [done| |].
    + rewrite <-Hs, Hf, app_assoc, take_drop. by rewrite <-app_assoc.
    + rewrite Hf. intros Hn. apply (f_equal length) in Hn. rewrite length_app, length_drop, length_app in Hn.
      simpl in Hn. lia.
Qed.

(** ** Single replies *)

Definition replid_ok (id : bytes) : Prop := length id = kReplIdLength /\ Aof.plain id.

Definition full_line (id : bytes) (off : Z) : bytes := &"+FULLRESYNC " ++ id ++ &" " ++ to_string off.
Definition continue_line (id : bytes) : bytes := &"+CONTINUE " ++ id.
Definition size_line (size : Z) : bytes := &"$" ++ to_string size.

Lemma full_resync_reply_line id off : full_resync_reply id off = full_line id off ++ crlf.
Proof. unfold full_resync_reply, full_line, Reply.simple_string. by rewrite <-!app_assoc. Qed.

Lemma continue_reply_line id :
  Reply.simple_string [] (&"CONTINUE " ++ id) = continue_line id ++ crlf.
Proof. done. Qed.

Lemma plain_clean w : Aof.plain w -> Forall (fun b => bz b <> 13) w.
Proof.
  intros H. eapply Forall_impl; [|exact H]. intros b Hb. cbv beta in Hb.
  unfold Aof.plain_byte, Aof.is_space in Hb. zlia.
Qed.

Lemma to_string_u64_length v : 0 <= v <= size_max -> (length (to_string v) <= 65)%nat.
Proof.
  intros Hv. unfold to_string. destruct (Z.ltb_spec v 0); [lia|]. unfold dec_nonneg.
  etrans; [apply ClusterMsg.dec_digits_length|].
  assert (Z.log2 v <= Z.log2 size_max) by (apply Z.log2_le_mono; lia).
  change (Z.log2 size_max) with 63 in *. lia.
Qed.

Lemma full_line_ok id off : replid_ok id -> 0 <= off <= size_max -> line_ok (full_line id off).
Proof.
  intros [Hl Hp] Ho. split_and!.
  - by eexists _, _.
  - unfold full_line. rewrite !Forall_app. split_and!; [|by apply plain_clean| |].
    + by repeat constructor.
    + by repeat constructor.
    + apply Parser.to_string_clean. lia.
  - pose proof (to_string_u64_length off Ho). unfold full_line, zlen.
    rewrite !length_app, Hl. unfold kMaxHandshakeLine, kReplIdLength. simpl. lia.
Qed.

Lemma continue_line_ok id : replid_ok id -> line_ok (continue_line id).
Proof.
  intros [Hl Hp]. split_and!.
  - by eexists _, _.
  - unfold continue_line. rewrite Forall_app. split; [by repeat constructor|by apply plain_clean].
  - unfold continue_line, zlen. rewrite length_app, Hl. done.
Qed.

Lemma size_line_ok size : 0 <= size <= size_max -> line_ok (size_line size).
Proof.
  intros Hs. split_and!.
  - by eexists _, _.
  - unfold size_line. rewrite Forall_app. split; [by repeat constructor|].
    apply Parser.to_string_clean. lia.
  - pose proof (to_string_u64_length size Hs). unfold size_line, zlen. rewrite length_app.
    unfold kMaxHandshakeLine. simpl. lia.
Qed.

Lemma strtoull_to_string v : 0 <= v <= size_max -> strtoull (to_string v) = (v, []).
Proof.
  intros Hv. rewrite Aof.to_string_digits by lia.
  destruct (dec_nonneg_spec v) as (Hne & Hd & Hval); [lia|].
  pose proof (Aof.plain_digits _ Hd) as Hp. unfold strtoull.
  destruct (dec_nonneg v) as [|d ds] eqn:E; [done|].
  assert (Hd1 : is_digit d = true) by (by apply Forall_cons_1 in Hd as [??]).
  rewrite Aof.skip_plain by (by apply Forall_cons_1 in Hp as [??]).
  replace (bz d =? 45) with false by (unfold is_digit in Hd1; zlia).
  replace (bz d =? 43) with false by (unfold is_digit in Hd1; zlia).
  rewrite scan_digits_all by done. rewrite Hval. by replace (size_max <? v) with false by zlia.
Qed.

Lemma handle_full id off (io : LinkIo) (n : node) :
  replid_ok id -> 0 <= off <= size_max -> io_open io = true ->
  handle_psync_reply (full_line id off) io n
  = on_link (fun l => l <| transfer_replid_ := id |> <| transfer_offset_ := off |>
                        <| transfer_path_ := io_path io |> <| transfer_fd_ := Some [] |>
                        <| transfer_remaining_ := None |> <| link_state_ := kTransfer |>) n.
Proof.
  intros [Hl Hp] Ho Hio. unfold handle_psync_reply.
  assert (Hst : starts_with &"+FULLRESYNC " (full_line id off) = true).
  { apply beq_eq. done. }
  rewrite Hst. assert (Hd : drop 12 (full_line id off) = id ++ x20 :: to_string off) by done.
  rewrite Hd, Aof.extract_word_plain; [|done|by destruct id|by right; eexists].
  cbn [mbind option_bind].
  assert (Hx : Aof.extract_u64 (x20 :: to_string off) = Some (off, [])).
  { rewrite <-(app_nil_r (to_string off)).
    change (Aof.extract_u64 (x20 :: to_string off ++ [])) with (Aof.extract_u64 (to_string off ++ [])).
    apply Aof.extract_u64_to_string; [done|by left]. }
  rewrite Hx. cbn [mbind option_bind]. rewrite Hl, Nat.eqb_refl, Hio. done.
Qed.

Lemma on_client_lookup id f (n : node) : conns_ (on_client id f n) !! id = f <$> conns_ n !! id.
Proof. apply lookup_alter_eq. Qed.

(** ** Adopting the link *)

(** [n'] follows the master through the new client [m], which has [pending]
    still to execute and an acknowledgement queued; its history is named
    [replid] and stands at [off], its dataset is [d]. *)
Record follows (n' : node) (m : Z) (replid : bytes) (off : Z) (d : DS) (pending : bytes) : Prop := {
  follows_link : link_state_ (link n') = kConnected;
  follows_master : master_ (link n') = Some m;
  follows_replid : replid_ n' = replid;
  follows_offset : offset n' = off;
  follows_shared : replid_shared_ n' = true;
  follows_store : store_ n' = d;
  follows_client : exists c, conns_ n' !! m = Some c /\ is_master c = true /\ doomed c = false /\
    input c = pending /\ out c = Reply.command [] [&"REPLCONF"; &"ACK"; to_string off];
}.

Lemma adopt_link_spec io (n : node) :
  io_watch io = true ->
  exists n', adopt_link io n = process_buffered (next_client_id_ n) n' /\
    follows n' (next_client_id_ n) (replid_ n) (offset n) (store_ n) (link_buf_ (link n)).
Proof.
  intros Hw. unfold adopt_link, adopt_master. rewrite Hw. cbv zeta beta iota.
  set (n1 := on_link _ n). set (m := next_client_id_ n).
  change (next_client_id_ n1) with m.
  set (c1 := update closing _ _). set (n2 := update wrapped _ _).
  assert (H2 : replid_ n2 = replid_ n /\ offset n2 = offset n /\ store_ n2 = store_ n /\
    conns_ n2 !! m = Some c1) by (split_and!; [done..|apply lookup_insert_eq]).
  destruct H2 as (Hr & Ho & Hs & Hc). rewrite <-Hr, <-Ho, <-Hs.
  assert (Hc1 : is_master c1 = true /\ doomed c1 = false /\ input c1 = link_buf_ (link n) /\ out c1 = [])
    by done.
  clearbody n2 c1 m. clear n1 Hr Ho Hs.
  set (n3 := on_link _ n2).
  assert (H3 : link_state_ (link n3) = kConnected /\ master_ (link n3) = Some m /\
    replid_ n3 = replid_ n2 /\ offset n3 = offset n2 /\ store_ n3 = store_ n2 /\ conns_ n3 = conns_ n2)
    by done.
  destruct H3 as (F1 & F2 & <- & <- & <- & Hc3). rewrite <-Hc3 in Hc. clearbody n3. clear n2 Hc3.
  eexists. split; [done|]. unfold send_ack.
  change (master_ (link (on_client _ _ _))) with (master_ (link n3)). rewrite F2.
  destruct Hc1 as (E1 & E2 & E3 & E4). split; try done.
  eexists. split.
  { rewrite !on_client_lookup. change (conns_ (update replid_shared_ _ _)) with (conns_ n3).
    by rewrite Hc. }
  split_and!; try done.
  rewrite <-E4. done.
Qed.

(** The loop of [process_link_input] has nothing left to do then, whatever the
    commands that are run do. *)
Definition idle_link (n : node) : Prop :=
  link_state_ (link n) <> kHandshake /\ link_state_ (link n) <> kTransfer.

Lemma on_clients_link l (f : Z -> Client -> Client) : forall n : node,
  link (foldl (fun n r => on_client r (f r) n) n l) = link n.
Proof. induction l as [|r l IH]; intros n; [done|]. simpl. by rewrite IH. Qed.

Lemma on_replicas_link f (n : node) : link (on_replicas f n) = link n.
Proof. apply (on_clients_link _ (fun _ => f)). Qed.

Lemma feed_link data (n : node) : link (feed data n) = link n.
Proof. unfold feed. by rewrite on_replicas_link. Qed.

Lemma propagates_link writes : forall n : node,
  link (foldl (fun n argv => propagate argv n) n writes) = link n.
Proof.
  induction writes as [|a ws IH]; intros n; [done|]. simpl. rewrite IH. unfold propagate.
  case_match; [done|]. apply feed_link.
Qed.

Lemma start_snapshot_link fork_ok (n : node) : link (start_snapshot_for_replicas fork_ok n) = link n.
Proof.
  unfold start_snapshot_for_replicas. repeat case_match; cbn [update link]; by rewrite ?on_replicas_link.
Qed.

Lemma psync_link id replid off now fork_ok (n : node) :
  link (psync id replid off now fork_ok n).2 = link n.
Proof.
  unfold psync. destruct (conns_ n !! id); [|done]. case_match; [done|]. case_match; [done|]. cbv zeta.
  set (n1 := update stream_started_ _ _). assert (E1 : link n1 = link n) by done. clearbody n1.
  destruct (try_partial_resync id replid off n1) as [[reply n2]|] eqn:Hp; rewrite <-E1.
  - apply try_partial_spec in Hp as (_ & _ & ->). done.
  - cbn [snd]. rewrite start_snapshot_link. by destruct (negb (beq replid &"?")).
Qed.

Lemma psync_command_link id replid off now fork_ok (n : node) :
  link (psync_command id replid off now fork_ok n) = link n.
Proof.
  unfold psync_command. rewrite <-(psync_link id replid off now fork_ok n).
  destruct (psync _ _ _ _ _ n) as [reply n1]. cbn [snd]. by case_match.
Qed.

Lemma wait_command_link id numreplicas timeout_ms now (n : node) :
  link (wait_command id numreplicas timeout_ms now n) = link n.
Proof.
  unfold wait_command, wait. destruct (is_replica n); [by case_match|].
  destruct (conns_ n !! id) as [c|]; [|done]. cbv zeta. by destruct (_ <=? _), (_ && _).
Qed.

Lemma send_ack_link (n : node) : link (send_ack n) = link n.
Proof. unfold send_ack. by case_match. Qed.

Lemma disconnect_link (n : node) : link (disconnect_replicas n) = link n.
Proof. apply on_replicas_link. Qed.

Lemma released_link (ws : list Waiter) : forall n : node,
  link (foldl (fun n x =>
    let n := on_client (w_client x) (fun c =>
               c <| out := Reply.error (out c) kUnblocked |> <| blocked := false |>) n in
    n <| to_resume_ := to_resume_ n ++ [w_client x] |>) n ws) = link n.
Proof. induction ws as [|x ws IH]; intros n; [done|]. simpl foldl. by rewrite IH. Qed.

Lemma waiters_link ws (n : node) : link (n <| waiters_ := ws |>) = link n.
Proof. done. Qed.

Lemma replicaof_link h port now (n : node) : idle_link n -> idle_link (replicaof h port now n).
Proof.
  intros Hi. unfold replicaof. case_match; [done|]. cbv zeta. unfold idle_link.
  by rewrite released_link, waiters_link, disconnect_link.
Qed.

Lemma no_one_link fresh (n : node) : idle_link n -> idle_link (replicaof_no_one fresh n).
Proof.
  intros Hi. unfold replicaof_no_one. case_match; [done|]. cbv zeta. unfold idle_link.
  by rewrite disconnect_link.
Qed.

Lemma command_idle id (n n' : node) : command_step id n n' -> idle_link n -> idle_link n'.
Proof.
  destruct 1; intros Hi; auto using replicaof_link, no_one_link; unfold idle_link in *.
  - unfold execute. by rewrite propagates_link.
  - by rewrite psync_command_link.
  - by rewrite wait_command_link.
  - unfold replconf_getack. case_match; [by rewrite send_ack_link|done].
  - unfold master_command_applied. by rewrite feed_link.
  - unfold set_writes_paused. by case_match.
Qed.

Lemma buffered_idle id (n : node) : idle_link n -> idle_link (process_buffered id n).
Proof.
  pose proof (process_buffered_steps id n) as Hs.
  induction Hs as [|n1 n2 n3 H12 _ IH]; [done|]. intros Hi. by eapply IH, command_idle.
Qed.

Lemma idle_loop fuel io (n : node) : idle_link n -> process_link_loop fuel io n = n.
Proof.
  intros [H1 H2]. destruct fuel; [done|]. cbn [process_link_loop].
  by destruct (link_state_ (link n)).
Qed.

(** ** A completed transfer *)

Lemma on_clients_conns l (f : Z -> Client -> Client) : forall n : node,
  foldl (fun n r => on_client r (f r) n) n l
  = n <| conns_ := conns_ (foldl (fun n r => on_client r (f r) n) n l) |>.
Proof.
  induction l as [|r l IH]; intros n; [by destruct n|]. simpl foldl. by rewrite IH at 1.
Qed.

Lemma disconnect_conns (n : node) :
  exists m, disconnect_replicas n = n <| conns_ := m |>.
Proof. eexists. apply (on_clients_conns _ (fun _ c => c <| closing := true |>)). Qed.

Lemma kill_child_conns (n : node) :
  exists k m, kill_child n = n <| child_ := k |> <| conns_ := m |>.
Proof.
  unfold kill_child. destruct (child_ n) as [|d|] eqn:E.
  - exists no_child, (conns_ n). rewrite <-E. by destruct n.
  - exists no_child. eexists. unfold snapshot_finished.
    apply (on_clients_conns _ (fun r c => if _ || closing c then c else _)).
  - by exists no_child, (conns_ n).
Qed.

(** What replacing the dataset leaves alone. *)
Record kept (n n' : node) : Prop := {
  kept_replid : replid_ n' = replid_ n;
  kept_backlog : backlog_ n' = backlog_ n;
  kept_shared : replid_shared_ n' = replid_shared_ n;
  kept_options : options_ n' = options_ n;
  kept_next : next_client_id_ n' = next_client_id_ n;
  kept_link : link n' = link n;
}.

Lemma replace_spec file io (n n' : node) ok :
  replace_dataset file io (disconnect_replicas n) = (ok, n') ->
  kept n n' /\ io_replace io file = (ok, store_ n').
Proof.
  destruct (disconnect_conns n) as [m ->]. unfold replace_dataset.
  destruct (kill_child_conns (n <| conns_ := m |>)) as (k & m' & ->).
  destruct (io_replace io file) as [b d]. intros [= <- <-]. by split.
Qed.

Lemma finish_transfer_spec io (n : node) file d :
  transfer_fd_ (link n) = Some file -> io_fsync io = true -> io_replace io file = (true, d) ->
  io_watch io = true ->
  exists n', finish_transfer io n = process_buffered (next_client_id_ n) n' /\
    follows n' (next_client_id_ n) (transfer_replid_ (link n)) (u64 (transfer_offset_ (link n))) d
      (link_buf_ (link n)).
Proof.
  intros Hf Hs Hr Hw. unfold finish_transfer. rewrite Hf, Hs.
  change (default [] (Some file)) with file. cbn [negb]. cbv zeta.
  set (n1 := on_link _ n).
  assert (E1 : next_client_id_ n1 = next_client_id_ n /\ transfer_replid_ (link n1) = transfer_replid_ (link n)
    /\ transfer_offset_ (link n1) = transfer_offset_ (link n) /\ link_buf_ (link n1) = link_buf_ (link n))
    by done.
  destruct E1 as (<- & <- & <- & <-). clearbody n1.
  destruct (replace_dataset file io (disconnect_replicas n1)) as [ok n2] eqn:E.
  apply replace_spec in E as [Hk Hd]. rewrite Hr in Hd. injection Hd as <- ->.
  rewrite <-(kept_next _ _ Hk), <-(kept_link _ _ Hk). cbn [negb]. clear Hk.
  set (n3 := on_link _ n2).
  assert (E3 : next_client_id_ n3 = next_client_id_ n2 /\ transfer_replid_ (link n3) = transfer_replid_ (link n2)
    /\ transfer_offset_ (link n3) = transfer_offset_ (link n2) /\ link_buf_ (link n3) = link_buf_ (link n2)
    /\ store_ n3 = store_ n2) by done.
  destruct E3 as (<- & <- & <- & <- & <-). clearbody n3.
  set (n4 := update stream_start _ _).
  assert (E4 : next_client_id_ n4 = next_client_id_ n3 /\ replid_ n4 = transfer_replid_ (link n3) /\
    offset n4 = u64 (transfer_offset_ (link n3)) /\ link_buf_ (link n4) = link_buf_ (link n3) /\
    store_ n4 = store_ n3) by done.
  destruct E4 as (<- & <- & <- & <- & <-). clearbody n4. by apply adopt_link_spec.
Qed.

(** ** Reading an answer *)

(** What the master answers: a full resync with its keepalives, the offset and
    the snapshot, or a continuation; then the stream [rest]. *)
Inductive Answer := Full (k k' : nat) (off : Z) (file : bytes) | Continue.

Context (io : LinkIo (DS := DS)) (n0 : node) (id rest : bytes) (ans : Answer) (d : DS).

Definition psync_line : bytes :=
  match ans with Full _ _ off _ => full_line id off | Continue => continue_line id end.
Definition after_psync : bytes :=
  match ans with
  | Full _ k' _ file => newlines k' ++ size_line (zlen file) ++ crlf ++ file ++ rest
  | Continue => rest
  end.
Definition keepalives : nat := match ans with Full k _ _ _ => k | Continue => 0 end.
Definition script (hs : list bytes) : bytes :=
  foldr (fun x s => x ++ crlf ++ s) (newlines keepalives ++ psync_line ++ crlf ++ after_psync) hs.

(** Where the link is, and what it still expects. *)
Inductive stage (l : Link) : bytes -> Prop :=
  | in_handshake i j x hs :
      link_state_ l = kHandshake -> handshake_replies_ l = i -> 0 <= i ->
      i + 1 + zlen hs = 3 -> Forall line_ok (x :: hs) -> (i = 0 -> starts_with &"-" x = false) ->
      stage l (newlines j ++ x ++ crlf ++ script hs)
  | in_psync j :
      link_state_ l = kHandshake -> handshake_replies_ l = 3 ->
      stage l (newlines j ++ psync_line ++ crlf ++ after_psync)
  | in_header j k k' off file :
      ans = Full k k' off file -> link_state_ l = kTransfer -> transfer_remaining_ l = None ->
      transfer_fd_ l = Some [] -> transfer_replid_ l = id -> transfer_offset_ l = off ->
      stage l (newlines j ++ size_line (zlen file) ++ crlf ++ file ++ rest)
  | in_body k k' off file got more :
      ans = Full k k' off file -> link_state_ l = kTransfer ->
      transfer_remaining_ l = Some (zlen more) -> transfer_fd_ l = Some got ->
      transfer_replid_ l = id -> transfer_offset_ l = off -> file = got ++ more -> more <> [] ->
      stage l (more ++ rest).

(** The history the replica ends up with: the master's, or its own renamed. *)
Definition new_offset : Z := match ans with Full _ _ off _ => off | Continue => offset n0 end.
Definition new_store : DS := match ans with Full _ _ _ _ => d | Continue => store_ n0 end.

Definition finished (n : node) (fut : bytes) : Prop :=
  exists n' pending, n = process_buffered (next_client_id_ n0) n' /\
    follows n' (next_client_id_ n0) id new_offset new_store pending /\ pending ++ fut = rest.

(** The link is still reading, and some of what it expects has not arrived. *)
Definition waiting (n : node) (fut : bytes) : Prop :=
  exists l rem, n = n0 <| link := l |> /\ stage l rem /\ link_buf_ l ++ fut = rem /\ fut <> [].

Hypothesis io_fine :
  io_open io = true /\ io_write io = true /\ io_fsync io = true /\ io_watch io = true.
Hypothesis replid_fine : replid_ok id.
Hypothesis answer_fine :
  match ans with
  | Full _ _ off file => 0 <= off <= size_max /\ zlen file <= size_max /\ io_replace io file = (true, d)
  | Continue => True
  end.

Lemma on_link_set f l : on_link f (n0 <| link := l |>) = n0 <| link := f l |>.
Proof. done. Qed.

Lemma finished_idle (n : node) fut fuel : finished n fut -> process_link_loop fuel io n = n.
Proof.
  intros (n' & pending & -> & Hf & _). apply idle_loop, buffered_idle. unfold idle_link.
  by rewrite (follows_link _ _ _ _ _ _ Hf).
Qed.

Lemma transfer_done l file fut buf :
  (exists k k' off, ans = Full k k' off file /\ transfer_offset_ l = off) ->
  transfer_replid_ l = id -> transfer_fd_ l = Some file -> link_buf_ l = buf -> buf ++ fut = rest ->
  finished (finish_transfer io (n0 <| link := l |>)) fut.
Proof.
  intros (k & k' & off & Ha & Ho) Hi Hfd Hb Hr.
  destruct io_fine as (_ & _ & Hs & Hw). rewrite Ha in answer_fine. destruct answer_fine as (Hoff & _ & Hd).
  set (n := n0 <| link := l |>).
  destruct (finish_transfer_spec io n file d Hfd Hs Hd Hw) as (n' & -> & Hf).
  exists n', buf. split_and!; [done| |done]. unfold new_offset, new_store. rewrite Ha.
  rewrite <-Hb, <-Hi, <-Ho. rewrite <-(u64_small (transfer_offset_ l)); [exact Hf|].
  unfold size_max in *. lia.
Qed.

(** The body, from wherever it has got to. *)
Lemma body_round l got more fut fuel k k' off file :
  ans = Full k k' off file -> link_state_ l = kTransfer ->
  transfer_remaining_ l = Some (zlen more) -> transfer_fd_ l = Some got ->
  transfer_replid_ l = id -> transfer_offset_ l = off -> file = got ++ more ->
  link_buf_ l ++ fut = more ++ rest ->
  let n := let '(complete, n) := transfer_body (zlen more) io (n0 <| link := l |>) in
           if negb complete then n else process_link_loop fuel io (finish_transfer io n) in
  waiting n fut \/ finished n fut.
Proof.
  intros Ha Hl Hr Hfd Hi Ho Hfile Hb. unfold transfer_body. cbv zeta.
  change (link_buf_ (link (n0 <| link := l |>))) with (link_buf_ l).
  destruct io_fine as (_ & -> & _). rewrite andb_false_r, on_link_set.
  destruct (decide (length more <= length (link_buf_ l))%nat) as [Hle|Hlt].
  - right. replace (Z.to_nat (Z.min (zlen more) (zlen (link_buf_ l)))) with (length more)
      by (unfold zlen; lia).
    replace (zlen more - Z.of_nat (length more)) with 0 by (unfold zlen; lia). cbn [Z.ltb negb].
    change (0 <? 0) with false. cbn [negb].
    assert (Hm : take (length more) (link_buf_ l) = more).
    { apply (f_equal (take (length more))) in Hb.
      by rewrite take_app_le, take_app_length in Hb. }
    assert (Hd : drop (length more) (link_buf_ l) ++ fut = rest).
    { apply (f_equal (drop (length more))) in Hb.
      by rewrite drop_app_le, drop_app_length in Hb. }
    rewrite Hm. set (l' := update transfer_remaining_ _ _).
    assert (Hfin : finished (finish_transfer io (n0 <| link := l' |>)) fut).
    { eapply (transfer_done l' file); [eauto|done| |done|exact Hd].
      unfold l'. cbn [update transfer_fd_]. by rewrite Hfd, Hfile. }
    by rewrite (finished_idle _ fut).
  - left. set (b := link_buf_ l) in *. set (nb := length b).
    replace (Z.to_nat (Z.min (zlen more) (zlen b))) with nb by (unfold zlen, nb; lia).
    assert (Hpos : 0 < zlen more - Z.of_nat nb) by (unfold zlen, nb; lia).
    replace (0 <? zlen more - Z.of_nat nb) with true by (symmetry; by apply Z.ltb_lt). cbn [negb].
    rewrite take_ge, drop_ge by (unfold nb; lia).
    assert (Hm : more = b ++ drop nb more).
    { rewrite <-(take_drop nb more) at 1. f_equal. apply (f_equal (take nb)) in Hb.
      rewrite !take_app_le in Hb by (unfold nb; lia). rewrite <-Hb. apply take_ge. unfold nb. lia. }
    assert (Hf : fut = drop nb more ++ rest).
    { rewrite Hm, <-app_assoc in Hb. by apply app_inv_head in Hb. }
    exists (l <| transfer_fd_ := (fun f => f ++ b) <$> transfer_fd_ l |> <| link_buf_ := [] |>
              <| transfer_remaining_ := Some (zlen more - Z.of_nat nb) |>), (drop nb more ++ rest).
    assert (Hne : drop nb more <> []).
    { intros E. rewrite E, app_nil_r in Hm. rewrite Hm in Hpos. unfold zlen, nb in Hpos. lia. }
    split_and!; [done| |done|rewrite Hf; by destruct (drop nb more)].
    eapply (in_body _ k k' off file (got ++ b)); try done.
    + cbn [update transfer_remaining_]. f_equal. unfold zlen. rewrite length_drop. lia.
    + cbn [update transfer_fd_]. by rewrite Hfd.
    + by rewrite <-app_assoc, <-Hm.
Qed.

Lemma handle_continue (n : node) :
  exists n', handle_psync_reply (continue_line id) io n = process_buffered (next_client_id_ n) n' /\
    follows n' (next_client_id_ n) id (offset n) (store_ n) (link_buf_ (link n)).
Proof.
  destruct io_fine as (_ & _ & _ & Hw). destruct replid_fine as [Hlen _].
  unfold handle_psync_reply.
  assert (Hst : starts_with &"+FULLRESYNC " (continue_line id) = false).
  { apply beq_neq. intros E. apply (f_equal (take 2)) in E. done. }
  assert (Hst2 : starts_with &"+CONTINUE " (continue_line id) = true) by by apply beq_eq.
  rewrite Hst, Hst2, orb_true_r.
  assert (Hlong : (10 <? length (continue_line id))%nat = true).
  { apply Nat.ltb_lt. unfold continue_line. rewrite length_app, Hlen. unfold kReplIdLength. simpl. lia. }
  rewrite Hlong. assert (Hdrop : drop 10 (continue_line id) = id) by done. rewrite Hdrop. cbv zeta.
  set (n1 := if _ && _ then _ else n).
  assert (E : replid_ n1 = id /\ next_client_id_ n1 = next_client_id_ n /\ offset n1 = offset n /\
              store_ n1 = store_ n /\ link n1 = link n).
  { unfold n1. destruct (beq id []) eqn:E0.
    { apply beq_eq in E0. by rewrite E0 in Hlen. }
    destruct (beq id (replid_ n)) eqn:E1; [by apply beq_eq in E1|]. cbn [negb andb].
    destruct (disconnect_conns (n <| replid2_ := replid_ n |> <| second_replid_offset_ := Some (offset n) |>
      <| replid_ := id |>)) as [m ->]. done. }
  clearbody n1. destruct E as (E1 & E2 & E3 & E4 & E5).
  destruct (adopt_link_spec io n1 Hw) as (n' & -> & Hf). exists n'.
  rewrite E1, E2, E3, E4, E5 in Hf. by rewrite E2.
Qed.

Lemma psync_line_ok : line_ok psync_line.
Proof.
  unfold psync_line. destruct ans; [apply full_line_ok; [done|tauto]|by apply continue_line_ok].
Qed.

(** One pass over what the link holds. *)
Lemma loop_spec fuel : forall l rem fut,
  stage l rem -> link_buf_ l ++ fut = rem -> (length (link_buf_ l) < fuel)%nat ->
  let n := process_link_loop fuel io (n0 <| link := l |>) in waiting n fut \/ finished n fut.
Proof.
  induction fuel as [|fuel IH]; intros l rem fut Hs Hb Hfuel; [lia|].
  set (n := n0 <| link := l |>). cbn [process_link_loop]. change (link n) with l.
  destruct Hs as [i j x hs Hl Hi Hge Hcount Hok Hfirst|j Hl Hi|j k k' off file Ha Hl Hr Hfd Hid Hoff
    |k k' off file got more Ha Hl Hr Hfd Hid Hoff Hfile Hmore].
  - rewrite Hl. apply Forall_cons_1 in Hok as [Hx Hhs].
    destruct (take_line_spec (io_now io) n j x (script hs) fut Hx Hb)
      as [(b & -> & Hb' & Hlt)|(i' & b & -> & Hb' & Hne)]; cbv zeta; unfold n; rewrite on_link_set.
    2:{ left. eexists _, _. split; [done|]. split; [|by split; [exact Hb'|]]. eapply in_handshake; eauto. }
    change (handshake_replies_ (link _)) with (handshake_replies_ l). rewrite Hi.
    pose proof (zlen_nonneg hs). replace (i <? 3) with true by lia.
    replace ((i =? 0) && _) with false.
    2:{ destruct (Z.eqb_spec i 0) as [->|]; [|done]. cbn [andb]. rewrite Hfirst by done.
        destruct Hx as [(c & t & -> & _) _]. done. }
    rewrite on_link_set. set (l' := update handshake_replies_ _ _).
    apply (IH l' (script hs)); [|exact Hb'|change (link_buf_ l') with b; cbn in Hlt; lia].
    destruct hs as [|y hs].
    + apply in_psync; [done|]. unfold l'. cbn. change (zlen (@nil bytes)) with 0 in Hcount. lia.
    + apply (in_handshake _ (i + 1) 0 y hs); try done; [lia|rewrite zlen_cons in Hcount; lia|lia].
  - rewrite Hl.
    destruct (take_line_spec (io_now io) n j psync_line after_psync fut psync_line_ok Hb)
      as [(b & -> & Hb' & Hlt)|(i' & b & -> & Hb' & Hne)]; cbv zeta; unfold n; rewrite on_link_set.
    2:{ left. eexists _, _. split; [done|]. split; [|by split; [exact Hb'|]]. by apply in_psync. }
    change (handshake_replies_ (link _)) with (handshake_replies_ l). rewrite Hi.
    change (3 <? 3) with false. unfold psync_line, after_psync in *.
    destruct ans as [k k' off file|] eqn:Ha.
    + destruct answer_fine as (Hoff & _). rewrite handle_full by (done || apply io_fine).
      rewrite on_link_set. set (l' := update link_state_ _ _).
      apply (IH l' (newlines k' ++ size_line (zlen file) ++ crlf ++ file ++ rest)); [|exact Hb'|].
      * by eapply in_header.
      * change (link_buf_ l') with b. cbn in Hlt. lia.
    + right. set (n1 := update link _ _).
      destruct (handle_continue n1) as (n' & Hn & Hf). rewrite Hn.
      assert (Hfin : finished (process_buffered (next_client_id_ n1) n') fut).
      { exists n', b. split_and!; [done| |done]. unfold new_offset, new_store. rewrite Ha. exact Hf. }
      by rewrite (finished_idle _ fut).
  - rewrite Hl. unfold transfer_header. change (link n) with l. rewrite Hr.
    assert (Hsz : 0 <= zlen file <= size_max).
    { rewrite Ha in answer_fine. pose proof (zlen_nonneg file). tauto. }
    destruct (take_line_spec (io_now io) n j _ (file ++ rest) fut (size_line_ok _ Hsz) Hb)
      as [(b & -> & Hb' & Hlt)|(i' & b & -> & Hb' & Hne)]; cbv zeta; unfold n; rewrite on_link_set.
    2:{ left. eexists _, _. split; [done|]. split; [|by split; [exact Hb'|]]. by eapply in_header. }
    assert (Hdollar : (1 <? length (size_line (zlen file)))%nat && starts_with &"$" (size_line (zlen file))
                      = true).
    { apply andb_true_iff. split; [|by apply beq_eq].
      destruct (dec_nonneg_spec (zlen file)) as [Hne _]; [lia|].
      unfold size_line. rewrite Aof.to_string_digits by lia. by destruct (dec_nonneg (zlen file)). }
    rewrite Hdollar. change (drop 1 (size_line (zlen file))) with (to_string (zlen file)).
    rewrite strtoull_to_string by done. cbn [at_nul negb]. rewrite on_link_set.
    set (l' := update transfer_remaining_ _ _).
    eapply (body_round l' [] file fut fuel); try done.
  - rewrite Hl. unfold transfer_header. change (link n) with l. rewrite Hr.
    by eapply (body_round l got more fut fuel).
Qed.

Lemma stage_io l rem t b :
  stage l rem -> stage (l <| link_last_io_ := t |> <| link_buf_ := b |>) rem.
Proof.
  destruct 1; [eapply in_handshake|eapply in_psync|eapply in_header|eapply in_body]; eauto.
Qed.

(** A read returns at least one byte and no more than a buffer's worth. *)
Definition read_ok (c : bytes) : Prop := c <> [] /\ zlen c <= kLinkReadChunk.

Definition read_all (chunks : list bytes) (n : node) : node :=
  foldl (fun n c => read_link (read_data c) io n) n chunks.

Lemma chunks_spec chunks : forall l rem,
  stage l rem -> link_buf_ l ++ concat chunks = rem -> Forall read_ok chunks -> concat chunks <> [] ->
  exists i, finished (read_all (take i chunks) (n0 <| link := l |>)) (concat (drop i chunks)).
Proof.
  induction chunks as [|c cs IH]; intros l rem Hs Hb Hok Hne; [done|].
  apply Forall_cons_1 in Hok as [[_ Hc] Hok]. cbn [concat] in Hb.
  set (l' := l <| link_last_io_ := io_now io |> <| link_buf_ := link_buf_ l ++ c |>).
  assert (Hread : read_link (read_data c) io (n0 <| link := l |>)
    = process_link_loop (2 + length (link_buf_ l')) io (n0 <| link := l' |>)).
  { unfold read_link, process_link_input. rewrite on_link_set.
    rewrite take_ge by (unfold zlen in Hc; lia). done. }
  destruct (loop_spec (2 + length (link_buf_ l')) l' rem (concat cs)) as [Hw|Hf].
  - by apply stage_io.
  - change (link_buf_ l') with (link_buf_ l ++ c). by rewrite <-app_assoc.
  - lia.
  - destruct Hw as (l2 & rem2 & Hn & Hs2 & Hb2 & Hne2).
    destruct (IH l2 rem2 Hs2 Hb2 Hok Hne2) as [i Hi]. exists (S i).
    cbn [take drop firstn skipn]. unfold read_all in *. cbn [foldl]. by rewrite Hread, Hn.
  - exists 1%nat. cbn [take drop firstn skipn]. unfold read_all. cbn [foldl]. by rewrite Hread.
Qed.

Lemma read_answer chunks :
  link_state_ (link n0) = kHandshake -> handshake_replies_ (link n0) = 0 -> link_buf_ (link n0) = [] ->
  concat chunks = &"+PONG" ++ crlf ++ &"+OK" ++ crlf ++ &"+OK" ++ crlf ++
                  newlines keepalives ++ psync_line ++ crlf ++ after_psync ->
  Forall read_ok chunks ->
  exists i, finished (read_all (take i chunks) n0) (concat (drop i chunks)).
Proof.
  intros Hl Hi Hb Hc Hok.
  assert (E : n0 = n0 <| link := link n0 |>) by by destruct n0.
  destruct (chunks_spec chunks (link n0) (concat chunks)) as [i Hf];
    [|by rewrite Hb|done|by rewrite Hc|exists i; by rewrite <-E in Hf].
  rewrite Hc. apply (in_handshake _ 0 0 &"+PONG" [&"+OK"; &"+OK"]); try done.
  assert (Hline : forall s, s = &"+PONG" \/ s = &"+OK" -> line_ok s).
  { intros s [->| ->]; (split_and!; [by eexists _, _|by repeat constructor|done]). }
  do 3 (constructor; [by apply Hline; auto|]). constructor.
Qed.

End link.
End ReplicationLink.

Module ReplicationClaims.
Import Replication ReplicationStream ReplicationLink.

Section claims.
Context {DS : Type} (dump : DS -> bytes) `{host : !ClientHost DS}.

(** Since PSYNC, everything queued for a replica is as [phase] says, unless a WAIT
    was parked on its connection. *)
Lemma answered options replid0 d0 (n0 n : Node DS) id c0 c replid off now fork_ok :
  rtc (step dump) (make options replid0 d0) n0 ->
  conns_ n0 !! id = Some c0 -> ordinary c0 ->
  (exists c1, conns_ (psync_command id replid off now fork_ok n0) !! id = Some c1 /\
              repl_state c1 <> kNone) ->
  rtc (step dump) (psync_command id replid off now fork_ok n0) n ->
  wrapped n = false -> conns_ n !! id = Some c -> doomed c = false -> disturbed c = false ->
  phase dump (view [] n) (total c0) off c /\
  0 <= stream_start n /\ stream_start n + zlen (stream n) < 2 ^ 64.
Proof.
  intros H0 E0 Ho Hatt Hsteps Hw E Hc Hq.
  pose proof (ok_steps dump None _ _ H0 (ok_make dump None options replid0 d0 eq_refl)) as Hi.
  pose proof (inv_psync_ordinary dump [] None (Some (id, total c0, off)) id c0 replid off now fork_ok n0
    Hi E0 Ho (or_intror (conj eq_refl eq_refl)) (or_intror Hatt)) as Hp.
  pose proof (ok_steps dump _ _ _ Hsteps Hp Hw) as Hg.
  split; [|apply (good_ring _ _ _ Hg)]. apply (ok_watched _ _ _ _ _ (good_clients _ _ _ Hg _ _ E)); [done|].
  unfold lost. by rewrite Hc, Hq.
Qed.

End claims.

(** ** A master, a replica and what passes between them *)

Lemma demo_queues id (n : Node bytes) c :
  conns_ (on_client id queue_write n) !! id = Some c -> closing c = false -> pending_write c = true.
Proof. rewrite on_client_lookup. by intros (c0 & _ & ->)%fmap_Some. Qed.

#[local] Instance demo_host : ClientHost bytes :=
  {| process_buffered := fun id n => on_client id queue_write n;
     process_buffered_steps := fun id n => rtc_once _ _ (step_queue id n);
     process_buffered_queues := demo_queues |}.

Definition demo_dump (d : bytes) : bytes := d.
Definition demo_id : bytes := &"00112233445566778899aabbccddeeff00112233".
Definition demo_options : Options :=
  {| listening_port := 6379; backlog_size := 64; timeout := 60000000000; ping_period := 10000000000 |}.

Definition demo_m0 : Node bytes := make demo_options demo_id &"SNAPSHOT".
Definition demo_m1 : Node bytes := accept &"10.0.0.2" demo_m0.
Definition demo_m2 : Node bytes :=
  on_client 1 (fun c => c <| out := out c ++ &"+PONG" ++ crlf ++ &"+OK" ++ crlf ++ &"+OK" ++ crlf |>)
    demo_m1.
Definition demo_m3 : Node bytes := psync_command 1 &"?" (-1) 0 true demo_m2.
Definition demo_m4 : Node bytes := cron 5000000000 false true demo_m3.
Definition demo_m5 : Node bytes := propagate [&"DEL"; &"k"] (demo_m4 <| store_ := &"SNAP" |>).
Definition demo_m6 : Node bytes := child_exits demo_dump true (fun _ => true) demo_m5.
Definition demo_m7 : Node bytes := flush_ready 1 (file_bytes 5) 20 false true 0 demo_m6.
Definition demo_m8 : Node bytes := flush_ready 1 (file_bytes 5) 20 false true 0 demo_m7.
Definition demo_m9 : Node bytes := flush_ready 1 (file_bytes 5) 20 false true 0 demo_m8.
Definition demo_m10 : Node bytes := propagate [&"DEL"; &"j"] (demo_m9 <| store_ := &"S" |>).

Lemma demo_before : rtc (step demo_dump) demo_m0 demo_m2.
Proof.
  apply (rtc_l _ _ demo_m1); [apply step_accept|]. apply rtc_once, (step_command _ _ 1).
  apply (step_reply 1 _ (new_client <| addr := &"10.0.0.2" |>)); [by vm_compute|done].
Qed.

Lemma demo_after : rtc (step demo_dump) demo_m3 demo_m10.
Proof.
  apply (rtc_l _ _ demo_m4); [apply (step_cron _ _ 5000000000 false true)|].
  apply (rtc_l _ _ demo_m5); [apply (step_expire _ _ [&"DEL"; &"k"] &"SNAP")|].
  apply (rtc_l _ _ demo_m6); [apply (step_child_exits _ _ true (fun _ => true))|].
  apply (rtc_l _ _ demo_m7); [apply (step_flush _ _ 1 (file_bytes 5) 20 false true 0)|].
  apply (rtc_l _ _ demo_m8); [apply (step_flush _ _ 1 (file_bytes 5) 20 false true 0)|].
  apply (rtc_l _ _ demo_m9); [apply (step_flush _ _ 1 (file_bytes 5) 20 false true 0)|].
  apply rtc_once, (step_expire _ _ [&"DEL"; &"j"] &"S").
Qed.

Definition demo_client (n : Node bytes) : Client := default new_client (conns_ n !! 1).

(** C4: what a replica is sent is exact.  From the PSYNC that attaches it on,
    through any sequence of commands, snapshots, socket writes, timer ticks and
    role changes, everything queued for a connection that has not been closed is
    what it had before, then its answer, then the stream from the announced
    offset: the snapshot is the dataset frozen when that offset was announced,
    and no byte of the stream is missing, repeated, or sent ahead of it.  This is
    so unless the replica itself sent a WAIT that was parked ([disturbed]): the
    answer to that is written into the stream. *)
Theorem replica_gets_exact_stream {DS : Type} (dump : DS -> bytes) (host : ClientHost DS)
    options replid0 d0 (n0 n : Node DS) id c0 c replid off now fork_ok
    (Hreach : rtc (step dump) (make options replid0 d0) n0)
    (Hclient : conns_ n0 !! id = Some c0) (Hordinary : ordinary c0)
    (Hattached : exists c1, conns_ (psync_command id replid off now fork_ok n0) !! id = Some c1 /\
                            repl_state c1 <> kNone)
    (Hsteps : rtc (step dump) (psync_command id replid off now fork_ok n0) n)
    (Hrange : wrapped n = false) (Hnow : conns_ n !! id = Some c) (Hopen : doomed c = false)
    (Hwait : disturbed c = false) :
  phase dump (view [] n) (total c0) off c.
Proof. by eapply (answered dump options replid0 d0 n0). Qed.

Lemma replica_gets_exact_stream_witness :
  phase demo_dump (view [] demo_m10) (total (demo_client demo_m2)) (-1) (demo_client demo_m10).
Proof.
  apply (replica_gets_exact_stream demo_dump demo_host demo_options demo_id &"SNAPSHOT"
           demo_m2 demo_m10 1 (demo_client demo_m2) (demo_client demo_m10) &"?" (-1) 0 true).
  - exact demo_before.
  - by vm_compute.
  - by vm_compute.
  - exists (demo_client demo_m3). by vm_compute.
  - exact demo_after.
  - by vm_compute.
  - by vm_compute.
  - by vm_compute.
  - by vm_compute.
Defined.

(** C20: no pointer to a connection dangles.  In every reachable state the
    replicas, the clients parked by WAIT, those to be resumed and our master
    are connections that exist; replicas and parked clients are listed once, and
    a parked client is blocked, so none of its commands run; the link is
    connected exactly when there is a master; and a snapshot file is open only
    while it is being sent. *)
Theorem no_dangling_clients {DS : Type} (dump : DS -> bytes) (host : ClientHost DS)
    options replid d (n : Node DS)
    (Hreach : rtc (step dump) (make options replid d) n) (Hrange : wrapped n = false) :
  (forall r, r ∈ replicas_ n -> exists c, conns_ n !! r = Some c /\ repl_state c <> kNone /\
                                          is_master c = false) /\
  NoDup (replicas_ n) /\
  (forall x, x ∈ waiters_ n -> exists c, conns_ n !! w_client x = Some c /\ blocked c = true) /\
  NoDup (map w_client (waiters_ n)) /\
  (forall r, r ∈ to_resume_ n -> is_Some (conns_ n !! r)) /\
  (link_state_ (link n) = kConnected <-> is_Some (master_ (link n))) /\
  (forall m, master_ (link n) = Some m -> exists c, conns_ n !! m = Some c /\ is_master c = true) /\
  (forall id c, conns_ n !! id = Some c -> is_Some (repl_snapshot_fd c) -> repl_state c = kSendBulk).
Proof.
  pose proof (ok_steps dump None _ _ Hreach (ok_make dump None options replid d eq_refl) Hrange) as [].
  cbn in *. rewrite app_nil_r in *. split_and!; try done.
  - intros r Hr. destruct (good_replicas0 r Hr) as [c E].
    pose proof (good_clients0 r c E) as Hok. exists c.
    assert (Hs : repl_state c <> kNone) by by apply (ok_replica _ _ _ _ _ Hok).
    split_and!; [done|done|]. apply not_true_is_false. intros Hm. apply Hs.
    by apply (ok_master _ _ _ _ _ Hok).
  - intros x Hx. assert (Hin : w_client x ∈ map w_client (waiters_ n)) by by apply list_elem_of_fmap_2.
    destruct (good_waiters0 _ Hin) as [c E]. exists c. split; [done|].
    apply (ok_waiter _ _ _ _ _ (good_clients0 _ _ E)). cbn. by rewrite app_nil_r.
  - intros id c E [f Hf]. destruct (ok_bulk _ _ _ _ _ (good_clients0 id c E)); congruence.
Qed.

Lemma no_dangling_clients_witness :
  (forall r, r ∈ replicas_ demo_m10 -> exists c, conns_ demo_m10 !! r = Some c /\
     repl_state c <> kNone /\ is_master c = false) /\ replicas_ demo_m10 = [1].
Proof.
  split; [|by vm_compute].
  apply (no_dangling_clients demo_dump demo_host demo_options demo_id &"SNAPSHOT" demo_m10);
    [|by vm_compute].
  etrans; [exact demo_before|]. eapply rtc_l; [|exact demo_after].
  apply (step_command _ _ 1), (step_psync 1 _ (demo_client demo_m2) &"?" (-1) 0 true); by vm_compute.
Defined.

(** The stream a node has fed, from an offset on. *)
Definition stream_from {DS} (n : Node DS) (off : Z) : bytes :=
  drop (Z.to_nat (off - stream_start n)) (stream n).

(** C5: a resync works end to end.  A replica that asked to continue from its
    own offset (or asked for everything) reads what the master has queued for
    it, cut into reads anywhere (and has sent no WAIT that was parked).  It ends
    up connected under the master's replid, either with its own dataset and offset or with the dataset the
    master froze at the offset it stands at; and what it has still to execute
    is exactly the master's stream from that offset. *)
Theorem resync_end_to_end {DS : Type} (dump : DS -> bytes) (load : DS -> DS) (host : ClientHost DS)
    options replid0 d0 (n0 n : Node DS) id c0 c replid off now fork_ok
    (Hreach : rtc (step dump) (make options replid0 d0) n0)
    (Hclient : conns_ n0 !! id = Some c0) (Hordinary : ordinary c0)
    (Hreplies : total c0 = &"+PONG" ++ crlf ++ &"+OK" ++ crlf ++ &"+OK" ++ crlf)
    (Hattached : exists c1, conns_ (psync_command id replid off now fork_ok n0) !! id = Some c1 /\
                            repl_state c1 <> kNone)
    (Hsteps : rtc (step dump) (psync_command id replid off now fork_ok n0) n)
    (Hrange : wrapped n = false) (Hnow : conns_ n !! id = Some c) (Hopen : doomed c = false)
    (Hwait : disturbed c = false) (Honline : repl_state c = kOnline) (Hreplid : replid_ok (replid_ n))
    (r : Node DS) (io : LinkIo) chunks
    (Hlink : link_state_ (link r) = kHandshake /\ handshake_replies_ (link r) = 0 /\
             link_buf_ (link r) = [])
    (Hasked : off = offset r \/ off = -1)
    (Hio : io_open io = true /\ io_write io = true /\ io_fsync io = true /\ io_watch io = true)
    (Hload : forall o d, (o, d) ∈ forks n ->
       zlen (dump d) <= size_max /\ io_replace io (dump d) = (true, load d))
    (Harrived : concat chunks = total c) (Hreads : Forall read_ok chunks) :
  exists i r' m off' d' pending,
    read_all io (take i chunks) r = process_buffered m r' /\
    follows r' m (replid_ n) off' d' pending /\
    pending ++ concat (drop i chunks) = stream_from n off' /\
    stream_start n <= off' <= stream_start n + zlen (stream n) /\
    ((off' = offset r /\ d' = store_ r) \/ (exists d, (off', d) ∈ forks n /\ d' = load d)).
Proof.
  pose proof (answered dump options replid0 d0 n0 n id c0 c replid off now fork_ok Hreach Hclient
    Hordinary Hattached Hsteps Hrange Hnow Hopen Hwait) as (Hp & Hz & Hmax).
  destruct Hlink as (L1 & L2 & L3).
  destruct Hp as [| | |k k' o d _ Hfork Hcov Ht _ _|_ Hcov Ht _ _]; try congruence.
  - destruct (Hload o d Hfork) as [Hsz Hd].
    destruct (read_answer io r (replid_ n) (stream_from n o) (Full k k' o (dump d)) (load d))
      with (chunks := chunks) as [i (r' & pending & E & Hf & Hrest)]; try done.
    + unfold covers, size_max in *. cbn in Hcov. split_and!; [lia..|done|done].
    + rewrite Harrived, Ht, Hreplies. unfold preamble, bulk, keepalives, psync_line, after_psync.
      rewrite full_resync_reply_line. unfold size_line. rewrite <-!app_assoc. done.
    + exists i, r', (next_client_id_ r), o, (load d), pending. split_and!; try done; eauto; apply Hcov.
  - destruct (read_answer io r (replid_ n) (stream_from n off) Continue (store_ r))
      with (chunks := chunks) as [i (r' & pending & E & Hf & Hrest)]; try done.
    + rewrite Harrived, Ht, Hreplies. unfold keepalives, psync_line, after_psync.
      rewrite continue_reply_line. rewrite <-!app_assoc. done.
    + destruct Hcov as [Hlo Hhi]. cbn in Hlo, Hhi. destruct Hasked as [Hoff|Hoff]; [|lia].
      exists i, r', (next_client_id_ r), off, (store_ r), pending.
      split_and!; try done; [|by left]. rewrite Hoff. exact Hf.
Qed.

Definition demo_io : LinkIo :=
  {| io_now := 1; io_path := &"temp-repl-1.snap"; io_open := true; io_write := true;
     io_fsync := true; io_replace := fun f => (true, f); io_watch := true |}.
Definition demo_r0 : Node bytes :=
  make demo_options &"ffeeddccbbaa99887766554433221100ffeeddcc" &"OLD".
Definition demo_r1 : Node bytes := cron 0 true true (replicaof &"10.0.0.1" 6379 0 demo_r0).
Definition demo_r : Node bytes := (on_link_ready false 1000 read_again demo_io demo_r1).2.
Definition demo_chunks : list bytes :=
  let t := total (demo_client demo_m10) in [take 30 t; take 50 (drop 30 t); drop 80 t].

Lemma resync_end_to_end_witness :
  exists i r' m off' d' pending,
    read_all demo_io (take i demo_chunks) demo_r = process_buffered m r' /\
    follows r' m (replid_ demo_m10) off' d' pending /\
    pending ++ concat (drop i demo_chunks) = stream_from demo_m10 off' /\
    stream_start demo_m10 <= off' <= stream_start demo_m10 + zlen (stream demo_m10) /\
    ((off' = offset demo_r /\ d' = store_ demo_r) \/
     (exists d, (off', d) ∈ forks demo_m10 /\ d' = d)).
Proof.
  apply (resync_end_to_end demo_dump (fun d => d) demo_host demo_options demo_id &"SNAPSHOT"
           demo_m2 demo_m10 1 (demo_client demo_m2) (demo_client demo_m10) &"?" (-1) 0 true)
    with (io := demo_io).
  - exact demo_before.
  - by vm_compute.
  - by vm_compute.
  - by vm_compute.
  - exists (demo_client demo_m3). by vm_compute.
  - exact demo_after.
  - by vm_compute.
  - by vm_compute.
  - by vm_compute.
  - by vm_compute.
  - by vm_compute.
  - split; [by vm_compute|]. apply Aof.plain_const. by vm_compute.
  - by vm_compute.
  - by right.
  - done.
  - intros o d. assert (E : forks demo_m10 = [(0, &"SNAPSHOT")]) by by vm_compute.
    rewrite E. intros [= -> ->]%list_elem_of_singleton. split; [by vm_compute|reflexivity].
  - by vm_compute.
  - repeat constructor; by vm_compute.
Defined.

(** C36: a replica that fails to load a snapshot forgets that it lost its data.
    [replace_dataset] has cleared or replaced the store when it fails, but
    replid, offset and the flag that lets them be offered to a master stay: on
    the next connect the replica still asks to continue the history its dataset
    no longer holds. *)
Theorem failed_load_keeps_history {DS : Type} (host : ClientHost DS) (io : LinkIo) (n : Node DS) file d
    (Hfile : transfer_fd_ (link n) = Some file) (Hsync : io_fsync io = true)
    (Hfails : io_replace io file = (false, d)) :
  let n' := finish_transfer io n in
  store_ n' = d /\ replid_ n' = replid_ n /\ offset n' = offset n /\
  link_state_ (link n') = (if is_replica n then kConnect else kNoLink) /\ handshake n' = handshake n.
Proof.
  cbv zeta. unfold finish_transfer. rewrite Hfile, Hsync. change (default [] (Some file)) with file.
  cbn [negb]. cbv zeta. set (n1 := on_link _ n).
  assert (E1 : replid_ n1 = replid_ n /\ offset n1 = offset n /\ is_replica n1 = is_replica n /\
    handshake n1 = handshake n) by done.
  destruct E1 as (<- & <- & <- & <-). clearbody n1.
  destruct (replace_dataset file io (disconnect_replicas n1)) as [ok n2] eqn:E.
  apply replace_spec in E as [Hk Hd]. rewrite Hfails in Hd. injection Hd as <- ->. cbn [negb].
  assert (E2 : replid_ n1 = replid_ n2 /\ offset n1 = offset n2 /\ is_replica n1 = is_replica n2 /\
    handshake n1 = handshake n2).
  { destruct Hk as [K1 K2 K3 K4 _ K6]. unfold is_replica, handshake, offset.
    by rewrite K1, K2, K3, K4, K6. }
  destruct E2 as (-> & -> & -> & ->). clear Hk.
  set (n3 := on_link _ n2).
  assert (E3 : replid_ n3 = replid_ n2 /\ offset n3 = offset n2 /\ is_replica n3 = is_replica n2 /\
    handshake n3 = handshake n2 /\ store_ n3 = store_ n2) by done.
  destruct E3 as (<- & <- & <- & <- & <-). clearbody n3.
  unfold abort_link, close_link. destruct (master_ (link n3)); done.
Qed.

(** A replica of one master, told to follow another, receives a bad snapshot. *)
Definition demo_bad_io : LinkIo :=
  {| io_now := 1; io_path := &"temp-repl-1.snap"; io_open := true; io_write := true;
     io_fsync := true; io_replace := fun _ => (false, [] : bytes); io_watch := true |}.
Definition demo_transfer : Node bytes :=
  on_link (fun l => l <| link_state_ := kTransfer |> <| transfer_fd_ := Some &"garbage" |>)
    (demo_r <| replid_shared_ := true |>).

Lemma failed_load_keeps_history_witness :
  let n' := finish_transfer demo_bad_io demo_transfer in
  store_ n' = [] /\ replid_ n' = replid_ demo_transfer /\ offset n' = offset demo_transfer /\
  link_state_ (link n') = (if is_replica demo_transfer then kConnect else kNoLink) /\
  handshake n' = handshake demo_transfer.
Proof.
  apply (failed_load_keeps_history demo_host demo_bad_io demo_transfer &"garbage" []); by vm_compute.
Defined.

(** What the last part of [replicaof] leaves alone. *)
Definition role {DS} (n : Node DS) : bool * bool := (is_replica n, passive_expiry_ n).

Lemma released_role {DS} (ws : list Waiter) : forall n : Node DS,
  role (foldl (fun n x =>
    let n := on_client (w_client x) (fun c =>
               c <| out := Reply.error (out c) kUnblocked |> <| blocked := false |>) n in
    n <| to_resume_ := to_resume_ n ++ [w_client x] |>) n ws) = role n.
Proof. induction ws as [|x ws IH]; intros n; [done|]. cbn [foldl]. by rewrite IH. Qed.

Lemma waiters_role {DS} ws (n : Node DS) : role (n <| waiters_ := ws |>) = role n.
Proof. done. Qed.

Lemma disconnect_role {DS} (n : Node DS) : role (disconnect_replicas n) = role n.
Proof. by destruct (disconnect_conns n) as [m ->]. Qed.

Lemma replicaof_role {DS} (n : Node DS) h port now :
  port <> master_port_ (link n) -> role (replicaof h port now n) = (negb (beq h []), true).
Proof.
  intros Hp. unfold replicaof. rewrite (proj2 (Z.eqb_neq _ _) Hp), andb_false_r. cbv zeta.
  by rewrite released_role, waiters_role, disconnect_role.
Qed.

(** REPLICAOF with an empty host name wedges expiry.  The node counts as a
    master, so REPLICAOF NO ONE does nothing, but its store has been told that
    a master decides when keys expire, and stays told. *)
Theorem empty_host_stops_expiry {DS : Type} (n : Node DS) port now fresh
    (Hport : port <> master_port_ (link n)) :
  let n' := replicaof [] port now n in
  is_replica n' = false /\ passive_expiry_ n' = true /\ replicaof_no_one fresh n' = n'.
Proof.
  cbv zeta. injection (replicaof_role n [] port now Hport) as H1 H2. split_and!; [done|done|].
  unfold replicaof_no_one. by rewrite H1.
Qed.

Lemma empty_host_stops_expiry_witness :
  let n' := replicaof [] 6379 0 demo_m0 in
  is_replica n' = false /\ passive_expiry_ n' = true /\ replicaof_no_one demo_id n' = n'.
Proof. apply (empty_host_stops_expiry demo_m0 6379 0 demo_id). by vm_compute. Defined.

End ReplicationClaims.
