(* ===== verification/Server.v ===== *)
(** * The event loop (src/src/server.cpp)

    How bytes read from a connection become commands, and one iteration of the
    loop around that: accepting, reading, the timer, the hooks, writing and
    closing.  The dispatcher is the class [Commands]: what it may do to a node
    is an [effect].  Running a connection's input is then what replication asks
    of its host ([ClientHost]).

    The theorems: a connection's input is run until nothing more can run; no
    queued byte is forgotten; a reply can leave before the log is written. *)

From stdpp Require Import relations.
From Stdlib Require Import Lia.
From S2P Require Import Prelude Resp Backlog Replication ReplicationStream.

Module Server.
Import Replication.

Definition kMaxQueryBufferBytes : Z := 64 * 1024 * 1024.
Definition kReadChunkSize : Z := 16 * 1024.

Section commands.
Context {DS : Type}.
Abbreviation node := (Node DS).

(** ** What the dispatcher does for a connection *)

(** Parts of a command that leave the connection an ordinary one. *)
Inductive side_effect (id : Z) : node -> node -> Prop :=
  | side_execute n writes d : side_effect id n (execute writes d n)
  | side_listening_port n port :
      side_effect id n (on_client id (fun c => c <| repl_listening_port := port |>) n)
  | side_ack n off now : 0 <= off -> side_effect id n (replconf_ack id off now n)
  | side_getack n : side_effect id n (replconf_getack n)
  | side_replicaof n host port now : side_effect id n (replicaof host port now n)
  | side_no_one n fresh : side_effect id n (replicaof_no_one fresh n)
  | side_child n k :
      child_ n = no_child -> k = rewrite_child \/ k = snapshot_child (store_ n) ->
      side_effect id n (n <| child_ := k |>)
  | side_pause_writes n b : side_effect id n (set_writes_paused b n)
  | side_pause_stream n b : side_effect id n (set_stream_paused b n)
  | side_expiry n b : side_effect id n (n <| passive_expiry_ := b |>).

(** A command: its reply and the node after it. *)
Inductive effect (id : Z) (n : node) : bytes -> node -> Prop :=
  | effect_other reply n' : rtc (side_effect id) n n' -> effect id n reply n'
  | effect_psync replid off now fork_ok :
      effect id n (psync id replid off now fork_ok n).1 (psync id replid off now fork_ok n).2
  | effect_wait numreplicas timeout_ms now :
      effect id n (wait id numreplicas timeout_ms now n).1.1 (wait id numreplicas timeout_ms now n).2.

End commands.

(** [CommandDispatcher] as the server uses it. *)
Class Commands (DS : Type) := {
  dispatch : Z -> Args -> Node DS -> bytes * Node DS;
  is_write : Args -> bool;
  dispatch_effect : forall id argv n, effect id n (dispatch id argv n).1 (dispatch id argv n).2;
}.

Section input.
Context {DS : Type} `{Commands DS}.
Abbreviation node := (Node DS).

(** ** Running a connection's input *)

(** One complete command; [false]: the loop stops behind it. *)
Definition run_command (id : Z) (argv : Args) (raw : bytes) (n : node) : bool * node :=
  match conns_ n !! id with
  | None => (false, n)
  | Some c =>
      if is_master c then (true, master_command_applied raw (dispatch id argv n).2)
      else if negb (bool_decide (repl_state c = kNone)) then (true, (dispatch id argv n).2)
      else if writes_paused_ n && is_write argv then
        (false, on_client id (fun c => c <| held_command := Some argv |>) n
                  <| held_clients_ := held_clients_ n ++ [id] |>)
      else
        let before := offset n in
        let '(reply, n) := dispatch id argv n in
        let n := on_client id (fun c => c <| out := out c ++ reply |>) n in
        (true, if negb (offset n =? before) then on_client id (fun c => c <| woff := offset n |>) n
               else n)
  end.

Definition kErrProtocol : bytes := &"ERR Protocol error".
Definition kErrQueryBuffer : bytes := &"ERR Protocol error: query buffer limit exceeded".

(** The loop of [process_input]; [false]: it returned from the function.  Every
    round but the one for a held command takes bytes out of the buffer.  A
    connection to a master never holds a command, so [raw] is not read there. *)
Fixpoint process_loop (fuel : nat) (id : Z) (n : node) : bool * node :=
  match fuel with
  | O => (true, n)
  | S fuel =>
      let continue '(go, n) := if go : bool then process_loop fuel id n else (true, n) in
      match conns_ n !! id with
      | None => (true, n)
      | Some c =>
          if blocked c || doomed c then (true, n)
          else match held_command c with
          | Some argv =>
              if writes_paused_ n then (true, n)
              else continue (run_command id argv []
                               (on_client id (fun c => c <| held_command := None |>) n))
          | None =>
              let '(result, raw, p) := Parser.try_parse_command {| Parser.buffer_ := input c |} in
              let n := on_client id (fun c => c <| input := Parser.buffer_ p |>) n in
              match Parser.status result with
              | Parser.kIncomplete => (true, n)
              | Parser.kProtocolError =>
                  if is_master c then (false, close_client id n)
                  else (true, on_client id (fun c =>
                          c <| out := Reply.error (out c) kErrProtocol |>
                            <| close_after_flush := true |>) n)
              | Parser.kComplete => continue (run_command id (Parser.cmd result) raw n)
              end
          end
      end
  end.

Definition check_query_buffer (id : Z) (n : node) : node :=
  match conns_ n !! id with
  | Some c =>
      if negb (close_after_flush c) && (kMaxQueryBufferBytes <? zlen (input c)) then
        on_client id (fun c => c <| out := Reply.error (out c) kErrQueryBuffer |>
                                 <| close_after_flush := true |>) n
      else n
  | None => n
  end.

Definition process_input (id : Z) (n : node) : node :=
  match conns_ n !! id with
  | None => n
  | Some c =>
      let '(fell_through, n) := process_loop (2 + length (input c)) id n in
      if negb fell_through then n else on_client id queue_write (check_query_buffer id n)
  end.

Definition process_buffered (id : Z) (n : node) : node :=
  match conns_ n !! id with
  | Some c => if closing c then n else process_input id n
  | None => n
  end.

Definition handle_readable (id : Z) (r : ReadResult) (now : Z) (n : node) : node :=
  match r with
  | read_eof | read_error => close_client id n
  | read_again => n
  | read_data data =>
      match conns_ n !! id with
      | None => n
      | Some c =>
          if close_after_flush c then n
          else process_input id (on_client id (fun c =>
                 c <| last_interaction := now |>
                   <| input := input c ++ take (Z.to_nat kReadChunkSize) data |>) n)
      end
  end.

End input.

(** ** How operations change the connections *)

Section evolution.
Context {DS : Type}.
Abbreviation node := (Node DS).

(** Bytes are queued, or a snapshot is being sent, and nothing will make the
    loop come back to the connection. *)
Definition stuck (c : Client) : bool :=
  negb (closing c) && (negb (beq (out c) []) || bool_decide (repl_state c = kSendBulk))
  && negb (pending_write c) && negb (write_interest c).

Context (P : Client -> Client -> Prop) `{!PreOrder P}.

(** Connections change by [P], none comes or goes, and none gets stuck but
    those in [exc] and those to be resumed. *)
Definition changes (exc resume : list Z) (r : Z) (c c' : Client) : Prop :=
  P c c' /\ (stuck c' = true -> stuck c = true \/ r ∈ resume \/ r ∈ exc).

Record evolves (exc : list Z) (n n' : node) : Prop := {
  evolves_resume : to_resume_ n ⊆ to_resume_ n';
  evolves_conns : forall r,
    match conns_ n !! r, conns_ n' !! r with
    | Some c, Some c' => changes exc (to_resume_ n') r c c'
    | None, None => True
    | _, _ => False
    end;
}.

Lemma changes_refl exc resume r c : changes exc resume r c c.
Proof. split; [done|by left]. Qed.

#[global] Instance evolves_preorder exc : PreOrder (evolves exc).
Proof.
  split.
  - intros n. split; [done|]. intros r. case_match; [apply changes_refl|done].
  - intros n1 n2 n3 [R12 H12] [R23 H23]. split; [set_solver|]. intros r.
    specialize (H12 r). specialize (H23 r).
    destruct (conns_ n1 !! r) as [c1|], (conns_ n2 !! r) as [c2|], (conns_ n3 !! r) as [c3|]; try done.
    destruct H12 as [P12 S12], H23 as [P23 S23]. split; [by etrans|].
    intros [Hs|Hr]%S23; [|by right]. apply S12 in Hs as [?|[?|?]]; auto.
Qed.

(** Nothing about connections changed. *)
Lemma evolves_same exc (n n' : node) :
  conns_ n' = conns_ n -> to_resume_ n' = to_resume_ n -> evolves exc n n'.
Proof.
  intros E1 E2. split; [by rewrite E2|]. intros r. rewrite E1. case_match; [apply changes_refl|done].
Qed.

Lemma evolves_client exc r f (n : node) :
  (forall c, conns_ n !! r = Some c -> changes exc (to_resume_ n) r c (f c)) ->
  evolves exc n (on_client r f n).
Proof.
  intros Hf. split; [done|]. intros i. unfold on_client. cbn [update conns_ to_resume_].
  rewrite lookup_alter. case_decide as Hi; [subst i|case_match; [apply changes_refl|done]].
  destruct (conns_ n !! r) as [c|]; cbn; auto.
Qed.

Lemma evolves_fold {A} exc (g : node -> A -> node) l :
  (forall n a, evolves exc n (g n a)) -> forall n, evolves exc n (foldl g n l).
Proof.
  intros Hg. induction l as [|a l IH]; intros n; cbn [foldl]; [done|]. etrans; [apply Hg|apply IH].
Qed.

(** A change that leaves no connection stuck that was not. *)
Definition tidy (f : Client -> Client) : Prop :=
  forall c, P c (f c) /\ (stuck (f c) = true -> stuck c = true).

Lemma tidy_changes f exc resume r c : tidy f -> changes exc resume r c (f c).
Proof. intros Hf. destruct (Hf c). split; auto. Qed.

Lemma evolves_tidy exc r f (n : node) : tidy f -> evolves exc n (on_client r f n).
Proof. intros Hf. apply evolves_client. intros c _. by apply tidy_changes. Qed.

Lemma evolves_replicas exc f (n : node) : tidy f -> evolves exc n (on_replicas f n).
Proof. intros Hf. apply evolves_fold. intros n' r. by apply evolves_tidy. Qed.

End evolution.

Lemma evolves_weaken {DS} (P Q : Client -> Client -> Prop) exc exc' (n n' : Node DS) :
  (forall c c', P c c' -> Q c c') -> exc ⊆ exc' -> evolves P exc n n' -> evolves Q exc' n n'.
Proof.
  intros Hp Hx [R H]. split; [done|]. intros r. specialize (H r). repeat case_match; try done.
  destruct H as [Hc Hs]. split; [auto|]. intros [?|[?|?]]%Hs; set_solver.
Qed.

(** What stays of a connection whose commands run, and what stays of every
    connection when a command is not about synchronisation. *)
Definition same_input (c c' : Client) : Prop :=
  input c' = input c /\ held_command c' = held_command c.
Definition same_role (c c' : Client) : Prop :=
  same_input c c' /\ repl_state c' = repl_state c /\ is_master c' = is_master c.

#[global] Instance same_input_preorder : PreOrder same_input.
Proof. split; [done|]. intros c1 c2 c3 [? ?] [? ?]. split; congruence. Qed.
#[global] Instance same_role_preorder : PreOrder same_role.
Proof.
  split; [done|]. intros c1 c2 c3 (? & ? & ?) (? & ? & ?). split_and!; [by etrans|congruence..].
Qed.

Section effects.
Context {DS : Type}.
Abbreviation node := (Node DS).

Lemma closed_not_stuck c : closing c = true -> stuck c = false.
Proof. intros H. unfold stuck. by rewrite H. Qed.

Lemma queued_not_stuck c : pending_write c = true -> stuck c = false.
Proof. intros H. unfold stuck. by rewrite H, andb_false_r. Qed.

Lemma tidy_close : tidy same_role (fun c => c <| closing := true |>).
Proof. intros c. split; [done|]. by rewrite closed_not_stuck. Qed.

Lemma tidy_feed data : tidy same_role (feed_client data).
Proof.
  intros c. unfold feed_client. destruct (closing c) eqn:Hc; [done|].
  destruct (repl_state c) eqn:Hs; try done; case_match; (split; [done|]).
  1, 3, 5: by rewrite closed_not_stuck.
  3: by rewrite queued_not_stuck.
  all: done.
Qed.

Lemma evolves_feed exc data (n : node) : evolves same_role exc n (feed data n).
Proof.
  unfold feed. etrans; [|apply (evolves_replicas same_role), tidy_feed].
  by apply (evolves_same same_role).
Qed.

Lemma evolves_propagate exc argv (n : node) : evolves same_role exc n (propagate argv n).
Proof. unfold propagate. case_match; [done|apply evolves_feed]. Qed.

Lemma evolves_execute exc writes d (n : node) : evolves same_role exc n (execute writes d n).
Proof.
  unfold execute. etrans; [|apply (evolves_fold same_role); intros; apply evolves_propagate]. by apply (evolves_same same_role).
Qed.

Lemma evolves_send_ack exc (n : node) : evolves same_role exc n (send_ack n).
Proof.
  unfold send_ack. case_match; [|done]. apply (evolves_tidy same_role). intros c. split; [done|].
  by rewrite queued_not_stuck.
Qed.

Lemma evolves_close_link exc (n : node) : evolves same_role exc n (close_link n).
Proof.
  unfold close_link. set (n1 := match master_ (link n) with Some _ => _ | None => _ end).
  assert (H1 : evolves same_role exc n n1).
  { unfold n1. case_match; [apply (evolves_tidy same_role), tidy_close|done]. }
  clearbody n1. etrans; [exact H1|]. by apply (evolves_same same_role).
Qed.

Lemma evolves_disconnect exc (n : node) : evolves same_role exc n (disconnect_replicas n).
Proof. apply (evolves_replicas same_role), tidy_close. Qed.

(** A client released from WAIT by a change of role. *)
Lemma evolves_release exc (n : node) r :
  evolves same_role exc n
    (let n := on_client r (fun c =>
                c <| out := Reply.error (out c) kUnblocked |> <| blocked := false |>) n in
     n <| to_resume_ := to_resume_ n ++ [r] |>).
Proof.
  cbv zeta. split; [cbn; set_solver|]. intros i. unfold on_client. cbn [update conns_ to_resume_].
  rewrite lookup_alter. case_decide as Hi; [subst i|case_match; [apply changes_refl; apply _|done]].
  destruct (conns_ n !! r) as [c|]; [|done]. split; [done|]. right. left. set_solver.
Qed.

Lemma evolves_replicaof exc host port now (n : node) :
  evolves same_role exc n (replicaof host port now n).
Proof.
  unfold replicaof. case_match; [done|]. set (n1 := close_link n).
  assert (H1 : evolves same_role exc n n1) by apply evolves_close_link. clearbody n1. cbv zeta.
  set (n2 := update passive_expiry_ _ _).
  assert (H2 : evolves same_role exc n1 n2) by by apply (evolves_same same_role). clearbody n2.
  set (n3 := disconnect_replicas n2).
  assert (H3 : evolves same_role exc n2 n3) by apply evolves_disconnect. clearbody n3.
  etrans; [exact H1|]. etrans; [exact H2|]. etrans; [exact H3|].
  etrans; [|apply (evolves_fold same_role exc (fun n w => _))].
  - by apply (evolves_same same_role).
  - intros n' x. apply evolves_release.
Qed.

Lemma evolves_no_one exc fresh (n : node) : evolves same_role exc n (replicaof_no_one fresh n).
Proof.
  unfold replicaof_no_one. case_match; [done|]. set (n1 := close_link n).
  assert (H1 : evolves same_role exc n n1) by apply evolves_close_link. clearbody n1. cbv zeta.
  etrans; [exact H1|]. etrans; [|apply evolves_disconnect]. by apply (evolves_same same_role).
Qed.

Lemma evolves_side exc id (n n' : node) : side_effect id n n' -> evolves same_role exc n n'.
Proof.
  destruct 1.
  - apply evolves_execute.
  - apply (evolves_tidy same_role). by intros c.
  - apply (evolves_tidy same_role). intros c. case_match; [done|]. by split.
  - unfold replconf_getack. case_match; [apply evolves_send_ack|done].
  - apply evolves_replicaof.
  - apply evolves_no_one.
  - by apply (evolves_same same_role).
  - apply (evolves_same same_role); unfold set_writes_paused; by case_match.
  - by apply (evolves_same same_role).
  - by apply (evolves_same same_role).
Qed.

Lemma evolves_sides exc id (n n' : node) : rtc (side_effect id) n n' -> evolves same_role exc n n'.
Proof. induction 1 as [|n1 n2 n3 H12 _ IH]; [done|]. etrans; [by eapply evolves_side|done]. Qed.

End effects.

(** ** Commands that change a connection's role *)

Section dispatched.
Context {DS : Type}.
Abbreviation node := (Node DS).

Lemma evolves_role_input exc (n n' : node) :
  evolves same_role exc n n' -> evolves same_input exc n n'.
Proof. apply evolves_weaken; [|done]. by intros c c' [? _]. Qed.

(** The connection that runs the command may be left with a reply to send. *)
Lemma evolves_own id f (n : node) :
  (forall c, same_input c (f c)) -> evolves same_input [id] n (on_client id f n).
Proof.
  intros Hf. apply (evolves_client same_input). intros c _. split; [done|]. set_solver.
Qed.

Lemma evolves_start_snapshot exc fork_ok (n : node) :
  evolves same_input exc n (start_snapshot_for_replicas fork_ok n).
Proof.
  unfold start_snapshot_for_replicas. case_match; [done|]. case_match.
  - apply (evolves_replicas same_input). intros c. case_match; [|done]. split; [done|].
    by rewrite closed_not_stuck.
  - set (n1 := update forks _ _).
    assert (H1 : evolves same_input exc n n1) by by apply (evolves_same same_input).
    etrans; [exact H1|]. clearbody n1. cbv zeta. set (reply := full_resync_reply _ _).
    etrans; [apply (evolves_replicas same_input)|by apply (evolves_same same_input)].
    intros c. destruct (waits_start c); [|done]. split; [done|]. by rewrite queued_not_stuck.
Qed.

Lemma evolves_psync id replid off now fork_ok (n : node) :
  evolves same_input [id] n (psync id replid off now fork_ok n).2.
Proof.
  unfold psync. destruct (conns_ n !! id); [|done]. case_match; [done|]. case_match; [done|].
  cbv zeta. set (n1 := update stream_started_ _ _).
  assert (H1 : evolves same_input [id] n n1).
  { etrans; [apply (evolves_own id (fun c => c <| repl_ack_time := now |>)); done|].
    by apply (evolves_same same_input). }
  clearbody n1. etrans; [exact H1|]. clear H1.
  destruct (try_partial_resync id replid off n1) as [[reply n']|] eqn:E; cbn [snd].
  - apply ReplicationStream.try_partial_spec in E as (_ & _ & ->).
    etrans; [apply (evolves_own id (fun c => c <| repl_state := kOnline |> <| repl_ack_offset := off |>));
      done|]. by apply (evolves_same same_input).
  - etrans; [|apply evolves_start_snapshot].
    etrans; [apply (evolves_own id (fun c => c <| repl_state := kWaitBgsaveStart |>)); done|].
    apply (evolves_same same_input); by case_match.
Qed.

Lemma evolves_wait id numreplicas timeout_ms now (n : node) :
  evolves same_input [id] n (wait id numreplicas timeout_ms now n).2.
Proof.
  unfold wait. case_match; [done|]. destruct (conns_ n !! id); [|done]. cbv zeta.
  case_match; [done|]. cbn [snd]. set (n1 := update waiters_ _ _).
  assert (H1 : evolves same_input [id] n n1) by by apply (evolves_same same_input).
  clearbody n1. etrans; [exact H1|].
  set (f := fun c => c <| blocked := true |> <| disturbed := _ |>).
  etrans; [by apply (evolves_own id f)|]. by apply (evolves_same same_input).
Qed.

Lemma evolves_effect id (n n' : node) reply : effect id n reply n' -> evolves same_input [id] n n'.
Proof.
  destruct 1; [|apply evolves_psync|apply evolves_wait].
  by eapply evolves_role_input, evolves_sides.
Qed.

End dispatched.

(** ** The event loop keeps its promise to replication *)

Section host.
Context {DS : Type} `{cmds : Commands DS}.
Abbreviation node := (Node DS).

Lemma sides_steps id (n n' : node) : rtc (side_effect id) n n' -> rtc (command_step id) n n'.
Proof. intros H. eapply rtc_subrel; [|exact H]. destruct 1; by constructor. Qed.

(** A command whose reply is discarded. *)
Lemma effect_discarded id (n n' : node) c reply :
  conns_ n !! id = Some c -> runs c -> ~ ordinary c -> effect id n reply n' ->
  rtc (command_step id) n n'.
Proof.
  intros E Hr Ho.
  assert (Hb : bool_decide (repl_state c = kNone) && negb (is_master c) = false).
  { destruct (bool_decide_reflect (repl_state c = kNone)), (is_master c) eqn:Hm; try done. by destruct Ho. }
  destruct 1 as [reply n' Hs|replid off now fork_ok|num tmo now].
  - by apply sides_steps.
  - apply rtc_once. pose proof (step_psync id n c replid off now fork_ok E Hr) as Hp.
    unfold psync_command in Hp. rewrite E, Hb in Hp. by destruct (psync _ _ _ _ _ n).
  - apply rtc_once. pose proof (step_wait id n c num tmo now E Hr) as Hp.
    unfold wait_command in Hp. rewrite E, Hb in Hp. by destruct (wait _ _ _ _ n) as [[? ?] ?].
Qed.

(** A command whose reply goes to the client. *)
Lemma effect_replied id (n n' : node) c reply :
  conns_ n !! id = Some c -> ordinary c -> effect id n reply n' ->
  rtc (command_step id) n (on_client id (fun c => c <| out := out c ++ reply |>) n').
Proof.
  intros E Ho. pose proof Ho as (Hs & Hm & Hr).
  destruct 1 as [reply n' Hn|replid off now fork_ok|num tmo now].
  - eapply rtc_r; [by apply sides_steps|].
    apply (evolves_sides []) in Hn as [_ Hc]. specialize (Hc id). rewrite E in Hc.
    destruct (conns_ n' !! id) as [c'|] eqn:E'; [|done]. destruct Hc as [(_ & Hst & _) _].
    apply (step_reply id n' c'); [done|congruence].
  - apply rtc_once. pose proof (step_psync id n c replid off now fork_ok E Hr) as Hp.
    unfold psync_command in Hp. rewrite E, Hs, Hm in Hp. by destruct (psync _ _ _ _ _ n).
  - apply rtc_once. pose proof (step_wait id n c num tmo now E Hr) as Hp.
    unfold wait_command in Hp. rewrite E, Hs, Hm in Hp. by destruct (wait _ _ _ _ n) as [[? ?] ?].
Qed.

Lemma run_command_steps id argv raw (n : node) :
  (forall c, conns_ n !! id = Some c -> runs c) -> rtc (command_step id) n (run_command id argv raw n).2.
Proof.
  intros Hr. unfold run_command. destruct (conns_ n !! id) as [c|] eqn:E; [|done].
  specialize (Hr c eq_refl). pose proof (dispatch_effect id argv n) as He.
  destruct (is_master c) eqn:Hm.
  { eapply rtc_r; [|apply step_applied]. eapply effect_discarded; [done|done| |done].
    intros (_ & ? & _). congruence. }
  case_bool_decide as Hs; cbn [negb].
  2:{ eapply effect_discarded; [done|done| |done]. by intros (? & _). }
  case_match.
  { eapply rtc_r; [apply rtc_once, (step_hold id n (Some argv))|]. apply step_holds. }
  destruct (dispatch id argv n) as [reply n']. cbn [fst snd] in *.
  pose proof (effect_replied id n n' c reply E (conj Hs (conj Hm Hr)) He) as H1.
  cbv zeta. set (n2 := on_client id _ n') in *. clearbody n2. cbn [snd].
  case_match; [|done]. eapply rtc_r; [exact H1|]. apply step_woff.
Qed.

(** Where the loop is when it parses or resumes a command. *)
Lemma runs_intro id f (n : node) c :
  conns_ n !! id = Some c -> blocked c || doomed c = false ->
  (forall c, blocked (f c) = blocked c /\ doomed (f c) = doomed c) ->
  forall c', conns_ (on_client id f n) !! id = Some c' -> runs c'.
Proof.
  intros E [Hb Hd]%orb_false_iff Hf c'. unfold on_client. cbn [update conns_].
  rewrite lookup_alter_eq, E. intros [= <-]. destruct (Hf c). split; congruence.
Qed.

Lemma process_loop_steps fuel id : forall n : node, rtc (command_step id) n (process_loop fuel id n).2.
Proof.
  induction fuel as [|fuel IH]; intros n; [done|]. cbn [process_loop].
  destruct (conns_ n !! id) as [c|] eqn:E; [|done].
  destruct (blocked c || doomed c) eqn:Hr; [done|].
  assert (Hgo : forall f argv raw,
    command_step id n (on_client id f n) ->
    (forall c, blocked (f c) = blocked c /\ doomed (f c) = doomed c) ->
    rtc (command_step id) n
      (let '(go, n) := run_command id argv raw (on_client id f n) in
       if go then process_loop fuel id n else (true, n)).2).
  { intros f argv raw Hf Hk. eapply rtc_l; [exact Hf|].
    pose proof (run_command_steps id argv raw _ (runs_intro id f n c E Hr Hk)) as H1.
    destruct (run_command _ _ _ _) as [[|] n2]; [|done]. etrans; [exact H1|apply IH]. }
  destruct (held_command c) as [argv|].
  { destruct (writes_paused_ n); [done|]. apply Hgo; [apply step_hold|done]. }
  destruct (Parser.try_parse_command _) as [[result raw] p].
  destruct (Parser.status result); [apply Hgo; [apply step_input|done]|apply rtc_once, step_input|].
  eapply rtc_l; [apply step_input|]. destruct (is_master c); apply rtc_once; [apply step_close|].
  apply (step_refuse id _ (&"-" ++ kErrProtocol ++ crlf)).
Qed.

Lemma process_input_steps id (n : node) : rtc (command_step id) n (process_input id n).
Proof.
  unfold process_input. destruct (conns_ n !! id) as [c|]; [|done].
  pose proof (process_loop_steps (2 + length (input c)) id n) as H1.
  destruct (process_loop _ _ _) as [[|] n2]; cbn [negb snd] in *; [|done].
  etrans; [exact H1|]. eapply rtc_r; [|apply step_queue]. unfold check_query_buffer.
  repeat case_match; try done. apply rtc_once, (step_refuse id _ (&"-" ++ kErrQueryBuffer ++ crlf)).
Qed.

Lemma process_loop_returns fuel id : forall n : node,
  (process_loop fuel id n).1 = false ->
  forall c, conns_ (process_loop fuel id n).2 !! id = Some c -> closing c = true.
Proof.
  induction fuel as [|fuel IH]; intros n; [done|]. cbn [process_loop].
  destruct (conns_ n !! id) as [c|] eqn:E; [|done].
  destruct (blocked c || doomed c); [done|].
  destruct (held_command c) as [argv|].
  { destruct (writes_paused_ n); [done|]. destruct (run_command _ _ _ _) as [[|] n2]; [apply IH|done]. }
  destruct (Parser.try_parse_command _) as [[result raw] p].
  destruct (Parser.status result); [destruct (run_command _ _ _ _) as [[|] n2]; [apply IH|done]|done|].
  destruct (is_master c); [|done]. intros _ c'. unfold close_client, on_client. cbn [snd update conns_].
  rewrite lookup_alter_eq. by intros (? & _ & ->)%fmap_Some.
Qed.

Lemma process_input_queues id (n : node) c :
  conns_ (process_input id n) !! id = Some c -> closing c = false -> pending_write c = true.
Proof.
  unfold process_input. destruct (conns_ n !! id) as [c0|] eqn:E0; [|congruence].
  pose proof (process_loop_returns (2 + length (input c0)) id n) as H1.
  destruct (process_loop _ _ _) as [[|] n2]; cbn [negb fst snd] in *.
  - intros Hc _. revert Hc. unfold on_client. cbn [update conns_].
    rewrite lookup_alter_eq. by intros (? & _ & ->)%fmap_Some.
  - intros Hc Hcl. rewrite (H1 eq_refl c Hc) in Hcl. done.
Qed.

#[global] Program Instance server_host : ClientHost DS :=
  {| Replication.process_buffered := process_buffered |}.
Next Obligation.
  intros id n. unfold process_buffered. repeat case_match; try done. apply process_input_steps.
Qed.
Next Obligation.
  intros id n c. unfold process_buffered. destruct (conns_ n !! id) as [c0|] eqn:E; [|congruence].
  destruct (closing c0) eqn:Hc; [congruence|]. apply process_input_queues.
Qed.

(** ** A connection's input is run as far as it can be *)

(** Nothing more of the connection's input can run. *)
Definition settled (id : Z) (n : node) : Prop :=
  forall c, conns_ n !! id = Some c ->
    blocked c = true \/ doomed c = true \/
    (is_Some (held_command c) /\ writes_paused_ n = true) \/
    (held_command c = None /\ Parser.outcome_of (input c) = Parser.OIncomplete).

Lemma evolves_lookup (P : Client -> Client -> Prop) exc (n n' : node) id c :
  evolves P exc n n' -> conns_ n !! id = Some c -> exists c', conns_ n' !! id = Some c' /\ P c c'.
Proof.
  intros [_ H] E. specialize (H id). rewrite E in H.
  destruct (conns_ n' !! id) as [c'|]; [|done]. destruct H. eauto.
Qed.

Lemma run_command_goes id argv raw (n n' : node) :
  run_command id argv raw n = (true, n') -> evolves same_input [id] n n'.
Proof.
  unfold run_command. destruct (conns_ n !! id) as [c|]; [|done].
  pose proof (evolves_effect id n _ _ (dispatch_effect id argv n)) as He.
  destruct (is_master c).
  { intros [= <-]. etrans; [exact He|]. apply evolves_role_input, evolves_feed. }
  case_match; [by intros [= <-]|]. case_match; [done|].
  destruct (dispatch id argv n) as [reply n1]. cbn [snd] in He. cbv zeta. intros [= <-].
  etrans; [exact He|]. set (n2 := on_client id _ n1).
  assert (H2 : evolves same_input [id] n1 n2) by by apply evolves_own. clearbody n2.
  etrans; [exact H2|]. case_match; [by apply evolves_own|done].
Qed.

Lemma run_command_stops id argv raw (n n' : node) :
  run_command id argv raw n = (false, n') -> settled id n'.
Proof.
  unfold run_command. destruct (conns_ n !! id) as [c|] eqn:E.
  - destruct (is_master c); [done|]. case_match; [done|].
    destruct (writes_paused_ n && is_write argv) eqn:Hp; [|by destruct (dispatch id argv n)].
    apply andb_true_iff in Hp as [Hp _]. intros [= <-] c'. unfold on_client. cbn [update conns_].
    rewrite lookup_alter_eq, E. intros [= <-]. right. right. left. split; [by eexists|done].
  - intros [= <-] c'. congruence.
Qed.

Definition pending_work (c : Client) : nat :=
  length (input c) + match held_command c with Some _ => 1 | None => 0 end.

Lemma process_loop_settles fuel id : forall (n : node) c,
  conns_ n !! id = Some c -> (pending_work c < fuel)%nat -> settled id (process_loop fuel id n).2.
Proof.
  induction fuel as [|fuel IH]; intros n c E Hf; [lia|]. cbn [process_loop]. rewrite E.
  destruct (blocked c || doomed c) eqn:Hr.
  { intros c' E'. assert (c' = c) as -> by (cbn in E'; congruence).
    apply orb_true_iff in Hr as [?|?]; auto. }
  assert (Hgo : forall f argv raw,
    (pending_work (f c) < pending_work c)%nat ->
    settled id (let '(go, n) := run_command id argv raw (on_client id f n) in
                if go then process_loop fuel id n else (true, n)).2).
  { intros f argv raw Hlt. set (n1 := on_client id f n).
    assert (E1 : conns_ n1 !! id = Some (f c)) by (unfold n1, on_client; cbn; by rewrite lookup_alter_eq, E).
    clearbody n1. destruct (run_command id argv raw n1) as [[|] n2] eqn:Hrun.
    - apply run_command_goes in Hrun.
      destruct (evolves_lookup _ _ _ _ _ _ Hrun E1) as (c2 & E2 & Hi & Hh).
      apply (IH n2 c2 E2). unfold pending_work in *. rewrite Hi, Hh. lia.
    - by eapply run_command_stops. }
  unfold pending_work in *. destruct (held_command c) as [argv|] eqn:Hh.
  { destruct (writes_paused_ n) eqn:Hp; [|apply Hgo; cbn; lia].
    intros c' E'. assert (c' = c) as -> by (cbn in E'; congruence). right. right. left.
    by rewrite Hh. }
  rewrite Parser.try_parse_outcome. destruct (Parser.outcome_of (input c)) as [| |argv k] eqn:Ho; cbn [Parser.status Parser.cmd Parser.buffer_].
  - intros c'. unfold on_client. cbn [snd update conns_]. rewrite lookup_alter_eq, E. intros [= <-].
    right. right. right. done.
  - intros c' E'. right. left. revert E'. destruct (is_master c);
      unfold close_client, on_client; cbn [snd update conns_]; rewrite !lookup_alter_eq, E;
      intros [= <-]; [done|]. unfold doomed. cbn. apply orb_true_r.
  - apply Hgo. cbn. rewrite Hh, length_drop. apply Parser.outcome_complete_bound in Ho. lia.
Qed.

End host.

(** ** One iteration of [run] *)

Section loop.
Context {DS : Type} `{cmds : Commands DS}.
Abbreviation node := (Node DS).

(** What code outside this model (persistence, cluster, store) does to the node
    in the hooks and in its own watchers. *)
Inductive Task :=
  | task_execute (writes : list Args) (d : DS)
  | task_stream_paused (b : bool)
  | task_writes_paused (b : bool)
  | task_passive_expiry (b : bool)
  | task_replicaof (host : bytes) (port now : Z)
  | task_promote (fresh : bytes)
  | task_child (rewrite : bool)
  | task_child_exits (ok : bool) (opened : Z -> bool).

Definition do_task (dump : DS -> bytes) (n : node) (t : Task) : node :=
  match t with
  | task_execute writes d => execute writes d n
  | task_stream_paused b => set_stream_paused b n
  | task_writes_paused b => set_writes_paused b n
  | task_passive_expiry b => n <| passive_expiry_ := b |>
  | task_replicaof host port now => replicaof host port now n
  | task_promote fresh => replicaof_no_one fresh n
  | task_child rewrite =>
      if child_running n then n
      else n <| child_ := if rewrite then rewrite_child else snapshot_child (store_ n) |>
  | task_child_exits ok opened => child_exits dump ok opened n
  end.

Definition do_tasks (dump : DS -> bytes) (ts : list Task) (n : node) : node :=
  foldl (do_task dump) n ts.

(** The outcomes of the calls [flush] makes. *)
Record SendIo := { io_file : FileRead; io_took : nat; io_send_error : bool; io_epoll : bool; io_time : Z }.

(** [accept4]: a peer and whether it could be added to epoll, or an error to
    try again after.  At the end of the list it would block, or fails. *)
Inductive Accepted := accepted (peer : bytes) (epoll_ok : bool) | accept_retry.

Fixpoint accept_clients (maxclients : nat) (l : list Accepted) (n : node) : node :=
  match l with
  | [] => n
  | accept_retry :: l => accept_clients maxclients l n
  | accepted peer epoll_ok :: l =>
      if (maxclients <=? size (conns_ n))%nat then accept_clients maxclients l n
      else if negb epoll_ok then accept_clients maxclients l n
      else accept_clients maxclients l (accept peer n)
  end.

(** What [epoll_wait] reports. *)
Inductive Event :=
  | ev_listen (l : list Accepted)
  | ev_signal
  | ev_link (err : bool) (took : nat) (r : ReadResult) (io : LinkIo (DS := DS))
  | ev_watcher (ts : list Task)
  | ev_conn (id : Z) (readable : option ReadResult) (writable : option SendIo) (now : Z).

Definition flush_io (io : SendIo) : Client -> Client :=
  flush (io_file io) (io_took io) (io_send_error io) (io_epoll io) (io_time io).

Definition handle_event (dump : DS -> bytes) (maxclients : nat) (s : bool * node) (e : Event) :
    bool * node :=
  let '(running, n) := s in
  match e with
  | ev_listen l => (running, accept_clients maxclients l n)
  | ev_signal => (false, n)
  | ev_link err took r io =>
      (running, if link_fd_ (link n) then (on_link_ready err took r io n).2 else n)
  | ev_watcher ts => (running, do_tasks dump ts n)
  | ev_conn id readable writable now =>
      let is_open n := match conns_ n !! id with Some c => negb (closing c) | None => false end in
      if negb (is_open n) then s
      else
        let n := match readable with Some r => handle_readable id r now n | None => n end in
        let n := match writable with
                 | Some io => if is_open n then on_client id (flush_io io) n else n
                 | None => n
                 end in
        (running, n)
  end.

(** [flush_pending_writes]. *)
Definition flush_pending_writes (io : Z -> SendIo) (n : node) : node :=
  foldl (fun n id => flush_pending id (io_file (io id)) (io_took (io id)) (io_send_error (io id))
                       (io_epoll (io id)) (io_time (io id)) n)
    n (map fst (map_to_list (conns_ n))).

(** [close_pending]. *)
Definition close_pendings (now : Z) (n : node) : node :=
  foldl (fun n '(id, c) => if closing c then close_pending id now n else n)
    n (map_to_list (conns_ n)).

Definition close_all (now : Z) (n : node) : node :=
  foldl (fun n id => client_closed id now n) n (map fst (map_to_list (conns_ n))) <| conns_ := ∅ |>.

(** The times the loop keeps. *)
Record Loop := mkLoop { node_ : node; next_cron_ : Z; last_wakeup_ : Z; running_ : bool }.

(** The settings of the loop, and [persistence.before_sleep] on the dataset. *)
Record Config := {
  maxclients_ : nat;
  cron_interval_ : Z;
  stall_threshold_ : Z;
  persist : DS -> DS;
  dump_ : DS -> bytes;
}.

(** What one wakeup brings: the clock, the events, and the outcomes of what the
    hooks call.  The stall handler and the timer are those of kv_server.cpp. *)
Record Wakeup := {
  woke : Z;
  events : list Event;
  on_stall : list Task;
  cron_now : Z;
  cron_before : list Task;
  cron_connected : bool;
  cron_fork_ok : bool;
  cron_after : list Task;
  sleep_before : list Task;
  sleep_now : Z;
  sends : Z -> SendIo;
}.

Definition stall (cfg : Config) (w : Wakeup) (s : Loop) : node :=
  if stall_threshold_ cfg <? woke w - last_wakeup_ s then do_tasks (dump_ cfg) (on_stall w) (node_ s)
  else node_ s.

(** [cron_timeout_ms], in milliseconds, rounded up. *)
Definition cron_timeout_ms (now : Z) (s : Loop) : Z :=
  let remaining := next_cron_ s - now in
  if remaining <=? 0 then 0 else (remaining + 999999) / 1000000.

(** The timer of kv_server.cpp. *)
Definition cron_task (cfg : Config) (w : Wakeup) (n : node) : node :=
  let n := do_tasks (dump_ cfg) (cron_before w) n in
  let n := Replication.cron (cron_now w) (cron_connected w) (cron_fork_ok w) n in
  do_tasks (dump_ cfg) (cron_after w) n.

Definition run_cron_if_due (cfg : Config) (w : Wakeup) (next : Z) (n : node) : Z * node :=
  if cron_now w <? next then (next, n) else (cron_now w + cron_interval_ cfg, cron_task cfg w n).

(** The hook of kv_server.cpp. *)
Definition before_sleep_hook (cfg : Config) (w : Wakeup) (n : node) : node :=
  let n := do_tasks (dump_ cfg) (sleep_before w) n in
  let n := Replication.before_sleep (sleep_now w) n in
  n <| store_ := persist cfg (store_ n) |>.

(** The part of an iteration before the hook, and the rest. *)
Definition handle_events (cfg : Config) (w : Wakeup) (s : Loop) : Loop :=
  let n := stall cfg w s in
  let '(running, n) := foldl (handle_event (dump_ cfg) (maxclients_ cfg)) (running_ s, n) (events w) in
  let '(next, n) := run_cron_if_due cfg w (next_cron_ s) n in
  let n := if resume_held_ n then resume_held_clients n else n in
  mkLoop n next (woke w) running.

Definition finish_iteration (cfg : Config) (w : Wakeup) (s : Loop) : Loop :=
  let n := before_sleep_hook cfg w (node_ s) in
  let n := flush_pending_writes (sends w) n in
  let n := close_pendings (sleep_now w) n in
  mkLoop n (next_cron_ s) (last_wakeup_ s) (running_ s).

Definition iteration (cfg : Config) (w : Wakeup) (s : Loop) : Loop :=
  finish_iteration cfg w (handle_events cfg w s).

(** [run], over the wakeups that happen. *)
Fixpoint run_loop (cfg : Config) (ws : list Wakeup) (s : Loop) : Loop :=
  match ws with
  | w :: ws => if running_ s then run_loop cfg ws (iteration cfg w s) else s
  | [] => s
  end.

Definition run (cfg : Config) (ws : list Wakeup) (s : Loop) : Loop :=
  let s := run_loop cfg ws s in
  if running_ s then s
  else mkLoop (close_all (last_wakeup_ s) (node_ s)) (next_cron_ s) (last_wakeup_ s) false.

End loop.

End Server.
