(* ===== verification/EventLoop.v ===== *)
(** * No queued byte is forgotten

    The server writes to a socket when the connection is on its list of pending
    writes, or when epoll reports that the socket can take more.  Here: over any
    run of the loop a connection that has bytes to send is on that list, or is
    subscribed, or is about to be resumed; so after each iteration it is one of
    the last two.  Then what an iteration does before the log is written. *)

From stdpp Require Import relations.
From Stdlib Require Import Lia.
From S2P Require Import Prelude Resp Backlog Replication ReplicationStream Server.

Module EventLoop.
Import Server Replication.

(** Any change at all. *)
Definition any (c c' : Client) : Prop := True.
#[global] Instance any_preorder : PreOrder any.
Proof. done. Qed.

(** Only connections to be resumed, and those in [exc], are stuck. *)
Definition live {DS} (exc : list Z) (n : Node DS) : Prop :=
  forall id c, conns_ n !! id = Some c -> stuck c = true -> id ∈ to_resume_ n \/ id ∈ exc.

Section hosted.
Context {DS : Type} `{host : ClientHost DS}.
Abbreviation node := (Node DS).

Lemma live_evolves P exc (n n' : node) : evolves P exc n n' -> live exc n -> live exc n'.
Proof.
  intros [R H] Hl id c' E' Hs. specialize (H id). rewrite E' in H.
  destruct (conns_ n !! id) as [c|] eqn:E; [|done]. destruct H as [_ H].
  apply H in Hs as [Hs|[?|?]]; [|by left|by right]. destruct (Hl id c E Hs); [left; by apply R|by right].
Qed.

Lemma live_weaken exc exc' (n : node) : exc ⊆ exc' -> live exc n -> live exc' n.
Proof. intros Hx Hl id c E Hs. destruct (Hl id c E Hs); [by left|right; by apply Hx]. Qed.

Lemma evolves_any P exc exc' (n n' : node) :
  exc ⊆ exc' -> evolves P exc n n' -> evolves any exc' n n'.
Proof. apply evolves_weaken. done. Qed.

(** ** Running a connection's commands *)

Lemma evolves_command id (n n' : node) : command_step id n n' -> evolves any [id] n n'.
Proof.
  assert (Hown : forall f, evolves any [id] n (on_client id f n)).
  { intros f. apply (evolves_client any). intros c _. split; [done|]. set_solver. }
  destruct 1; try apply Hown.
  - apply (evolves_any same_role []); [set_solver|apply evolves_execute].
  - unfold psync_command. pose proof (evolves_psync id replid off now fork_ok n) as Hp.
    apply (evolves_any _ _ [id]) in Hp; [|done]. destruct (psync _ _ _ _ _ n) as [reply n1].
    cbv zeta. etrans; [exact Hp|]. case_match; [|done].
    apply (evolves_client any). intros c' _. split; [done|]. set_solver.
  - unfold wait_command. pose proof (evolves_wait id numreplicas timeout_ms now n) as Hp.
    apply (evolves_any _ _ [id]) in Hp; [|done]. destruct (wait _ _ _ _ n) as [[reply ?] n1].
    cbv zeta. etrans; [exact Hp|]. case_match; [|done].
    apply (evolves_client any). intros c' _. split; [done|]. set_solver.
  - apply (evolves_any same_role []); [set_solver|apply (evolves_side [] id), side_getack].
  - apply (evolves_any same_role []); [set_solver|apply evolves_feed].
  - apply (evolves_any same_role []); [set_solver|apply evolves_replicaof].
  - apply (evolves_any same_role []); [set_solver|apply evolves_no_one].
  - by apply (evolves_same any).
  - by apply (evolves_same any).
  - unfold set_writes_paused. case_match; [done|by apply (evolves_same any)].
  - by apply (evolves_same any).
  - by apply (evolves_same any).
Qed.

Lemma evolves_commands id (n n' : node) : rtc (command_step id) n n' -> evolves any [id] n n'.
Proof. induction 1 as [|n1 n2 n3 H12 _ IH]; [done|]. etrans; [by apply evolves_command|done]. Qed.

(** Whatever was queued for a connection is sent after its commands ran. *)
Lemma evolves_served id f (n n' : node) :
  rtc (command_step id) (on_client id f n) n' ->
  (forall c, conns_ n' !! id = Some c -> closing c = false -> pending_write c = true) ->
  evolves any [] n n'.
Proof.
  intros Hs%evolves_commands Hq.
  assert (H : evolves any [id] n n').
  { etrans; [|exact Hs]. apply (evolves_client any). intros c _. split; [done|]. set_solver. }
  destruct H as [R H]. split; [done|]. intros r. specialize (H r).
  destruct (conns_ n !! r) as [c|], (conns_ n' !! r) as [c'|] eqn:E'; try done.
  destruct H as [_ H]. split; [done|]. intros Hst. destruct (H Hst) as [?|[?|Hr]]; auto.
  apply list_elem_of_singleton in Hr as ->. destruct (closing c') eqn:Hc.
  - by rewrite closed_not_stuck in Hst.
  - by rewrite queued_not_stuck in Hst by auto.
Qed.

Lemma evolves_resumed id f (n : node) : evolves any [] n (process_buffered id (on_client id f n)).
Proof.
  apply (evolves_served id f); [apply process_buffered_steps|]. intros c. apply process_buffered_queues.
Qed.

Lemma on_client_id id (n : node) : on_client id (fun c => c) n = n.
Proof.
  unfold on_client. destruct n. cbn. f_equal. apply map_eq. intros i. rewrite lookup_alter.
  case_decide; [subst; by destruct (_ !! _)|done].
Qed.

Lemma evolves_buffered id (n : node) : evolves any [] n (process_buffered id n).
Proof. rewrite <-(on_client_id id n) at 2. apply evolves_resumed. Qed.

(** A connection taken from a list of those to be resumed. *)
Lemma live_buffered id exc (n : node) : live (id :: exc) n -> live exc (process_buffered id n).
Proof.
  intros Hl r c E Hs.
  assert (Hl' : live (id :: exc) (process_buffered id n)).
  { eapply live_evolves; [|exact Hl]. apply (evolves_any any []); [set_solver|apply evolves_buffered]. }
  destruct (Hl' r c E Hs) as [|[->|]%elem_of_cons]; auto.
  destruct (closing c) eqn:Hc.
  - by rewrite closed_not_stuck in Hs.
  - by rewrite queued_not_stuck in Hs by (by eapply process_buffered_queues).
Qed.

Lemma live_buffereds ids exc : forall n : node,
  live (ids ++ exc) n -> live exc (foldl (fun n id => process_buffered id n) n ids).
Proof. induction ids as [|id ids IH]; intros n Hl; [done|]. apply IH. by apply live_buffered. Qed.

Lemma evolves_unblock t (n : node) : evolves any [] n (unblock_waiters t n).
Proof.
  unfold unblock_waiters. cbv zeta. set (l := map _ _). clearbody l. set (n1 := update waiters_ _ _).
  assert (H1 : evolves any [] n n1) by by apply (evolves_same any). clearbody n1.
  etrans; [exact H1|]. apply (evolves_fold any). intros n' [id acked]. apply evolves_resumed.
Qed.

Lemma live_before_sleep now (n : node) : live [] n -> live [] (before_sleep now n).
Proof.
  intros Hl. unfold before_sleep. cbv zeta. eapply live_evolves; [apply evolves_unblock|].
  set (n1 := foldl _ _ _). assert (H1 : live [] n1).
  { apply live_buffereds. intros id c E Hs. destruct (Hl id c E Hs); set_solver. }
  clearbody n1. case_match; [|done]. set (n2 := update get_ack_pending_ _ _).
  assert (H2 : live [] n2) by done. clearbody n2. case_match; [done|].
  eapply live_evolves; [apply evolves_propagate|done].
Qed.

(** ** The link to the master *)

Lemma evolves_link f (n : node) : evolves any [] n (on_link f n).
Proof. by apply (evolves_same any). Qed.

Lemma evolves_abort_link now (n : node) : evolves any [] n (abort_link now n).
Proof.
  unfold abort_link. cbv zeta. etrans; [|apply evolves_link].
  apply (evolves_any same_role []); [done|apply evolves_close_link].
Qed.

(** A new connection has nothing to send. *)
Lemma live_insert (n n' : node) id c :
  conns_ n' = <[id := c]> (conns_ n) -> to_resume_ n' = to_resume_ n -> stuck c = false ->
  live [] n -> live [] n'.
Proof.
  intros E1 E2 Hc Hl r cr. rewrite E1, E2. destruct (decide (r = id)) as [->|Hne].
  - rewrite lookup_insert_eq. intros [= <-]. congruence.
  - rewrite lookup_insert_ne by done. apply Hl.
Qed.

Lemma live_adopt_link io (n : node) : live [] n -> live [] (adopt_link io n).
Proof.
  intros Hl. unfold adopt_link, adopt_master. set (pending := link_buf_ (link n)).
  set (n1 := on_link _ n). assert (H1 : live [] n1) by exact Hl. clearbody n1.
  cbv zeta beta iota. set (m := next_client_id_ n1). set (c := update closing _ _).
  set (n2 := update wrapped _ _).
  assert (H2 : live [] n2).
  { apply (live_insert n1 n2 m c); [done|done| |done]. unfold c. by destruct (io_watch io). }
  clearbody n2 m. clear c H1. set (n3 := update replid_shared_ _ _).
  assert (H3 : live [] n3) by exact H2. clearbody n3.
  eapply live_evolves; [apply evolves_buffered|].
  eapply live_evolves; [apply evolves_send_ack|].
  eapply live_evolves; [apply (evolves_tidy any)|exact H3]. by intros c'.
Qed.

Lemma evolves_snapshot_finished ok file opened (n : node) :
  evolves any [] n (snapshot_finished ok file opened n).
Proof.
  unfold snapshot_finished. apply (evolves_fold any). intros n' r. apply (evolves_tidy any).
  intros c. split; [done|]. repeat case_match; try done; 
    first [by rewrite closed_not_stuck|by rewrite queued_not_stuck].
Qed.

Lemma evolves_kill_child (n : node) : evolves any [] n (kill_child n).
Proof.
  unfold kill_child. case_match; [done| |by apply (evolves_same any)].
  etrans; [|apply evolves_snapshot_finished]. by apply (evolves_same any).
Qed.

Lemma live_finish_transfer io (n : node) : live [] n -> live [] (finish_transfer io n).
Proof.
  intros Hl. unfold finish_transfer. cbv zeta. set (n1 := on_link _ n).
  assert (H1 : live [] n1) by exact Hl. clearbody n1.
  destruct (io_fsync io); cbn [negb]; [|by eapply live_evolves; [apply evolves_abort_link|]].
  assert (H2 : live [] (kill_child (disconnect_replicas n1))).
  { eapply live_evolves; [apply evolves_kill_child|]. by eapply live_evolves; [apply evolves_disconnect|]. }
  unfold replace_dataset. cbv zeta. destruct (io_replace io _) as [ok d].
  set (n2 := kill_child _) in *. clearbody n2. set (n3 := on_link _ _).
  assert (H3 : live [] n3) by exact H2. clearbody n3. destruct ok; cbn [negb]; [|by eapply live_evolves; [apply evolves_abort_link|]].
  apply live_adopt_link. exact H3.
Qed.

Lemma live_psync_reply line io (n : node) : live [] n -> live [] (handle_psync_reply line io n).
Proof.
  intros Hl. unfold handle_psync_reply.
  assert (Habort : forall n1 : node, live [] n1 -> live [] (abort_link (io_now io) n1)).
  { intros n1 H1. by eapply live_evolves; [apply evolves_abort_link|]. }
  case_match.
  - case_match; [|by apply Habort]. case_match. cbv zeta. case_match; [by apply Habort|exact Hl].
  - case_match; [|by apply Habort]. apply live_adopt_link. case_match; [|done].
    by eapply live_evolves; [apply evolves_disconnect|].
Qed.

Lemma live_link_input fuel io : forall n : node, live [] n -> live [] (process_link_loop fuel io n).
Proof.
  assert (Habort : forall n1 : node, live [] n1 -> live [] (abort_link (io_now io) n1)).
  { intros n1 H1. by eapply live_evolves; [apply evolves_abort_link|]. }
  induction fuel as [|fuel IH]; intros n Hl; [done|]. cbn [process_link_loop].
  destruct (link_state_ (link n)); try done.
  - destruct (take_line (io_now io) n) as [line n1] eqn:E. assert (H1 : live [] n1).
    { revert E. unfold take_line. repeat case_match; intros [= _ <-]; try exact Hl. by apply Habort. }
    destruct line as [line|]; [|done]. case_match; [case_match; [by apply Habort|]|].
    + apply IH. exact H1.
    + by apply IH, live_psync_reply.
  - destruct (transfer_header (io_now io) n) as [size n1] eqn:E. assert (H1 : live [] n1).
    { revert E. unfold transfer_header. destruct (transfer_remaining_ (link n)); [by intros [= _ <-]|].
      destruct (take_line (io_now io) n) as [line n2] eqn:E2. assert (H2 : live [] n2).
      { revert E2. unfold take_line. repeat case_match; intros [= _ <-]; try exact Hl. by apply Habort. }
      repeat case_match; intros [= _ <-]; try exact H2; by apply Habort. }
    destruct size as [size|]; [|done]. destruct (transfer_body size io n1) as [complete n2] eqn:E2.
    assert (H2 : live [] n2).
    { revert E2. unfold transfer_body. case_match; intros [= _ <-]; [by apply Habort|exact H1]. }
    destruct complete; [|done]. by apply IH, live_finish_transfer.
Qed.

Lemma live_link_ready err took r io (n : node) : live [] n -> live [] (on_link_ready err took r io n).2.
Proof.
  intros Hl. unfold on_link_ready, read_link, process_link_input.
  assert (Habort : live [] (abort_link (io_now io) n)) by by eapply live_evolves; [apply evolves_abort_link|].
  repeat case_match; try done; try exact Hl. apply live_link_input. exact Hl.
Qed.

(** ** The timer *)

Lemma tidy_cron_client t limit : tidy any (cron_client t limit).
Proof.
  intros c. split; [done|]. unfold cron_client.
  repeat case_match; try done; 
    first [by rewrite closed_not_stuck|by rewrite queued_not_stuck].
Qed.

Lemma evolves_cron_link t connected (n : node) : evolves any [] n (cron_link t connected n).
Proof.
  unfold cron_link, connect_to_master. cbv zeta.
  repeat case_match; try done; try apply evolves_abort_link; try (by apply (evolves_same any)).
  apply (evolves_tidy any). intros c'. split; [done|]. by rewrite closed_not_stuck.
Qed.

Lemma evolves_cron t connected fork_ok (n : node) : evolves any [] n (cron t connected fork_ok n).
Proof.
  unfold cron. cbv zeta. set (n1 := cron_link t connected _).
  assert (H1 : evolves any [] n n1) by (etrans; [apply evolves_unblock|apply evolves_cron_link]).
  clearbody n1. etrans; [exact H1|]. clear H1 n. case_match; [done|].
  set (n2 := update last_second_tick_ _ _).
  assert (H2 : evolves any [] n1 n2) by by apply (evolves_same any). clearbody n2.
  etrans; [exact H2|]. clear H2.
  set (n3 := match master_ (link n2) with Some _ => _ | None => _ end).
  assert (H3 : evolves any [] n2 n3).
  { unfold n3. repeat case_match; try done. apply (evolves_any same_role []); [done|apply evolves_send_ack]. }
  clearbody n3. etrans; [exact H3|]. clear H3.
  set (n4 := if _ : bool then propagate _ _ else n3).
  assert (H4 : evolves any [] n3 n4).
  { unfold n4. case_match; [|done]. etrans; [|apply (evolves_any same_role []); [done|apply evolves_propagate]].
    by apply (evolves_same any). }
  clearbody n4. etrans; [exact H4|]. clear H4.
  etrans; [apply (evolves_replicas any), tidy_cron_client|].
  apply (evolves_any same_input []); [done|apply evolves_start_snapshot].
Qed.

Lemma evolves_resume_held (n : node) : evolves any [] n (resume_held_clients n).
Proof.
  unfold resume_held_clients. cbv zeta. etrans; [|apply (evolves_fold any)].
  - by apply (evolves_same any).
  - intros n' id. repeat case_match; try done. apply evolves_buffered.
Qed.

End hosted.

(** ** An iteration *)

Lemma interest_not_stuck b epoll_ok c :
  b = true \/ (out c = [] /\ repl_state c <> kSendBulk) -> stuck (set_write_interest b epoll_ok c) = false.
Proof.
  unfold set_write_interest, stuck. intros [->|[H1 H2]].
  - destruct (write_interest c) eqn:Hw; cbn [Bool.eqb]; [by rewrite Hw, andb_false_r|].
    case_match; cbn; [done|]. by rewrite andb_false_r.
  - assert (Hb : bool_decide (repl_state c = kSendBulk) = false) by by apply bool_decide_eq_false.
    repeat case_match; cbn; rewrite ?H1, ?Hb; cbn; by rewrite ?andb_false_r.
Qed.

(** After [flush] nothing is left, or epoll will tell. *)
Lemma flush_not_stuck r took send_error epoll_ok now c :
  stuck (flush r took send_error epoll_ok now c) = false.
Proof.
  unfold flush. set (p := match repl_snapshot_fd c with Some _ => _ | None => _ end).
  assert (Hp : p.1 = false -> closing p.2 = true).
  { unfold p, refill_snapshot. repeat case_match; done. }
  destruct p as [b c1]. cbn [fst snd] in Hp. clear c.
  destruct b; cbn [negb]; [|apply closed_not_stuck; auto].
  case_match; [by apply closed_not_stuck|]. cbv zeta. set (c2 := update out _ _). clearbody c2. clear Hp.
  destruct (beq (out c2) [] && _) eqn:He.
  - apply andb_true_iff in He as [Ho%beq_eq Hs%negb_true_iff%bool_decide_eq_false].
    case_match; [by apply closed_not_stuck|]. apply interest_not_stuck. by right.
  - case_match; [by apply closed_not_stuck|]. apply interest_not_stuck. by left.
Qed.

Lemma flush_pending_write r took send_error epoll_ok now c :
  pending_write (flush r took send_error epoll_ok now c) = pending_write c.
Proof. unfold flush, refill_snapshot, set_write_interest. repeat case_match; by simplify_eq/=. Qed.

Section iterations.
Context {DS : Type} `{cmds : Commands DS}.
Abbreviation node := (Node DS).

Lemma evolves_task dump (n : node) t : evolves any [] n (do_task dump n t).
Proof.
  destruct t; cbn [do_task].
  - apply (evolves_any same_role []); [done|apply evolves_execute].
  - by apply (evolves_same any).
  - unfold set_writes_paused. case_match; [done|by apply (evolves_same any)].
  - by apply (evolves_same any).
  - apply (evolves_any same_role []); [done|apply evolves_replicaof].
  - apply (evolves_any same_role []); [done|apply evolves_no_one].
  - case_match; [done|by apply (evolves_same any)].
  - unfold child_exits. case_match; [done| |by apply (evolves_same any)].
    etrans; [|apply evolves_snapshot_finished]. by apply (evolves_same any).
Qed.

Lemma live_tasks dump ts (n : node) : live [] n -> live [] (do_tasks dump ts n).
Proof. apply live_evolves with any, evolves_fold; [apply _|]. intros n' t. apply evolves_task. Qed.

Lemma live_accepts maxclients l : forall n : node, live [] n -> live [] (accept_clients maxclients l n).
Proof.
  induction l as [|[peer epoll_ok|] l IH]; intros n Hl; cbn [accept_clients]; auto.
  repeat case_match; auto. apply IH. by eapply (live_insert n _ _ (new_client <| addr := peer |>)).
Qed.

Lemma live_readable id r now (n : node) : live [] n -> live [] (handle_readable id r now n).
Proof.
  intros Hl. unfold handle_readable. destruct r as [data| | |]; [| |done|].
  - case_match; [|done]. case_match; [done|]. eapply live_evolves; [|exact Hl].
    eapply (evolves_served id); [apply process_input_steps|apply process_input_queues].
  - eapply live_evolves; [|exact Hl]. apply (evolves_any same_role []); [done|].
    apply (evolves_tidy same_role), tidy_close.
  - eapply live_evolves; [|exact Hl]. apply (evolves_any same_role []); [done|].
    apply (evolves_tidy same_role), tidy_close.
Qed.

Lemma live_event dump maxclients s e :
  live [] s.2 -> live [] (handle_event dump maxclients s e : bool * node).2.
Proof.
  destruct s as [running n]. cbn [snd]. intros Hl.
  destruct e as [l| |err took r io|ts|id readable writable now]; cbn [handle_event snd]; auto using live_accepts, live_tasks.
  - case_match; [by apply live_link_ready|done].
  - case_match; [done|]. cbv zeta. cbn [snd].
    set (n1 := match readable with Some _ => _ | None => _ end).
    assert (H1 : live [] n1) by (unfold n1; destruct readable; [by apply live_readable|done]). clearbody n1.
    repeat case_match; try done; eapply live_evolves; try exact H1;
      apply (evolves_tidy any); intros c1; (split; [done|]); unfold flush_io; by rewrite flush_not_stuck.
Qed.

Lemma live_events dump maxclients es : forall s : bool * node,
  live [] s.2 -> live [] (foldl (handle_event dump maxclients) s es).2.
Proof. induction es as [|e es IH]; intros s Hl; [done|]. apply IH. by apply live_event. Qed.

Lemma live_handle_events cfg w (s : Loop) : live [] (node_ s) -> live [] (node_ (handle_events cfg w s)).
Proof.
  intros Hl. unfold handle_events. cbv zeta.
  assert (H0 : live [] (stall cfg w s)) by (unfold stall; case_match; auto using live_tasks).
  pose proof (live_events (dump_ cfg) (maxclients_ cfg) (events w) (running_ s, stall cfg w s) H0) as H1.
  destruct (foldl _ _ _) as [running n1]. cbn [snd] in H1. clear H0.
  destruct (run_cron_if_due cfg w (next_cron_ s) n1) as [next n2] eqn:E. cbn [node_].
  assert (H2 : live [] n2).
  { revert E. unfold run_cron_if_due, cron_task. case_match; intros [= _ <-]; [done|]. cbv zeta.
    apply live_tasks. eapply live_evolves; [apply evolves_cron|]. by apply live_tasks. }
  case_match; [|done]. eapply live_evolves; [apply evolves_resume_held|done].
Qed.

(** [flush_pending_writes] clears the flag of every connection. *)
Lemma flush_pending_tidy r took send_error epoll_ok now :
  tidy any (fun c => if pending_write c then
      let c := c <| pending_write := false |> in
      if closing c then c else flush r took send_error epoll_ok now c else c).
Proof.
  intros c. split; [done|]. case_match; [|done]. cbv zeta.
  destruct (closing _) eqn:Hc; [by rewrite closed_not_stuck|]. by rewrite flush_not_stuck.
Qed.

Lemma flushes_clear (io : Z -> SendIo) ids : forall n : node,
  (forall id c, conns_ n !! id = Some c -> pending_write c = true -> id ∈ ids) ->
  let n' := foldl (fun n id => flush_pending id (io_file (io id)) (io_took (io id))
              (io_send_error (io id)) (io_epoll (io id)) (io_time (io id)) n) n ids in
  evolves any [] n n' /\ (forall id c, conns_ n' !! id = Some c -> pending_write c = false).
Proof.
  induction ids as [|i ids IH]; intros n Hp; cbv zeta; cbn [foldl].
  - split; [done|]. intros id c E. apply not_true_is_false. intros H. by apply (Hp id c) in H; [inversion H|].
  - set (n1 := flush_pending i _ _ _ _ _ n).
    assert (H1 : evolves any [] n n1) by (apply (evolves_tidy any), flush_pending_tidy).
    destruct (IH n1) as [H2 H3].
    + intros id c. unfold n1, flush_pending, on_client. cbn [update conns_]. rewrite lookup_alter.
      case_decide as Hi; [subst id|].
      * intros (c0 & E0 & ->)%fmap_Some. case_match; [|congruence]. cbv zeta.
        case_match; [done|]. by rewrite flush_pending_write.
      * intros E Hw. apply (Hp id c E) in Hw. set_solver.
    + split; [by etrans|done].
Qed.

(** ** The connections that remain *)

Lemma close_pending_conns id now (n : node) :
  conns_ (close_pending id now n) = delete id (conns_ n) /\
  (forall r, r <> id -> r ∈ to_resume_ n -> r ∈ to_resume_ (close_pending id now n)).
Proof.
  unfold close_pending, client_closed. cbv zeta. set (n1 := update to_resume_ _ _).
  assert (F1 : conns_ n1 = alter (fun c => c <| repl_snapshot_fd := None |>) id (conns_ n)) by done.
  assert (F2 : to_resume_ n1 = without id (to_resume_ n)) by done. clearbody n1.
  split.
  - case_match; cbn [update conns_ on_link]; rewrite F1; by rewrite delete_alter_eq.
  - intros r Hne Hr. case_match; cbn [update to_resume_ on_link]; rewrite F2; by apply elem_of_without.
Qed.

Lemma closes_remain now l : forall n : node,
  NoDup l.*1 -> (forall id c, (id, c) ∈ l -> conns_ n !! id = Some c) ->
  let n' := foldl (fun n '(id, c) => if closing c then close_pending id now n else n) n l in
  (forall id c, conns_ n' !! id = Some c -> conns_ n !! id = Some c /\ ((id, c) ∈ l -> closing c = false)) /\
  (forall id c, conns_ n' !! id = Some c -> id ∈ to_resume_ n -> id ∈ to_resume_ n').
Proof.
  induction l as [|[i ci] l IH]; intros n Hnd Hl; cbv zeta; cbn [foldl].
  - split; [|done]. intros id c E. split; [done|]. by intros ?%elem_of_nil.
  - apply list.NoDup_cons in Hnd as [Hni Hnd].
    assert (Hn : forall c, (i, c) ∈ l -> False).
    { intros c Hc. apply Hni. apply list_elem_of_fmap. by exists (i, c). }
    destruct (closing ci) eqn:Hc.
    + destruct (close_pending_conns i now n) as [F1 F2]. set (n1 := close_pending i now n) in *. clearbody n1.
      destruct (IH n1 Hnd) as [H1 H2].
      { intros id c Hin. rewrite F1, lookup_delete_ne; [apply Hl; by right|]. intros <-. eauto. }
      split.
      * intros id c E. destruct (H1 id c E) as [E1 Hcl]. rewrite F1 in E1.
        apply lookup_delete_Some in E1 as [Hne E1]. split; [done|].
        intros [[= -> ->]|Hin]%elem_of_cons; [done|auto].
      * intros id c E Hr. destruct (H1 id c E) as [E1 _]. rewrite F1 in E1.
        apply lookup_delete_Some in E1 as [Hne _]. eapply H2; [done|]. by apply F2.
    + destruct (IH n Hnd) as [H1 H2]; [intros id c Hin; apply Hl; by right|]. split; [|done].
      intros id c E. destruct (H1 id c E) as [E1 Hcl]. split; [done|].
      intros [[= -> ->]|Hin]%elem_of_cons; auto.
Qed.

Lemma close_pendings_remain now (n : node) :
  (forall id c, conns_ (close_pendings now n) !! id = Some c ->
     conns_ n !! id = Some c /\ closing c = false) /\
  (forall id c, conns_ (close_pendings now n) !! id = Some c -> id ∈ to_resume_ n ->
     id ∈ to_resume_ (close_pendings now n)).
Proof.
  destruct (closes_remain now (map_to_list (conns_ n)) n) as [H1 H2].
  - apply NoDup_fst_map_to_list.
  - intros id c. by rewrite elem_of_map_to_list.
  - split; [|done]. intros id c E. destruct (H1 id c E) as [E1 Hc]. split; [done|]. apply Hc.
    by apply elem_of_map_to_list.
Qed.

(** What holds between two iterations. *)
Definition settled_writes (n : node) : Prop :=
  live [] n /\ (forall id c, conns_ n !! id = Some c -> closing c = false /\ pending_write c = false).

Lemma iteration_settles cfg w (s : Loop) :
  live [] (node_ s) -> settled_writes (node_ (iteration cfg w s)).
Proof.
  intros Hl%(live_handle_events cfg w). unfold iteration. set (s1 := handle_events cfg w s) in *. clearbody s1.
  unfold finish_iteration, before_sleep_hook. cbv zeta. cbn [node_]. set (n1 := update store_ _ _).
  assert (H1 : live [] n1) by by apply live_before_sleep, live_tasks. clearbody n1.
  unfold flush_pending_writes.
  destruct (flushes_clear (sends w) (map fst (map_to_list (conns_ n1))) n1) as [Hev Hpw].
  { intros id c E _. apply list_elem_of_fmap. exists (id, c). by rewrite elem_of_map_to_list. }
  set (n2 := foldl _ n1 _) in *. apply (live_evolves any) in Hev; [|exact H1]. clearbody n2.
  destruct (close_pendings_remain (sleep_now w) n2) as [Hc Hr]. split.
  - intros id c E Hs. destruct (Hc id c E) as [E2 _]. destruct (Hev id c E2 Hs) as [?|?]; [|by right].
    left. by eapply Hr.
  - intros id c E. destruct (Hc id c E) as [E2 Hcl]. split; [done|]. by eapply Hpw.
Qed.

Lemma run_settles cfg ws : forall s : Loop,
  settled_writes (node_ s) -> settled_writes (node_ (run_loop cfg ws s)).
Proof.
  induction ws as [|w ws IH]; intros s Hs; [done|]. cbn [run_loop]. case_match; [|done].
  apply IH, iteration_settles, Hs.
Qed.

Lemma settled_start options replid (d : DS) : settled_writes (make options replid d).
Proof. split; intros id c E; by destruct (lookup_empty_Some id c). Qed.

End iterations.

End EventLoop.

Module EventLoopClaims.
Import Server Replication EventLoop.

(** C29: a connection's input is run as far as it can be.  When [process_input]
    returns, the connection waits for WAIT, for a pause of writes to end or for
    the rest of a command, or it is being closed; no complete command is left
    behind, however many had been buffered. *)
Theorem input_is_drained {DS} (cmds : Commands DS) id (n : Node DS) (Hopen : is_Some (conns_ n !! id)) :
  settled id (process_input id n).
Proof.
  destruct Hopen as [c E]. unfold process_input. rewrite E.
  assert (Hw : (pending_work c < 2 + length (input c))%nat) by (unfold pending_work; case_match; lia).
  pose proof (process_loop_settles _ id n c E Hw) as Hs.
  destruct (process_loop _ id n) as [[|] n2]; cbn [negb snd] in *; [|done]. clear E Hw c.
  intros c'. unfold on_client. cbn [update conns_ writes_paused_]. rewrite lookup_alter_eq.
  intros (c & E & ->)%fmap_Some. change (writes_paused_ _) with (writes_paused_ (check_query_buffer id n2)).
  revert E. unfold check_query_buffer. destruct (conns_ n2 !! id) as [c2|] eqn:E2; [|congruence].
  case_match; [|rewrite E2; intros [= <-]; exact (Hs c2 E2)]. unfold on_client. cbn [update conns_]. rewrite lookup_alter_eq, E2.
  intros [= <-]. right. left. unfold doomed. cbn. apply orb_true_r.
Qed.

(** C21: no queued byte is forgotten.  Over any run of the event loop, whatever
    the sockets take, after each iteration an open connection with bytes to send
    or a snapshot to read from is subscribed to the event that its socket can
    take more, or is about to be resumed by the next iteration. *)
Theorem no_reply_stuck {DS} (cmds : Commands DS) cfg ws options replid (d : DS) next id c
    (Hconn : conns_ (node_ (run cfg ws (mkLoop (make options replid d) next 0 true))) !! id = Some c)
    (Hmore : out c <> [] \/ repl_state c = kSendBulk) :
  closing c = false /\
  (write_interest c = true \/
   id ∈ to_resume_ (node_ (run cfg ws (mkLoop (make options replid d) next 0 true)))).
Proof.
  revert Hconn. unfold run.
  pose proof (run_settles cfg ws (mkLoop (make options replid d) next 0 true) (settled_start _ _ _)) as [Hl Hc].
  set (s := run_loop cfg ws _) in *. clearbody s. cbv zeta.
  destruct (running_ s); [|intros E; by destruct (lookup_empty_Some id c)].
  intros E. destruct (Hc id c E) as [Hcl Hp]. split; [done|].
  destruct (write_interest c) eqn:Hw; [by left|]. right.
  destruct (Hl id c E) as [|H]; [|done|by apply elem_of_nil in H].
  unfold stuck. rewrite Hcl, Hp, Hw. cbn. rewrite !andb_true_r. apply orb_true_iff.
  destruct Hmore as [Ho|Hs]; [left; by apply negb_true_iff, beq_neq|right; by apply bool_decide_eq_true].
Qed.

(** ** A reply that is sent at once *)

Section at_once.
Context {DS : Type} {cmds : Commands DS}.
Abbreviation node := (Node DS).

Lemma set_input c : input c = [] -> c <| input := [] |> = c.
Proof. intros H. destruct c. simpl in *. by subst. Qed.

Lemma on_client_found id f (n : node) c :
  conns_ n !! id = Some c -> conns_ (on_client id f n) !! id = Some (f c).
Proof. intros E. unfold on_client. cbn [update conns_]. by rewrite lookup_alter_eq, E. Qed.

(** A connection with nothing more to run. *)
Lemma idle_round fuel id (n : node) c :
  conns_ n !! id = Some c -> input c = [] -> held_command c = None ->
  exists n', process_loop (S fuel) id n = (true, n') /\ store_ n' = store_ n /\ conns_ n' !! id = Some c.
Proof.
  intros E Hi Hh. cbn [process_loop]. rewrite E. destruct (blocked c || doomed c); [by eexists|].
  rewrite Hh, Hi, Parser.try_parse_outcome.
  change (Parser.outcome_of []) with Parser.OIncomplete. cbn [Parser.status Parser.buffer_].
  eexists. split; [done|]. split; [done|]. rewrite (on_client_found id _ n c E). by rewrite set_input.
Qed.

(** One whole command, run from an empty buffer. *)
Lemma run_one fuel id (n : node) c argv reply n1 c1 :
  conns_ n !! id = Some c -> ordinary c -> held_command c = None -> writes_paused_ n = false ->
  Parser.fits argv /\ Forall Parser.fits argv -> input c = Reply.command [] argv ->
  dispatch id argv (on_client id (fun c => c <| input := [] |>) n) = (reply, n1) ->
  conns_ n1 !! id = Some c1 ->
  exists n' c', process_loop (S (S fuel)) id n = (true, n') /\ store_ n' = store_ n1 /\
    conns_ n' !! id = Some c' /\ input c' = [] /\ sent c' = sent c1 /\ out c' = out c1 ++ reply /\
    closing c' = closing c1 /\ repl_snapshot_fd c' = repl_snapshot_fd c1.
Proof.
  intros E (Hs & Hm & Hb & Hd) Hh Hp [Hf1 Hf2] Hi Hdisp E1. remember (S fuel) as f eqn:Ef. cbn [process_loop]. rewrite E, Hb, Hd, Hh, Hi. cbn [orb].
  rewrite Parser.try_parse_outcome. rewrite <-(app_nil_r (Reply.command [] argv)).
  rewrite (Parser.outcome_of_command argv [] Hf1 Hf2). cbn [Parser.status Parser.cmd Parser.buffer_].
  rewrite app_nil_r, drop_all. set (n0 := on_client id (fun c => c <| input := [] |>) n) in *.
  assert (E0 : conns_ n0 !! id = Some (c <| input := [] |>)) by by apply on_client_found.
  unfold run_command. rewrite E0. cbn [update is_master repl_state]. rewrite Hm, Hs, bool_decide_eq_true_2 by done.
  assert (writes_paused_ n0 = false) as -> by done. cbn [negb andb]. rewrite Hdisp.
  pose proof (dispatch_effect id argv n0) as He. rewrite Hdisp in He. cbn [fst snd] in He.
  destruct (evolves_lookup _ _ _ _ _ _ (evolves_effect id _ _ _ He) E0) as (c1' & E1' & Hin & Hhe).
  assert (c1' = c1) as -> by congruence. cbn in Hin, Hhe.
  set (n2 := on_client id (fun c => c <| out := out c ++ reply |>) n1).
  assert (E2 : conns_ n2 !! id = Some (c1 <| out := out c1 ++ reply |>))
    by apply (on_client_found id (fun c => c <| out := out c ++ reply |>) n1 c1 E1).
  assert (H3 : exists c3, conns_ (if negb (offset n2 =? offset n0) then on_client id (fun c => c <| woff := offset n2 |>) n2
      else n2) !! id = Some c3 /\ input c3 = [] /\ held_command c3 = None /\ sent c3 = sent c1 /\
      out c3 = out c1 ++ reply /\ closing c3 = closing c1 /\ repl_snapshot_fd c3 = repl_snapshot_fd c1).
  { case_match; eexists; (split; [first [exact E2|apply (on_client_found id _ n2 _ E2)]|]); cbn; by rewrite Hhe. }
  assert (Hst : store_ (if negb (offset n2 =? offset n0) then on_client id (fun c => c <| woff := offset n2 |>) n2
      else n2) = store_ n1) by by case_match.
  set (n3 := if negb _ then _ else _) in *. clearbody n3. destruct H3 as (c3 & E3 & I3 & P3 & S3 & O3 & C3 & R3).
  destruct (idle_round fuel id n3 c3 E3 I3 P3) as (n' & El & Hs' & E'). rewrite Ef, El. exists n', c3. by rewrite Hs', Hst.
Qed.

Lemma taken_at_once id now data (n : node) c :
  conns_ n !! id = Some c -> input c = [] ->
  on_client id (fun c => c <| input := [] |>)
    (on_client id (fun c => c <| last_interaction := now |> <| input := input c ++ data |>) n)
  = on_client id (fun c => c <| last_interaction := now |>) n.
Proof.
  intros E Hi. rewrite !ReplicationStream.on_client_each. destruct n. cbn [update conns_] in *. f_equal.
  apply map_eq. intros i. rewrite !ReplicationStream.lookup_each.
  destruct (decide (i = id)) as [->|Hne].
  - rewrite E. cbn. by destruct c; simpl in *; subst.
  - destruct (_ !! i); done.
Qed.

Lemma flush_sent io c :
  repl_snapshot_fd c = None -> io_send_error io = false -> (length (out c) <= io_took io)%nat ->
  sent (flush_io io c) = sent c ++ out c.
Proof.
  intros Hf He Ht. unfold flush_io, flush. rewrite Hf, He. cbn [negb andb].
  rewrite (take_ge (out c)), (drop_ge (out c)) by done. unfold set_write_interest.
  repeat case_match; done.
Qed.
End at_once.

(** ** A server with a log *)

(** The dataset of the example: what has been logged, and what of it has been
    written to the append-only file. *)
Record Logged := { log_buffer : list Args; log_file : list Args }.

Definition demo_dispatch (id : Z) (argv : Args) (n : Node Logged) : bytes * Node Logged :=
  match argv with
  | [c; _; _] =>
      if beq c &"SET" then
        (Reply.simple_string [] &"OK",
         execute [argv] {| log_buffer := log_buffer (store_ n) ++ [argv]; log_file := log_file (store_ n) |} n)
      else (Reply.error [] &"ERR unknown command", n)
  | _ => (Reply.simple_string [] &"PONG", n)
  end.

Lemma demo_effect id argv n : effect id n (demo_dispatch id argv n).1 (demo_dispatch id argv n).2.
Proof.
  unfold demo_dispatch. repeat case_match; apply effect_other; try done. apply rtc_once, side_execute.
Qed.

#[local] Instance demo_commands : Commands Logged :=
  {| dispatch := demo_dispatch; is_write := fun argv => (length argv =? 3)%nat;
     dispatch_effect := demo_effect |}.

Definition demo_config : Config (DS := Logged) :=
  {| maxclients_ := 10; cron_interval_ := 100000000; stall_threshold_ := 1000000000;
     persist := fun d => {| log_buffer := []; log_file := log_file d ++ log_buffer d |};
     dump_ := fun _ => [] |}.

Definition demo_wakeup (t : Z) (es : list (Event (DS := Logged))) (took : nat) : Wakeup :=
  {| woke := t; events := es; on_stall := []; cron_now := t; cron_before := []; cron_connected := true;
     cron_fork_ok := true; cron_after := []; sleep_before := []; sleep_now := t;
     sends := fun _ => {| io_file := file_intr; io_took := took; io_send_error := false; io_epoll := true;
                          io_time := t |} |}.

Definition demo_options : Options :=
  {| listening_port := 6379; backlog_size := 64; timeout := 60000000000; ping_period := 10000000000 |}.

Definition demo_start : Loop (DS := Logged) :=
  mkLoop (make demo_options (replicate 40 "0"%byte) {| log_buffer := []; log_file := [] |})
    100000000 0 true.

(** A client connects and sends PING; its socket takes three bytes. *)
Definition demo_wakeups : list (Wakeup (DS := Logged)) :=
  [demo_wakeup 1 [ev_listen [accepted &"10.0.0.9" true]] 0;
   demo_wakeup 2 [ev_conn 1 (Some (read_data (Reply.command [] [&"PING"]))) None 2] 3].

Definition demo_loop : Loop (DS := Logged) := run demo_config demo_wakeups demo_start.
Definition demo_conn (s : Loop (DS := Logged)) : Client := default new_client (conns_ (node_ s) !! 1).

Definition demo_set : Args := [&"SET"; &"k"; &"v"].
(** Two commands arrive in one read, and the start of a third. *)
Definition demo_pipeline : Node Logged :=
  on_client 1 (fun c => c <| input := Reply.command (Reply.command [] [&"PING"]) demo_set ++ &"*1" |>)
    (node_ demo_loop).

Lemma input_is_drained_witness :
  settled 1 (process_input 1 demo_pipeline) /\
  option_map (fun c => (sent c ++ out c, input c)) (conns_ (process_input 1 demo_pipeline) !! 1)
  = Some (&"+PONG" ++ crlf ++ &"+PONG" ++ crlf ++ &"+OK" ++ crlf, &"*1").
Proof.
  split; [|by vm_compute].
  apply (input_is_drained demo_commands 1 demo_pipeline). by vm_compute; eexists.
Defined.

Lemma no_reply_stuck_witness :
  closing (demo_conn demo_loop) = false /\
  (write_interest (demo_conn demo_loop) = true \/ 1 ∈ to_resume_ (node_ demo_loop)).
Proof.
  apply (no_reply_stuck demo_commands demo_config demo_wakeups demo_options (replicate 40 "0"%byte)
           {| log_buffer := []; log_file := [] |} 100000000); [by vm_compute|]. left. by vm_compute.
Defined.

(** C35: a reply can overtake the log.  The hook that writes the append-only file
    runs after the events of an iteration and before its replies are sent, so
    that no write is acknowledged that is not in the file.  But a connection that
    is readable and writable at once is flushed right after its commands ran:
    whatever the dispatcher does with the command, when the event has been
    handled its reply has left through the socket, and the dataset is the one the
    dispatcher left, which the hook has yet to see. *)
Theorem reply_overtakes_log {DS} (cmds : Commands DS) dump maxclients running (n n1 : Node DS) id c c1
    argv reply io now
    (Hconn : conns_ n !! id = Some c) (Hordinary : ordinary c)
    (Hidle : input c = [] /\ held_command c = None) (Hpaused : writes_paused_ n = false)
    (Hfits : Parser.fits argv /\ Forall Parser.fits argv)
    (Hsize : zlen (Reply.command [] argv) <= kReadChunkSize)
    (Hdispatch : dispatch id argv (on_client id (fun c => c <| last_interaction := now |>) n) = (reply, n1))
    (Hafter : conns_ n1 !! id = Some c1) (Hopen : closing c1 = false /\ repl_snapshot_fd c1 = None)
    (Hio : io_send_error io = false /\ (length (out c1 ++ reply) <= io_took io)%nat) :
  let '(_, n') := handle_event dump maxclients (running, n)
                    (ev_conn id (Some (read_data (Reply.command [] argv))) (Some io) now) in
  store_ n' = store_ n1 /\
  exists c', conns_ n' !! id = Some c' /\ sent c' = sent c1 ++ out c1 ++ reply.
Proof.
  destruct Hidle as [Hi Hh], Hopen as [Hcl Hfd], Hio as [He Ht]. pose proof Hordinary as (Hs & Hm & Hb & Hd).
  assert (Hd' := Hd). apply orb_false_iff in Hd' as [Hc Hca].
  unfold handle_event, handle_readable. rewrite Hconn, Hc. cbn [negb]. rewrite Hca.
  rewrite take_ge by (unfold zlen in Hsize; lia).
  rewrite <-(taken_at_once id now (Reply.command [] argv) n c Hconn Hi) in Hdispatch.
  set (g := fun c => c <| last_interaction := now |> <| input := input c ++ Reply.command [] argv |>) in *.
  assert (E0 : conns_ (on_client id g n) !! id = Some (g c)) by by apply on_client_found.
  unfold process_input. rewrite E0.
  destruct (run_one (length (input (g c))) id (on_client id g n) (g c) argv reply n1 c1)
    as (n' & c' & El & Hst & E' & I' & S' & O' & C' & F'); try done; [by unfold g; cbn; rewrite Hi|].
  cbn [plus]. rewrite El. cbn [negb].
  assert (check_query_buffer id n' = n') as ->.
  { unfold check_query_buffer. rewrite E', I'. by rewrite andb_false_r. }
  rewrite (on_client_found id queue_write n' c' E'). cbn [update closing queue_write]. rewrite C', Hcl. cbn [negb].
  split; [done|]. exists (flush_io io (queue_write c')). split.
  - apply on_client_found. by apply on_client_found.
  - rewrite flush_sent; [cbn; by rewrite S', O'|by cbn; rewrite F'|done|cbn; by rewrite O'].
Qed.

Definition demo_io : SendIo :=
  {| io_file := file_intr; io_took := 100; io_send_error := false; io_epoll := true; io_time := 3 |}.

Definition demo_dispatched : bytes * Node Logged :=
  dispatch 1 demo_set (on_client 1 (fun c => c <| last_interaction := 3 |>) (node_ demo_loop)).

Lemma reply_overtakes_log_witness :
  let '(_, n') := handle_event (dump_ demo_config) 10 (true, node_ demo_loop)
                    (ev_conn 1 (Some (read_data (Reply.command [] demo_set))) (Some demo_io) 3) in
  store_ n' = store_ demo_dispatched.2 /\
  exists c', conns_ n' !! 1 = Some c' /\
    sent c' = sent (demo_conn (mkLoop demo_dispatched.2 0 0 true)) ++
              out (demo_conn (mkLoop demo_dispatched.2 0 0 true)) ++ demo_dispatched.1.
Proof.
  apply (reply_overtakes_log demo_commands _ _ _ _ _ _ (demo_conn demo_loop)).
  - by vm_compute.
  - by vm_compute.
  - by vm_compute.
  - by vm_compute.
  - split; [done|]. repeat constructor; done.
  - by vm_compute.
  - by vm_compute.
  - by vm_compute.
  - by vm_compute.
  - vm_compute. split; [done|lia].
Defined.

End EventLoopClaims.
