(* ===== verification/Cluster.v ===== *)
(** * The cluster (src/src/cluster.cpp, src/include/cluster.hpp)

    One node's view of the cluster and everything that changes it: messages of
    the bus, the timer, the hook before sleeping and the CLUSTER command.  A
    [Cluster] holds the objects the C++ code points to: [heap] maps a pointer to
    the node it points to, [nodes_] maps an id to a pointer, and the slot arrays
    hold pointers ([nullptr] is the absence of an entry).  Links are kept the
    same way.  The node's replication is part of the state ([repl]); the store
    is reached through it and the class [SlotStore].

    What the code does not decide is the [World]: the clock (read once per
    event), what sockets take, random ids and shuffles, whether a file can be
    saved.  Ghosts record what the file of the configuration holds ([disk]), which
    older files a crash of the machine may bring back because the rename over them
    was never synced ([unsynced]), and which messages were handed to a link
    ([posted]). *)

From Stdlib Require Import Lia.
From S2P Require Import Prelude Resp Slots ClusterMsg Replication.

Module Cluster.

Module M := ClusterMsg.
Module R := Replication.

Abbreviation Args := (list bytes).
Abbreviation Message := M.Message.
Abbreviation SlotBitmap := M.SlotBitmap.

(** ** Constants; durations and times are in nanoseconds *)

Definition ms (n : Z) : Z := n * 1000000.
Definition seconds (n : Z) : Z := n * 1000000000.

Definition kReadChunk : Z := 16 * 1024.
Definition kMaxLinkInput : Z := 1024 * 1024.
Definition kMaxLinkOutput : Z := 64 * 1024 * 1024.
Definition kBlacklistTtl : Z := seconds 60.
Definition kMinHandshakeTimeout : Z := seconds 1.
Definition kRandomPingEvery : Z := 10.
Definition kRandomPingSample : nat := 5.
Definition kFailReportValidityMult : Z := 2.
Definition kFailUndoTimeMult : Z := 2.
Definition kManualFailoverTimeout : Z := seconds 5.
Definition kWritableDelay : Z := seconds 2.
Definition kMinRejoinDelay : Z := ms 500.
Definition kMaxRejoinDelay : Z := ms 5000.
Definition kMinAuthTimeout : Z := ms 2000.

(** [enum Flag]. *)
Definition kMyself : Z := 1.
Definition kMaster : Z := 2.
Definition kReplica : Z := 4.
Definition kHandshake : Z := 8.
Definition kMeet : Z := 16.
Definition kNoAddr : Z := 32.
Definition kPFail : Z := 64.
Definition kFail : Z := 128.

(** ** Data *)

Record Options := {
  config_file : bytes;
  bind_addr : bytes;
  port : Z;
  cport : Z;
  node_timeout : Z;
  require_full_coverage : bool;
  replica_validity_factor : Z;
  replica_no_failover : bool;
}.

(** [Cluster::Node]. *)
Record Peer := mkPeer {
  n_id : bytes;
  n_ip : bytes;
  n_port : Z;
  n_cport : Z;
  n_flags : Z;
  n_master_id : bytes;
  n_config_epoch : Z;
  n_slots : SlotBitmap;
  n_ctime : Z;
  n_ping_sent : Z;  (* 0 while no PING awaits its PONG *)
  n_pong_received : Z;
  n_fail_time : Z;
  n_voted_time : Z;
  n_repl_offset : Z;
  n_fail_reports : gmap bytes Z;
  n_link : option Z;
}.

#[global] Instance peer_eta : Eta Peer := fun n =>
  mkPeer (n_id n) (n_ip n) (n_port n) (n_cport n) (n_flags n) (n_master_id n) (n_config_epoch n)
    (n_slots n) (n_ctime n) (n_ping_sent n) (n_pong_received n) (n_fail_time n) (n_voted_time n)
    (n_repl_offset n) (n_fail_reports n) (n_link n).

Definition new_peer : Peer := mkPeer [] [] 0 0 0 [] 0 0 0 0 0 0 0 0 ∅ None.

(** [n->is(f)]: one of the flags [f] is set. *)
Definition is_ (f : Z) (n : Peer) : bool := negb (Z.land (n_flags n) f =? 0).
Definition set_flags (f : Z) (n : Peer) : Peer := n <| n_flags := Z.lor (n_flags n) f |>.
Definition clear_flags (f : Z) (n : Peer) : Peer := n <| n_flags := Z.ldiff (n_flags n) f |>.

(** One bus connection; [l_input] is what its parser holds. *)
Record Link := mkLink {
  l_node : option Z;
  connecting : bool;
  write_interest : bool;
  dead : bool;
  l_input : bytes;
  l_out : bytes;
  peer_ip : bytes;
  l_ctime : Z;
}.

#[global] Instance link_eta : Eta Link := fun l =>
  mkLink (l_node l) (connecting l) (write_interest l) (dead l) (l_input l) (l_out l) (peer_ip l)
    (l_ctime l).

Definition new_link : Link := mkLink None false false false [] [] [] 0.

(** The nodes and the slots. *)
Record Table := mkTable {
  heap : gmap Z Peer;
  next_ptr : Z;
  nodes_ : gmap bytes Z;
  owner_ : gmap Z Z;
  migrating_to_ : gmap Z Z;
  importing_from_ : gmap Z Z;
}.

#[global] Instance table_eta : Eta Table := fun t =>
  mkTable (heap t) (next_ptr t) (nodes_ t) (owner_ t) (migrating_to_ t) (importing_from_ t).

(** What to do before sleeping. *)
Record Todo := mkTodo {
  todo_save_ : bool;
  todo_update_state_ : bool;
  todo_broadcast_ : bool;
  todo_handle_failover_ : bool;
  todo_handle_manual_failover_ : bool;
}.

#[global] Instance todo_eta : Eta Todo := fun t =>
  mkTodo (todo_save_ t) (todo_update_state_ t) (todo_broadcast_ t) (todo_handle_failover_ t)
    (todo_handle_manual_failover_ t).

(** Our election, as a replica. *)
Record Auth := mkAuth {
  failover_auth_time_ : option Z;
  failover_auth_rank_ : Z;
  failover_auth_sent_ : bool;
  failover_auth_count_ : Z;
  failover_auth_epoch_ : Z;
}.

#[global] Instance auth_eta : Eta Auth := fun a =>
  mkAuth (failover_auth_time_ a) (failover_auth_rank_ a) (failover_auth_sent_ a)
    (failover_auth_count_ a) (failover_auth_epoch_ a).

(** Manual failover. *)
Record Manual := mkManual {
  mf_end_ : option Z;
  mf_replica_ : option Z;
  mf_master_offset_ : option Z;
  mf_can_start_ : bool;
  writes_paused_ : bool;
}.

#[global] Instance manual_eta : Eta Manual := fun m =>
  mkManual (mf_end_ m) (mf_replica_ m) (mf_master_offset_ m) (mf_can_start_ m) (writes_paused_ m).
(** What a [send] loop does: take everything, take some bytes and then block,
    or fail. *)
Inductive SendOutcome := send_all | send_takes (k : nat) | send_fails.

(** Saving the configuration: done, failed with the old file in place, or
    failed after the new one was renamed over it. *)
Inductive SaveOutcome := save_ok | save_failed | save_unsynced.

(** Lists are consumed from the front; when one is empty, a socket takes
    everything and a save works. *)
Record World := mkWorld {
  w_now : Z;
  w_unix_ms : Z;  (* the system clock, in milliseconds *)
  w_sends : list SendOutcome;
  w_saves : list SaveOutcome;
  w_rng : nat -> Z;  (* the values [random_id] draws from [rng_], *)
  w_drawn : nat;     (* and how many it has drawn *)
  w_shuffle : list Z -> list Z;
  w_jitter : Z;
  w_connect : Z -> bool;  (* whether a socket to a node could be opened and watched *)
  w_local_ip : option bytes;
}.

#[global] Instance world_eta : Eta World := fun w =>
  mkWorld (w_now w) (w_unix_ms w) (w_sends w) (w_saves w) (w_rng w) (w_drawn w) (w_shuffle w)
    (w_jitter w) (w_connect w) (w_local_ip w).

(** What the cluster asks of the dataset.  [contains] (in the given mode of
    expiry) and [delete_slot] return the commands that log what they delete: a
    key found expired, the keys of the slot. *)
Class SlotStore (DS : Type) := {
  count_keys_in_slot : DS -> Z -> Z;
  contains : bool -> bytes -> DS -> bool * list Args * DS;
  keys_in_slot : DS -> Z -> Z -> list bytes;
  delete_slot : Z -> DS -> list Args * DS;
  db_size : DS -> Z;
}.

Record Cluster {DS : Type} := mkCluster {
  options_ : Options;
  repl : R.Node DS;
  hosted : bool;  (* host_ != nullptr *)
  table : Table;
  myself_ : Z;
  current_epoch_ : Z;
  last_vote_epoch_ : Z;
  blacklist_ : gmap bytes Z;
  state_ok_ : bool;
  todo : Todo;
  writable_after_ : Z;
  among_minority_time_ : Z;
  auth : Auth;
  cant_failover_reason_ : bytes;
  manual : Manual;
  links : gmap Z Link;
  next_link : Z;
  cron_iterations_ : Z;
  messages_sent_ : Z;
  messages_received_ : Z;
  world : World;
  disk : option bytes;
  unsynced : list (option bytes);
  posted : list (option Z * Message);
}.
#[global] Arguments Cluster : clear implicits.

#[global] Instance cluster_eta {DS} : Eta (Cluster DS) := fun c =>
  mkCluster DS (options_ c) (repl c) (hosted c) (table c) (myself_ c) (current_epoch_ c)
    (last_vote_epoch_ c) (blacklist_ c) (state_ok_ c) (todo c) (writable_after_ c)
    (among_minority_time_ c) (auth c) (cant_failover_reason_ c) (manual c) (links c) (next_link c)
    (cron_iterations_ c) (messages_sent_ c) (messages_received_ c) (world c) (disk c) (unsynced c)
    (posted c).

(** ** Text *)

(** [parse_num<T>] for a type with the given signedness and range. *)
Definition parse_num (signed : bool) (lo hi : Z) (s : bytes) : option Z := from_chars_all signed lo hi s.

Definition parse_int (s : bytes) : option Z := parse_num true (- 2 ^ 31) (2 ^ 31 - 1) s.
Definition parse_i64 (s : bytes) : option Z := parse_num true int64_min int64_max s.
Definition parse_u64 (s : bytes) : option Z := parse_num false 0 M.uint64_max s.
Definition parse_u16 (s : bytes) : option Z := parse_num false 0 M.uint16_max s.

Definition parse_slot (s : bytes) : option Z :=
  match parse_int s with
  | Some slot => if (0 <=? slot) && (slot <? kSlots) then Some slot else None
  | None => None
  end.

(** The C string of a [std::string] ends at its first NUL. *)
Definition c_str (s : bytes) : bytes :=
  match find_byte x00 s 0 with Some k => take k s | None => s end.

(** [inet_pton(AF_INET, ...)] of the C library: four decimal octets, none above
    255 and none with a leading zero. *)
Fixpoint inet_pton_loop (s : bytes) (octets value : Z) (saw_digit : bool) : bool :=
  match s with
  | [] => octets =? 4
  | ch :: s =>
      if is_digit ch then
        let new := value * 10 + (bz ch - 48) in
        if saw_digit && (value =? 0) then false
        else if 255 <? new then false
        else if saw_digit then inet_pton_loop s octets new true
        else if 4 <? octets + 1 then false
        else inet_pton_loop s (octets + 1) new true
      else if (bz ch =? 46) && saw_digit then
        if octets =? 4 then false else inet_pton_loop s octets 0 false
      else false
  end.

Definition valid_ipv4 (ip : bytes) : bool := inet_pton_loop (c_str ip) 0 0 false.

(** [std::getline] on a separator: what it yields for a whole text. *)
Fixpoint getlines (sep : byte) (s : bytes) : list bytes :=
  match s with
  | [] => []
  | ch :: t =>
      if bool_decide (ch = sep) then [] :: getlines sep t
      else match getlines sep t with
           | [] => [[ch]]
           | part :: parts => (ch :: part) :: parts
           end
  end.

Definition split (s : bytes) (sep : byte) : list bytes :=
  List.filter (fun part => negb (beq part [])) (getlines sep s).

Definition all_slots : list Z := seqZ 0 kSlots.

(** [for_each_range]: the maximal runs of set bits, in order. *)
Fixpoint ranges_from (fuel : nat) (slot : Z) (slots : SlotBitmap) (open : option Z) : list (Z * Z) :=
  match fuel with
  | O => match open with Some start => [(start, slot - 1)] | None => [] end
  | S fuel =>
      if Z.testbit slots slot then
        ranges_from fuel (slot + 1) slots (Some (default slot open))
      else
        match open with Some start => [(start, slot - 1)] | None => [] end
        ++ ranges_from fuel (slot + 1) slots None
  end.

Definition ranges (slots : SlotBitmap) : list (Z * Z) := ranges_from (Z.to_nat kSlots) 0 slots None.

(** The id of 40 values drawn from the [k]th on. *)
Definition kHex : bytes := &"0123456789abcdef".
Definition drawn_id (rng : nat -> Z) (k : nat) : bytes :=
  map (fun i => nth (Z.to_nat (rng i mod 16)) kHex "0"%byte) (seq k M.kNodeIdLength).

Section cluster.
Context {DS : Type} `{SlotStore DS}.
Abbreviation cluster := (Cluster DS).

(** ** Accessors *)

Definition now (c : cluster) : Z := w_now (world c).
Definition store_ (c : cluster) : DS := R.store_ (repl c).

Definition peer (c : cluster) (p : Z) : Peer := default new_peer (heap (table c) !! p).
Definition myself (c : cluster) : Peer := peer c (myself_ c).
Definition link_of (c : cluster) (l : Z) : Link := default new_link (links c !! l).

Definition on_peer (p : Z) (f : Peer -> Peer) (c : cluster) : cluster :=
  c <| table := table c <| heap := alter f p (heap (table c)) |> |>.
Definition on_link (l : Z) (f : Link -> Link) (c : cluster) : cluster :=
  c <| links := alter f l (links c) |>.
Definition on_repl (f : R.Node DS -> R.Node DS) (c : cluster) : cluster := c <| repl := f (repl c) |>.
Definition on_auth (f : Auth -> Auth) (c : cluster) : cluster := c <| auth := f (auth c) |>.
Definition on_manual (f : Manual -> Manual) (c : cluster) : cluster := c <| manual := f (manual c) |>.
Definition on_table (f : Table -> Table) (c : cluster) : cluster := c <| table := f (table c) |>.

Definition todo_save (c : cluster) : cluster := c <| todo := todo c <| todo_save_ := true |> |>.
Definition todo_update_state (c : cluster) : cluster :=
  c <| todo := todo c <| todo_update_state_ := true |> |>.
Definition todo_broadcast (c : cluster) : cluster := c <| todo := todo c <| todo_broadcast_ := true |> |>.
Definition todo_handle_failover (c : cluster) : cluster :=
  c <| todo := todo c <| todo_handle_failover_ := true |> |>.

(** The nodes, in the order the map is walked. *)
Definition node_ptrs (c : cluster) : list Z := map snd (map_to_list (nodes_ (table c))).

Definition lookup (c : cluster) (id : bytes) : option Z := nodes_ (table c) !! id.

Definition random_id (c : cluster) : bytes * cluster :=
  let k := w_drawn (world c) in
  (drawn_id (w_rng (world c)) k, c <| world := world c <| w_drawn := (k + M.kNodeIdLength)%nat |> |>).

(** ** Links *)

Definition free_link (l : Z) (c : cluster) : cluster :=
  let lk := link_of c l in
  if dead lk then c
  else
    let c := match l_node lk with
             | Some p => if bool_decide (n_link (peer c p) = Some l)
                         then on_peer p (fun n => n <| n_link := None |>) c else c
             | None => c
             end in
    on_link l (fun k => k <| dead := true |> <| l_node := None |>) c.

Definition next_send (c : cluster) : SendOutcome * cluster :=
  match w_sends (world c) with
  | o :: os => (o, c <| world := world c <| w_sends := os |> |>)
  | [] => (send_all, c)
  end.

Definition flush_link (l : Z) (c : cluster) : cluster :=
  match l_out (link_of c l) with
  | [] => on_link l (fun k => k <| write_interest := false |>) c
  | _ =>
      let '(o, c) := next_send c in
      match o with
      | send_fails => free_link l c
      | send_all => on_link l (fun lk => lk <| l_out := [] |> <| write_interest := false |>) c
      | send_takes k =>
          on_link l (fun lk =>
            let rest := drop k (l_out lk) in
            lk <| l_out := rest |> <| write_interest := negb (beq rest []) |>) c
      end
  end.

Definition reap_links (c : cluster) : cluster :=
  c <| links := filter (fun '(_, l) => dead l = false) (links c) |>.

Definition send (l : Z) (msg : Message) (c : cluster) : cluster :=
  let lk := link_of c l in
  if dead lk then c
  else
    let c := on_link l (fun k => k <| l_out := M.encode msg (l_out k) |>) c in
    let c := c <| messages_sent_ := u64 (messages_sent_ c + 1) |>
               <| posted := posted c ++ [(l_node lk, msg)] |> in
    if kMaxLinkOutput <? zlen (l_out (link_of c l)) then free_link l c
    else if negb (connecting lk) then flush_link l c else c.

(** ** Messages *)

Definition master_of (c : cluster) (p : Z) : option Z :=
  if is_ kMaster (peer c p) then Some p else lookup c (n_master_id (peer c p)).

Definition header (type : M.MsgType) (c : cluster) : Message :=
  let me := myself c in
  let master := peer c <$> master_of c (myself_ c) in
  {| M.type := type; M.sender := n_id me; M.port := port (options_ c); M.cport := cport (options_ c);
     M.replica := is_ kReplica me; M.master_id := n_master_id me;
     M.current_epoch := current_epoch_ c;
     M.config_epoch := match master with Some m => n_config_epoch m | None => 0 end;
     M.repl_offset := R.offset (repl c);
     M.mflags := match mf_end_ (manual c) with
                 | Some _ => if is_ kMaster me then M.kMsgPaused else 0
                 | None => 0
                 end;
     M.slots := match master with Some m => n_slots m | None => 0 end;
     M.gossip := []; M.update_id := []; M.update_epoch := 0; M.update_slots := 0; M.fail_id := [] |}.

(** A node whose link can be used. *)
Definition usable (c : cluster) (p : Z) : option Z :=
  match n_link (peer c p) with
  | Some l => if negb (connecting (link_of c l)) && negb (is_ kHandshake (peer c p)) then Some l else None
  | None => None
  end.

Definition broadcast (msg : Message) (c : cluster) : cluster :=
  foldl (fun c p =>
    if bool_decide (p = myself_ c) then c
    else match usable c p with Some l => send l msg c | None => c end) c (node_ptrs c).

Definition gossip_candidate (c : cluster) (to : option Z) (p : Z) : bool :=
  let n := peer c p in
  negb (bool_decide (p = myself_ c)) && negb (bool_decide (Some p = to))
  && negb (is_ (Z.lor kHandshake kNoAddr) n)
  && negb (bool_decide (n_link n = None) && (n_slots n =? 0) && negb (is_ kPFail n)).

Definition gossip_entry (n : Peer) : M.GossipEntry :=
  M.mkGossip (n_id n) (n_ip n) (n_port n) (n_cport n) (is_ kReplica n) (is_ kPFail n) (is_ kFail n).

(** The suspects first, then random others up to what is wanted. *)
Definition gossip_about (c : cluster) (to : option Z) : list Z :=
  let candidates := w_shuffle (world c) (List.filter (gossip_candidate c to) (node_ptrs c)) in
  let wanted := Nat.max 3 (size (nodes_ (table c)) / 10) in
  let suspects := List.filter (fun p => is_ kPFail (peer c p)) candidates in
  let others := List.filter (fun p => negb (is_ kPFail (peer c p))) candidates in
  take (Nat.max wanted (length suspects)) (suspects ++ others).

Definition send_ping (l : Z) (type : M.MsgType) (c : cluster) : cluster :=
  let to := l_node (link_of c l) in
  let m := M.with_gossip (header type c) (map (fun p => gossip_entry (peer c p)) (gossip_about c to)) in
  let c := match to with
           | Some p => if bool_decide (type = M.kPing) && (n_ping_sent (peer c p) =? 0)
                       then on_peer p (fun n => n <| n_ping_sent := now c |>) c else c
           | None => c
           end in
  send l m c.

Definition broadcast_pong (c : cluster) : cluster :=
  foldl (fun c p => match usable c p with Some l => send_ping l M.kPong c | None => c end)
    c (node_ptrs c).

Definition send_update (l p : Z) (c : cluster) : cluster :=
  let n := peer c p in
  send l (M.with_update (header M.kUpdate c) (n_id n) (n_config_epoch n) (n_slots n)) c.

(** ** Manual failover: pausing writes *)

Definition pause_writes (paused : bool) (c : cluster) : cluster :=
  let c := on_manual (fun m => m <| writes_paused_ := paused |>) c in
  let c := if hosted c then on_repl (R.set_writes_paused paused) c else c in
  let c := on_repl (fun n => n <| R.passive_expiry_ := paused || R.is_replica n |>) c in
  on_repl (R.set_stream_paused paused) c.

Definition reset_manual_failover (c : cluster) : cluster :=
  let c := if writes_paused_ (manual c) then pause_writes false c else c in
  on_manual (fun m => m <| mf_end_ := None |> <| mf_replica_ := None |>
                        <| mf_master_offset_ := None |> <| mf_can_start_ := false |>) c.

(** ** Nodes and slots *)

(** An entry of [nodes_] that is overwritten destroys the node it held. *)
Definition create_node (id : bytes) (flags : Z) (c : cluster) : Z * cluster :=
  let p := next_ptr (table c) in
  let n := new_peer <| n_id := id |> <| n_flags := flags |> <| n_ctime := now c |> in
  let old h := match nodes_ (table c) !! id with Some q => delete q h | None => h end in
  (p, on_table (fun t => t <| heap := <[p := n]> (old (heap t)) |> <| next_ptr := p + 1 |>
                           <| nodes_ := <[id := p]> (nodes_ t) |>) c).

Definition set_slot_in (slot : Z) (owner : option Z) (t : Table) : Table :=
  let h := match owner_ t !! slot with
           | Some p => alter (fun n => n <| n_slots := Z.clearbit (n_slots n) slot |>) p (heap t)
           | None => heap t
           end in
  match owner with
  | Some p =>
      t <| heap := alter (fun n => n <| n_slots := Z.setbit (n_slots n) slot |>) p h |>
        <| owner_ := <[slot := p]> (owner_ t) |>
  | None => t <| heap := h |> <| owner_ := delete slot (owner_ t) |>
  end.

Definition set_slot (slot : Z) (owner : option Z) (c : cluster) : cluster :=
  todo_update_state (on_table (set_slot_in slot owner) c).

Definition owner (c : cluster) (slot : Z) : option Z := owner_ (table c) !! slot.
Definition migrating_to (c : cluster) (slot : Z) : option Z := migrating_to_ (table c) !! slot.
Definition importing_from (c : cluster) (slot : Z) : option Z := importing_from_ (table c) !! slot.
Definition set_migrating (slot : Z) (p : option Z) (c : cluster) : cluster :=
  on_table (fun t => t <| migrating_to_ := partial_alter (fun _ => p) slot (migrating_to_ t) |>) c.
Definition set_importing (slot : Z) (p : option Z) (c : cluster) : cluster :=
  on_table (fun t => t <| importing_from_ := partial_alter (fun _ => p) slot (importing_from_ t) |>) c.

(** [for (slot = 0; slot < kSlots; ++slot) if (owner_[slot] == p) set_slot(slot, to)]. *)
Definition hand_over (p : Z) (to : option Z) (c : cluster) : cluster :=
  foldl (fun c slot => if bool_decide (owner c slot = Some p) then set_slot slot to c else c)
    c all_slots.

Definition del_node (p : Z) (c : cluster) : cluster :=
  let id := n_id (peer c p) in
  let c := foldl (fun c slot =>
             let c := if bool_decide (owner c slot = Some p) then set_slot slot None c else c in
             let c := if bool_decide (migrating_to c slot = Some p) then set_migrating slot None c else c in
             if bool_decide (importing_from c slot = Some p) then set_importing slot None c else c)
           c all_slots in
  let c := match n_link (peer c p) with Some l => free_link l c | None => c end in
  let c := foldl (fun c q => on_peer q (fun n =>
             n <| n_fail_reports := delete id (n_fail_reports n) |>) c) c (node_ptrs c) in
  let c := if bool_decide (mf_replica_ (manual c) = Some p) then reset_manual_failover c else c in
  let c := on_table (fun t => t <| nodes_ := delete id (nodes_ t) |> <| heap := delete p (heap t) |>) c in
  todo_update_state (todo_save c).

Definition rename_node (p : Z) (id : bytes) (c : cluster) : cluster :=
  let old := n_id (peer c p) in
  let c := on_table (fun t => t <| nodes_ := delete old (nodes_ t) |>) c in
  let c := on_peer p (fun n => n <| n_id := id |>) c in
  on_table (fun t => t <| nodes_ := match nodes_ t !! id with
                                    | Some _ => nodes_ t
                                    | None => <[id := p]> (nodes_ t)
                                    end |>
                       <| heap := match nodes_ t !! id with
                                  | Some _ => delete p (heap t)
                                  | None => heap t
                                  end |>) c.

Definition start_handshake (ip : bytes) (port cport : Z) (c : cluster) : bool * cluster :=
  if negb (valid_ipv4 ip) || (port =? 0) || (cport =? 0) then (false, c)
  else if existsb (fun p => let n := peer c p in
                    is_ kHandshake n && beq (n_ip n) ip && (n_port n =? port) && (n_cport n =? cport))
            (node_ptrs c) then (false, c)
  else
    let '(id, c) := random_id c in
    let '(p, c) := create_node id (Z.lor kHandshake kMeet) c in
    (true, on_peer p (fun n => n <| n_ip := ip |> <| n_port := port |> <| n_cport := cport |>) c).

Definition set_node_as_master (p : Z) (c : cluster) : cluster :=
  todo_save (on_peer p (fun n => set_flags kMaster (clear_flags kReplica n) <| n_master_id := [] |>) c).

Definition follow_master (c : cluster) : cluster :=
  if negb (is_ kReplica (myself c)) then c
  else match lookup c (n_master_id (myself c)) with
  | None => c
  | Some m =>
      let ip := n_ip (peer c m) in
      let pt := n_port (peer c m) in
      if beq ip [] then c
      else if negb (R.is_replica (repl c)) || negb (beq (R.master_host_ (R.link (repl c))) ip)
              || negb (R.master_port_ (R.link (repl c)) =? pt)
      then on_repl (R.replicaof ip pt (now c)) c else c
  end.

Definition set_as_replica_of (master : Z) (c : cluster) : cluster :=
  let c := reset_manual_failover c in
  let c := foldl (fun c slot =>
             let c := if bool_decide (owner c slot = Some (myself_ c)) then set_slot slot None c else c in
             set_importing slot None (set_migrating slot None c)) c all_slots in
  let c := on_peer (myself_ c) (fun n =>
             set_flags kReplica (clear_flags kMaster n) <| n_master_id := n_id (peer c master) |>) c in
  todo_broadcast (todo_save (follow_master c)).

Definition max_epoch (c : cluster) : Z :=
  foldl (fun m p => Z.max m (n_config_epoch (peer c p))) (current_epoch_ c) (node_ptrs c).

(** Epochs are 64 bits wide. *)
Definition bump_epoch_without_consensus (c : cluster) : bool * cluster :=
  let m := max_epoch c in
  if negb (n_config_epoch (myself c) =? 0) && (n_config_epoch (myself c) =? m) then (false, c)
  else
    let c := c <| current_epoch_ := u64 (m + 1) |> in
    let c := on_peer (myself_ c) (fun n => n <| n_config_epoch := current_epoch_ c |>) c in
    (true, todo_broadcast (todo_save c)).

(** One round of the loop over the claimed slots: the state, whether a slot of
    our master was taken, and the lost slots that hold keys. *)
Definition claim_slot (from : Z) (config_epoch : Z) (slots : SlotBitmap) (our_master : option Z)
    (s : cluster * bool * list Z) (slot : Z) : cluster * bool * list Z :=
  let '(c, took, dirty) := s in
  if negb (Z.testbit slots slot) || bool_decide (owner c slot = Some from) then s
  else if bool_decide (importing_from c slot <> None) then s
  else
    let beaten := match owner c slot with
                  | None => true
                  | Some o => n_config_epoch (peer c o) <? config_epoch
                  end in
    if negb beaten then s
    else
      let mine := bool_decide (owner c slot = Some (myself_ c)) in
      let dirty := if mine && (0 <? count_keys_in_slot (store_ c) slot) then dirty ++ [slot] else dirty in
      let c := if mine then todo_broadcast (set_migrating slot None c) else c in
      let took := took || bool_decide (owner c slot <> None /\ owner c slot = our_master) in
      (todo_save (set_slot slot (Some from) c), took, dirty).

Definition drop_slot (c : cluster) (slot : Z) : cluster :=
  let '(dels, d) := delete_slot slot (store_ c) in on_repl (R.execute dels d) c.

Definition update_slots_config_with (from : Z) (config_epoch : Z) (slots : SlotBitmap) (c : cluster) :
    cluster :=
  if bool_decide (from = myself_ c) then c
  else
    let our_master := master_of c (myself_ c) in
    let '(c, took, dirty) :=
      foldl (claim_slot from config_epoch slots our_master) (c, false, []) all_slots in
    match our_master with
    | Some om =>
        if took && (n_slots (peer c om) =? 0) then
          if is_ kMaster (myself c) then set_as_replica_of from c
          else if negb (beq (n_master_id (myself c)) (n_id (peer c from))) then set_as_replica_of from c
          else c
        else if is_ kMaster (myself c) then foldl drop_slot c dirty else c
    | None => if is_ kMaster (myself c) then foldl drop_slot c dirty else c
    end.

(** [a <= b] on strings. *)
Fixpoint bytes_leb (a b : bytes) : bool :=
  match a, b with
  | [], _ => true
  | _, [] => false
  | x :: a, y :: b => if bz x <? bz y then true else if bz y <? bz x then false else bytes_leb a b
  end.

Definition handle_epoch_collision (from : Z) (c : cluster) : cluster :=
  if negb (is_ kMaster (peer c from)) || negb (is_ kMaster (myself c))
     || negb (n_config_epoch (peer c from) =? n_config_epoch (myself c)) then c
  else if bytes_leb (n_id (peer c from)) (n_id (myself c)) then c
  else
    let c := c <| current_epoch_ := u64 (current_epoch_ c + 1) |> in
    let c := on_peer (myself_ c) (fun n => n <| n_config_epoch := current_epoch_ c |>) c in
    todo_broadcast (todo_save c).

(** A master serving at least one slot. *)
Definition serving (n : Peer) : bool := is_ kMaster n && negb (n_slots n =? 0).

Definition cluster_size (c : cluster) : Z :=
  zlen (List.filter (fun p => serving (peer c p)) (node_ptrs c)).

Definition needed_quorum (c : cluster) : Z := cluster_size c / 2 + 1.

Definition update_state (c : cluster) : cluster :=
  let c := c <| todo := todo c <| todo_update_state_ := false |> |> in
  let t := now c in
  let covered := forallb (fun slot => match owner c slot with
                                      | Some p => negb (is_ kFail (peer c p))
                                      | None => false
                                      end) all_slots in
  let ok := negb (require_full_coverage (options_ c)) || covered in
  let size := cluster_size c in
  let reachable := zlen (List.filter (fun p => serving (peer c p)
                     && negb (is_ (Z.lor kPFail kFail) (peer c p))) (node_ptrs c)) in
  let minority := (0 <? size) && (reachable <? size / 2 + 1) in
  let ok := ok && negb minority in
  let c := if minority then c <| among_minority_time_ := t |> else c in
  if Bool.eqb ok (state_ok_ c) then c
  else
    let rejoin_delay := Z.min (Z.max (node_timeout (options_ c)) kMinRejoinDelay) kMaxRejoinDelay in
    if ok && is_ kMaster (myself c) && hosted c
       && ((t <? writable_after_ c) || (t - among_minority_time_ c <? rejoin_delay)) then c
    else c <| state_ok_ := ok |>.

Definition after_stall (c : cluster) : cluster :=
  c <| among_minority_time_ := now c |> <| state_ok_ := false |>.

(** ** Routing *)

Definition address (n : Peer) : bytes := n_ip n ++ &":" ++ to_string (n_port n).

Definition kTryAgain : bytes := &"TRYAGAIN Multiple keys request during rehashing of slot".

(** [store_.contains(key)]. *)
Definition holds (key : bytes) (c : cluster) : bool * cluster :=
  let '(found, dels, d) := contains (R.passive_expiry_ (repl c)) key (store_ c) in
  (found, on_repl (R.execute dels d) c).

Definition count_missing (keys : list bytes) (c : cluster) : Z * cluster :=
  foldl (fun '(missing, c) key =>
    let '(found, c) := holds key c in (if found then missing else missing + 1, c)) (0, c) keys.

(** [None]: the command may run here; otherwise the error. *)
Definition route (keys : list bytes) (write asking readonly : bool) (c : cluster) : option bytes * cluster :=
  match keys with
  | [] => (None, c)
  | key :: rest =>
      let slot := key_hash_slot key in
      if negb (forallb (fun k => key_hash_slot k =? slot) rest) then
        (Some &"CROSSSLOT Keys in request don't hash to the same slot", c)
      else if negb (state_ok_ c) then (Some &"CLUSTERDOWN The cluster is down", c)
      else match owner c slot with
      | None => (Some &"CLUSTERDOWN Hash slot not served", c)
      | Some o =>
          let migrating := bool_decide (o = myself_ c) && bool_decide (migrating_to c slot <> None) in
          let importing := bool_decide (importing_from c slot <> None) in
          let '(missing, c) := if migrating || importing then count_missing keys c else (0, c) in
          if migrating && (0 <? missing) then
            if missing <? zlen keys then (Some kTryAgain, c)
            else (Some (&"ASK " ++ to_string slot ++ &" "
                        ++ address (peer c (default 0 (migrating_to c slot)))), c)
          else if importing && asking then
            (if (1 <? zlen keys) && (0 <? missing) then Some kTryAgain else None, c)
          else if negb (bool_decide (o = myself_ c)) then
            (if negb write && readonly && is_ kReplica (myself c)
                && beq (n_master_id (myself c)) (n_id (peer c o)) then None
             else Some (&"MOVED " ++ to_string slot ++ &" " ++ address (peer c o)), c)
          else (None, c)
      end
  end.

(** ** Failure detection *)

Definition count_fail_reports (p : Z) (c : cluster) : Z * cluster :=
  let validity := node_timeout (options_ c) * kFailReportValidityMult in
  let c := on_peer p (fun n => n <| n_fail_reports :=
             filter (fun '(_, t) => now c - t <= validity) (n_fail_reports n) |>) c in
  (Z.of_nat (size (n_fail_reports (peer c p))), c).

Definition mark_node_as_failing_if_needed (p : Z) (c : cluster) : cluster :=
  if negb (is_ kPFail (peer c p)) || is_ kFail (peer c p) then c
  else
    let '(reports, c) := count_fail_reports p c in
    let failures := reports + (if is_ kMaster (myself c) then 1 else 0) in
    if failures <? needed_quorum c then c
    else
      let c := on_peer p (fun n => set_flags kFail (clear_flags kPFail n) <| n_fail_time := now c |>) c in
      let c := broadcast (M.with_fail (header M.kFail c) (n_id (peer c p))) c in
      todo_save (todo_handle_failover (todo_update_state c)).

Definition clear_node_failure_if_needed (p : Z) (c : cluster) : cluster :=
  let n := peer c p in
  if negb (is_ kFail n) then c
  else if is_ kReplica n || (n_slots n =? 0)
          || (node_timeout (options_ c) * kFailUndoTimeMult <? now c - n_fail_time n)
  then todo_save (todo_update_state (on_peer p (clear_flags kFail) c))
  else c.

Definition detect_failures (c : cluster) : cluster :=
  foldl (fun c p =>
    let n := peer c p in
    if bool_decide (p = myself_ c) || is_ (Z.lor (Z.lor kHandshake kNoAddr) (Z.lor kPFail kFail)) n then c
    else if negb (n_ping_sent n =? 0) && (node_timeout (options_ c) <? now c - n_ping_sent n) then
      mark_node_as_failing_if_needed p (todo_update_state (on_peer p (set_flags kPFail) c))
    else c) c (node_ptrs c).

(** One entry of the gossip of [from]. *)
Definition process_gossip_entry (from : Z) (c : cluster) (g : M.GossipEntry) : cluster :=
  if beq (M.g_id g) (n_id (myself c)) then c
  else match lookup c (M.g_id g) with
  | Some p =>
      if is_ kMaster (peer c from) && negb (is_ kHandshake (peer c p)) then
        let reporter := n_id (peer c from) in
        if M.g_pfail g || M.g_fail g then
          mark_node_as_failing_if_needed p
            (on_peer p (fun n => n <| n_fail_reports := <[reporter := now c]> (n_fail_reports n) |>) c)
        else on_peer p (fun n => n <| n_fail_reports := delete reporter (n_fail_reports n) |>) c
      else c
  | None =>
      match blacklist_ c !! M.g_id g with
      | Some until => if now c <? until then c
                      else (start_handshake (M.g_ip g) (M.g_port g) (M.g_cport g) c).2
      | None => (start_handshake (M.g_ip g) (M.g_port g) (M.g_cport g) c).2
      end
  end.

Definition process_gossip (from : Z) (msg : Message) (c : cluster) : cluster :=
  foldl (process_gossip_entry from) c (M.gossip msg).

(** ** The configuration file *)

(** A steady-clock instant as unix milliseconds; 0 for never. *)
Definition unix_ms (t : Z) (c : cluster) : Z :=
  if t =? 0 then 0 else w_unix_ms (world c) - Z.quot (now c - t) 1000000.

Definition join_flags (flags : list bytes) : bytes :=
  foldl (fun s f => s ++ (if beq s [] then [] else &",") ++ f) [] flags.

Definition flag_names (n : Peer) : list bytes :=
  (if is_ kMyself n then [&"myself"] else []) ++ (if is_ kMaster n then [&"master"] else []) ++
  (if is_ kReplica n then [&"slave"] else []) ++ (if is_ kPFail n then [&"fail?"] else []) ++
  (if is_ kFail n then [&"fail"] else []) ++ (if is_ kHandshake n then [&"handshake"] else []) ++
  (if is_ kNoAddr n then [&"noaddr"] else []).

Definition range_text (r : Z * Z) : bytes :=
  let '(start, stop) := r in
  &" " ++ to_string start ++ (if stop =? start then [] else &"-" ++ to_string stop).

Definition move_text (c : cluster) (slot : Z) : bytes :=
  match migrating_to c slot with
  | Some p => &" [" ++ to_string slot ++ &"->-" ++ n_id (peer c p) ++ &"]" | None => [] end ++
  match importing_from c slot with
  | Some p => &" [" ++ to_string slot ++ &"-<-" ++ n_id (peer c p) ++ &"]" | None => [] end.

Definition describe_node (c : cluster) (p : Z) : bytes :=
  let n := peer c p in
  let flags := join_flags (flag_names n) in
  let connected := bool_decide (p = myself_ c)
                   || match n_link n with Some l => negb (connecting (link_of c l)) | None => false end in
  n_id n ++ &" " ++ n_ip n ++ &":" ++ to_string (n_port n) ++ &"@" ++ to_string (n_cport n) ++ &" "
  ++ (if beq flags [] then &"noflags" else flags) ++ &" "
  ++ (if beq (n_master_id n) [] then &"-" else n_master_id n) ++ &" "
  ++ to_string (unix_ms (n_ping_sent n) c) ++ &" " ++ to_string (unix_ms (n_pong_received n) c) ++ &" "
  ++ to_string (n_config_epoch n) ++ &" " ++ (if connected then &"connected" else &"disconnected")
  ++ concat (map range_text (ranges (n_slots n)))
  ++ (if bool_decide (p = myself_ c) then concat (map (move_text c) all_slots) else [])
  ++ [x0a].

(** [std::sort] by id; ids are distinct. *)
Fixpoint insert_by_id (c : cluster) (p : Z) (l : list Z) : list Z :=
  match l with
  | [] => [p]
  | q :: l => if bytes_leb (n_id (peer c p)) (n_id (peer c q)) then p :: q :: l
              else q :: insert_by_id c p l
  end.

Definition sort_by_id (c : cluster) (l : list Z) : list Z := foldr (insert_by_id c) [] l.

Definition describe_nodes (for_config : bool) (c : cluster) : bytes :=
  let listed := List.filter (fun p => negb (for_config && is_ kHandshake (peer c p))) (node_ptrs c) in
  concat (map (describe_node c) (sort_by_id c listed))
  ++ (if for_config then
        &"vars currentEpoch " ++ to_string (current_epoch_ c) ++ &" lastVoteEpoch "
        ++ to_string (last_vote_epoch_ c) ++ [x0a]
      else []).

Definition save_config (c : cluster) : bool * cluster :=
  let text := describe_nodes true c in
  let '(o, c) := match w_saves (world c) with
                 | o :: os => (o, c <| world := world c <| w_saves := os |> |>)
                 | [] => (save_ok, c)
                 end in
  match o with
  | save_ok => (true, c <| disk := Some text |> <| unsynced := [] |>)
  | save_failed => (false, c)
  | save_unsynced => (false, c <| disk := Some text |> <| unsynced := disk c :: unsynced c |>)
  end.

(** ** Failover, replica side *)

(** What is remembered of the last reason; the log itself is left out. *)
Definition cant_failover (reason : bytes) (c : cluster) : cluster := c <| cant_failover_reason_ := reason |>.

Definition replica_rank (c : cluster) : Z :=
  match lookup c (n_master_id (myself c)) with
  | None => 0
  | Some m =>
      let mine := R.offset (repl c) in
      zlen (List.filter (fun p => let n := peer c p in
        negb (bool_decide (p = myself_ c)) && is_ kReplica n && beq (n_master_id n) (n_id (peer c m))
        && negb (is_ kFail n) && (mine <? n_repl_offset n)) (node_ptrs c))
  end.

Definition request_failover_auth (c : cluster) : cluster :=
  let m := header M.kFailoverAuthRequest c in
  let m := match mf_end_ (manual c) with
           | Some _ => M.mkMessage (M.type m) (M.sender m) (M.port m) (M.cport m) (M.replica m)
                         (M.master_id m) (M.current_epoch m) (M.config_epoch m) (M.repl_offset m)
                         (Z.lor (M.mflags m) M.kMsgForceAck) (M.slots m) (M.gossip m) (M.update_id m)
                         (M.update_epoch m) (M.update_slots m) (M.fail_id m)
           | None => m
           end in
  broadcast m c.

(** [fresh]: the replication id drawn by [replicaof_no_one]. *)
Definition failover_replace_master (fresh : bytes) (c : cluster) : cluster :=
  match lookup c (n_master_id (myself c)) with
  | None => c
  | Some old_master =>
      if is_ kMaster (myself c) then c
      else
        let c := set_node_as_master (myself_ c) c in
        let c := on_repl (R.replicaof_no_one fresh) c in
        let c := hand_over old_master (Some (myself_ c)) c in
        let c := update_state c in
        let c := (save_config c).2 in
        cant_failover [] (reset_manual_failover (broadcast_pong c))
  end.

(** The end of the election: ask for votes, or count them. *)
Definition run_election (fresh : bytes) (c : cluster) : cluster :=
  if negb (failover_auth_sent_ (auth c)) then
    let c := c <| current_epoch_ := u64 (current_epoch_ c + 1) |> in
    let c := on_auth (fun a => a <| failover_auth_epoch_ := current_epoch_ c |>) c in
    let c := request_failover_auth c in
    let c := on_auth (fun a => a <| failover_auth_sent_ := true |>) c in
    todo_update_state (todo_save c)
  else if needed_quorum c <=? failover_auth_count_ (auth c) then
    let c := if n_config_epoch (myself c) <? failover_auth_epoch_ (auth c)
             then on_peer (myself_ c) (fun n =>
                    n <| n_config_epoch := failover_auth_epoch_ (auth c) |>) c
             else c in
    failover_replace_master fresh c
  else cant_failover &"waiting for votes, but majority still not reached" c.

Definition is_manual (c : cluster) : bool :=
  bool_decide (mf_end_ (manual c) <> None) && mf_can_start_ (manual c).

(** Schedule an election, and tell the siblings our offset. *)
Definition schedule_election (c : cluster) : cluster :=
  let t := now c in
  let rank := replica_rank c in
  let c := on_auth (fun a =>
             a <| failover_auth_rank_ := rank |>
               <| failover_auth_time_ := Some (t + ms (500 + w_jitter (world c) mod 500) + seconds rank) |>
               <| failover_auth_count_ := 0 |> <| failover_auth_sent_ := false |>) c in
  let c := match mf_end_ (manual c) with
           | Some _ => todo_handle_failover (on_auth (fun a =>
                         a <| failover_auth_time_ := Some t |> <| failover_auth_rank_ := 0 |>) c)
           | None => c
           end in
  broadcast_pong c.

Definition handle_replica_failover (fresh : bytes) (c : cluster) : cluster :=
  let c := c <| todo := todo c <| todo_handle_failover_ := false |> |> in
  if negb (hosted c) || negb (is_ kReplica (myself c)) then c
  else
    let t := now c in
    let o := options_ c in
    let cannot := match lookup c (n_master_id (myself c)) with
                  | None => true
                  | Some m => (n_slots (peer c m) =? 0)
                              || (negb (is_ kFail (peer c m)) && negb (is_manual c))
                              || (replica_no_failover o && negb (is_manual c))
                  end in
    if cannot then cant_failover [] c
    else
      let auth_timeout := Z.max (node_timeout o * 2) kMinAuthTimeout in
      let auth_retry_time := auth_timeout * 2 in
      let age := t - R.master_last_contact (repl c) in
      let age := if node_timeout o <? age then age - node_timeout o else age in
      if (0 <? replica_validity_factor o) && negb (is_manual c)
         && (R.ping_period (R.options_ (repl c)) + node_timeout o * replica_validity_factor o <? age) then
        cant_failover
          (&"my data is too old: last contact with the master " ++ to_string (Z.quot age (seconds 1))
           ++ &"s ago (see --cluster-replica-validity-factor)") c
      else match failover_auth_time_ (auth c) with
      | None => schedule_election c
      | Some at_ =>
          if auth_retry_time <? t - at_ then schedule_election c
          else
            let rank := replica_rank c in
            let late := negb (failover_auth_sent_ (auth c)) && bool_decide (mf_end_ (manual c) = None)
                        && (failover_auth_rank_ (auth c) <? rank) in
            let at_ := if late then at_ + seconds (rank - failover_auth_rank_ (auth c)) else at_ in
            let c := if late then on_auth (fun a => a <| failover_auth_time_ := Some at_ |>
                                                      <| failover_auth_rank_ := rank |>) c else c in
            if t <? at_ then c
            else if auth_timeout <? t - at_ then
              cant_failover &"election timed out, waiting for the retry time" c
            else run_election fresh c
      end.

(** ** Failover, master side *)

(** Whether one of the claimed slots has a newer owner. *)
Definition claims_newer_slot (request : Message) (c : cluster) : bool :=
  existsb (fun slot => Z.testbit (M.slots request) slot
    && match owner c slot with
       | Some o => M.config_epoch request <? n_config_epoch (peer c o)
       | None => false
       end) all_slots.

Definition send_failover_auth_if_needed (requester : Z) (request : Message) (c : cluster) : cluster :=
  let r := peer c requester in
  if is_ kReplica (myself c) || (n_slots (myself c) =? 0) then c
  else if M.current_epoch request <? current_epoch_ c then c
  else if last_vote_epoch_ c =? current_epoch_ c then c
  else match (if is_ kReplica r then lookup c (n_master_id r) else None) with
  | None => c
  | Some m =>
      let force := negb (Z.land (M.mflags request) M.kMsgForceAck =? 0) in
      let voted := n_voted_time (peer c m) in
      if negb (is_ kFail (peer c m)) && negb force then c
      else if negb (voted =? 0) && (now c - voted <? node_timeout (options_ c) * 2) then c
      else if claims_newer_slot request c then c
      else
        let c := c <| last_vote_epoch_ := current_epoch_ c |> in
        let c := on_peer m (fun n => n <| n_voted_time := now c |>) c in
        let '(ok, c) := save_config c in
        if negb ok then c <| last_vote_epoch_ := 0 |>
        else match n_link (peer c requester) with
             | Some l => if connecting (link_of c l) then c
                         else send l (header M.kFailoverAuthAck c) c
             | None => c
             end
  end.

(** ** Manual failover *)

Definition handle_manual_failover (c : cluster) : cluster :=
  let c := c <| todo := todo c <| todo_handle_manual_failover_ := false |> |> in
  match mf_end_ (manual c), mf_master_offset_ (manual c) with
  | Some _, Some off =>
      if mf_can_start_ (manual c) then c
      else if off =? R.offset (repl c) then
        todo_handle_failover (on_manual (fun m => m <| mf_can_start_ := true |>) c)
      else c
  | _, _ => c
  end.

Definition manual_failover_check_timeout (c : cluster) : cluster :=
  match mf_end_ (manual c) with
  | Some t => if t <? now c then reset_manual_failover c else c
  | None => c
  end.

(** ** A message *)

(** What every message of a known node tells. *)
Definition note_sender (p : Z) (msg : Message) (c : cluster) : cluster :=
  let c := if current_epoch_ c <? M.current_epoch msg
           then todo_save (c <| current_epoch_ := M.current_epoch msg |>) else c in
  let c := if n_config_epoch (peer c p) <? M.config_epoch msg
           then todo_save (on_peer p (fun n => n <| n_config_epoch := M.config_epoch msg |>) c) else c in
  let n := peer c p in
  let c := if negb (n_port n =? M.port msg) || negb (n_cport n =? M.cport msg) then
             let c := on_peer p (fun n => n <| n_port := M.port msg |>) c in
             let c := if negb (n_cport n =? M.cport msg)
                      then match n_link n with Some l => free_link l c | None => c end else c in
             todo_save (on_peer p (fun n => n <| n_cport := M.cport msg |>) c)
           else c in
  let c := on_peer p (fun n => n <| n_repl_offset := M.repl_offset msg |>) c in
  if is_ kReplica (myself c) && beq (n_master_id (myself c)) (n_id (peer c p))
     && negb (Z.land (M.mflags msg) M.kMsgPaused =? 0) && bool_decide (mf_end_ (manual c) <> None)
     && bool_decide (mf_master_offset_ (manual c) = None)
  then on_manual (fun m => m <| mf_master_offset_ := Some (M.repl_offset msg) |>) c
         <| todo := todo c <| todo_handle_manual_failover_ := true |> |>
  else c.

(** PING and MEET are answered; MEET also introduces an unknown node. *)
Definition answer_ping (l : Z) (known : bool) (msg : Message) (c : cluster) : cluster :=
  let c := if beq (n_ip (myself c)) [] then
             match w_local_ip (world c) with
             | Some ip => todo_save (on_peer (myself_ c) (fun n => n <| n_ip := ip |>) c)
             | None => c
             end
           else c in
  let ip := peer_ip (link_of c l) in
  let c := if negb known && bool_decide (M.type msg = M.kMeet) && negb (beq ip [])
           then (start_handshake ip (M.port msg) (M.cport msg) c).2 else c in
  send_ping l M.kPong c.

Definition process_update (msg : Message) (c : cluster) : cluster :=
  match lookup c (M.update_id msg) with
  | None => c
  | Some p =>
      let n := peer c p in
      if is_ kHandshake n || (M.update_epoch msg <=? n_config_epoch n) then c
      else
        let c := if is_ kReplica n then set_node_as_master p c else c in
        let c := todo_save (on_peer p (fun n => n <| n_config_epoch := M.update_epoch msg |>) c) in
        update_slots_config_with p (M.update_epoch msg) (M.update_slots msg) c
  end.

Definition process_fail (msg : Message) (c : cluster) : cluster :=
  match lookup c (M.fail_id msg) with
  | None => c
  | Some p =>
      if bool_decide (p = myself_ c) || is_ kFail (peer c p) || is_ kHandshake (peer c p) then c
      else
        let c := on_peer p (fun n => set_flags kFail (clear_flags kPFail n) <| n_fail_time := now c |>) c in
        todo_save (todo_handle_failover (todo_update_state c))
  end.

Definition process_vote (from : Z) (msg : Message) (c : cluster) : cluster :=
  if serving (peer c from) && (failover_auth_epoch_ (auth c) <=? M.current_epoch msg)
     && failover_auth_sent_ (auth c)
  then todo_handle_failover (on_auth (fun a =>
         a <| failover_auth_count_ := failover_auth_count_ a + 1 |>) c)
  else c.

Definition process_mf_start (l from : Z) (c : cluster) : cluster :=
  if negb (is_ kReplica (peer c from)) || negb (beq (n_master_id (peer c from)) (n_id (myself c))) then c
  else
    let c := reset_manual_failover c in
    let c := on_manual (fun m => m <| mf_end_ := Some (now c + kManualFailoverTimeout) |>
                                   <| mf_replica_ := Some from |>) c in
    let c := pause_writes true c in
    let to := match n_link (peer c from) with
              | Some k => if connecting (link_of c k) then l else k
              | None => l
              end in
    send_ping to M.kPing c.

(** What a PING, PONG or MEET says of the node its link leads to: the sender
    from here on, or [None] when the message ends here. *)
Definition process_link_node (l : Z) (from : option Z) (msg : Message) (c : cluster) :
    option (option Z) * cluster :=
  match l_node (link_of c l) with
  | None => (Some from, c)
  | Some p =>
      let pong c := if bool_decide (M.type msg = M.kPong) then
                      let c := on_peer p (fun n => n <| n_pong_received := now c |>
                                                     <| n_ping_sent := 0 |>) c in
                      if is_ kPFail (peer c p) then todo_update_state (on_peer p (clear_flags kPFail) c)
                      else if is_ kFail (peer c p) then clear_node_failure_if_needed p c
                      else c
                    else c in
      if is_ kHandshake (peer c p) then
        match from with
        | Some _ => (None, del_node p c)
        | None =>
            let c := rename_node p (M.sender msg) c in
            let c := on_peer p (fun n =>
                       set_flags (if M.replica msg then kReplica else kMaster)
                         (clear_flags (Z.lor kHandshake kMeet) n) <| n_master_id := M.master_id msg |>) c in
            (Some (Some p), pong (todo_save c))
        end
      else if negb (beq (n_id (peer c p)) (M.sender msg)) then
        let c := on_peer p (fun n => set_flags kNoAddr n <| n_ip := [] |>) c in
        (None, todo_save (free_link l c))
      else (Some from, pong c)
  end.

(** The sender's role and its slots. *)
Definition process_role (from : Z) (msg : Message) (c : cluster) : cluster :=
  if M.replica msg then
    let c := if is_ kMaster (peer c from) then
               let c := hand_over from None c in
               todo_save (on_peer from (fun n => set_flags kReplica (clear_flags kMaster n)) c)
             else c in
    if negb (beq (n_master_id (peer c from)) (M.master_id msg))
    then todo_save (on_peer from (fun n => n <| n_master_id := M.master_id msg |>) c) else c
  else if is_ kReplica (peer c from) then set_node_as_master from c else c.

Definition process_slots (l from : Z) (msg : Message) (c : cluster) : cluster :=
  if negb (is_ kMaster (peer c from)) then c
  else
    let c := if negb (n_slots (peer c from) =? M.slots msg)
             then update_slots_config_with from (M.config_epoch msg) (M.slots msg) c else c in
    let newer slot := match owner c slot with
                      | Some o => Z.testbit (M.slots msg) slot && negb (bool_decide (o = from))
                                  && (M.config_epoch msg <? n_config_epoch (peer c o))
                      | None => false
                      end in
    let c := match List.find newer all_slots with
             | Some slot => match owner c slot with Some o => send_update l o c | None => c end
             | None => c
             end in
    handle_epoch_collision from c.

Definition process_packet (l : Z) (msg : Message) (c : cluster) : cluster :=
  let from := match lookup c (M.sender msg) with
              | Some p => if is_ kHandshake (peer c p) then None else Some p
              | None => None
              end in
  let c := match from with Some p => note_sender p msg c | None => c end in
  let ping := bool_decide (M.type msg = M.kPing) || bool_decide (M.type msg = M.kMeet) in
  let c := if ping then answer_ping l (bool_decide (from <> None)) msg c else c in
  if ping && dead (link_of c l) then c
  else match M.type msg with
  | M.kUpdate => match from with Some _ => process_update msg c | None => c end
  | M.kFail => match from with Some _ => process_fail msg c | None => c end
  | M.kFailoverAuthRequest =>
      match from with Some p => send_failover_auth_if_needed p msg c | None => c end
  | M.kFailoverAuthAck => match from with Some p => process_vote p msg c | None => c end
  | M.kMfStart => match from with Some p => process_mf_start l p c | None => c end
  | M.kPing | M.kPong | M.kMeet =>
      let '(from, c) := process_link_node l from msg c in
      match from with
      | Some (Some p) => process_gossip p msg (process_slots l p msg (process_role p msg c))
      | _ => c
      end
  end.

(** ** Connections of the bus *)

(** One accepted connection; [watched]: it could be added to the event loop. *)
Definition accept_link (ip : bytes) (watched : bool) (c : cluster) : cluster :=
  if negb watched then c
  else c <| links := <[next_link c := new_link <| peer_ip := ip |> <| l_ctime := now c |>]> (links c) |>
         <| next_link := next_link c + 1 |>.

Definition connect_link (p : Z) (c : cluster) : cluster :=
  let n := peer c p in
  if negb (valid_ipv4 (n_ip n)) then c
  else
    let c := if (n_ping_sent n =? 0) && negb (is_ kHandshake n)
             then on_peer p (fun n => n <| n_ping_sent := now c |>) c else c in
    if negb (w_connect (world c) p) then c
    else
      let l := next_link c in
      let lk := new_link <| l_node := Some p |> <| connecting := true |> <| write_interest := true |>
                         <| l_ctime := now c |> in
      on_peer p (fun n => n <| n_link := Some l |>)
        (c <| links := <[l := lk]> (links c) |> <| next_link := l + 1 |>).

(** [err]: whether SO_ERROR reports a failed connect. *)
Definition finish_connect (l : Z) (err : bool) (c : cluster) : cluster :=
  if err then free_link l c
  else
    let c := on_link l (fun k => k <| connecting := false |>) c in
    match l_node (link_of c l) with
    | None => c
    | Some p =>
        let c := send_ping l (if is_ kMeet (peer c p) then M.kMeet else M.kPing) c in
        let c := on_peer p (clear_flags kMeet) c in
        if negb (dead (link_of c l)) && beq (l_out (link_of c l)) [] then flush_link l c else c
    end.

(** The loop of [read_link]: every round takes bytes out of the parser. *)
Fixpoint read_loop (fuel : nat) (l : Z) (c : cluster) : cluster :=
  match fuel with
  | O => c
  | S fuel =>
      if dead (link_of c l) then c
      else
        let '(r, _, p) := Parser.try_parse_command {| Parser.buffer_ := l_input (link_of c l) |} in
        let c := on_link l (fun k => k <| l_input := Parser.buffer_ p |>) c in
        match Parser.status r with
        | Parser.kIncomplete => c
        | Parser.kProtocolError => free_link l c
        | Parser.kComplete =>
            match M.decode (Parser.cmd r) with
            | None => free_link l c
            | Some msg =>
                read_loop fuel l
                  (process_packet l msg (c <| messages_received_ := u64 (messages_received_ c + 1) |>))
            end
        end
  end.

Definition read_link (l : Z) (r : R.ReadResult) (c : cluster) : cluster :=
  match r with
  | R.read_eof | R.read_error => free_link l c
  | R.read_again => c
  | R.read_data data =>
      let c := on_link l (fun k => k <| l_input := l_input k ++ take (Z.to_nat kReadChunk) data |>) c in
      let c := read_loop (S (length (l_input (link_of c l)))) l c in
      let lk := link_of c l in
      if negb (dead lk) && (kMaxLinkInput <? zlen (l_input lk)) then free_link l c else c
  end.

Definition on_link_event (l : Z) (err : bool) (r : R.ReadResult) (c : cluster) : cluster :=
  let lk := link_of c l in
  if dead lk then c
  else if connecting lk then finish_connect l err c
  else
    let c := if negb (beq (l_out lk) []) then flush_link l c else c in
    if dead (link_of c l) then c else read_link l r c.

(** ** Event-loop hooks *)

(** The first loop of [cron]: the nodes whose handshake expired, and the rest
    connected. *)
Definition cron_connect (s : list Z * cluster) (p : Z) : list Z * cluster :=
  let '(expired, c) := s in
  let n := peer c p in
  if bool_decide (p = myself_ c) || is_ kNoAddr n then s
  else if is_ kHandshake n
          && (Z.max (node_timeout (options_ c)) kMinHandshakeTimeout <? now c - n_ctime n)
  then (expired ++ [p], c)
  else match n_link n with
  | None => (expired, connect_link p c)
  | Some l => let lk := link_of c l in
              if connecting lk && (node_timeout (options_ c) <? now c - l_ctime lk)
              then (expired, free_link l c) else s
  end.

(** The node of a sample that has been silent longest. *)
Definition oldest (c : cluster) (pool : list Z) : option Z :=
  match pool with
  | [] => None
  | p :: pool => Some (foldl (fun a b =>
      if n_pong_received (peer c b) <? n_pong_received (peer c a) then b else a) p pool)
  end.

Definition random_ping (c : cluster) : cluster :=
  let ready p := negb (bool_decide (p = myself_ c)) && bool_decide (usable c p <> None)
                 && (n_ping_sent (peer c p) =? 0) in
  let pool := take kRandomPingSample (w_shuffle (world c) (List.filter ready (node_ptrs c))) in
  match oldest c pool with
  | Some p => match usable c p with Some l => send_ping l M.kPing c | None => c end
  | None => c
  end.

Definition cron_ping (c : cluster) (p : Z) : cluster :=
  if bool_decide (p = myself_ c) then c
  else match usable c p with
  | None => c
  | Some l =>
      let n := peer c p in
      let half := ms (Z.quot (Z.quot (node_timeout (options_ c)) (ms 1)) 2) in  (* of milliseconds *)
      if negb (n_ping_sent n =? 0) then
        if (half <? now c - n_ping_sent n) && (node_timeout (options_ c) <? now c - l_ctime (link_of c l))
        then free_link l c else c
      else if half <? now c - n_pong_received n then send_ping l M.kPing c else c
  end.

Definition cron (fresh : bytes) (c : cluster) : cluster :=
  if negb (hosted c) then c
  else
    let c := c <| cron_iterations_ := u64 (cron_iterations_ c + 1) |> in
    let '(expired, c) := foldl cron_connect ([], c) (node_ptrs c) in
    let c := foldl (fun c p => del_node p c) c expired in
    let c := c <| blacklist_ := filter (fun '(_, t) => now c < t) (blacklist_ c) |> in
    let c := if cron_iterations_ c mod kRandomPingEvery =? 0 then random_ping c else c in
    let c := foldl cron_ping c (node_ptrs c) in
    let c := detect_failures c in
    let c := match mf_end_ (manual c), mf_replica_ (manual c) with
             | Some _, Some p =>
                 if is_ kMaster (myself c)
                 then match usable c p with Some l => send_ping l M.kPing c | None => c end else c
             | _, _ => c
             end in
    let c := manual_failover_check_timeout c in
    let c := if is_ kReplica (myself c)
             then handle_replica_failover fresh (handle_manual_failover c) else c in
    update_state (follow_master c).

Definition before_sleep (fresh : bytes) (c : cluster) : cluster :=
  let c := if todo_handle_manual_failover_ (todo c) && hosted c then handle_manual_failover c else c in
  let c := if todo_handle_failover_ (todo c) && hosted c then handle_replica_failover fresh c else c in
  let c := if todo_update_state_ (todo c) then update_state c else c in
  let c := if todo_broadcast_ (todo c) && hosted c
           then broadcast_pong (c <| todo := todo c <| todo_broadcast_ := false |> |>) else c in
  let c := if todo_save_ (todo c)
           then (save_config (c <| todo := todo c <| todo_save_ := false |> |>)).2 else c in
  reap_links c.

Definition shutdown (c : cluster) : bool * cluster := save_config c.

(** [start], once the socket listens. *)
Definition start (c : cluster) : cluster :=
  let c := c <| hosted := true |> <| writable_after_ := now c + kWritableDelay |> <| state_ok_ := false |> in
  update_state (follow_master c).

(** ** Reading the configuration *)

(** [s.find(sub)]. *)
Fixpoint find_sub (sub s : bytes) : option nat :=
  if beq (take (length sub) s) sub then Some 0%nat
  else match s with [] => None | _ :: s => S <$> find_sub sub s end.

(** [s.rfind(ch)]. *)
Fixpoint rfind_byte (ch : byte) (s : bytes) : option nat :=
  match s with
  | [] => None
  | x :: s => match rfind_byte ch s with
              | Some k => Some (S k)
              | None => if bool_decide (x = ch) then Some 0%nat else None
              end
  end.

(** A state of [parse_config]: what has been read, [myself_], and the moves that
    wait for all nodes to be known. *)
Record Loading := mkLoading { ld_cluster : cluster; ld_me : option Z; ld_moves : list (Z * bool * bytes) }.

Definition flag_bit (fl : bytes) : Z :=
  if beq fl &"myself" then kMyself else if beq fl &"master" then kMaster
  else if beq fl &"slave" then kReplica else if beq fl &"noaddr" then kNoAddr
  else if beq fl &"fail?" then kPFail else if beq fl &"fail" then kFail else 0.

(** The pairs of a [vars] line. *)
Fixpoint parse_vars (f : list bytes) (c : cluster) : bytes + cluster :=
  match f with
  | name :: value :: f =>
      if beq name &"currentEpoch" then
        match parse_u64 value with
        | None => inl &"bad currentEpoch"
        | Some e => parse_vars f (c <| current_epoch_ := e |>)
        end
      else if beq name &"lastVoteEpoch" then
        match parse_u64 value with
        | None => inl &"bad lastVoteEpoch"
        | Some e => parse_vars f (c <| last_vote_epoch_ := e |>)
        end
      else parse_vars f c
  | _ => inr c
  end.

(** [ip:port@cport]. *)
Definition parse_address (s : bytes) : option (bytes * Z * Z) :=
  match rfind_byte ":" s, find_byte "@" s 0 with
  | Some colon, Some at_ =>
      if (at_ <? colon)%nat then None
      else match parse_u16 (take (at_ - colon - 1) (drop (colon + 1) s)), parse_u16 (drop (at_ + 1) s) with
           | Some p, Some cp => Some (take colon s, p, cp)
           | _, _ => None
           end
  | _, _ => None
  end.

(** A slot, a range of slots, or a slot on the move. *)
Definition parse_slot_token (p : Z) (s : Loading) (tok : bytes) : bytes + Loading :=
  if (2 <? length tok)%nat && beq (take 1 tok) &"[" && beq (drop (length tok - 1) tok) &"]" then
    let inner := take (length tok - 2) (drop 1 tok) in
    let mig := find_sub &"->-" inner in
    match (match mig with Some k => Some k | None => find_sub &"-<-" inner end) with
    | None => inl (&"bad slot entry: " ++ tok)
    | Some pos =>
        match parse_slot (take pos inner) with
        | None => inl (&"bad slot entry: " ++ tok)
        | Some slot =>
            inr (mkLoading (ld_cluster s) (ld_me s)
                   (ld_moves s ++ [(slot, bool_decide (mig <> None), drop (pos + 3) inner)]))
        end
    end
  else
    let dash := find_byte "-" tok 0 in
    let lo := match dash with Some k => take k tok | None => tok end in
    let hi := match dash with Some k => drop (k + 1) tok | None => tok end in
    match parse_slot lo, parse_slot hi with
    | Some a, Some b =>
        if b <? a then inl (&"bad slot range: " ++ tok)
        else inr (mkLoading (foldl (fun c slot => set_slot slot (Some p) c) (ld_cluster s)
                               (seqZ a (b - a + 1))) (ld_me s) (ld_moves s))
    | _, _ => inl (&"bad slot range: " ++ tok)
    end.

Fixpoint parse_slot_tokens (p : Z) (toks : list bytes) (s : Loading) : bytes + Loading :=
  match toks with
  | [] => inr s
  | tok :: toks => match parse_slot_token p s tok with
                   | inl e => inl e
                   | inr s => parse_slot_tokens p toks s
                   end
  end.

(** The line of a node, split into fields. *)
Definition parse_node_line (line : bytes) (f : list bytes) (s : Loading) : bytes + Loading :=
  let c := ld_cluster s in
  match f with
  | id :: addr :: fl :: master :: _ :: _ :: epoch :: _ :: toks =>
      if negb (M.valid_node_id id) || bool_decide (lookup c id <> None) then
        inl (&"bad node line: " ++ line)
      else
        let flags := split fl "," in
        if existsb (beq &"handshake") flags then inr s
        else match parse_address addr with
        | None => inl (&"bad address: " ++ addr)
        | Some (ip, p, cp) =>
            let bits := foldl (fun b fl => Z.lor b (flag_bit fl)) 0 flags in
            let '(q, c) := create_node id bits c in
            let c := on_peer q (fun n =>
                       let n := if is_ kFail n then n <| n_fail_time := now c |> else n in
                       n <| n_ip := ip |> <| n_port := p |> <| n_cport := cp |>
                         <| n_master_id := if beq master &"-" then [] else master |>) c in
            match parse_u64 epoch with
            | None => inl (&"bad config epoch: " ++ line)
            | Some e =>
                let c := on_peer q (fun n => n <| n_config_epoch := e |>) c in
                if is_ kMyself (peer c q) then
                  match ld_me s with
                  | Some _ => inl &"more than one node flagged myself"
                  | None => parse_slot_tokens q toks (mkLoading c (Some q) (ld_moves s))
                  end
                else parse_slot_tokens q toks (mkLoading c (ld_me s) (ld_moves s))
            end
        end
  | _ => inl (&"bad node line: " ++ line)
  end.

Fixpoint parse_lines (lines : list bytes) (s : Loading) : bytes + Loading :=
  match lines with
  | [] => inr s
  | line :: lines =>
      match split line " " with
      | [] => parse_lines lines s
      | f0 :: f =>
          if beq f0 &"vars" then
            match parse_vars f (ld_cluster s) with
            | inl e => inl e
            | inr c => parse_lines lines (mkLoading c (ld_me s) (ld_moves s))
            end
          else match parse_node_line line (f0 :: f) s with
               | inl e => inl e
               | inr s => parse_lines lines s
               end
      end
  end.

Definition apply_move (c : cluster) (m : Z * bool * bytes) : cluster :=
  let '(slot, migrating, id) := m in
  match lookup c id with
  | None => c
  | Some p => if migrating then set_migrating slot (Some p) c else set_importing slot (Some p) c
  end.

Definition parse_config (text : bytes) (c : cluster) : bytes + cluster :=
  match parse_lines (getlines x0a text) (mkLoading c None []) with
  | inl e => inl e
  | inr s => match ld_me s with
             | None => inl &"no node is flagged myself"
             | Some p => inr (foldl apply_move (ld_cluster s <| myself_ := p |>) (ld_moves s))
             end
  end.

(** [load_config]; the text of an error of the system is left out. *)
Definition load_config (c : cluster) : bytes + cluster :=
  let loaded := match disk c with
                | None => let '(id, c) := random_id c in
                          let '(p, c) := create_node id (Z.lor kMyself kMaster) c in
                          inr (c <| myself_ := p |>)
                | Some text => parse_config text c
                end in
  match loaded with
  | inl e => inl (config_file (options_ c) ++ &": " ++ e)
  | inr c =>
      let c := on_peer (myself_ c) (fun n =>
                 let n := n <| n_port := port (options_ c) |> <| n_cport := cport (options_ c) |> in
                 if beq (n_ip n) [] && negb (beq (bind_addr (options_ c)) &"0.0.0.0")
                 then n <| n_ip := bind_addr (options_ c) |> else n) c in
      let '(ok, c) := save_config (update_state c) in
      if ok then inr c else inl (config_file (options_ c))
  end.

Definition verify_config_with_data (c : cluster) : cluster :=
  if is_ kReplica (myself c) then c
  else
    let '(c, changed) :=
      foldl (fun '(c, changed) slot =>
        if (count_keys_in_slot (store_ c) slot =? 0) || bool_decide (owner c slot = Some (myself_ c))
           || bool_decide (importing_from c slot <> None) then (c, changed)
        else match owner c slot with
             | None => (set_slot slot (Some (myself_ c)) c, true)
             | Some o => (set_importing slot (Some o) c, true)
             end) (c, false) all_slots in
    update_state (if changed then todo_save c else c).

(** ** The CLUSTER command: a reply and the state *)

Definition err (s : bytes) : bytes := Reply.error [] s.
Definition ok : bytes := Reply.simple_string [] &"OK".

Definition info_field (name : bytes) (n : Z) : bytes := name ++ &":" ++ to_string n ++ crlf.

Definition info (c : cluster) : bytes :=
  let owners := omap (fun slot => peer c <$> owner c slot) all_slots in
  let assigned := zlen owners in
  let pfail := zlen (List.filter (is_ kPFail) owners) in
  let fail := zlen (List.filter (is_ kFail) owners) in
  &"cluster_state:" ++ (if state_ok_ c then &"ok" else &"fail") ++ crlf
  ++ info_field &"cluster_slots_assigned" assigned
  ++ info_field &"cluster_slots_ok" (u64 (assigned - pfail - fail))
  ++ info_field &"cluster_slots_pfail" pfail
  ++ info_field &"cluster_slots_fail" fail
  ++ info_field &"cluster_known_nodes" (Z.of_nat (size (nodes_ (table c))))
  ++ info_field &"cluster_size" (cluster_size c)
  ++ info_field &"cluster_current_epoch" (current_epoch_ c)
  ++ info_field &"cluster_my_epoch"
       (match master_of c (myself_ c) with Some m => n_config_epoch (peer c m) | None => 0 end)
  ++ info_field &"cluster_stats_messages_sent" (messages_sent_ c)
  ++ info_field &"cluster_stats_messages_received" (messages_received_ c).

(** The slots ADDSLOTS and the like name, or the error. *)
Fixpoint named_slots (range : bool) (args : Args) : bytes + list Z :=
  match args with
  | [] => inr []
  | a :: args =>
      let bad := inl (err &"ERR Invalid or out of range slot") in
      match parse_slot a with
      | None => bad
      | Some start =>
          if range then
            match args with
            | b :: args =>
                match parse_slot b with
                | None => bad
                | Some stop =>
                    if stop <? start then
                      inl (err (&"ERR start slot number " ++ to_string start
                                ++ &" is greater than end slot number " ++ to_string stop))
                    else match named_slots range args with
                         | inl e => inl e
                         | inr l => inr (seqZ start (stop - start + 1) ++ l)
                         end
                end
            | [] => bad
            end
          else match named_slots range args with inl e => inl e | inr l => inr (start :: l) end
      end
  end.

Fixpoint check_slots (add : bool) (seen slots : list Z) (c : cluster) : option bytes :=
  match slots with
  | [] => None
  | slot :: slots =>
      if bool_decide (slot ∈ seen) then
        Some (err (&"ERR Slot " ++ to_string slot ++ &" specified multiple times"))
      else match add, owner c slot with
      | true, Some _ => Some (err (&"ERR Slot " ++ to_string slot ++ &" is already busy"))
      | false, None => Some (err (&"ERR Slot " ++ to_string slot ++ &" is already unassigned"))
      | _, _ => check_slots add (slot :: seen) slots c
      end
  end.

Definition cmd_addslots (args : Args) (range add : bool) (c : cluster) : bytes * cluster :=
  if is_ kReplica (myself c) then (err &"ERR Please use this command only with masters.", c)
  else match named_slots range args with
  | inl e => (e, c)
  | inr slots =>
      match check_slots add [] slots c with
      | Some e => (e, c)
      | None =>
          let c := foldl (fun c slot =>
                     let c := if add then set_importing slot None c else c in
                     set_slot slot (if add then Some (myself_ c) else None) c) c slots in
          (ok, todo_broadcast (todo_save c))
      end
  end.

Definition setslot_node (slot p : Z) (c : cluster) : bytes * cluster :=
  let mine := bool_decide (owner c slot = Some (myself_ c)) in
  let keys := count_keys_in_slot (store_ c) slot in
  if mine && negb (bool_decide (p = myself_ c)) && (0 <? keys) then
    (err (&"ERR Can't assign hashslot " ++ to_string slot
          ++ &" to a different node while I still hold keys for this hash slot."), c)
  else
    let c := if keys =? 0 then set_migrating slot None c else c in
    let finishes := bool_decide (p = myself_ c) && bool_decide (importing_from c slot <> None) in
    let c := if bool_decide (p = myself_ c) then set_importing slot None c else c in
    let c := set_slot slot (Some p) c in
    let c := if finishes then (bump_epoch_without_consensus c).2 else c in
    (ok, todo_save (todo_broadcast c)).

Definition cmd_setslot (args : Args) (c : cluster) : bytes * cluster :=
  if is_ kReplica (myself c) then (err &"ERR Please use SETSLOT only with masters.", c)
  else match args with
  | slot_text :: action :: rest =>
      match parse_slot slot_text with
      | None => (err &"ERR Invalid or out of range slot", c)
      | Some slot =>
          let action := to_upper action in
          if beq action &"STABLE" then
            match rest with
            | [] => (ok, todo_save (set_importing slot None (set_migrating slot None c)))
            | _ => (err &"ERR syntax error", c)
            end
          else match rest with
          | [id] =>
              if negb (beq action &"MIGRATING") && negb (beq action &"IMPORTING") && negb (beq action &"NODE")
              then (err &"ERR Invalid CLUSTER SETSLOT action or number of arguments. Try CLUSTER HELP", c)
              else match lookup c id with
              | None => (err (&"ERR I don't know about node " ++ id), c)
              | Some p =>
                  if is_ kHandshake (peer c p) then (err (&"ERR I don't know about node " ++ id), c)
                  else if is_ kReplica (peer c p) then (err &"ERR Target node is not a master", c)
                  else
                    let mine := bool_decide (owner c slot = Some (myself_ c)) in
                    if beq action &"MIGRATING" then
                      if negb mine then (err (&"ERR I'm not the owner of hash slot " ++ to_string slot), c)
                      else (ok, todo_save (set_migrating slot (Some p) c))
                    else if beq action &"IMPORTING" then
                      if mine then (err (&"ERR I'm already the owner of hash slot " ++ to_string slot), c)
                      else (ok, todo_save (set_importing slot (Some p) c))
                    else setslot_node slot p c
              end
          | _ => (err &"ERR Invalid CLUSTER SETSLOT action or number of arguments. Try CLUSTER HELP", c)
          end
      end
  | _ => (err &"ERR Invalid CLUSTER SETSLOT action or number of arguments. Try CLUSTER HELP", c)
  end.

(** MEET; an unreadable port is refused whatever the bus port would be.  The code
    adds 10000 to the port before it looks whether there is one, which is
    undefined for an unreadable port and for one near the largest integer; here
    the sum is exact, and both are refused. *)
Definition cmd_meet (ip port_text : bytes) (cport_text : option bytes) (c : cluster) : bytes * cluster :=
  let bad := (err (&"ERR Invalid base port specified: " ++ port_text), c) in
  match parse_i64 port_text with
  | None => bad
  | Some p =>
      let cp := match cport_text with Some t => parse_i64 t | None => Some (p + 10000) end in
      match cp with
      | None => bad
      | Some cp =>
          if negb ((0 <? p) && (p <=? 65535)) || (cp <=? 0) || (65535 <? cp) then bad
          else if negb (valid_ipv4 ip) then
            (err (&"ERR Invalid node address specified: " ++ ip ++ &":" ++ port_text), c)
          else (ok, (start_handshake ip p cp c).2)
      end
  end.

Definition cmd_replicate (id : bytes) (c : cluster) : bytes * cluster :=
  match lookup c id with
  | None => (err (&"ERR Unknown node " ++ id), c)
  | Some p =>
      if is_ kHandshake (peer c p) then (err (&"ERR Unknown node " ++ id), c)
      else if bool_decide (p = myself_ c) then (err &"ERR Can't replicate myself", c)
      else if is_ kReplica (peer c p) then (err &"ERR I can only replicate a master, not a replica.", c)
      else if is_ kMaster (myself c)
              && (negb (n_slots (myself c) =? 0) || negb (db_size (store_ c) =? 0)) then
        (err &"ERR To set a master the node must be empty and without assigned slots.", c)
      else (ok, set_as_replica_of p c)
  end.

Definition cmd_forget (id : bytes) (c : cluster) : bytes * cluster :=
  match lookup c id with
  | None => (err (&"ERR Unknown node " ++ id), c)
  | Some p =>
      if bool_decide (p = myself_ c) then (err &"ERR I tried hard but I can't forget myself...", c)
      else if is_ kReplica (myself c) && beq (n_master_id (myself c)) (n_id (peer c p)) then
        (err &"ERR Can't forget my master!", c)
      else
        let c := c <| blacklist_ := <[n_id (peer c p) := now c + kBlacklistTtl]> (blacklist_ c) |> in
        (ok, del_node p c)
  end.

(** [opt]: the third argument; [fresh] as in [failover_replace_master]. *)
Definition cmd_failover (fresh : bytes) (opt : option bytes) (c : cluster) : bytes * cluster :=
  let opt := to_upper <$> opt in
  let force := bool_decide (opt = Some &"FORCE") in
  let takeover := bool_decide (opt = Some &"TAKEOVER") in
  if bool_decide (opt <> None) && negb force && negb takeover then (err &"ERR syntax error", c)
  else if is_ kMaster (myself c) then (err &"ERR You should send CLUSTER FAILOVER to a replica", c)
  else match lookup c (n_master_id (myself c)) with
  | None => (err &"ERR I'm a replica but my master is unknown to me", c)
  | Some m =>
      let master := peer c m in
      let down := is_ kFail master
                  || match n_link master with Some l => connecting (link_of c l) | None => true end in
      if negb force && negb takeover && down then
        (err &"ERR Master is down or failed, please use CLUSTER FAILOVER FORCE", c)
      else
        let c := reset_manual_failover c in
        let c := on_manual (fun m => m <| mf_end_ := Some (now c + kManualFailoverTimeout) |>) c in
        let fresh_election := on_auth (fun a => a <| failover_auth_time_ := None |>) in
        let c := if takeover then failover_replace_master fresh (bump_epoch_without_consensus c).2
                 else if force then
                   todo_handle_failover
                     (fresh_election (on_manual (fun m => m <| mf_can_start_ := true |>) c))
                 else
                   let c := fresh_election c in
                   match n_link (peer c m) with Some l => send l (header M.kMfStart c) c | None => c end in
        (ok, c)
  end.

(** The ranges of slots of one owner, in order. *)
Fixpoint owned_ranges (c : cluster) (slots : list Z) (open : option (Z * Z * Z)) : list (Z * Z * Z) :=
  let close := match open with Some r => [r] | None => [] end in
  match slots with
  | [] => close
  | slot :: slots =>
      match owner c slot with
      | None => owned_ranges c slots open
      | Some o =>
          match open with
          | Some (a, b, q) =>
              if bool_decide (q = o) && (b =? slot - 1) then owned_ranges c slots (Some (a, slot, q))
              else close ++ owned_ranges c slots (Some (slot, slot, o))
          | None => owned_ranges c slots (Some (slot, slot, o))
          end
      end
  end.

Definition node_entry (c : cluster) (p : Z) (out : bytes) : bytes :=
  let n := peer c p in
  Reply.bulk_string (Reply.integer (Reply.bulk_string (Reply.array_header out 3) (n_ip n)) (n_port n))
    (n_id n).

Definition cmd_slots (c : cluster) : bytes :=
  let ranges := owned_ranges c all_slots None in
  foldl (fun out '(a, b, o) =>
    let replicas := List.filter (fun p => let n := peer c p in
                      is_ kReplica n && beq (n_master_id n) (n_id (peer c o))
                      && negb (is_ (Z.lor kHandshake kNoAddr) n)) (node_ptrs c) in
    let out := Reply.array_header out (3 + zlen replicas) in
    let out := node_entry c o (Reply.integer (Reply.integer out a) b) in
    foldl (fun out p => node_entry c p out) out replicas)
  (Reply.array_header [] (zlen ranges)) ranges.

Definition cmd_set_config_epoch (text : bytes) (c : cluster) : bytes * cluster :=
  match parse_u64 text with
  | None => (err (&"ERR Invalid config epoch specified: " ++ text), c)
  | Some epoch =>
      if (1 <? size (nodes_ (table c)))%nat then
        (err &"ERR The user can assign a config epoch only when the node does not know any other node.", c)
      else if negb (n_config_epoch (myself c) =? 0) then
        (err &"ERR Node config epoch is already non-zero", c)
      else
        let c := on_peer (myself_ c) (fun n => n <| n_config_epoch := epoch |>) c in
        (ok, todo_save (c <| current_epoch_ := Z.max (current_epoch_ c) epoch |>))
  end.

(** CLUSTER with its arguments after the name of the command; [errno]: the text
    of the error when a save fails. *)
Definition command (fresh errno : bytes) (args : Args) (c : cluster) : bytes * cluster :=
  let name := default [] (head args) in
  let sub := to_upper name in
  let wrong_args := (err (&"ERR wrong number of arguments for 'cluster|" ++ name ++ &"' command"), c) in
  let bulk s := (Reply.bulk_string [] s, c) in
  let num n := Reply.integer [] n in
  let is_sub s := beq sub s in
  let alone := (length args =? 1)%nat in
  let rest := drop 1 args in
  if is_sub &"INFO" && alone then bulk (info c)
  else if is_sub &"MYID" && alone then bulk (n_id (myself c))
  else if is_sub &"NODES" && alone then bulk (describe_nodes false c)
  else if is_sub &"SLOTS" && alone then (cmd_slots c, c)
  else if is_sub &"KEYSLOT" then
    match rest with [k] => (num (key_hash_slot k), c) | _ => wrong_args end
  else if is_sub &"COUNTKEYSINSLOT" then
    match rest with
    | [s] => match parse_slot s with
             | None => (err &"ERR Invalid slot", c)
             | Some slot => (num (count_keys_in_slot (store_ c) slot), c)
             end
    | _ => wrong_args
    end
  else if is_sub &"GETKEYSINSLOT" then
    match rest with
    | [s; k] => match parse_slot s, parse_i64 k with
                | Some slot, Some count =>
                    if count <? 0 then (err &"ERR Invalid slot or number of keys", c)
                    else (Reply.command [] (keys_in_slot (store_ c) slot count), c)
                | _, _ => (err &"ERR Invalid slot or number of keys", c)
                end
    | _ => wrong_args
    end
  else if is_sub &"ADDSLOTS" || is_sub &"DELSLOTS" then
    match rest with [] => wrong_args | _ => cmd_addslots rest false (is_sub &"ADDSLOTS") c end
  else if is_sub &"ADDSLOTSRANGE" || is_sub &"DELSLOTSRANGE" then
    if (length rest <? 2)%nat || negb (Nat.even (length rest)) then wrong_args
    else cmd_addslots rest true (is_sub &"ADDSLOTSRANGE") c
  else if is_sub &"SETSLOT" then
    if (length rest <? 2)%nat then wrong_args else cmd_setslot rest c
  else if is_sub &"MEET" then
    match rest with
    | [ip; p] => cmd_meet ip p None c
    | [ip; p; cp] => cmd_meet ip p (Some cp) c
    | _ => wrong_args
    end
  else if is_sub &"REPLICATE" then
    match rest with [id] => cmd_replicate id c | _ => wrong_args end
  else if is_sub &"FORGET" then
    match rest with [id] => cmd_forget id c | _ => wrong_args end
  else if is_sub &"FAILOVER" then
    match rest with
    | [] => cmd_failover fresh None c
    | [opt] => cmd_failover fresh (Some opt) c
    | _ => wrong_args
    end
  else if is_sub &"COUNT-FAILURE-REPORTS" then
    match rest with
    | [id] => match lookup c id with
              | None => (err (&"ERR Unknown node " ++ id), c)
              | Some p => let '(k, c) := count_fail_reports p c in (num k, c)
              end
    | _ => wrong_args
    end
  else if is_sub &"SET-CONFIG-EPOCH" then
    match rest with [e] => cmd_set_config_epoch e c | _ => wrong_args end
  else if is_sub &"BUMPEPOCH" && alone then
    let '(bumped, c) := bump_epoch_without_consensus c in
    (Reply.simple_string [] ((if bumped then &"BUMPED " else &"STILL ")
                             ++ to_string (n_config_epoch (myself c))), c)
  else if is_sub &"SAVECONFIG" && alone then
    let '(saved, c) := save_config c in
    if saved then (ok, c) else (err (&"ERR error saving the cluster node config: " ++ errno), c)
  else (err (&"ERR unknown subcommand or wrong number of arguments for '" ++ name
             ++ &"'. Try CLUSTER HELP."), c).

(** ** The life of a node *)

(** A [Cluster] just constructed, on a disk that holds [d]; [log] is what the
    node posted in its earlier lives. *)
Definition initial (o : Options) (n : R.Node DS) (w : World) (d : option bytes)
    (log : list (option Z * Message)) : cluster :=
  mkCluster DS o n false (mkTable ∅ 0 ∅ ∅ ∅ ∅) 0 0 0 ∅ false (mkTodo false false false false false) 0 0
    (mkAuth None 0 false 0 0) [] (mkManual None None None false false) ∅ 0 0 0 0 w d [] log.

(** What [main] does with it: read the configuration, check it against the
    dataset, open the bus. *)
Definition boot (o : Options) (n : R.Node DS) (w : World) (d : option bytes)
    (log : list (option Z * Message)) : bytes + cluster :=
  match load_config (initial o n w d log) with
  | inl e => inl e
  | inr c => inr (start (verify_config_with_data c))
  end.

(** What calls into the cluster.  Between two calls the clock, the outcomes to
    come and the replication change ([ev_env]); the generator of ids does not. *)
Inductive Event :=
  | ev_accept (ip : bytes) (watched : bool)
  | ev_link (l : Z) (err : bool) (r : R.ReadResult)
  | ev_cron (fresh : bytes)
  | ev_before_sleep (fresh : bytes)
  | ev_command (fresh errno : bytes) (args : Args)
  | ev_route (keys : list bytes) (write asking readonly : bool)
  | ev_stall
  | ev_shutdown
  | ev_env (w : World) (n : R.Node DS).

Definition handle (e : Event) (c : cluster) : cluster :=
  match e with
  | ev_accept ip watched => accept_link ip watched c
  | ev_link l err r => match links c !! l with Some _ => on_link_event l err r c | None => c end
  | ev_cron fresh => cron fresh c
  | ev_before_sleep fresh => before_sleep fresh c
  | ev_command fresh errno args => (command fresh errno args c).2
  | ev_route keys write asking readonly => (route keys write asking readonly c).2
  | ev_stall => after_stall c
  | ev_shutdown => (shutdown c).2
  | ev_env w n =>
      c <| world := w <| w_rng := w_rng (world c) |> <| w_drawn := w_drawn (world c) |> |> <| repl := n |>
  end.

End cluster.

End Cluster.
