(* ===== verification/ClusterStore.v ===== *)
(** * The cluster on the dataset of the server

    [SlotStore], what [Cluster.v] asks of a dataset, for the keyspace of
    [Store.v], over any table that serves it.  A master that loses slots to a
    newer owner deletes exactly the keys of those slots and logs each deletion. *)

From Stdlib Require Import Lia.
From stdpp Require Import relations.
From S2P Require Import Prelude Resp Slots HashTable Store ClusterMsg Replication Cluster.

Module ClusterStore.
Import Cluster.

(** The deletion listener of [main]: every reported key is logged. *)
Definition del_command (key : bytes) : Args := [&"DEL"; key].

Section store.
Context {T : Type -> Type} `{KT : KeyTable T}.

(** What a call reported to the listener. *)
Definition reported (before after : Store.Store T) : list Args :=
  map del_command (drop (length (Store.notified_ before)) (Store.notified_ after)).

#[export] Instance store_slots : SlotStore (Store.Store T) := {|
  count_keys_in_slot s i := Z.of_nat (Store.count_keys_in_slot s i);
  contains passive key s :=
    let '(found, s') := Store.contains key (Store.set_passive_expiry passive s) in (found, reported s s', s');
  keys_in_slot s i max := Store.keys_in_slot s i (Z.to_nat max);
  delete_slot i s := let '(_, s') := Store.delete_slot i s in (reported s s', s');
  db_size s := Z.of_nat (Store.size s);
|}.

End store.

(** ** Logging does not look at the dataset *)

Lemma feed_store {DS} data (d : DS) n : R.feed data (n <| R.store_ := d |>) = R.feed data n <| R.store_ := d |>.
Proof.
  unfold R.feed, R.on_replicas.
  assert (K : forall l f (m : R.Node DS), foldl (fun n r => R.on_client r f n) (m <| R.store_ := d |>) l =
            foldl (fun n r => R.on_client r f n) m l <| R.store_ := d |>).
  { induction l as [|r l IH]; intros f m; [done|]. cbn [foldl].
    change (R.on_client r f (m <| R.store_ := d |>)) with (R.on_client r f m <| R.store_ := d |>). apply IH. }
  rewrite <-K. reflexivity.
Qed.

Lemma propagate_store {DS} argv (d : DS) n :
  R.propagate argv (n <| R.store_ := d |>) = R.propagate argv n <| R.store_ := d |>.
Proof.
  unfold R.propagate. change (R.wants_commands (n <| R.store_ := d |>)) with (R.wants_commands n).
  destruct (negb _); [done|apply feed_store].
Qed.

Lemma execute_as_store {DS} writes (d : DS) n :
  R.execute writes d n = foldl (fun n argv => R.propagate argv n) n writes <| R.store_ := d |>.
Proof.
  unfold R.execute. revert n. induction writes as [|argv writes IH]; intros n; [done|]. cbn [foldl].
  by rewrite propagate_store, IH.
Qed.

Lemma execute_app {DS} w1 w2 (d1 d2 : DS) n :
  R.execute w2 d2 (R.execute w1 d1 n) = R.execute (w1 ++ w2) d2 n.
Proof.
  rewrite !execute_as_store, foldl_app. generalize (foldl (fun n argv => R.propagate argv n) n w1). intros m.
  change (foldl (fun n argv => R.propagate argv n) (m <| R.store_ := d1 |>) w2) with (R.execute w2 d1 m).
  rewrite execute_as_store. reflexivity.
Qed.

Section slots.
Context {T : Type -> Type} `{KL : KeyTableLaws T}.
Abbreviation cluster := (Cluster (Store.Store T)).

(** One slot: its keys are deleted and logged. *)
Lemma drop_slot_exact (c : cluster) slot : Store.wf (store_ c) ->
  let ks := Store.slot_keys (store_ c) slot in
  exists d, drop_slot c slot = on_repl (R.execute (map del_command ks) d) c /\ Store.wf d /\
    Store.notified_ d = Store.notified_ (store_ c) ++ ks /\
    Store.abstract d = Store.drop_keys (Store.abstract (store_ c)) ks.
Proof.
  intros W ks. destruct (Store.delete_slot_refines slot (store_ c) W) as [_ Hr].
  unfold drop_slot. change (delete_slot slot (store_ c)) with
    (let '(_, s') := Store.delete_slot slot (store_ c) in (reported (store_ c) s', s')).
  destruct (Store.delete_slot slot (store_ c)) as [k d]. cbn [snd] in Hr. exists d. destruct Hr as [R1 R2 _ R4].
  cbn [fst snd] in *. split_and!; [|done|done|done]. unfold reported. rewrite R4, drop_app_length. done.
Qed.

Lemma drop_keys_spare ks vs k : k ∉ vs -> Store.vals (Store.drop_keys ks vs) !! k = Store.vals ks !! k.
Proof.
  revert ks. induction vs as [|v vs IH]; intros ks Hk; [done|]. apply not_elem_of_cons in Hk as [Hv Hk].
  change (Store.drop_keys ks (v :: vs)) with (Store.drop_keys (Store.drop_key v ks) vs). rewrite IH by done.
  cbn. by rewrite lookup_delete_ne.
Qed.

(** The keys of some slots, deleted and logged. *)
Record dropped (slots : list Z) (c c' : cluster) (ks : list bytes) : Prop := {
  dr_wf : Store.wf (store_ c');
  dr_repl : c' = on_repl (R.execute (map del_command ks) (store_ c')) c;
  dr_keys : forall k, k ∈ ks <-> key_hash_slot k ∈ slots /\ is_Some (Store.vals (Store.abstract (store_ c)) !! k);
  dr_once : NoDup ks;
  dr_vals : forall k, Store.vals (Store.abstract (store_ c')) !! k =
              if bool_decide (key_hash_slot k ∈ slots) then None else Store.vals (Store.abstract (store_ c)) !! k;
}.

Lemma drop_slots slots : forall c : cluster, Store.wf (store_ c) -> exists ks, dropped slots c (foldl drop_slot c slots) ks.
Proof.
  induction slots as [|slot slots IH]; intros c W.
  { exists []. split; [done| | |constructor|].
    - destruct c. cbn. unfold on_repl, R.execute. cbn. f_equal. by destruct repl0.
    - intros k. split; [by intros ?%elem_of_nil|]. by intros [?%elem_of_nil _].
    - intros k. rewrite bool_decide_eq_false_2 by apply not_elem_of_nil. done. }
  destruct (drop_slot_exact c slot W) as (d & E & Wd & _ & Ea). set (ks1 := Store.slot_keys (store_ c) slot) in *.
  assert (Es : store_ (drop_slot c slot) = d) by (rewrite E; unfold store_; cbn; by rewrite execute_as_store).
  assert (Ev : forall k, Store.vals (Store.abstract d) !! k =
            if bool_decide (key_hash_slot k = slot) then None else Store.vals (Store.abstract (store_ c)) !! k).
  { intros k. rewrite Ea. case_bool_decide as Hk.
    - apply eq_None_not_Some. intros [Hn Hs]%Store.drop_keys_is_Some. by apply Hn, Store.elem_of_slot_keys.
    - apply drop_keys_spare. intros Hin%Store.elem_of_slot_keys; [|done]. by destruct Hin. }
  destruct (IH (drop_slot c slot)) as (ks & [D1 D2 D3 D4 D5]); [by rewrite Es|]. rewrite Es in *. cbn [foldl].
  exists (ks1 ++ ks). split.
  - done.
  - rewrite D2 at 1. rewrite E. unfold on_repl. cbn. by rewrite execute_app, map_app.
  - intros k. rewrite elem_of_app, D3, Ev, elem_of_cons. unfold ks1. rewrite Store.elem_of_slot_keys by done.
    case_bool_decide; naive_solver.
  - apply list.NoDup_app. split_and!; [by apply Store.slot_keys_nodup| |done]. intros k Hk.
    apply Store.elem_of_slot_keys in Hk as [<- _]; [|done]. rewrite D3, Ev, bool_decide_eq_true_2 by done.
    intros [_ Hn]. by destruct Hn.
  - intros k. rewrite D5, Ev. repeat case_bool_decide; set_solver.
Qed.

(** ** Which keys are missing *)

(** The dataset is well formed and the clock reads [t]. *)
Definition at_time (t : Z) (c : cluster) : Prop := Store.wf (store_ c) /\ forall i, Store.clock (store_ c) i = t.

Definition gone (t : Z) (c : cluster) (k : bytes) : Prop := Store.live t k (Store.abstract (store_ c)) = None.

#[export] Instance gone_dec t c k : Decision (gone t c k).
Proof. unfold gone. apply _. Defined.

Lemma access_live t passive k ks k' :
  Store.live t k' (Store.spec_access passive t k false ks).2 = Store.live t k' ks.
Proof.
  unfold Store.spec_access. destruct (Store.expired t k ks) eqn:E; [|done]. destruct passive; [done|]. cbn [snd].
  unfold Store.live, Store.drop_key, Store.expired in *. cbn. destruct (decide (k = k')) as [<-|Hk].
  - by rewrite !lookup_delete_eq, E.
  - by rewrite !lookup_delete_ne.
Qed.

Lemma holds_exact t c k : at_time t c ->
  (holds k c).1 = negb (bool_decide (gone t c k)) /\ at_time t (holds k c).2 /\
  forall k', gone t (holds k c).2 k' <-> gone t c k'.
Proof.
  intros [W Ht]. unfold holds. change (contains (R.passive_expiry_ (repl c)) k (store_ c)) with
    (let '(found, s') := Store.contains k (Store.set_passive_expiry (R.passive_expiry_ (repl c)) (store_ c)) in
     (found, reported (store_ c) s', s')).
  set (s := Store.set_passive_expiry _ (store_ c)).
  assert (Ws : Store.wf s) by by apply (Store.wf_tables (store_ c)).
  destruct (Store.contains_refines k s Ws) as [E [R1 R2 R3 _]]. unfold Store.reading in *.
  change (Store.clock s) with (Store.clock (store_ c)) in *. rewrite Ht in E, R2.
  change (Store.abstract s) with (Store.abstract (store_ c)) in *.
  destruct (Store.contains k s) as [found d]. cbn [fst snd] in *.
  assert (Es : store_ (on_repl (R.execute (reported (store_ c) d) d) c) = d).
  { unfold store_. cbn. by rewrite execute_as_store. }
  unfold at_time. rewrite Es. split_and!.
  - rewrite E. apply eq_true_iff_eq. rewrite negb_true_iff, bool_decide_eq_true, bool_decide_eq_false. unfold gone. by rewrite <-not_eq_None_Some.
  - done.
  - intros i. rewrite (Store.config_clock _ _ R3). exact (Ht i).
  - intros k'. unfold gone. by rewrite Es, R2, access_live.
Qed.

(** What [route] counts: the keys that are not there, each as often as it is
    named. *)
Lemma count_missing_exact t keys c : at_time t c ->
  (count_missing keys c).1 = zlen (filter (gone t c) keys).
Proof.
  unfold count_missing. intros Hc.
  assert (K : forall keys m c', at_time t c' -> (forall k, gone t c' k <-> gone t c k) ->
    (foldl (fun '(missing, c) key => let '(found, c) := holds key c in (if found then missing else missing + 1, c))
       (m, c') keys).1 = m + zlen (filter (gone t c) keys)); [|by rewrite K].
  clear keys. induction keys as [|k keys IH]; intros m c' Hc' Hg; [cbn; unfold zlen; simpl; lia|]. cbn [foldl].
  destruct (holds_exact t c' k Hc') as (E & Hc1 & Hg1). destruct (holds k c') as [found c1]. cbn [fst snd] in *.
  rewrite IH by (done || intros k'; by rewrite Hg1). rewrite E, filter_cons, (bool_decide_ext _ _ (Hg k)).
  clear E. case_decide as Hk; [rewrite bool_decide_eq_true_2 by done|rewrite bool_decide_eq_false_2 by done];
    cbn [negb]; rewrite ?zlen_cons; lia.
Qed.

Lemma some_missing t keys c : at_time t c -> 0 < (count_missing keys c).1 <-> exists k, k ∈ keys /\ gone t c k.
Proof.
  intros Hc. rewrite (count_missing_exact t) by done. unfold zlen. split.
  - intros Hl. destruct (filter (gone t c) keys) as [|k ks] eqn:E; [simpl in Hl; lia|].
    assert (Hk : k ∈ filter (gone t c) keys) by (rewrite E; apply list_elem_of_here).
    apply list_elem_of_filter in Hk as [? ?]. eauto.
  - intros (k & Hk & Hg). assert (Hin : k ∈ filter (gone t c) keys) by (by apply list_elem_of_filter).
    destruct (filter (gone t c) keys); [by apply elem_of_nil in Hin|simpl; lia].
Qed.

End slots.
End ClusterStore.
