(* ===== verification/ClusterInv.v ===== *)
(** * What holds of a node of the cluster, always

    [good B c] says of a state of [Cluster.v]: every pointer the C++ code
    follows leads to an object that exists (ids, owners of slots, moves, links in
    both directions, the replica of a manual failover); the slots of a node are
    exactly the slots it owns; every node has a well-formed id, address and
    flags; no vote was cast twice and every vote cast is covered by the epochs
    in memory and in the configuration file; no config epoch is above the current
    epoch, nor the current epoch above [B].

    [leads B B' exc c c'] is the relation every operation is shown to satisfy:
    [good B] becomes [good B'], epochs do not go back, and no node goes away
    except those of [exc].  This file has the invariant and the operations the
    handlers are made of; [ClusterOps.v] has the handlers. *)

From Stdlib Require Import Lia.
From stdpp Require Import relations.
From S2P Require Import Prelude Resp Slots ClusterMsg Replication Cluster.

Module ClusterInv.
Import Cluster.

(** ** Well-formed nodes *)

(** No byte that separates the fields of a line of the configuration. *)
Definition plain (s : bytes) : Prop := Forall (fun b => b <> x20 /\ b <> x0a) s.
Definition clean_ip (s : bytes) : Prop :=
  Forall (fun b => b <> x20 /\ b <> x0a /\ b <> "@"%byte /\ b <> x00) s.

Record peer_ok (n : Peer) : Prop := {
  po_id : M.valid_node_id (n_id n) = true;
  po_ip : clean_ip (n_ip n);
  po_port : 0 <= n_port n <= M.uint16_max;
  po_cport : 0 <= n_cport n <= M.uint16_max;
  po_flags : 0 <= n_flags n < 256;
  po_master : plain (n_master_id n) /\ n_master_id n <> &"-";
  po_epoch : 0 <= n_config_epoch n;
}.

(** What a gossip entry and a message of a well-behaved node hold. *)
Definition gossip_fine (g : M.GossipEntry) : Prop :=
  clean_ip (M.g_ip g) /\ 0 <= M.g_port g <= M.uint16_max /\ 0 <= M.g_cport g <= M.uint16_max.

Record polite (m : Message) : Prop := {
  pl_sender : M.valid_node_id (M.sender m) = true;
  pl_port : 0 <= M.port m <= M.uint16_max;
  pl_cport : 0 <= M.cport m <= M.uint16_max;
  pl_master : plain (M.master_id m) /\ M.master_id m <> &"-";
  pl_config : M.config_epoch m <= M.current_epoch m;
  pl_update : M.update_epoch m <= M.current_epoch m;
  pl_gossip : Forall gossip_fine (M.gossip m);
}.

(** A change of a node that keeps its identity and its standing, *)
Record mild (n n' : Peer) : Prop := {
  ml_id : n_id n' = n_id n;
  ml_handshake : is_ kHandshake n' = is_ kHandshake n;
  ml_myself : is_ kMyself n' = is_ kMyself n;
  ml_ok : peer_ok n -> peer_ok n';
  ml_epoch : n_config_epoch n <= n_config_epoch n';
}.

(** and its slots. *)
Record tame (n n' : Peer) : Prop := {
  tm_mild : mild n n';
  tm_slots : n_slots n' = n_slots n;
}.

Definition tmember (t : Table) (p : Z) : Prop :=
  exists n, heap t !! p = Some n /\ is_ kHandshake n = false.

(** A slot table entry refers to [p]. *)
Definition refers (t : Table) (slot p : Z) : Prop :=
  owner_ t !! slot = Some p \/ migrating_to_ t !! slot = Some p \/ importing_from_ t !! slot = Some p.

Record table_ok (t : Table) (me : option Z) : Prop := {
  tb_ids : forall id p, nodes_ t !! id = Some p <-> exists n, heap t !! p = Some n /\ n_id n = id;
  tb_fresh : forall p n, heap t !! p = Some n -> p < next_ptr t;
  tb_peer : forall p n, heap t !! p = Some n ->
              peer_ok n /\ is_ kMyself n = bool_decide (me = Some p) /\ 0 <= n_slots n;
  tb_slots : forall p n s, heap t !! p = Some n -> 0 <= s ->
               Z.testbit (n_slots n) s = bool_decide (owner_ t !! s = Some p);
  tb_refs : forall slot p, refers t slot p -> 0 <= slot < kSlots /\ tmember t p;
}.

Record links_ok (h : gmap Z Peer) (ls : gmap Z Link) (next : Z) : Prop := {
  lk_fresh : forall l k, ls !! l = Some k -> l < next;
  lk_dead : forall l k, ls !! l = Some k -> dead k = true -> l_node k = None;
  lk_node : forall l k p, ls !! l = Some k -> l_node k = Some p ->
              exists n, h !! p = Some n /\ n_link n = Some l;
  lk_back : forall p n l, h !! p = Some n -> n_link n = Some l ->
              exists k, ls !! l = Some k /\ l_node k = Some p;
  lk_ip : forall l k, ls !! l = Some k -> clean_ip (peer_ip k);
}.

(** The [j]th id [random_id] draws. *)
Definition nth_id (rng : nat -> Z) (j : nat) : bytes := drawn_id rng (j * M.kNodeIdLength).

(** An id is drawn 2^64 times at most. *)
Definition in_time (j : nat) : Prop := Z.of_nat j <= M.uint64_max.

(** At most [B] ids have been drawn, the ids to come are new, and a node still
    shaking hands bears one drawn. *)
Record ids_ok (B : Z) (rng : nat -> Z) (drawn : nat) (t : Table) : Prop := {
  id_distinct : forall i j, in_time i -> in_time j -> nth_id rng i = nth_id rng j -> i = j;
  id_new : exists d, drawn = (d * M.kNodeIdLength)%nat /\ Z.of_nat d <= B /\
                     forall j, (d <= j)%nat -> in_time j -> nodes_ t !! nth_id rng j = None;
  id_drawn : forall p n, heap t !! p = Some n -> is_ kHandshake n = true -> exists j, n_id n = nth_id rng j;
}.

(** A change of fields that [tame] does not mention. *)
Ltac tame_update :=
  split; [split; [reflexivity|reflexivity|reflexivity|intros []; split; assumption|apply Z.le_refl]|reflexivity].

Ltac inert_update := split; try reflexivity; left; reflexivity.

Section inv.
Context {DS : Type} `{SlotStore DS}.
Abbreviation cluster := (Cluster DS).

Definition live (c : cluster) (p : Z) : Prop := is_Some (heap (table c) !! p).
Definition member (c : cluster) (p : Z) : Prop := tmember (table c) p.

(** ** Votes *)

Definition ack_epoch (x : option Z * Message) : option Z :=
  if bool_decide (M.type x.2 = M.kFailoverAuthAck) then Some (M.current_epoch x.2) else None.

(** The epochs of the votes a node has cast. *)
Definition acks (c : cluster) : list Z := omap ack_epoch (posted c).

(** With these epochs a node will not vote again in one of [es]. *)
Definition covers (current last : Z) (es : list Z) : Prop :=
  Forall (fun e => e < current \/ (e = current /\ last = current)) es.

Record votes_ok (c : cluster) : Prop := {
  vt_once : NoDup (acks c);
  vt_covered : covers (current_epoch_ c) (last_vote_epoch_ c) (acks c);
  vt_current : 0 <= current_epoch_ c;
  vt_last : 0 <= last_vote_epoch_ c <= M.uint64_max;
}.

Record low (B : Z) (c : cluster) : Prop := {
  lw_bound : B <= M.uint64_max;
  lw_current : current_epoch_ c <= B;
  lw_config : forall p n, heap (table c) !! p = Some n -> n_config_epoch n <= current_epoch_ c;
}.

(** What a configuration file tells of the node that wrote it. *)
Record sound (c : cluster) : Prop := {
  sd_table : table_ok (table c) (Some (myself_ c));
  sd_me : member c (myself_ c);
  sd_low : low M.uint64_max c;
  sd_votes : votes_ok c;
}.

Definition file_ok (c : cluster) (d : option bytes) : Prop :=
  match d with
  | None => acks c = []
  | Some text => exists c0, text = describe_nodes true c0 /\ sound c0 /\
      covers (current_epoch_ c0) (last_vote_epoch_ c0) (acks c) /\ n_id (myself c0) = n_id (myself c) /\
      current_epoch_ c0 <= current_epoch_ c
  end.

(** The file on disk, and those a crash may bring back. *)
Definition disk_ok (c : cluster) : Prop := Forall (file_ok c) (disk c :: unsynced c).

Record good (B : Z) (c : cluster) : Prop := {
  gd_table : table_ok (table c) (Some (myself_ c));
  gd_me : member c (myself_ c);
  gd_links : links_ok (heap (table c)) (links c) (next_link c);
  gd_ids : ids_ok B (w_rng (world c)) (w_drawn (world c)) (table c);
  gd_manual : forall p, mf_replica_ (manual c) = Some p -> live c p;
  gd_local : forall ip, w_local_ip (world c) = Some ip -> clean_ip ip;
  gd_auth : failover_auth_epoch_ (auth c) <= current_epoch_ c;
  gd_options : 0 <= port (options_ c) <= M.uint16_max /\ 0 <= cport (options_ c) <= M.uint16_max;
  gd_posted : Forall (fun x => polite x.2) (posted c);
  gd_low : low B c;
  gd_votes : votes_ok c;
  gd_disk : disk_ok c;
}.

(** ** The relation *)

Record grows (exc : list Z) (c c' : cluster) : Prop := {
  gr_me : myself_ c' = myself_ c;
  gr_options : options_ c' = options_ c;
  gr_rng : w_rng (world c') = w_rng (world c);
  gr_epoch : current_epoch_ c <= current_epoch_ c';
  gr_node : forall p n, p ∉ exc -> heap (table c) !! p = Some n -> exists n',
      heap (table c') !! p = Some n' /\ n_config_epoch n <= n_config_epoch n' /\
      (is_ kHandshake n = false -> is_ kHandshake n' = false /\ n_id n' = n_id n);
  gr_input : forall l, l_input (link_of c' l) = l_input (link_of c l);
  gr_posted : posted c `prefix_of` posted c';
}.

Definition leads (B B' : Z) (exc : list Z) (c c' : cluster) : Prop :=
  good B c -> good B' c' /\ grows exc c c'.

Lemma grows_refl (c : cluster) : grows [] c c.
Proof. split; try done. intros p n _ Hp. exists n. done. Qed.

Lemma grows_trans e1 e2 c1 c2 c3 : grows e1 c1 c2 -> grows e2 c2 c3 -> grows (e1 ++ e2) c1 c3.
Proof.
  intros [A1 A2 A3 A4 A5 A6 A7] [B1 B2 B3 B4 B5 B6 B7]. split; try congruence.
  - lia.
  - intros p n [Hp1 Hp2]%not_elem_of_app Hp.
    destruct (A5 p n Hp1 Hp) as (n1 & Hn1 & Hle1 & Hm1).
    destruct (B5 p n1 Hp2 Hn1) as (n2 & Hn2 & Hle2 & Hm2). exists n2. split; [done|]. split; [lia|].
    intros Hn. destruct (Hm1 Hn) as [? ?]. destruct Hm2; [done|]. split; congruence.
  - by transitivity (posted c2).
Qed.

Lemma leads_refl B (c : cluster) : leads B B [] c c.
Proof. intros Hg. split; [done|apply grows_refl]. Qed.

Lemma leads_trans B1 B2 B3 e1 e2 c1 c2 c3 :
  leads B1 B2 e1 c1 c2 -> leads B2 B3 e2 c2 c3 -> leads B1 B3 (e1 ++ e2) c1 c3.
Proof.
  intros H1 H2 Hg. destruct (H1 Hg) as [Hg2 G1]. destruct (H2 Hg2) as [Hg3 G2].
  split; [done|by eapply grows_trans].
Qed.

Lemma leads_seq B1 B2 B3 e c1 c2 c3 :
  leads B1 B2 [] c1 c2 -> (good B2 c2 -> grows [] c1 c2 -> leads B2 B3 e c2 c3) -> leads B1 B3 e c1 c3.
Proof.
  intros H1 H2 Hg. destruct (H1 Hg) as [Hg2 G1]. destruct (H2 Hg2 G1 Hg2) as [Hg3 G2].
  split; [done|]. change e with ([] ++ e). by eapply grows_trans.
Qed.

Lemma grows_member exc c c' p : grows exc c c' -> p ∉ exc -> member c p -> member c' p.
Proof.
  intros G Hp (n & Hn & Hh). destruct (gr_node _ _ _ G p n Hp Hn) as (n' & Hn' & _ & Hm).
  exists n'. split; [done|]. by apply Hm.
Qed.

Lemma grows_live exc c c' p : grows exc c c' -> p ∉ exc -> live c p -> live c' p.
Proof. intros G Hp [n Hn]. destruct (gr_node _ _ _ G p n Hp Hn) as (n' & Hn' & _). by exists n'. Qed.

Lemma peer_lookup (c : cluster) p n : heap (table c) !! p = Some n -> peer c p = n.
Proof. intros E. unfold peer. by rewrite E. Qed.

Lemma link_lookup (c : cluster) l k : links c !! l = Some k -> link_of c l = k.
Proof. intros E. unfold link_of. by rewrite E. Qed.

Lemma link_lookup_None (c : cluster) l : links c !! l = None -> link_of c l = new_link.
Proof. intros E. unfold link_of. by rewrite E. Qed.

Lemma live_peer (c : cluster) p : live c p -> heap (table c) !! p = Some (peer c p).
Proof. intros [n E]. by rewrite (peer_lookup _ _ _ E). Qed.

Lemma grows_myid exc c c' : grows exc c c' -> member c (myself_ c) -> myself_ c ∉ exc ->
  n_id (myself c') = n_id (myself c).
Proof.
  intros G (n & Hn & Hh) Hp. destruct (gr_node _ _ _ G _ n Hp Hn) as (n' & Hn' & _ & Hm).
  unfold myself. rewrite (gr_me _ _ _ G), (peer_lookup _ _ _ Hn), (peer_lookup _ _ _ Hn').
  by apply Hm.
Qed.

(** ** Changes the invariant does not see *)

Record inert (c c' : cluster) : Prop := {
  in_table : table c' = table c;
  in_links : links c' = links c;
  in_next : next_link c' = next_link c;
  in_me : myself_ c' = myself_ c;
  in_current : current_epoch_ c' = current_epoch_ c;
  in_last : last_vote_epoch_ c' = last_vote_epoch_ c;
  in_disk : disk c' = disk c;
  in_unsynced : unsynced c' = unsynced c;
  in_posted : posted c' = posted c;
  in_options : options_ c' = options_ c;
  in_rng : w_rng (world c') = w_rng (world c);
  in_drawn : w_drawn (world c') = w_drawn (world c);
  in_local : w_local_ip (world c') = w_local_ip (world c);
  in_auth : failover_auth_epoch_ (auth c') = failover_auth_epoch_ (auth c);
  in_manual : mf_replica_ (manual c') = mf_replica_ (manual c) \/ mf_replica_ (manual c') = None;
}.

Lemma inert_refl (c : cluster) : inert c c.
Proof. split; try done. by left. Qed.

Lemma inert_trans (c1 c2 c3 : cluster) : inert c1 c2 -> inert c2 c3 -> inert c1 c3.
Proof.
  intros [] []. split; try congruence.
  destruct in_manual0 as [E|E], in_manual1 as [E'|E']; rewrite ?E' ; auto.
Qed.

Lemma inert_good B (c c' : cluster) : inert c c' -> good B c -> good B c'.
Proof.
  intros [] []. unfold live, member, myself, peer in *.
  split; unfold live, member, acks, myself, peer in *;
    rewrite ?in_table0, ?in_links0, ?in_next0, ?in_me0, ?in_rng0, ?in_drawn0, ?in_local0,
      ?in_posted0, ?in_auth0, ?in_current0, ?in_options0; try done.
  - intros p Hp. apply gd_manual0. destruct in_manual0 as [E|E]; congruence.
  - destruct gd_low0. split; rewrite ?in_current0, ?in_table0; done.
  - destruct gd_votes0. split; unfold acks in *; rewrite ?in_current0, ?in_last0, ?in_posted0; done.
  - unfold disk_ok. rewrite in_disk0, in_unsynced0. eapply list.Forall_impl; [exact gd_disk0|].
    intros d. unfold file_ok, acks, myself, peer. by rewrite in_posted0, in_table0, in_me0, in_current0.
Qed.

Lemma inert_grows (c c' : cluster) : inert c c' -> grows [] c c'.
Proof.
  intros []. split; try congruence.
  - lia.
  - intros p n _ Hp. exists n. by rewrite in_table0.
  - intros l. unfold link_of. by rewrite in_links0.
  - by rewrite in_posted0.
Qed.

Lemma leads_inert B (c c' : cluster) : inert c c' -> leads B B [] c c'.
Proof. intros Hi Hg. split; [by eapply inert_good|by apply inert_grows]. Qed.

(** ** Changes of nodes *)

Definition reheap (h : gmap Z Peer) (c : cluster) : cluster := c <| table := table c <| heap := h |> |>.

(** Node by node, a mild or a tame change. *)
Definition milds (h h' : gmap Z Peer) : Prop := forall p, option_Forall2 mild (h !! p) (h' !! p).
Definition tames (h h' : gmap Z Peer) : Prop := forall p, option_Forall2 tame (h !! p) (h' !! p).

Lemma tames_milds h h' : tames h h' -> milds h h'.
Proof. intros Ht p. specialize (Ht p). destruct Ht as [n n' T|]; constructor. by destruct T. Qed.

Lemma milds_fwd h h' p n : milds h h' -> h !! p = Some n -> exists n', h' !! p = Some n' /\ mild n n'.
Proof. intros Ht E. specialize (Ht p). rewrite E in Ht. inversion Ht; subst. eauto. Qed.

Lemma milds_bwd h h' p n' : milds h h' -> h' !! p = Some n' -> exists n, h !! p = Some n /\ mild n n'.
Proof. intros Ht E. specialize (Ht p). rewrite E in Ht. inversion Ht; subst. eauto. Qed.

Lemma tames_bwd h h' p n' : tames h h' -> h' !! p = Some n' -> exists n, h !! p = Some n /\ tame n n'.
Proof. intros Ht E. specialize (Ht p). rewrite E in Ht. inversion Ht; subst. eauto. Qed.

Lemma milds_tmember t t' p : milds (heap t) (heap t') -> tmember t p -> tmember t' p.
Proof.
  intros Ht (n & E & Hh). destruct (milds_fwd _ _ _ _ Ht E) as (n' & E' & T). exists n'.
  split; [done|]. by rewrite (ml_handshake _ _ T).
Qed.

Lemma milds_ids t t' : milds (heap t) (heap t') -> nodes_ t' = nodes_ t ->
  (forall id p, nodes_ t !! id = Some p <-> exists n, heap t !! p = Some n /\ n_id n = id) ->
  forall id p, nodes_ t' !! id = Some p <-> exists n, heap t' !! p = Some n /\ n_id n = id.
Proof.
  intros Ht -> Hi id p. rewrite Hi. split; intros (n & E & En).
  - destruct (milds_fwd _ _ _ _ Ht E) as (n' & E' & T). exists n'. by rewrite (ml_id _ _ T).
  - destruct (milds_bwd _ _ _ _ Ht E) as (n' & E' & T). exists n'. by rewrite <-(ml_id _ _ T).
Qed.

Lemma table_ok_tames t h me : tames (heap t) h -> table_ok t me -> table_ok (t <| heap := h |>) me.
Proof.
  intros Ht []. pose proof (tames_milds _ _ Ht) as Hm. split; cbn.
  - exact (milds_ids t (t <| heap := h |>) Hm eq_refl tb_ids0).
  - intros p n E. destruct (milds_bwd _ _ _ _ Hm E) as (n' & E' & _). eauto.
  - intros p n E. destruct (tames_bwd _ _ _ _ Ht E) as (n' & E' & [T Ts]).
    destruct (tb_peer0 _ _ E') as (Hok & Hme & Hs).
    rewrite (ml_myself _ _ T), Ts. split; [by apply (ml_ok _ _ T)|done].
  - intros p n s E Hs. destruct (tames_bwd _ _ _ _ Ht E) as (n' & E' & [T Ts]). rewrite Ts. eauto.
  - intros slot p Hr. destruct (tb_refs0 slot p Hr) as [Hs Hp]. split; [done|].
    exact (milds_tmember t (t <| heap := h |>) p Hm Hp).
Qed.

Lemma ids_ok_milds B rng d t t' : milds (heap t) (heap t') -> nodes_ t' = nodes_ t ->
  ids_ok B rng d t -> ids_ok B rng d t'.
Proof.
  intros Ht Hn []. split; [done|by rewrite Hn|]. cbn. intros p n E Hh.
  destruct (milds_bwd _ _ _ _ Ht E) as (n' & E' & T).
  rewrite (ml_id _ _ T). rewrite (ml_handshake _ _ T) in Hh. eauto.
Qed.

(** The links of the nodes of a heap, seen from the nodes. *)
Definition same_links (h h' : gmap Z Peer) : Prop :=
  forall p, n_link <$> (h' !! p) = n_link <$> (h !! p).

Lemma links_ok_same h h' ls next : same_links h h' -> links_ok h ls next -> links_ok h' ls next.
Proof.
  intros Hs []. split; try done.
  - intros l k p E En. destruct (lk_node0 l k p E En) as (n & Eh & Hl).
    specialize (Hs p). rewrite Eh in Hs. destruct (h' !! p) as [n'|]; [|done].
    exists n'. split; [done|]. cbn in Hs. congruence.
  - intros p n l E En. specialize (Hs p). rewrite E in Hs. destruct (h !! p) as [n'|] eqn:E'; [|done].
    cbn in Hs. apply (lk_back0 p n' l E'). congruence.
Qed.

(** A change of the table that is mild on the nodes. *)
Lemma retable_grows t c : milds (heap (table c)) (heap t) -> grows [] c (c <| table := t |>).
Proof.
  intros Ht. split; try done. intros p n _ E. destruct (milds_fwd _ _ _ _ Ht E) as (n' & E' & T).
  exists n'. split; [done|]. split; [apply (ml_epoch _ _ T)|].
  intros Hh. by rewrite (ml_handshake _ _ T), (ml_id _ _ T).
Qed.

Lemma reheap_grows h c : tames (heap (table c)) h -> grows [] c (reheap h c).
Proof. intros Ht. by apply (retable_grows (table c <| heap := h |>)), tames_milds. Qed.

Lemma disk_ok_mono (c c' : cluster) : disk c' = disk c -> unsynced c' = unsynced c -> acks c' = acks c ->
  n_id (myself c') = n_id (myself c) -> current_epoch_ c <= current_epoch_ c' -> disk_ok c -> disk_ok c'.
Proof.
  intros Hd Hu Ha Hid He Hok. unfold disk_ok. rewrite Hd, Hu. eapply list.Forall_impl; [exact Hok|].
  intros d Hf. unfold file_ok in *. rewrite Ha, Hid. destruct d; [|done].
  destruct Hf as (c0 & ? & ? & ? & ? & ?). exists c0. split_and!; [done..|lia].
Qed.

Lemma disk_ok_grows (c c' : cluster) : grows [] c c' -> member c (myself_ c) -> disk c' = disk c ->
  unsynced c' = unsynced c -> posted c' = posted c -> disk_ok c -> disk_ok c'.
Proof.
  intros G Hm Hd Hu Hp. apply disk_ok_mono; [done|done|by unfold acks; rewrite Hp| |apply G].
  apply (grows_myid _ _ _ G Hm), not_elem_of_nil.
Qed.

Lemma leads_retable B t c : milds (heap (table c)) (heap t) -> same_links (heap (table c)) (heap t) ->
  nodes_ t = nodes_ (table c) ->
  (table_ok (table c) (Some (myself_ c)) -> table_ok t (Some (myself_ c))) ->
  (forall p n, heap t !! p = Some n -> n_config_epoch n <= current_epoch_ c) -> leads B B [] c (c <| table := t |>).
Proof.
  intros Ht Hl Hn Hok Hb Hg. pose proof (retable_grows t c Ht) as G. split; [|done]. destruct Hg. split.
  - by apply Hok.
  - exact (milds_tmember (table c) t _ Ht gd_me0).
  - by apply (links_ok_same (heap (table c))).
  - by apply (ids_ok_milds _ _ _ (table c)).
  - intros p Hp. apply (grows_live _ _ _ _ G); [apply not_elem_of_nil|auto].
  - done.
  - done.
  - done.
  - done.
  - destruct gd_low0. by split.
  - by destruct gd_votes0.
  - by apply (disk_ok_grows c).
Qed.

Lemma leads_reheap B h c : tames (heap (table c)) h -> same_links (heap (table c)) h ->
  (forall p n, h !! p = Some n -> n_config_epoch n <= current_epoch_ c) -> leads B B [] c (reheap h c).
Proof.
  intros Ht Hl Hb. apply (leads_retable B (table c <| heap := h |>)); try done.
  - by apply tames_milds.
  - by apply table_ok_tames.
Qed.

Lemma peer_mild_refl n : mild n n.
Proof. by split. Qed.

Lemma tame_refl n : tame n n.
Proof. by split. Qed.

Lemma tames_alter h p f : (forall n, h !! p = Some n -> tame n (f n)) -> tames h (alter f p h).
Proof.
  intros Hf q. destruct (decide (p = q)) as [->|Hq].
  - rewrite lookup_alter_eq. destruct (h !! q) eqn:E; constructor. by apply Hf.
  - rewrite lookup_alter_ne by done. destruct (h !! q); constructor. apply tame_refl.
Qed.

Lemma leads_on_peer B p f c :
  (forall n, heap (table c) !! p = Some n -> tame n (f n) /\ n_link (f n) = n_link n /\
             (n_config_epoch n <= current_epoch_ c -> n_config_epoch (f n) <= current_epoch_ c)) ->
  leads B B [] c (on_peer p f c).
Proof.
  intros Hf Hg. apply (leads_reheap B (alter f p (heap (table c)))); [|intros q|intros q n|done].
  - apply tames_alter. intros n E. by apply Hf.
  - destruct (decide (p = q)) as [->|Hq]; [|by rewrite lookup_alter_ne].
    rewrite lookup_alter_eq. destruct (heap (table c) !! q) as [n|] eqn:E; [|done].
    cbn. f_equal. by apply Hf.
  - intros E. pose proof (lw_config _ _ (gd_low _ _ Hg)) as Hb.
    destruct (decide (p = q)) as [->|Hq]; [|rewrite lookup_alter_ne in E by done; eauto].
    rewrite lookup_alter_eq in E. destruct (heap (table c) !! q) as [n0|] eqn:E0; [|done].
    injection E as <-. destruct (Hf n0 eq_refl) as (_ & _ & Hn). eauto.
Qed.

(** ** Links *)

Lemma links_ok_alter h ls next l f :
  (forall k, ls !! l = Some k -> l_node (f k) = l_node k /\ dead (f k) = dead k /\ peer_ip (f k) = peer_ip k) ->
  links_ok h ls next -> links_ok h (alter f l ls) next.
Proof.
  intros Hf [].
  assert (Hinv : forall l' k', alter f l ls !! l' = Some k' -> exists k, ls !! l' = Some k /\
            l_node k' = l_node k /\ dead k' = dead k /\ peer_ip k' = peer_ip k).
  { intros l' k' E. destruct (decide (l = l')) as [->|Hl].
    - rewrite lookup_alter_eq in E. destruct (ls !! l') as [k|] eqn:E'; [|done].
      injection E as <-. destruct (Hf k eq_refl) as (? & ? & ?). by exists k.
    - rewrite lookup_alter_ne in E by done. by exists k'. }
  split.
  - intros l' k' E. destruct (Hinv _ _ E) as (k & E' & _). eauto.
  - intros l' k' E Hd. destruct (Hinv _ _ E) as (k & E' & En & Ed & _). rewrite En. eapply lk_dead0; [done|congruence].
  - intros l' k' p E Hp. destruct (Hinv _ _ E) as (k & E' & En & _). eapply lk_node0; [done|congruence].
  - intros p n l' E En. destruct (lk_back0 p n l' E En) as (k & Ek & Hk).
    destruct (decide (l = l')) as [->|Hl].
    + rewrite lookup_alter_eq, Ek. exists (f k). split; [done|]. destruct (Hf k Ek) as (-> & _). done.
    + rewrite lookup_alter_ne by done. by exists k.
  - intros l' k' E. destruct (Hinv _ _ E) as (k & E' & _ & _ & ->). eauto.
Qed.

Definition relink (ls : gmap Z Link) (c : cluster) : cluster := c <| links := ls |>.

Lemma relink_good B ls c : links_ok (heap (table c)) ls (next_link c) -> good B c -> good B (relink ls c).
Proof.
  intros Hl []. split; try done.
  - by destruct gd_low0.
  - by destruct gd_votes0.
Qed.

Lemma relink_grows ls c : (forall l, l_input (link_of (relink ls c) l) = l_input (link_of c l)) ->
  grows [] c (relink ls c).
Proof. intros Hi. split; try done. intros p n _ E. by exists n. Qed.

Lemma leads_on_link B l f c :
  (forall k, links c !! l = Some k -> l_node (f k) = l_node k /\ dead (f k) = dead k /\
             peer_ip (f k) = peer_ip k /\ l_input (f k) = l_input k) ->
  leads B B [] c (on_link l f c).
Proof.
  intros Hf Hg. split.
  - apply (relink_good B (alter f l (links c))); [|done]. apply links_ok_alter; [|apply Hg].
    intros k E. destruct (Hf k E) as (? & ? & ? & ?). done.
  - apply (relink_grows (alter f l (links c))). intros l'. unfold link_of. cbn.
    destruct (decide (l = l')) as [->|Hl]; [|by rewrite lookup_alter_ne].
    rewrite lookup_alter_eq. destruct (links c !! l') as [k|] eqn:E; [|done]. cbn. by apply Hf.
Qed.

Definition bury (k : Link) : Link := k <| dead := true |> <| l_node := None |>.
Definition unlink (p : option Z) (h : gmap Z Peer) : gmap Z Peer :=
  match p with Some p => alter (fun n => n <| n_link := None |>) p h | None => h end.

Lemma unlink_lookup h q p n : unlink q h !! p = Some n -> exists n0, h !! p = Some n0 /\
  ((q <> Some p /\ n = n0) \/ (q = Some p /\ n = n0 <| n_link := None |>)).
Proof.
  destruct q as [q|]; cbn; [|eauto 10]. intros E. destruct (decide (q = p)) as [->|Hq].
  - rewrite lookup_alter_eq in E. destruct (h !! p) as [n0|]; [|done]. injection E as <-. eauto 10.
  - rewrite lookup_alter_ne in E by done. exists n. split; [done|]. left. split; [congruence|done].
Qed.

Lemma unlink_lookup_ne h q p n : q <> Some p -> h !! p = Some n -> unlink q h !! p = Some n.
Proof. intros Hq E. destruct q as [q|]; [|done]. cbn. rewrite lookup_alter_ne; congruence. Qed.

Lemma links_ok_free h ls next l k : ls !! l = Some k -> links_ok h ls next ->
  links_ok (unlink (l_node k) h) (alter bury l ls) next.
Proof.
  intros El [].
  assert (Hinv : forall l' k', alter bury l ls !! l' = Some k' ->
            (l' = l /\ k' = bury k) \/ (l' <> l /\ ls !! l' = Some k')).
  { intros l' k' E. destruct (decide (l = l')) as [->|Hl].
    - rewrite lookup_alter_eq, El in E. injection E as <-. auto.
    - rewrite lookup_alter_ne in E by done. auto. }
  split.
  - intros l' k' E. destruct (Hinv _ _ E) as [[-> _]|[_ E']]; eauto.
  - intros l' k' E. destruct (Hinv _ _ E) as [[_ ->]|[_ E']]; [done|eauto].
  - intros l' k' p E Hp. destruct (Hinv _ _ E) as [[_ ->]|[Hl E']]; [done|].
    destruct (lk_node0 _ _ _ E' Hp) as (n & En & Hn). exists n. split; [|done].
    apply unlink_lookup_ne; [|done]. intros Ek. destruct (lk_node0 _ _ _ El Ek) as (n' & En' & Hn').
    congruence.
  - intros p n l' E Hn. destruct (unlink_lookup _ _ _ _ E) as (n0 & E0 & [[Hq ->]|[_ ->]]); [|done].
    destruct (lk_back0 _ _ _ E0 Hn) as (k' & Ek' & Hk'). exists k'. split; [|done].
    rewrite lookup_alter_ne; [done|]. intros ->. congruence.
  - intros l' k' E. destruct (Hinv _ _ E) as [[_ ->]|[_ E']]; [cbn; eauto|eauto].
Qed.

Lemma tames_unlink q h : tames h (unlink q h).
Proof.
  destruct q as [q|].
  - apply tames_alter. intros n _. tame_update.
  - intros p. cbn. destruct (h !! p); constructor. apply tame_refl.
Qed.

(** What [free_link] does to a link that is not dead yet. *)
Lemma free_link_spec B l c k : good B c -> links c !! l = Some k -> dead k = false ->
  free_link l c = relink (alter bury l (links c)) (reheap (unlink (l_node k) (heap (table c))) c).
Proof.
  intros Hg El Ed. unfold free_link. rewrite (link_lookup _ _ _ El), Ed.
  destruct (l_node k) as [p|] eqn:Ep.
  - destruct (lk_node _ _ _ (gd_links _ _ Hg) _ _ _ El Ep) as (n & En & Hn).
    rewrite (peer_lookup _ _ _ En), Hn. rewrite bool_decide_eq_true_2 by done. reflexivity.
  - unfold reheap, unlink. by destruct c as [? ? ? []].
Qed.

Lemma leads_free_link B l c : leads B B [] c (free_link l c).
Proof.
  intros Hg. destruct (links c !! l) as [k|] eqn:El.
  2:{ unfold free_link. rewrite (link_lookup_None _ _ El). cbn [new_link dead l_node].
      apply leads_on_link; [|done]. intros k E. congruence. }
  destruct (dead k) eqn:Ed.
  { unfold free_link. rewrite (link_lookup _ _ _ El), Ed. by apply leads_refl. }
  rewrite (free_link_spec B _ _ _ Hg El Ed).
  set (h := unlink (l_node k) (heap (table c))).
  assert (Ht : tames (heap (table c)) h) by apply tames_unlink.
  pose proof (reheap_grows h c Ht) as G1.
  assert (G2 : grows [] (reheap h c) (relink (alter bury l (links c)) (reheap h c))).
  { apply relink_grows. intros l'. unfold link_of. cbn.
    destruct (decide (l = l')) as [->|Hl]; [|by rewrite lookup_alter_ne].
    rewrite lookup_alter_eq, El. done. }
  pose proof (grows_trans _ _ _ _ _ G1 G2) as G. split; [|done].
  pose proof (links_ok_free _ _ _ _ _ El (gd_links _ _ Hg)) as Hl. fold h in Hl.
  destruct Hg. split; try done.
  - by apply table_ok_tames.
  - exact (milds_tmember (table c) (table c <| heap := h |>) _ (tames_milds _ _ Ht) gd_me0).
  - exact (ids_ok_milds _ _ _ (table c) (table c <| heap := h |>) (tames_milds _ _ Ht) eq_refl gd_ids0).
  - intros p Hp. apply (grows_live _ _ _ _ G); [apply not_elem_of_nil|auto].
  - destruct gd_low0. split; try done. intros p n E. destruct (unlink_lookup _ _ _ _ E) as (n0 & E0 & [[_ ->]|[_ ->]]).
    all: apply (lw_config0 _ _ E0).
  - by destruct gd_votes0.
  - by apply (disk_ok_grows c).
Qed.

(** ** Sending *)

Lemma next_send_inert (c : cluster) : inert c (next_send c).2.
Proof. unfold next_send. destruct (w_sends (world c)); [apply inert_refl|inert_update]. Qed.

Lemma leads_flush_link B l c : leads B B [] c (flush_link l c).
Proof.
  unfold flush_link. destruct (l_out (link_of c l)); [by apply leads_on_link|].
  pose proof (next_send_inert c) as Hi. destruct (next_send c) as [o c1]. cbn in Hi.
  apply (leads_seq _ B _ _ _ c1); [by apply leads_inert|intros _ _].
  destruct o; [by apply leads_on_link|by apply leads_on_link|apply leads_free_link].
Qed.

(** A message handed to a link. *)
Definition post (x : option Z * Message) (c : cluster) : cluster :=
  c <| messages_sent_ := u64 (messages_sent_ c + 1) |> <| posted := posted c ++ [x] |>.

Lemma acks_post x c : acks (post x c) = acks c ++ match ack_epoch x with Some e => [e] | None => [] end.
Proof. unfold acks, post. cbn. rewrite omap_app. cbn. by destruct (ack_epoch x). Qed.

(** The vote [e] is new, and remembered in memory and on disk for good. *)
Record votable (c : cluster) (e : Z) : Prop := {
  vb_current : e = current_epoch_ c;
  vb_last : last_vote_epoch_ c = current_epoch_ c;
  vb_new : Forall (fun e' => e' < e) (acks c);
  vb_disk : exists c0, disk c = Some (describe_nodes true c0) /\ sound c0 /\
              current_epoch_ c0 = e /\ last_vote_epoch_ c0 = e /\ n_id (myself c0) = n_id (myself c);
  vb_synced : unsynced c = [];
}.

Lemma post_votes c x : (forall e, ack_epoch x = Some e -> votable c e) -> votes_ok c -> disk_ok c ->
  votes_ok (post x c) /\ disk_ok (post x c).
Proof.
  intros Hx [] Hd. pose proof (acks_post x c) as Ha.
  destruct (ack_epoch x) as [e|] eqn:Ex; [|rewrite app_nil_r in Ha].
  - destruct (Hx e eq_refl) as [Hc Hl Hn (c0 & Ed & Hs & Hc0 & Hl0 & Hid) Hu]. split.
    + split; rewrite ?Ha; try done.
      * apply list.NoDup_app. split; [done|]. split; [|apply list.NoDup_singleton].
        intros e' He' ->%list_elem_of_singleton. rewrite list.Forall_forall in Hn. specialize (Hn _ He'). lia.
      * apply Forall_app. split; [done|]. apply Forall_singleton. right. done.
    + unfold disk_ok. change (unsynced (post x c)) with (unsynced c). change (disk (post x c)) with (disk c).
      rewrite Hu, Ed. apply Forall_singleton. unfold file_ok. rewrite Ha. exists c0. split_and!; [done|done| |done|cbn; lia].
      apply Forall_app. split; [|apply Forall_singleton; right; lia].
      eapply list.Forall_impl; [exact Hn|]. cbn. intros; lia.
  - split; [split; by rewrite ?Ha|]. unfold disk_ok, file_ok in *. by rewrite Ha.
Qed.

Lemma leads_post B x c : (good B c -> forall e, ack_epoch x = Some e -> votable c e) -> polite x.2 ->
  leads B B [] c (post x c).
Proof.
  intros Hx Hm Hg. assert (G : grows [] c (post x c)).
  { split; try done. - intros p n _ E. by exists n. - by exists [x]. }
  split; [|done]. destruct (post_votes c x (Hx Hg) (gd_votes _ _ Hg) (gd_disk _ _ Hg)).
  destruct Hg. split; try done; [|by destruct gd_low0].
  apply Forall_app. split; [done|]. by apply Forall_singleton.
Qed.

Lemma send_unfold l msg c : send l msg c =
  let lk := link_of c l in
  if dead lk then c
  else
    let c := post (l_node lk, msg) (on_link l (fun k => k <| l_out := M.encode msg (l_out k) |>) c) in
    if kMaxLinkOutput <? zlen (l_out (link_of c l)) then free_link l c
    else if negb (connecting lk) then flush_link l c else c.
Proof. reflexivity. Qed.

Lemma on_link_inert_votable l f c e : votable c e -> votable (on_link l f c) e.
Proof. intros []. by split. Qed.

Lemma leads_send_any B l msg c : (forall e, ack_epoch (None, msg) = Some e -> votable c e) -> polite msg ->
  leads B B [] c (send l msg c).
Proof.
  intros Hx Hm. rewrite send_unfold. cbv zeta. destruct (dead (link_of c l)); [apply leads_refl|].
  eapply leads_seq; [by apply (leads_on_link B l (fun k => k <| l_out := M.encode msg (l_out k) |>))|].
  intros _ _. eapply leads_seq.
  { apply (leads_post B (l_node (link_of c l), msg)); [|done]. intros _ e He. apply on_link_inert_votable. by apply Hx. }
  intros _ _.
  destruct (kMaxLinkOutput <? _); [apply leads_free_link|].
  destruct (negb _); [apply leads_flush_link|apply leads_refl].
Qed.

Lemma leads_send B l msg c : M.type msg <> M.kFailoverAuthAck -> polite msg -> leads B B [] c (send l msg c).
Proof.
  intros Ht Hm. apply leads_send_any; [|done]. intros e. unfold ack_epoch. cbn.
  by rewrite bool_decide_eq_false_2.
Qed.

(** ** Loops *)

Lemma leads_foldl_in {A} B (f : cluster -> A -> cluster) l c :
  (forall c' a, a ∈ l -> good B c' -> grows [] c c' -> leads B B [] c' (f c' a)) ->
  leads B B [] c (foldl f c l).
Proof.
  revert c. induction l as [|a l IH]; intros c Hf; [apply leads_refl|]. cbn.
  intros Hg. destruct (Hf c a ltac:(set_solver) Hg (grows_refl c) Hg) as [Hg1 G1].
  destruct (IH (f c a)) as [Hg2 G2]; [|done|split; [done|exact (grows_trans _ _ _ _ _ G1 G2)]].
  intros c' a' Ha Hg' G'. apply Hf; [set_solver|done|exact (grows_trans _ _ _ _ _ G1 G')].
Qed.

Lemma leads_foldl {A} B (f : cluster -> A -> cluster) l c :
  (forall c' a, leads B B [] c' (f c' a)) -> leads B B [] c (foldl f c l).
Proof. intros Hf. apply leads_foldl_in. intros. apply Hf. Qed.

Lemma leads_if B c (b : bool) (c1 c2 : cluster) : leads B B [] c c1 -> leads B B [] c c2 ->
  leads B B [] c (if b then c1 else c2).
Proof. by destruct b. Qed.

(** ** Messages *)

Lemma good_peer B c p n : good B c -> heap (table c) !! p = Some n -> peer_ok n /\ n_config_epoch n <= current_epoch_ c.
Proof.
  intros Hg E. split; [by destruct (tb_peer _ _ (gd_table _ _ Hg) _ _ E)|].
  exact (lw_config _ _ (gd_low _ _ Hg) _ _ E).
Qed.

Lemma peer_config_le B c p : good B c -> n_config_epoch (peer c p) <= current_epoch_ c.
Proof.
  intros Hg. destruct (heap (table c) !! p) as [n|] eqn:E.
  - rewrite (peer_lookup _ _ _ E). by apply (good_peer B c p n Hg E).
  - unfold peer. rewrite E. apply (vt_current _ (gd_votes _ _ Hg)).
Qed.

Lemma polite_header B t c : good B c -> polite (header t c).
Proof.
  intros Hg. destruct (gd_me _ _ Hg) as (n & E & _). destruct (good_peer B c _ _ Hg E) as [[] _].
  unfold header, myself. rewrite (peer_lookup _ _ _ E).
  pose proof (vt_current _ (gd_votes _ _ Hg)).
  split; cbn; try done; [apply Hg|apply Hg|..].
  destruct (master_of c (myself_ c)) as [m|]; cbn; [by apply (peer_config_le B)|done].
Qed.

Lemma polite_gossip m gs : polite m -> Forall gossip_fine gs -> polite (M.with_gossip m gs).
Proof. intros [] Hg. by split. Qed.

Lemma polite_update m id e s : polite m -> e <= M.current_epoch m -> polite (M.with_update m id e s).
Proof. intros [] He. by split. Qed.

Lemma polite_fail m id : polite m -> polite (M.with_fail m id).
Proof. intros []. by split. Qed.

Lemma gossip_entry_fine n : peer_ok n -> gossip_fine (gossip_entry n).
Proof. by intros []. Qed.

Lemma new_peer_fine : gossip_fine (gossip_entry new_peer).
Proof. split; [constructor|]. by vm_compute. Qed.

Lemma peer_gossip_fine B c p : good B c -> gossip_fine (gossip_entry (peer c p)).
Proof.
  intros Hg. destruct (heap (table c) !! p) as [n|] eqn:E.
  - rewrite (peer_lookup _ _ _ E). apply gossip_entry_fine. by apply (good_peer B c p n).
  - unfold peer. rewrite E. apply new_peer_fine.
Qed.

Lemma leads_broadcast B msg c : M.type msg <> M.kFailoverAuthAck -> polite msg ->
  leads B B [] c (broadcast msg c).
Proof.
  intros Ht Hm. unfold broadcast. apply leads_foldl. intros c' p. destruct (bool_decide _); [apply leads_refl|].
  destruct (usable c' p); [by apply leads_send|apply leads_refl].
Qed.

Lemma leads_ping_sent B p t c : leads B B [] c (on_peer p (fun n => n <| n_ping_sent := t |>) c).
Proof. apply leads_on_peer. intros n _. split; [tame_update|done]. Qed.

Lemma leads_send_ping B l t c : t <> M.kFailoverAuthAck -> leads B B [] c (send_ping l t c).
Proof.
  intros Ht Hg. revert Hg. unfold send_ping.
  set (m := M.with_gossip _ _). intros Hg.
  assert (Hm : polite m).
  { apply polite_gossip; [by apply (polite_header B)|]. apply List.Forall_map, list.Forall_true.
    intros p. by apply (peer_gossip_fine B). }
  assert (Et : M.type m = t) by done. clearbody m. revert Hg.
  eapply leads_seq; [|intros _ _; apply leads_send; [by rewrite Et|done]].
  destruct (l_node _) as [p|]; [|apply leads_refl]. apply leads_if; [apply leads_ping_sent|apply leads_refl].
Qed.

Lemma leads_broadcast_pong B c : leads B B [] c (broadcast_pong c).
Proof.
  unfold broadcast_pong. apply leads_foldl. intros c' p.
  destruct (usable c' p); [by apply leads_send_ping|apply leads_refl].
Qed.

Lemma leads_send_update B l p c : leads B B [] c (send_update l p c).
Proof.
  intros Hg. revert Hg. unfold send_update. intros Hg. apply leads_send; [done| |done].
  apply polite_update; [by apply (polite_header B)|by apply (peer_config_le B)].
Qed.

(** ** Slots *)

Definition reslot (slot : Z) (old new : option Z) (p : Z) (n : Peer) : Peer :=
  let n := if bool_decide (old = Some p) then n <| n_slots := Z.clearbit (n_slots n) slot |> else n in
  if bool_decide (new = Some p) then n <| n_slots := Z.setbit (n_slots n) slot |> else n.

Lemma alter_lookup_if {A} (f : A -> A) (i j : Z) (m : gmap Z A) :
  alter f i m !! j = (fun x => if bool_decide (i = j) then f x else x) <$> m !! j.
Proof.
  destruct (bool_decide_reflect (i = j)) as [->|Hn]; [by rewrite lookup_alter_eq|].
  rewrite lookup_alter_ne by done. by destruct (m !! j).
Qed.

Lemma set_slot_heap slot o t p :
  heap (set_slot_in slot o t) !! p = reslot slot (owner_ t !! slot) o p <$> heap t !! p.
Proof.
  unfold set_slot_in, reslot. destruct (owner_ t !! slot) as [q|], o as [q'|]; cbn;
    rewrite ?alter_lookup_if; destruct (heap t !! p) as [n|]; cbn; try done; f_equal;
    by repeat case_bool_decide; simplify_eq.
Qed.

Lemma reslot_mild slot old new p n : mild n (reslot slot old new p n).
Proof. unfold reslot. do 2 case_bool_decide; (split; [done|done|done|intros []; by split|apply Z.le_refl]). Qed.

Lemma reslot_link slot old new p n : n_link (reslot slot old new p n) = n_link n.
Proof. unfold reslot. by do 2 case_bool_decide. Qed.

Lemma reslot_epoch slot old new p n : n_config_epoch (reslot slot old new p n) = n_config_epoch n.
Proof. unfold reslot. by do 2 case_bool_decide. Qed.

Lemma setbit_nonneg a s : 0 <= a -> 0 <= s -> 0 <= Z.setbit a s.
Proof. intros. rewrite Z.setbit_spec'. apply Z.lor_nonneg. split; [done|]. apply Z.pow_nonneg. lia. Qed.

Lemma reslot_bits slot old new p n s : 0 <= slot -> 0 <= s ->
  Z.testbit (n_slots n) slot = bool_decide (old = Some p) ->
  Z.testbit (n_slots (reslot slot old new p n)) s =
    if s =? slot then bool_decide (new = Some p) else Z.testbit (n_slots n) s.
Proof.
  intros Hslot Hs Hn. unfold reslot.
  destruct (Z.eqb_spec s slot) as [->|Hne]; repeat case_bool_decide; cbn;
    rewrite ?Z.setbit_eqb, ?Z.clearbit_eqb, ?Z.eqb_refl by done; cbn; rewrite ?andb_false_r, ?Hn; try done.
  all: destruct (Z.eqb_spec slot s); [congruence|]; cbn; by rewrite ?andb_true_r.
Qed.

Lemma clearbit_nonneg a s : 0 <= a -> 0 <= Z.clearbit a s.
Proof. intros. rewrite Z.clearbit_spec'. apply Z.ldiff_nonneg. by left. Qed.

Lemma reslot_nonneg slot old new p n : 0 <= slot -> 0 <= n_slots n -> 0 <= n_slots (reslot slot old new p n).
Proof.
  intros Hslot Hn. unfold reslot.
  repeat case_bool_decide; cbn; auto using setbit_nonneg, clearbit_nonneg.
Qed.

Lemma set_slot_milds slot o t : milds (heap t) (heap (set_slot_in slot o t)).
Proof.
  intros p. rewrite set_slot_heap. destruct (heap t !! p); constructor. apply reslot_mild.
Qed.

Lemma set_slot_owner slot o t s :
  owner_ (set_slot_in slot o t) !! s = if s =? slot then o else owner_ t !! s.
Proof.
  unfold set_slot_in. destruct (Z.eqb_spec s slot) as [->|Hne]; destruct o; cbn;
    rewrite ?lookup_insert_eq, ?lookup_delete_eq, ?lookup_insert_ne, ?lookup_delete_ne by done; done.
Qed.

Lemma set_slot_rest slot o t : nodes_ (set_slot_in slot o t) = nodes_ t /\
  next_ptr (set_slot_in slot o t) = next_ptr t /\
  migrating_to_ (set_slot_in slot o t) = migrating_to_ t /\
  importing_from_ (set_slot_in slot o t) = importing_from_ t.
Proof. unfold set_slot_in. by destruct o. Qed.

Lemma table_ok_set_slot t me slot o : 0 <= slot < kSlots -> (forall p, o = Some p -> tmember t p) ->
  table_ok t me -> table_ok (set_slot_in slot o t) me.
Proof.
  intros Hslot Ho [Hids Hfresh Hpeer Hslots Hrefs]. pose proof (set_slot_milds slot o t) as Hm.
  destruct (set_slot_rest slot o t) as (En & Ep & Emi & Eim).
  assert (Hinv : forall p n, heap (set_slot_in slot o t) !! p = Some n ->
            exists n0, heap t !! p = Some n0 /\ n = reslot slot (owner_ t !! slot) o p n0).
  { intros p n. rewrite set_slot_heap. destruct (heap t !! p) as [n0|]; [|done]. intros [= <-]. eauto. }
  split.
  - exact (milds_ids t _ Hm En Hids).
  - intros p n E. destruct (Hinv _ _ E) as (n0 & E0 & _). rewrite Ep. eauto.
  - intros p n E. destruct (Hinv _ _ E) as (n0 & E0 & ->). destruct (Hpeer _ _ E0) as (Hok & Hme & Hs).
    pose proof (reslot_mild slot (owner_ t !! slot) o p n0) as T. rewrite (ml_myself _ _ T).
    split; [by apply (ml_ok _ _ T)|]. split; [done|]. apply reslot_nonneg; [lia|done].
  - intros p n s E Hs. destruct (Hinv _ _ E) as (n0 & E0 & ->). rewrite set_slot_owner.
    rewrite reslot_bits by (lia || eauto with lia). destruct (s =? slot); [done|eauto].
  - intros s p Hr. assert (refers t s p \/ (s = slot /\ o = Some p)) as [Hr'|[-> ->]].
    { unfold refers in *. rewrite set_slot_owner, Emi, Eim in Hr.
      destruct (Z.eqb_spec s slot) as [->|]; intuition. }
    + destruct (Hrefs _ _ Hr') as [? Hp]. split; [done|]. exact (milds_tmember t _ p Hm Hp).
    + split; [done|]. exact (milds_tmember t _ p Hm (Ho p eq_refl)).
Qed.

Lemma leads_set_slot B slot o c : 0 <= slot < kSlots -> (forall p, o = Some p -> member c p) ->
  leads B B [] c (set_slot slot o c).
Proof.
  intros Hslot Ho. apply (leads_seq _ B _ _ _ (on_table (set_slot_in slot o) c));
    [|intros _ _; apply leads_inert; inert_update].
  intros Hg. apply (leads_retable B (set_slot_in slot o (table c))); [apply set_slot_milds|..|done].
  - intros p. rewrite set_slot_heap. destruct (heap (table c) !! p); [|done]. cbn. by rewrite reslot_link.
  - apply set_slot_rest.
  - by apply table_ok_set_slot.
  - intros p n. rewrite set_slot_heap. destruct (heap (table c) !! p) as [n0|] eqn:E; [|done].
    intros [= <-]. rewrite reslot_epoch. exact (lw_config _ _ (gd_low _ _ Hg) _ _ E).
Qed.

(** ** Moves *)

Lemma table_ok_moves t t' me : heap t' = heap t -> nodes_ t' = nodes_ t -> next_ptr t' = next_ptr t ->
  owner_ t' = owner_ t ->
  (forall slot p, refers t' slot p -> refers t slot p \/ (0 <= slot < kSlots /\ tmember t p)) ->
  table_ok t me -> table_ok t' me.
Proof.
  intros Eh En Ep Eo Hr [Hids Hfresh Hpeer Hslots Hrefs].
  split; rewrite ?Eh, ?En, ?Ep, ?Eo; try done.
  intros slot p H'. unfold tmember. rewrite Eh.
  destruct (Hr _ _ H') as [Hr'|?]; [exact (Hrefs _ _ Hr')|done].
Qed.

Lemma milds_refl h : milds h h.
Proof. intros p. destruct (h !! p); constructor. apply peer_mild_refl. Qed.

Lemma leads_moves B t c : heap t = heap (table c) -> nodes_ t = nodes_ (table c) ->
  next_ptr t = next_ptr (table c) -> owner_ t = owner_ (table c) ->
  (forall slot p, refers t slot p -> refers (table c) slot p \/ (0 <= slot < kSlots /\ member c p)) ->
  leads B B [] c (c <| table := t |>).
Proof.
  intros Eh En Ep Eo Hr Hg. apply leads_retable; rewrite ?Eh; try done.
  - apply milds_refl.
  - by apply table_ok_moves.
  - apply Hg.
Qed.

Lemma leads_set_migrating B slot o c : 0 <= slot < kSlots -> (forall p, o = Some p -> member c p) ->
  leads B B [] c (set_migrating slot o c).
Proof.
  intros Hslot Ho.
  apply (leads_moves B (table c <| migrating_to_ := partial_alter (fun _ => o) slot (migrating_to_ (table c)) |>));
    try done.
  intros s p Hr. unfold refers in *. cbn in Hr. destruct (decide (slot = s)) as [->|Hs].
  - rewrite lookup_partial_alter_eq in Hr. intuition.
  - rewrite lookup_partial_alter_ne in Hr by done. auto.
Qed.

Lemma leads_set_importing B slot o c : 0 <= slot < kSlots -> (forall p, o = Some p -> member c p) ->
  leads B B [] c (set_importing slot o c).
Proof.
  intros Hslot Ho.
  apply (leads_moves B (table c <| importing_from_ := partial_alter (fun _ => o) slot (importing_from_ (table c)) |>));
    try done.
  intros s p Hr. unfold refers in *. cbn in Hr. destruct (decide (slot = s)) as [->|Hs].
  - rewrite lookup_partial_alter_eq in Hr. intuition.
  - rewrite lookup_partial_alter_ne in Hr by done. auto.
Qed.

(** ** New nodes *)

Definition enrol_in (n : Peer) (t : Table) : Table :=
  t <| heap := <[next_ptr t := n]> (heap t) |> <| next_ptr := next_ptr t + 1 |>
    <| nodes_ := <[n_id n := next_ptr t]> (nodes_ t) |>.

Lemma create_node_fresh id flags (c : cluster) f : nodes_ (table c) !! id = None ->
  (forall n, n_id (f n) = n_id n) ->
  create_node id flags c = (next_ptr (table c), (create_node id flags c).2) /\
  on_peer (next_ptr (table c)) f (create_node id flags c).2 =
    on_table (enrol_in (f (new_peer <| n_id := id |> <| n_flags := flags |> <| n_ctime := now c |>))) c.
Proof.
  intros E Hf. split; [done|]. unfold create_node, on_peer, on_table, enrol_in. rewrite E. cbn.
  f_equal. rewrite alter_insert_eq, Hf. reflexivity.
Qed.

Lemma fresh_unknown t me : table_ok t me -> heap t !! next_ptr t = None.
Proof. intros Hok. destruct (heap t !! next_ptr t) eqn:E; [|done]. pose proof (tb_fresh _ _ Hok _ _ E). lia. Qed.

Lemma enrol_tmember n t me p : table_ok t me -> tmember t p -> tmember (enrol_in n t) p.
Proof.
  intros Hok (n0 & E & Hh). exists n0. split; [|done]. cbn. rewrite lookup_insert_ne; [done|].
  intros <-. by rewrite (fresh_unknown _ _ Hok) in E.
Qed.

Lemma table_ok_enrol n t me me' : peer_ok n -> is_ kMyself n = bool_decide (me' = Some (next_ptr t)) ->
  (me' = me \/ (me = None /\ me' = Some (next_ptr t))) ->
  n_slots n = 0 -> nodes_ t !! n_id n = None -> table_ok t me -> table_ok (enrol_in n t) me'.
Proof.
  intros Hn Hme Hme' Hs Hid Hok. pose proof (fresh_unknown _ _ Hok) as Hf.
  pose proof (fun p => enrol_tmember n t me p Hok) as Hmem.
  destruct Hok as [Hids Hfresh Hpeer Hslots Hrefs].
  assert (Hinv : forall p m, heap (enrol_in n t) !! p = Some m ->
            (p = next_ptr t /\ m = n) \/ (p < next_ptr t /\ heap t !! p = Some m)).
  { intros p m E. cbn in E. apply lookup_insert_Some in E as [[<- <-]|[_ E]]; eauto. }
  split.
  - intros id p. cbn. rewrite lookup_insert_Some, Hids. split.
    + intros [[<- <-]|[Hi (m & E & Em)]]; [exists n; by rewrite lookup_insert_eq|].
      exists m. rewrite lookup_insert_ne; [done|]. intros <-. congruence.
    + intros (m & E & Em). apply lookup_insert_Some in E as [[<- <-]|[Hp E]]; [auto|].
      right. split; [|eauto]. intros Ei. rewrite Ei in Hid.
      assert (nodes_ t !! id = Some p) by (apply Hids; eauto). congruence.
  - intros p m E. cbn. destruct (Hinv _ _ E) as [[-> _]|[? _]]; lia.
  - intros p m E. destruct (Hinv _ _ E) as [[-> ->]|[Hp E']]; [by rewrite Hs|].
    destruct (Hpeer _ _ E') as (? & Hm & ?). split; [done|]. split; [|done]. rewrite Hm.
    destruct Hme' as [->|[-> ->]]; [done|]. rewrite !bool_decide_eq_false_2; [done| |done].
    intros [= Ep]. lia.
  - intros p m s E Hs'. cbn. destruct (Hinv _ _ E) as [[-> ->]|[Hp E']]; [|eauto].
    rewrite Hs, Z.bits_0. symmetry. apply bool_decide_eq_false_2. intros Eo.
    destruct (Hrefs s (next_ptr t)) as [_ (m & Em & _)]; [by left|congruence].
  - intros slot p Hr. destruct (Hrefs slot p Hr) as [? Hp]. split; [done|by apply Hmem].
Qed.

Lemma links_ok_enrol n t me ls next : table_ok t me -> n_link n = None ->
  links_ok (heap t) ls next -> links_ok (heap (enrol_in n t)) ls next.
Proof.
  intros Hok Hn []. pose proof (fresh_unknown _ _ Hok) as Hf. split; try done; cbn.
  - intros l k p E Ek. destruct (lk_node0 _ _ _ E Ek) as (m & Em & Hm). exists m.
    rewrite lookup_insert_ne; [done|]. intros <-. congruence.
  - intros p m l E Em. apply lookup_insert_Some in E as [[_ <-]|[_ E]]; [congruence|eauto].
Qed.

Lemma enrol_grows n (c : cluster) me : table_ok (table c) me -> grows [] c (on_table (enrol_in n) c).
Proof.
  intros Hok. split; try done. intros p m _ E. exists m. cbn. rewrite lookup_insert_ne; [done|].
  intros <-. by rewrite (fresh_unknown _ _ Hok) in E.
Qed.

(** A node with a drawn id. *)
Definition draw (c : cluster) : cluster := (random_id c).2.

Lemma draw_ids B rng d t : B <= M.uint64_max -> ids_ok B rng (d * M.kNodeIdLength)%nat t ->
  in_time d /\ nodes_ t !! nth_id rng d = None.
Proof.
  intros HB [_ (d' & E & Hle & Hd) _]. assert (d' = d) as -> by (unfold M.kNodeIdLength in *; lia).
  assert (in_time d) by (unfold in_time; lia). split; [done|by apply Hd].
Qed.

Lemma ids_ok_enrol B rng d t n : n_id n = nth_id rng d -> B <= M.uint64_max ->
  ids_ok B rng (d * M.kNodeIdLength)%nat t ->
  ids_ok (B + 1) rng (d * M.kNodeIdLength + M.kNodeIdLength)%nat (enrol_in n t).
Proof.
  intros En HB Hok. destruct (draw_ids _ _ _ _ HB Hok) as [Ht _]. destruct Hok as [Hdis (d' & E & Hle & Hd) Hdr].
  assert (d' = d) as -> by (unfold M.kNodeIdLength in *; lia). split; [done|..].
  - exists (S d). split_and!; [lia|lia|]. intros j Hj Hjt. cbn. rewrite lookup_insert_ne; [apply Hd; [lia|done]|].
    rewrite En. intros Ej. apply Hdis in Ej; [lia|done..].
  - intros p m Em Hm. cbn in Em. apply lookup_insert_Some in Em as [[_ <-]|[_ Em]]; [by exists d|eauto].
Qed.

Lemma leads_enrol B n c :
  (forall d, w_drawn (world c) = (d * M.kNodeIdLength)%nat -> n_id n = nth_id (w_rng (world c)) d) ->
  peer_ok n -> is_ kMyself n = false -> n_slots n = 0 -> n_link n = None -> n_config_epoch n = 0 ->
  B + 1 <= M.uint64_max -> leads B (B + 1) [] c (on_table (enrol_in n) (draw c)).
Proof.
  intros Hid Hok Hme Hs Hl He HB Hg. pose proof (gd_table _ _ Hg) as Ht.
  assert (G : grows [] c (on_table (enrol_in n) (draw c))).
  { destruct (enrol_grows n c _ Ht). by split. }
  split; [|done]. destruct (id_new _ _ _ _ (gd_ids _ _ Hg)) as (d & Ed & _).
  pose proof (gd_ids _ _ Hg) as Hids. rewrite Ed in Hids.
  destruct (draw_ids B _ _ _ ltac:(lia) Hids) as [_ Hnew]. rewrite <-(Hid d Ed) in Hnew.
  destruct (gd_me _ _ Hg) as (m & Em & Hm).
  assert (Hne : myself_ c <> next_ptr (table c)) by (intros E; rewrite E, (fresh_unknown _ _ Ht) in Em; done).
  destruct Hg. split; try done.
  - apply (table_ok_enrol n (table c) (Some (myself_ c))); auto.
    rewrite Hme. symmetry. apply bool_decide_eq_false_2. by intros [= ?].
  - by apply (enrol_tmember n (table c) (Some (myself_ c))).
  - by apply (links_ok_enrol n (table c) (Some (myself_ c))).
  - cbn. rewrite Ed. apply ids_ok_enrol; [by apply Hid|lia|done].
  - intros p Hp. apply (grows_live _ _ _ _ G); [apply not_elem_of_nil|auto].
  - destruct gd_low0, gd_votes0. split; [done|cbn; lia|]. cbn. intros p m' E.
    apply lookup_insert_Some in E as [[_ <-]|[_ E]]; [rewrite He; lia|eauto].
  - by destruct gd_votes0.
  - by apply (disk_ok_grows c).
Qed.

(** ** Tame changes *)

Lemma peer_mild_trans n1 n2 n3 : mild n1 n2 -> mild n2 n3 -> mild n1 n3.
Proof. intros [] []. split; [congruence|congruence|congruence|auto|lia]. Qed.

Lemma tame_trans n1 n2 n3 : tame n1 n2 -> tame n2 n3 -> tame n1 n3.
Proof. intros [] []. split; [by eapply peer_mild_trans|congruence]. Qed.

Lemma is_set_disjoint f g n : Z.land g f = 0 -> is_ f (set_flags g n) = is_ f n.
Proof. intros E. unfold is_, set_flags. cbn. by rewrite Z.land_lor_distr_l, E, Z.lor_0_r. Qed.

Lemma is_clear_disjoint f g n : Z.land g f = 0 -> is_ f (clear_flags g n) = is_ f n.
Proof.
  intros E. unfold is_, clear_flags. cbn. do 2 f_equal. apply Z.bits_inj'. intros i Hi.
  rewrite !Z.land_spec, Z.ldiff_spec.
  assert (Hb : Z.testbit (Z.land g f) i = false) by (by rewrite E, Z.bits_0). rewrite Z.land_spec in Hb.
  destruct (Z.testbit g i), (Z.testbit f i), (Z.testbit (n_flags n) i); done.
Qed.

Lemma small_bits a : 0 <= a -> (forall i, 8 <= i -> Z.testbit a i = false) -> a < 256.
Proof.
  intros Ha Hb. destruct (decide (a = 0)) as [->|Hz]; [lia|]. change 256 with (2 ^ 8).
  apply Z.log2_lt_pow2; [lia|]. destruct (Z.lt_ge_cases (Z.log2 a) 8) as [|Hl]; [done|].
  specialize (Hb _ Hl). rewrite Z.bit_log2 in Hb; [done|lia].
Qed.

Lemma small_high a i : 0 <= a < 256 -> 8 <= i -> Z.testbit a i = false.
Proof.
  intros Ha Hi. destruct (decide (a = 0)) as [->|Hz]; [apply Z.bits_0|]. apply Z.bits_above_log2; [lia|].
  assert (Z.log2 a < 8); [|lia]. apply Z.log2_lt_pow2; [lia|]. change (2 ^ 8) with 256. lia.
Qed.

Lemma lor_small a b : 0 <= a < 256 -> 0 <= b < 256 -> 0 <= Z.lor a b < 256.
Proof.
  intros Ha Hb. assert (0 <= Z.lor a b) by (apply Z.lor_nonneg; lia). split; [done|].
  apply small_bits; [done|]. intros i Hi. by rewrite Z.lor_spec, !small_high.
Qed.

Lemma ldiff_small a b : 0 <= a < 256 -> 0 <= Z.ldiff a b < 256.
Proof.
  intros Ha. assert (0 <= Z.ldiff a b) by (apply Z.ldiff_nonneg; lia). split; [done|].
  apply small_bits; [done|]. intros i Hi. by rewrite Z.ldiff_spec, small_high.
Qed.

(** Flags other than [kHandshake] and [kMyself]. *)
Definition common (g : Z) : Prop := Z.land g kHandshake = 0 /\ Z.land g kMyself = 0 /\ 0 <= g < 256.

Lemma tame_set g n : common g -> tame n (set_flags g n).
Proof.
  intros (Hh & Hm & Hg). split; [|done]. split; try done.
  - by apply is_set_disjoint.
  - by apply is_set_disjoint.
  - intros []. split; try done. by apply lor_small.
Qed.

Lemma tame_clear g n : common g -> tame n (clear_flags g n).
Proof.
  intros (Hh & Hm & Hg). split; [|done]. split; try done.
  - by apply is_clear_disjoint.
  - by apply is_clear_disjoint.
  - intros []. split; try done. by apply ldiff_small.
Qed.

Lemma tame_master id n : plain id -> id <> &"-" -> tame n (n <| n_master_id := id |>).
Proof. intros Hp Hd. split; [|done]. split; try done. intros []. by split. Qed.

Lemma tame_ip ip n : clean_ip ip -> tame n (n <| n_ip := ip |>).
Proof. intros Hp. split; [|done]. split; try done. intros []. by split. Qed.

Lemma tame_port q n : 0 <= q <= M.uint16_max -> tame n (n <| n_port := q |>).
Proof. intros Hp. split; [|done]. split; try done. intros []. by split. Qed.

Lemma tame_cport q n : 0 <= q <= M.uint16_max -> tame n (n <| n_cport := q |>).
Proof. intros Hp. split; [|done]. split; try done. intros []. by split. Qed.

Lemma tame_epoch e n : n_config_epoch n <= e -> tame n (n <| n_config_epoch := e |>).
Proof. intros Hp. split; [|done]. split; try done. intros []. split; try done. cbn. lia. Qed.

(** An update that leaves the link and the config epoch alone. *)
Lemma leads_tame B p f (c : cluster) : (forall n, tame n (f n)) -> (forall n, n_link (f n) = n_link n) ->
  (forall n, n_config_epoch (f n) = n_config_epoch n) -> leads B B [] c (on_peer p f c).
Proof. intros Ht Hl He. apply leads_on_peer. intros n _. split; [done|]. split; [done|]. by rewrite He. Qed.

Lemma leads_epoch B p e (c : cluster) : n_config_epoch (peer c p) <= e <= current_epoch_ c ->
  leads B B [] c (on_peer p (fun n => n <| n_config_epoch := e |>) c).
Proof.
  intros He. apply leads_on_peer. intros n E. rewrite (peer_lookup _ _ _ E) in He.
  split; [apply tame_epoch; lia|]. split; [done|]. cbn. lia.
Qed.

(** ** Addresses *)

Lemma inet_pton_chars s : forall octets value saw, inet_pton_loop s octets value saw = true ->
  Forall (fun ch => is_digit ch = true \/ bz ch = 46) s.
Proof.
  induction s as [|ch s IH]; intros octets value saw Hl; [constructor|]. cbn in Hl.
  destruct (is_digit ch) eqn:Ed.
  - constructor; [by left|]. repeat case_match; try done; eauto.
  - destruct (Z.eqb_spec (bz ch) 46); [|done]. constructor; [by right|]. repeat case_match; try done; eauto.
Qed.

Lemma c_str_no_nul s : x00 ∉ s -> c_str s = s.
Proof.
  intros Hs. unfold c_str, find_byte. rewrite drop_0.
  destruct (find_byte_front x00 s) as [k|] eqn:E; [|done].
  apply find_byte_front_spec in E as (pre & post & -> & _). set_solver.
Qed.

Lemma clean_no_nul ip : clean_ip ip -> x00 ∉ ip.
Proof. intros Hc Hin. apply (proj1 (list.Forall_forall _ _) Hc) in Hin. by destruct Hin as (_ & _ & _ & ?). Qed.

Lemma valid_ipv4_clean ip : x00 ∉ ip -> valid_ipv4 ip = true -> clean_ip ip.
Proof.
  intros Hn Hv. unfold valid_ipv4 in Hv. rewrite c_str_no_nul in Hv by done.
  apply inet_pton_chars in Hv. eapply list.Forall_impl; [exact Hv|]. cbn. intros ch Hch.
  split_and!; intros ->; by destruct Hch.
Qed.

End inv.

(** [open d] unfolds the definition [d] and keeps its [let]s; [bind] splits off the first [let] of a
    handler: first what it does, then the rest, from a state known by its
    invariant and its relation to the one before ([at]: and with another bound). *)
Ltac open d := cbv beta delta [d].
Ltac bind_let c1 B2 :=
  lazymatch goal with
  | |- leads ?B ?B' ?e ?c (let x := ?v in @?f x) =>
      apply (leads_seq B B2 B' e c v (f v));
        [|let Hg := fresh "Hg" in let G := fresh "G" in
          intros Hg G; revert Hg G; generalize v; intros c1 Hg G; cbv beta]
  end.
Tactic Notation "bind" ident(c1) "at" constr(B2) := bind_let c1 B2.
Tactic Notation "bind" ident(c1) := lazymatch goal with |- leads ?B _ _ _ _ => bind_let c1 B end.
End ClusterInv.
