(* ===== verification/ClusterOps.v ===== *)
(** * The operations of a node of the cluster keep the invariant

    For every handler of [Cluster.v], a lemma of the form
    [leads B B' exc c (handler c)] (see [ClusterInv.v]).  Most keep the bound on
    the epochs; the operations that take a new epoch raise it by one.  At the
    end, the handling of a whole read of a link, which may hold many messages. *)

From Stdlib Require Import Lia.
From stdpp Require Import relations.
From S2P Require Import Prelude Resp Slots ClusterMsg Replication Cluster ClusterInv.

Module ClusterOps.
Import Cluster ClusterInv.

(** 16384 slots are not to be enumerated by conversion. *)
Lemma all_slots_range slot : slot ∈ all_slots <-> 0 <= slot < kSlots.
Proof. unfold all_slots. rewrite elem_of_seqZ. lia. Qed.

#[local] Opaque all_slots.

Section ops.
Context {DS : Type} `{SlotStore DS}.
Abbreviation cluster := (Cluster DS).

Implicit Types c : cluster.

(** ** Handshakes *)

Lemma nth_hex i : (i < 16)%nat -> M.is_id_char (nth i kHex "0"%byte) = true.
Proof. intros Hi. do 16 (destruct i as [|i]; [reflexivity|]). lia. Qed.

Lemma drawn_id_valid rng k : M.valid_node_id (drawn_id rng k) = true.
Proof.
  unfold M.valid_node_id, drawn_id. rewrite length_map, length_seq. cbn [Nat.eqb M.kNodeIdLength andb].
  apply forallb_forall. intros b (i & <- & _)%in_map_iff. apply nth_hex.
  pose proof (Z.mod_pos_bound (rng i) 16). lia.
Qed.

Lemma good_mono B B' c : B <= B' <= M.uint64_max -> good B c -> good B' c.
Proof.
  intros HB []. split; try done.
  - destruct gd_ids0 as [? (d & ? & ? & ?) ?]. split; try done. exists d. split_and!; [done|lia|done].
  - destruct gd_low0. split; [lia..|done].
Qed.

Lemma leads_mono B B' c : B <= B' <= M.uint64_max -> leads B B' [] c c.
Proof. intros HB Hg. split; [by apply (good_mono B)|apply grows_refl]. Qed.

Lemma leads_start_handshake B ip p cp c : x00 ∉ ip -> 0 <= p <= M.uint16_max -> 0 <= cp <= M.uint16_max ->
  B + 1 <= M.uint64_max -> leads B (B + 1) [] c (start_handshake ip p cp c).2.
Proof.
  intros Hip Hp Hcp HB. assert (R : leads B (B + 1) [] c c) by (apply leads_mono; lia). unfold start_handshake.
  destruct (negb (valid_ipv4 ip) || (p =? 0) || (cp =? 0)) eqn:Ev; [done|].
  destruct (existsb _ _); [done|].
  apply orb_false_iff in Ev as [[Ev _]%orb_false_iff _]. apply negb_false_iff in Ev.
  intros Hg. destruct (id_new _ _ _ _ (gd_ids _ _ Hg)) as (d & Ed & Hdb & Hd).
  set (f := fun n => n <| n_ip := ip |> <| n_port := p |> <| n_cport := cp |>).
  change (random_id c) with (drawn_id (w_rng (world c)) (w_drawn (world c)), draw c). cbn beta iota zeta.
  set (id := drawn_id (w_rng (world c)) (w_drawn (world c))).
  assert (Hid : id = nth_id (w_rng (world c)) d) by (unfold id, nth_id; by rewrite Ed).
  destruct (create_node_fresh id (Z.lor kHandshake kMeet) (draw c) f) as [E1 E2];
    [rewrite Hid; apply Hd; [done|unfold in_time; lia]|done|].
  rewrite E1. cbn beta iota zeta. change (on_peer _ _ _) with
    (on_peer (next_ptr (table (draw c))) f (create_node id (Z.lor kHandshake kMeet) (draw c)).2).
  cbn [snd]. rewrite E2. apply leads_enrol; try done.
  - intros d' Ed'. transitivity id; [done|]. rewrite Hid. f_equal. unfold M.kNodeIdLength in *. lia.
  - split; cbn; try done; [apply drawn_id_valid|by apply valid_ipv4_clean|].
    split; [constructor|done].
Qed.

(** ** Removing a node *)

Definition expel_in (p : Z) (id : bytes) (t : Table) : Table :=
  t <| nodes_ := delete id (nodes_ t) |> <| heap := delete p (heap t) |>.

(** Nothing refers to [p] any more. *)
Record detached (p : Z) (id : bytes) (c : cluster) : Prop := {
  dt_refs : forall slot, ~ refers (table c) slot p;
  dt_node : forall n, heap (table c) !! p = Some n -> n_link n = None /\ n_id n = id;
  dt_none : heap (table c) !! p = None -> nodes_ (table c) !! id = None;
  dt_manual : mf_replica_ (manual c) <> Some p;
}.

Lemma table_ok_expel p id t me : (forall slot, ~ refers t slot p) ->
  (forall n, heap t !! p = Some n -> n_id n = id) -> (heap t !! p = None -> nodes_ t !! id = None) ->
  table_ok t me -> table_ok (expel_in p id t) me.
Proof.
  intros Hr Hn Hnone [Hids Hfresh Hpeer Hslots Hrefs].
  assert (Hinv : forall q n, delete p (heap t) !! q = Some n -> q <> p /\ heap t !! q = Some n).
  { intros q n [? ?]%lookup_delete_Some. done. }
  split; cbn.
  - intros i q. rewrite lookup_delete_Some, Hids. split.
    + intros [Hi (n & E & En)]. exists n. rewrite lookup_delete_ne; [done|]. intros ->.
      apply Hi. by rewrite <-(Hn n E).
    + intros (n & [Hq E]%Hinv & En). split; [|eauto]. intros Ei. subst i.
      assert (Eq : nodes_ t !! id = Some q) by (apply Hids; exists n; by rewrite Ei).
      destruct (heap t !! p) as [m|] eqn:Em; [|by rewrite Hnone in Eq].
      assert (Ep : nodes_ t !! id = Some p) by (apply Hids; exists m; split; [done|by apply Hn]). congruence.
  - intros q n [_ E]%Hinv. eauto.
  - intros q n [_ E]%Hinv. eauto.
  - intros q n s [_ E]%Hinv. eauto.
  - intros slot q Hq. destruct (Hrefs slot q Hq) as [? (n & E & Hh)]. split; [done|].
    exists n. split; [|done]. cbn. rewrite lookup_delete_ne; [done|]. intros ->. by apply (Hr slot).
Qed.

Lemma links_ok_expel p h ls next : (forall n, h !! p = Some n -> n_link n = None) ->
  links_ok h ls next -> links_ok (delete p h) ls next.
Proof.
  intros Hn []. split; try done.
  - intros l k q E Ek. destruct (lk_node0 _ _ _ E Ek) as (n & En & Hl). exists n. split; [|done].
    rewrite lookup_delete_ne; [done|]. intros ->. rewrite (Hn _ En) in Hl. done.
  - intros q n l [_ E]%lookup_delete_Some. eauto.
Qed.

Lemma leads_expel B p id c : p <> myself_ c -> detached p id c ->
  leads B B [p] c (on_table (expel_in p id) c).
Proof.
  intros Hp [Hr Hn Hnone Hmf] Hg.
  assert (Hkeep : forall q n, q <> p -> heap (table c) !! q = Some n -> delete p (heap (table c)) !! q = Some n).
  { intros q n Hq E. by rewrite lookup_delete_ne. }
  assert (G : grows [p] c (on_table (expel_in p id) c)).
  { split; try done. intros q n Hq E. exists n. split; [|done]. apply Hkeep; [set_solver|done]. }
  split; [|done].
  assert (Hme : member (on_table (expel_in p id) c) (myself_ c)).
  { apply (grows_member _ _ _ _ G); [set_solver|apply Hg]. }
  destruct Hg. split; try done.
  - apply table_ok_expel; try done. intros n E. by apply Hn.
  - apply links_ok_expel; [|done]. intros n E. by apply Hn.
  - destruct gd_ids0 as [Hd (d & Ed & Hdb & Hnew) Hdr]. split; [done|..].
    + exists d. split_and!; [done|done|]. intros j Hj Ht. cbn. rewrite lookup_delete_None. right. by apply Hnew.
    + intros q n E. apply (lookup_delete_Some (heap (table c)) p q n) in E as [_ E]. eauto.
  - intros q Hq. apply (grows_live _ _ _ _ G); [|auto]. intros ->%list_elem_of_singleton. done.
  - destruct gd_low0. split; try done. intros q n E.
    apply (lookup_delete_Some (heap (table c)) p q n) in E as [_ E]. eauto.
  - by destruct gd_votes0.
  - apply (disk_ok_mono c); try done. apply (grows_myid _ _ _ G gd_me0). set_solver.
Qed.

(** One round of the first loop of [del_node]. *)
Definition drop_refs (p : Z) (c : cluster) (slot : Z) : cluster :=
  let c := if bool_decide (owner c slot = Some p) then set_slot slot None c else c in
  let c := if bool_decide (migrating_to c slot = Some p) then set_migrating slot None c else c in
  if bool_decide (importing_from c slot = Some p) then set_importing slot None c else c.

Lemma leads_drop_refs B p c slot : 0 <= slot < kSlots -> leads B B [] c (drop_refs p c slot).
Proof.
  intros Hs. open drop_refs.
  bind c1. { apply leads_if; [by apply leads_set_slot|apply leads_refl]. }
  bind c2. { apply leads_if; [by apply leads_set_migrating|apply leads_refl]. }
  apply leads_if; [by apply leads_set_importing|apply leads_refl].
Qed.

Lemma drop_refs_refers p c slot s q :
  refers (table (drop_refs p c slot)) s q -> refers (table c) s q /\ ~ (s = slot /\ q = p).
Proof.
  unfold drop_refs.
  set (c1 := if bool_decide (owner c slot = Some p) then _ else _).
  assert (H1 : migrating_to_ (table c1) = migrating_to_ (table c) /\
               importing_from_ (table c1) = importing_from_ (table c) /\
               forall s q, owner_ (table c1) !! s = Some q -> owner_ (table c) !! s = Some q /\ ~ (s = slot /\ q = p)).
  { unfold c1. case_bool_decide as E.
    - split; [apply set_slot_rest|]. split; [apply set_slot_rest|]. intros s' q'.
      change (owner_ (table (set_slot slot None c))) with (owner_ (set_slot_in slot None (table c))).
      rewrite set_slot_owner. destruct (Z.eqb_spec s' slot); [done|]. intros ->. split; [done|]. intuition.
    - split; [done|]. split; [done|]. intros s' q' E'. split; [done|]. intros [-> ->]. done. }
  clearbody c1. destruct H1 as (Hm & Hi & Ho).
  set (c2 := if bool_decide (migrating_to c1 slot = Some p) then _ else _).
  assert (H2 : owner_ (table c2) = owner_ (table c1) /\ importing_from_ (table c2) = importing_from_ (table c1) /\
               forall s q, migrating_to_ (table c2) !! s = Some q ->
                 migrating_to_ (table c1) !! s = Some q /\ ~ (s = slot /\ q = p)).
  { unfold c2. case_bool_decide as E.
    - split; [done|]. split; [done|]. intros s' q' E'. 
      apply (lookup_delete_Some (migrating_to_ (table c1)) slot s' q') in E' as [? ?]. split; [done|]. intuition.
    - split; [done|]. split; [done|]. intros s' q' E'. split; [done|]. intros [-> ->]. done. }
  clearbody c2. destruct H2 as (Ho2 & Hi2 & Hm2).
  intros Hr. assert (Hr' : owner_ (table c2) !! s = Some q \/ migrating_to_ (table c2) !! s = Some q \/
     (importing_from_ (table c2) !! s = Some q /\ ~ (s = slot /\ q = p))).
  { unfold refers in Hr. case_bool_decide as E.
    - destruct Hr as [?|[?|E']]; [auto|auto|].
      apply (lookup_delete_Some (importing_from_ (table c2)) slot s q) in E' as [? ?]. right; right. split; [done|]. intuition.
    - destruct Hr as [?|[?|E']]; [auto|auto|]. right; right. split; [done|]. intros [-> ->]. done. }
  unfold refers. rewrite Ho2, Hi2, Hi in Hr'.
  destruct Hr' as [E|[E|[E ?]]]; [apply Ho in E; intuition|apply Hm2 in E; rewrite Hm in E; intuition|auto].
Qed.

(** The same nodes under the same ids, and the same slot tables. *)
Record same_table (c c' : cluster) : Prop := {
  st_milds : milds (heap (table c)) (heap (table c'));
  st_nodes : nodes_ (table c') = nodes_ (table c);
  st_refs : forall slot p, refers (table c') slot p -> refers (table c) slot p;
}.

Lemma milds_trans h1 h2 h3 : milds h1 h2 -> milds h2 h3 -> milds h1 h3.
Proof.
  intros H1 H2 p. specialize (H1 p). specialize (H2 p).
  destruct H1 as [n1 n2 T1|]; inversion H2; subst; constructor. by eapply peer_mild_trans.
Qed.

Lemma same_table_refl c : same_table c c.
Proof. split; [apply milds_refl|done|done]. Qed.

Lemma same_table_trans c1 c2 c3 : same_table c1 c2 -> same_table c2 c3 -> same_table c1 c3.
Proof. intros [] []. split; [by eapply milds_trans|congruence|auto]. Qed.

Lemma drop_refs_same p c slot : same_table c (drop_refs p c slot).
Proof.
  split.
  - unfold drop_refs. repeat case_bool_decide; try apply milds_refl; apply set_slot_milds.
  - unfold drop_refs. repeat case_bool_decide; try done; apply set_slot_rest.
  - intros s q Hr. by apply drop_refs_refers in Hr as [? _].
Qed.

Lemma drop_refs_all p c l : same_table c (foldl (drop_refs p) c l) /\
  forall slot, slot ∈ l -> ~ refers (table (foldl (drop_refs p) c l)) slot p.
Proof.
  revert c. induction l as [|s l IH]; intros c; cbn; [split; [apply same_table_refl|set_solver]|].
  destruct (IH (drop_refs p c s)) as [S Hn]. split.
  - eapply same_table_trans; [apply drop_refs_same|done].
  - intros slot [->|Hs]%elem_of_cons Hr; [|by apply (Hn slot)].
    apply (st_refs _ _ S), drop_refs_refers in Hr as [_ Hr]. auto.
Qed.

Lemma free_link_same l c : same_table c (free_link l c).
Proof.
  unfold free_link. destruct (dead _); [apply same_table_refl|].
  destruct (l_node _) as [p|]; [case_bool_decide|]; split; try done; try apply milds_refl.
  apply tames_milds, tames_alter. intros n _. tame_update.
Qed.

Lemma free_link_unlinked B p l c n : good B c -> heap (table c) !! p = Some n -> n_link n = Some l ->
  forall n', heap (table (free_link l c)) !! p = Some n' -> n_link n' = None.
Proof.
  intros Hg E El n'. destruct (lk_back _ _ _ (gd_links _ _ Hg) _ _ _ E El) as (k & Ek & Hk).
  destruct (dead k) eqn:Ed; [by rewrite (lk_dead _ _ _ (gd_links _ _ Hg) _ _ Ek Ed) in Hk|].
  rewrite (free_link_spec B l c k) by done. rewrite Hk. cbn. rewrite lookup_alter_eq, E. by intros [= <-].
Qed.

(** A loop that updates nodes and touches neither ids, slots nor links. *)
Lemma fold_on_peer f l c : (forall n, tame n (f n) /\ n_link (f n) = n_link n) ->
  same_table c (foldl (fun c q => on_peer q f c) c l) /\
  same_links (heap (table c)) (heap (table (foldl (fun c q => on_peer q f c) c l))) /\
  manual (foldl (fun c q => on_peer q f c) c l) = manual c.
Proof.
  intros Hf. revert c. induction l as [|q l IH]; intros c; cbn; [by split; [apply same_table_refl|]|].
  destruct (IH (on_peer q f c)) as (S & L & M). split_and!.
  - eapply same_table_trans; [|exact S]. split; try done. apply tames_milds, tames_alter. intros n _. apply Hf.
  - intros p. rewrite L. cbn. rewrite alter_lookup_if. destruct (heap (table c) !! p) as [n|]; [|done].
    cbn. f_equal. case_bool_decide; [apply Hf|done].
  - done.
Qed.

Lemma reset_manual_inert c : inert c (reset_manual_failover c).
Proof.
  unfold reset_manual_failover. destruct (writes_paused_ (manual c)); [|split; try reflexivity; by right].
  unfold pause_writes. destruct (hosted _); (split; try reflexivity; by right).
Qed.

Lemma reset_manual_none c : mf_replica_ (manual (reset_manual_failover c)) = None.
Proof. reflexivity. Qed.

Lemma invalid_id_unknown t me : table_ok t me -> nodes_ t !! [] = None.
Proof.
  intros Hok. destruct (nodes_ t !! []) as [p|] eqn:E; [|done].
  apply (tb_ids _ _ Hok) in E as (n & En & Eid). destruct (tb_peer _ _ Hok _ _ En) as ([Hid] & _).
  by rewrite Eid in Hid.
Qed.

Lemma del_node_unfold p c : del_node p c =
  let id := n_id (peer c p) in
  let c := foldl (drop_refs p) c all_slots in
  let c := match n_link (peer c p) with Some l => free_link l c | None => c end in
  let c := foldl (fun c q => on_peer q (fun n =>
             n <| n_fail_reports := delete id (n_fail_reports n) |>) c) c (node_ptrs c) in
  let c := if bool_decide (mf_replica_ (manual c) = Some p) then reset_manual_failover c else c in
  todo_update_state (todo_save (on_table (expel_in p id) c)).
Proof. reflexivity. Qed.

Lemma same_links_lookup h h' p n' : same_links h h' -> h' !! p = Some n' ->
  exists n, h !! p = Some n /\ n_link n = n_link n'.
Proof.
  intros L E. specialize (L p). rewrite E in L. destruct (h !! p) as [n|]; [|done].
  exists n. split; [done|]. by injection L.
Qed.

(** The link of a node that is about to go. *)
Lemma leads_hang_up B p c :
  let c' := match n_link (peer c p) with Some l => free_link l c | None => c end in
  leads B B [] c c' /\ same_table c c' /\
  (good B c -> forall n, heap (table c') !! p = Some n -> n_link n = None).
Proof.
  cbv zeta. destruct (n_link (peer c p)) as [l|] eqn:El.
  - split; [apply leads_free_link|]. split; [apply free_link_same|]. intros Hg n E.
    destruct (milds_bwd _ _ _ _ (st_milds _ _ (free_link_same l c)) E) as (n0 & E0 & _).
    rewrite (peer_lookup _ _ _ E0) in El. by eapply free_link_unlinked.
  - split; [apply leads_refl|]. split; [apply same_table_refl|]. intros _ n E.
    by rewrite (peer_lookup _ _ _ E) in El.
Qed.

Lemma detached_intro B p c c1 c2 : good B c2 -> same_table c c1 -> same_table c1 c2 ->
  (forall slot, slot ∈ all_slots -> ~ refers (table c1) slot p) ->
  (forall n, heap (table c2) !! p = Some n -> n_link n = None) ->
  mf_replica_ (manual c2) <> Some p -> detached p (n_id (peer c p)) c2.
Proof.
  intros Hg S1 S2 Hr Hl Hm. pose proof (same_table_trans _ _ _ S1 S2) as S. split; [..|done].
  - intros slot Hr'. apply (Hr slot); [|by apply (st_refs _ _ S2)].
    apply all_slots_range. by apply (tb_refs _ _ (gd_table _ _ Hg)) in Hr' as [? _].
  - intros n E. split; [by apply Hl|].
    destruct (milds_bwd _ _ _ _ (st_milds _ _ S) E) as (n0 & E0 & T).
    by rewrite (peer_lookup _ _ _ E0), (ml_id _ _ T).
  - intros E. destruct (heap (table c) !! p) as [n0|] eqn:E0.
    + destruct (milds_fwd _ _ _ _ (st_milds _ _ S) E0) as (? & ? & _). congruence.
    + unfold peer. rewrite E0. by apply (invalid_id_unknown _ (Some (myself_ c2))), (gd_table _ _ Hg).
Qed.

(** The four steps before the node goes. *)
Lemma leads_del_steps B p c c1 c2 c3 c4 : p <> myself_ c ->
  leads B B [] c c1 -> same_table c c1 -> (forall slot, slot ∈ all_slots -> ~ refers (table c1) slot p) ->
  leads B B [] c1 c2 -> same_table c1 c2 ->
  (good B c1 -> forall n, heap (table c2) !! p = Some n -> n_link n = None) ->
  leads B B [] c2 c3 -> same_table c2 c3 -> same_links (heap (table c2)) (heap (table c3)) ->
  inert c3 c4 -> mf_replica_ (manual c4) <> Some p ->
  leads B B [p] c (todo_update_state (todo_save (on_table (expel_in p (n_id (peer c p))) c4))).
Proof.
  intros Hp L1 S1 R1 L2 S2 U2 L3 S3 K3 I4 M4.
  apply (leads_seq _ B _ _ _ c1); [done|intros Hg1 G1].
  apply (leads_seq _ B _ _ _ c2); [done|intros Hg2 G2].
  apply (leads_seq _ B _ _ _ c3); [done|intros Hg3 G3].
  apply (leads_seq _ B _ _ _ c4); [by apply leads_inert|intros Hg4 G4].
  apply (leads_trans B B B [p] [] _ (on_table (expel_in p (n_id (peer c p))) c4));
    [|apply leads_inert; inert_update].
  assert (T4 : table c4 = table c3) by apply I4.
  apply leads_expel; [rewrite (in_me _ _ I4), (gr_me _ _ _ G3), (gr_me _ _ _ G2), (gr_me _ _ _ G1); done|].
  apply (detached_intro B p c c1); try done.
  - eapply same_table_trans; [exact S2|]. destruct S3. split; by rewrite T4.
  - intros n. rewrite T4. intros E. destruct (same_links_lookup _ _ _ _ K3 E) as (n2 & E2 & <-). by apply U2.
Qed.

Definition forget_reports (id : bytes) (c : cluster) : cluster :=
  foldl (fun c q => on_peer q (fun n => n <| n_fail_reports := delete id (n_fail_reports n) |>) c) c (node_ptrs c).

Lemma forget_reports_spec B id c : leads B B [] c (forget_reports id c) /\
  same_table c (forget_reports id c) /\ same_links (heap (table c)) (heap (table (forget_reports id c))).
Proof.
  set (f := fun n : Peer => n <| n_fail_reports := delete id (n_fail_reports n) |>).
  destruct (fold_on_peer f (node_ptrs c) c) as (S & K & _); [intros n; split; [tame_update|done]|].
  split; [|done]. apply leads_foldl. intros. apply leads_tame; [intros; tame_update|done|done].
Qed.

Lemma leads_del_node B p c : p <> myself_ c -> leads B B [p] c (del_node p c).
Proof.
  intros Hp. rewrite del_node_unfold. cbv zeta.
  destruct (drop_refs_all p c all_slots) as [S1 R1].
  assert (L1 : leads B B [] c (foldl (drop_refs p) c all_slots)).
  { apply leads_foldl_in. intros c' s Hs _ _. apply leads_drop_refs. by apply all_slots_range. }
  revert S1 R1 L1. generalize (foldl (drop_refs p) c all_slots). intros c1 S1 R1 L1.
  destruct (leads_hang_up B p c1) as (L2 & S2 & U2). revert L2 S2 U2.
  generalize (match n_link (peer c1 p) with Some l => free_link l c1 | None => c1 end). intros c2 L2 S2 U2.
  destruct (forget_reports_spec B (n_id (peer c p)) c2) as (L3 & S3 & K3). revert L3 S3 K3.
  unfold forget_reports. generalize (foldl (fun c0 q => on_peer q (fun n => n <| n_fail_reports :=
    delete (n_id (peer c p)) (n_fail_reports n) |>) c0) c2 (node_ptrs c2)). intros c3 L3 S3 K3.
  eapply leads_del_steps; [done|exact L1|exact S1|exact R1|exact L2|exact S2|exact U2|exact L3|exact S3|exact K3|..].
  - case_match; [apply reset_manual_inert|apply inert_refl].
  - case_bool_decide; [by rewrite reset_manual_none|done].
Qed.

(** ** The end of a handshake *)

Definition adopt_in (p : Z) (old : bytes) (n : Peer) (t : Table) : Table :=
  t <| nodes_ := <[n_id n := p]> (delete old (nodes_ t)) |> <| heap := <[p := n]> (heap t) |>.

(** [n'] is [n] under its real id, a member from now on. *)
Record adopted (n n' : Peer) : Prop := {
  ad_slots : n_slots n' = n_slots n;
  ad_link : n_link n' = n_link n;
  ad_epoch : n_config_epoch n' = n_config_epoch n;
  ad_handshake : is_ kHandshake n' = false;
  ad_myself : is_ kMyself n' = is_ kMyself n;
  ad_ok : peer_ok n -> peer_ok n';
}.

Lemma adopt_inv (p : Z) (n' : Peer) (h : gmap Z Peer) q m : <[p := n']> h !! q = Some m -> (q = p /\ m = n') \/ (q <> p /\ h !! q = Some m).
Proof. intros [[-> <-]|[? ?]]%lookup_insert_Some; auto. Qed.

Lemma table_ok_adopt p n n' t me : heap t !! p = Some n -> adopted n n' -> nodes_ t !! n_id n' = None ->
  table_ok t me -> table_ok (adopt_in p (n_id n) n' t) me.
Proof.
  intros E [As _ _ Ah Am Aok] Hid [Hids Hfresh Hpeer Hslots Hrefs].
  assert (Hn : nodes_ t !! n_id n = Some p) by (apply Hids; eauto). split; cbn.
  - intros i q. rewrite lookup_insert_Some, lookup_delete_Some, Hids. split.
    + intros [[<- <-]|(Hi & Ho & m & Em & Ei)]; [exists n'; by rewrite lookup_insert_eq|].
      exists m. rewrite lookup_insert_ne; [done|]. intros <-. congruence.
    + intros (m & [[-> ->]|[Hq Em]]%adopt_inv & Ei); [auto|]. right.
      assert (Hm : nodes_ t !! i = Some q) by (apply Hids; eauto). split_and!; [congruence|congruence|eauto].
  - intros q m [[-> ->]|[_ Em]]%adopt_inv; eauto.
  - intros q m [[-> ->]|[_ Em]]%adopt_inv; [|eauto]. rewrite Am, As.
    destruct (Hpeer _ _ E) as (? & ? & ?). auto.
  - intros q m s [[-> ->]|[_ Em]]%adopt_inv; [|eauto]. rewrite As. eauto.
  - intros slot q Hq. destruct (Hrefs slot q Hq) as [? (m & Em & Hm)]. split; [done|].
    destruct (decide (p = q)) as [<-|Hp].
    + exists n'. cbn. by rewrite lookup_insert_eq.
    + exists m. cbn. by rewrite lookup_insert_ne.
Qed.

Lemma adopt_same_links (p : Z) (n n' : Peer) (h : gmap Z Peer) : h !! p = Some n -> n_link n' = n_link n -> same_links h (<[p := n']> h).
Proof.
  intros E El q. destruct (decide (p = q)) as [<-|Hq]; [|by rewrite lookup_insert_ne].
  rewrite lookup_insert_eq, E. cbn. by rewrite El.
Qed.

Lemma leads_adopt B p n n' c : heap (table c) !! p = Some n -> is_ kHandshake n = true -> adopted n n' ->
  nodes_ (table c) !! n_id n' = None -> (forall j, n_id n' <> nth_id (w_rng (world c)) j) ->
  leads B B [] c (on_table (adopt_in p (n_id n) n') c).
Proof.
  intros E Eh A Hid Hnew Hg.
  assert (G : grows [] c (on_table (adopt_in p (n_id n) n') c)).
  { split; try done. intros q m _ Em. cbn. destruct (decide (p = q)) as [<-|Hq].
    - exists n'. rewrite lookup_insert_eq. split; [done|]. simplify_eq. rewrite (ad_epoch _ _ A).
      split; [done|]. rewrite Eh. done.
    - exists m. by rewrite lookup_insert_ne. }
  split; [|done].
  assert (Hme : member (on_table (adopt_in p (n_id n) n') c) (myself_ c)).
  { apply (grows_member _ _ _ _ G); [apply not_elem_of_nil|apply Hg]. }
  destruct Hg. split; try done.
  - by apply table_ok_adopt.
  - cbn. apply (links_ok_same (heap (table c))); [|done]. eapply adopt_same_links; [done|apply A].
  - destruct gd_ids0 as [Hd (d & Ed & Hdb & Hn) Hdr]. split; [done|..].
    + exists d. split_and!; [done|done|]. intros j Hj Ht. cbn. rewrite lookup_insert_ne by apply Hnew.
      rewrite lookup_delete_None. right. by apply Hn.
    + intros q m [[-> ->]|[_ Em]]%adopt_inv Hm; [|eauto]. by rewrite (ad_handshake _ _ A) in Hm.
  - intros q Hq. apply (grows_live _ _ _ _ G); [apply not_elem_of_nil|auto].
  - destruct gd_low0. split; try done. intros q m [[-> ->]|[_ Em]]%adopt_inv; [|eauto].
    rewrite (ad_epoch _ _ A). eauto.
  - by destruct gd_votes0.
  - by apply (disk_ok_grows c).
Qed.

Lemma alter_known (f : Peer -> Peer) (p : Z) n (h : gmap Z Peer) : h !! p = Some n -> alter f p h = <[p := f n]> h.
Proof.
  intros E. apply map_eq. intros q. rewrite alter_lookup_if. case_bool_decide as Hq.
  - subst q. by rewrite E, lookup_insert_eq.
  - rewrite lookup_insert_ne by done. by destruct (h !! q).
Qed.

Lemma rename_node_spec p id f c n : heap (table c) !! p = Some n -> nodes_ (table c) !! id = None ->
  (forall n, n_id (f n) = n_id n) ->
  on_peer p f (rename_node p id c) = on_table (adopt_in p (n_id n) (f (n <| n_id := id |>))) c.
Proof.
  intros E Hid Hf. unfold rename_node. rewrite (peer_lookup _ _ _ E). unfold on_peer, on_table. cbn.
  assert (Hd : delete (n_id n) (nodes_ (table c)) !! id = None) by (rewrite lookup_delete_None; auto).
  rewrite Hd. cbn. unfold adopt_in. rewrite Hf. cbn. rewrite (alter_known _ _ _ _ E).
  rewrite alter_insert_eq. reflexivity.
Qed.

(** ** New links *)

Lemma links_ok_new h ls next k : l_node k = None -> clean_ip (peer_ip k) ->
  links_ok h ls next -> links_ok h (<[next := k]> ls) (next + 1).
Proof.
  intros Hn Hip []. assert (Hf : ls !! next = None).
  { destruct (ls !! next) eqn:E; [|done]. pose proof (lk_fresh0 _ _ E). lia. }
  split.
  - intros l k' [[<- _]|[_ E]]%lookup_insert_Some; [lia|]. pose proof (lk_fresh0 _ _ E). lia.
  - intros l k' [[_ <-]|[_ E]]%lookup_insert_Some; [done|eauto].
  - intros l k' p [[_ <-]|[_ E]]%lookup_insert_Some; [congruence|eauto].
  - intros p n l E El. destruct (lk_back0 _ _ _ E El) as (k' & Ek & Hk). exists k'.
    rewrite lookup_insert_ne; [done|]. intros <-. congruence.
  - intros l k' [[_ <-]|[_ E]]%lookup_insert_Some; [done|eauto].
Qed.

Lemma leads_accept_link B ip w c : clean_ip ip -> leads B B [] c (accept_link ip w c).
Proof.
  intros Hip Hg. unfold accept_link. destruct (negb w); [by apply leads_refl|].
  set (k := new_link <| peer_ip := ip |> <| l_ctime := now c |>). split.
  - destruct Hg. split; try done; [by apply links_ok_new|by destruct gd_low0|by destruct gd_votes0].
  - split; try done; [intros p n _ E; by exists n|]. intros l. unfold link_of. cbn.
    destruct (decide (next_link c = l)) as [<-|Hl]; [|by rewrite lookup_insert_ne].
    rewrite lookup_insert_eq. destruct (links c !! next_link c) eqn:E; [|done].
    pose proof (lk_fresh _ _ _ (gd_links _ _ Hg) _ _ E). lia.
Qed.

Lemma links_ok_connect h ls next p n t : h !! p = Some n -> n_link n = None ->
  links_ok h ls next ->
  links_ok (alter (fun n => n <| n_link := Some next |>) p h)
    (<[next := new_link <| l_node := Some p |> <| connecting := true |> <| write_interest := true |>
                        <| l_ctime := t |>]> ls) (next + 1).
Proof.
  intros Ep En []. assert (Hf : ls !! next = None).
  { destruct (ls !! next) eqn:E; [|done]. pose proof (lk_fresh0 _ _ E). lia. }
  split.
  - intros l k' [[<- _]|[_ E]]%lookup_insert_Some; [lia|]. pose proof (lk_fresh0 _ _ E). lia.
  - intros l k' [[_ <-]|[_ E]]%lookup_insert_Some; [done|eauto].
  - intros l k' q [[<- <-]|[_ E]]%lookup_insert_Some Hk.
    + injection Hk as <-. rewrite lookup_alter_eq, Ep. by eexists.
    + destruct (lk_node0 _ _ _ E Hk) as (m & Em & Hm). exists m.
      rewrite lookup_alter_ne; [done|]. intros <-. congruence.
  - intros q m l E El. rewrite alter_lookup_if in E. destruct (h !! q) as [m0|] eqn:Eq; [|done].
    cbn in E. injection E as <-. case_bool_decide as Hq.
    + subst q. injection El as <-. rewrite lookup_insert_eq. by eexists.
    + destruct (lk_back0 _ _ _ Eq El) as (k' & Ek & Hk). exists k'.
      rewrite lookup_insert_ne; [done|]. intros <-. congruence.
  - intros l k' [[_ <-]|[_ E]]%lookup_insert_Some; [constructor|eauto].
Qed.

(** The link of [connect_link], once the socket is there. *)
Definition attach (p : Z) (c : cluster) : cluster :=
  on_peer p (fun n => n <| n_link := Some (next_link c) |>)
    (c <| links := <[next_link c := new_link <| l_node := Some p |> <| connecting := true |>
                       <| write_interest := true |> <| l_ctime := now c |>]> (links c) |>
       <| next_link := next_link c + 1 |>).

Lemma leads_attach B p c : live c p -> n_link (peer c p) = None -> leads B B [] c (attach p c).
Proof.
  intros [n Ep] En Hg. rewrite (peer_lookup _ _ _ Ep) in En.
  assert (Ht : tames (heap (table c)) (heap (table (attach p c)))).
  { apply tames_alter. intros m _. tame_update. }
  assert (G : grows [] c (attach p c)).
  { destruct (retable_grows (table (attach p c)) c (tames_milds _ _ Ht)). split; try done.
    intros l. unfold link_of. cbn.
    destruct (decide (next_link c = l)) as [<-|Hl]; [|by rewrite lookup_insert_ne].
    rewrite lookup_insert_eq. destruct (links c !! next_link c) eqn:E; [|done].
    pose proof (lk_fresh _ _ _ (gd_links _ _ Hg) _ _ E). lia. }
  split; [|done]. destruct Hg. split; try done.
  - by apply (table_ok_tames (table c)).
  - exact (milds_tmember (table c) (table (attach p c)) _ (tames_milds _ _ Ht) gd_me0).
  - by apply (links_ok_connect _ _ _ _ n).
  - exact (ids_ok_milds _ _ _ (table c) (table (attach p c)) (tames_milds _ _ Ht) eq_refl gd_ids0).
  - intros q Hq. apply (grows_live _ _ _ _ G); [apply not_elem_of_nil|auto].
  - destruct gd_low0. split; try done. intros q m E. cbn in E. rewrite alter_lookup_if in E.
    destruct (heap (table c) !! q) as [m0|] eqn:Eq; [|done]. injection E as <-.
    case_bool_decide; apply (lw_config0 _ _ Eq).
  - by destruct gd_votes0.
  - by apply (disk_ok_grows c).
Qed.

Lemma leads_connect_link B p c : live c p -> n_link (peer c p) = None -> leads B B [] c (connect_link p c).
Proof.
  intros Hp Hn. unfold connect_link. destruct (negb (valid_ipv4 _)); [apply leads_refl|].
  set (c1 := if (n_ping_sent (peer c p) =? 0) && _ then _ else c).
  assert (Hn1 : n_link (peer c1 p) = None).
  { unfold c1. case_match; [|done]. destruct Hp as [n E]. rewrite (peer_lookup _ _ _ E) in Hn.
    unfold peer. cbn. by rewrite lookup_alter_eq, E. }
  apply (leads_seq _ B _ _ _ c1);
    [unfold c1; apply leads_if; [apply leads_ping_sent|apply leads_refl]|intros _ G1].
  destruct (negb (w_connect _ _)); [apply leads_refl|]. apply (leads_attach B p c1); [|done].
  apply (grows_live _ _ _ _ G1); [apply not_elem_of_nil|done].
Qed.

(** ** Epochs and votes *)

Lemma covers_raise cur cur' last es : cur <= cur' -> covers cur last es -> (cur < cur' \/ cur' = cur) -> covers cur' last es.
Proof.
  intros Hle Hc [Hlt| ->]; [|done]. eapply list.Forall_impl; [exact Hc|]. cbn. intros; lia.
Qed.


Lemma leads_current B e c : current_epoch_ c <= e <= B -> leads B B [] c (c <| current_epoch_ := e |>).
Proof.
  intros He Hg. split; [|split; try done; [cbn; lia|intros p n _ E; by exists n]].
  destruct Hg. split; try done.
  - cbn. lia.
  - destruct gd_low0. split; [done|cbn; lia|]. cbn. intros p n E. specialize (lw_config0 _ _ E). lia.
  - destruct gd_votes0. split; try done; cbn; [|lia].
    apply (covers_raise (current_epoch_ c)); [lia|done|lia].
  - apply (disk_ok_mono c); try done. cbn. lia.
Qed.

Lemma leads_last B v c : last_vote_epoch_ c <> current_epoch_ c -> 0 <= v <= M.uint64_max ->
  leads B B [] c (c <| last_vote_epoch_ := v |>).
Proof.
  intros Hl Hv Hg. split; [|split; try done; intros p n _ E; by exists n].
  destruct Hg. split; try done; [by destruct gd_low0|].
  destruct gd_votes0. split; try done. cbn. eapply list.Forall_impl; [exact vt_covered0|].
  cbn. intros e [?|[? ?]]; [by left|congruence].
Qed.

Lemma good_sound B c : good B c -> sound c.
Proof.
  intros []. split; try done. destruct gd_low0. split; [done|lia|done].
Qed.

(** A save writes what the node is: the file covers its votes. *)
Lemma leads_save B c : leads B B [] c (save_config c).2.
Proof.
  intros Hg. unfold save_config. set (s := match w_saves (world c) with [] => _ | _ :: _ => _ end).
  assert (Hi : inert c s.2) by (unfold s; destruct (w_saves (world c)); [apply inert_refl|inert_update]).
  destruct s as [o c1]. cbn in Hi.
  pose proof (inert_good B _ _ Hi Hg) as Hg1. pose proof (inert_grows _ _ Hi) as G1.
  assert (Hw : forall u, u = [] \/ u = disk c1 :: unsynced c1 ->
            good B (c1 <| disk := Some (describe_nodes true c) |> <| unsynced := u |>) /\
            grows [] c (c1 <| disk := Some (describe_nodes true c) |> <| unsynced := u |>)).
  { intros u Hu. split; [|destruct G1; by split]. destruct Hg1.
    split; try done; [by destruct gd_low0|by destruct gd_votes0|]. constructor.
    - exists c. split; [done|]. split; [by eapply good_sound|].
      destruct (gd_votes _ _ Hg). unfold acks, myself, peer. cbn.
      rewrite (in_posted _ _ Hi), (in_table _ _ Hi), (in_me _ _ Hi), (in_current _ _ Hi).
      by split_and!.
    - destruct Hu as [->| ->]; [constructor|exact gd_disk0]. }
  destruct o; [apply Hw; by left|done|apply Hw; by right].
Qed.

(** ** What changes nothing of the invariant *)

Lemma leads_then B B' e c c1 c2 : leads B B' e c c1 -> inert c1 c2 -> leads B B' e c c2.
Proof.
  intros L I Hg. destruct (L Hg) as [Hg1 G1]. split; [by apply (inert_good B' c1)|].
  rewrite <-(app_nil_r e). eapply grows_trans; [done|by apply inert_grows].
Qed.

Lemma inert_todo_save c : inert c (todo_save c).
Proof. inert_update. Qed.
Lemma inert_todo_update_state c : inert c (todo_update_state c).
Proof. inert_update. Qed.
Lemma inert_todo_broadcast c : inert c (todo_broadcast c).
Proof. inert_update. Qed.
Lemma inert_todo_handle_failover c : inert c (todo_handle_failover c).
Proof. inert_update. Qed.
Lemma inert_on_repl f c : inert c (on_repl f c).
Proof. inert_update. Qed.
Lemma inert_on_auth f c : (forall a, failover_auth_epoch_ (f a) = failover_auth_epoch_ a) -> inert c (on_auth f c).
Proof. intros Hf. split; try reflexivity; [apply Hf|by left]. Qed.
Lemma inert_cant_failover r c : inert c (cant_failover r c).
Proof. inert_update. Qed.

Lemma inert_if c (b : bool) c1 c2 : inert c c1 -> inert c c2 -> inert c (if b then c1 else c2).
Proof. by destruct b. Qed.

Lemma inert_follow_master c : inert c (follow_master c).
Proof.
  unfold follow_master. repeat case_match; try apply inert_refl; apply inert_on_repl.
Qed.

Lemma inert_update_state c : inert c (update_state c).
Proof. unfold update_state. cbv zeta. repeat case_match; inert_update. Qed.

Lemma inert_after_stall c : inert c (after_stall c).
Proof. inert_update. Qed.

Lemma inert_pause_writes b c : inert c (pause_writes b c).
Proof. unfold pause_writes. destruct (hosted _); inert_update. Qed.

(** ** Roles *)

Lemma valid_id_plain id : M.valid_node_id id = true -> plain id /\ id <> &"-".
Proof.
  unfold M.valid_node_id. intros [Hl Hc]%andb_true_iff. split.
  - apply list.Forall_forall. intros b Hb. apply list_elem_of_In in Hb.
    pose proof (proj1 (forallb_forall _ _) Hc b Hb) as Hi. split; intros ->; done.
  - by intros ->.
Qed.

Lemma peer_id_plain B c p : good B c -> plain (n_id (peer c p)) /\ n_id (peer c p) <> &"-".
Proof.
  intros Hg. destruct (heap (table c) !! p) as [n|] eqn:E.
  - rewrite (peer_lookup _ _ _ E). apply valid_id_plain.
    destruct (tb_peer _ _ (gd_table _ _ Hg) _ _ E) as ([Hid] & _). done.
  - unfold peer. rewrite E. split; [constructor|done].
Qed.

Lemma good_peer_ok B c p : good B c -> live c p -> peer_ok (peer c p).
Proof. intros Hg [n E]. rewrite (peer_lookup _ _ _ E). by destruct (tb_peer _ _ (gd_table _ _ Hg) _ _ E). Qed.

Lemma common_master : common kMaster. Proof. by vm_compute. Qed.
Lemma common_replica : common kReplica. Proof. by vm_compute. Qed.
Lemma common_pfail : common kPFail. Proof. by vm_compute. Qed.
Lemma common_fail : common kFail. Proof. by vm_compute. Qed.
Lemma common_noaddr : common kNoAddr. Proof. by vm_compute. Qed.
Lemma common_meet : common kMeet. Proof. by vm_compute. Qed.

Lemma plain_nil : plain [] /\ [] <> &"-".
Proof. split; [constructor|done]. Qed.

Lemma leads_set_node_as_master B p c : leads B B [] c (set_node_as_master p c).
Proof.
  eapply leads_then; [|apply inert_todo_save]. apply leads_tame; [|done|done]. intros n.
  eapply tame_trans; [apply (tame_clear kReplica), common_replica|].
  eapply tame_trans; [apply (tame_set kMaster), common_master|]. by apply tame_master; apply plain_nil.
Qed.

Lemma leads_become_replica B p id c : plain id /\ id <> &"-" ->
  leads B B [] c (on_peer p (fun n => set_flags kReplica (clear_flags kMaster n) <| n_master_id := id |>) c).
Proof.
  intros [Hp Hd]. apply leads_tame; [|done|done]. intros n.
  eapply tame_trans; [apply (tame_clear kMaster), common_master|].
  eapply tame_trans; [apply (tame_set kReplica), common_replica|]. by apply tame_master.
Qed.

Lemma none_member c : forall p : Z, None = Some p -> member c p.
Proof. done. Qed.

Lemma leads_set_as_replica_of B m c : leads B B [] c (set_as_replica_of m c).
Proof.
  open (@set_as_replica_of). bind c1. { apply leads_inert, reset_manual_inert. }
  bind c2.
  { apply leads_foldl_in. intros c' slot Hs%all_slots_range _ _.
    bind c3. { apply leads_if; [by apply leads_set_slot|apply leads_refl]. }
    apply (leads_seq _ B _ _ _ (set_migrating slot None c3)); [by apply leads_set_migrating|intros _ _].
    by apply leads_set_importing. }
  bind c3. { apply leads_become_replica. by eapply peer_id_plain. }
  eapply leads_then; [|apply inert_todo_broadcast]. eapply leads_then; [|apply inert_todo_save].
  apply leads_inert, inert_follow_master.
Qed.

(** ** New epochs *)

Lemma elem_of_node_ptrs c p : p ∈ node_ptrs c <-> exists id, nodes_ (table c) !! id = Some p.
Proof.
  unfold node_ptrs. rewrite list_elem_of_In, in_map_iff. split.
  - intros ([id q] & <- & Hin). exists id. by apply elem_of_map_to_list, list_elem_of_In.
  - intros (id & E). exists (id, p). split; [done|]. by apply list_elem_of_In, elem_of_map_to_list.
Qed.

Lemma node_ptrs_live B c p : good B c -> p ∈ node_ptrs c <-> live c p.
Proof.
  intros Hg. rewrite elem_of_node_ptrs. split.
  - intros (id & E). apply (tb_ids _ _ (gd_table _ _ Hg)) in E as (n & E & _). by exists n.
  - intros [n E]. exists (n_id n). apply (tb_ids _ _ (gd_table _ _ Hg)). eauto.
Qed.

Lemma max_fold_bounds (f : Z -> Z) l a b :
  (a <= b -> (forall p, p ∈ l -> f p <= b) -> foldl (fun m p => Z.max m (f p)) a l <= b) /\
  a <= foldl (fun m p => Z.max m (f p)) a l /\
  forall p, p ∈ l -> f p <= foldl (fun m p => Z.max m (f p)) a l.
Proof.
  revert a. induction l as [|x l IH]; intros a; cbn; [split_and!; [done|lia|set_solver]|].
  destruct (IH (Z.max a (f x))) as (Hu & Hl & He). split_and!.
  - intros Ha Hf. apply Hu; [|set_solver]. pose proof (Hf x ltac:(set_solver)). lia.
  - lia.
  - intros p [->|Hp]%elem_of_cons; [lia|auto].
Qed.

Lemma good_config B c p : good B c -> live c p -> 0 <= n_config_epoch (peer c p) <= current_epoch_ c.
Proof.
  intros Hg Hp. split; [apply (good_peer_ok _ _ _ Hg Hp)|].
  destruct Hp as [n E]. rewrite (peer_lookup _ _ _ E). exact (lw_config _ _ (gd_low _ _ Hg) _ _ E).
Qed.

(** The current epoch is the highest a node knows. *)
Lemma max_epoch_current B c : good B c -> max_epoch c = current_epoch_ c.
Proof.
  intros Hg. unfold max_epoch.
  destruct (max_fold_bounds (fun p => n_config_epoch (peer c p)) (node_ptrs c) (current_epoch_ c)
    (current_epoch_ c)) as (Hu & Hl & _).
  apply Z.le_antisymm; [|done]. apply Hu; [done|]. intros p Hp%(node_ptrs_live B); [|done].
  by apply (good_config B).
Qed.

Lemma good_me_live B c : good B c -> live c (myself_ c).
Proof. intros Hg. destruct (gd_me _ _ Hg) as (n & E & _). by exists n. Qed.

(** The next epoch, and its use for the node itself. *)
Lemma leads_next_epoch B c : B + 1 <= M.uint64_max -> good B c ->
  leads B (B + 1) [] c (c <| current_epoch_ := u64 (current_epoch_ c + 1) |>) /\
  u64 (current_epoch_ c + 1) = current_epoch_ c + 1.
Proof.
  intros HB Hg. pose proof (vt_current _ (gd_votes _ _ Hg)). pose proof (lw_current _ _ (gd_low _ _ Hg)).
  rewrite u64_small by (unfold M.uint64_max in *; lia). split; [|done].
  apply (leads_seq _ (B + 1) _ _ _ c); [apply leads_mono; lia|intros _ _]. apply leads_current. lia.
Qed.

Lemma leads_take_epoch B c : B + 1 <= M.uint64_max ->
  leads B (B + 1) [] c (todo_broadcast (todo_save (on_peer (myself_ c)
    (fun n => n <| n_config_epoch := u64 (current_epoch_ c + 1) |>)
    (c <| current_epoch_ := u64 (current_epoch_ c + 1) |>)))).
Proof.
  intros HB Hg. destruct (leads_next_epoch B c HB Hg) as [L E]. revert Hg.
  eapply leads_then; [|apply inert_todo_broadcast]. eapply leads_then; [|apply inert_todo_save].
  intros Hg. pose proof (good_config B c _ Hg (good_me_live _ _ Hg)). revert Hg.
  eapply leads_seq; [exact L|intros _ _]. apply leads_epoch.
  change (peer _ (myself_ c)) with (peer c (myself_ c)). rewrite E. cbn. lia.
Qed.

Lemma leads_bump_epoch B c : B + 1 <= M.uint64_max ->
  leads B (B + 1) [] c (bump_epoch_without_consensus c).2.
Proof.
  intros HB Hg. revert Hg. unfold bump_epoch_without_consensus.
  destruct (negb _ && _); [apply leads_mono; lia|]. intros Hg.
  rewrite (max_epoch_current B) by done. exact (leads_take_epoch B c HB Hg).
Qed.

Lemma leads_handle_epoch_collision B p c : B + 1 <= M.uint64_max ->
  leads B (B + 1) [] c (handle_epoch_collision p c).
Proof.
  intros HB. unfold handle_epoch_collision. destruct (_ || _ || _); [apply leads_mono; lia|].
  destruct (bytes_leb _ _); [apply leads_mono; lia|]. exact (leads_take_epoch B c HB).
Qed.

(** ** Claims of slots *)

Lemma leads_claim_slot B from e slots om c took dirty slot : 0 <= slot < kSlots -> member c from ->
  leads B B [] c (claim_slot from e slots om (c, took, dirty) slot).1.1.
Proof.
  intros Hs Hf. unfold claim_slot.
  destruct (negb _ || _); [apply leads_refl|]. case_bool_decide; [apply leads_refl|].
  destruct (negb _); [apply leads_refl|]. cbv zeta. cbn [fst].
  set (c1 := if bool_decide (owner c slot = Some (myself_ c)) then _ else c).
  apply (leads_seq _ B _ _ _ c1).
  - unfold c1. apply leads_if; [|apply leads_refl]. eapply leads_then; [|apply inert_todo_broadcast].
    by apply leads_set_migrating.
  - intros _ G1. eapply leads_then; [|apply inert_todo_save]. apply leads_set_slot; [done|].
    intros p [= <-]. apply (grows_member _ _ _ _ G1); [apply not_elem_of_nil|done].
Qed.

Lemma leads_claim_slots B from e slots om l c took dirty : (forall s, s ∈ l -> 0 <= s < kSlots) ->
  member c from -> leads B B [] c (foldl (claim_slot from e slots om) (c, took, dirty) l).1.1.
Proof.
  revert c took dirty. induction l as [|s l IH]; intros c took dirty Hl Hf; [apply leads_refl|].
  cbn [foldl]. pose proof (leads_claim_slot B from e slots om c took dirty s (Hl s ltac:(set_solver)) Hf) as L.
  destruct (claim_slot from e slots om (c, took, dirty) s) as [[c1 t1] d1]. cbn in L.
  eapply leads_seq; [exact L|intros _ G1]. apply IH; [set_solver|].
  apply (grows_member _ _ _ _ G1); [apply not_elem_of_nil|done].
Qed.

Lemma inert_drop_slot c slot : inert c (drop_slot c slot).
Proof. unfold drop_slot. destruct (delete_slot slot (store_ c)). apply inert_on_repl. Qed.

Lemma leads_drop_slots B l c : leads B B [] c (foldl drop_slot c l).
Proof. apply leads_foldl. intros. apply leads_inert, inert_drop_slot. Qed.

Lemma leads_update_slots_config B from e slots c : member c from ->
  leads B B [] c (update_slots_config_with from e slots c).
Proof.
  intros Hf. unfold update_slots_config_with. case_bool_decide; [apply leads_refl|].
  pose proof (leads_claim_slots B from e slots (master_of c (myself_ c)) all_slots c false []
    (fun s => proj1 (all_slots_range s)) Hf) as L.
  revert L. generalize (foldl (claim_slot from e slots (master_of c (myself_ c))) (c, false, []) all_slots).
  intros [[c1 took] dirty] L. cbn [fst] in L.
  eapply leads_seq; [exact L|intros _ _].
  assert (D : leads B B [] c1 (if is_ kMaster (myself c1) then foldl drop_slot c1 dirty else c1))
    by (apply leads_if; [apply leads_drop_slots|apply leads_refl]).
  destruct (master_of c (myself_ c)) as [om|]; [|done].
  destruct (took && _); [|done]. apply leads_if; [apply leads_set_as_replica_of|].
  apply leads_if; [apply leads_set_as_replica_of|apply leads_refl].
Qed.

Lemma leads_hand_over B p o c : (forall q, o = Some q -> member c q) -> leads B B [] c (hand_over p o c).
Proof.
  intros Ho. unfold hand_over. apply leads_foldl_in. intros c' slot Hs%all_slots_range _ G.
  case_bool_decide; [|apply leads_refl]. apply leads_set_slot; [done|].
  intros q Hq. apply (grows_member _ _ _ _ G); [apply not_elem_of_nil|auto].
Qed.

(** ** Failure detection *)

Lemma leads_reports B p f c : leads B B [] c (on_peer p (fun n => n <| n_fail_reports := f n |>) c).
Proof. apply leads_tame; [intros; tame_update|done|done]. Qed.

Lemma leads_flag_fail B p t c :
  leads B B [] c (on_peer p (fun n => set_flags kFail (clear_flags kPFail n) <| n_fail_time := t |>) c).
Proof.
  apply leads_tame; [|done|done]. intros n.
  eapply tame_trans; [apply (tame_clear kPFail), common_pfail|].
  eapply tame_trans; [apply (tame_set kFail), common_fail|]. tame_update.
Qed.

Lemma leads_set_flags B p g c : common g -> leads B B [] c (on_peer p (set_flags g) c).
Proof. intros Hg. apply leads_tame; [|done|done]. intros n. by apply tame_set. Qed.

Lemma leads_clear_flags B p g c : common g -> leads B B [] c (on_peer p (clear_flags g) c).
Proof. intros Hg. apply leads_tame; [|done|done]. intros n. by apply tame_clear. Qed.

Lemma leads_count_fail_reports B p c : leads B B [] c (count_fail_reports p c).2.
Proof. apply leads_reports. Qed.

Lemma leads_mark_failing B p c : leads B B [] c (mark_node_as_failing_if_needed p c).
Proof.
  unfold mark_node_as_failing_if_needed. destruct (_ || _); [apply leads_refl|].
  pose proof (leads_count_fail_reports B p c) as L. destruct (count_fail_reports p c) as [k c1].
  eapply leads_seq; [exact L|intros _ _]. cbn [snd].
  destruct (_ <? _); [apply leads_refl|].
  eapply leads_then; [|apply inert_todo_save]. eapply leads_then; [|apply inert_todo_handle_failover].
  eapply leads_then; [|apply inert_todo_update_state].
  eapply leads_seq; [apply leads_flag_fail|intros Hg2 _]. apply leads_broadcast; [done|].
  by apply polite_fail, (polite_header B).
Qed.

Lemma leads_clear_failure B p c : leads B B [] c (clear_node_failure_if_needed p c).
Proof.
  unfold clear_node_failure_if_needed. destruct (negb _); [apply leads_refl|].
  destruct (_ || _ || _); [|apply leads_refl].
  eapply leads_then; [|apply inert_todo_save]. eapply leads_then; [|apply inert_todo_update_state].
  apply leads_clear_flags, common_fail.
Qed.

Lemma leads_detect_failures B c : leads B B [] c (detect_failures c).
Proof.
  unfold detect_failures. apply leads_foldl. intros c' p. cbv zeta. destruct (_ || _); [apply leads_refl|].
  destruct (_ && _); [|apply leads_refl].
  eapply leads_seq; [|intros _ _; apply leads_mark_failing].
  eapply leads_then; [|apply inert_todo_update_state]. apply leads_set_flags, common_pfail.
Qed.

Lemma leads_process_gossip_entry B from c g : B + 1 <= M.uint64_max -> gossip_fine g ->
  leads B (B + 1) [] c (process_gossip_entry from c g).
Proof.
  intros HB (Hip%clean_no_nul & Hp & Hcp). assert (R : leads B (B + 1) [] c c) by (apply leads_mono; lia).
  unfold process_gossip_entry. destruct (beq _ _); [done|].
  pose proof (leads_start_handshake B _ _ _ c Hip Hp Hcp HB) as Hs.
  destruct (lookup c (M.g_id g)) as [p|].
  - destruct (_ && _); [|done]. destruct (_ || _); (eapply leads_seq; [apply leads_reports|intros _ _]).
    + eapply leads_seq; [apply leads_mark_failing|intros _ _; apply leads_mono; lia].
    + apply leads_mono. lia.
  - destruct (blacklist_ c !! M.g_id g); [|done]. by destruct (_ <=? _) || destruct (_ <? _).
Qed.

Lemma leads_process_gossip B from msg c : B + zlen (M.gossip msg) <= M.uint64_max ->
  Forall gossip_fine (M.gossip msg) -> leads B (B + zlen (M.gossip msg)) [] c (process_gossip from msg c).
Proof.
  unfold process_gossip, zlen. revert B c. induction (M.gossip msg) as [|g gs IH]; intros B c HB Hm.
  { rewrite Z.add_0_r. apply leads_refl. }
  inversion_clear Hm as [|? ? Hg Hm']; rename Hm' into Hm. cbn [length foldl] in *.
  eapply leads_seq; [apply leads_process_gossip_entry; [lia|done]|intros _ _].
  replace (B + Z.of_nat (S (length gs))) with (B + 1 + Z.of_nat (length gs)) by lia. apply IH; [lia|done].
Qed.

(** ** Failover, replica side *)

Lemma leads_auth B f c : failover_auth_epoch_ (f (auth c)) <= current_epoch_ c -> leads B B [] c (on_auth f c).
Proof.
  intros Hf Hg. split; [|split; try done; intros p n _ E; by exists n].
  destruct Hg. split; try done; [by destruct gd_low0|by destruct gd_votes0].
Qed.

Lemma leads_failover_replace B fresh c : leads B B [] c (failover_replace_master fresh c).
Proof.
  open (@failover_replace_master). destruct (lookup c (n_master_id (myself c))) as [old|]; [|apply leads_refl].
  destruct (is_ kMaster (myself c)); [apply leads_refl|].
  bind c1. { apply leads_set_node_as_master. }
  bind c2. { apply leads_inert, inert_on_repl. }
  bind c3. { apply leads_hand_over. intros q [= <-]. apply Hg0. }
  bind c4. { apply leads_inert, inert_update_state. }
  bind c5. { apply leads_save. }
  eapply leads_then; [|apply inert_cant_failover]. eapply leads_then; [|apply reset_manual_inert].
  apply leads_broadcast_pong.
Qed.

Lemma leads_request_auth B c : leads B B [] c (request_failover_auth c).
Proof.
  intros Hg. revert Hg. unfold request_failover_auth. intros Hg. pose proof (polite_header B M.kFailoverAuthRequest c Hg) as Hp.
  apply leads_broadcast; [by destruct (mf_end_ (manual c))| |done].
  destruct (mf_end_ (manual c)); [|done]. by destruct Hp.
Qed.

Lemma leads_run_election B fresh c : B + 1 <= M.uint64_max -> leads B (B + 1) [] c (run_election fresh c).
Proof.
  intros HB. open (@run_election). destruct (negb _).
  - bind c1 at (B + 1). { intros Hg. by apply (leads_next_epoch B c HB Hg). }
    bind c2. { by apply leads_auth. }
    bind c3. { apply leads_request_auth. }
    bind c4. { by apply leads_inert, inert_on_auth. }
    eapply leads_then; [|apply inert_todo_update_state]. apply leads_inert, inert_todo_save.
  - destruct (_ <=? _); [|eapply leads_then; [apply leads_mono; lia|apply inert_cant_failover]].
    apply (leads_seq _ (B + 1) _ _ _ c); [apply leads_mono; lia|intros Hg _].
    bind c1. { destruct (Z.ltb_spec (n_config_epoch (myself c)) (failover_auth_epoch_ (auth c))); [|apply leads_refl].
               apply leads_epoch. split; [unfold myself in *; lia|apply Hg]. }
    apply leads_failover_replace.
Qed.

Lemma leads_schedule_election B c : leads B B [] c (schedule_election c).
Proof.
  open (@schedule_election). cbv zeta. eapply leads_seq; [|intros _ _; apply leads_broadcast_pong].
  set (c1 := on_auth _ c). assert (I : inert c c1) by (by apply inert_on_auth). clearbody c1.
  destruct (mf_end_ (manual c1)); [|by apply leads_inert].
  eapply leads_then; [|apply inert_todo_handle_failover]. eapply leads_then; [by apply leads_inert|].
  by apply inert_on_auth.
Qed.

Lemma inert_todo t c : inert c (c <| todo := t |>).
Proof. inert_update. Qed.

Lemma leads_handle_replica_failover B fresh c : B + 1 <= M.uint64_max ->
  leads B (B + 1) [] c (handle_replica_failover fresh c).
Proof.
  intros HB. open (@handle_replica_failover). bind c0. { apply leads_inert, inert_todo. }
  clear Hg G c. rename c0 into c.
  assert (K : forall c', inert c c' -> leads B (B + 1) [] c c').
  { intros c' I. eapply leads_then; [|exact I]. apply leads_mono. lia. }
  destruct (negb _ || _); [by apply K, inert_refl|]. cbv zeta.
  set (cannot := match lookup c _ with Some _ => _ | None => _ end). clearbody cannot.
  destruct cannot; [apply K, inert_cant_failover|].
  destruct (_ && _ && _); [apply K, inert_cant_failover|].
  assert (S : leads B (B + 1) [] c (schedule_election c)).
  { eapply leads_seq; [apply leads_schedule_election|intros _ _; apply leads_mono; lia]. }
  destruct (failover_auth_time_ (auth c)) as [t|]; [|done]. destruct (_ <? _); [done|].
  set (late := negb _ && _ && _). clearbody late.
  set (c1 := if late then on_auth _ c else c).
  assert (I1 : inert c c1) by (unfold c1; apply inert_if; [by apply inert_on_auth|apply inert_refl]).
  clearbody c1. destruct (_ <? _); [by apply K|].
  destruct (_ <? _); [apply K; eapply inert_trans; [done|apply inert_cant_failover]|].
  eapply leads_seq; [by apply leads_inert|intros _ _; by apply leads_run_election].
Qed.

(** ** Failover, master side *)

Lemma leads_last_covers B v c : (good B c -> covers (current_epoch_ c) v (acks c)) -> 0 <= v <= M.uint64_max ->
  leads B B [] c (c <| last_vote_epoch_ := v |>).
Proof.
  intros Hl Hv Hg. split; [|split; try done; intros p n _ E; by exists n]. specialize (Hl Hg).
  destruct Hg. split; try done; [by destruct gd_low0|]. destruct gd_votes0. by split.
Qed.

Lemma save_config_spec c :
  (save_config c).1 = true -> disk (save_config c).2 = Some (describe_nodes true c) /\ unsynced (save_config c).2 = [].
Proof. unfold save_config. destruct (w_saves (world c)) as [|o os]; [done|]. by destruct o. Qed.

Lemma save_config_rest c : let c' := (save_config c).2 in
  table c' = table c /\ myself_ c' = myself_ c /\ current_epoch_ c' = current_epoch_ c /\
  last_vote_epoch_ c' = last_vote_epoch_ c /\ posted c' = posted c.
Proof. unfold save_config. destruct (w_saves (world c)) as [|o os]; [done|]. by destruct o. Qed.

(** Nothing was cast in the current epoch while the last vote is of another. *)
Lemma old_votes B c : good B c -> last_vote_epoch_ c <> current_epoch_ c ->
  Forall (fun e => e < current_epoch_ c) (acks c).
Proof.
  intros Hg Hl. eapply list.Forall_impl; [exact (vt_covered _ (gd_votes _ _ Hg))|]. cbn.
  intros e [?|[? ?]]; [done|congruence].
Qed.

(** The vote itself: remember, save, then send. *)
Lemma leads_cast_vote B requester m t c : last_vote_epoch_ c <> current_epoch_ c ->
  let c1 := on_peer m (fun n => n <| n_voted_time := t |>) (c <| last_vote_epoch_ := current_epoch_ c |>) in
  let c2 := (save_config c1).2 in
  leads B B [] c
    (if negb (save_config c1).1 then c2 <| last_vote_epoch_ := 0 |>
     else match n_link (peer c2 requester) with
          | Some l => if connecting (link_of c2 l) then c2 else send l (header M.kFailoverAuthAck c2) c2
          | None => c2
          end).
Proof.
  intros Hl c1' c2' Hg. subst c1' c2'. pose proof (old_votes B c Hg Hl) as Hold.
  assert (Hmax : 0 <= current_epoch_ c <= M.uint64_max).
  { pose proof (vt_current _ (gd_votes _ _ Hg)). destruct (gd_low _ _ Hg). lia. }
  revert Hg. cbv zeta. set (c0 := c <| last_vote_epoch_ := current_epoch_ c |>).
  apply (leads_seq _ B _ _ _ c0); [by apply leads_last|intros _ _].
  set (c1 := on_peer m _ c0).
  apply (leads_seq _ B _ _ _ c1); [apply leads_tame; [intros; tame_update|done|done]|intros Hg1 _].
  destruct (save_config_rest c1) as (Et & Em & Ec & El & Ep). pose proof (save_config_spec c1) as Hd.
  pose proof (leads_save B c1) as L. destruct (save_config c1) as [ok c2]. cbn [fst snd] in *.
  apply (leads_seq _ B _ _ _ c2); [done|intros Hg2 _].
  assert (Ha : acks c2 = acks c) by (unfold acks; by rewrite Ep).
  destruct ok; cbn [negb].
  - destruct (n_link (peer c2 requester)) as [l|]; [|apply leads_refl]. apply leads_if; [apply leads_refl|].
    apply leads_send_any; [|by apply (polite_header B)]. intros e [= <-].
    split; rewrite ?Ha; [done|by rewrite El, Ec|by rewrite Ec| |by apply Hd].
    exists c1. split; [by apply Hd|]. split; [by eapply good_sound|]. rewrite Ec.
    split; [done|]. split; [done|]. unfold myself, peer. by rewrite Et, Em.
  - apply leads_last_covers; [|by vm_compute]. intros _. rewrite Ha, Ec.
    eapply list.Forall_impl; [exact Hold|]. by left.
Qed.

Lemma leads_send_auth B requester request c : leads B B [] c (send_failover_auth_if_needed requester request c).
Proof.
  unfold send_failover_auth_if_needed. destruct (_ || _); [apply leads_refl|].
  destruct (_ <? _); [apply leads_refl|]. destruct (Z.eqb_spec (last_vote_epoch_ c) (current_epoch_ c)); [apply leads_refl|].
  set (mo := if is_ kReplica (peer c requester) then _ else None). clearbody mo.
  destruct mo as [m|]; [|apply leads_refl]. cbv zeta.
  destruct (negb _ && _); [apply leads_refl|]. destruct (negb _ && _); [apply leads_refl|].
  destruct (claims_newer_slot request c); [apply leads_refl|].
  pose proof (leads_cast_vote B requester m (now c) c n) as L. cbv zeta in L.
  change (now (c <| last_vote_epoch_ := current_epoch_ c |>)) with (now c).
  destruct (save_config _) as [ok c2]. exact L.
Qed.

(** ** Manual failover *)

Lemma leads_manual B f c : (forall p, mf_replica_ (f (manual c)) = Some p -> live c p) ->
  leads B B [] c (on_manual f c).
Proof.
  intros Hf Hg. split; [|split; try done; intros p n _ E; by exists n].
  destruct Hg. split; try done; [by destruct gd_low0|by destruct gd_votes0].
Qed.

Lemma inert_on_manual f c : (forall m, mf_replica_ (f m) = mf_replica_ m) -> inert c (on_manual f c).
Proof. intros Hf. split; try reflexivity. left. apply Hf. Qed.

Lemma inert_handle_manual_failover c : inert c (handle_manual_failover c).
Proof.
  unfold handle_manual_failover. cbv zeta. set (c1 := c <| todo := _ |>).
  assert (I : inert c c1) by apply inert_todo. clearbody c1.
  repeat case_match; try done. eapply inert_trans; [done|].
  eapply inert_trans; [|apply inert_todo_handle_failover]. by apply inert_on_manual.
Qed.

Lemma inert_manual_timeout c : inert c (manual_failover_check_timeout c).
Proof.
  unfold manual_failover_check_timeout. repeat case_match; try apply inert_refl. apply reset_manual_inert.
Qed.

(** ** A message *)

Definition raise_current (msg : Message) (c : cluster) : cluster :=
  if current_epoch_ c <? M.current_epoch msg
  then todo_save (c <| current_epoch_ := M.current_epoch msg |>) else c.

Lemma leads_raise_current B msg c : M.current_epoch msg <= B -> leads B B [] c (raise_current msg c).
Proof.
  intros HB. unfold raise_current.
  destruct (Z.ltb_spec (current_epoch_ c) (M.current_epoch msg)); [|apply leads_refl].
  eapply leads_then; [|apply inert_todo_save]. apply leads_current. lia.
Qed.

Lemma raise_current_le msg c : M.current_epoch msg <= current_epoch_ (raise_current msg c).
Proof. unfold raise_current. destruct (Z.ltb_spec (current_epoch_ c) (M.current_epoch msg)); cbn; lia. Qed.

(** The addresses of the sender. *)
Definition note_address (p : Z) (msg : Message) (c : cluster) : cluster :=
  let n := peer c p in
  if negb (n_port n =? M.port msg) || negb (n_cport n =? M.cport msg) then
    let c := on_peer p (fun n => n <| n_port := M.port msg |>) c in
    let c := if negb (n_cport n =? M.cport msg)
             then match n_link n with Some l => free_link l c | None => c end else c in
    todo_save (on_peer p (fun n => n <| n_cport := M.cport msg |>) c)
  else c.

Lemma leads_note_address B p msg c : polite msg -> leads B B [] c (note_address p msg c).
Proof.
  intros []. open note_address. cbv zeta. destruct (_ || _); [|apply leads_refl].
  eapply leads_then; [|apply inert_todo_save].
  eapply leads_seq; [|intros _ _; apply leads_tame; [intros; by apply tame_cport|done|done]].
  eapply leads_seq; [apply leads_tame; [intros; by apply (tame_port (M.port msg))|done|done]|intros _ _].
  apply leads_if; [|apply leads_refl].
  destruct (n_link (peer c p)); [apply leads_free_link|apply leads_refl].
Qed.

Definition note_rest (p : Z) (msg : Message) (c : cluster) : cluster :=
  let c := if n_config_epoch (peer c p) <? M.config_epoch msg
           then todo_save (on_peer p (fun n => n <| n_config_epoch := M.config_epoch msg |>) c) else c in
  let c := note_address p msg c in
  let c := on_peer p (fun n => n <| n_repl_offset := M.repl_offset msg |>) c in
  if is_ kReplica (myself c) && beq (n_master_id (myself c)) (n_id (peer c p))
     && negb (Z.land (M.mflags msg) M.kMsgPaused =? 0) && bool_decide (mf_end_ (manual c) <> None)
     && bool_decide (mf_master_offset_ (manual c) = None)
  then on_manual (fun m => m <| mf_master_offset_ := Some (M.repl_offset msg) |>) c
         <| todo := todo c <| todo_handle_manual_failover_ := true |> |>
  else c.

Lemma note_sender_split p msg c : note_sender p msg c = note_rest p msg (raise_current msg c).
Proof. reflexivity. Qed.

Lemma leads_note_rest B p msg c : polite msg -> M.current_epoch msg <= current_epoch_ c ->
  leads B B [] c (note_rest p msg c).
Proof.
  intros Hm He. open note_rest. bind c1.
  { destruct (Z.ltb_spec (n_config_epoch (peer c p)) (M.config_epoch msg)); [|apply leads_refl].
    eapply leads_then; [|apply inert_todo_save]. apply leads_epoch. pose proof (pl_config _ Hm). lia. }
  bind c2. { by apply leads_note_address. }
  bind c3. { apply leads_tame; [intros; tame_update|done|done]. }
  destruct (_ && _ && _ && _ && _); [|apply leads_refl].
  eapply leads_then; [|apply inert_todo]. by apply leads_inert, inert_on_manual.
Qed.

(** A known sender raises the current epoch to its own. *)
Lemma leads_note_sender B p msg c : polite msg -> M.current_epoch msg <= B ->
  leads B B [] c (note_sender p msg c) /\
  (good B c -> M.current_epoch msg <= current_epoch_ (note_sender p msg c)).
Proof.
  intros Hm HB. rewrite note_sender_split. pose proof (raise_current_le msg c) as Hle.
  pose proof (leads_raise_current B msg c HB) as L1. pose proof (leads_note_rest B p msg _ Hm Hle) as L2.
  split; [eapply leads_seq; [exact L1|done]|]. intros Hg. destruct (L1 Hg) as [Hg1 _].
  destruct (L2 Hg1) as [_ G2]. pose proof (gr_epoch _ _ _ G2). lia.
Qed.

Lemma leads_answer_ping B l known msg c : B + 1 <= M.uint64_max -> polite msg ->
  leads B (B + 1) [] c (answer_ping l known msg c).
Proof.
  intros HB Hm. open (@answer_ping). bind c1.
  { destruct (beq _ _); [|apply leads_refl]. intros Hg. destruct (w_local_ip (world c)) as [ip|] eqn:E.
    - revert Hg. eapply leads_then; [|apply inert_todo_save]. intros Hg. apply leads_tame; [|done|done|done].
      intros n. apply tame_ip. by apply (gd_local _ _ Hg).
    - by apply leads_refl. }
  cbv zeta. eapply leads_seq; [|intros _ _; by apply leads_send_ping].
  destruct (_ && _ && _); [|apply leads_mono; lia].
  apply leads_start_handshake; [|apply Hm|apply Hm|done]. apply clean_no_nul.
  destruct (links c1 !! l) as [k|] eqn:E.
  - rewrite (link_lookup _ _ _ E). exact (lk_ip _ _ _ (gd_links _ _ Hg) _ _ E).
  - rewrite (link_lookup_None _ _ E). constructor.
Qed.

Lemma lookup_member B c id p : good B c -> lookup c id = Some p -> is_ kHandshake (peer c p) = false -> member c p.
Proof.
  intros Hg E Hh. apply (tb_ids _ _ (gd_table _ _ Hg)) in E as (n & E & _).
  rewrite (peer_lookup _ _ _ E) in Hh. by exists n.
Qed.

Lemma leads_process_update B msg c : polite msg -> M.current_epoch msg <= current_epoch_ c ->
  leads B B [] c (process_update msg c).
Proof.
  intros Hm He Hg. revert Hg. unfold process_update.
  destruct (lookup c (M.update_id msg)) as [p|] eqn:E; [|apply leads_refl].
  destruct (is_ kHandshake (peer c p)) eqn:Eh; [apply leads_refl|]. cbn [orb].
  destruct (Z.leb_spec (M.update_epoch msg) (n_config_epoch (peer c p))) as [|Hlt]; [apply leads_refl|].
  intros Hg. pose proof (lookup_member B c _ _ Hg E Eh) as Hp. revert Hg.
  set (c1 := if is_ kReplica (peer c p) then _ else c).
  assert (H1 : n_config_epoch (peer c1 p) = n_config_epoch (peer c p) /\ current_epoch_ c1 = current_epoch_ c).
  { unfold c1. case_match; [|done]. unfold peer. cbn. rewrite lookup_alter_eq.
    by destruct (heap (table c) !! p). }
  apply (leads_seq _ B _ _ _ c1).
  { unfold c1. apply leads_if; [apply leads_set_node_as_master|apply leads_refl]. }
  clearbody c1. destruct H1 as [H1 H2]. intros _ G1.
  apply (leads_seq _ B _ _ _ (todo_save (on_peer p (fun n => n <| n_config_epoch := M.update_epoch msg |>) c1))).
  { eapply leads_then; [|apply inert_todo_save]. apply leads_epoch. pose proof (pl_update _ Hm). lia. }
  intros _ G2. apply leads_update_slots_config.
  apply (grows_member _ _ _ _ G2), (grows_member _ _ _ _ G1); [apply not_elem_of_nil..|done].
Qed.

Lemma leads_process_fail B msg c : leads B B [] c (process_fail msg c).
Proof.
  unfold process_fail. destruct (lookup c (M.fail_id msg)); [|apply leads_refl].
  destruct (_ || _ || _); [apply leads_refl|].
  eapply leads_then; [|apply inert_todo_save]. eapply leads_then; [|apply inert_todo_handle_failover].
  eapply leads_then; [|apply inert_todo_update_state]. apply leads_flag_fail.
Qed.

Lemma inert_process_vote p msg c : inert c (process_vote p msg c).
Proof.
  unfold process_vote. destruct (_ && _ && _); [|apply inert_refl].
  eapply inert_trans; [|apply inert_todo_handle_failover]. by apply inert_on_auth.
Qed.

Lemma leads_process_mf_start B l p c : live c p -> leads B B [] c (process_mf_start l p c).
Proof.
  intros Hp. open (@process_mf_start). destruct (_ || _); [apply leads_refl|].
  bind c1. { apply leads_inert, reset_manual_inert. }
  bind c2. { apply leads_manual. intros q [= <-]. apply (grows_live _ _ _ _ G); [apply not_elem_of_nil|done]. }
  bind c3. { apply leads_inert, inert_pause_writes. }
  by apply leads_send_ping.
Qed.

(** [leads], with some nodes gone, but not the node itself. *)
Definition proceeds (B B' : Z) (c c' : cluster) : Prop :=
  good B c -> exists exc, myself_ c ∉ exc /\ good B' c' /\ grows exc c c'.

Lemma leads_proceeds B B' c c' : leads B B' [] c c' -> proceeds B B' c c'.
Proof. intros L Hg. exists []. split; [apply not_elem_of_nil|]. by apply L. Qed.

Lemma proceeds_trans B1 B2 B3 c1 c2 c3 :
  proceeds B1 B2 c1 c2 -> (good B2 c2 -> proceeds B2 B3 c2 c3) -> proceeds B1 B3 c1 c3.
Proof.
  intros H1 H2 Hg. destruct (H1 Hg) as (e1 & M1 & Hg2 & G1). destruct (H2 Hg2 Hg2) as (e2 & M2 & Hg3 & G2).
  exists (e1 ++ e2). split; [|split; [done|by eapply grows_trans]].
  rewrite <-(gr_me _ _ _ G1) in *. set_solver.
Qed.

(** The flags of a node whose handshake is over. *)
Definition settle (msg : Message) (n : Peer) : Peer :=
  set_flags (if M.replica msg then kReplica else kMaster)
    (clear_flags (Z.lor kHandshake kMeet) n) <| n_master_id := M.master_id msg |>.

Lemma settled_handshake msg n : is_ kHandshake (settle msg n) = false.
Proof.
  unfold settle, is_, set_flags, clear_flags. cbn. apply negb_false_iff, Z.eqb_eq.
  rewrite Z.land_lor_distr_l. replace (Z.land (if M.replica msg then kReplica else kMaster) kHandshake) with 0
    by (by destruct (M.replica msg)).
  rewrite Z.lor_0_r. apply Z.bits_inj'. intros i Hi. rewrite Z.land_spec, Z.ldiff_spec, Z.lor_spec, Z.bits_0.
  destruct (Z.testbit (n_flags n) i), (Z.testbit kHandshake i), (Z.testbit kMeet i); done.
Qed.

Lemma settle_adopted msg n : polite msg -> adopted n (settle msg (n <| n_id := M.sender msg |>)).
Proof.
  intros []. split; try done.
  - apply settled_handshake.
  - unfold settle. change (is_ kMyself (?x <| n_master_id := _ |>)) with (is_ kMyself x).
    rewrite is_set_disjoint by (by destruct (M.replica msg)). by rewrite is_clear_disjoint.
  - intros []. split; try done. apply lor_small; [by apply ldiff_small|]. by destruct (M.replica msg).
Qed.

Lemma leads_pong B p msg c : leads B B [] c
  (if bool_decide (M.type msg = M.kPong) then
     let c := on_peer p (fun n => n <| n_pong_received := now c |> <| n_ping_sent := 0 |>) c in
     if is_ kPFail (peer c p) then todo_update_state (on_peer p (clear_flags kPFail) c)
     else if is_ kFail (peer c p) then clear_node_failure_if_needed p c
     else c
   else c).
Proof.
  destruct (bool_decide _); [|apply leads_refl].
  bind c1. { apply leads_tame; [intros; tame_update|done|done]. }
  apply leads_if; [eapply leads_then; [|apply inert_todo_update_state]; apply leads_clear_flags, common_pfail|].
  apply leads_if; [apply leads_clear_failure|apply leads_refl].
Qed.

(** The sender is not known, and does not bear one of our temporary ids. *)
Definition stranger (c : cluster) (id : bytes) : Prop :=
  nodes_ (table c) !! id = None /\ forall j, id <> nth_id (w_rng (world c)) j.

Lemma link_of_node B c l p : good B c -> l_node (link_of c l) = Some p -> live c p.
Proof.
  intros Hg E. destruct (links c !! l) as [k|] eqn:Ek; [|by rewrite (link_lookup_None _ _ Ek) in E].
  rewrite (link_lookup _ _ _ Ek) in E.
  destruct (lk_node _ _ _ (gd_links _ _ Hg) _ _ _ Ek E) as (n & En & _). by exists n.
Qed.

(** The node a link leads to turns out to be the stranger. *)
Lemma leads_settle B l p msg c : polite msg -> stranger c (M.sender msg) ->
  l_node (link_of c l) = Some p -> is_ kHandshake (peer c p) = true ->
  let c' := on_peer p (settle msg) (rename_node p (M.sender msg) c) in
  leads B B [] c c' /\ (good B c -> member c' p).
Proof.
  intros Hm [Hid Hnew] El Eh c'. subst c'.
  assert (A : good B c -> exists n, heap (table c) !! p = Some n /\ is_ kHandshake n = true).
  { intros Hg. destruct (link_of_node B c l p Hg El) as [n E]. rewrite (peer_lookup _ _ _ E) in Eh. eauto. }
  split.
  - intros Hg. destruct (A Hg) as (n & E & Hn). rewrite (rename_node_spec p _ (settle msg) c n E Hid) by done.
    apply leads_adopt; [done|done|by apply settle_adopted|done|done|done].
  - intros Hg. destruct (A Hg) as (n & E & Hn). rewrite (rename_node_spec p _ (settle msg) c n E Hid) by done.
    eexists. cbn. rewrite lookup_insert_eq. split; [done|apply settled_handshake].
Qed.

Lemma proceeds_link_node B l from msg c : polite msg ->
  (forall q, from = Some q -> member c q) -> (from = None -> stranger c (M.sender msg)) ->
  proceeds B B c (process_link_node l from msg c).2 /\
  (good B c -> forall q, (process_link_node l from msg c).1 = Some (Some q) ->
     member (process_link_node l from msg c).2 q).
Proof.
  intros Hm Hfrom Hnone. unfold process_link_node.
  destruct (l_node (link_of c l)) as [p|] eqn:El.
  2:{ split; [apply leads_proceeds, leads_refl|]. intros _ q [= Hq]. by apply Hfrom. }
  destruct (is_ kHandshake (peer c p)) eqn:Eh; [destruct from as [q|]|destruct (negb (beq _ _))].
  - split; [|done]. intros Hg. exists [p]. assert (Hp : p <> myself_ c).
    { intros ->. destruct (gd_me _ _ Hg) as (n & E & Hn). rewrite (peer_lookup _ _ _ E) in Eh. congruence. }
    split; [set_solver|]. by apply leads_del_node.
  - destruct (leads_settle B l p msg c Hm (Hnone eq_refl) El Eh) as [L A]. cbv zeta. cbn [fst snd].
    change (on_peer p _ (rename_node p (M.sender msg) c)) with
      (on_peer p (settle msg) (rename_node p (M.sender msg) c)).
    set (c1 := on_peer p (settle msg) _) in *. clearbody c1.
    pose proof (leads_then _ _ _ _ _ _ L (inert_todo_save c1)) as L1.
    pose proof (leads_pong B p msg (todo_save c1)) as L2.
    split; [apply leads_proceeds; eapply leads_seq; [exact L1|by intros _ _]|]. intros Hg q [= <-].
    destruct (L1 Hg) as [Hg1 _]. destruct (L2 Hg1) as [_ G].
    apply (grows_member _ _ _ _ G); [apply not_elem_of_nil|]. exact (A Hg).
  - split; [|done]. apply leads_proceeds. cbv zeta. cbn [snd]. eapply leads_then; [|apply inert_todo_save].
    eapply leads_seq; [|intros _ _; apply leads_free_link]. apply leads_tame; [|done|done]. intros n.
    eapply tame_trans; [apply (tame_set kNoAddr), common_noaddr|]. apply tame_ip. constructor.
  - pose proof (leads_pong B p msg c) as L. cbn [fst snd]. split; [by apply leads_proceeds|].
    intros Hg q [= ->]. destruct (L Hg) as [_ G]. apply (grows_member _ _ _ _ G); [apply not_elem_of_nil|].
    by apply Hfrom.
Qed.

Lemma leads_process_role B from msg c : polite msg -> leads B B [] c (process_role from msg c).
Proof.
  intros Hm. open (@process_role). destruct (M.replica msg).
  - bind c1.
    { apply leads_if; [|apply leads_refl]. eapply leads_then; [|apply inert_todo_save].
      apply (leads_seq _ B _ _ _ (hand_over from None c)); [by apply leads_hand_over|intros _ _].
      apply leads_tame; [|done|done]. intros n.
      eapply tame_trans; [apply (tame_clear kMaster), common_master|]. apply (tame_set kReplica), common_replica. }
    apply leads_if; [|apply leads_refl]. eapply leads_then; [|apply inert_todo_save].
    apply leads_tame; [|done|done]. intros n. by apply tame_master; apply Hm.
  - apply leads_if; [apply leads_set_node_as_master|apply leads_refl].
Qed.

Lemma leads_process_slots B l from msg c : B + 1 <= M.uint64_max -> member c from ->
  leads B (B + 1) [] c (process_slots l from msg c).
Proof.
  intros HB Hf. open (@process_slots). destruct (negb _); [apply leads_mono; lia|].
  bind c1. { apply leads_if; [by apply leads_update_slots_config|apply leads_refl]. }
  cbv zeta. set (newer := fun slot : Z => _). clearbody newer.
  eapply leads_seq; [|intros _ _; by apply leads_handle_epoch_collision].
  destruct (List.find newer all_slots) as [slot|]; [|apply leads_refl].
  destruct (owner c1 slot); [apply leads_send_update|apply leads_refl].
Qed.

(** ** Who a message is from *)

(** The sender of a message another node sent: not an id we drew ourselves,
    unless it is the node's own. *)
Definition sent_by_node (c : cluster) (msg : Message) : Prop :=
  M.sender msg = n_id (myself c) \/ forall j, M.sender msg <> nth_id (w_rng (world c)) j.

Definition sender_of (c : cluster) (msg : Message) : option Z :=
  match lookup c (M.sender msg) with
  | Some p => if is_ kHandshake (peer c p) then None else Some p
  | None => None
  end.

Lemma my_id_known B c : good B c -> lookup c (n_id (myself c)) = Some (myself_ c).
Proof.
  intros Hg. destruct (gd_me _ _ Hg) as (n & E & _). apply (tb_ids _ _ (gd_table _ _ Hg)).
  exists n. unfold myself. by rewrite (peer_lookup _ _ _ E).
Qed.

Lemma sender_known B c msg q : good B c -> sender_of c msg = Some q -> member c q.
Proof.
  intros Hg. unfold sender_of. destruct (lookup c (M.sender msg)) as [p|] eqn:E; [|done].
  destruct (is_ kHandshake (peer c p)) eqn:Eh; [done|]. intros [= <-]. by apply (lookup_member B c _ _ Hg E).
Qed.

Lemma sender_unknown B c msg : good B c -> sent_by_node c msg -> sender_of c msg = None ->
  stranger c (M.sender msg).
Proof.
  intros Hg Hs. unfold sender_of. destruct (gd_me _ _ Hg) as (n & En & Hn).
  destruct Hs as [Hs|Hs].
  { rewrite Hs, (my_id_known B) by done. rewrite (peer_lookup _ _ _ En), Hn. done. }
  destruct (lookup c (M.sender msg)) as [p|] eqn:E; [|by split].
  destruct (is_ kHandshake (peer c p)) eqn:Eh; [|done]. intros _. exfalso.
  apply (tb_ids _ _ (gd_table _ _ Hg)) in E as (m & Em & Ei). rewrite (peer_lookup _ _ _ Em) in Eh.
  destruct (id_drawn _ _ _ _ (gd_ids _ _ Hg) _ _ Em Eh) as (j & Ej). apply (Hs j). congruence.
Qed.

(** Sending does not change who is known. *)
Lemma flush_link_nodes l c : nodes_ (table (flush_link l c)) = nodes_ (table c).
Proof.
  unfold flush_link. destruct (l_out (link_of c l)); [done|].
  pose proof (next_send_inert c) as I. destruct (next_send c) as [o c1]. cbn in I.
  rewrite <-(in_table _ _ I). destruct o; [done|done|apply free_link_same].
Qed.

Lemma send_nodes l msg c : nodes_ (table (send l msg c)) = nodes_ (table c).
Proof.
  rewrite send_unfold. cbv zeta. destruct (dead _); [done|].
  destruct (_ <? _); [by rewrite (st_nodes _ _ (free_link_same l _))|].
  destruct (negb _); [by rewrite flush_link_nodes|done].
Qed.

Lemma start_handshake_nodes B ip p cp c id : good B c -> (forall j, id <> nth_id (w_rng (world c)) j) ->
  nodes_ (table (start_handshake ip p cp c).2) !! id = nodes_ (table c) !! id.
Proof.
  intros Hg Hid. unfold start_handshake. destruct (_ || _ || _); [done|]. destruct (existsb _ _); [done|]. cbn.
  rewrite lookup_insert_ne; [done|]. destruct (id_new _ _ _ _ (gd_ids _ _ Hg)) as (d & -> & _). intros E. by apply (Hid d).
Qed.

(** [answer_ping] in two steps: our address, and the answer. *)
Definition learn_ip (c : cluster) : cluster :=
  if beq (n_ip (myself c)) [] then
    match w_local_ip (world c) with
    | Some ip => todo_save (on_peer (myself_ c) (fun n => n <| n_ip := ip |>) c)
    | None => c
    end
  else c.

Lemma leads_learn_ip B c : leads B B [] c (learn_ip c).
Proof.
  unfold learn_ip. destruct (beq _ _); [|apply leads_refl]. intros Hg.
  destruct (w_local_ip (world c)) as [ip|] eqn:E; [|by apply leads_refl].
  revert Hg. eapply leads_then; [|apply inert_todo_save]. intros Hg. apply leads_tame; [|done|done|done].
  intros n. apply tame_ip. by apply (gd_local _ _ Hg).
Qed.

Lemma learn_ip_rest c : nodes_ (table (learn_ip c)) = nodes_ (table c) /\ w_rng (world (learn_ip c)) = w_rng (world c).
Proof. unfold learn_ip. by repeat case_match. Qed.

Lemma answer_ping_stranger B l known msg c id : good B c -> stranger c id ->
  nodes_ (table (answer_ping l known msg c)) !! id = None.
Proof.
  intros Hg [Hn Hj]. destruct (leads_learn_ip B c Hg) as [Hg1 _]. destruct (learn_ip_rest c) as [En Er].
  change (answer_ping l known msg c) with
    (let c := learn_ip c in let ip := peer_ip (link_of c l) in
     send_ping l M.kPong (if negb known && bool_decide (M.type msg = M.kMeet) && negb (beq ip [])
       then (start_handshake ip (M.port msg) (M.cport msg) c).2 else c)).
  cbv zeta. revert Hg1 En Er. generalize (learn_ip c). intros c1 Hg1 En Er.
  unfold send_ping. rewrite send_nodes. set (c2 := if negb known && _ && _ then _ else c1).
  assert (E2 : nodes_ (table c2) !! id = None).
  { unfold c2. destruct (_ && _ && _); [rewrite (start_handshake_nodes B) by (done || by rewrite Er)|]; by rewrite En. }
  clearbody c2. by repeat case_match.
Qed.

(** The first part of [process_packet]: what every message tells, and the
    answer to a PING. *)
Definition greet (l : Z) (msg : Message) (c : cluster) : cluster :=
  let from := sender_of c msg in
  let c := match from with Some p => note_sender p msg c | None => c end in
  if bool_decide (M.type msg = M.kPing) || bool_decide (M.type msg = M.kMeet)
  then answer_ping l (bool_decide (from <> None)) msg c else c.

(** The second part: what its type and its link tell. *)
Definition attend (l : Z) (msg : Message) (from : option Z) (c : cluster) : cluster :=
  match M.type msg with
  | M.kUpdate => match from with Some _ => process_update msg c | None => c end
  | M.kFail => match from with Some _ => process_fail msg c | None => c end
  | M.kFailoverAuthRequest =>
      match from with Some p => send_failover_auth_if_needed p msg c | None => c end
  | M.kFailoverAuthAck => match from with Some p => process_vote p msg c | None => c end
  | M.kMfStart => match from with Some p => process_mf_start l p c | None => c end
  | M.kPing | M.kPong | M.kMeet =>
      let '(from, c) := process_link_node l from msg c in
      match from with
      | Some (Some p) => process_gossip p msg (process_slots l p msg (process_role p msg c))
      | _ => c
      end
  end.

Lemma process_packet_split l msg c : process_packet l msg c =
  let c' := greet l msg c in
  if (bool_decide (M.type msg = M.kPing) || bool_decide (M.type msg = M.kMeet)) && dead (link_of c' l)
  then c' else attend l msg (sender_of c msg) c'.
Proof. reflexivity. Qed.

Lemma leads_greet B l msg c : B + 1 <= M.uint64_max -> polite msg -> M.current_epoch msg <= B ->
  leads B (B + 1) [] c (greet l msg c).
Proof.
  intros HB' Hm HB. open greet. cbv zeta.
  set (c1 := match sender_of c msg with Some p => note_sender p msg c | None => c end).
  apply (leads_seq _ B _ _ _ c1).
  - unfold c1. destruct (sender_of c msg); [by apply leads_note_sender|apply leads_refl].
  - intros _ _. destruct (_ || _); [by apply leads_answer_ping|apply leads_mono; lia].
Qed.

Lemma greet_known B l msg c p : B + 1 <= M.uint64_max -> polite msg -> M.current_epoch msg <= B -> good B c -> sender_of c msg = Some p ->
  M.current_epoch msg <= current_epoch_ (greet l msg c).
Proof.
  intros HB' Hm HB Hg E. unfold greet. rewrite E. destruct (leads_note_sender B p msg c Hm HB) as [L He].
  specialize (He Hg). destruct (L Hg) as [Hg1 _]. destruct (_ || _); [|done].
  destruct (leads_answer_ping B l (bool_decide (Some p <> None)) msg (note_sender p msg c) HB' Hm Hg1) as [_ G].
  pose proof (gr_epoch _ _ _ G). lia.
Qed.

Lemma greet_stranger B l msg c : B + 1 <= M.uint64_max -> polite msg -> M.current_epoch msg <= B -> good B c -> sent_by_node c msg ->
  sender_of c msg = None -> stranger (greet l msg c) (M.sender msg).
Proof.
  intros HB' Hm HB Hg Hs E. pose proof (sender_unknown B c msg Hg Hs E) as Hst.
  destruct (leads_greet B l msg c HB' Hm HB Hg) as [_ G]. split.
  - unfold greet. rewrite E. destruct (_ || _); [by apply (answer_ping_stranger B)|apply Hst].
  - rewrite (gr_rng _ _ _ G). apply Hst.
Qed.

(** How far a message may raise the bound: a handshake for each node it tells of,
    and an epoch. *)
Definition toll (msg : Message) : Z := 1 + zlen (M.gossip msg).

Lemma toll_pos msg : 1 <= toll msg.
Proof. unfold toll, zlen. lia. Qed.

Lemma proceeds_ping B l msg from c : B + toll msg <= M.uint64_max -> polite msg ->
  (forall q, from = Some q -> member c q) -> (from = None -> stranger c (M.sender msg)) ->
  proceeds B (B + toll msg) c
    (let '(from, c) := process_link_node l from msg c in
     match from with
     | Some (Some p) => process_gossip p msg (process_slots l p msg (process_role p msg c))
     | _ => c
     end).
Proof.
  intros HB Hm Hfrom Hnone. pose proof (toll_pos msg) as Hl. destruct (proceeds_link_node B l from msg c Hm Hfrom Hnone) as [P K].
  destruct (process_link_node l from msg c) as [from' c1]. cbn [fst snd] in *. intros Hg. specialize (K Hg). revert Hg.
  assert (D : proceeds B (B + toll msg) c c1).
  { eapply proceeds_trans; [exact P|]. intros _. apply leads_proceeds, leads_mono. lia. }
  destruct from' as [[p|]|]; [|done|done]. eapply proceeds_trans; [exact P|]. intros _. apply leads_proceeds.
  eapply leads_seq; [by apply leads_process_role|intros _ G].
  unfold toll in *. rewrite Z.add_assoc in *.
  eapply leads_seq; [apply leads_process_slots; [lia|]|intros _ _; apply leads_process_gossip; [lia|apply Hm]].
  apply (grows_member _ _ _ _ G); [apply not_elem_of_nil|by apply K].
Qed.

Lemma proceeds_attend B l msg from c : B + toll msg <= M.uint64_max -> polite msg ->
  (forall q, from = Some q -> member c q /\ M.current_epoch msg <= current_epoch_ c) ->
  (from = None -> stranger c (M.sender msg)) -> proceeds B (B + toll msg) c (attend l msg from c).
Proof.
  intros HB Hm Hfrom Hnone. pose proof (toll_pos msg) as Hl.
  assert (K : forall c', leads B B [] c c' -> proceeds B (B + toll msg) c c').
  { intros c' L. apply leads_proceeds. eapply leads_seq; [exact L|intros _ _; apply leads_mono; lia]. }
  pose proof (proceeds_ping B l msg from c HB Hm (fun q E => proj1 (Hfrom q E)) Hnone) as P.
  unfold attend. destruct (M.type msg); [exact P|exact P|exact P|..];
    (destruct from as [p|]; [destruct (Hfrom p eq_refl) as [Hp He]|apply K, leads_refl]); apply K.
  - by apply leads_process_update.
  - apply leads_process_fail.
  - apply leads_send_auth.
  - apply leads_inert, inert_process_vote.
  - apply leads_process_mf_start. destruct Hp as (n & E & _). by exists n.
Qed.

(** A message of a well-behaved node is handled well. *)
Lemma proceeds_packet B l msg c : B + 1 + toll msg <= M.uint64_max -> polite msg -> M.current_epoch msg <= B ->
  sent_by_node c msg -> proceeds B (B + 1 + toll msg) c (process_packet l msg c).
Proof.
  intros HB Hm He Hs Hg. pose proof (toll_pos msg) as Hl. assert (HB' : B + 1 <= M.uint64_max) by lia.
  pose proof (leads_greet B l msg c HB' Hm He) as L.
  pose proof (greet_known B l msg c) as Hk. pose proof (greet_stranger B l msg c HB' Hm He Hg Hs) as Hst.
  pose proof (fun q => sender_known B c msg q Hg) as Hq. destruct (L Hg) as [_ G1].
  assert (Hk' : forall q, sender_of c msg = Some q ->
            member (greet l msg c) q /\ M.current_epoch msg <= current_epoch_ (greet l msg c)).
  { intros q E. split; [|by apply (Hk q)]. apply (grows_member _ _ _ _ G1); [apply not_elem_of_nil|auto]. }
  revert Hg. rewrite process_packet_split. cbv zeta.
  apply (proceeds_trans _ (B + 1) _ _ (greet l msg c)); [by apply leads_proceeds|intros _].
  destruct (_ && _); [apply leads_proceeds, leads_mono; lia|]. by apply proceeds_attend.
Qed.

End ops.
End ClusterOps.
