(* ===== verification/ClusterEvents.v ===== *)
(** * The events of a node of the cluster keep the invariant

    The lemmas of [ClusterOps.v] put together into the events of [Cluster.v]:
    a link that is ready, the timer, the hook before sleeping, the CLUSTER
    command, the changes of the environment.  [advances B B' c c'] is what every
    event does; [admissible] says which events can happen when the other nodes
    are well behaved and no epoch is near the end of its range. *)

From Stdlib Require Import Lia.
From stdpp Require Import relations.
From S2P Require Import Prelude Resp Slots ClusterMsg Replication Cluster ClusterInv ClusterOps.

Module ClusterEvents.
Import Cluster ClusterInv ClusterOps.

(** A message in what a link has read. *)
Inductive carries : bytes -> Message -> Prop :=
  | carries_now buf r x p m :
      Parser.try_parse_command {| Parser.buffer_ := buf |} = (r, x, p) ->
      Parser.status r = Parser.kComplete -> M.decode (Parser.cmd r) = Some m -> carries buf m
  | carries_later buf r x p m :
      Parser.try_parse_command {| Parser.buffer_ := buf |} = (r, x, p) ->
      Parser.status r = Parser.kComplete -> carries (Parser.buffer_ p) m -> carries buf m.

(** A message of a well-behaved node, for the node with id [me]: its epoch is at
    most [E], and it tells of no more nodes than a cluster can have owners of
    slots. *)
Definition fine (me : bytes) (rng : nat -> Z) (E : Z) (m : Message) : Prop :=
  polite m /\ M.current_epoch m <= E /\ zlen (M.gossip m) <= kSlots /\
  (M.sender m = me \/ forall j, M.sender m <> nth_id rng j).

Section events.
Context {DS : Type} `{SlotStore DS}.
Abbreviation cluster := (Cluster DS).

Implicit Types c : cluster.

#[local] Opaque all_slots.

Record progress (c c' : cluster) : Prop := {
  pg_me : myself_ c' = myself_ c;
  pg_id : n_id (myself c') = n_id (myself c);
  pg_options : options_ c' = options_ c;
  pg_rng : w_rng (world c') = w_rng (world c);
  pg_epoch : current_epoch_ c <= current_epoch_ c';
  pg_config : n_config_epoch (myself c) <= n_config_epoch (myself c');
  pg_posted : posted c `prefix_of` posted c';
}.

Definition advances (B B' : Z) (c c' : cluster) : Prop := good B c -> good B' c' /\ progress c c'.

Lemma progress_refl c : progress c c.
Proof. by split. Qed.

Lemma progress_trans c1 c2 c3 : progress c1 c2 -> progress c2 c3 -> progress c1 c3.
Proof. intros [] []. split; try congruence; [lia|lia|by transitivity (posted c2)]. Qed.

Lemma advances_trans B1 B2 B3 c1 c2 c3 :
  advances B1 B2 c1 c2 -> (good B2 c2 -> progress c1 c2 -> advances B2 B3 c2 c3) -> advances B1 B3 c1 c3.
Proof.
  intros H1 H2 Hg. destruct (H1 Hg) as [Hg2 P1]. destruct (H2 Hg2 P1 Hg2) as [Hg3 P2].
  split; [done|by eapply progress_trans].
Qed.

Lemma proceeds_advances B B' c c' : proceeds B B' c c' -> advances B B' c c'.
Proof.
  intros P Hg. destruct (P Hg) as (exc & Hme & Hg' & G). split; [done|].
  destruct (gd_me _ _ Hg) as (n & E & Hh).
  destruct (gr_node _ _ _ G _ n Hme E) as (n' & E' & Hle & Hm). destruct (Hm Hh) as [_ Hid].
  destruct G. split; try done; unfold myself; by rewrite gr_me0, (peer_lookup _ _ _ E), (peer_lookup _ _ _ E').
Qed.

Lemma leads_advances B B' c c' : leads B B' [] c c' -> advances B B' c c'.
Proof. intros L. by apply proceeds_advances, leads_proceeds. Qed.

Lemma advances_refl B c : advances B B c c.
Proof. apply leads_advances, leads_refl. Qed.

Lemma advances_mono B B' c : B <= B' <= M.uint64_max -> advances B B' c c.
Proof. intros HB. by apply leads_advances, leads_mono. Qed.

(** ** Reading a link *)

Lemma advances_input B l f c : (forall k, l_node (f k) = l_node k /\ dead (f k) = dead k /\ peer_ip (f k) = peer_ip k) ->
  advances B B c (on_link l f c).
Proof.
  intros Hf Hg. split; [|by split]. apply (relink_good B (alter f l (links c))); [|done].
  apply links_ok_alter; [|apply Hg]. intros k _. apply Hf.
Qed.

Lemma carries_empty m : ~ carries [] m.
Proof. intros Hc. by inversion Hc as [? ? ? ? ? E Es|? ? ? ? ? E Es]; subst; vm_compute in E; simplify_eq. Qed.

Lemma set_input_carries l x c m :
  carries (l_input (link_of (on_link l (fun k => k <| l_input := x |>) c) l)) m -> carries x m.
Proof.
  unfold link_of. cbn. rewrite lookup_alter_eq. destruct (links c !! l); [done|].
  cbn. by intros ?%carries_empty.
Qed.

Lemma good_bound B c : good B c -> B <= M.uint64_max.
Proof. intros Hg. apply Hg. Qed.

(** How far one message may raise the bound. *)
Definition charge : Z := 2 + kSlots.

Lemma advances_read_loop fuel : forall B E l c, B + charge * Z.of_nat fuel <= M.uint64_max -> E <= B ->
  (forall m, carries (l_input (link_of c l)) m -> fine (n_id (myself c)) (w_rng (world c)) E m) ->
  advances B (B + charge * Z.of_nat fuel) c (read_loop fuel l c).
Proof.
  induction fuel as [|fuel IH]; intros B E l c HB HE Hm; cbn [read_loop].
  { rewrite Z.mul_0_r, Z.add_0_r. apply advances_refl. }
  assert (Hch : charge = 16386) by reflexivity.
  assert (Hf : charge * Z.of_nat (S fuel) = charge + charge * Z.of_nat fuel) by lia.
  assert (Hf' : 0 <= charge * Z.of_nat fuel) by lia. rewrite Hf in *.
  assert (K : forall c', leads B B [] c c' -> advances B (B + (charge + charge * Z.of_nat fuel)) c c').
  { intros c' L. eapply advances_trans; [by apply leads_advances|intros _ _; apply advances_mono; lia]. }
  destruct (dead (link_of c l)); [apply K, leads_refl|].
  destruct (Parser.try_parse_command _) as [[r x] p] eqn:Ep.
  set (c1 := on_link l (fun k => k <| l_input := Parser.buffer_ p |>) c).
  assert (A1 : advances B B c c1) by (by apply advances_input).
  assert (K1 : forall c', leads B B [] c1 c' -> advances B (B + (charge + charge * Z.of_nat fuel)) c c').
  { intros c' L. eapply advances_trans; [exact A1|intros _ _].
    eapply advances_trans; [by apply leads_advances|intros _ _; apply advances_mono; lia]. }
  destruct (Parser.status r) eqn:Es; [|apply K1, leads_refl|apply K1, leads_free_link].
  destruct (M.decode (Parser.cmd r)) as [m|] eqn:Ed; [|apply K1, leads_free_link].
  set (c2 := c1 <| messages_received_ := u64 (messages_received_ c1 + 1) |>).
  destruct (Hm m (carries_now _ _ _ _ _ Ep Es Ed)) as (Hp & He & Hn & Hs).
  assert (Hi : forall m, carries (l_input (link_of c2 l)) m -> fine (n_id (myself c)) (w_rng (world c)) E m).
  { intros m' Hc. apply Hm. eapply carries_later; [exact Ep|done|]. by apply (set_input_carries l _ c). }
  eapply advances_trans; [exact A1|intros _ P1].
  apply (advances_trans _ B _ _ c2); [apply leads_advances, leads_inert; inert_update|intros Hg2 P2].
  assert (Hc : B + 1 + toll m <= B + charge) by (unfold toll, charge; lia).
  pose proof (proceeds_packet B l m c2 ltac:(lia) Hp ltac:(lia) Hs) as P3.
  destruct (P3 Hg2) as (exc & _ & _ & G3).
  eapply advances_trans; [by apply proceeds_advances|intros Hg3 P].
  eapply advances_trans; [apply (advances_mono _ (B + charge)); lia|intros _ _].
  rewrite Z.add_assoc.
  apply (IH _ E); [lia|lia|]. rewrite (pg_id _ _ P), (pg_rng _ _ P).
  intros m' Hc'. rewrite (gr_input _ _ _ G3) in Hc'. by apply Hi.
Qed.

(** How far the messages of a read may raise the bound. *)
Definition rounds (l : Z) (r : R.ReadResult) (c : cluster) : Z :=
  match r with
  | R.read_data data => charge * (1 + zlen (l_input (link_of c l)) + zlen (take (Z.to_nat kReadChunk) data))
  | _ => 0
  end.

(** Everything the link has sent is fine. *)
Definition fine_read (E : Z) (l : Z) (r : R.ReadResult) (c : cluster) : Prop :=
  forall data m, r = R.read_data data ->
    carries (l_input (link_of c l) ++ take (Z.to_nat kReadChunk) data) m ->
    fine (n_id (myself c)) (w_rng (world c)) E m.

Lemma rounds_nonneg l r c : 0 <= rounds l r c.
Proof. unfold rounds, charge, zlen, kSlots. destruct r; lia. Qed.

Lemma append_input l x c :
  let c1 := on_link l (fun k => k <| l_input := l_input k ++ x |>) c in
  (links c !! l = None /\ l_input (link_of c1 l) = []) \/ l_input (link_of c1 l) = l_input (link_of c l) ++ x.
Proof.
  cbv zeta. unfold link_of. cbn. rewrite lookup_alter_eq. destruct (links c !! l); [by right|by left].
Qed.

Lemma advances_read_link B E l r c : B + rounds l r c <= M.uint64_max -> E <= B -> fine_read E l r c ->
  advances B (B + rounds l r c) c (read_link l r c).
Proof.
  intros HB HE Hr. pose proof (rounds_nonneg l r c) as Hn.
  assert (K : forall c', leads B B [] c c' -> advances B (B + rounds l r c) c c').
  { intros c' L. eapply advances_trans; [by apply leads_advances|intros _ _; apply advances_mono; lia]. }
  unfold read_link. destruct r as [data| | |]; [|apply K, leads_free_link|apply K, leads_refl|apply K, leads_free_link].
  pose proof (append_input l (take (Z.to_nat kReadChunk) data) c) as Hi. cbv zeta in Hi.
  set (c1 := on_link l _ c) in *.
  assert (A1 : advances B B c c1) by (by apply advances_input).
  assert (Hl : charge * Z.of_nat (S (length (l_input (link_of c1 l)))) <= rounds l (R.read_data data) c).
  { unfold rounds, charge, kSlots, zlen. destruct Hi as [[_ ->]| ->]; [|rewrite length_app]; cbn [length]; lia. }
  set (n := S (length (l_input (link_of c1 l)))) in *.
  assert (Hc : forall m, carries (l_input (link_of c1 l)) m -> fine (n_id (myself c1)) (w_rng (world c1)) E m).
  { intros m Hm. apply (Hr data m eq_refl). destruct Hi as [[_ Hi]|Hi]; rewrite Hi in Hm; [|done].
    by apply carries_empty in Hm. }
  eapply advances_trans; [exact A1|intros _ _].
  eapply advances_trans; [apply (advances_read_loop n B E); [lia|done|done]|intros _ _].
  generalize (read_loop n l c1). intros c2.
  cbv zeta. eapply advances_trans; [|intros _ _; apply (advances_mono (B + charge * Z.of_nat n)); lia].
  apply leads_advances, leads_if; [apply leads_free_link|apply leads_refl].
Qed.

Lemma leads_finish_connect B l err c : leads B B [] c (finish_connect l err c).
Proof.
  open (@finish_connect). destruct err; [apply leads_free_link|].
  bind c1. { by apply leads_on_link. }
  destruct (l_node (link_of c1 l)) as [p|]; [|apply leads_refl].
  bind c2. { apply leads_send_ping. by destruct (is_ kMeet (peer c1 p)). }
  bind c3. { apply leads_clear_flags, common_meet. }
  apply leads_if; [apply leads_flush_link|apply leads_refl].
Qed.

Lemma advances_on_link_event B E l err r c :
  B + rounds l r c <= M.uint64_max -> E <= B -> fine_read E l r c ->
  advances B (B + rounds l r c) c (on_link_event l err r c).
Proof.
  intros HB HE Hr. pose proof (rounds_nonneg l r c) as Hn.
  assert (K : forall c', leads B B [] c c' -> advances B (B + rounds l r c) c c').
  { intros c' L. eapply advances_trans; [by apply leads_advances|intros _ _; apply advances_mono; lia]. }
  unfold on_link_event. destruct (dead (link_of c l)); [apply K, leads_refl|].
  destruct (connecting (link_of c l)); [apply K, leads_finish_connect|].
  set (c1 := if negb (beq (l_out (link_of c l)) []) then flush_link l c else c).
  assert (L1 : leads B B [] c c1) by (unfold c1; apply leads_if; [apply leads_flush_link|apply leads_refl]).
  clearbody c1. intros Hg. destruct (L1 Hg) as [Hg1 G1]. revert Hg.
  destruct (dead (link_of c1 l)); [by apply K|].
  assert (Er : rounds l r c = rounds l r c1) by (unfold rounds; by rewrite (gr_input _ _ _ G1)).
  eapply advances_trans; [by apply leads_advances|intros _ P1]. rewrite Er.
  apply (advances_read_link B E); [lia|done|].
  intros data m Ed. rewrite (gr_input _ _ _ G1), (pg_id _ _ P1), (pg_rng _ _ P1). by apply Hr.
Qed.

(** ** The timer *)

Lemma leads_cron_connect B p c : live c p -> leads B B [] c (cron_connect ([], c) p).2.
Proof.
  intros Hp. unfold cron_connect. destruct (_ || _); [apply leads_refl|].
  destruct (_ && _); [apply leads_refl|].
  destruct (n_link (peer c p)) as [l|] eqn:El; [|by apply leads_connect_link].
  cbv zeta. destruct (_ && _); [apply leads_free_link|apply leads_refl].
Qed.

Lemma cron_connect_pair expired c p : exists e, cron_connect (expired, c) p = (expired ++ e, (cron_connect ([], c) p).2) /\
  forall q, q ∈ e -> q <> myself_ c.
Proof.
  unfold cron_connect. destruct (bool_decide (p = myself_ c)) eqn:Eq; cbn [orb].
  { exists []. rewrite app_nil_r. split; [done|set_solver]. }
  apply bool_decide_eq_false in Eq.
  destruct (is_ kNoAddr (peer c p)); [exists []; rewrite app_nil_r; split; [done|set_solver]|].
  destruct (_ && _); [exists [p]; split; [done|set_solver]|].
  exists []. rewrite app_nil_r. split; [|set_solver]. by repeat case_match.
Qed.

Lemma leads_cron_connects B ps : forall expired c, (forall p, p ∈ ps -> live c p) ->
  (forall q, q ∈ expired -> q <> myself_ c) ->
  let r := foldl cron_connect (expired, c) ps in
  leads B B [] c r.2 /\ (good B c -> forall q, q ∈ r.1 -> q <> myself_ r.2).
Proof.
  induction ps as [|p ps IH]; intros expired c Hl He; cbn [foldl]; [by split; [apply leads_refl|]|].
  destruct (cron_connect_pair expired c p) as (e & -> & Hne).
  pose proof (leads_cron_connect B p c (Hl p ltac:(set_solver))) as L.
  set (c1 := (cron_connect ([], c) p).2) in *. clearbody c1.
  assert (D : good B c -> leads B B [] c1 (foldl cron_connect (expired ++ e, c1) ps).2 /\
    (good B c1 -> forall q, q ∈ (foldl cron_connect (expired ++ e, c1) ps).1 ->
       q <> myself_ (foldl cron_connect (expired ++ e, c1) ps).2)).
  { intros Hg. destruct (L Hg) as [_ G]. apply IH.
    - intros q Hq. apply (grows_live _ _ _ _ G); [apply not_elem_of_nil|]. apply Hl. set_solver.
    - intros q. rewrite (gr_me _ _ _ G). intros [Hq|Hq]%elem_of_app; auto. }
  split.
  - intros Hg. destruct (D Hg) as [L2 _]. revert Hg. eapply leads_seq; [exact L|done].
  - intros Hg. destruct (D Hg) as [_ K]. apply K. by apply L.
Qed.

Lemma advances_del_nodes B ps : forall c, (forall q, q ∈ ps -> q <> myself_ c) ->
  advances B B c (foldl (fun c p => del_node p c) c ps).
Proof.
  induction ps as [|p ps IH]; intros c Hne; [apply advances_refl|]. cbn [foldl].
  eapply advances_trans.
  - apply proceeds_advances. intros Hg. exists [p]. split; [|apply leads_del_node; [apply Hne; set_solver|done]].
    intros Hp%list_elem_of_singleton. by apply (Hne p); [set_solver|].
  - intros _ P. apply IH. intros q Hq. rewrite (pg_me _ _ P). apply Hne. set_solver.
Qed.

Lemma leads_random_ping B c : leads B B [] c (random_ping c).
Proof.
  unfold random_ping. destruct (oldest c _) as [p|]; [|apply leads_refl].
  destruct (usable c p); [by apply leads_send_ping|apply leads_refl].
Qed.

Lemma leads_cron_ping B c p : leads B B [] c (cron_ping c p).
Proof.
  unfold cron_ping. destruct (bool_decide _); [apply leads_refl|]. destruct (usable c p) as [l|]; [|apply leads_refl].
  cbv zeta. destruct (negb _).
  - apply leads_if; [apply leads_free_link|apply leads_refl].
  - apply leads_if; [by apply leads_send_ping|apply leads_refl].
Qed.

(** The timer after its first loop. *)
Definition cron_rest (fresh : bytes) (c : cluster) : cluster :=
  let c := c <| blacklist_ := filter (fun '(_, t) => now c < t) (blacklist_ c) |> in
  let c := if cron_iterations_ c mod kRandomPingEvery =? 0 then random_ping c else c in
  let c := foldl cron_ping c (node_ptrs c) in
  let c := detect_failures c in
  let c := match mf_end_ (manual c), mf_replica_ (manual c) with
           | Some _, Some p =>
               if is_ kMaster (myself c)
               then match usable c p with Some l => send_ping l M.kPing c | None => c end else c
           | _, _ => c
           end in
  let c := manual_failover_check_timeout c in
  let c := if is_ kReplica (myself c)
           then handle_replica_failover fresh (handle_manual_failover c) else c in
  update_state (follow_master c).

Lemma cron_split fresh c : cron fresh c =
  if negb (hosted c) then c
  else
    let c := c <| cron_iterations_ := u64 (cron_iterations_ c + 1) |> in
    let '(expired, c) := foldl cron_connect ([], c) (node_ptrs c) in
    let c := foldl (fun c p => del_node p c) c expired in cron_rest fresh c.
Proof. cbv beta delta [cron cron_rest]. reflexivity. Qed.

Lemma leads_cron_rest B fresh c : B + 1 <= M.uint64_max -> leads B (B + 1) [] c (cron_rest fresh c).
Proof.
  intros HB. open cron_rest.
  bind c1. { apply leads_inert. inert_update. }
  bind c2. { apply leads_if; [apply leads_random_ping|apply leads_refl]. }
  bind c3. { apply leads_foldl. intros. apply leads_cron_ping. }
  bind c4. { apply leads_detect_failures. }
  bind c5.
  { destruct (mf_end_ (manual c4)), (mf_replica_ (manual c4)) as [p|]; try apply leads_refl.
    apply leads_if; [|apply leads_refl]. destruct (usable c4 p); [by apply leads_send_ping|apply leads_refl]. }
  bind c6. { apply leads_inert, inert_manual_timeout. }
  bind c7 at (B + 1).
  { destruct (is_ kReplica (myself c6)); [|apply leads_mono; lia].
    eapply leads_seq; [apply leads_inert, inert_handle_manual_failover|intros _ _].
    by apply leads_handle_replica_failover. }
  apply leads_inert. eapply inert_trans; [apply inert_follow_master|apply inert_update_state].
Qed.

Lemma advances_cron B fresh c : B + 1 <= M.uint64_max -> advances B (B + 1) c (cron fresh c).
Proof.
  intros HB. rewrite cron_split. destruct (negb (hosted c)); [apply advances_mono; lia|]. cbv zeta.
  set (c0 := c <| cron_iterations_ := _ |>).
  apply (advances_trans _ B _ _ c0); [apply leads_advances, leads_inert; inert_update|intros Hg0 _]. clearbody c0.
  destruct (leads_cron_connects B (node_ptrs c0) [] c0) as [L K];
    [intros p Hp; by apply (node_ptrs_live B)|intros ? ?%elem_of_nil; done|].
  specialize (K Hg0). destruct (foldl cron_connect ([], c0) (node_ptrs c0)) as [expired c1]. cbn [fst snd] in *.
  eapply advances_trans; [by apply leads_advances|intros _ _].
  eapply advances_trans; [by apply advances_del_nodes|intros _ _].
  by apply leads_advances, leads_cron_rest.
Qed.

(** ** Before sleeping *)

Lemma links_ok_reap h ls next : links_ok h ls next -> links_ok h (filter (fun '(_, l) => dead l = false) ls) next.
Proof.
  intros []. assert (Hf : forall l k, filter (fun '(_, l) => dead l = false) ls !! l = Some k -> ls !! l = Some k).
  { intros l k E. by apply map_lookup_filter_Some in E as [? _]. }
  split; try eauto.
  intros p n l E El. destruct (lk_back0 _ _ _ E El) as (k & Ek & Hk). exists k. split; [|done].
  apply map_lookup_filter_Some. split; [done|]. destruct (dead k) eqn:Ed; [|done].
  by rewrite (lk_dead0 _ _ Ek Ed) in Hk.
Qed.

Lemma advances_reap B c : advances B B c (reap_links c).
Proof.
  intros Hg. split; [|by split].
  apply (relink_good B (filter (fun '(_, l) => dead l = false) (links c))); [|done]. by apply links_ok_reap, Hg.
Qed.

Lemma advances_before_sleep B fresh c : B + 1 <= M.uint64_max ->
  advances B (B + 1) c (before_sleep fresh c).
Proof.
  intros HB. unfold before_sleep.
  eapply advances_trans; [|intros _ _; apply advances_reap]. apply leads_advances.
  change (leads B (B + 1) [] c
    (let c := if todo_handle_manual_failover_ (todo c) && hosted c then handle_manual_failover c else c in
     let c := if todo_handle_failover_ (todo c) && hosted c then handle_replica_failover fresh c else c in
     let c := if todo_update_state_ (todo c) then update_state c else c in
     let c := if todo_broadcast_ (todo c) && hosted c
              then broadcast_pong (c <| todo := todo c <| todo_broadcast_ := false |> |>) else c in
     if todo_save_ (todo c) then (save_config (c <| todo := todo c <| todo_save_ := false |> |>)).2 else c)).
  bind c1. { apply leads_inert, inert_if; [apply inert_handle_manual_failover|apply inert_refl]. }
  bind c2 at (B + 1).
  { destruct (_ && _); [by apply leads_handle_replica_failover|apply leads_mono; lia]. }
  bind c3. { apply leads_inert, inert_if; [apply inert_update_state|apply inert_refl]. }
  bind c4.
  { apply leads_if; [|apply leads_refl].
    eapply leads_seq; [apply leads_inert, inert_todo|intros _ _; apply leads_broadcast_pong]. }
  apply leads_if; [|apply leads_refl].
  eapply leads_seq; [apply leads_inert, inert_todo|intros _ _; apply leads_save].
Qed.

(** ** The CLUSTER command *)

Lemma parse_slot_range s slot : parse_slot s = Some slot -> 0 <= slot < kSlots.
Proof.
  unfold parse_slot. destruct (parse_int s) as [n|]; [|done]. destruct (_ && _) eqn:E; [|done].
  intros [= <-]. apply andb_true_iff in E as [?%Z.leb_le ?%Z.ltb_lt]. lia.
Qed.

Lemma named_slots_range range args l : named_slots range args = inr l -> forall s, s ∈ l -> 0 <= s < kSlots.
Proof.
  remember (length args) as n eqn:Hn. revert args l Hn.
  induction n as [n IH] using lt_wf_ind. intros [|a args] l -> ; cbn [named_slots].
  { intros [= <-] s ?%elem_of_nil. done. }
  destruct (parse_slot a) as [start|] eqn:Ea; [|done]. apply parse_slot_range in Ea. destruct range.
  - destruct args as [|b args]; [done|]. destruct (parse_slot b) as [stop|] eqn:Eb; [|done].
    apply parse_slot_range in Eb. destruct (Z.ltb_spec stop start); [done|].
    destruct (named_slots true args) as [e|l'] eqn:El; [done|].
    intros [= <-] s [Hs%elem_of_seqZ|Hs]%elem_of_app; [lia|].
    apply (IH (length args)) with args l'; [cbn; lia|done..].
  - destruct (named_slots false args) as [e|l'] eqn:El; [done|].
    intros [= <-] s [->|Hs]%elem_of_cons; [done|].
    apply (IH (length args)) with args l'; [cbn; lia|done..].
Qed.

Lemma leads_cmd_addslots B args range add c : leads B B [] c (cmd_addslots args range add c).2.
Proof.
  unfold cmd_addslots. destruct (is_ kReplica (myself c)); [apply leads_refl|].
  destruct (named_slots range args) as [e|slots] eqn:En; [apply leads_refl|].
  destruct (check_slots add [] slots c); [apply leads_refl|]. cbv zeta. cbn [snd].
  eapply leads_then; [|apply inert_todo_broadcast]. eapply leads_then; [|apply inert_todo_save].
  apply leads_foldl_in. intros c' slot Hs Hg' _. apply (named_slots_range _ _ _ En) in Hs.
  set (c1 := if add then set_importing slot None c' else c'). apply (leads_seq _ B _ _ _ c1).
  { unfold c1. apply leads_if; [by apply leads_set_importing|apply leads_refl]. }
  intros Hg1 _. apply leads_set_slot; [done|]. intros p. destruct add; [|done]. intros [= <-].
  by apply Hg1.
Qed.

Lemma leads_setslot_node B slot p c : B + 1 <= M.uint64_max -> 0 <= slot < kSlots -> member c p ->
  leads B (B + 1) [] c (setslot_node slot p c).2.
Proof.
  intros HB Hs Hp. unfold setslot_node. cbv zeta. destruct (_ && _ && _); [apply leads_mono; lia|]. cbn [snd].
  eapply leads_then; [|apply inert_todo_save]. eapply leads_then; [|apply inert_todo_broadcast].
  set (c1 := if count_keys_in_slot (store_ c) slot =? 0 then _ else c).
  apply (leads_seq _ B _ _ _ c1); [unfold c1; apply leads_if; [by apply leads_set_migrating|apply leads_refl]|].
  intros _ G1. clearbody c1.
  set (finishes := bool_decide (p = myself_ c1) && _). clearbody finishes.
  set (c2 := if bool_decide (p = myself_ c1) then _ else c1).
  apply (leads_seq _ B _ _ _ c2); [unfold c2; apply leads_if; [by apply leads_set_importing|apply leads_refl]|].
  intros _ G2. clearbody c2.
  apply (leads_seq _ B _ _ _ (set_slot slot (Some p) c2)).
  { apply leads_set_slot; [done|]. intros q [= <-].
    apply (grows_member _ _ _ _ G2), (grows_member _ _ _ _ G1); [apply not_elem_of_nil..|done]. }
  intros _ _. destruct finishes; [by apply leads_bump_epoch|apply leads_mono; lia].
Qed.

Lemma leads_cmd_setslot B args c : B + 1 <= M.uint64_max -> leads B (B + 1) [] c (cmd_setslot args c).2.
Proof.
  intros HB Hg. revert Hg.
  assert (R : leads B (B + 1) [] c c) by (apply leads_mono; lia).
  assert (K : forall c', leads B B [] c c' -> leads B (B + 1) [] c (todo_save c')).
  { intros c' L. eapply leads_then; [|apply inert_todo_save]. eapply leads_seq; [exact L|intros _ _; apply leads_mono; lia]. }
  unfold cmd_setslot. destruct (is_ kReplica (myself c)); [done|].
  destruct args as [|slot_text [|action rest]]; [done|done|].
  destruct (parse_slot slot_text) as [slot|] eqn:Es; [|done]. apply parse_slot_range in Es. cbv zeta.
  destruct (beq (to_upper action) &"STABLE").
  { destruct rest; [|done]. apply K.
    apply (leads_seq _ B _ _ _ (set_migrating slot None c)); [by apply leads_set_migrating|intros _ _].
    by apply leads_set_importing. }
  destruct rest as [|id [|? ?]]; [done| |done]. destruct (_ && _ && _); [done|].
  destruct (lookup c id) as [p|] eqn:El; [|done].
  destruct (is_ kHandshake (peer c p)) eqn:Eh; [done|]. destruct (is_ kReplica (peer c p)); [done|].
  intros Hg. pose proof (lookup_member B c _ _ Hg El Eh) as Hp. revert Hg.
  destruct (beq (to_upper action) &"MIGRATING").
  { destruct (negb _); [done|]. apply K. apply leads_set_migrating; [done|]. by intros q [= <-]. }
  destruct (beq (to_upper action) &"IMPORTING").
  { destruct (bool_decide _); [done|]. apply K. apply leads_set_importing; [done|]. by intros q [= <-]. }
  by apply leads_setslot_node.
Qed.

Lemma leads_cmd_meet B ip port_text cport_text c : B + 1 <= M.uint64_max -> x00 ∉ ip ->
  leads B (B + 1) [] c (cmd_meet ip port_text cport_text c).2.
Proof.
  intros HB Hip. assert (R : leads B (B + 1) [] c c) by (apply leads_mono; lia).
  unfold cmd_meet. destruct (parse_i64 port_text) as [p|]; [|done].
  set (cp := match cport_text with Some t => parse_i64 t | None => _ end). clearbody cp.
  destruct cp as [cp|]; [|done].
  destruct (negb ((0 <? p) && (p <=? 65535)) || (cp <=? 0) || (65535 <? cp)) eqn:Ep; [done|].
  destruct (negb (valid_ipv4 ip)); [done|]. cbn [snd].
  apply leads_start_handshake; [done|unfold M.uint16_max; zlia|unfold M.uint16_max; zlia|done].
Qed.

Lemma leads_cmd_replicate B id c : leads B B [] c (cmd_replicate id c).2.
Proof.
  unfold cmd_replicate. destruct (lookup c id) as [p|]; [|apply leads_refl].
  repeat (destruct (is_ _ _) || destruct (bool_decide _) || destruct (_ && _)); try apply leads_refl;
    apply leads_set_as_replica_of.
Qed.

Lemma proceeds_cmd_forget B id c : proceeds B B c (cmd_forget id c).2.
Proof.
  unfold cmd_forget. destruct (lookup c id) as [p|]; [|apply leads_proceeds, leads_refl].
  destruct (bool_decide_reflect (p = myself_ c)) as [|Hp]; [apply leads_proceeds, leads_refl|].
  destruct (_ && _); [apply leads_proceeds, leads_refl|]. cbv zeta. cbn [snd].
  set (c1 := c <| blacklist_ := _ |>). apply (proceeds_trans _ B _ _ c1).
  { apply leads_proceeds, leads_inert. inert_update. }
  intros _ Hg. exists [p]. split; [|by apply leads_del_node]. intros ?%list_elem_of_singleton. done.
Qed.

Lemma leads_cmd_failover B fresh opt c : B + 1 <= M.uint64_max ->
  leads B (B + 1) [] c (cmd_failover fresh opt c).2.
Proof.
  intros HB. assert (R : leads B (B + 1) [] c c) by (apply leads_mono; lia).
  unfold cmd_failover. cbv zeta. set (force := bool_decide (_ = Some &"FORCE")). set (takeover := bool_decide (_ = Some &"TAKEOVER")).
  clearbody force takeover. destruct (_ && _ && _); [done|]. destruct (is_ kMaster (myself c)); [done|].
  destruct (lookup c (n_master_id (myself c))) as [m|]; [|done]. destruct (_ && _ && _); [done|]. cbn [snd].
  set (c1 := on_manual _ (reset_manual_failover c)).
  assert (I1 : inert c c1).
  { eapply inert_trans; [apply reset_manual_inert|]. by apply inert_on_manual. }
  apply (leads_seq _ B _ _ _ c1); [by apply leads_inert|intros Hg1 _]. clearbody c1.
  assert (K : forall c', leads B B [] c1 c' -> leads B (B + 1) [] c1 c').
  { intros c' L. eapply leads_seq; [exact L|intros _ _; apply leads_mono; lia]. }
  destruct takeover; [|destruct force; apply K].
  - apply (leads_seq _ (B + 1) _ _ _ (bump_epoch_without_consensus c1).2);
      [by apply leads_bump_epoch|intros _ _; apply leads_failover_replace].
  - eapply leads_then; [|apply inert_todo_handle_failover]. eapply leads_then; [|by apply inert_on_auth].
    by apply leads_inert, inert_on_manual.
  - set (c2 := on_auth _ c1). apply (leads_seq _ B _ _ _ c2); [by apply leads_inert, inert_on_auth|intros Hg2 _].
    destruct (n_link (peer c2 m)); [|apply leads_refl]. apply leads_send; [done|by apply (polite_header B)].
Qed.

Lemma leads_set_config_epoch B text c : (forall e, parse_u64 text = Some e -> e <= B) ->
  leads B B [] c (cmd_set_config_epoch text c).2.
Proof.
  intros Ht. unfold cmd_set_config_epoch. destruct (parse_u64 text) as [e|] eqn:Ep; [|apply leads_refl].
  specialize (Ht e eq_refl). apply from_chars_all_range in Ep.
  destruct (_ <? _)%nat; [apply leads_refl|].
  destruct (Z.eqb_spec (n_config_epoch (myself c)) 0) as [E0|]; [|apply leads_refl]. cbv zeta. cbn [negb snd].
  eapply leads_then; [|apply inert_todo_save]. intros Hg. pose proof (lw_current _ _ (gd_low _ _ Hg)). revert Hg.
  change (leads B B [] c (on_peer (myself_ c) (fun n => n <| n_config_epoch := e |>)
            (c <| current_epoch_ := Z.max (current_epoch_ c) e |>))).
  apply (leads_seq _ B _ _ _ (c <| current_epoch_ := Z.max (current_epoch_ c) e |>)).
  - apply leads_current. lia.
  - intros _ _. apply leads_epoch. change (peer _ (myself_ c)) with (myself c). cbn. lia.
Qed.

(** No NUL in what a client sends, and no epoch above [E] set by hand. *)
Definition modest (E : Z) (args : Args) : Prop :=
  Forall (fun a => x00 ∉ a) args /\
  forall name a rest e, args = name :: a :: rest -> to_upper name = &"SET-CONFIG-EPOCH" -> parse_u64 a = Some e -> e <= E.

Lemma advances_slots_command B range args (add : bool) c : B + 1 <= M.uint64_max ->
  advances B (B + 1) c (cmd_addslots args range add c).2.
Proof.
  intros HB. eapply advances_trans; [apply leads_advances, leads_cmd_addslots|intros _ _; apply advances_mono; lia].
Qed.

Lemma leads_advances_more B c c' : B + 1 <= M.uint64_max -> leads B B [] c c' -> advances B (B + 1) c c'.
Proof. intros HB L. eapply advances_trans; [by apply leads_advances|intros _ _; apply advances_mono; lia]. Qed.

Lemma advances_command B E fresh errno args c : B + 1 <= M.uint64_max -> E <= B -> modest E args ->
  advances B (B + 1) c (command fresh errno args c).2.
Proof.
  intros HB HE Hm. assert (R : advances B (B + 1) c c) by (apply advances_mono; lia).
  destruct Hm as [Hnul Hset]. unfold command. cbv zeta.
  assert (Hr : Forall (fun a => x00 ∉ a) (drop 1 args)) by (by apply Forall_drop).
  assert (He : forall a rest e, drop 1 args = a :: rest -> to_upper (default [] (head args)) = &"SET-CONFIG-EPOCH" ->
            parse_u64 a = Some e -> e <= E) by (intros a rest e; destruct args as [|name l]; [done|]; cbn; rewrite drop_0; intros ->; eauto).
  revert Hr He. generalize (drop 1 args) (default [] (head args)). intros rest name Hr He.
  assert (Hone : forall a l, rest = a :: l -> x00 ∉ a) by (intros a l ->; by inversion_clear Hr).
  pose proof (leads_advances_more B c) as K.
  do 4 (destruct (_ && _); [done|]).
  destruct (beq _ _); [by destruct rest as [|? [|? ?]]|].
  destruct (beq _ _); [destruct rest as [|? [|? ?]]; [done| |done]; by destruct (parse_slot _)|].
  destruct (beq _ _).
  { destruct rest as [|? [|? [|? ?]]]; [done|done| |done].
    destruct (parse_slot _); [|done]. destruct (parse_i64 _); [|done]. by destruct (_ <? _). }
  destruct (_ || _); [destruct rest; [done|by apply advances_slots_command]|].
  destruct (_ || _); [destruct (_ || _); [done|by apply advances_slots_command]|].
  destruct (beq _ _); [destruct (_ <? _)%nat; [done|by apply leads_advances, leads_cmd_setslot]|].
  destruct (beq _ _).
  { destruct rest as [|ip [|p [|cp [|? ?]]]]; try done;
      apply leads_advances, leads_cmd_meet; (done || by eapply Hone). }
  destruct (beq _ _); [destruct rest as [|? [|? ?]]; [done| |done]; by apply K, leads_cmd_replicate|].
  destruct (beq _ _).
  { destruct rest as [|? [|? ?]]; [done| |done].
    eapply advances_trans; [apply proceeds_advances, proceeds_cmd_forget|intros _ _; apply advances_mono; lia]. }
  destruct (beq _ _); [destruct rest as [|? [|? ?]]; [| |done]; by apply leads_advances, leads_cmd_failover|].
  destruct (beq _ _).
  { destruct rest as [|id [|? ?]]; [done| |done]. destruct (lookup c id) as [p|]; [|done].
    pose proof (leads_count_fail_reports B p c) as L. destruct (count_fail_reports p c). by apply K. }
  destruct (beq (to_upper name) &"SET-CONFIG-EPOCH") eqn:Es.
  { destruct rest as [|e [|? ?]]; [done| |done]. apply K; [done|]. apply leads_set_config_epoch.
    intros v Hv. apply beq_eq in Es. specialize (He e [] v eq_refl Es Hv). lia. }
  destruct (_ && _).
  { pose proof (leads_bump_epoch B c HB) as L. destruct (bump_epoch_without_consensus c). by apply leads_advances. }
  destruct (_ && _); [|done].
  pose proof (leads_save B c) as L. destruct (save_config c) as [b c']. destruct b; by apply K.
Qed.

(** ** Routing *)

Lemma inert_holds key c : inert c (holds key c).2.
Proof. unfold holds. destruct (contains _ key (store_ c)) as [[found dels] d]. apply inert_on_repl. Qed.

Lemma inert_count_missing keys c : inert c (count_missing keys c).2.
Proof.
  unfold count_missing. generalize 0. revert c. induction keys as [|key keys IH]; intros c m; [apply inert_refl|].
  cbn [foldl]. pose proof (inert_holds key c) as I. destruct (holds key c) as [found c1].
  eapply inert_trans; [exact I|apply IH].
Qed.

Lemma inert_route keys write asking readonly c : inert c (route keys write asking readonly c).2.
Proof.
  unfold route. destruct keys as [|key rest]; [apply inert_refl|]. cbv zeta. destruct (negb _); [apply inert_refl|].
  destruct (negb _); [apply inert_refl|]. destruct (owner c _) as [o|]; [|apply inert_refl].
  set (s := if _ || _ then count_missing _ c else (0, c)).
  assert (I : inert c s.2) by (unfold s; destruct (_ || _); [apply inert_count_missing|apply inert_refl]).
  destruct s as [missing c1]. by repeat case_match.
Qed.

(** ** All events *)

Lemma advances_env B w n c : (forall ip, w_local_ip w = Some ip -> clean_ip ip) ->
  advances B B c (handle (ev_env w n) c).
Proof. intros Hip Hg. split; [|by split]. destruct Hg. split; try done; [by destruct gd_low0|by destruct gd_votes0]. Qed.

(** What may happen to a node among well-behaved nodes whose epochs are at most [E]. *)
Definition admissible (E : Z) (e : Event (DS := DS)) (c : cluster) : Prop :=
  match e with
  | ev_accept ip _ => clean_ip ip
  | ev_link l _ r => fine_read E l r c
  | ev_command _ _ args => modest E args
  | ev_env w _ => forall ip, w_local_ip w = Some ip -> clean_ip ip
  | ev_cron _ | ev_before_sleep _ | ev_route _ _ _ _ | ev_stall | ev_shutdown => True
  end.

(** How far an event may raise the bound on epochs and drawn ids. *)
Definition cost (e : Event (DS := DS)) (c : cluster) : Z :=
  match e with ev_link l _ r => 1 + rounds l r c | _ => 1 end.

Lemma cost_pos e c : 1 <= cost e c.
Proof. destruct e; cbn; try lia. pose proof (rounds_nonneg l r c). lia. Qed.

Lemma advances_handle B e c : B + cost e c <= M.uint64_max -> admissible B e c ->
  advances B (B + cost e c) c (handle e c).
Proof.
  intros HB He. destruct e as [ip w|l err r|fresh|fresh|fresh errno args|keys write asking readonly| | |w n];
    cbn [cost handle admissible] in *.
  - by apply leads_advances_more, leads_accept_link.
  - pose proof (rounds_nonneg l r c). destruct (links c !! l); [|apply advances_mono; lia].
    apply (advances_trans _ (B + rounds l r c) _ _ (on_link_event l err r c)).
    + apply (advances_on_link_event B B); [lia|done|done].
    + intros _ _. apply advances_mono. lia.
  - by apply advances_cron.
  - by apply advances_before_sleep.
  - by apply (advances_command B B).
  - apply leads_advances_more; [done|]. apply leads_inert, inert_route.
  - apply leads_advances_more; [done|]. apply leads_inert, inert_after_stall.
  - apply leads_advances_more; [done|]. apply leads_save.
  - eapply advances_trans; [by apply advances_env|intros _ _; apply advances_mono; lia].
Qed.

End events.
End ClusterEvents.
