(* ===== verification/ClusterRules.v ===== *)
(** * The rules of the cluster

    What the operations that decide do, on every input: who gets a slot two
    nodes claim, who gets a vote, what a promoted replica takes over, and which
    commands a node serves. *)

From Stdlib Require Import Lia.
From stdpp Require Import relations.
From S2P Require Import Prelude Resp Slots HashTable Store ClusterMsg Replication Cluster ClusterStore ClusterInv ClusterOps ClusterEvents.

Module ClusterRules.
Import Cluster ClusterInv ClusterOps ClusterEvents.

Lemma all_slots_once : NoDup all_slots.
Proof. apply NoDup_seqZ. Qed.

Section rules.
Context {DS : Type} `{SlotStore DS}.
Abbreviation cluster := (Cluster DS).

Implicit Types c : cluster.

#[local] Opaque all_slots.

(** ** Claims to slots *)

(** Who owns a slot after [from] claimed [slots] with epoch [e]: a claim wins
    over no owner and over an owner of a lower epoch, but not over an import. *)
Definition settled (from e : Z) (slots : SlotBitmap) (c : cluster) (slot : Z) : option Z :=
  if Z.testbit slots slot && bool_decide (importing_from c slot = None)
     && match owner c slot with None => true | Some o => n_config_epoch (peer c o) <? e end
  then Some from else owner c slot.

Lemma owner_set_slot slot o c s : owner (set_slot slot o c) s = if s =? slot then o else owner c s.
Proof. apply set_slot_owner. Qed.

Lemma epoch_set_slot slot o c p : n_config_epoch (peer (set_slot slot o c) p) = n_config_epoch (peer c p).
Proof.
  unfold peer. change (heap (table (set_slot slot o c))) with (heap (set_slot_in slot o (table c))).
  rewrite set_slot_heap. destruct (heap (table c) !! p) as [n|]; [|done]. apply reslot_epoch.
Qed.

Lemma importing_set_slot slot o c s : importing_from (set_slot slot o c) s = importing_from c s.
Proof.
  unfold importing_from. destruct (set_slot_rest slot o (table c)) as (_ & _ & _ & E).
  change (importing_from_ (table (set_slot slot o c))) with (importing_from_ (set_slot_in slot o (table c))). by rewrite E.
Qed.

Lemma role_set_slot slot o c p : (n_id (peer (set_slot slot o c) p), n_flags (peer (set_slot slot o c) p),
    n_master_id (peer (set_slot slot o c) p)) = (n_id (peer c p), n_flags (peer c p), n_master_id (peer c p)).
Proof.
  unfold peer. change (heap (table (set_slot slot o c))) with (heap (set_slot_in slot o (table c))).
  rewrite set_slot_heap. destruct (heap (table c) !! p) as [n|]; [|done]. cbn. unfold reslot. by do 2 case_bool_decide.
Qed.

Lemma flags_set_slot slot o c p : n_flags (peer (set_slot slot o c) p) = n_flags (peer c p).
Proof. pose proof (role_set_slot slot o c p). congruence. Qed.

(** What a contest does not change. *)
Record contest (c c' : cluster) : Prop := {
  ct_me : myself_ c' = myself_ c;
  ct_epoch : forall p, n_config_epoch (peer c' p) = n_config_epoch (peer c p);
  ct_importing : forall s, importing_from c' s = importing_from c s;
  ct_flags : forall p, n_flags (peer c' p) = n_flags (peer c p);
  ct_repl : repl c' = repl c;
}.

Lemma claim_slot_settles from e slots om c took dirty slot :
  let c' := (claim_slot from e slots om (c, took, dirty) slot).1.1 in
  contest c c' /\ forall s, owner c' s = if s =? slot then settled from e slots c s else owner c s.
Proof.
  cbv zeta. unfold claim_slot, settled.
  destruct (Z.testbit slots slot) eqn:Et; cbn [negb orb].
  2:{ cbn [fst]. split; [done|]. intros s. destruct (Z.eqb_spec s slot) as [->|]; [by rewrite Et|done]. }
  destruct (bool_decide_reflect (owner c slot = Some from)) as [Eo|Ho].
  { cbn [fst]. split; [done|]. intros s. destruct (Z.eqb_spec s slot) as [->|]; [|done]. rewrite Eo. by destruct (_ && _ && _). }
  destruct (importing_from c slot) as [q|] eqn:Ei.
  { rewrite bool_decide_eq_true_2 by done. cbn [fst]. split; [done|]. intros s.
    destruct (Z.eqb_spec s slot) as [->|]; [|done]. by rewrite Ei, Et, bool_decide_eq_false_2. }
  rewrite bool_decide_eq_false_2 by (intros F; by apply F).
  set (beaten := match owner c slot with None => true | Some o => n_config_epoch (peer c o) <? e end).
  destruct (negb beaten) eqn:Eb.
  { cbn [fst]. split; [done|]. intros s. destruct (Z.eqb_spec s slot) as [->|]; [|done]. fold beaten.
    apply negb_true_iff in Eb. by rewrite Eb, andb_false_r. }
  apply negb_false_iff in Eb. cbn [fst]. set (c1 := if bool_decide _ then todo_broadcast _ else c).
  assert (E1 : myself_ c1 = myself_ c /\ (forall s, owner c1 s = owner c s) /\ (forall p, peer c1 p = peer c p) /\
               (forall s, importing_from c1 s = importing_from c s) /\ repl c1 = repl c)
    by (unfold c1; by destruct (bool_decide _)).
  destruct E1 as (E1 & E2 & E3 & E4 & E5). clearbody c1. split.
  - split; [done|..].
    + intros p. change (n_config_epoch (peer (set_slot slot (Some from) c1) p) = n_config_epoch (peer c p)).
      by rewrite epoch_set_slot, E3.
    + intros s. change (importing_from (set_slot slot (Some from) c1) s = importing_from c s).
      by rewrite importing_set_slot, E4.
    + intros p. change (n_flags (peer (set_slot slot (Some from) c1) p) = n_flags (peer c p)).
      by rewrite flags_set_slot, E3.
    + exact E5.
  - intros s. change (owner (set_slot slot (Some from) c1) s =
      if s =? slot then if Z.testbit slots s && bool_decide (importing_from c s = None) &&
        match owner c s with None => true | Some o => n_config_epoch (peer c o) <? e end then Some from else owner c s else owner c s).
    rewrite owner_set_slot, E2. destruct (Z.eqb_spec s slot) as [->|]; [|done]. fold beaten. by rewrite Et, Ei, Eb.
Qed.

Lemma contest_trans c1 c2 c3 : contest c1 c2 -> contest c2 c3 -> contest c1 c3.
Proof. intros [] []. split; intros; congruence. Qed.

Lemma contest_settled from e slots c c' s : contest c c' -> owner c' s = owner c s ->
  settled from e slots c' s = settled from e slots c s.
Proof. intros [_ He Hi _ _] Ho. unfold settled. rewrite Ho, Hi. destruct (owner c s); [by rewrite He|done]. Qed.

Lemma settled_again from e slots c c' s : contest c c' -> owner c' s = settled from e slots c s ->
  settled from e slots c' s = settled from e slots c s.
Proof.
  intros [_ He Hi _ _] Ho. unfold settled in *. rewrite Hi, Ho. clear Ho.
  destruct (Z.testbit slots s && _); cbn [andb]; [|done].
  destruct (owner c s) as [o|]; [|by destruct (_ <? _)]. destruct (n_config_epoch (peer c o) <? e) eqn:E.
  - cbn. by destruct (n_config_epoch (peer c' from) <? e).
  - cbn. by rewrite He, E.
Qed.

Lemma claim_slots_settle from e slots om : forall l c took dirty,
  let c' := (foldl (claim_slot from e slots om) (c, took, dirty) l).1.1 in
  contest c c' /\ forall s, owner c' s = if bool_decide (s ∈ l) then settled from e slots c s else owner c s.
Proof.
  induction l as [|slot l IH]; intros c took dirty; cbv zeta.
  { split; [done|]. intros s. by rewrite bool_decide_eq_false_2 by apply not_elem_of_nil. }
  cbn [foldl]. destruct (claim_slot_settles from e slots om c took dirty slot) as [C1 O1]. cbv zeta in C1, O1.
  destruct (claim_slot from e slots om (c, took, dirty) slot) as [[c1 took1] dirty1]. cbn [fst] in C1, O1.
  destruct (IH c1 took1 dirty1) as [C2 O2]. cbv zeta in C2, O2. split; [by eapply contest_trans|]. intros s. rewrite O2, O1.
  destruct (decide (s = slot)) as [->|Hne].
  - rewrite Z.eqb_refl, (bool_decide_eq_true_2 (slot ∈ slot :: l)) by apply list_elem_of_here.
    destruct (bool_decide (slot ∈ l)); [|done]. apply settled_again; [done|]. by rewrite O1, Z.eqb_refl.
  - assert (Eb : bool_decide (s ∈ slot :: l) = bool_decide (s ∈ l)) by (apply bool_decide_ext; rewrite elem_of_cons; naive_solver).
    rewrite Eb. destruct (Z.eqb_spec s slot); [done|]. destruct (bool_decide (s ∈ l)); [|done].
    apply contest_settled; [done|]. rewrite O1. by destruct (Z.eqb_spec s slot).
Qed.

(** ** Becoming a replica, taking over *)

(** Rounds over the slots that change at most the slot they look at. *)
Lemma owner_foldl (f : cluster -> Z -> cluster) (P : cluster -> Prop) s (o : option Z) :
  (forall c slot, P c -> owner c s = o -> P (f c slot) /\ owner (f c slot) s = o) ->
  forall l c, P c -> owner c s = o -> P (foldl f c l) /\ owner (foldl f c l) s = o.
Proof.
  intros Hf l. induction l as [|slot l IH]; intros c Hc Ho; [done|]. cbn [foldl].
  destruct (Hf c slot Hc Ho) as [Hc1 Ho1]. by apply IH.
Qed.

Lemma inert_owner c c' s : inert c c' -> owner c' s = owner c s.
Proof. intros I. unfold owner. by rewrite (in_table _ _ I). Qed.

(** [set_as_replica_of] in two steps: the slots, and the new role. *)
Definition leave_slot (c : cluster) (slot : Z) : cluster :=
  let c := if bool_decide (owner c slot = Some (myself_ c)) then set_slot slot None c else c in
  set_importing slot None (set_migrating slot None c).

Definition obey (m : Z) (c : cluster) : cluster :=
  let c := on_peer (myself_ c) (fun n =>
             set_flags kReplica (clear_flags kMaster n) <| n_master_id := n_id (peer c m) |>) c in
  todo_broadcast (todo_save (follow_master c)).

Lemma set_as_replica_split m c : set_as_replica_of m c = obey m (foldl leave_slot (reset_manual_failover c) all_slots).
Proof. cbv beta delta [set_as_replica_of obey leave_slot]. reflexivity. Qed.

Lemma leave_slot_owner c c' s slot : owner c s <> Some (myself_ c) ->
  myself_ c' = myself_ c -> owner c' s = owner c s ->
  myself_ (leave_slot c' slot) = myself_ c /\ owner (leave_slot c' slot) s = owner c s.
Proof.
  intros Hs Hm Ho. unfold leave_slot. case_bool_decide as Hb; [|by split]. split; [exact Hm|].
  change (owner (set_slot slot None c') s = owner c s). rewrite owner_set_slot.
  destruct (Z.eqb_spec s slot) as [->|]; [congruence|exact Ho].
Qed.

Lemma obey_owner m c s : owner (obey m c) s = owner c s.
Proof.
  unfold obey. cbv zeta. set (c1 := on_peer _ _ c).
  change (owner (follow_master c1) s = owner c1 s). apply inert_owner, inert_follow_master.
Qed.

Lemma replica_keeps_owner m c s : owner c s <> Some (myself_ c) -> owner (set_as_replica_of m c) s = owner c s.
Proof.
  intros Hs. rewrite set_as_replica_split, obey_owner. pose proof (reset_manual_inert c) as I.
  apply (owner_foldl leave_slot (fun c' => myself_ c' = myself_ c) s (owner c s)).
  - intros c' slot. by apply leave_slot_owner.
  - apply (in_me _ _ I).
  - apply (inert_owner _ _ s I).
Qed.

Lemma owner_drop_slots l c s : owner (foldl drop_slot c l) s = owner c s.
Proof.
  apply (owner_foldl drop_slot (fun _ => True) s (owner c s)); [|done|done].
  intros c' slot _ E. split; [done|]. unfold drop_slot. by destruct (delete_slot slot (store_ c')).
Qed.

Lemma update_slots_settles from e slots c s : from <> myself_ c -> 0 <= s < kSlots ->
  settled from e slots c s <> Some (myself_ c) ->
  owner (update_slots_config_with from e slots c) s = settled from e slots c s.
Proof.
  intros Hf Hs Hm. unfold update_slots_config_with. rewrite bool_decide_eq_false_2 by done. cbv zeta.
  generalize (master_of c (myself_ c)). intros om. destruct (claim_slots_settle from e slots om all_slots c false []) as [C O].
  cbv zeta in C, O. destruct (foldl _ (c, false, []) all_slots) as [[c1 took] dirty]. cbn [fst] in C, O.
  specialize (O s). rewrite bool_decide_eq_true_2 in O by (by apply all_slots_range).
  assert (Hr : owner (set_as_replica_of from c1) s = settled from e slots c s).
  { rewrite <-O. apply replica_keeps_owner. by rewrite O, (ct_me _ _ C). }
  assert (Hd : owner (foldl drop_slot c1 dirty) s = settled from e slots c s) by (by rewrite owner_drop_slots).
  destruct om as [om|]; [|by destruct (is_ _ _)]. destruct (_ && _); [|by destruct (is_ _ _)].
  destruct (is_ _ _); [done|]. by destruct (negb _).
Qed.

Lemma claim_slot_dirty from e slots om c took dirty slot s : from <> myself_ c ->
  s ∈ (claim_slot from e slots om (c, took, dirty) slot).2 <->
  s ∈ dirty \/ (s = slot /\ owner c s = Some (myself_ c) /\ settled from e slots c s = Some from /\
                0 < count_keys_in_slot (store_ c) s).
Proof.
  intros Hne. unfold claim_slot, settled. destruct (Z.testbit slots slot) eqn:Et; cbn [negb orb snd].
  2:{ split; [auto|]. intros [?|(-> & Ho & Hs & _)]; [done|]. rewrite Et in Hs. cbn in Hs. congruence. }
  destruct (bool_decide_reflect (owner c slot = Some from)) as [Eo|Ho].
  { cbn [snd]. split; [auto|]. intros [?|(-> & Ho & _)]; [done|congruence]. }
  destruct (importing_from c slot) as [q|] eqn:Ei.
  { rewrite bool_decide_eq_true_2 by done. cbn [snd]. split; [auto|]. intros [?|(-> & Ho' & Hs & _)]; [done|].
    rewrite Ei, Et, bool_decide_eq_false_2 in Hs by done. cbn in Hs. congruence. }
  rewrite bool_decide_eq_false_2 by (intros F; by apply F).
  destruct (match owner c slot with None => true | Some o => n_config_epoch (peer c o) <? e end) eqn:Eb; cbn [negb snd].
  2:{ split; [auto|]. intros [?|(-> & Ho' & Hs & _)]; [done|]. rewrite Eb, andb_false_r in Hs. congruence. }
  case_bool_decide as Hm; cbn [andb].
  - destruct (Z.ltb_spec 0 (count_keys_in_slot (store_ c) slot)).
    + rewrite elem_of_app, list_elem_of_singleton. split; [|naive_solver]. intros [?| ->]; [auto|right].
      rewrite Et, Ei, Eb. done.
    + split; [auto|]. intros [?|(-> & _ & _ & ?)]; [done|lia].
  - split; [auto|]. intros [?|(-> & ? & _)]; done.
Qed.

(** A master keeps the slots that the claim does not win. *)
Lemma update_slots_keeps B from e slots c s : good B c -> member c from -> from <> myself_ c -> 0 <= s < kSlots ->
  is_ kMaster (myself c) = true -> settled from e slots c s = Some (myself_ c) ->
  owner (update_slots_config_with from e slots c) s = Some (myself_ c).
Proof.
  intros Hg Hf Hne Hs Hm Hset. unfold update_slots_config_with. rewrite bool_decide_eq_false_2 by done. cbv zeta.
  assert (Eom : master_of c (myself_ c) = Some (myself_ c)) by (unfold master_of; unfold myself in Hm; by rewrite Hm).
  rewrite Eom. destruct (claim_slots_settle from e slots (Some (myself_ c)) all_slots c false []) as [C O].
  destruct (leads_claim_slots B from e slots (Some (myself_ c)) all_slots c false []
              ltac:(intros slot; apply all_slots_range) Hf Hg) as [Hg1 _].
  cbv zeta in C, O. destruct (foldl _ (c, false, []) all_slots) as [[c1 took] dirty]. cbn [fst] in C, O, Hg1.
  specialize (O s). rewrite bool_decide_eq_true_2, Hset in O by (by apply all_slots_range).
  assert (Hn : (n_slots (peer c1 (myself_ c)) =? 0) = false).
  { apply Z.eqb_neq. intros E0. destruct (gd_me _ _ Hg1) as (n & En & _). rewrite (ct_me _ _ C) in En.
    pose proof (tb_slots _ _ (gd_table _ _ Hg1) _ _ s En ltac:(lia)) as Hb. rewrite (peer_lookup _ _ _ En) in E0.
    unfold owner in O. rewrite E0, Z.bits_0, O, bool_decide_eq_true_2 in Hb by done. done. }
  rewrite Hn, andb_false_r. cbv iota.
  destruct (is_ kMaster (myself c1)); [exact (eq_trans (owner_drop_slots dirty c1 s) O)|exact O].
Qed.

(** The lost slots that hold keys. *)
Lemma claim_slots_dirty from e slots om : forall l c took dirty s, from <> myself_ c -> NoDup l ->
  s ∈ (foldl (claim_slot from e slots om) (c, took, dirty) l).2 <->
  s ∈ dirty \/ (s ∈ l /\ owner c s = Some (myself_ c) /\ settled from e slots c s = Some from /\
                0 < count_keys_in_slot (store_ c) s).
Proof.
  induction l as [|slot l IH]; intros c took dirty s Hne Hnd.
  { cbn. split; [auto|]. intros [?|[?%elem_of_nil _]]; done. }
  apply list.NoDup_cons in Hnd as [Hslot Hnd]. cbn [foldl].
  destruct (claim_slot_settles from e slots om c took dirty slot) as [C1 O1]. cbv zeta in C1, O1.
  pose proof (claim_slot_dirty from e slots om c took dirty slot s Hne) as D1.
  destruct (claim_slot from e slots om (c, took, dirty) slot) as [[c1 took1] dirty1]. cbn [fst snd] in C1, O1, D1.
  rewrite IH by (done || by rewrite (ct_me _ _ C1)). rewrite D1, elem_of_cons, (ct_me _ _ C1). unfold store_.
  rewrite (ct_repl _ _ C1). specialize (O1 s). destruct (Z.eqb_spec s slot) as [->|Hs].
  - naive_solver.
  - rewrite O1, (contest_settled from e slots c c1 s C1 O1). naive_solver.
Qed.

(** Whether the claim took a slot of [m]. *)
Definition loses (m from e : Z) (slots : SlotBitmap) (c : cluster) (s : Z) : Prop :=
  owner c s = Some m /\ settled from e slots c s = Some from.

Lemma claim_slot_took from e slots m c took dirty slot : from <> m ->
  (claim_slot from e slots (Some m) (c, took, dirty) slot).1.2 = true <-> took = true \/ loses m from e slots c slot.
Proof.
  intros Hne. unfold claim_slot, loses, settled. destruct (Z.testbit slots slot) eqn:Et; cbn [negb orb fst snd].
  2:{ split; [auto|]. intros [?|[-> [= ?]]]; [done|congruence]. }
  destruct (bool_decide_reflect (owner c slot = Some from)) as [Eo|Ho].
  { cbn [fst snd]. split; [auto|]. intros [?|[? _]]; [done|congruence]. }
  destruct (importing_from c slot) as [q|] eqn:Ei.
  { rewrite bool_decide_eq_true_2 by done. cbn [fst snd]. split; [auto|]. intros [?|[Em Hs]]; [done|].
    rewrite bool_decide_eq_false_2 in Hs by done. cbn in Hs. congruence. }
  rewrite bool_decide_eq_false_2 by (intros F; by apply F). rewrite (bool_decide_eq_true_2 (@None Z = None)) by done. cbn [andb].
  destruct (match owner c slot with None => true | Some o => n_config_epoch (peer c o) <? e end) eqn:Eb; cbn [negb fst snd].
  2:{ split; [auto|]. intros [?|[? ?]]; [done|congruence]. }
  set (c1 := if bool_decide _ then todo_broadcast _ else c).
  assert (E1 : owner c1 slot = owner c slot) by (unfold c1; by destruct (bool_decide _)). rewrite E1.
  rewrite orb_true_iff, bool_decide_eq_true. naive_solver.
Qed.

Lemma contest_loses m from e slots c c' s : contest c c' -> owner c' s = owner c s ->
  loses m from e slots c' s <-> loses m from e slots c s.
Proof. intros C E. unfold loses. by rewrite E, (contest_settled from e slots c c' s C E). Qed.

Lemma claim_slots_took from e slots m : forall l c took dirty, from <> m -> NoDup l ->
  (foldl (claim_slot from e slots (Some m)) (c, took, dirty) l).1.2 = true <->
  took = true \/ exists s, s ∈ l /\ loses m from e slots c s.
Proof.
  induction l as [|slot l IH]; intros c took dirty Hne Hnd.
  { cbn. split; [auto|]. intros [?|(s & ?%elem_of_nil & _)]; done. }
  apply list.NoDup_cons in Hnd as [Hslot Hnd]. cbn [foldl].
  destruct (claim_slot_settles from e slots (Some m) c took dirty slot) as [C1 O1]. cbv zeta in C1, O1.
  pose proof (claim_slot_took from e slots m c took dirty slot Hne) as T1.
  destruct (claim_slot from e slots (Some m) (c, took, dirty) slot) as [[c1 took1] dirty1]. cbn [fst snd] in C1, O1, T1.
  rewrite IH by done. rewrite T1.
  assert (K : forall s, s ∈ l -> loses m from e slots c1 s <-> loses m from e slots c s).
  { intros s Hs. apply contest_loses; [done|]. rewrite O1. destruct (Z.eqb_spec s slot) as [->|]; done. }
  split.
  - intros [[?|?]|(s & Hs & ?)]; [auto|right; exists slot; split; [apply list_elem_of_here|done]|].
    right. exists s. split; [by apply list_elem_of_further|by apply K].
  - intros [?|(s & [->|Hs]%elem_of_cons & ?)]; [auto..|]. right. exists s. split; [done|by apply K].
Qed.

(** ** The new role *)

Lemma is_set_flag i n : 0 <= i -> is_ (2 ^ i) (set_flags (2 ^ i) n) = true.
Proof.
  intros Hi. unfold is_, set_flags. cbn. apply negb_true_iff, Z.eqb_neq. intros F.
  assert (B := f_equal (fun z => Z.testbit z i) F). cbn beta in B.
  rewrite Z.land_spec, Z.lor_spec, Z.bits_0, Z.pow2_bits_true, orb_true_r in B by done. done.
Qed.

Lemma is_not_master n : is_ kMaster (set_flags kReplica (clear_flags kMaster n)) = false.
Proof.
  unfold is_. cbn. apply negb_false_iff, Z.eqb_eq. apply Z.bits_inj'. intros i Hi.
  rewrite Z.land_spec, Z.lor_spec, Z.ldiff_spec, Z.bits_0.
  assert (D : Z.testbit kReplica i && Z.testbit kMaster i = false) by (rewrite <-Z.land_spec; apply Z.bits_0).
  destruct (Z.testbit (n_flags n) i), (Z.testbit kMaster i), (Z.testbit kReplica i); done.
Qed.

(** A replica of the node with this id. *)
Record follows (id : bytes) (c : cluster) : Prop := {
  fo_replica : is_ kReplica (myself c) = true;
  fo_master : is_ kMaster (myself c) = false;
  fo_id : n_master_id (myself c) = id;
}.

Lemma obey_follows m c : live c (myself_ c) -> follows (n_id (peer c m)) (obey m c).
Proof.
  intros [n E]. unfold obey. cbv zeta. set (id := n_id (peer c m)). set (c1 := on_peer _ _ c).
  pose proof (inert_follow_master c1) as I. set (c2 := todo_broadcast _).
  assert (Em : myself c2 = set_flags kReplica (clear_flags kMaster n) <| n_master_id := id |>).
  { change (myself c2) with (myself (follow_master c1)). unfold myself, peer. rewrite (in_table _ _ I), (in_me _ _ I). unfold c1. cbn. by rewrite lookup_alter_eq, E. }
  split; rewrite Em; [|apply (is_not_master n)|done]. exact (is_set_flag 2 (clear_flags kMaster n) ltac:(lia)).
Qed.

Lemma leads_leave_slot B c slot : 0 <= slot < kSlots -> leads B B [] c (leave_slot c slot).
Proof.
  intros Hs. unfold leave_slot. cbv zeta. set (c1 := if bool_decide _ then set_slot slot None c else c).
  apply (leads_seq _ B _ _ _ c1); [unfold c1; apply leads_if; [by apply leads_set_slot|apply leads_refl]|intros _ _].
  apply (leads_seq _ B _ _ _ (set_migrating slot None c1)); [by apply leads_set_migrating|intros _ _].
  by apply leads_set_importing.
Qed.

Lemma becomes_replica B m c : good B c -> member c m -> follows (n_id (peer c m)) (set_as_replica_of m c).
Proof.
  intros Hg (n & En & Hn). rewrite set_as_replica_split.
  assert (L : leads B B [] c (foldl leave_slot (reset_manual_failover c) all_slots)).
  { apply (leads_seq _ B _ _ _ (reset_manual_failover c)); [apply leads_inert, reset_manual_inert|intros _ _].
    apply leads_foldl_in. intros c' slot Hs _ _. apply leads_leave_slot. by apply all_slots_range. }
  destruct (L Hg) as [Hg' G]. revert Hg' G. generalize (foldl leave_slot (reset_manual_failover c) all_slots). intros c' Hg' G.
  destruct (gr_node _ _ _ G m n ltac:(apply not_elem_of_nil) En) as (n' & En' & _ & Hid). destruct (Hid Hn) as [_ Eid].
  rewrite (peer_lookup _ _ _ En), <-Eid, <-(peer_lookup _ _ _ En'). by apply obey_follows, (good_me_live B).
Qed.

(** A node without slots owns none. *)
Lemma no_slots B c p : good B c -> live c p -> n_slots (peer c p) = 0 <-> forall s, 0 <= s < kSlots -> owner c s <> Some p.
Proof.
  intros Hg [n En]. rewrite (peer_lookup _ _ _ En). pose proof (gd_table _ _ Hg) as T. split.
  - intros E s [Hs _] Ho. pose proof (tb_slots _ _ T p n s En Hs) as Hb. rewrite E, Z.bits_0 in Hb.
    by apply (bool_decide_eq_false_1 (owner c s = Some p)).
  - intros Hn. apply Z.bits_inj'. intros s Hs. rewrite (tb_slots _ _ T p n s En Hs), Z.bits_0.
    apply bool_decide_eq_false_2. intros Ho. destruct (tb_refs _ _ T s p (or_introl Ho)) as [Hr _]. by apply (Hn s).
Qed.

(** What a master does when it loses slots: having lost the last one it follows
    the winner, or else it stays a master and deletes the keys of the slots it
    lost. *)
Lemma update_slots_outcome B from e slots c : good B c -> member c from -> from <> myself_ c -> is_ kMaster (myself c) = true ->
  let c' := update_slots_config_with from e slots c in
  let last_lost := (exists s, 0 <= s < kSlots /\ loses (myself_ c) from e slots c s) /\
                   (forall s, 0 <= s < kSlots -> settled from e slots c s <> Some (myself_ c)) in
  (last_lost /\ follows (n_id (peer c from)) c') \/
  (~ last_lost /\ is_ kMaster (myself c') = true /\ exists c1 dirty, contest c c1 /\ c' = foldl drop_slot c1 dirty /\
    forall s, s ∈ dirty <-> 0 <= s < kSlots /\ owner c s = Some (myself_ c) /\ settled from e slots c s = Some from /\
                            0 < count_keys_in_slot (store_ c) s).
Proof.
  intros Hg Hf Hne Hm. cbv zeta. unfold update_slots_config_with. rewrite bool_decide_eq_false_2 by done. cbv zeta.
  assert (Eom : master_of c (myself_ c) = Some (myself_ c)) by (unfold master_of; unfold myself in Hm; by rewrite Hm).
  rewrite Eom. destruct (claim_slots_settle from e slots (Some (myself_ c)) all_slots c false []) as [C O].
  destruct (leads_claim_slots B from e slots (Some (myself_ c)) all_slots c false []
              ltac:(intros slot; apply all_slots_range) Hf Hg) as [Hg1 G].
  pose proof (fun s => claim_slots_dirty from e slots (Some (myself_ c)) all_slots c false [] s Hne all_slots_once) as D.
  pose proof (claim_slots_took from e slots (myself_ c) all_slots c false [] Hne all_slots_once) as T.
  cbv zeta in C, O. destruct (foldl _ (c, false, []) all_slots) as [[c1 took] dirty]. cbn [fst snd] in C, O, D, T, Hg1, G.
  assert (Hm1 : is_ kMaster (myself c1) = true).
  { unfold is_, myself. rewrite (ct_me _ _ C), (ct_flags _ _ C). exact Hm. }
  assert (L : took && (n_slots (peer c1 (myself_ c)) =? 0) = true <->
    (exists s, 0 <= s < kSlots /\ loses (myself_ c) from e slots c s) /\
    (forall s, 0 <= s < kSlots -> settled from e slots c s <> Some (myself_ c))).
  { rewrite andb_true_iff, Z.eqb_eq, T. rewrite (no_slots B) by (done || rewrite <-(ct_me _ _ C); by apply (good_me_live B)).
    setoid_rewrite all_slots_range. assert (K : forall s, 0 <= s < kSlots -> owner c1 s = settled from e slots c s).
    { intros s Hs. rewrite O, bool_decide_eq_true_2; [done|by apply all_slots_range]. }
    split; intros [A N]; (split; [naive_solver|]); intros s Hs; specialize (N s Hs); [by rewrite <-K|by rewrite K]. }
  rewrite Hm1. destruct (took && _); [left|right].
  - split; [by apply L|]. pose proof (grows_member _ _ _ from G ltac:(apply not_elem_of_nil) Hf) as Hf1.
    destruct Hf as (n & En & Hn). destruct (gr_node _ _ _ G from n ltac:(apply not_elem_of_nil) En) as (n' & En' & _ & Hid).
    destruct (Hid Hn) as [_ Eid]. rewrite (peer_lookup _ _ _ En), <-Eid, <-(peer_lookup _ _ _ En'). by apply (becomes_replica B).
  - split; [by intros ?%L|]. split.
    + clear -Hm1. revert c1 Hm1. induction dirty as [|s dirty IH]; intros c1 Hm1; [done|]. cbn [foldl]. apply IH.
      unfold drop_slot. by destruct (delete_slot s (store_ c1)).
    + exists c1, dirty. split; [done|]. split; [done|]. intros s. rewrite D, all_slots_range, elem_of_nil. naive_solver.
Qed.

(** What [hand_over] leaves. *)
Lemma hand_over_owner p to c s : (forall q, to = Some q -> q <> p) -> 0 <= s < kSlots ->
  owner (hand_over p to c) s = if bool_decide (owner c s = Some p) then to else owner c s.
Proof.
  intros Hto Hs. unfold hand_over.
  assert (K : forall l c, owner (foldl (fun c slot => if bool_decide (owner c slot = Some p) then set_slot slot to c else c) c l) s =
    if bool_decide (s ∈ l) && bool_decide (owner c s = Some p) then to else owner c s).
  { induction l as [|slot l IH]; intros c'; [by rewrite bool_decide_eq_false_2 by apply not_elem_of_nil|].
    cbn [foldl]. rewrite IH. set (c1 := if bool_decide (owner c' slot = Some p) then _ else c').
    assert (E1 : owner c1 s = if bool_decide (s = slot) && bool_decide (owner c' s = Some p) then to else owner c' s).
    { unfold c1. destruct (bool_decide_reflect (owner c' slot = Some p)) as [Ho|Ho]; [rewrite owner_set_slot; destruct (Z.eqb_spec s slot) as [->|]|].
      - by rewrite !bool_decide_eq_true_2.
      - by rewrite bool_decide_eq_false_2.
      - destruct (bool_decide_reflect (s = slot)) as [Hq|]; [subst slot; by rewrite bool_decide_eq_false_2|done]. }
    rewrite E1. assert (Eb : bool_decide (s ∈ slot :: l) = bool_decide (s = slot) || bool_decide (s ∈ l)).
    { destruct (bool_decide_reflect (s = slot)), (bool_decide_reflect (s ∈ l)); cbn;
        (apply bool_decide_eq_true_2 || apply bool_decide_eq_false_2); rewrite elem_of_cons; naive_solver. }
    rewrite Eb. destruct (bool_decide (s = slot)), (bool_decide_reflect (owner c' s = Some p)) as [Ho|Ho]; cbn.
    - destruct (bool_decide (s ∈ l)); [|done]. cbn. rewrite bool_decide_eq_false_2; [done|]. intros E. by apply (Hto p).
    - rewrite (bool_decide_eq_false_2 (owner c' s = Some p)) by done. by rewrite andb_false_r.
    - by rewrite (bool_decide_eq_true_2 (owner c' s = Some p)).
    - rewrite (bool_decide_eq_false_2 (owner c' s = Some p)) by done. by rewrite andb_false_r. }
  rewrite K, bool_decide_eq_true_2 by (by apply all_slots_range). done.
Qed.

(** ** Sending changes no role and no slot *)

Definition role (n : Peer) : bytes * Z * bytes * SlotBitmap := (n_id n, n_flags n, n_master_id n, n_slots n).

Record still (c c' : cluster) : Prop := {
  sl_me : myself_ c' = myself_ c;
  sl_owner : owner_ (table c') = owner_ (table c);
  sl_role : forall p, role (peer c' p) = role (peer c p);
}.

Lemma still_refl c : still c c.
Proof. by split. Qed.

Lemma still_trans c1 c2 c3 : still c1 c2 -> still c2 c3 -> still c1 c3.
Proof. intros [A1 A2 A3] [B1 B2 B3]. split; intros; congruence. Qed.

Lemma still_inert c c' : inert c c' -> still c c'.
Proof. intros I. split; [apply I|by rewrite (in_table _ _ I)|]. intros p. unfold peer. by rewrite (in_table _ _ I). Qed.

Lemma still_on_peer q f c : (forall n, role (f n) = role n) -> still c (on_peer q f c).
Proof.
  intros Hf. split; [done|done|]. intros p. unfold peer. cbn. rewrite alter_lookup_if.
  destruct (heap (table c) !! p) as [n|]; [|done]. cbn. by destruct (bool_decide _).
Qed.

Lemma still_foldl {A} (f : cluster -> A -> cluster) l : (forall c x, still c (f c x)) -> forall c, still c (foldl f c l).
Proof.
  intros Hf. induction l as [|x l IH]; intros c; [apply still_refl|]. eapply still_trans; [apply Hf|apply IH].
Qed.

Lemma still_free_link l c : still c (free_link l c).
Proof.
  unfold free_link. destruct (dead _); [apply still_refl|]. cbv zeta. set (c1 := match l_node _ with Some _ => _ | None => c end).
  apply (still_trans _ c1); [|by split]. unfold c1. destruct (l_node _) as [p|]; [|apply still_refl].
  destruct (bool_decide _); [by apply still_on_peer|apply still_refl].
Qed.

Lemma still_flush_link l c : still c (flush_link l c).
Proof.
  unfold flush_link. destruct (l_out _); [by split|]. pose proof (next_send_inert c) as I. destruct (next_send c) as [o c1].
  eapply still_trans; [by apply still_inert|]. destruct o; [by split|by split|apply still_free_link].
Qed.

Lemma still_send l msg c : still c (send l msg c).
Proof.
  rewrite send_unfold. cbv zeta. destruct (dead _); [apply still_refl|].
  set (c1 := post _ (on_link l _ c)). apply (still_trans _ c1); [by split|].
  destruct (_ <? _); [apply still_free_link|]. destruct (negb _); [apply still_flush_link|apply still_refl].
Qed.

Lemma still_broadcast_pong c : still c (broadcast_pong c).
Proof.
  unfold broadcast_pong. apply still_foldl. intros c' p. destruct (usable c' p) as [l|]; [|apply still_refl].
  unfold send_ping. eapply still_trans; [|apply still_send]. destruct (l_node _) as [q|]; [|apply still_refl].
  destruct (_ && _); [by apply still_on_peer|apply still_refl].
Qed.

Lemma still_save c : still c (save_config c).2.
Proof.
  destruct (save_config_rest c) as (Et & Em & _). split; [done|by rewrite Et|]. intros p. unfold peer. by rewrite Et.
Qed.

(** ** Promotion *)

(** [failover_replace_master] after the promotion of the node itself. *)
Definition announce (c : cluster) : cluster :=
  cant_failover [] (reset_manual_failover (broadcast_pong (save_config (update_state c)).2)).

Lemma still_announce c : still c (announce c).
Proof.
  unfold announce. eapply still_trans; [apply still_inert, inert_update_state|].
  eapply still_trans; [apply still_save|]. eapply still_trans; [apply still_broadcast_pong|].
  eapply still_trans; [apply still_inert, reset_manual_inert|]. apply still_inert, inert_cant_failover.
Qed.

Lemma failover_split fresh c : failover_replace_master fresh c =
  match lookup c (n_master_id (myself c)) with
  | None => c
  | Some old =>
      if is_ kMaster (myself c) then c
      else let c1 := on_repl (R.replicaof_no_one fresh) (set_node_as_master (myself_ c) c) in
           announce (hand_over old (Some (myself_ c1)) c1)
  end.
Proof. cbv beta delta [failover_replace_master announce]. reflexivity. Qed.

Lemma hand_over_flags p to c q : n_flags (peer (hand_over p to c) q) = n_flags (peer c q) /\
  n_master_id (peer (hand_over p to c) q) = n_master_id (peer c q) /\ myself_ (hand_over p to c) = myself_ c.
Proof.
  unfold hand_over. generalize all_slots. intros l. revert c.
  induction l as [|slot l IH]; intros c; [done|]. cbn [foldl].
  set (c1 := if bool_decide (owner c slot = Some p) then set_slot slot to c else c).
  assert (E : n_flags (peer c1 q) = n_flags (peer c q) /\ n_master_id (peer c1 q) = n_master_id (peer c q) /\ myself_ c1 = myself_ c).
  { unfold c1. destruct (bool_decide _); [|done]. pose proof (role_set_slot slot to c q) as R.
    injection R as _ -> ->. done. }
  destruct E as (<- & <- & <-). apply IH.
Qed.

(** What a promoted replica is, and what it owns. *)
Lemma promotion fresh c old : lookup c (n_master_id (myself c)) = Some old -> is_ kMaster (myself c) = false ->
  live c (myself_ c) -> old <> myself_ c ->
  let c' := failover_replace_master fresh c in
  (forall s, 0 <= s < kSlots ->
     owner c' s = if bool_decide (owner c s = Some old) then Some (myself_ c) else owner c s) /\
  is_ kMaster (myself c') = true /\ is_ kReplica (myself c') = false /\ n_master_id (myself c') = [] /\
  myself_ c' = myself_ c.
Proof.
  intros Hl Hm [n En] Hold. cbv zeta. rewrite failover_split, Hl, Hm. cbv zeta.
  set (c1 := on_repl (R.replicaof_no_one fresh) (set_node_as_master (myself_ c) c)).
  assert (E1 : heap (table c1) !! myself_ c = Some (set_flags kMaster (clear_flags kReplica n) <| n_master_id := [] |>)).
  { unfold c1. cbn. by rewrite lookup_alter_eq, En. }
  assert (Em : myself_ c1 = myself_ c) by done. assert (Eo : forall s, owner c1 s = owner c s) by done. clearbody c1.
  pose proof (still_announce (hand_over old (Some (myself_ c1)) c1)) as [S1 S2 S3].
  destruct (hand_over_flags old (Some (myself_ c1)) c1 (myself_ c)) as (H1 & H2 & H3).
  pose proof (fun s Hs => hand_over_owner old (Some (myself_ c1)) c1 s ltac:(intros q [= <-]; congruence) Hs) as H4.
  revert S1 S2 S3 H1 H2 H3 H4. generalize (hand_over old (Some (myself_ c1)) c1). intros c2 S1 S2 S3 H1 H2 H3 H4.
  generalize dependent (announce c2). intros c3 S1 S2 S3. rewrite (peer_lookup _ _ _ E1) in H1, H2. cbn in H1, H2.
  assert (Er : n_flags (myself c3) = n_flags (peer c2 (myself_ c)) /\ n_master_id (myself c3) = n_master_id (peer c2 (myself_ c))).
  { unfold myself. rewrite S1, H3, Em. pose proof (S3 (myself_ c)) as R. unfold role in R. by injection R as _ -> -> _. }
  destruct Er as [Ef Ei]. split_and!.
  - intros s Hs. unfold owner at 1. rewrite S2. fold (owner c2 s). rewrite (H4 s Hs), Eo, Em. done.
  - unfold is_. rewrite Ef, H1. apply negb_true_iff, Z.eqb_neq. intros F.
    assert (B := f_equal (fun z => Z.testbit z 1) F). cbn beta in B. rewrite Z.land_spec, Z.lor_spec, Z.bits_0 in B.
    change (Z.testbit kMaster 1) with true in B. by rewrite orb_true_r in B.
  - unfold is_. rewrite Ef, H1. apply negb_false_iff, Z.eqb_eq. apply Z.bits_inj'. intros i Hi.
    rewrite Z.land_spec, Z.lor_spec, Z.ldiff_spec, Z.bits_0.
    assert (D : Z.testbit kMaster i && Z.testbit kReplica i = false) by (rewrite <-Z.land_spec; apply Z.bits_0).
    destruct (Z.testbit (n_flags n) i), (Z.testbit kMaster i), (Z.testbit kReplica i); done.
  - by rewrite Ei, H2.
  - congruence.
Qed.

(** ** The quorum of a failure *)

Lemma still_broadcast msg c : still c (broadcast msg c).
Proof.
  unfold broadcast. apply still_foldl. intros c' p. destruct (bool_decide _); [apply still_refl|].
  destruct (usable c' p); [apply still_send|apply still_refl].
Qed.

Lemma still_is flag c c' p : still c c' -> is_ flag (peer c' p) = is_ flag (peer c p).
Proof. intros S. pose proof (sl_role _ _ S p) as R. unfold role in R. unfold is_. by injection R as _ -> _ _. Qed.

Lemma still_size c c' : still c c' -> nodes_ (table c') = nodes_ (table c) -> cluster_size c' = cluster_size c.
Proof.
  intros S En. unfold cluster_size, node_ptrs. rewrite En. f_equal. apply List.filter_ext. intros p.
  pose proof (sl_role _ _ S p) as R. unfold role in R. unfold serving, is_. by injection R as _ -> _ ->.
Qed.

(** The reports that [p] is failing that are still valid once [from] has made its. *)
Definition reports_with (from p : Z) (c : cluster) : gmap bytes Z :=
  filter (fun '(_, t) => now c - t <= node_timeout (options_ c) * kFailReportValidityMult)
    (<[n_id (peer c from) := now c]> (n_fail_reports (peer c p))).

Lemma mark_if_quorum p c : live c p -> is_ kPFail (peer c p) = true -> is_ kFail (peer c p) = false ->
  let valid := filter (fun '(_, t) => now c - t <= node_timeout (options_ c) * kFailReportValidityMult) (n_fail_reports (peer c p)) in
  is_ kFail (peer (mark_node_as_failing_if_needed p c) p) = true <->
  cluster_size c / 2 + 1 <= Z.of_nat (size valid) + (if is_ kMaster (myself c) then 1 else 0).
Proof.
  intros [n En] Hp Hf. cbv zeta. unfold mark_node_as_failing_if_needed, count_fail_reports. rewrite Hp, Hf. cbn [negb orb].
  cbv zeta. set (c1 := on_peer p _ c). assert (S : still c c1) by by apply still_on_peer.
  assert (Er : n_fail_reports (peer c1 p) =
    filter (fun '(_, t) => now c - t <= node_timeout (options_ c) * kFailReportValidityMult) (n_fail_reports (peer c p))).
  { unfold c1, peer. cbn. by rewrite lookup_alter_eq, En. }
  assert (E1 : heap (table c1) !! p = Some (peer c1 p)).
  { unfold c1, peer. cbn. by rewrite lookup_alter_eq, En. }
  rewrite Er. unfold needed_quorum. rewrite (still_size c c1 S eq_refl).
  assert (Em : is_ kMaster (myself c1) = is_ kMaster (myself c)) by (unfold myself; rewrite (sl_me _ _ S); by apply still_is).
  rewrite Em. clearbody c1. destruct (Z.ltb_spec (Z.of_nat (size (filter (fun '(_, t) => now c - t <= node_timeout (options_ c) * kFailReportValidityMult)
    (n_fail_reports (peer c p)))) + (if is_ kMaster (myself c) then 1 else 0)) (cluster_size c / 2 + 1)) as [Hlt|Hge].
  - rewrite (still_is kFail c c1 p S), Hf. split; [done|lia].
  - split; [done|intros _]. set (c2 := on_peer p _ c1).
    change (is_ kFail (peer (broadcast (M.with_fail (header M.kFail c2) (n_id (peer c2 p))) c2) p) = true).
    rewrite (still_is _ _ _ _ (still_broadcast _ c2)). unfold c2, peer at 1. cbn. rewrite lookup_alter_eq, E1.
    exact (is_set_flag 7 (clear_flags kPFail (peer c1 p)) ltac:(lia)).
Qed.

Lemma failure_quorum from c g p : lookup c (M.g_id g) = Some p -> M.g_id g <> n_id (myself c) -> live c p ->
  is_ kMaster (peer c from) = true -> is_ kHandshake (peer c p) = false -> M.g_pfail g || M.g_fail g = true ->
  is_ kPFail (peer c p) = true -> is_ kFail (peer c p) = false ->
  is_ kFail (peer (process_gossip_entry from c g) p) = true <->
  cluster_size c / 2 + 1 <= Z.of_nat (size (reports_with from p c)) + (if is_ kMaster (myself c) then 1 else 0).
Proof.
  intros Hl Hid [n En] Hm Hh Hg Hp Hf. unfold process_gossip_entry.
  destruct (beq (M.g_id g) (n_id (myself c))) eqn:Eb; [by apply beq_eq in Eb|]. rewrite Hl, Hm, Hh, Hg. cbn [negb andb]. cbv zeta.
  set (c1 := on_peer p _ c). assert (S : still c c1) by by apply still_on_peer.
  assert (Er : n_fail_reports (peer c1 p) = <[n_id (peer c from) := now c]> (n_fail_reports (peer c p))).
  { unfold c1, peer at 1. cbn. by rewrite lookup_alter_eq, (peer_lookup _ _ _ En), En. }
  assert (E1 : live c1 p) by (exists (n <| n_fail_reports := <[n_id (peer c from) := now c]> (n_fail_reports n) |>);
    unfold c1; cbn; by rewrite lookup_alter_eq, En).
  rewrite (mark_if_quorum p c1 E1) by (rewrite (still_is _ _ _ _ S); done). cbv zeta. unfold reports_with. rewrite Er.
  rewrite (still_size c c1 S eq_refl). unfold myself. rewrite (sl_me _ _ S), (still_is _ _ _ _ S). done.
Qed.

(** ** Votes *)

(** What a request for a vote must meet. *)
Record earns (requester : Z) (request : Message) (c : cluster) (m : Z) : Prop := {
  en_voter : is_ kReplica (myself c) = false /\ n_slots (myself c) <> 0;
  en_epoch : current_epoch_ c <= M.current_epoch request;
  en_first : last_vote_epoch_ c <> current_epoch_ c;
  en_replica : is_ kReplica (peer c requester) = true /\ lookup c (n_master_id (peer c requester)) = Some m;
  en_failed : is_ kFail (peer c m) = true \/ Z.land (M.mflags request) M.kMsgForceAck <> 0;
  en_late : n_voted_time (peer c m) = 0 \/ node_timeout (options_ c) * 2 <= now c - n_voted_time (peer c m);
  en_slots : forall slot o, 0 <= slot < kSlots -> Z.testbit (M.slots request) slot = true -> owner c slot = Some o ->
               n_config_epoch (peer c o) <= M.config_epoch request;
}.

Definition left_on_disk (c : cluster) : option bytes * list (option bytes) := (disk c, unsynced c).

Lemma free_link_posted l c : posted (free_link l c) = posted c /\ left_on_disk (free_link l c) = left_on_disk c.
Proof. unfold free_link. by repeat case_match. Qed.

Lemma flush_link_posted l c : posted (flush_link l c) = posted c /\ left_on_disk (flush_link l c) = left_on_disk c.
Proof.
  unfold flush_link. destruct (l_out _); [done|]. unfold next_send.
  destruct (w_sends (world c)) as [|[| |] os]; try done. by rewrite !(proj1 (free_link_posted l _)), (proj2 (free_link_posted l _)).
Qed.

Lemma send_posted l msg c : left_on_disk (send l msg c) = left_on_disk c /\
  posted (send l msg c) = posted c ++ if dead (link_of c l) then [] else [(l_node (link_of c l), msg)].
Proof.
  rewrite send_unfold. cbv zeta. destruct (dead _); [by rewrite app_nil_r|]. set (c1 := post _ (on_link l _ c)).
  assert (E : posted c1 = posted c ++ [(l_node (link_of c l), msg)] /\ left_on_disk c1 = left_on_disk c) by done.
  destruct E as [<- <-].
  destruct (_ <? _); [by destruct (free_link_posted l c1) as [-> ->]|].
  destruct (negb _); [by destruct (flush_link_posted l c1) as [-> ->]|done].
Qed.

Lemma claims_newer_false request c : claims_newer_slot request c = false <-> forall slot o, 0 <= slot < kSlots ->
  Z.testbit (M.slots request) slot = true -> owner c slot = Some o -> n_config_epoch (peer c o) <= M.config_epoch request.
Proof.
  unfold claims_newer_slot. rewrite <-not_true_iff_false, existsb_exists. split.
  - intros Hf slot o Hs Ht Ho.
    destruct (Z.le_gt_cases (n_config_epoch (peer c o)) (M.config_epoch request)) as [|Hlt]; [done|].
    exfalso. apply Hf. exists slot. split; [by apply list_elem_of_In, all_slots_range|]. rewrite Ht, Ho. by apply Z.ltb_lt.
  - intros Hle (slot & Hs%list_elem_of_In%all_slots_range & [Ht Ho]%andb_true_iff).
    destruct (owner c slot) as [o|] eqn:Eo; [|done]. apply Z.ltb_lt in Ho. specialize (Hle slot o Hs Ht Eo). lia.
Qed.

(** What the code does for a request that earns a vote. *)
Definition cast_vote (requester m : Z) (c : cluster) : cluster :=
  let '(ok, c) := save_config (on_peer m (fun n => n <| n_voted_time := now c |>) (c <| last_vote_epoch_ := current_epoch_ c |>)) in
  if negb ok then c <| last_vote_epoch_ := 0 |>
  else match n_link (peer c requester) with
       | Some l => if connecting (link_of c l) then c else send l (header M.kFailoverAuthAck c) c
       | None => c
       end.

Lemma vote_guards requester request c :
  let c' := send_failover_auth_if_needed requester request c in
  (exists m, earns requester request c m /\ c' = cast_vote requester m c) \/
  ((forall m, ~ earns requester request c m) /\ c' = c).
Proof.
  cbv zeta. unfold send_failover_auth_if_needed.
  destruct (is_ kReplica (myself c) || (n_slots (myself c) =? 0)) eqn:E1.
  { right. split; [|done]. intros m [[V1 V2] _ _ _ _ _ _]. rewrite V1 in E1. cbn in E1. by apply Z.eqb_eq in E1. }
  apply orb_false_iff in E1 as [E1 E1'%Z.eqb_neq].
  destruct (Z.ltb_spec (M.current_epoch request) (current_epoch_ c)) as [|E2].
  { right. split; [|done]. intros m []. lia. }
  destruct (Z.eqb_spec (last_vote_epoch_ c) (current_epoch_ c)) as [|E3].
  { right. split; [|done]. by intros m []. }
  destruct (is_ kReplica (peer c requester)) eqn:E4.
  2:{ right. split; [|done]. intros m [_ _ _ [? _] _ _ _]. congruence. }
  destruct (lookup c (n_master_id (peer c requester))) as [m|] eqn:E5.
  2:{ right. split; [|done]. intros m [_ _ _ [_ ?] _ _ _]. congruence. }
  cbv zeta. assert (U : forall m', earns requester request c m' -> m' = m) by (intros m' [_ _ _ [_ ?] _ _ _]; congruence).
  destruct (negb (is_ kFail (peer c m)) && _) eqn:E6.
  { right. split; [|done]. intros m' F. pose proof (U m' F) as ->. destruct (en_failed _ _ _ _ F) as [Hf|Hf].
    - by rewrite Hf in E6.
    - apply Z.eqb_neq in Hf. by rewrite Hf, andb_false_r in E6. }
  destruct (negb (n_voted_time (peer c m) =? 0) && _) eqn:E7.
  { right. split; [|done]. intros m' F. pose proof (U m' F) as ->. apply andb_true_iff in E7 as [V%negb_true_iff%Z.eqb_neq L%Z.ltb_lt].
    destruct (en_late _ _ _ _ F); [done|lia]. }
  destruct (claims_newer_slot request c) eqn:E8.
  { right. split; [|done]. intros m' F. pose proof (proj2 (claims_newer_false request c) (en_slots _ _ _ _ F)). congruence. }
  left. exists m. split; [|reflexivity]. split; try done.
  - apply andb_false_iff in E6 as [?%negb_false_iff|E6%negb_false_iff%negb_true_iff%Z.eqb_neq]; auto.
  - apply andb_false_iff in E7 as [?%negb_false_iff%Z.eqb_eq|?%Z.ltb_ge]; auto.
  - by apply claims_newer_false.
Qed.

(** The next save of the configuration works. *)
Definition save_works (c : cluster) : Prop :=
  match w_saves (world c) with [] | save_ok :: _ => True | _ => False end.

(** There is an open link to the requester. *)
Definition answerable (requester : Z) (c : cluster) : Prop :=
  exists l, n_link (peer c requester) = Some l /\ connecting (link_of c l) = false /\ dead (link_of c l) = false.

Lemma save_config_works c : (save_config c).1 = true <-> save_works c.
Proof. unfold save_config, save_works. destruct (w_saves (world c)) as [|[] os]; split; done. Qed.

Lemma answerable_saved requester m c : let c1 := on_peer m (fun n => n <| n_voted_time := now c |>) c in
  answerable requester (save_config c1).2 <-> answerable requester c.
Proof.
  cbv zeta. set (c1 := on_peer m _ c). unfold answerable.
  assert (El : forall l, link_of (save_config c1).2 l = link_of c l).
  { intros l. unfold save_config. destruct (w_saves (world c1)) as [|[] os]; reflexivity. }
  assert (En : n_link (peer (save_config c1).2 requester) = n_link (peer c requester)).
  { unfold peer. destruct (save_config_rest c1) as [-> _]. unfold c1. cbn.
    destruct (decide (m = requester)) as [->|]; [rewrite lookup_alter_eq|by rewrite lookup_alter_ne].
    by destruct (heap (table c) !! requester). }
  rewrite En. split; intros (l & ? & H1 & H2); exists l; revert H1 H2; rewrite El; done.
Qed.

Lemma cast_vote_acks requester m c : let c' := cast_vote requester m c in
  (save_works c /\ answerable requester c /\ acks c' = acks c ++ [current_epoch_ c] /\ exists c0,
     left_on_disk c' = (Some (describe_nodes true c0), []) /\
     current_epoch_ c0 = current_epoch_ c /\ last_vote_epoch_ c0 = current_epoch_ c) \/
  (~ (save_works c /\ answerable requester c) /\ acks c' = acks c).
Proof.
  cbv zeta. unfold cast_vote. pose proof (answerable_saved requester m (c <| last_vote_epoch_ := current_epoch_ c |>)) as A.
  cbv zeta in A. change (now (c <| last_vote_epoch_ := current_epoch_ c |>)) with (now c) in A.
  set (c1 := on_peer m _ _) in *. pose proof (save_config_works c1) as W.
  destruct (save_config_rest c1) as (_ & _ & Ec & _ & Ep). pose proof (save_config_spec c1) as Hd.
  change (save_works c1) with (save_works c) in W.
  change (answerable requester (c <| last_vote_epoch_ := current_epoch_ c |>)) with (answerable requester c) in A.
  destruct (save_config c1) as [ok c2]. cbn [fst snd] in *.
  assert (Ea : acks c2 = acks c) by (unfold acks; by rewrite Ep).
  destruct ok; cbn [negb]; [|right; split; [intros [?%W _]; done|done]].
  rewrite <-A, <-W. unfold answerable. destruct (n_link (peer c2 requester)) as [l|]; [|right; split; [|done]].
  2:{ intros [_ (l & ? & _)]. done. }
  destruct (connecting (link_of c2 l)) eqn:El; [right; split; [|done]|].
  { intros [_ (l' & [= <-] & ? & _)]. congruence. }
  destruct (send_posted l (header M.kFailoverAuthAck c2) c2) as [Ed E].
  destruct (dead (link_of c2 l)) eqn:Ek; [right|left].
  - split; [intros [_ (l' & [= <-] & _ & ?)]; congruence|]. unfold acks in *. by rewrite E, app_nil_r.
  - split; [done|]. split; [by exists l|]. split; [|exists c1; rewrite Ed; split; [|done]; unfold left_on_disk; by destruct (Hd eq_refl) as [-> ->]].
    unfold acks in *. rewrite E, omap_app, Ea.
    change (omap ack_epoch [(l_node (link_of c2 l), header M.kFailoverAuthAck c2)]) with [current_epoch_ c2]. by rewrite Ec.
Qed.

(** ** Routing *)

Definition same_slot (keys : list bytes) (slot : Z) : Prop := forall k, k ∈ keys -> key_hash_slot k = slot.

(** When a command with keys of one slot may run here; [gone] tells which keys
    are not in the dataset. *)
Definition served (gone : bytes -> Prop) (keys : list bytes) (write asking readonly : bool) (c : cluster) (slot o : Z) : Prop :=
  let some_gone := exists k, k ∈ keys /\ gone k in
  let importing := importing_from c slot <> None in
  ~ (o = myself_ c /\ migrating_to c slot <> None /\ some_gone) /\
  ((importing /\ asking = true /\ (1 < zlen keys -> ~ some_gone)) \/
   (~ (importing /\ asking = true) /\
    (o = myself_ c \/
     (write = false /\ readonly = true /\ is_ kReplica (myself c) = true /\
      n_master_id (myself c) = n_id (peer c o))))).

Lemma same_slot_cons key rest :
  forallb (fun k => key_hash_slot k =? key_hash_slot key) rest = true <-> same_slot (key :: rest) (key_hash_slot key).
Proof.
  rewrite forallb_forall. unfold same_slot. split.
  - intros Hf k [->|Hk%list_elem_of_In]%elem_of_cons; [done|]. by apply Z.eqb_eq, Hf.
  - intros Hs k Hk. apply Z.eqb_eq, Hs, elem_of_cons. right. by apply list_elem_of_In.
Qed.

(** [served] as the conditions of the code combine. *)
Definition serves (mine migrating importing asking many some_missing rep : bool) : bool :=
  negb (mine && migrating && some_missing) &&
  ((importing && asking && (negb many || negb some_missing)) || (negb (importing && asking) && (mine || rep))).

Lemma served_serves gone keys write asking readonly c slot o some :
  (some = true <-> exists k, k ∈ keys /\ gone k) ->
  served gone keys write asking readonly c slot o <->
  serves (bool_decide (o = myself_ c)) (bool_decide (migrating_to c slot <> None))
    (bool_decide (importing_from c slot <> None)) asking (1 <? zlen keys) some
    (negb write && readonly && is_ kReplica (myself c) && beq (n_master_id (myself c)) (n_id (peer c o))) = true.
Proof.
  intros G. unfold served, serves. cbv zeta. rewrite <-G. generalize (zlen keys). intros len.
  assert (F : (1 < len -> some <> true) <-> negb (1 <? len) || negb some = true) by (destruct some; zlia).
  assert (A : ~ (o = myself_ c /\ migrating_to c slot <> None /\ some = true) <->
    negb (bool_decide (o = myself_ c) && bool_decide (migrating_to c slot <> None) && some) = true).
  { rewrite negb_true_iff, <-not_true_iff_false, !andb_true_iff, !bool_decide_eq_true. tauto. }
  assert (I : importing_from c slot <> None /\ asking = true <->
    bool_decide (importing_from c slot <> None) && asking = true) by (by rewrite andb_true_iff, bool_decide_eq_true).
  rewrite andb_true_iff, <-A, orb_true_iff. revert I F. generalize (bool_decide (importing_from c slot <> None) && asking).
  generalize (negb (1 <? len) || negb some). intros few guest I F.
  rewrite !andb_true_iff, <-F, <-I, negb_true_iff, <-(not_true_iff_false guest), <-I, orb_true_iff, bool_decide_eq_true,
    !andb_true_iff, negb_true_iff, beq_eq. clear. tauto.
Qed.

Lemma route_none gone key rest write asking readonly c :
  (0 < (count_missing (key :: rest) c).1 <-> exists k, k ∈ key :: rest /\ gone k) ->
  (route (key :: rest) write asking readonly c).1 = None <->
  same_slot (key :: rest) (key_hash_slot key) /\ state_ok_ c = true /\
  exists o, owner c (key_hash_slot key) = Some o /\
            served gone (key :: rest) write asking readonly c (key_hash_slot key) o.
Proof.
  intros G. unfold route. rewrite <-same_slot_cons. destruct (forallb _ rest); cbn [negb]; [|naive_solver].
  destruct (state_ok_ c); cbn [negb]; [|naive_solver].
  destruct (owner c (key_hash_slot key)) as [o|]; [|naive_solver].
  transitivity (served gone (key :: rest) write asking readonly c (key_hash_slot key) o); [|naive_solver].
  rewrite <-Z.ltb_lt in G. rewrite (served_serves _ _ _ _ _ _ _ _ _ G). pose proof (inert_count_missing (key :: rest) c) as I.
  clear G. destruct (count_missing (key :: rest) c) as [m c1]. cbn [fst snd] in *. unfold myself.
  assert (Em : myself_ c1 = myself_ c) by apply I.
  assert (Ep : forall p, peer c1 p = peer c p) by (intros p; unfold peer; by rewrite (in_table _ _ I)).
  generalize (bool_decide (migrating_to c (key_hash_slot key) <> None))
    (bool_decide (importing_from c (key_hash_slot key) <> None)). intros mig imp.
  destruct (bool_decide (o = myself_ c)) eqn:Eo, mig, imp; cbn [andb orb]; rewrite ?Em, ?Ep, ?Eo.
  all: destruct asking, (_ && beq _ _), (0 <? m), (1 <? zlen _); try destruct (m <? _); by cbn.
Qed.

End rules.
End ClusterRules.
