(* ===== verification/ClusterConfig.v ===== *)
(** * The configuration file of a node of the cluster

    What [save_config] writes, [parse_config] reads back: [parse_describe] says
    that a node which reads the file of a node in a [sound] state knows the same
    nodes, with the same slots, the same moves and the same epochs.  With it,
    [boot] on the disk of a node that was well gives a node that is well. *)

From Stdlib Require Import Lia.
From stdpp Require Import relations.
From S2P Require Import Prelude Resp Slots ClusterMsg Replication Cluster ClusterInv ClusterOps ClusterEvents ClusterRules.

Module ClusterConfig.
Import Cluster ClusterInv ClusterOps ClusterEvents ClusterRules.

(** ** Lines and words *)

Lemma lines_cons sep l rest : sep ∉ l -> getlines sep (l ++ sep :: rest) = l :: getlines sep rest.
Proof.
  induction l as [|x l IH]; intros Hl; cbn [app getlines].
  - by rewrite bool_decide_eq_true_2.
  - apply not_elem_of_cons in Hl as [Hx Hl]. rewrite bool_decide_eq_false_2 by congruence. by rewrite IH.
Qed.

Lemma lines_end sep l : sep ∉ l -> l <> [] -> getlines sep l = [l].
Proof.
  induction l as [|x l IH]; intros Hl Hne; [done|]. cbn [getlines].
  apply not_elem_of_cons in Hl as [Hx Hl]. rewrite bool_decide_eq_false_2 by congruence.
  destruct l as [|y l]; [done|]. by rewrite IH.
Qed.

(** Words, each with a blank before it. *)
Definition blanks (ws : list bytes) : bytes := concat (map (cons x20) ws).
Definition word (w : bytes) : Prop := w <> [] /\ plain w.

Lemma plain_blank w : plain w -> x20 ∉ w /\ x0a ∉ w.
Proof. unfold plain. rewrite list.Forall_forall. intros Hw. split; intros Hin; by destruct (Hw _ Hin). Qed.

Lemma plain_app a b : plain a -> plain b -> plain (a ++ b).
Proof. intros Ha Hb. by apply Forall_app. Qed.

Lemma split_words w ws : Forall word (w :: ws) -> split (w ++ blanks ws) " " = w :: ws.
Proof.
  assert (L : Forall word (w :: ws) -> getlines " " (w ++ blanks ws) = w :: ws).
  { revert w. induction ws as [|v ws IH]; intros w Hw.
    - apply list.Forall_singleton in Hw as [Hne [Hb _]%plain_blank]. change (blanks []) with (@nil byte).
      rewrite app_nil_r. by apply lines_end.
    - inversion_clear Hw as [|? ? [_ [Hb _]%plain_blank] Hv].
      change (blanks (v :: ws)) with (x20 :: v ++ blanks ws). rewrite lines_cons by done. by rewrite IH. }
  intros Hw. unfold split. rewrite L by done. clear L. induction Hw as [|v vs [Hv _] _ IH]; [done|].
  cbn. rewrite IH. apply beq_neq in Hv. by rewrite Hv.
Qed.

Lemma blanks_plain ws : Forall word ws -> x0a ∉ blanks ws.
Proof.
  induction 1 as [|w ws [_ [_ Hw]%plain_blank] _ IH]; [apply not_elem_of_nil|].
  change (blanks (w :: ws)) with (x20 :: w ++ blanks ws). rewrite not_elem_of_cons, not_elem_of_app. done.
Qed.

Lemma blanks_app a b : blanks (a ++ b) = blanks a ++ blanks b.
Proof. unfold blanks. by rewrite map_app, concat_app. Qed.

(** ** Numbers *)

Definition numeral (s : bytes) : Prop := Forall (fun b => is_digit b = true) s.

Lemma to_string_numeral n : 0 <= n -> numeral (to_string n) /\ to_string n <> [].
Proof.
  intros Hn. unfold to_string. rewrite (proj2 (Z.ltb_ge n 0)) by lia.
  destruct (dec_nonneg_spec n Hn) as (? & ? & _). done.
Qed.

Lemma numeral_no b s : is_digit b = false -> numeral s -> b ∉ s.
Proof. unfold numeral. rewrite list.Forall_forall. intros Hb Hs Hin%Hs. congruence. Qed.

Lemma numeral_plain s : numeral s -> plain s.
Proof. intros Hs. eapply list.Forall_impl; [exact Hs|]. intros b Hb. split; intros ->; discriminate. Qed.

Lemma to_string_word n : word (to_string n).
Proof.
  destruct (Z.le_gt_cases 0 n) as [Hn|Hn].
  { destruct (to_string_numeral n Hn) as [Hd Hne]. split; [done|by apply numeral_plain]. }
  unfold to_string. rewrite (proj2 (Z.ltb_lt n 0)) by lia. split; [done|].
  destruct (dec_nonneg_spec (- n)) as (_ & Hd & _); [lia|]. constructor; [done|by apply numeral_plain].
Qed.

Lemma parse_u64_text n : 0 <= n <= M.uint64_max -> parse_u64 (to_string n) = Some n.
Proof. intros Hn. apply from_chars_to_string; [done|lia]. Qed.

Lemma parse_slot_text n : 0 <= n < kSlots -> parse_slot (to_string n) = Some n.
Proof.
  intros Hn. unfold parse_slot, parse_int, parse_num. unfold kSlots in *. rewrite from_chars_to_string; [|lia|done].
  by replace ((0 <=? n) && (n <? 16384)) with true by lia.
Qed.

(** ** Addresses *)

Lemma rfind_last ch pre post : ch ∉ post -> rfind_byte ch (pre ++ ch :: post) = Some (length pre).
Proof.
  intros Hp. assert (N : rfind_byte ch post = None).
  { clear pre. induction post as [|x post IH]; [done|]. apply not_elem_of_cons in Hp as [Hx Hp]. cbn.
    by rewrite IH, bool_decide_eq_false_2 by congruence. }
  induction pre as [|x pre IH]; cbn; [by rewrite N, bool_decide_eq_true_2|by rewrite IH].
Qed.

Lemma find_first ch pre post : ch ∉ pre -> find_byte ch (pre ++ ch :: post) 0 = Some (length pre).
Proof.
  intros Hp. unfold find_byte. rewrite drop_0, (proj2 (find_byte_front_spec _ _ (length pre))); [done|].
  by exists pre, post.
Qed.

Lemma find_none ch s : ch ∉ s -> find_byte ch s 0 = None.
Proof.
  intros Hs. unfold find_byte. rewrite drop_0. destruct (find_byte_front ch s) as [k|] eqn:E; [|done].
  apply find_byte_front_spec in E as (pre & post & -> & _). set_solver.
Qed.

Lemma clean_no_at ip : clean_ip ip -> "@"%byte ∉ ip.
Proof. unfold clean_ip. rewrite list.Forall_forall. intros Hip Hin. by destruct (Hip _ Hin) as (_ & _ & ? & _). Qed.

Lemma parse_address_text ip p cp : clean_ip ip -> 0 <= p <= M.uint16_max -> 0 <= cp <= M.uint16_max ->
  parse_address (ip ++ &":" ++ to_string p ++ &"@" ++ to_string cp) = Some (ip, p, cp).
Proof.
  intros Hip Hp Hcp. destruct (to_string_numeral p) as [Np _]; [lia|]. destruct (to_string_numeral cp) as [Ncp _]; [lia|].
  pose proof (from_chars_to_string false 0 M.uint16_max p Hp (fun _ => proj1 Hp)) as Pp.
  pose proof (from_chars_to_string false 0 M.uint16_max cp Hcp (fun _ => proj1 Hcp)) as Pcp.
  revert Np Ncp Pp Pcp. generalize (to_string p) (to_string cp). intros a b Na Nb Pa Pb.
  unfold parse_address. change (&":" ++ a ++ &"@" ++ b) with (":"%byte :: a ++ "@"%byte :: b).
  rewrite rfind_last by (rewrite not_elem_of_app, not_elem_of_cons; split_and!; [by apply numeral_no|done|by apply numeral_no]).
  replace (ip ++ ":"%byte :: a ++ "@"%byte :: b) with ((ip ++ ":"%byte :: a) ++ "@"%byte :: b)
    by (by rewrite <-app_assoc).
  rewrite find_first.
  2:{ rewrite not_elem_of_app, not_elem_of_cons. split_and!; [by apply clean_no_at|done|by apply numeral_no]. }
  rewrite length_app. cbn [length].
  destruct (Nat.ltb_spec (length ip + S (length a)) (length ip)); [lia|].
  rewrite <-app_assoc, !(drop_app_ge ip) by lia. rewrite (take_app_length ip).
  replace (length ip + 1 - length ip)%nat with 1%nat by lia. cbn [app drop].
  replace (length ip + S (length a) - length ip - 1)%nat with (length a) by lia.
  rewrite drop_0, (take_app_length a).
  replace (length ip + S (length a) + 1 - length ip)%nat with (S (length a + 1)) by lia. cbn [drop].
  rewrite (drop_app_ge a) by lia. replace (length a + 1 - length a)%nat with 1%nat by lia. cbn [drop].
  unfold parse_u16, parse_num. by rewrite Pa, drop_0, Pb.
Qed.

(** ** Flags *)

(** What a file tells of the flags of a node that it names. *)
Definition kept (flags : Z) : Z := Z.ldiff flags (Z.lor kHandshake kMeet).

Definition flags_text (n : Peer) : bytes :=
  if beq (join_flags (flag_names n)) [] then &"noflags" else join_flags (flag_names n).

Definition flags_survive (f : Z) : bool :=
  let n := new_peer <| n_flags := f |> in
  let fields := split (flags_text n) "," in
  is_ kHandshake n
  || (negb (existsb (beq &"handshake") fields)
      && (foldl (fun b fl => Z.lor b (flag_bit fl)) 0 fields =? kept f)
      && negb (beq (flags_text n) [])
      && forallb (fun b => negb (bool_decide (b = x20)) && negb (bool_decide (b = x0a))) (flags_text n)).

Lemma flags_read n : 0 <= n_flags n < 256 -> is_ kHandshake n = false ->
  existsb (beq &"handshake") (split (flags_text n) ",") = false /\
  foldl (fun b fl => Z.lor b (flag_bit fl)) 0 (split (flags_text n) ",") = kept (n_flags n) /\
  word (flags_text n).
Proof.
  intros Hf Hh. assert (A : forallb flags_survive (seqZ 0 256) = true) by (vm_compute; reflexivity).
  assert (S : flags_survive (n_flags n) = true).
  { apply forallb_forall with (x := n_flags n) in A; [done|]. apply list_elem_of_In, elem_of_seqZ. lia. }
  unfold flags_survive in S.
  change (is_ kHandshake (new_peer <| n_flags := n_flags n |>)) with (is_ kHandshake n) in S.
  change (flags_text (new_peer <| n_flags := n_flags n |>)) with (flags_text n) in S.
  rewrite Hh in S. apply andb_true_iff in S as [[[S1%negb_true_iff S2%Z.eqb_eq]%andb_true_iff S3]%andb_true_iff S4].
  split_and!; [done|done|]. split.
  - intros E. by rewrite E in S3.
  - apply list.Forall_forall. intros b Hb. rewrite forallb_forall in S4.
    apply list_elem_of_In, S4, andb_true_iff in Hb as [H1 H2].
    split; intros ->; by rewrite bool_decide_eq_true_2 in *.
Qed.

Lemma is_kept f n : Z.land f (Z.lor kHandshake kMeet) = 0 ->
  negb (Z.land (kept (n_flags n)) f =? 0) = is_ f n.
Proof.
  intros Hf. unfold is_, kept. do 2 f_equal. apply Z.bits_inj'. intros i Hi.
  rewrite !Z.land_spec, Z.ldiff_spec. assert (D := f_equal (fun z => Z.testbit z i) Hf).
  cbn beta in D. rewrite Z.land_spec, Z.bits_0 in D.
  destruct (Z.testbit (n_flags n) i), (Z.testbit f i), (Z.testbit (Z.lor kHandshake kMeet) i); done.
Qed.

(** ** Slots *)

Definition span (r : Z * Z) : list Z := seqZ r.1 (r.2 - r.1 + 1).
Definition slots_of (bits : SlotBitmap) : list Z := List.filter (Z.testbit bits) all_slots.

Definition run (slot : Z) (open : option Z) : list Z :=
  match open with Some start => seqZ start (slot - start) | None => [] end.

Lemma run_next slot open : (forall start, open = Some start -> start < slot) ->
  run (slot + 1) (Some (default slot open)) = run slot open ++ [slot].
Proof.
  intros Ho. destruct open as [start|]; cbn.
  - specialize (Ho start eq_refl). replace (slot + 1 - start) with (slot - start + 1) by lia.
    rewrite seqZ_app by lia. f_equal. replace (start + (slot - start)) with slot by lia. done.
  - by replace (slot + 1 - slot) with 1 by lia.
Qed.

Lemma ranges_from_spans bits fuel : forall slot open, (forall start, open = Some start -> start < slot) ->
  concat (map span (ranges_from fuel slot bits open)) =
  run slot open ++ List.filter (Z.testbit bits) (seqZ slot (Z.of_nat fuel)).
Proof.
  assert (C : forall slot open, (forall start, open = Some start -> start < slot) ->
    concat (map span (match open with Some start => [(start, slot - 1)] | None => [] end)) = run slot open).
  { intros slot [start|] _; [|done]. cbn. rewrite app_nil_r. unfold span. cbn. f_equal. lia. }
  induction fuel as [|fuel IH]; intros slot open Ho; cbn [ranges_from].
  { rewrite C by done. cbn. by rewrite app_nil_r. }
  rewrite (seqZ_cons slot) by lia. replace (Z.pred (Z.of_nat (S fuel))) with (Z.of_nat fuel) by lia.
  replace (Z.succ slot) with (slot + 1) by lia. cbn [List.filter]. destruct (Z.testbit bits slot).
  - rewrite IH.
    + rewrite run_next by done. by rewrite <-app_assoc.
    + intros start [= <-]. destruct open as [start|]; cbn; [specialize (Ho start eq_refl); lia|lia].
  - rewrite map_app, concat_app, C, IH by done. done.
Qed.

Lemma ranges_spans bits : concat (map span (ranges bits)) = slots_of bits.
Proof.
  unfold ranges, slots_of, all_slots. rewrite ranges_from_spans by done. rewrite Z2Nat.id by done. reflexivity.
Qed.

Lemma ranges_from_bounds bits fuel : forall slot open r, 0 <= slot ->
  (forall start, open = Some start -> 0 <= start < slot) ->
  r ∈ ranges_from fuel slot bits open -> 0 <= r.1 <= r.2 /\ r.2 < slot + Z.of_nat fuel.
Proof.
  assert (C : forall slot open r, (forall start, open = Some start -> 0 <= start < slot) ->
    r ∈ match open with Some start => [(start, slot - 1)] | None => [] end -> 0 <= r.1 <= r.2 /\ r.2 < slot).
  { intros slot [start|] r Ho; [intros ->%list_elem_of_singleton|by intros ?%elem_of_nil].
    specialize (Ho start eq_refl). cbn. lia. }
  induction fuel as [|fuel IH]; intros slot open r H0 Ho; cbn [ranges_from].
  { intros Hr. apply (C slot) in Hr; [lia|done]. }
  assert (N : forall open', (forall start, open' = Some start -> 0 <= start < slot + 1) ->
    r ∈ ranges_from fuel (slot + 1) bits open' -> 0 <= r.1 <= r.2 /\ r.2 < slot + Z.of_nat (S fuel)).
  { intros open' Ho' Hr. apply IH in Hr; [lia|lia|done]. }
  destruct (Z.testbit bits slot).
  - apply N. intros start [= <-]. destruct open as [start|]; cbn; [specialize (Ho start eq_refl); lia|lia].
  - intros [Hr|Hr]%elem_of_app; [apply (C slot) in Hr; [lia|done]|]. apply (N None); done.
Qed.

Lemma ranges_bounds bits r : r ∈ ranges bits -> 0 <= r.1 <= r.2 /\ r.2 < kSlots.
Proof.
  unfold ranges. intros Hr.
  destruct (ranges_from_bounds bits (Z.to_nat kSlots) 0 None r (Z.le_refl 0) ltac:(done) Hr) as [H1 H2].
  rewrite Z2Nat.id in H2 by done. split; [exact H1|exact H2].
Qed.

Definition range_token (r : Z * Z) : bytes :=
  to_string r.1 ++ (if r.2 =? r.1 then [] else "-"%byte :: to_string r.2).

Lemma range_text_token r : range_text r = x20 :: range_token r.
Proof. destruct r as [a b]. unfold range_text, range_token. cbn [fst snd]. by destruct (b =? a). Qed.

Lemma range_token_word r : 0 <= r.1 <= r.2 -> word (range_token r).
Proof.
  intros Hr. unfold range_token. destruct (to_string_word r.1) as [Hne Hp]. split.
  - by intros [? _]%app_eq_nil.
  - apply plain_app; [done|]. destruct (_ =? _); [constructor|]. constructor; [done|]. apply to_string_word.
Qed.

(** ** Slots on the move *)

Lemma find_sub_here x sub pre post : x ∉ pre -> find_sub (x :: sub) (pre ++ (x :: sub) ++ post) = Some (length pre).
Proof.
  intros Hx. change ((x :: sub) ++ post) with (x :: sub ++ post). induction pre as [|y pre IH].
  - cbn [app find_sub]. change (x :: sub ++ post) with ((x :: sub) ++ post).
    rewrite take_app_length, beq_refl. done.
  - apply not_elem_of_cons in Hx as [Hy Hx]. cbn [app find_sub]. rewrite (proj2 (beq_neq _ _)).
    + by rewrite IH.
    + cbn [length take]. intros [=]. congruence.
Qed.

Lemma find_sub_none x sub s : x ∈ sub -> x ∉ s -> find_sub sub s = None.
Proof.
  intros Hx Hs. assert (N : forall s, x ∉ s -> beq (take (length sub) s) sub = false).
  { intros s' Hs'. apply beq_neq. intros E. apply Hs'. rewrite <-E in Hx. apply elem_of_take in Hx as (i & Hi & _).
    by eapply list_elem_of_lookup_2. }
  induction s as [|y s IH]; cbn [find_sub]; rewrite N by done; [done|].
  apply not_elem_of_cons in Hs as [_ Hs]. by rewrite IH.
Qed.

Definition arrow (out : bool) : bytes := if out then &"->-" else &"-<-".
Definition move_token (m : Z * bool * bytes) : bytes :=
  &"[" ++ to_string m.1.1 ++ arrow m.1.2 ++ m.2 ++ &"]".

Record move_ok (m : Z * bool * bytes) : Prop := {
  mv_slot : 0 <= m.1.1 < kSlots;
  mv_id : M.valid_node_id m.2 = true;
}.

Lemma valid_id_chars id : M.valid_node_id id = true -> length id = M.kNodeIdLength /\ Forall (fun b => M.is_id_char b = true) id.
Proof.
  unfold M.valid_node_id. intros [Hl%Nat.eqb_eq Hc]%andb_true_iff. split; [done|].
  apply list.Forall_forall. intros b Hb%list_elem_of_In. rewrite forallb_forall in Hc. auto.
Qed.

Lemma id_no b id : M.is_id_char b = false -> M.valid_node_id id = true -> b ∉ id.
Proof.
  intros Hb [_ Hc]%valid_id_chars. rewrite list.Forall_forall in Hc. intros Hin%Hc. congruence.
Qed.

Lemma id_word id : M.valid_node_id id = true -> word id.
Proof.
  intros Hid. destruct (valid_id_chars _ Hid) as [Hl Hc]. split; [by intros ->|].
  eapply list.Forall_impl; [exact Hc|]. intros b Hb. split; intros ->; discriminate.
Qed.

Lemma move_token_word m : move_ok m -> word (move_token m).
Proof.
  intros [_ Hid]. unfold move_token. split; [done|]. destruct (id_word _ Hid) as [_ Hp].
  repeat apply plain_app; [by repeat constructor|apply to_string_word| |done|by repeat constructor].
  destruct m.1.2; by repeat constructor.
Qed.

(** The part of a token between the brackets. *)
Lemma bracket_token inner : let tok := &"[" ++ inner ++ &"]" in inner <> [] ->
  (2 <? length tok)%nat && beq (take 1 tok) &"[" && beq (drop (length tok - 1) tok) &"]" = true /\
  take (length tok - 2) (drop 1 tok) = inner.
Proof.
  intros tok Hne. subst tok. change (&"[" ++ inner ++ &"]") with ("["%byte :: inner ++ &"]").
  cbn [length take drop]. rewrite length_app. change (length &"]") with 1%nat.
  replace (S (length inner + 1) - 1)%nat with (S (length inner)) by lia.
  replace (S (length inner + 1) - 2)%nat with (length inner) by lia. cbn [drop].
  rewrite drop_app_length, drop_0, take_app_length.
  split; [|done]. destruct inner; [done|]. cbn [length]. by destruct (Nat.ltb_spec 2 (S (S (length inner) + 1))); [|lia].
Qed.

Section loading.
Context {DS : Type} `{SlotStore DS}.
Abbreviation cluster := (Cluster DS).

Implicit Types c : cluster.

#[local] Opaque all_slots.

(** All these slots are taken by [q]. *)
Definition take_slots (q : Z) (slots : list Z) (c : cluster) : cluster :=
  foldl (fun c slot => set_slot slot (Some q) c) c slots.

Lemma parse_range_token q s r : 0 <= r.1 <= r.2 -> r.2 < kSlots ->
  parse_slot_token q s (range_token r) =
  inr (mkLoading (take_slots q (span r) (ld_cluster (DS := DS) s)) (ld_me s) (ld_moves s)).
Proof.
  intros Hr Hk. destruct (to_string_numeral r.1) as [Na Hne]; [lia|].
  pose proof (parse_slot_text r.1 ltac:(lia)) as Pa. pose proof (parse_slot_text r.2 ltac:(lia)) as Pb.
  unfold parse_slot_token. assert (F : beq (take 1 (range_token r)) &"[" = false).
  { unfold range_token. destruct (to_string r.1) as [|d ds]; [done|]. cbn [app take]. rewrite take_0. apply beq_neq.
    intros [= ->]. inversion_clear Na. discriminate. }
  rewrite F, andb_false_r, andb_false_l. unfold range_token.
  destruct (Z.eqb_spec r.2 r.1) as [E|E].
  - rewrite app_nil_r, find_none by (by apply numeral_no). rewrite Pa.
    destruct (Z.ltb_spec r.1 r.1); [lia|]. unfold take_slots, span. by rewrite E.
  - rewrite find_first by (by apply numeral_no). rewrite take_app_length.
    rewrite drop_app_ge by lia. replace (length (to_string r.1) + 1 - length (to_string r.1))%nat with 1%nat by lia.
    cbn [drop]. rewrite drop_0. rewrite Pa, Pb. destruct (Z.ltb_spec r.2 r.1); [lia|]. done.
Qed.

Lemma parse_move_token q (s : Loading (DS := DS)) m : move_ok m ->
  parse_slot_token q s (move_token m) = inr (mkLoading (ld_cluster s) (ld_me s) (ld_moves s ++ [m])).
Proof.
  intros [Hs Hid]. destruct m as [[slot out] id]. cbn in Hs, Hid.
  destruct (to_string_numeral slot) as [Nn Hne]; [lia|]. pose proof (parse_slot_text slot Hs) as Ps.
  unfold parse_slot_token, move_token. cbn [fst snd]. rewrite (app_assoc (to_string slot)), (app_assoc _ id).
  set (inner := (to_string slot ++ arrow out) ++ id).
  destruct (bracket_token inner) as [Eb Ei]; [unfold inner; destruct (to_string slot); done|].
  rewrite Eb, Ei. clear Eb Ei. subst inner. rewrite <-app_assoc.
  assert (N : "-"%byte ∉ to_string slot) by (by apply numeral_no).
  destruct out; cbn [arrow].
  - change &"->-" with ("-"%byte :: &">-"). rewrite find_sub_here by done. rewrite take_app_length, Ps.
    rewrite bool_decide_eq_true_2 by done. rewrite drop_app_ge by lia.
    by replace (length (to_string slot) + 3 - length (to_string slot))%nat with 3%nat by lia.
  - rewrite (find_sub_none ">"%byte).
    + change &"-<-" with ("-"%byte :: &"<-"). rewrite find_sub_here by done. rewrite take_app_length, Ps.
      rewrite bool_decide_eq_false_2 by (intros F; by apply F). rewrite drop_app_ge by lia.
      by replace (length (to_string slot) + 3 - length (to_string slot))%nat with 3%nat by lia.
    + change &"->-" with ["-"%byte; ">"%byte; "-"%byte]. set_solver.
    + rewrite !not_elem_of_app. split_and!; [by apply numeral_no| |by apply id_no].
      change &"-<-" with ["-"%byte; "<"%byte; "-"%byte]. rewrite !not_elem_of_cons. split_and!; try done. apply not_elem_of_nil.
Qed.

Lemma parse_ranges q toks : forall rs (s : Loading (DS := DS)), Forall (fun r => 0 <= r.1 <= r.2 /\ r.2 < kSlots) rs ->
  parse_slot_tokens q (map range_token rs ++ toks) s =
  parse_slot_tokens q toks (mkLoading (take_slots q (concat (map span rs)) (ld_cluster s)) (ld_me s) (ld_moves s)).
Proof.
  induction rs as [|r rs IH]; intros s Hr; [by destruct s|]. inversion_clear Hr as [|? ? [H1 H2] Hrs].
  cbn [map app parse_slot_tokens concat]. rewrite parse_range_token by done. rewrite IH by done.
  unfold take_slots. by rewrite foldl_app.
Qed.

Lemma parse_moves q : forall mvs (s : Loading (DS := DS)), Forall move_ok mvs ->
  parse_slot_tokens q (map move_token mvs) s = inr (mkLoading (ld_cluster s) (ld_me s) (ld_moves s ++ mvs)).
Proof.
  induction mvs as [|m mvs IH]; intros s Hm; [destruct s; cbn; by rewrite app_nil_r|].
  inversion_clear Hm as [|? ? H1 Hms]. cbn [map parse_slot_tokens]. rewrite parse_move_token by done.
  rewrite IH by done. cbn. by rewrite <-app_assoc.
Qed.

(** ** The line of a node *)

Definition moves_at (c : cluster) (slot : Z) : list (Z * bool * bytes) :=
  match migrating_to c slot with Some p => [(slot, true, n_id (peer c p))] | None => [] end ++
  match importing_from c slot with Some p => [(slot, false, n_id (peer c p))] | None => [] end.

Definition moves_of (c : cluster) : list (Z * bool * bytes) := concat (map (moves_at c) all_slots).

Lemma moves_text c slots :
  concat (map (move_text c) slots) = blanks (map move_token (concat (map (moves_at c) slots))).
Proof.
  induction slots as [|slot slots IH]; [done|]. cbn [map concat]. rewrite map_app, blanks_app, <-IH. f_equal.
  unfold move_text, moves_at, blanks. rewrite !map_app, concat_app.
  destruct (migrating_to c slot), (importing_from c slot); cbn; by rewrite ?app_nil_r.
Qed.

Lemma ranges_text rs : concat (map range_text rs) = blanks (map range_token rs).
Proof. induction rs as [|r rs IH]; [done|]. cbn [map concat]. rewrite IH, range_text_token. done. Qed.

Definition node_tokens (c : cluster) (p : Z) : list bytes :=
  map range_token (ranges (n_slots (peer c p))) ++
  (if bool_decide (p = myself_ c) then map move_token (moves_of c) else []).

Definition master_text (n : Peer) : bytes := if beq (n_master_id n) [] then &"-" else n_master_id n.
Definition address_text (n : Peer) : bytes := n_ip n ++ &":" ++ to_string (n_port n) ++ &"@" ++ to_string (n_cport n).
Definition state_text (c : cluster) (p : Z) : bytes :=
  if bool_decide (p = myself_ c)
     || match n_link (peer c p) with Some l => negb (connecting (link_of c l)) | None => false end
  then &"connected" else &"disconnected".

Definition node_words (c : cluster) (p : Z) : list bytes :=
  let n := peer c p in
  [address_text n; flags_text n; master_text n; to_string (unix_ms (n_ping_sent n) c);
   to_string (unix_ms (n_pong_received n) c); to_string (n_config_epoch n); state_text c p] ++ node_tokens c p.

Lemma describe_node_words c p : describe_node c p = (n_id (peer c p) ++ blanks (node_words c p)) ++ [x0a].
Proof.
  unfold describe_node, node_words, node_tokens, moves_of. rewrite ranges_text, moves_text.
  generalize (concat (map (moves_at c) all_slots)). intros mvs. generalize (map range_token (ranges (n_slots (peer c p)))).
  intros rs. unfold flags_text, state_text, master_text, address_text. cbv zeta. rewrite !blanks_app.
  change &" " with [x20].
  destruct (bool_decide (p = myself_ c)); unfold blanks; cbn [map concat]; repeat (rewrite <-!app_assoc; cbn [app]);
    reflexivity.
Qed.

(** A node as its line tells of it. *)
Definition recalled (t : Z) (n : Peer) : Peer :=
  mkPeer (n_id n) (n_ip n) (n_port n) (n_cport n) (kept (n_flags n)) (n_master_id n) (n_config_epoch n) (n_slots n)
    t 0 0 (if is_ kFail n then t else 0) 0 0 ∅ None.

(** What the node of a line must be like to be read back. *)
Record telling (n : Peer) : Prop := {
  tl_ok : peer_ok n;
  tl_member : is_ kHandshake n = false;
  tl_epoch : n_config_epoch n <= M.uint64_max;
}.

Lemma address_word n : peer_ok n -> word (address_text n).
Proof.
  intros []. unfold address_text. split; [by intros [_ ?]%app_eq_nil|]. apply plain_app.
  - eapply list.Forall_impl; [exact po_ip0|]. naive_solver.
  - repeat apply plain_app; try apply to_string_word; by repeat constructor.
Qed.

Lemma master_word n : peer_ok n -> word (master_text n).
Proof.
  intros []. unfold master_text. destruct (beq (n_master_id n) []) eqn:E; [split; [done|by repeat constructor]|].
  split; [by apply beq_neq|apply po_master0].
Qed.

Lemma master_read n : peer_ok n -> (if beq (master_text n) &"-" then [] else master_text n) = n_master_id n.
Proof.
  intros []. destruct po_master0 as [_ Hm]. unfold master_text. destruct (beq (n_master_id n) []) eqn:E.
  - apply beq_eq in E. by rewrite E.
  - apply beq_neq in Hm. by rewrite Hm.
Qed.

Lemma moves_words c : Forall move_ok (moves_of c) -> Forall word (map move_token (moves_of c)).
Proof. intros Hm. apply List.Forall_map. eapply list.Forall_impl; [exact Hm|]. apply move_token_word. Qed.

Lemma node_words_ok c p : telling (peer c p) -> Forall move_ok (moves_of c) ->
  Forall word (n_id (peer c p) :: node_words c p).
Proof.
  intros [Hok Hh _] Hm. destruct (flags_read (peer c p)) as (_ & _ & Hf); [apply Hok|done|].
  unfold node_words. cbv zeta. constructor; [by apply id_word, Hok|]. apply Forall_app. split.
  - constructor; [by apply address_word|]. constructor; [exact Hf|]. constructor; [by apply master_word|].
    do 3 (constructor; [apply to_string_word|]). constructor; [|constructor].
    unfold state_text. destruct (_ || _); split; try done; by repeat constructor.
  - apply Forall_app. split.
    + apply List.Forall_map, list.Forall_forall. intros r Hr%ranges_bounds. apply range_token_word, Hr.
    + destruct (bool_decide _); [by apply moves_words|constructor].
Qed.

(** A node of a line, before its slots. *)
Definition entered (n : Peer) (c : cluster) : cluster := on_table (enrol_in (recalled (now c) n <| n_slots := 0 |>)) c.

Lemma on_peer_enrol g m c : n_id (g m) = n_id m ->
  on_peer (next_ptr (table c)) g (on_table (enrol_in m) c) = on_table (enrol_in (g m)) c.
Proof. intros E. unfold on_peer, on_table, enrol_in. cbn. by rewrite alter_insert_eq, E. Qed.

Lemma parse_node_line_words line c0 p (s : Loading (DS := DS)) : telling (peer c0 p) ->
  lookup (ld_cluster s) (n_id (peer c0 p)) = None -> (is_ kMyself (peer c0 p) = true -> ld_me s = None) ->
  let n := peer c0 p in
  let q := next_ptr (table (ld_cluster s)) in
  parse_node_line line (n_id n :: node_words c0 p) s =
    parse_slot_tokens q (node_tokens c0 p)
      (mkLoading (entered n (ld_cluster s)) (if is_ kMyself n then Some q else ld_me s) (ld_moves s)).
Proof.
  intros [Hok Hh He] Hid Hme n q. subst n q. set (n := peer c0 p) in *. set (c := ld_cluster s) in *.
  unfold parse_node_line. change (node_words c0 p) with ([address_text n; flags_text n; master_text n;
    to_string (unix_ms (n_ping_sent n) c0); to_string (unix_ms (n_pong_received n) c0);
    to_string (n_config_epoch n); state_text c0 p] ++ node_tokens c0 p). cbn [app].
  fold c. rewrite (po_id _ Hok), Hid. rewrite bool_decide_eq_false_2 by (intros F; by apply F). cbn [negb orb].
  destruct (flags_read n) as (Ex & Ef & _); [apply Hok|done|]. rewrite Ex, Ef.
  unfold address_text. rewrite parse_address_text by apply Hok. rewrite parse_u64_text by (split; [apply Hok|done]). cbv beta zeta.
  set (f := fun m : Peer => (if is_ kFail m then m <| n_fail_time := now (create_node (n_id n) (kept (n_flags n)) c).2 |> else m)
    <| n_ip := n_ip n |> <| n_port := n_port n |> <| n_cport := n_cport n |>
    <| n_master_id := if beq (master_text n) &"-" then [] else master_text n |>).
  assert (Hf : forall m, n_id (f m) = n_id m) by (intros m; unfold f; by destruct (is_ kFail m)).
  destruct (create_node_fresh (n_id n) (kept (n_flags n)) c f Hid Hf) as [E1 E2]. rewrite E1. cbn beta iota.
  change (on_peer (next_ptr (table c)) _ (create_node (n_id n) (kept (n_flags n)) c).2)
    with (on_peer (next_ptr (table c)) f (create_node (n_id n) (kept (n_flags n)) c).2). rewrite E2.
  rewrite (on_peer_enrol (fun m => m <| n_config_epoch := n_config_epoch n |>)) by reflexivity.
  assert (E3 : f (new_peer <| n_id := n_id n |> <| n_flags := kept (n_flags n) |> <| n_ctime := now c |>)
            <| n_config_epoch := n_config_epoch n |> = recalled (now c) n <| n_slots := 0 |>).
  { unfold f. rewrite (master_read n Hok).
    set (m := new_peer <| n_id := n_id n |> <| n_flags := kept (n_flags n) |> <| n_ctime := now c |>).
    assert (K : is_ kFail m = is_ kFail n) by (by apply (is_kept kFail n)).
    rewrite K. unfold recalled. by destruct (is_ kFail n). }
  rewrite E3. fold (entered n c).
  assert (E4 : is_ kMyself (peer (entered n c) (next_ptr (table c))) = is_ kMyself n).
  { unfold peer, entered. cbn. rewrite lookup_insert_eq. by apply (is_kept kMyself n). }
  rewrite E4. destruct (is_ kMyself n); [|done]. by rewrite Hme.
Qed.

(** ** The slots of a line *)

Definition claim_in (q : Z) (slots : list Z) (t : Table) : Table :=
  foldl (fun t slot => set_slot_in slot (Some q) t) t slots.

Lemma take_slots_table q slots : forall c, exists td,
  take_slots q slots c = c <| table := claim_in q slots (table c) |> <| todo := td |>.
Proof.
  induction slots as [|slot slots IH]; intros c; [exists (todo c); by destruct c|].
  destruct (IH (set_slot slot (Some q) c)) as [td E]. exists td. exact E.
Qed.

(** Free slots go to [q], and nothing else changes. *)
Record claimed (q : Z) (slots : list Z) (n : Peer) (t t' : Table) : Prop := {
  cm_nodes : nodes_ t' = nodes_ t;
  cm_next : next_ptr t' = next_ptr t;
  cm_moves : migrating_to_ t' = migrating_to_ t /\ importing_from_ t' = importing_from_ t;
  cm_heap : exists bits, heap t' = <[q := n <| n_slots := bits |>]> (heap t) /\
    forall s, 0 <= s -> Z.testbit bits s = Z.testbit (n_slots n) s || bool_decide (s ∈ slots);
}.

Lemma claim_table q me slots : forall n t, table_ok t me -> heap t !! q = Some n -> is_ kHandshake n = false ->
  NoDup slots -> (forall s, s ∈ slots -> 0 <= s < kSlots /\ owner_ t !! s = None) ->
  table_ok (claim_in q slots t) me /\ claimed q slots n t (claim_in q slots t).
Proof.
  induction slots as [|slot slots IH]; intros n t Hok Eq Hh Hnd Hfree.
  { split; [done|]. split; [done..|]. exists (n_slots n). split.
    - cbn. symmetry. apply insert_id. rewrite Eq. by destruct n.
    - intros s _. rewrite (bool_decide_eq_false_2 (s ∈ [])) by apply not_elem_of_nil. by rewrite orb_false_r. }
  apply list.NoDup_cons in Hnd as [Hslot Hnd]. destruct (Hfree slot) as [Hr Ho]; [apply list_elem_of_here|].
  set (n1 := n <| n_slots := Z.setbit (n_slots n) slot |>).
  set (t1 := set_slot_in slot (Some q) t).
  assert (Eh : heap t1 = <[q := n1]> (heap t)).
  { unfold t1, set_slot_in. rewrite Ho. cbn. by rewrite (alter_known _ _ n). }
  assert (Hok1 : table_ok t1 me).
  { apply table_ok_set_slot; [done| |done]. intros p [= <-]. by exists n. }
  destruct (IH n1 t1) as [Hok2 [Cn Cx Cm (bits & Eb & Hb)]]; [done|by rewrite Eh, lookup_insert_eq|done|done|..].
  { intros s Hs. destruct (Hfree s) as [Hs' Hos]; [by apply list_elem_of_further|]. split; [done|].
    unfold t1. rewrite set_slot_owner. destruct (Z.eqb_spec s slot) as [->|]; done. }
  destruct (set_slot_rest slot (Some q) t) as (E1 & E2 & E3 & E4).
  change (claim_in q (slot :: slots) t) with (claim_in q slots t1). split; [done|]. split.
  - by rewrite Cn.
  - by rewrite Cx.
  - destruct Cm as [-> ->]. done.
  - exists bits. split; [by rewrite Eb, Eh, insert_insert_eq|]. intros s Hs. rewrite Hb by done. unfold n1. cbn.
    rewrite Z.setbit_eqb by lia. destruct (Z.eqb_spec slot s) as [->|Hne].
    + rewrite (bool_decide_eq_true_2 (s ∈ s :: slots)) by apply list_elem_of_here. by rewrite orb_true_r.
    + cbn. f_equal. apply bool_decide_ext. rewrite elem_of_cons. naive_solver.
Qed.

Lemma elem_of_slots_of bits s : s ∈ slots_of bits <-> 0 <= s < kSlots /\ Z.testbit bits s = true.
Proof.
  unfold slots_of. rewrite !list_elem_of_In, filter_In, <-list_elem_of_In, all_slots_range. done.
Qed.

Lemma slots_of_nodup bits : NoDup (slots_of bits).
Proof.
  unfold slots_of. apply NoDup_ListNoDup, List.NoDup_filter, NoDup_ListNoDup. apply all_slots_once.
Qed.

(** ** The lines of the nodes *)

(** [c0] is the node that wrote the file, [c1] the one that reads it; [ps] are
    the nodes of the lines read, in order. *)
Record loads (c0 c1 : cluster) (ps : list Z) (s : Loading (DS := DS)) : Prop := {
  ls_frame : exists td, ld_cluster s = c1 <| table := table (ld_cluster s) |> <| todo := td |>;
  ls_ok : table_ok (table (ld_cluster s)) (ld_me s);
  ls_next : next_ptr (table (ld_cluster s)) = zlen ps;
  ls_heap : forall q n, heap (table (ld_cluster s)) !! q = Some n <->
    0 <= q /\ exists p, ps !! Z.to_nat q = Some p /\ n = recalled (now c1) (peer c0 p);
  ls_moving : migrating_to_ (table (ld_cluster s)) = ∅ /\ importing_from_ (table (ld_cluster s)) = ∅;
  ls_me : forall q, ld_me s = Some q <-> 0 <= q /\ ps !! Z.to_nat q = Some (myself_ c0);
  ls_moves : ld_moves s = if bool_decide (myself_ c0 ∈ ps) then moves_of c0 else [];
}.

Section lines.
Context (c0 c1 : cluster) (Hs : sound c0).

Lemma sound_node p : member c0 p -> exists n, heap (table c0) !! p = Some n /\ peer c0 p = n /\ telling n /\
  0 <= n_slots n /\ is_ kMyself n = bool_decide (p = myself_ c0).
Proof.
  intros (n & E & Hh). exists n. destruct (tb_peer _ _ (sd_table _ Hs) _ _ E) as (Hok & Hme & Hn).
  split_and!; [done|by apply peer_lookup| |done|].
  - split; [done|done|]. destruct (sd_low _ Hs) as [_ Hc Hp]. specialize (Hp _ _ E). lia.
  - rewrite Hme. apply bool_decide_ext. naive_solver.
Qed.

Lemma refers_valid slot p : refers (table c0) slot p -> M.valid_node_id (n_id (peer c0 p)) = true.
Proof.
  intros Hr. destruct (tb_refs _ _ (sd_table _ Hs) _ _ Hr) as [_ Hp].
  destruct (sound_node p Hp) as (n & _ & -> & Ht & _). apply Ht.
Qed.

Lemma moves_ok : Forall move_ok (moves_of c0).
Proof.
  apply list.Forall_forall. intros m (i & l & Hl%list_elem_of_lookup_2 & Hm)%elem_of_concat.
  apply list_elem_of_In, in_map_iff in Hl as (slot & <- & Hslot).
  apply list_elem_of_In, all_slots_range in Hslot. unfold moves_at in Hm. apply elem_of_app in Hm as [Hm|Hm].
  - destruct (migrating_to c0 slot) as [p|] eqn:E; [|by apply elem_of_nil in Hm].
    apply list_elem_of_singleton in Hm as ->. split; [done|]. apply (refers_valid slot). right. by left.
  - destruct (importing_from c0 slot) as [p|] eqn:E; [|by apply elem_of_nil in Hm].
    apply list_elem_of_singleton in Hm as ->. split; [done|]. apply (refers_valid slot). right. by right.
Qed.

Lemma same_id p p' : member c0 p -> member c0 p' -> n_id (peer c0 p) = n_id (peer c0 p') -> p = p'.
Proof.
  intros (n & E & _) (n' & E' & _) Hid. rewrite (peer_lookup _ _ _ E), (peer_lookup _ _ _ E') in Hid.
  assert (A : nodes_ (table c0) !! n_id n = Some p) by (apply (tb_ids _ _ (sd_table _ Hs)); eauto).
  assert (A' : nodes_ (table c0) !! n_id n' = Some p') by (apply (tb_ids _ _ (sd_table _ Hs)); eauto). congruence.
Qed.

Lemma owner_bit p n s : heap (table c0) !! p = Some n -> 0 <= s -> Z.testbit (n_slots n) s = true <-> owner c0 s = Some p.
Proof. intros E H0. rewrite (tb_slots _ _ (sd_table _ Hs) _ _ _ E H0). apply bool_decide_eq_true. Qed.

Lemma recalled_ok t n : peer_ok n -> peer_ok (recalled t n <| n_slots := 0 |>).
Proof. intros []. split; cbn; try done. by apply ldiff_small. Qed.

Lemma recalled_is f t n : Z.land f (Z.lor kHandshake kMeet) = 0 -> is_ f (recalled t n) = is_ f n.
Proof. apply is_kept. Qed.

Lemma recalled_member t n : is_ kHandshake (recalled t n) = false.
Proof.
  unfold is_, recalled, kept. cbn. apply negb_false_iff, Z.eqb_eq. apply Z.bits_inj'. intros i Hi.
  rewrite Z.land_spec, Z.ldiff_spec, Z.lor_spec, Z.bits_0.
  by destruct (Z.testbit (n_flags n) i), (Z.testbit kHandshake i), (Z.testbit kMeet i).
Qed.

(** Who is known after some lines. *)
Lemma loads_known ps s id q : loads c0 c1 ps s ->
  lookup (ld_cluster s) id = Some q <-> 0 <= q /\ exists p, ps !! Z.to_nat q = Some p /\ n_id (peer c0 p) = id.
Proof.
  intros L. unfold lookup. rewrite (tb_ids _ _ (ls_ok _ _ _ _ L)). split.
  - intros (n & [Hq (p & Hp & ->)]%(ls_heap _ _ _ _ L) & Hid). eauto.
  - intros (Hq & p & Hp & Hid). exists (recalled (now c1) (peer c0 p)). split; [|done].
    apply (ls_heap _ _ _ _ L). eauto.
Qed.

Lemma loads_new ps s p : loads c0 c1 ps s -> Forall (member c0) ps -> member c0 p -> p ∉ ps ->
  lookup (ld_cluster s) (n_id (peer c0 p)) = None.
Proof.
  intros L Hps Hp Hnew. destruct (lookup _ _) as [q|] eqn:E; [|done].
  apply (loads_known _ _ _ _ L) in E as (_ & p' & Hp' & Hid). exfalso. apply Hnew.
  apply list_elem_of_lookup_2 in Hp'. rewrite list.Forall_forall in Hps. by rewrite (same_id p p') by auto.
Qed.

Lemma loads_free ps s p n slot : loads c0 c1 ps s -> Forall (member c0) ps -> p ∉ ps ->
  heap (table c0) !! p = Some n -> slot ∈ slots_of (n_slots n) -> owner_ (table (ld_cluster s)) !! slot = None.
Proof.
  intros L Hps Hnew E [Hr Hb]%elem_of_slots_of. destruct (owner_ _ !! slot) as [q|] eqn:Eo; [|done]. exfalso.
  destruct (tb_refs _ _ (ls_ok _ _ _ _ L) slot q) as [_ (m & Em & _)]; [by left|].
  pose proof (tb_slots _ _ (ls_ok _ _ _ _ L) _ _ slot Em ltac:(lia)) as Hm.
  rewrite Eo, bool_decide_eq_true_2 in Hm by done.
  apply (ls_heap _ _ _ _ L) in Em as (_ & p' & Hp' & ->). cbn in Hm. apply list_elem_of_lookup_2 in Hp'.
  rewrite list.Forall_forall in Hps. destruct (Hps _ Hp') as (n' & E' & _). rewrite (peer_lookup _ _ _ E') in Hm.
  apply (owner_bit _ _ _ E') in Hm; [|lia]. apply (owner_bit _ _ _ E) in Hb; [|lia]. congruence.
Qed.

Lemma framed_update c c' t td : (exists td, c' = c <| table := table c' |> <| todo := td |>) ->
  let c2 := c' <| table := t |> <| todo := td |> in exists td, c2 = c <| table := table c2 |> <| todo := td |>.
Proof. intros [td0 E]. revert E. generalize (table c'). intros t0 -> c2. by exists td. Qed.

Lemma framed_now c c' : (exists td, c' = c <| table := table c' |> <| todo := td |>) -> now c' = now c.
Proof. intros [td0 E]. revert E. generalize (table c'). by intros t0 ->. Qed.

(** A node gets its slots. *)
Lemma loads_table ps s p n me' : loads c0 c1 ps s -> Forall (member c0) ps -> p ∉ ps -> member c0 p ->
  heap (table c0) !! p = Some n ->
  me' = (if bool_decide (p = myself_ c0) then Some (zlen ps) else ld_me s) ->
  let t := table (ld_cluster s) in
  let m := recalled (now c1) n <| n_slots := 0 |> in
  let t' := claim_in (zlen ps) (slots_of (n_slots n)) (enrol_in m t) in
  table_ok t' me' /\ next_ptr t' = zlen (ps ++ [p]) /\ migrating_to_ t' = ∅ /\ importing_from_ t' = ∅ /\
  heap t' = <[zlen ps := recalled (now c1) n]> (heap t).
Proof.
  intros L Hps Hnew Hp E -> t m t'. destruct (sound_node p Hp) as (n' & E' & Ep & Ht & Hn & Hme).
  assert (n' = n) as -> by congruence. pose proof (ls_next _ _ _ _ L) as Hnext. fold t in Hnext.
  assert (Hbound : forall q, ld_me s = Some q -> q < zlen ps).
  { intros q [H0 Hq]%(ls_me _ _ _ _ L). apply lookup_lt_Some in Hq. unfold zlen. lia. }
  assert (Hok1 : table_ok (enrol_in m t) (if bool_decide (p = myself_ c0) then Some (zlen ps) else ld_me s)).
  { apply (table_ok_enrol m t (ld_me s)); [by apply recalled_ok, Ht|..|done| |apply L].
    - transitivity (is_ kMyself (recalled (now c1) n)); [done|]. rewrite recalled_is, Hme, Hnext by done.
      destruct (bool_decide (p = myself_ c0)); [by rewrite bool_decide_eq_true_2|].
      symmetry. apply bool_decide_eq_false_2. intros Hq%Hbound. lia.
    - rewrite Hnext. destruct (bool_decide_reflect (p = myself_ c0)) as [->|]; [|by left]. right. split; [|done].
      destruct (ld_me s) as [q|] eqn:Eq; [|done]. apply (ls_me _ _ _ _ L) in Eq as [_ Hq%list_elem_of_lookup_2]. done.
    - pose proof (loads_new ps s p L Hps Hp Hnew) as Hl. by rewrite Ep in Hl. }
  destruct (claim_table (zlen ps) (if bool_decide (p = myself_ c0) then Some (zlen ps) else ld_me s)
              (slots_of (n_slots n)) m (enrol_in m t)) as [Hok2 [Cn Cx [Cm Ci] (bits & Eb & Hb)]].
  { done. }
  { cbn. by rewrite Hnext, lookup_insert_eq. }
  { apply (recalled_member (now c1) n). }
  { apply slots_of_nodup. }
  { intros slot Hslot. split; [apply elem_of_slots_of in Hslot; apply Hslot|]. exact (loads_free ps s p n slot L Hps Hnew E Hslot). }
  assert (Ebits : bits = n_slots n).
  { apply Z.bits_inj'. intros i Hi. rewrite Hb by done. cbn. rewrite Z.bits_0. cbn.
    destruct (Z.testbit (n_slots n) i) eqn:Ei.
    - apply bool_decide_eq_true_2, elem_of_slots_of. split; [|done]. apply (owner_bit _ _ _ E) in Ei; [|done].
      apply (tb_refs _ _ (sd_table _ Hs) i p). by left.
    - apply bool_decide_eq_false_2. rewrite elem_of_slots_of. rewrite Ei. by intros [_ ?]. }
  fold t' in Hok2, Cn, Cx, Cm, Ci, Eb. destruct (ls_moving _ _ _ _ L) as [Lm Li]. split_and!.
  - done.
  - rewrite Cx. cbn. rewrite Hnext, zlen_app. done.
  - by rewrite Cm.
  - by rewrite Ci.
  - rewrite Eb, Ebits. cbn. rewrite Hnext, insert_insert_eq. done.
Qed.

Lemma loads_step ps s p n t' td : loads c0 c1 ps s -> Forall (member c0) ps -> p ∉ ps -> member c0 p ->
  heap (table c0) !! p = Some n ->
  t' = claim_in (zlen ps) (slots_of (n_slots n)) (enrol_in (recalled (now c1) n <| n_slots := 0 |>) (table (ld_cluster s))) ->
  loads c0 c1 (ps ++ [p])
    (mkLoading (ld_cluster s <| table := t' |> <| todo := td |>)
       (if bool_decide (p = myself_ c0) then Some (zlen ps) else ld_me s)
       (ld_moves s ++ if bool_decide (p = myself_ c0) then moves_of c0 else [])).
Proof.
  intros L Hps Hnew Hp E ->. destruct (loads_table ps s p n _ L Hps Hnew Hp E eq_refl) as (Hok & Hx & Hm & Hi & Hh).
  assert (Hl : forall q r, (ps ++ [p]) !! Z.to_nat q = Some r /\ 0 <= q <-> (0 <= q /\ ps !! Z.to_nat q = Some r) \/ (q = zlen ps /\ r = p)).
  { intros q r. rewrite lookup_app_Some, list_lookup_singleton_Some. unfold zlen. split.
    - intros [[?|[? [? ->]]] ?]; [auto|right; split; [lia|done]].
    - intros [[? Hq]|[-> ->]]; [by auto|]. split; [right; split; [lia|split; [lia|done]]|lia]. }
  split; cbn [ld_cluster ld_me ld_moves].
  - apply framed_update, L.
  - exact Hok.
  - exact Hx.
  - intros q m. change (table _) with (claim_in (zlen ps) (slots_of (n_slots n))
      (enrol_in (recalled (now c1) n <| n_slots := 0 |>) (table (ld_cluster s)))). rewrite Hh, lookup_insert_Some.
    rewrite (ls_heap _ _ _ _ L). split.
    + intros [[<- <-]|[_ (H0 & r & Hr & ->)]].
      * split; [unfold zlen; lia|]. exists p. rewrite (peer_lookup _ _ _ E). split; [|done]. apply (Hl (zlen ps) p). auto.
      * split; [done|]. exists r. split; [|done]. apply (Hl q r). auto.
    + intros (H0 & r & Hr & ->). destruct (proj1 (Hl q r) (conj Hr H0)) as [[_ Hq]|[-> ->]].
      * right. split; [|eauto]. intros <-. apply lookup_lt_Some in Hq. unfold zlen in Hq. lia.
      * left. by rewrite (peer_lookup _ _ _ E).
  - done.
  - intros q. destruct (bool_decide_reflect (p = myself_ c0)) as [->|Hne].
    + split.
      * intros [= <-]. split; [unfold zlen; lia|]. apply (Hl (zlen ps)). auto.
      * intros [H0 Hq]. destruct (proj1 (Hl q _) (conj Hq H0)) as [[_ Hq']|[-> _]]; [|done].
        by apply list_elem_of_lookup_2 in Hq'.
    + rewrite (ls_me _ _ _ _ L). split; [intros [H0 Hq]; split; [done|]; apply (Hl q); auto|].
      intros [H0 Hq]. destruct (proj1 (Hl q _) (conj Hq H0)) as [?|[_ ?]]; [done|congruence].
  - rewrite (ls_moves _ _ _ _ L). destruct (bool_decide_reflect (p = myself_ c0)) as [->|Hne].
    + rewrite bool_decide_eq_false_2 by done. rewrite bool_decide_eq_true_2; [done|set_solver].
    + rewrite app_nil_r. destruct (bool_decide_reflect (myself_ c0 ∈ ps)).
      * rewrite bool_decide_eq_true_2; [done|set_solver].
      * rewrite bool_decide_eq_false_2; [done|set_solver].
Qed.

Lemma loads_line line ps s p : loads c0 c1 ps s -> Forall (member c0) ps -> member c0 p -> p ∉ ps ->
  exists s', parse_node_line line (n_id (peer c0 p) :: node_words c0 p) s = inr s' /\ loads c0 c1 (ps ++ [p]) s'.
Proof.
  intros L Hps Hp Hnew. destruct (sound_node p Hp) as (n & E & Ep & Ht & Hn & Hme).
  rewrite parse_node_line_words; rewrite ?Ep; [|done| |].
  2:{ rewrite <-Ep. by apply (loads_new ps). }
  2:{ rewrite Hme, bool_decide_eq_true. intros ->. destruct (ld_me s) as [q|] eqn:Eq; [|done].
      apply (ls_me _ _ _ _ L) in Eq as [_ Hq%list_elem_of_lookup_2]. done. }
  unfold node_tokens. rewrite Ep, parse_ranges, ranges_spans.
  2:{ apply list.Forall_forall. intros r Hr%ranges_bounds. lia. }
  cbn [ld_cluster ld_me ld_moves]. rewrite (ls_next _ _ _ _ L), Hme.
  destruct (take_slots_table (zlen ps) (slots_of (n_slots n)) (entered n (ld_cluster s))) as [td Etd]. rewrite Etd.
  assert (Em : forall s1 : Loading (DS := DS), parse_slot_tokens (zlen ps) (if bool_decide (p = myself_ c0) then map move_token (moves_of c0) else []) s1
            = inr (mkLoading (ld_cluster s1) (ld_me s1) (ld_moves s1 ++ if bool_decide (p = myself_ c0) then moves_of c0 else []))).
  { intros s1. destruct (bool_decide _); [apply parse_moves, moves_ok|]. cbn. rewrite app_nil_r. by destruct s1. }
  rewrite Em. cbn [ld_cluster ld_me ld_moves]. eexists. split; [done|]. apply (loads_step ps s p n); try done.
  unfold entered. by rewrite <-(framed_now _ _ (ls_frame _ _ _ _ L)).
Qed.

(** ** The whole file *)

Definition line_of (p : Z) : bytes := n_id (peer c0 p) ++ blanks (node_words c0 p).

Lemma line_words p : member c0 p -> Forall word (n_id (peer c0 p) :: node_words c0 p).
Proof.
  intros Hp. destruct (sound_node p Hp) as (n & _ & Ep & Ht & _). apply node_words_ok; [by rewrite Ep|apply moves_ok].
Qed.

Lemma lines_of_nodes rest ps : Forall (member c0) ps ->
  getlines x0a (concat (map (describe_node c0) ps) ++ rest) = map line_of ps ++ getlines x0a rest.
Proof.
  induction 1 as [|p ps Hp _ IH]; [done|]. cbn [map concat app]. rewrite describe_node_words, <-!app_assoc. cbn [app].
  fold (line_of p). rewrite app_assoc. fold (line_of p). rewrite lines_cons, IH; [done|]. pose proof (line_words p Hp) as Hw.
  inversion_clear Hw as [|? ? [_ [_ H1]%plain_blank] H2]. unfold line_of. rewrite not_elem_of_app. split; [done|by apply blanks_plain].
Qed.

Lemma parse_nodes rest : forall ps ps1 s, loads c0 c1 ps1 s -> Forall (member c0) (ps1 ++ ps) -> NoDup (ps1 ++ ps) ->
  exists s', parse_lines (map line_of ps ++ rest) s = parse_lines rest s' /\ loads c0 c1 (ps1 ++ ps) s'.
Proof.
  induction ps as [|p ps IH]; intros ps1 s L Hm Hnd; [exists s; by rewrite app_nil_r|].
  assert (Hp : member c0 p) by (apply Forall_app in Hm as [_ Hm]; by inversion_clear Hm).
  assert (Hps : Forall (member c0) ps1) by (by apply Forall_app in Hm as [? _]).
  assert (Hnew : p ∉ ps1) by (apply list.NoDup_app in Hnd as (_ & Hd & _); intros Hin; apply (Hd p Hin), list_elem_of_here).
  destruct (loads_line (line_of p) ps1 s p L Hps Hp Hnew) as (s1 & E1 & L1).
  replace (ps1 ++ p :: ps) with ((ps1 ++ [p]) ++ ps) in * by (by rewrite <-app_assoc).
  destruct (IH _ s1 L1 Hm Hnd) as (s' & E & L'). exists s'. split; [|done]. cbn [map app parse_lines].
  unfold line_of at 1. rewrite split_words by (by apply line_words). fold (line_of p). rewrite E1, E.
  destruct (beq (n_id (peer c0 p)) &"vars") eqn:Ev; [|done]. apply beq_eq in Ev.
  destruct (sound_node p Hp) as (n & _ & Ep & [Hok _ _] & _). pose proof (po_id _ Hok) as Hid. rewrite <-Ep, Ev in Hid. done.
Qed.

Definition vars_words : list bytes :=
  [&"currentEpoch"; to_string (current_epoch_ c0); &"lastVoteEpoch"; to_string (last_vote_epoch_ c0)].

Lemma parse_vars_line (s : Loading (DS := DS)) : parse_lines [&"vars" ++ blanks vars_words] s =
  inr (mkLoading (ld_cluster s <| current_epoch_ := current_epoch_ c0 |> <| last_vote_epoch_ := last_vote_epoch_ c0 |>)
         (ld_me s) (ld_moves s)).
Proof.
  cbn [parse_lines]. rewrite split_words.
  2:{ assert (W : forall w, word w \/ w = &"vars" \/ w = &"currentEpoch" \/ w = &"lastVoteEpoch" -> word w).
      { intros w [?|[->|[->| ->]]]; [done|..]; (split; [done|by repeat constructor]). }
      repeat (constructor; [apply W; auto using to_string_word|]). constructor. }
  rewrite beq_refl. unfold vars_words. cbn [parse_vars].
  change (beq &"currentEpoch" &"currentEpoch") with true. change (beq &"lastVoteEpoch" &"currentEpoch") with false.
  change (beq &"lastVoteEpoch" &"lastVoteEpoch") with true. cbv iota.
  rewrite !parse_u64_text; [done|apply (sd_votes _ Hs)|].
  split; [apply (sd_votes _ Hs)|]. apply (sd_low _ Hs).
Qed.

(** The nodes a file names. *)
Definition listed : list Z := sort_by_id c0 (List.filter (fun p => negb (is_ kHandshake (peer c0 p))) (node_ptrs c0)).

Lemma insert_by_id_perm p l : insert_by_id c0 p l ≡ₚ p :: l.
Proof.
  induction l as [|q l IH]; [done|]. cbn. destruct (bytes_leb _ _); [done|]. rewrite IH. apply Permutation_swap.
Qed.

Lemma sort_by_id_perm l : sort_by_id c0 l ≡ₚ l.
Proof. induction l as [|p l IH]; [done|]. cbn. by rewrite insert_by_id_perm, IH. Qed.

Lemma elem_of_listed p : p ∈ listed <-> member c0 p.
Proof.
  unfold listed. rewrite sort_by_id_perm, list_elem_of_In, filter_In, <-list_elem_of_In, elem_of_node_ptrs, negb_true_iff.
  split.
  - intros [(id & (n & E & _)%(tb_ids _ _ (sd_table _ Hs))) Hh]. exists n. split; [done|]. by rewrite (peer_lookup _ _ _ E) in Hh.
  - intros (n & E & Hh). rewrite (peer_lookup _ _ _ E). split; [|done]. exists (n_id n). apply (tb_ids _ _ (sd_table _ Hs)). eauto.
Qed.

Lemma listed_nodup : NoDup listed.
Proof.
  unfold listed. rewrite sort_by_id_perm. apply NoDup_ListNoDup, List.NoDup_filter, NoDup_ListNoDup.
  unfold node_ptrs. apply (NoDup_fmap_2_strong snd); [|apply NoDup_map_to_list].
  intros [i p] [j q] Hi%elem_of_map_to_list Hj%elem_of_map_to_list. cbn. intros <-.
  apply (tb_ids _ _ (sd_table _ Hs)) in Hi as (n & En & <-), Hj as (n' & En' & <-). congruence.
Qed.

Lemma describe_lines : getlines x0a (describe_nodes true c0) = map line_of listed ++ [&"vars" ++ blanks vars_words].
Proof.
  change (describe_nodes true c0) with (concat (map (describe_node c0) listed) ++
    (&"vars currentEpoch " ++ to_string (current_epoch_ c0) ++ &" lastVoteEpoch " ++ to_string (last_vote_epoch_ c0) ++ [x0a])).
  rewrite lines_of_nodes by (apply list.Forall_forall; intros p; apply elem_of_listed). f_equal.
  replace (&"vars currentEpoch " ++ to_string (current_epoch_ c0) ++ &" lastVoteEpoch " ++ to_string (last_vote_epoch_ c0) ++ [x0a])
    with ((&"vars" ++ blanks vars_words) ++ x0a :: []) by (unfold vars_words, blanks; cbn; by rewrite app_nil_r, <-!app_assoc).
  rewrite lines_cons; [done|]. rewrite not_elem_of_app. split; [by vm_compute; set_solver|]. apply blanks_plain.
  unfold vars_words. repeat (constructor; [first [apply to_string_word|split; [done|by repeat constructor]]|]). constructor.
Qed.

Lemma loads_start : table c1 = mkTable ∅ 0 ∅ ∅ ∅ ∅ -> loads c0 c1 [] (mkLoading c1 None []).
Proof.
  intros Et. split; cbn [ld_cluster ld_me ld_moves]; rewrite ?Et; try done.
  - exists (todo c1). rewrite <-Et. by destruct c1.
  - split; cbn.
    + intros id p. rewrite lookup_empty. split; [done|]. by intros (n & ? & _).
    + intros p n. by rewrite lookup_empty.
    + intros p n. by rewrite lookup_empty.
    + intros p n s. by rewrite lookup_empty.
    + intros slot p. unfold refers. cbn. rewrite !lookup_empty. naive_solver.
  - intros q n. cbn. rewrite lookup_empty. split; [done|]. by intros (_ & p & ? & _).
  - intros q. split; [done|]. by intros [_ ?].
Qed.

Lemma loads_file : table c1 = mkTable ∅ 0 ∅ ∅ ∅ ∅ -> exists c q,
  loads c0 c1 listed (mkLoading c (Some q) (moves_of c0)) /\
  parse_lines (getlines x0a (describe_nodes true c0)) (mkLoading c1 None []) =
    inr (mkLoading (c <| current_epoch_ := current_epoch_ c0 |> <| last_vote_epoch_ := last_vote_epoch_ c0 |>)
           (Some q) (moves_of c0)).
Proof.
  intros Et. destruct (parse_nodes [&"vars" ++ blanks vars_words] listed [] _ (loads_start Et)) as (s & E & L).
  { apply list.Forall_forall. intros p. apply elem_of_listed. }
  { apply listed_nodup. }
  cbn [app] in L. assert (Hme : myself_ c0 ∈ listed) by (apply elem_of_listed, (sd_me _ Hs)).
  destruct (proj1 (list_elem_of_lookup _ _) Hme) as [i Hi].
  assert (Eme : ld_me s = Some (Z.of_nat i)) by (apply (ls_me _ _ _ _ L); rewrite Nat2Z.id; split; [lia|done]).
  pose proof (ls_moves _ _ _ _ L) as Em. rewrite bool_decide_eq_true_2 in Em by done.
  exists (ld_cluster s), (Z.of_nat i). rewrite <-Eme, <-Em. split; [by destruct s|].
  rewrite describe_lines, E. apply parse_vars_line.
Qed.

(** ** Moves *)

Definition moved (c : cluster) (from : gmap Z Z) (slots : list Z) (m : gmap Z Z) : gmap Z Z :=
  foldl (fun m slot => match from !! slot with
                       | Some p => partial_alter (fun _ => lookup c (n_id (peer c0 p))) slot m
                       | None => m
                       end) m slots.

Lemma moved_lookup c from slots s : forall m, moved c from slots m !! s =
  match from !! s with
  | Some p => if bool_decide (s ∈ slots) then lookup c (n_id (peer c0 p)) else m !! s
  | None => m !! s
  end.
Proof.
  induction slots as [|slot slots IH]; intros m.
  { cbn. rewrite bool_decide_eq_false_2 by apply not_elem_of_nil. by destruct (from !! s). }
  change (moved c from (slot :: slots) m) with (moved c from slots (match from !! slot with
    | Some p => partial_alter (fun _ => lookup c (n_id (peer c0 p))) slot m | None => m end)). rewrite IH. destruct (decide (slot = s)) as [->|Hne].
  - rewrite (bool_decide_eq_true_2 (s ∈ s :: slots)) by apply list_elem_of_here.
    destruct (from !! s) as [p|] eqn:Ef; [|done]. rewrite lookup_partial_alter_eq. by destruct (bool_decide _).
  - assert (Em : forall g, match from !! slot with Some p => partial_alter (g p) slot m | None => m end !! s = m !! s).
    { intros g. destruct (from !! slot); [|done]. by rewrite lookup_partial_alter_ne. }
    rewrite Em. destruct (from !! s); [|done]. assert (Eb : bool_decide (s ∈ slot :: slots) = bool_decide (s ∈ slots)).
    { apply bool_decide_ext. rewrite elem_of_cons. naive_solver. }
    by rewrite Eb.
Qed.

Definition move_in (c : cluster) (slots : list Z) (t : Table) : Table :=
  t <| migrating_to_ := moved c (migrating_to_ (table c0)) slots (migrating_to_ t) |>
    <| importing_from_ := moved c (importing_from_ (table c0)) slots (importing_from_ t) |>.

Lemma apply_moves slots : forall c, (forall slot p, refers (table c0) slot p -> is_Some (lookup c (n_id (peer c0 p)))) ->
  foldl apply_move c (concat (map (moves_at c0) slots)) = on_table (move_in c slots) c.
Proof.
  induction slots as [|slot slots IH]; intros c Hk; [by destruct c as [? ? ? [] ]|].
  cbn [map concat]. rewrite foldl_app.
  assert (E1 : foldl apply_move c (moves_at c0 slot) = on_table (move_in c [slot]) c).
  { unfold moves_at, migrating_to, importing_from. rewrite foldl_app.
    pose proof (fun p Ep => Hk slot p (or_intror (or_introl Ep))) as Hm.
    pose proof (fun p Ep => Hk slot p (or_intror (or_intror Ep))) as Hi.
    unfold move_in, moved. cbn [foldl].
    destruct (migrating_to_ (table c0) !! slot) as [p|]; destruct (importing_from_ (table c0) !! slot) as [p'|]; cbn [foldl].
    - destruct (Hm p eq_refl) as [q Eq]. destruct (Hi p' eq_refl) as [q' Eq'].
      unfold apply_move at 2. rewrite Eq. unfold apply_move. change (lookup (set_migrating slot (Some q) c)) with (lookup c).
      rewrite Eq'. by destruct c as [? ? ? [] ].
    - destruct (Hm p eq_refl) as [q Eq]. unfold apply_move. rewrite Eq. by destruct c as [? ? ? [] ].
    - destruct (Hi p' eq_refl) as [q' Eq']. unfold apply_move. rewrite Eq'. by destruct c as [? ? ? [] ].
    - by destruct c as [? ? ? [] ]. }
  rewrite E1, IH; [|exact Hk]. reflexivity.
Qed.

(** ** What is read back *)

Lemma listed_index p : member c0 p -> exists q, 0 <= q /\ listed !! Z.to_nat q = Some p.
Proof.
  intros Hp%elem_of_listed. apply list_elem_of_lookup in Hp as [i Hi]. exists (Z.of_nat i). rewrite Nat2Z.id. split; [lia|done].
Qed.

Lemma loads_lookup s p q : loads c0 c1 listed s -> member c0 p ->
  lookup (ld_cluster s) (n_id (peer c0 p)) = Some q <-> 0 <= q /\ listed !! Z.to_nat q = Some p.
Proof.
  intros L Hp. rewrite (loads_known _ _ _ _ L). split; [|naive_solver].
  intros (H0 & p' & Hp' & Hid). rewrite (same_id p p'); [done|done| |done].
  by apply list_elem_of_lookup_2, elem_of_listed in Hp'.
Qed.

Lemma loads_owner s slot : loads c0 c1 listed s ->
  owner_ (table (ld_cluster s)) !! slot = match owner c0 slot with
                                          | Some p => lookup (ld_cluster s) (n_id (peer c0 p))
                                          | None => None
                                          end.
Proof.
  intros L. assert (A : forall q, owner_ (table (ld_cluster s)) !! slot = Some q ->
    exists p, owner c0 slot = Some p /\ lookup (ld_cluster s) (n_id (peer c0 p)) = Some q).
  { intros q Eq. destruct (tb_refs _ _ (ls_ok _ _ _ _ L) slot q) as [Hr (m & Em & _)]; [by left|].
    pose proof (tb_slots _ _ (ls_ok _ _ _ _ L) _ _ slot Em ltac:(lia)) as Hb. rewrite bool_decide_eq_true_2 in Hb by done.
    apply (ls_heap _ _ _ _ L) in Em as (H0 & p & Hp & ->). cbn in Hb.
    assert (Hm : member c0 p) by (by apply list_elem_of_lookup_2, elem_of_listed in Hp).
    exists p. split; [|by apply loads_lookup]. destruct Hm as (n & E & _). rewrite (peer_lookup _ _ _ E) in Hb.
    apply (owner_bit _ _ _ E) in Hb; [done|lia]. }
  destruct (owner_ _ !! slot) as [q|] eqn:Eq; [by destruct (A q eq_refl) as (p & -> & ->)|].
  destruct (owner c0 slot) as [p|] eqn:Eo; [|done]. exfalso.
  destruct (tb_refs _ _ (sd_table _ Hs) slot p) as [Hr Hm]; [by left|]. destruct (listed_index p Hm) as (q & H0 & Hq).
  destruct Hm as (n & E & _). apply (owner_bit _ _ _ E) in Eo; [|lia].
  assert (Em : heap (table (ld_cluster s)) !! q = Some (recalled (now c1) n)).
  { apply (ls_heap _ _ _ _ L). split; [done|]. exists p. by rewrite (peer_lookup _ _ _ E). }
  pose proof (tb_slots _ _ (ls_ok _ _ _ _ L) _ _ slot Em ltac:(lia)) as Hb.
  change (n_slots (recalled (now c1) n)) with (n_slots n) in Hb. rewrite Eo, Eq in Hb. by rewrite bool_decide_eq_false_2 in Hb.
Qed.

(** A pointer of [c] in terms of the ids of [c']. *)
Definition called (c : cluster) (o : option Z) : option bytes := (fun p => n_id (peer c p)) <$> o.

Record restores (c c' : cluster) : Prop := {
  rs_known : forall id, is_Some (lookup c' id) <-> exists p, lookup c id = Some p /\ is_ kHandshake (peer c p) = false;
  rs_node : forall id p q, lookup c id = Some p -> lookup c' id = Some q -> peer c' q = recalled (now c') (peer c p);
  rs_me : n_id (myself c') = n_id (myself c);
  rs_owner : forall slot, called c' (owner c' slot) = called c (owner c slot);
  rs_migrating : forall slot, called c' (migrating_to c' slot) = called c (migrating_to c slot);
  rs_importing : forall slot, called c' (importing_from c' slot) = called c (importing_from c slot);
  rs_current : current_epoch_ c' = current_epoch_ c;
  rs_last : last_vote_epoch_ c' = last_vote_epoch_ c;
}.

Lemma loads_called s p q : loads c0 c1 listed s -> lookup (ld_cluster s) (n_id (peer c0 p)) = Some q ->
  n_id (peer (ld_cluster s) q) = n_id (peer c0 p).
Proof.
  intros L E. apply (tb_ids _ _ (ls_ok _ _ _ _ L)) in E as (n & E & Hid). by rewrite (peer_lookup _ _ _ E).
Qed.

(** Everything a reader ends up with, in one place. *)
Definition reader (c : cluster) (q : Z) : cluster :=
  on_table (move_in c all_slots)
    (c <| current_epoch_ := current_epoch_ c0 |> <| last_vote_epoch_ := last_vote_epoch_ c0 |> <| myself_ := q |>).

Lemma refers_known s slot p : loads c0 c1 listed s -> refers (table c0) slot p ->
  is_Some (lookup (ld_cluster s) (n_id (peer c0 p))).
Proof.
  intros L Hr. destruct (tb_refs _ _ (sd_table _ Hs) _ _ Hr) as [_ Hp]. destruct (listed_index p Hp) as (q & Hq).
  exists q. by apply loads_lookup.
Qed.

Lemma reader_moves s (from : gmap Z Z) slot : loads c0 c1 listed s ->
  (forall slot p, from !! slot = Some p -> refers (table c0) slot p) ->
  moved (ld_cluster s) from all_slots ∅ !! slot =
  match from !! slot with Some p => lookup (ld_cluster s) (n_id (peer c0 p)) | None => None end.
Proof.
  intros L Hf. rewrite moved_lookup, lookup_empty. destruct (from !! slot) as [p|] eqn:E; [|done].
  destruct (tb_refs _ _ (sd_table _ Hs) _ _ (Hf _ _ E)) as [Hr _]. by rewrite bool_decide_eq_true_2 by (by apply all_slots_range).
Qed.

Lemma called_lookup s o : loads c0 c1 listed s -> (forall p, o = Some p -> exists slot, refers (table c0) slot p) ->
  called (ld_cluster s) (match o with Some p => lookup (ld_cluster s) (n_id (peer c0 p)) | None => None end) = called c0 o.
Proof.
  intros L Ho. destruct o as [p|]; [|done]. destruct (Ho p eq_refl) as [slot Hr].
  destruct (refers_known s slot p L Hr) as [q E]. rewrite E. cbn. f_equal. by apply loads_called.
Qed.

(** The loaded state, and what the writer knows of moves in its terms. *)
Definition in_terms_of (c : cluster) (o : option Z) : option Z :=
  match o with Some p => lookup c (n_id (peer c0 p)) | None => None end.

Section reader.
Context (s : Loading (DS := DS)) (q : Z) (L : loads c0 c1 listed s) (Hq : ld_me s = Some q).

Lemma reader_migrating slot :
  migrating_to (reader (ld_cluster s) q) slot = in_terms_of (ld_cluster s) (migrating_to c0 slot).
Proof.
  destruct (ls_moving _ _ _ _ L) as [Lm _]. unfold migrating_to at 1, reader, move_in. cbn. rewrite Lm.
  apply reader_moves; [done|]. intros; right; by left.
Qed.

Lemma reader_importing slot :
  importing_from (reader (ld_cluster s) q) slot = in_terms_of (ld_cluster s) (importing_from c0 slot).
Proof.
  destruct (ls_moving _ _ _ _ L) as [_ Li]. unfold importing_from at 1, reader, move_in. cbn. rewrite Li.
  apply reader_moves; [done|]. intros; right; by right.
Qed.

Lemma reader_known id : is_Some (lookup (reader (ld_cluster s) q) id) <->
  exists p, lookup c0 id = Some p /\ is_ kHandshake (peer c0 p) = false.
Proof.
  split.
  - intros [q' E]. change (lookup (ld_cluster s) id = Some q') in E.
    apply (loads_known _ _ _ _ L) in E as (_ & p & Hp & <-).
    apply list_elem_of_lookup_2, elem_of_listed in Hp as (n & E & Hh). exists p.
    rewrite (peer_lookup _ _ _ E). split; [|done]. apply (tb_ids _ _ (sd_table _ Hs)). eauto.
  - intros (p & (n & E & <-)%(tb_ids _ _ (sd_table _ Hs)) & Hh). rewrite (peer_lookup _ _ _ E) in Hh.
    destruct (listed_index p) as (q' & Hq'); [by exists n|]. exists q'. rewrite <-(peer_lookup _ _ _ E).
    apply (loads_lookup s); [done|by exists n|done].
Qed.

Lemma reader_node id p q' : lookup c0 id = Some p -> lookup (reader (ld_cluster s) q) id = Some q' ->
  peer (reader (ld_cluster s) q) q' = recalled (now (reader (ld_cluster s) q)) (peer c0 p).
Proof.
  intros (n & E & <-)%(tb_ids _ _ (sd_table _ Hs)) E'. change (lookup (ld_cluster s) (n_id n) = Some q') in E'.
  apply (loads_known _ _ _ _ L) in E' as (H0 & p' & Hp' & Hid).
  assert (Eh : heap (table (ld_cluster s)) !! q' = Some (recalled (now c1) (peer c0 p'))) by (apply (ls_heap _ _ _ _ L); eauto).
  change (peer (ld_cluster s) q' = recalled (now (ld_cluster s)) (peer c0 p)). rewrite (peer_lookup _ _ _ Eh).
  rewrite (framed_now _ _ (ls_frame _ _ _ _ L)). do 2 f_equal.
  apply list_elem_of_lookup_2, elem_of_listed in Hp' as (n' & E'' & _). rewrite (peer_lookup _ _ _ E'') in Hid.
  assert (A : nodes_ (table c0) !! n_id n = Some p) by (apply (tb_ids _ _ (sd_table _ Hs)); eauto).
  assert (A' : nodes_ (table c0) !! n_id n' = Some p') by (apply (tb_ids _ _ (sd_table _ Hs)); eauto). congruence.
Qed.

Lemma reader_restores : restores c0 (reader (ld_cluster s) q).
Proof.
  split; [apply reader_known|apply reader_node|..|done|done].
  - change (n_id (peer (ld_cluster s) q) = n_id (peer c0 (myself_ c0))).
    apply (loads_called s (myself_ c0)); [done|]. apply loads_lookup; [done|apply Hs|]. by apply (ls_me _ _ _ _ L).
  - intros slot. change (called (ld_cluster s) (owner_ (table (ld_cluster s)) !! slot) = called c0 (owner c0 slot)).
    rewrite (loads_owner s slot L). apply called_lookup; [done|]. intros p E. exists slot. by left.
  - intros slot. rewrite reader_migrating. apply (called_lookup s); [done|]. intros p E. exists slot. right. by left.
  - intros slot. rewrite reader_importing. apply (called_lookup s); [done|]. intros p E. exists slot. right. by right.
Qed.

Lemma in_terms_member o slot p : (forall p', o = Some p' -> refers (table c0) slot p') ->
  in_terms_of (ld_cluster s) o = Some p -> 0 <= slot < kSlots /\ tmember (table (ld_cluster s)) p.
Proof.
  intros Ho E. destruct o as [p'|]; [|done].
  destruct (tb_refs _ _ (sd_table _ Hs) _ _ (Ho p' eq_refl)) as [Hslot _]. split; [done|].
  apply (tb_ids _ _ (ls_ok _ _ _ _ L)) in E as (n & E & _). exists n. split; [done|].
  apply (ls_heap _ _ _ _ L) in E as (_ & p'' & _ & ->). apply recalled_member.
Qed.

Lemma reader_table_ok : table_ok (table (reader (ld_cluster s) q)) (Some q).
Proof.
  rewrite <-Hq. apply (table_ok_moves (table (ld_cluster s))); [done..| |apply L]. intros slot p [Hr|[Hr|Hr]].
  - left. by left.
  - right. apply (in_terms_member (migrating_to c0 slot)); [intros; right; by left|]. by rewrite <-reader_migrating.
  - right. apply (in_terms_member (importing_from c0 slot)); [intros; right; by right|]. by rewrite <-reader_importing.
Qed.

End reader.

(** What is written is read back. *)
Lemma parse_describe : table c1 = mkTable ∅ 0 ∅ ∅ ∅ ∅ -> exists c td,
  parse_config (describe_nodes true c0) c1 = inr c /\ restores c0 c /\ table_ok (table c) (Some (myself_ c)) /\
  c = c1 <| table := table c |> <| todo := td |> <| current_epoch_ := current_epoch_ c0 |>
         <| last_vote_epoch_ := last_vote_epoch_ c0 |> <| myself_ := myself_ c |> /\
  (forall q m, heap (table c) !! q = Some m -> exists p, member c0 p /\ m = recalled (now c1) (peer c0 p)) /\
  live c (myself_ c).
Proof.
  intros Et. destruct (loads_file Et) as (c & q & L & E).
  pose proof (reader_restores _ q L eq_refl) as R. pose proof (reader_table_ok _ q L eq_refl) as T. destruct (ls_frame _ _ _ _ L) as [td Ef]. cbn [ld_cluster] in *.
  exists (reader c q), td. split_and!; [|done|done|..].
  - unfold parse_config. rewrite E. cbn [ld_me ld_cluster ld_moves]. f_equal. unfold moves_of.
    rewrite apply_moves; [done|]. intros slot p. apply (refers_known _ slot p L).
  - unfold reader. revert Ef. generalize (table c). intros t ->. reflexivity.
  - intros q' m (_ & p & Hp & ->)%(ls_heap _ _ _ _ L). exists p. split; [|done].
    by apply list_elem_of_lookup_2, elem_of_listed in Hp.
  - destruct (proj1 (ls_me _ _ _ _ L q) eq_refl) as [H0 Hq]. exists (recalled (now c1) (peer c0 (myself_ c0))).
    apply (ls_heap _ _ _ _ L). eauto.
Qed.

End lines.

(** ** Starting a node *)

(** What a node leaves behind: its disk and what it has posted. *)
Record leaves (B : Z) (d : option bytes) (log : list (option Z * Message)) : Prop := {
  lv_bound : 0 <= B <= M.uint64_max;
  lv_polite : Forall (fun x => polite x.2) log;
  lv_once : NoDup (omap ack_epoch log);
  lv_disk : match d with
            | None => omap ack_epoch log = []
            | Some text => exists c0 : cluster, text = describe_nodes true c0 /\ sound c0 /\
                covers (current_epoch_ c0) (last_vote_epoch_ c0) (omap ack_epoch log) /\ current_epoch_ c0 <= B
            end;
}.

Lemma good_leaves B c d : good B c -> d ∈ disk c :: unsynced c -> leaves B d (posted c).
Proof.
  intros Hg Hin. pose proof (lw_current _ _ (gd_low _ _ Hg)) as Hb. pose proof (vt_current _ (gd_votes _ _ Hg)) as H0.
  split; [split; [lia|apply Hg]|apply Hg|apply (gd_votes _ _ Hg)|].
  pose proof (gd_disk _ _ Hg) as Hd. unfold disk_ok in Hd. rewrite list.Forall_forall in Hd. specialize (Hd d Hin).
  destruct d; [|done].
  destruct Hd as (c0 & ? & ? & ? & _ & ?). exists c0. split_and!; [done..|lia].
Qed.

Lemma nothing_leaves : leaves 0 None [].
Proof. split; [done|constructor|constructor|done]. Qed.

(** What a node is started with. *)
Record setting (o : Options) (w : World) : Prop := {
  st_ports : 0 <= port o <= M.uint16_max /\ 0 <= cport o <= M.uint16_max;
  st_bind : clean_ip (bind_addr o);
  st_local : forall ip, w_local_ip w = Some ip -> clean_ip ip;
  st_drawn : w_drawn w = 0%nat;
  st_distinct : forall i j, in_time i -> in_time j -> nth_id (w_rng w) i = nth_id (w_rng w) j -> i = j;
}.

(** The state after [load_config] has read the file, before it saves it again. *)
Definition loaded (c : cluster) : bytes + cluster :=
  match disk c with
  | None => let '(id, c) := random_id c in
            let '(p, c) := create_node id (Z.lor kMyself kMaster) c in inr (c <| myself_ := p |>)
  | Some text => parse_config text c
  end.

(** What [load_config] does to the address of the node itself. *)
Definition own_address (c : cluster) (m : Peer) : Peer :=
  let m := m <| n_port := port (options_ c) |> <| n_cport := cport (options_ c) |> in
  if beq (n_ip m) [] && negb (beq (bind_addr (options_ c)) &"0.0.0.0") then m <| n_ip := bind_addr (options_ c) |> else m.

Lemma load_config_loaded c : load_config c =
  match loaded c with
  | inl e => inl (config_file (options_ c) ++ &": " ++ e)
  | inr c => let '(ok, c) := save_config (update_state (on_peer (myself_ c) (own_address c) c)) in
             if ok then inr c else inl (config_file (options_ c))
  end.
Proof. reflexivity. Qed.

Lemma leads_own_address B' c : clean_ip (bind_addr (options_ c)) -> leads B' B' [] c (on_peer (myself_ c) (own_address c) c).
Proof.
  intros Hb Hg. apply leads_tame; [|..|done].
  - intros m. pose proof (gd_options _ _ Hg) as [Hp Hc]. unfold own_address. destruct (_ && _); (split; [split|]; try done);
      intros []; by split.
  - intros m. unfold own_address. by destruct (_ && _).
  - intros m. unfold own_address. by destruct (_ && _).
Qed.

Lemma leads_verify B' c : leads B' B' [] c (verify_config_with_data c).
Proof.
  unfold verify_config_with_data. destruct (is_ kReplica (myself c)); [apply leads_refl|].
  match goal with |- context [foldl ?g (c, false) all_slots] => set (f := g) end.
  assert (K : forall slots c ch, (forall slot, slot ∈ slots -> 0 <= slot < kSlots) -> leads B' B' [] c (foldl f (c, ch) slots).1).
  { induction slots as [|slot slots IH]; intros c' ch Hr; [apply leads_refl|]. cbn [foldl].
    assert (Hslot : 0 <= slot < kSlots) by apply Hr, list_elem_of_here.
    assert (L : leads B' B' [] c' (f (c', ch) slot).1).
    { unfold f. destruct (_ || _ || _); [apply leads_refl|]. intros Hg. destruct (owner c' slot) as [q|] eqn:Eo.
      - apply leads_set_importing; [done| |done]. intros q' [= <-]. apply (tb_refs _ _ (gd_table _ _ Hg) slot q). by left.
      - apply leads_set_slot; [done| |done]. intros q' [= <-]. apply Hg. }
    destruct (f (c', ch) slot) as [c2 ch2]. eapply leads_seq; [exact L|intros _ _]. apply IH.
    intros s Hin. apply Hr. by apply list_elem_of_further. }
  specialize (K all_slots c false). destruct (foldl f (c, false) all_slots) as [c' ch]. cbn [fst] in K.
  eapply leads_then; [|apply inert_update_state]. eapply leads_seq; [apply K; intros slot; apply all_slots_range|intros _ _].
  destruct ch; [apply leads_inert, inert_todo_save|apply leads_refl].
Qed.

Lemma leads_start B' c : leads B' B' [] c (start c).
Proof.
  unfold start. cbv zeta. eapply leads_then; [|apply inert_update_state]. eapply leads_then; [|apply inert_follow_master].
  apply leads_inert. inert_update.
Qed.

Lemma leads_load_end B' c : clean_ip (bind_addr (options_ c)) -> forall c',
  (let '(ok, c) := save_config (update_state (on_peer (myself_ c) (own_address c) c)) in
   if ok then inr c else inl (config_file (options_ c))) = inr c' -> leads B' B' [] c c'.
Proof.
  intros Hb c' E. set (c2 := update_state (on_peer (myself_ c) (own_address c) c)) in E.
  apply (leads_seq _ B' _ _ _ c2); [eapply leads_then; [by apply leads_own_address|apply inert_update_state]|intros _ _].
  pose proof (leads_save B' c2) as L. destruct (save_config c2) as [[|] c3]; [|done]. by injection E as <-.
Qed.

Section boot.
Context (B : Z) (o : Options) (n : R.Node DS) (w : World) (d : option bytes) (log : list (option Z * Message)).
Context (Hl : leaves B d log) (Hw : setting o w) (HB : B + 1 <= M.uint64_max).

(** None of the ids to be drawn is the id of a node in the file. *)
Definition new_ids : Prop :=
  forall c, loaded (initial o n w d log) = inr c -> forall j, in_time j -> (w_drawn (world c) <= j * M.kNodeIdLength)%nat ->
    nodes_ (table c) !! nth_id (w_rng w) j = None.

Lemma no_links_ok h : (forall (p : Z) m, h !! p = Some m -> n_link m = None) -> links_ok h ∅ 0.
Proof.
  intros Hh. split; intros *; rewrite ?lookup_empty; try done. intros E Hn. rewrite (Hh _ _ E) in Hn. done.
Qed.

Lemma covers_nil cur last : covers cur last [].
Proof. constructor. Qed.

Lemma load_file text : new_ids -> d = Some text ->
  exists c, loaded (initial o n w d log) = inr c /\ good (B + 1) c /\ posted c = log /\ options_ c = o /\ w_rng (world c) = w_rng w /\
    w_saves (world c) = w_saves w.
Proof.
  intros Hids Ed. destruct Hl as [Hb Hpol Honce Hdisk]. rewrite Ed in Hdisk. destruct Hdisk as (c0 & -> & Hs & Hc & Hle).
  destruct (parse_describe c0 (initial o n w d log) Hs eq_refl) as (c & td & E & R & T & Ec & Hh & Hme).
  assert (El : loaded (initial o n w d log) = inr c).
  { unfold loaded. replace (disk (initial o n w d log)) with (Some (describe_nodes true c0)) by (by rewrite <-Ed). exact E. }
  pose proof (Hids c El) as Hnew. exists c. split; [done|].
  assert (Ef : posted c = log /\ options_ c = o /\ world c = w /\ disk c = d /\ unsynced c = [] /\ links c = ∅ /\ next_link c = 0 /\
               manual c = mkManual None None None false false /\ auth c = mkAuth None 0 false 0 0).
  { rewrite Ec. done. }
  destruct Ef as (F1 & F2 & F3 & F4 & F4' & F5 & F6 & F7 & F8). split; [|by rewrite F3].
  pose proof (sd_votes _ Hs) as [V1 V2 V3 V4]. destruct Hw. split.
  - done.
  - destruct Hme as [m Em]. destruct (Hh _ _ Em) as (p & _ & ->). eexists. split; [done|]. apply recalled_member.
  - rewrite F5, F6. apply no_links_ok. intros p m (p' & _ & ->)%Hh. done.
  - rewrite F3. split; [done|..].
    + exists 0%nat. rewrite F3 in Hnew. split_and!; [done|lia|]. intros j _ Hj. apply Hnew; [done|lia].
    + intros p m (p' & _ & ->)%Hh Hf. by rewrite recalled_member in Hf.
  - by rewrite F7.
  - by rewrite F3.
  - rewrite F8, (rs_current _ _ R). cbn. lia.
  - by rewrite F2.
  - by rewrite F1.
  - rewrite <-(rs_current _ _ R) in Hle. split; [done|lia|]. intros p m (p' & (m' & Em' & _) & ->)%Hh. cbn.
    rewrite (peer_lookup _ _ _ Em'), (rs_current _ _ R). apply (lw_config _ _ (sd_low _ Hs) _ _ Em').
  - split; unfold acks; rewrite ?F1, ?(rs_current _ _ R), ?(rs_last _ _ R); done.
  - unfold disk_ok. rewrite F4, F4', Ed. apply Forall_singleton. unfold file_ok, acks. rewrite F1. exists c0. split_and!; [done..| |].
    + by rewrite (rs_me _ _ R).
    + rewrite (rs_current _ _ R). lia.
Qed.

Lemma load_new : d = None ->
  exists c, loaded (initial o n w d log) = inr c /\ good (B + 1) c /\ posted c = log /\ options_ c = o /\ w_rng (world c) = w_rng w /\
    w_saves (world c) = w_saves w.
Proof.
  intros Ed. destruct Hl as [Hb Hpol Honce Hdisk]. rewrite Ed in Hdisk. destruct Hw as [Hports Hbind Hlocal Hdrawn Hdis].
  set (c1 := initial o n w d log). set (id := drawn_id (w_rng w) (w_drawn w)).
  set (m := new_peer <| n_id := id |> <| n_flags := Z.lor kMyself kMaster |> <| n_ctime := now c1 |>).
  destruct (create_node_fresh id (Z.lor kMyself kMaster) (draw c1) (fun x => x)) as [_ E2]; [done|done|].
  set (c := on_table (enrol_in m) (draw c1) <| myself_ := 0 |>). exists c.
  assert (Ec : loaded c1 = inr c).
  { unfold loaded. replace (disk c1) with (@None bytes) by (by rewrite <-Ed). reflexivity. }
  split; [exact Ec|]. split; [|done].
  assert (T : table_ok (table c) (Some 0)).
  { apply (table_ok_enrol m (mkTable ∅ 0 ∅ ∅ ∅ ∅) None); try done; [|by right|apply (ls_ok c1 c1 [] (mkLoading c1 None []))].
    - split; cbn; try done; [apply drawn_id_valid|constructor|split; [constructor|done]].
    - by apply loads_start. }
  assert (Hm : forall p x, heap (table c) !! p = Some x -> p = 0 /\ x = m).
  { intros p x. cbn. rewrite lookup_insert_Some, lookup_empty. intros [[<- <-]|[_ ?]]; done. }
  split; try done.
  - exists m. split; [|done]. cbn. by rewrite lookup_insert_eq.
  - apply no_links_ok. intros p x [_ ->]%Hm. done.
  - split; [done|..].
    + exists 1%nat. cbn. rewrite Hdrawn. split_and!; [done|lia|]. intros j Hj Ht. rewrite lookup_insert_ne; [by rewrite lookup_empty|].
      intros E. assert (0%nat = j); [|lia]. apply Hdis; [unfold in_time, M.uint64_max; lia|done|exact E].
    + intros p x [_ ->]%Hm. done.
  - split; [done|cbn; lia|]. intros p x [_ ->]%Hm. done.
  - split; [exact Honce| |done|done]. change (acks c) with (omap ack_epoch log). rewrite Hdisk. apply covers_nil.
  - unfold disk_ok. change (disk c) with d. change (unsynced c) with (@nil (option bytes)). rewrite Ed.
    by apply Forall_singleton.
Qed.

Lemma load_any : new_ids ->
  exists c, loaded (initial o n w d log) = inr c /\ good (B + 1) c /\ posted c = log /\ options_ c = o /\ w_rng (world c) = w_rng w /\
    w_saves (world c) = w_saves w.
Proof.
  intros Hids. assert (A : (exists text, d = Some text) \/ d = None) by (destruct d; eauto).
  destruct A as [[text E]|E]; [by apply (load_file text)|by apply load_new].
Qed.

(** What happens to the node once its file is read. *)
Lemma boot_leads c1 c : loaded (initial o n w d log) = inr c1 -> options_ c1 = o -> boot o n w d log = inr c ->
  leads (B + 1) (B + 1) [] c1 c.
Proof.
  intros E1 Ho1 Eb. unfold boot in Eb. rewrite load_config_loaded, E1 in Eb.
  destruct (let '(ok, c) := save_config _ in _) as [e|c2] eqn:E2; [done|]. injection Eb as <-.
  apply (leads_seq _ (B + 1) _ _ _ c2); [eapply leads_load_end; [|exact E2]; rewrite Ho1; apply Hw|intros _ _].
  eapply leads_seq; [apply leads_verify|intros _ _; apply leads_start].
Qed.

(** A node that starts is well, and forgets none of its votes. *)
Lemma boot_good c : new_ids -> boot o n w d log = inr c ->
  good (B + 1) c /\ log `prefix_of` posted c /\ w_rng (world c) = w_rng w.
Proof.
  intros Hids Eb. destruct (load_any Hids) as (c1 & E1 & Hg1 & Hp1 & Ho1 & Hr1 & _).
  destruct (boot_leads c1 c E1 Ho1 Eb Hg1) as [Hg G].
  split; [done|]. rewrite <-Hp1 at 1. split; [apply G|]. by rewrite (gr_rng _ _ _ G).
Qed.

Lemma update_state_world c : world (update_state c) = world c.
Proof. unfold update_state. cbv zeta. by repeat case_match. Qed.

(** If the first save works, a node starts: its own file is never refused. *)
Lemma boot_works : new_ids -> w_saves w = [] -> exists c, boot o n w d log = inr c.
Proof.
  intros Hids Hsv. destruct (load_any Hids) as (c1 & E1 & _ & _ & _ & _ & Hs1).
  unfold boot. rewrite load_config_loaded, E1. set (c2 := update_state _).
  assert (E2 : w_saves (world c2) = []) by (unfold c2; rewrite update_state_world; by rewrite <-Hsv, <-Hs1).
  unfold save_config. rewrite E2. eauto.
Qed.

Lemma verify_disk c : disk (verify_config_with_data c) = disk c.
Proof.
  unfold verify_config_with_data. destruct (is_ kReplica (myself c)); [done|].
  match goal with |- context [foldl ?g (c, false) all_slots] => set (f := g) end.
  assert (K : forall slots c' ch, disk (foldl f (c', ch) slots).1 = disk c').
  { induction slots as [|slot slots IH]; intros c' ch; [done|]. cbn [foldl].
    assert (E : disk (f (c', ch) slot).1 = disk c').
    { unfold f. destruct (_ || _ || _); [done|]. by destruct (owner c' slot). }
    rewrite <-E. destruct (f (c', ch) slot). apply IH. }
  specialize (K all_slots c false). destruct (foldl f (c, false) all_slots) as [c' ch]. cbn [fst] in K.
  rewrite (in_disk _ _ (inert_update_state _)). by destruct ch.
Qed.

Lemma start_disk c : disk (start c) = disk c.
Proof.
  unfold start. cbv zeta. rewrite (in_disk _ _ (inert_update_state _)), (in_disk _ _ (inert_follow_master _)). done.
Qed.

(** What the first save wrote. *)
Lemma boot_disk c1 c : loaded (initial o n w d log) = inr c1 -> w_saves (world c1) = [] -> boot o n w d log = inr c ->
  disk c = Some (describe_nodes true (update_state (on_peer (myself_ c1) (own_address c1) c1))).
Proof.
  intros E1 Hs1 Eb. unfold boot in Eb. rewrite load_config_loaded, E1 in Eb.
  set (c2 := update_state _) in *.
  assert (E2 : w_saves (world c2) = []) by (unfold c2; rewrite update_state_world; exact Hs1).
  unfold save_config in Eb. rewrite E2 in Eb. injection Eb as <-. by rewrite start_disk, verify_disk.
Qed.

(** It is the node that wrote the file. *)
Lemma boot_id c c0 : new_ids -> boot o n w d log = inr c -> d = Some (describe_nodes true c0) -> sound c0 ->
  n_id (myself c) = n_id (myself c0).
Proof.
  intros Hids Eb Ed Hs. destruct (load_any Hids) as (c1 & E1 & Hg1 & _ & Ho1 & _).
  destruct (boot_leads c1 c E1 Ho1 Eb Hg1) as [_ G].
  rewrite (grows_myid _ _ _ G (gd_me _ _ Hg1)) by apply not_elem_of_nil.
  destruct (parse_describe c0 (initial o n w d log) Hs eq_refl) as (c' & td & E & R & _).
  unfold loaded in E1. replace (disk (initial o n w d log)) with (Some (describe_nodes true c0)) in E1 by (by rewrite <-Ed).
  assert (c' = c1) as -> by congruence. apply R.
Qed.

End boot.

(** The ids in a file are those of the nodes it was written of. *)
Lemma file_ids o (n : R.Node DS) w c0 log : sound c0 -> (forall j, lookup c0 (nth_id (w_rng w) j) = None) ->
  new_ids o n w (Some (describe_nodes true c0)) log.
Proof.
  intros Hs Hids c E j _ _. unfold loaded in E. cbn in E.
  destruct (parse_describe c0 (initial o n w (Some (describe_nodes true c0)) log) Hs eq_refl) as (c' & td & E' & R & _).
  assert (c' = c) as -> by congruence. apply eq_None_not_Some. intros Hk.
  apply (rs_known _ _ R) in Hk as (p & Hp & _). by rewrite Hids in Hp.
Qed.

End loading.

End ClusterConfig.
