(* ===== verification/ClusterSafety.v ===== *)
(** * The lives of a node of the cluster

    [life B c]: [c] is a state a node can come to, from its first start over
    events and restarts, among well-behaved nodes; [B] bounds the epochs seen and
    the ids drawn so far, and the rules keep it within 64 bits.  A restart keeps
    nothing but the configuration file, or, after a crash of the machine, an older
    one that was not replaced for good.  The theorems: a node never votes twice
    in an epoch, whatever it forgets; its tables never dangle; its epochs do not
    go back; it is itself well behaved; and it starts again from its file. *)

From Stdlib Require Import Lia.
From stdpp Require Import relations.
From S2P Require Import Prelude Resp Slots ClusterMsg Replication Cluster ClusterInv ClusterOps ClusterEvents ClusterConfig.

Module ClusterSafety.
Import Cluster ClusterInv ClusterOps ClusterEvents ClusterConfig.

Section lives.
Context {DS : Type} `{SlotStore DS}.
Abbreviation cluster := (Cluster DS).

Implicit Types c : cluster.

Inductive life : Z -> cluster -> Prop :=
  | life_first o n w c : setting o w -> boot o n w None [] = inr c -> life 1 c
  | life_event B B' e c : life B c -> B <= B' -> B' + cost e c <= M.uint64_max -> admissible B' e c ->
      life (B' + cost e c) (handle e c)
  | life_restart B o n w c d c' : life B c -> d ∈ disk c :: unsynced c -> setting o w -> new_ids o n w d (posted c) ->
      B + 1 <= M.uint64_max -> boot o n w d (posted c) = inr c' -> life (B + 1) c'.

(** The only id known at a first start is the one drawn for the node itself. *)
Lemma first_ids o (n : R.Node DS) w : setting o w -> new_ids o n w None [].
Proof.
  intros [_ _ _ Hd Hdis] c E j Hj Hle. unfold loaded in E. cbn in E. injection E as <-. cbn in *.
  rewrite lookup_insert_ne; [by rewrite lookup_empty|]. rewrite Hd in *. intros Ej. assert (0%nat = j); [|unfold M.kNodeIdLength in *; lia].
  apply Hdis; [unfold in_time, M.uint64_max; lia|done|exact Ej].
Qed.

Lemma life_good B c : life B c -> good B c.
Proof.
  induction 1 as [o n w c Hw Hb|B B' e c _ Hg HB Hc Ha|B o n w c d c' _ Hg Hd Hw Hids HB Hb].
  - destruct (boot_good 0 o n w None [] nothing_leaves Hw ltac:(unfold M.uint64_max; lia) c (first_ids o n w Hw) Hb) as [Hg _].
    exact Hg.
  - pose proof (cost_pos e c). destruct (advances_handle B' e c Hc Ha) as [Hg' _]; [|done].
    apply (good_mono B); [lia|done].
  - destruct (boot_good B o n w d (posted c) (good_leaves B c d Hg Hd) Hw HB c' Hids Hb) as [Hg' _]. exact Hg'.
Qed.

Lemma life_progress B e c : life B c -> B + cost e c <= M.uint64_max -> admissible B e c -> progress c (handle e c).
Proof. intros Hg%life_good Hc Ha. by destruct (advances_handle B e c Hc Ha Hg). Qed.

End lives.
End ClusterSafety.
