(* ===== verification/ClusterClaims.v ===== *)
(** * The properties of a node of the cluster

    The theorems of the cluster, stated of any dataset, and a small cluster node
    on the dataset of the server that shows that their hypotheses can hold: it
    starts for the first time and starts again from its file; and a few small
    clusters as one of their nodes knows them. *)

From Stdlib Require Import Lia.
From stdpp Require Import relations.
From S2P Require Import Prelude Resp Slots HashTable Store ClusterMsg Replication Cluster ClusterStore ClusterInv.
From S2P Require Import ClusterOps ClusterEvents ClusterRules ClusterConfig ClusterSafety.

Module ClusterDemo.
Import Cluster ClusterStore ClusterInv ClusterOps ClusterEvents ClusterConfig ClusterSafety.

(** ** A generator of ids: a counter, and a last digit of its own *)

Definition counter (lead : Z) (k : nat) : Z :=
  let t := Z.of_nat (k mod 40) in
  if t =? 39 then lead else (Z.of_nat (k / 40) / 16 ^ t) mod 16.

Lemma counter_at lead j t : (t < 40)%nat ->
  counter lead (j * 40 + t) = if (t =? 39)%nat then lead else (Z.of_nat j / 16 ^ Z.of_nat t) mod 16.
Proof.
  intros Ht. unfold counter. replace ((j * 40 + t) mod 40)%nat with t.
  2:{ rewrite Nat.add_comm, Nat.Div0.mod_add, Nat.mod_small by lia. done. }
  replace ((j * 40 + t) / 40)%nat with j.
  2:{ rewrite Nat.add_comm, Nat.div_add, Nat.div_small by lia. done. }
  destruct (Z.eqb_spec (Z.of_nat t) 39), (Nat.eqb_spec t 39); done || lia.
Qed.

Lemma hex_inj a b : 0 <= a < 16 -> 0 <= b < 16 ->
  nth (Z.to_nat a) kHex "0"%byte = nth (Z.to_nat b) kHex "0"%byte -> a = b.
Proof.
  intros Ha Hb E. assert (F : forall i j, (i < 16)%nat -> (j < 16)%nat -> nth i kHex "0"%byte = nth j kHex "0"%byte -> i = j).
  { intros i j Hi Hj. do 16 (destruct i as [|i]; [do 16 (destruct j as [|j]; [done || discriminate|]); lia|]). lia. }
  apply F in E; lia.
Qed.

Lemma counter_digit lead j t : (t < 40)%nat ->
  nth_id (counter lead) j !! t = Some (nth (Z.to_nat (counter lead (j * 40 + t) mod 16)) kHex "0"%byte).
Proof.
  intros Ht. unfold nth_id, drawn_id. rewrite (list_lookup_fmap (fun i => nth (Z.to_nat (counter lead i mod 16)) kHex "0"%byte)).
  rewrite lookup_seq_lt by (unfold M.kNodeIdLength; lia). reflexivity.
Qed.

Lemma counter_same a b i j t : (t < 40)%nat -> nth_id (counter a) i = nth_id (counter b) j ->
  counter a (i * 40 + t) mod 16 = counter b (j * 40 + t) mod 16.
Proof.
  intros Ht E. pose proof (counter_digit a i t Ht) as E1. rewrite E, (counter_digit b j t Ht) in E1.
  injection E1 as E1. apply hex_inj; [apply Z.mod_pos_bound; lia|apply Z.mod_pos_bound; lia|]. done.
Qed.

Lemma counter_distinct lead i j : in_time i -> in_time j ->
  nth_id (counter lead) i = nth_id (counter lead) j -> i = j.
Proof.
  unfold in_time, M.uint64_max. intros Hi Hj E. enough (Z.of_nat i = Z.of_nat j) by lia.
  apply Z.bits_inj'. intros b Hb. destruct (Z.lt_ge_cases b 64) as [Hlt|Hge].
  2:{ assert (K : forall z, 0 <= z < 2 ^ 64 -> Z.testbit z b = false).
      { intros z Hz. rewrite <-(Z.mod_small z (2 ^ 64)) by done. apply Z.mod_pow2_bits_high. lia. }
      by rewrite !K by lia. }
  pose proof (counter_same lead lead i j (Z.to_nat (b / 4))) as H.
  assert (Hd : 0 <= b / 4 < 16) by (split; [apply Z.div_pos; lia|apply Z.div_lt_upper_bound; lia]).
  specialize (H ltac:(lia) E). rewrite !counter_at in H by lia.
  destruct (Nat.eqb_spec (Z.to_nat (b / 4)) 39); [lia|]. rewrite !Z.mod_mod, !Z2Nat.id in H by lia.
  assert (D : forall z, Z.testbit z b = Z.testbit ((z / 16 ^ (b / 4)) mod 16) (b mod 4)).
  { intros z. change 16 with (2 ^ 4) at 2. pose proof (Z.mod_pos_bound b 4 ltac:(lia)).
    rewrite Z.mod_pow2_bits_low by lia. change 16 with (2 ^ 4). rewrite <-Z.pow_mul_r, Z.div_pow2_bits by lia.
    f_equal. pose proof (Z.div_mod b 4). lia. }
  rewrite (D (Z.of_nat i)), (D (Z.of_nat j)), H. done.
Qed.

Lemma counter_leads a b i j : 0 <= a < 16 -> 0 <= b < 16 -> a <> b -> nth_id (counter a) i <> nth_id (counter b) j.
Proof.
  intros Ha Hb Hne E. apply (counter_same a b i j 39) in E; [|lia]. rewrite !counter_at in E by lia. cbn in E.
  rewrite !Z.mod_small in E by lia. done.
Qed.

(** ** A node *)

Abbreviation DS := (Store.Store HashTable.HashTable).

Definition replication_of (d : DS) : R.Node DS :=
  R.make {| R.listening_port := 7000; R.backlog_size := 64; R.timeout := 60000000000; R.ping_period := 10000000000 |}
    &"00112233445566778899aabbccddeeff00112233" d.

Definition no_keys : DS := (Store.run 0 Store.kNoEviction [] []).2.
Definition one_key : DS := (Store.run 0 Store.kNoEviction [] [(0, Store.OSet &"raw" &"v" false)]).2.

Definition options : Options :=
  {| config_file := &"nodes.conf"; bind_addr := &"10.0.0.1"; port := 7000; cport := 17000;
     node_timeout := 15000000000; require_full_coverage := true; replica_validity_factor := 10;
     replica_no_failover := false |}.

(** The world of the [lead]th process of the node. *)
Definition process (lead : Z) : World :=
  mkWorld 1000000000 1700000000000 [] [] (counter lead) 0 (fun l => l) 0 (fun _ => true) (Some &"10.0.0.1").

Lemma process_setting lead : setting options (process lead).
Proof.
  split; [split; done|by repeat constructor| |done|apply counter_distinct].
  intros ip [= <-]. by repeat constructor.
Qed.

Definition state (r : bytes + Cluster DS) : Cluster DS :=
  match r with inr c => c | inl _ => initial options (replication_of no_keys) (process 0) None [] end.

Lemma works_state r : (exists c, r = inr c) -> r = inr (state r).
Proof. by intros [c ->]. Qed.

(** ** Its first start *)

Definition first : Cluster DS := state (boot options (replication_of no_keys) (process 0) None []).

Lemma first_boots : boot options (replication_of no_keys) (process 0) None [] = inr first.
Proof.
  apply works_state, (boot_works 0); [apply nothing_leaves|apply process_setting|by vm_compute| |done].
  apply first_ids, process_setting.
Qed.

(** A state of a node with the ids of [counter 0]. *)
Definition lives (B : Z) (c : Cluster DS) : Prop := life B c /\ w_rng (world c) = counter 0.

Lemma first_lives : lives 1 first.
Proof.
  pose proof (process_setting 0) as S. split; [by eapply life_first; [|apply first_boots]|].
  apply (boot_good 0 options (replication_of no_keys) (process 0) None []); [apply nothing_leaves|done|by vm_compute| |apply first_boots].
  by apply first_ids.
Qed.

Definition first_life : life 1 first := proj1 first_lives.

Lemma bump_modest : modest 1 [&"BUMPEPOCH"].
Proof. split; [|by intros]. constructor; [by apply (bool_decide_unpack _)|constructor]. Qed.

(** ** Its second start *)

(** The file of a first start names the node itself and nobody else. *)
Lemma first_disk : exists c : Cluster DS, disk first = Some (describe_nodes true c) /\ sound c /\
  forall id p, lookup c id = Some p -> id = nth_id (counter 0) 0.
Proof.
  destruct (load_new 0 options (replication_of no_keys) (process 0) None [] nothing_leaves (process_setting 0)
    ltac:(by vm_compute) eq_refl) as (c1 & E1 & Hg1 & _ & Ho1 & _ & Hs1).
  set (c2 := update_state (on_peer (myself_ c1) (own_address c1) c1)). exists c2.
  assert (L : leads 1 1 [] c1 c2).
  { eapply leads_then; [apply leads_own_address; rewrite Ho1; apply (process_setting 0)|apply inert_update_state]. }
  split; [|split].
  - by apply (boot_disk options (replication_of no_keys) (process 0) None [] c1 first E1 Hs1 first_boots).
  - destruct (L Hg1) as [Hg2 _]. by eapply good_sound.
  - intros id p E. unfold lookup, c2 in E. rewrite (in_table _ _ (inert_update_state _)) in E. cbn in E.
    unfold loaded in E1. cbn in E1. injection E1 as <-. cbn in E.
    apply lookup_insert_Some in E as [[<- _]|[_ E]]; [done|]. by rewrite lookup_empty in E.
Qed.

Lemma second_ids : new_ids options (replication_of one_key) (process 1) (disk first) (posted first).
Proof.
  destruct first_disk as (c0 & Ed & Hs & Hids). rewrite Ed. apply file_ids; [done|]. intros j.
  destruct (lookup c0 (nth_id (counter 1) j)) as [p|] eqn:E; [|exact E].
  apply Hids in E. exfalso. revert E. apply counter_leads; lia.
Qed.

(** ** Two masters that know each other *)

Definition me_id : bytes := &"aaaaaaaaaaaaaaaaaaaaaaaaaaaaaaaaaaaaaaaa".
Definition other_id : bytes := &"cccccccccccccccccccccccccccccccccccccccc".

Definition me : Peer := new_peer <| n_id := me_id |> <| n_ip := &"10.0.0.1" |> <| n_port := 7000 |> <| n_cport := 17000 |>
  <| n_flags := Z.lor kMyself kMaster |> <| n_config_epoch := 1 |>.
Definition other : Peer := new_peer <| n_id := other_id |> <| n_ip := &"10.0.0.2" |> <| n_port := 7001 |> <| n_cport := 17001 |>
  <| n_flags := kMaster |> <| n_config_epoch := 2 |>.

Definition empty_table : Table := mkTable ∅ 0 ∅ ∅ ∅ ∅.
Definition pair_table : Table := set_slot_in 3 (Some 0) (enrol_in other (enrol_in me empty_table)).

(** The node [me] serves slot 3, the slot of the key of [one_key]. *)
Definition pair : Cluster DS :=
  initial options (replication_of one_key) (process 0) None [] <| table := pair_table |> <| current_epoch_ := 2 |>.

Lemma me_ok : peer_ok me.
Proof. split; try done; by repeat constructor. Qed.

Lemma other_ok : peer_ok other.
Proof. split; try done; by repeat constructor. Qed.

Lemma pair_table_ok : table_ok pair_table (Some 0).
Proof.
  apply table_ok_set_slot; [done| |].
  - intros p [= <-]. exists me. done.
  - apply (table_ok_enrol other _ (Some 0)); [apply other_ok|done|by left|done|done|].
    apply (table_ok_enrol me _ None); [apply me_ok|done|by right|done|done|].
    split; try done. intros id p. split; [done|by intros (n & E & _)].
    intros slot p [E|[E|E]]; done.
Qed.

Lemma pair_heap p n : heap pair_table !! p = Some n ->
  (p = 0 /\ n = me <| n_slots := 8 |>) \/ (p = 1 /\ n = other).
Proof.
  intros E. change (heap pair_table) with (<[0 := me <| n_slots := 8 |>]> (<[1 := other]> (∅ : gmap Z Peer))) in E.
  apply lookup_insert_Some in E as [[<- <-]|[_ E]]; [by left|].
  apply lookup_insert_Some in E as [[<- <-]|[_ E]]; [by right|]. done.
Qed.

(** No drawn id ends like theirs. *)
Lemma pair_new j : nodes_ pair_table !! nth_id (counter 0) j = None.
Proof.
  assert (E : nth_id (counter 0) j !! 39%nat = Some "0"%byte) by (rewrite counter_digit, counter_at by lia; done).
  destruct (nodes_ pair_table !! nth_id (counter 0) j) as [p|] eqn:Ep; [|done].
  apply (tb_ids _ _ pair_table_ok) in Ep as (n & En & Eid).
  rewrite <-Eid in E. apply pair_heap in En as [[_ ->]|[_ ->]]; discriminate E.
Qed.

Lemma pair_good : good 2 pair.
Proof.
  split; try done.
  - apply pair_table_ok.
  - exists (me <| n_slots := 8 |>). done.
  - split; try done. intros p n l E El. apply pair_heap in E as [[_ ->]|[_ ->]]; discriminate El.
  - split; [apply counter_distinct| |].
    + exists 0%nat. split; [done|]. split; [done|]. intros j _ _. apply pair_new.
    + intros p n E Eh. apply pair_heap in E as [[_ ->]|[_ ->]]; discriminate Eh.
  - intros ip [= <-]. by repeat constructor.
  - split; [done|done|]. intros p n E. apply pair_heap in E as [[_ ->]|[_ ->]]; done.
  - split; [constructor|constructor|done|done].
  - by apply Forall_singleton.
Qed.

Lemma one_key_wf : Store.wf (store_ pair).
Proof.
  pose proof (Store.store_run_invariant (T := HashTable.HashTable) 0 Store.kNoEviction [] [(0, Store.OSet &"raw" &"v" false)]) as I.
  change (store_ pair) with one_key. unfold one_key. destruct (Store.run _ _ _ _) as [rs s]. apply I.
Qed.

Lemma other_member : member pair 1.
Proof. exists other. done. Qed.

Lemma pair_at : at_time 0 (pair <| state_ok_ := true |>).
Proof. split; [exact one_key_wf|]. intros i. reflexivity. Qed.

(** Slot 3 is the only slot with an owner. *)
Lemma pair_loses s : 0 <= s < kSlots -> ClusterRules.settled 1 5 8 pair s <> Some (myself_ pair).
Proof.
  intros Hs. destruct (decide (s = 3)) as [->|Hne]; [discriminate|].
  assert (E : owner pair s = None) by exact (lookup_singleton_ne 3 s (0 : Z) ltac:(congruence)).
  unfold ClusterRules.settled. rewrite E. by destruct (_ && _).
Qed.

(** [pair] with one slot more. *)
Definition richer : Cluster DS := set_slot 7 (Some 0) pair.

Lemma richer_good : good 2 richer.
Proof.
  destruct (leads_set_slot 2 7 (Some 0) pair) as [Hg _]; [done| |apply pair_good|exact Hg].
  intros p [= <-]. apply pair_good.
Qed.

Lemma richer_member : member richer 1.
Proof. exists other. done. Qed.

(** [me] as a replica of [other], which serves slot 4. *)
Definition follower : Cluster DS :=
  pair <| table := set_slot_in 4 (Some 1) (enrol_in other (enrol_in (me <| n_flags := Z.lor kMyself kReplica |>
            <| n_master_id := other_id |>) empty_table)) |>.




End ClusterDemo.

Module ClusterClaims.
Import Cluster ClusterStore ClusterInv ClusterOps ClusterEvents ClusterRules ClusterConfig ClusterSafety ClusterDemo.

(** ** Lives *)

Section lives.
Context {DS : Type} `{SlotStore DS}.
Implicit Types c : Cluster DS.

(** C3: Whatever a node goes through - messages, commands, timers, failing
    saves, crashes and restarts from its file - it never votes twice in one
    epoch, and never in an epoch it has not reached. *)
Theorem votes_once_per_epoch B c : life B c -> NoDup (acks c) /\ Forall (fun e => e <= current_epoch_ c) (acks c).
Proof.
  intros Hg%life_good. destruct (gd_votes _ _ Hg) as [Hn Hc _ _]. split; [done|].
  eapply list.Forall_impl; [exact Hc|]. cbn. lia.
Qed.

(** C8: The invariant of a node of the cluster: every pointer of its tables,
    links and failovers leads to a node that exists, the slots of a node are the
    slots it owns, no config epoch is above the current epoch, the votes it cast
    are covered by the file on disk, and every message it sent is one a node may
    send.  It holds at every point of every life. *)
Theorem life_keeps_invariant B c : life B c -> good B c.
Proof. apply life_good. Qed.

(** C25: No event makes a node forget: it stays the node it is, the current
    epoch and its own config epoch do not go back, and the next state is one the
    invariant holds of. *)
Theorem epochs_never_go_back B e c : life B c -> B + cost e c <= M.uint64_max -> admissible B e c ->
  n_id (myself (handle e c)) = n_id (myself c) /\ current_epoch_ c <= current_epoch_ (handle e c) /\
  n_config_epoch (myself c) <= n_config_epoch (myself (handle e c)) /\ good (B + cost e c) (handle e c).
Proof.
  intros L Hc Ha. pose proof (life_progress B e c L Hc Ha) as P.
  split_and!; [apply P|apply P|apply P|]. by destruct (advances_handle B e c Hc Ha (life_good _ _ L)).
Qed.

(** C11: A node can be started again from the file it left, whenever it stops,
    also from an older file that a crash of the machine brings back because the
    rename over it was not synced: the file is accepted, the node has its id
    again, and every vote it cast is still counted.  This is for a life among
    well-behaved nodes in which no argument of a CLUSTER command has a NUL
    ([admissible]); with one, MEET can make a file that is refused. *)
Theorem restart_succeeds B o (n : R.Node DS) w c d : life B c -> d ∈ disk c :: unsynced c -> setting o w ->
  new_ids o n w d (posted c) ->
  B + 1 <= M.uint64_max -> w_saves w = [] -> exists c', boot o n w d (posted c) = inr c' /\ life (B + 1) c' /\
    posted c `prefix_of` posted c' /\ (d <> None -> n_id (myself c') = n_id (myself c)).
Proof.
  intros L Hin Hw Hids HB Hs. pose proof (life_good _ _ L) as Hg. pose proof (good_leaves B c d Hg Hin) as Hl.
  destruct (boot_works B o n w _ _ Hl Hw HB Hids Hs) as [c' Eb]. exists c'. split; [done|].
  destruct (boot_good B o n w _ _ Hl Hw HB c' Hids Eb) as (_ & Hp & _).
  split; [by eapply life_restart|]. split; [done|]. intros Hd. pose proof (gd_disk _ _ Hg) as Hk. unfold disk_ok in Hk.
  rewrite list.Forall_forall in Hk. specialize (Hk d Hin). destruct d as [text|]; [|done]. destruct Hk as (c0 & Et & Hs0 & _ & <- & _).
  eapply (boot_id B o n w (Some text) (posted c)); try done. by rewrite Et.
Qed.

(** C23: The configuration file is read back as it was written: the nodes that
    were no mere handshakes with all that is kept of them, the owners and moves
    of slots, the epochs. *)
Theorem config_round_trip B o (n : R.Node DS) w log c : good B c -> exists c',
  parse_config (describe_nodes true c) (initial o n w (Some (describe_nodes true c)) log) = inr c' /\ restores c c' /\
  table_ok (table c') (Some (myself_ c')).
Proof.
  intros Hs%good_sound.
  destruct (parse_describe c (initial o n w (Some (describe_nodes true c)) log) Hs eq_refl) as (c' & td & ? & ? & ? & _).
  by exists c'.
Qed.

(** ** Rules *)

(** C12: A claim to slots that a master hears of is settled slot by slot: it wins a slot nobody owns
    and a slot of an owner with a lower config epoch, unless the slot is being
    imported here; every other slot keeps its owner. *)
Theorem slot_conflict_rule B from e slots c s : good B c -> member c from -> from <> myself_ c ->
  is_ kMaster (myself c) = true -> 0 <= s < kSlots ->
  owner (update_slots_config_with from e slots c) s = settled from e slots c s.
Proof.
  intros Hg Hf Hne Hm Hs. destruct (decide (settled from e slots c s = Some (myself_ c))) as [E|E].
  - rewrite E. by eapply update_slots_keeps.
  - by apply update_slots_settles.
Qed.

(** C15: A vote is cast exactly for a request that earns it, if the save works
    and a link to the requester is open; the file on disk has the vote by then, and
    no crash brings back an older one. *)
Theorem vote_rule requester request c :
  let c' := send_failover_auth_if_needed requester request c in
  let granted := (exists m, earns requester request c m) /\ save_works c /\ answerable requester c in
  (granted /\ acks c' = acks c ++ [current_epoch_ c] /\ exists c0, left_on_disk c' = (Some (describe_nodes true c0), []) /\
     current_epoch_ c0 = current_epoch_ c /\ last_vote_epoch_ c0 = current_epoch_ c) \/
  (~ granted /\ acks c' = acks c).
Proof.
  cbv zeta. destruct (vote_guards requester request c) as [(m & Hm & ->)|[Hn ->]].
  - destruct (cast_vote_acks requester m c) as [(? & ? & ? & ?)|[Hg ?]]; [left|right].
    + split; [|done]. split; [by exists m|done].
    + split; [|done]. intros [_ ?]. by apply Hg.
  - right. split; [|done]. intros [[m Hm] _]. by apply (Hn m).
Qed.


(** C26: A replica that is promoted owns exactly what its master owned and
    what it owned itself; it is a master then, and nobody's replica. *)
Theorem promotion_takes_over fresh c old : lookup c (n_master_id (myself c)) = Some old ->
  is_ kMaster (myself c) = false -> live c (myself_ c) -> old <> myself_ c ->
  let c' := failover_replace_master fresh c in
  (forall s, 0 <= s < kSlots ->
     owner c' s = if bool_decide (owner c s = Some old) then Some (myself_ c) else owner c s) /\
  is_ kMaster (myself c') = true /\ is_ kReplica (myself c') = false /\ n_master_id (myself c') = [] /\
  myself_ c' = myself_ c.
Proof. apply promotion. Qed.

End lives.

Section keys.
Context {T : Type -> Type} `{KL : KeyTableLaws T}.
Implicit Types c : Cluster (Store.Store T).

(** C16: A master that loses slots to a newer owner follows that owner if the
    last of its slots went to it: it is then a replica, of that owner.  If it
    keeps a slot, or lost none, it stays a master and deletes the keys of the
    slots it lost, all of them and no others, and logs one DEL for each. *)
Theorem lost_slots_are_emptied B from e slots c : good B c -> Store.wf (store_ c) -> member c from -> from <> myself_ c ->
  is_ kMaster (myself c) = true ->
  let c' := update_slots_config_with from e slots c in
  let lost s := owner c s = Some (myself_ c) /\ settled from e slots c s = Some from in
  let lost_last := (exists s, 0 <= s < kSlots /\ lost s) /\
                   (forall s, 0 <= s < kSlots -> settled from e slots c s <> Some (myself_ c)) in
  let value c k := Store.vals (Store.abstract (store_ c)) !! k in
  (lost_last /\ is_ kReplica (myself c') = true /\ is_ kMaster (myself c') = false /\
     n_master_id (myself c') = n_id (peer c from)) \/
  (~ lost_last /\ is_ kMaster (myself c') = true /\
   exists ks, NoDup ks /\ (forall k, k ∈ ks <-> lost (key_hash_slot k) /\ is_Some (value c k)) /\
    repl c' = R.execute (map del_command ks) (store_ c') (repl c) /\ Store.wf (store_ c') /\
    forall k, value c' k = if decide (lost (key_hash_slot k)) then None else value c k).
Proof.
  intros Hg W Hf Hne Hm. cbv zeta.
  destruct (update_slots_outcome B from e slots c Hg Hf Hne Hm) as [[L []]|(L & Hm' & c1 & dirty & C & E & D)]; [by left|right].
  split; [exact L|]. split; [done|]. rewrite E. clear L.
  assert (Es : store_ c1 = store_ c) by (unfold store_; by rewrite (ct_repl _ _ C)).
  destruct (drop_slots dirty c1) as (ks & [D1 D2 D3 D4 D5]); [by rewrite Es|]. rewrite Es in D3, D5.
  assert (K : forall k, is_Some (Store.vals (Store.abstract (store_ c)) !! k) -> key_hash_slot k ∈ dirty <->
    owner c (key_hash_slot k) = Some (myself_ c) /\ settled from e slots c (key_hash_slot k) = Some from).
  { intros k Hk. rewrite D. pose proof (key_hash_slot_range k). assert (0 < count_keys_in_slot (store_ c) (key_hash_slot k)); [|tauto].
    cbn. rewrite <-Store.slot_keys_length by done. assert (Hin : k ∈ Store.slot_keys (store_ c) (key_hash_slot k)) by (by apply Store.elem_of_slot_keys).
    destruct (Store.slot_keys _ _); [by apply elem_of_nil in Hin|cbn; lia]. }
  exists ks. split_and!; [done| |by rewrite D2 at 1; cbn; rewrite (ct_repl _ _ C)|done|].
  - intros k. rewrite D3. split; intros [? ?]; (split; [|done]); by apply (K k).
  - intros k. rewrite D5. destruct (Store.vals (Store.abstract (store_ c)) !! k) as [v|] eqn:Ev; [|by case_bool_decide; case_decide].
    pose proof (K k ltac:(rewrite Ev; eauto)). case_bool_decide; case_decide; tauto.
Qed.

(** C27: A command with keys runs here exactly when its keys are of one slot,
    the cluster is up, the slot has an owner, and the node may serve it ([served]):
    the slot is its own, unless it is migrating and one of the keys is gone from
    the dataset; or the slot is being imported and the client sent ASKING, and,
    if there are several keys, none is gone; or it is its master's slot, for a
    read of a READONLY client.  A key is gone when it does not exist or has
    expired. *)
Theorem route_serves_exactly t key rest write asking readonly c : at_time t c ->
  (route (key :: rest) write asking readonly c).1 = None <->
  same_slot (key :: rest) (key_hash_slot key) /\ state_ok_ c = true /\
  exists o, owner c (key_hash_slot key) = Some o /\
            served (gone t c) (key :: rest) write asking readonly c (key_hash_slot key) o.
Proof. intros Hc. by apply route_none, some_missing. Qed.

End keys.

(** ** The properties of the nodes of the demo *)

#[local] Opaque first.

Lemma votes_once_per_epoch_witness : life 1 first /\ NoDup (acks first).
Proof. split; [exact first_life|]. exact (proj1 (votes_once_per_epoch 1 first first_life)). Defined.

Lemma life_keeps_invariant_witness : life 1 first /\ good 1 first.
Proof. split; [exact first_life|]. exact (life_keeps_invariant 1 first first_life). Defined.

Lemma epochs_never_go_back_witness :
  current_epoch_ first <= current_epoch_ (handle (ev_command [] [] [&"BUMPEPOCH"]) first).
Proof.
  assert (Hc : 1 + cost (ev_command [] [] [&"BUMPEPOCH"]) first <= M.uint64_max) by (cbn [cost]; unfold M.uint64_max; lia).
  exact (proj1 (proj2 (epochs_never_go_back 1 (ev_command [] [] [&"BUMPEPOCH"]) first first_life Hc bump_modest))).
Defined.

Lemma restart_succeeds_witness : exists c', boot options (replication_of one_key) (process 1) (disk first) (posted first) = inr c' /\
  life 2 c' /\ n_id (myself c') = n_id (myself first).
Proof.
  destruct (restart_succeeds 1 options (replication_of one_key) (process 1) first (disk first)) as (c' & ? & ? & _ & Hid).
  - exact first_life.
  - apply list_elem_of_here.
  - apply process_setting.
  - apply second_ids.
  - by vm_compute.
  - reflexivity.
  - exists c'. split; [assumption|]. split; [assumption|]. apply Hid.
    destruct first_disk as (c0 & E & _). rewrite E. discriminate.
Defined.

Lemma config_round_trip_witness : exists c',
  parse_config (describe_nodes true pair)
    (initial options (replication_of one_key) (process 0) (Some (describe_nodes true pair)) []) = inr c' /\ restores pair c'.
Proof.
  destruct (config_round_trip 2 options (replication_of one_key) (process 0) [] pair pair_good) as (c' & ? & ? & _).
  exists c'. split; assumption.
Defined.

Lemma slot_conflict_rule_witness : owner (update_slots_config_with 1 5 8 pair) 3 = Some 1 /\
  owner (update_slots_config_with 1 1 8 pair) 3 = Some 0.
Proof.
  split.
  - rewrite (slot_conflict_rule 2 1 5 8 pair 3); [reflexivity|apply pair_good|apply other_member|discriminate|reflexivity|done].
  - rewrite (slot_conflict_rule 2 1 1 8 pair 3); [reflexivity|apply pair_good|apply other_member|discriminate|reflexivity|done].
Defined.

Lemma promotion_takes_over_witness : owner follower 4 = Some 1 /\ owner (failover_replace_master [] follower) 4 = Some 0.
Proof.
  split; [reflexivity|].
  destruct (promotion_takes_over [] follower 1) as [E _]; [reflexivity|reflexivity|eexists; reflexivity|discriminate|].
  rewrite E; [reflexivity|done].
Defined.

(** [pair] loses slot 3, the only one it has, and follows [other]; with slot 7 as
    well it stays a master, and loses its key. *)
Lemma lost_slots_are_emptied_witness :
  n_master_id (myself (update_slots_config_with 1 5 8 pair)) = other_id /\
  Store.vals (Store.abstract (store_ (update_slots_config_with 1 5 8 richer))) !! &"raw" = None.
Proof.
  split.
  - destruct (lost_slots_are_emptied 2 1 5 8 pair) as [(_ & _ & _ & E)|[L _]];
      [apply pair_good|apply one_key_wf|apply other_member|discriminate|reflexivity|exact E|].
    destruct L. split; [exists 3; split; [done|by split]|]. apply pair_loses.
  - destruct (lost_slots_are_emptied 2 1 5 8 richer) as [[[_ L] _]|(_ & _ & ks & _ & _ & _ & _ & E)];
      [apply richer_good|apply one_key_wf|apply richer_member|discriminate|reflexivity| |].
    + destruct (L 7); [done|reflexivity].
    + rewrite E, decide_True; [reflexivity|]. by split.
Defined.

Lemma route_serves_exactly_witness :
  (route [&"raw"] true false false (pair <| state_ok_ := true |>)).1 = None.
Proof.
  apply (route_serves_exactly 0 &"raw" [] true false false (pair <| state_ok_ := true |>)); [apply pair_at|].
  split; [intros k Hk; by apply list_elem_of_singleton in Hk as ->|]. split; [reflexivity|]. exists 0. split; [reflexivity|].
  split; [intros (_ & F & _); by apply F|]. right. split; [intros [F _]; by apply F|by left].
Defined.


End ClusterClaims.
